(* ===== verification/_CoqProject ===== *)
-Q . S2P
Prelude.v
StdContainers.v
Gtid.v
BgSync.v
Double.v
Bson.v
BsonOrder.v
StorageKey.v
BsonValidate.v
BsonObj.v
DocOrder.v
ChunkVersion.v
CollectionManager.v
QLock.v
ParseNumber.v
FieldElement.v
FieldRange.v
FieldRangeSet.v
FieldRangeVector.v
RangeIterator.v
IndexBounds.v
RowBuffer.v
IndexCursor.v
Prelock.v
QueryOps.v
Matcher.v
KeyGenerator.v
CoveredMatcher.v
QueryRange.v
QueryParse.v
OperatorRange.v
MatchValues.v
QueryBounds.v
