(* ===== verification/Prelude.v ===== *)
(** * TokuMX: a verification library

    A model of parts of the TokuMX server (a MongoDB server on fractal tree storage), translated
    from the C++ under src/src/mongo, with the theorems that make those parts correct.  File names
    below are relative to that directory.

    ** The program and its parts

    A server stores documents in the BSON format.  Documents are compared by one order of all BSON
    values, which decides the order of index keys, of sorted results and of the chunks that a sharded
    collection is cut into.  An index keeps keys in a dictionary in a packed form, whose order has to
    agree with the order of documents.  Documents from the network are validated before use.

    A query is a document.  The matcher decides whether a stored document satisfies it.  The planner
    derives from the same query a range of values for each field, and from the ranges the intervals of
    the fields of an index; a cursor scans the index over the intervals, skipping what is outside, and
    the matcher filters the rows, by their keys where the keys are enough.  So the matcher, the ranges,
    the key generator, the iterator and the cursor have to agree with each other.

    Readers and writers are kept apart by the quad lock.  In a replica set each transaction gets a
    global transaction identifier (GTID): the primary hands them out, and secondaries copy and apply
    the oplog in their order.  In a sharded cluster each shard knows its chunks and a version that
    grows with every change to them.

    ** Files

    General:
    - Prelude (this file): results of fallible code, integers of fixed width, bytes and string
      constants, [memcmp] and [strcmp], automation.
    - StdContainers: [std::set] and [std::map] as sorted sequences, for any comparator.
    - Double: doubles as 64-bit patterns with an exact value.
    - ParseNumber: base/parse_number.cpp.

    Documents and keys:
    - Bson: bson/bsontypes.h, bsonelement.h, bsonobj.h, bsonobjiterator.h, bsonobjbuilder.h.  The type
      [bval] of values, the layout in memory, sizes, iteration and reading.
    - BsonOrder: bson/bson-inl.h, bson/ordering.h, db/jsobj.cpp.  Comparison of elements and documents.
    - BsonObj: operations on documents of bson/bson-inl.h, bson/bsonobjbuilder.h, db/jsobj.cpp.
    - BsonValidate: bson/bson_validate.cpp.  The buffer and the iterative state machine.
    - StorageKey: db/storage/key.h, key.cpp.  [KeyV1] and [Key].

    Queries:
    - QueryOps: the names of operators (db/jsobj.cpp) and the prefixes of regular expressions
      (db/queryutil.cpp).
    - Matcher: db/matcher.h, matcher.cpp.  [Module Parse] is the parser, [Module Match] the match.
    - KeyGenerator: db/keygenerator.cpp.  The keys of a document in an index.
    - CoveredMatcher: db/matcher_covered.cpp and the part of db/matcher.cpp that matches keys.
    - FieldElement: the class of elements that bound ranges, and its instance for BSON.
    - FieldRange, FieldRangeSet, FieldRangeVector: the classes of these names of db/queryutil.h,
      db/queryutil.cpp: ranges of one field, of a query, of an index.
    - QueryRange, QueryParse: the constructor of a range from an element of a query, and the parser of
      a query into ranges (db/queryutil.cpp).
    - RangeIterator: [FieldRangeVectorIterator].  IndexBounds: theorems on the bounds of an index.
    - RowBuffer, IndexCursor, Prelock: db/indexcursor.cpp, db/cursor.h.  The buffer of rows, the
      scan, and the locks taken before it.
    - OperatorRange, MatchValues, QueryBounds: theorems that relate the ranges to the matcher.

    Concurrency, replication, sharding:
    - QLock: util/concurrency/qlock.h.
    - Gtid: db/gtid.h, gtid.cpp.  BgSync: db/repl/bgsync.cpp.
    - DocOrder: what the sharding code asks of documents, as a class, with its instance for BSON.
    - ChunkVersion: s/chunk_version.h.  CollectionManager: s/collection_manager.cpp.

    ** How the code is translated

    Objects are records of their fields, methods functions from state to state.  Exceptions, assertions
    and undefined behaviour are values: [Err] with the code of the assertion, or [None].  Integers are
    [Z] with their width written out where it matters ([u32], [u64] and the like); a string is the list
    of its bytes.  Threads are steps on a shared state, one step for each stretch of code under the
    mutex.  The elements of ranges and the bounds of chunks are of any type with the operations of a
    class ([FieldElement], [DocOrder]); the instances are the BSON values on which the comparison is a
    total preorder ([elem_dom], [odom]): without integers beyond 2^53 next to doubles, and without dates
    mixed with timestamps out of their common range, where the comparison of the code is not transitive.

    Recursion that is not structural has fuel: the length of a name for dotted paths ([dotted_fuel]), the
    total length of the field names for key generation ([key_fuel]), the number of bounds for the binary
    search of an interval, the number of rows for a scan, the number of bytes for validation.  Each step
    shortens what the fuel measures, and [matcher_total], [keygen_total], [search_spec], [cursor_scan] and
    [validate_accepts] show that the fuel is enough; buffers that are not BSON can keep the validation
    from ending, see BsonValidate.

    What is outside the sources is a parameter: the regular expression engine ([PartialMatch]), the
    evaluation of [$where] ([where_exec]), the dictionary of an index ([set_range], with what its
    documentation says as hypothesis: in particular MinPK and MaxPK lie around every primary key), whether
    two bounds are one element in memory ([rawdata_eq]; in key generation it is the place of the element
    in the document), the contents of fresh memory, the thread that a condition variable wakes, and whether the application of an oplog
    entry fails.

    ** What the theorems show

    - Queries.  [query_bounds]: a document that a query matches is in the bounds of the scan that the
      planner derives from the query, for the queries of [rangeable] and documents with one value in each
      field of the index; [query_bounds_not] gives the range of a negated comparison, which is outside
      of these queries and loses the values of other types.  [covered_matcher]: matching by the key of a row gives the answer
      of the query.  [vector_make], [vector_matchesKey], [iterator_advance], [cursor_scan]: the bounds
      of an index lose no value of the ranges, the iterator loses no key, and the scan ends and visits
      exactly the rows in the bounds, in order, when the intervals have no limit; [pk_scan_stuck] is a scan of a primary key index that
      does not end.  [range_intersect], [range_union], [range_difference], [rangeset_difference]: the
      operations on ranges are those on the sets of values.  [matcher_not], [matcher_ne_nin],
      [matcher_total], [keygen_total], [keygen_single]: negation, and totality.  [rowbuffer_queue]: the
      row buffer refines a queue.  [prelock_compound], [prelock_single_field]: what is locked.
    - Documents.  [bson_order_key]: the comparison is the lexicographic order of a key.  [bson_roundtrip]:
      what is written is read back.  [validate_accepts], [validate_in_bounds]: validation accepts
      documents and reads nothing outside its buffer.  [keyv1_order], [keyv1_roundtrip], [key_order]:
      packed keys can be unpacked and are in the order of their documents.
    - Concurrency.  [qlock_exclusion], [qlock_no_lost_wakeup], [qlock_fasserts]: modes that exclude each
      other are never held together, and no waiter is forgotten.  [gtid_read_horizon],
      [gtid_min_live_is_min], [gtid_no_lost_wakeup], [bgsync_unapplied_horizon], [bgsync_settles],
      [bgsync_stopped_quiescent], [rollback_to_common_point]: readers see no transaction that is not
      finished; a secondary, from initial sync on, applies its oplog, stops cleanly, and rolls back to
      the common point.
    - Sharding.  [cm_belongs], [cm_plus]: the shard knows exactly the keys of its chunks.
    - [parse_number_spec]: the parser of numbers accepts the numerals of a grammar that fit the type,
      without overflow.

    Every theorem with hypotheses has a witness that applies it to a concrete input.

    ** Not modelled

    The storage engine is a library outside the sources; collections, updates, transactions and the
    oplog act through it.  The choice among query plans and [OrRangeGenerator], which depends on it,
    decide speed and the order of clauses, not the rows of a plan.  Elections, heartbeats, migrations and
    routing are protocols between servers whose messages and timers the sources do not determine.
    [$within] is floating point geometry, hashed indexes use MD5.  The aggregation language, commands,
    authentication, clients, the shell, the tools and the bindings to JavaScript are not modelled.  Of
    modelled classes, debugging output, statistics and [MatchDetails] are left out, as are the cached
    answer of [FieldInterval::equality] and directions of an index that are no whole numbers.  The
    phases of a member as a primary are in Gtid, those as a secondary in BgSync; a run that goes through
    both is not modelled. *)

From stdpp Require Export base list numbers gmap strings.
From Stdlib Require Export Lia.

#[global] Open Scope Z_scope.

(** ** Fallible code: C++ exceptions, Status values and NULL results *)

Inductive result (E A : Type) : Type :=
| Ok (a : A)
| Err (e : E).
Arguments Ok {E A} a.
Arguments Err {E A} e.

Definition result_bind {E A B : Type} (m : result E A) (k : A → result E B) : result E B :=
  match m with
  | Ok a => k a
  | Err e => Err e
  end.

Definition is_ok {E A : Type} (m : result E A) : bool :=
  match m with Ok _ => true | Err _ => false end.

Declare Scope tokumx_scope.
Delimit Scope tokumx_scope with tokumx.
Notation "x <-? m ;; k" := (result_bind m (fun x => k))
  (at level 100, m at next level, right associativity) : tokumx_scope.
#[global] Open Scope tokumx_scope.

(** ** Machine integers

    A [w]-bit unsigned value is the [Z] of its bit pattern; signed values are the
    [Z] they denote.  The functions below are the C++ conversions. *)

Definition wrapU (w x : Z) : Z := x mod 2 ^ w.
Definition wrapS (w x : Z) : Z := (x + 2 ^ (w - 1)) mod 2 ^ w - 2 ^ (w - 1).

Abbreviation u32 := (wrapU 32).
Abbreviation u64 := (wrapU 64).
Abbreviation i32 := (wrapS 32).
Abbreviation i64 := (wrapS 64).

Definition in_u (w x : Z) : Prop := 0 ≤ x < 2 ^ w.
Definition in_s (w x : Z) : Prop := - 2 ^ (w - 1) ≤ x < 2 ^ (w - 1).

(** ** Bytes: a byte is a [Z] in [[0, 256)], a buffer a list of bytes. *)

(** The bytes of a string constant *)
Definition bytes (s : string) : list Z := map (λ a, Z.of_N (Ascii.N_of_ascii a)) (String.list_ascii_of_string s).
Arguments bytes s%_string_scope.

Ltac norm_bytes :=
  repeat match goal with
  | |- context [bytes ?s] => let v := eval vm_compute in (bytes s) in change (bytes s) with v
  | H : context [bytes ?s] |- _ => let v := eval vm_compute in (bytes s) in change (bytes s) with v in H
  end.

Definition is_byte (b : Z) : bool := (0 <=? b) && (b <? 256).
Definition bytes_ok (l : list Z) : Prop := Forall (λ b, is_byte b = true) l.

(** Little-endian layout of a [k]-byte integer, as [*(T* )p = x] stores it. *)
Fixpoint le_bytes (k : nat) (x : Z) : list Z :=
  match k with
  | O => []
  | S k' => x mod 256 :: le_bytes k' (x / 256)
  end.

Fixpoint le_val (l : list Z) : Z :=
  match l with
  | [] => 0
  | b :: l' => b + 256 * le_val l'
  end.

(** [memcmp] over the first [length] bytes of two equally long buffers; for buffers of
    different lengths it compares the common prefix (the callers that do so add the length
    test themselves).  Only the sign of the result is specified by C. *)
Fixpoint memcmp (l r : list Z) : Z :=
  match l, r with
  | a :: l', b :: r' => if a =? b then memcmp l' r' else if a <? b then -1 else 1
  | _, _ => 0
  end.

(** [strcmp] on buffers without their terminating zero byte. *)
Fixpoint strcmp (l r : list Z) : Z :=
  match l, r with
  | [], [] => 0
  | [], _ :: _ => -1
  | _ :: _, [] => 1
  | a :: l', b :: r' => if a =? b then strcmp l' r' else if a <? b then -1 else 1
  end.

(** ** Automation shared by the components *)

Create HintDb tokumx.
#[export] Hint Constructors Forall : tokumx.

(** Turns the boolean tests of the code into the facts they decide. *)
Ltac bool_facts :=
  repeat match goal with
  | H : (_ && _) = true |- _ => apply andb_true_iff in H; destruct H
  | H : (_ || _) = false |- _ => apply orb_false_iff in H; destruct H
  | H : negb _ = true |- _ => apply negb_true_iff in H
  | H : negb _ = false |- _ => apply negb_false_iff in H
  | H : (_ =? _) = true |- _ => apply Z.eqb_eq in H
  | H : (_ =? _) = false |- _ => apply Z.eqb_neq in H
  | H : (_ <? _) = true |- _ => apply Z.ltb_lt in H
  | H : (_ <? _) = false |- _ => apply Z.ltb_ge in H
  | H : (_ <=? _) = true |- _ => apply Z.leb_le in H
  | H : (_ <=? _) = false |- _ => apply Z.leb_gt in H
  | H : (_ =? _)%nat = true |- _ => apply Nat.eqb_eq in H
  | H : (_ =? _)%nat = false |- _ => apply Nat.eqb_neq in H
  end.

(** Splits on every [if] and [match] of the goal, keeping the equations. *)
Ltac split_ifs :=
  repeat match goal with
  | |- context [if ?b then _ else _] =>
      lazymatch b with context [if _ then _ else _] => fail | _ => destruct b eqn:? end
  end.

Ltac crush_cmp := split_ifs; bool_facts; try lia; try done.

(** ** Lemmas on machine integers *)

Lemma wrapU_range w x : 0 ≤ w → in_u w (wrapU w x).
Proof. intros. apply Z.mod_pos_bound. lia. Qed.

Lemma wrapU_id w x : in_u w x → wrapU w x = x.
Proof. intros H. apply Z.mod_small. exact H. Qed.

Lemma wrapS_id w x : 0 < w → in_s w x → wrapS w x = x.
Proof.
  unfold wrapS, in_s. intros Hw H.
  assert (2 ^ w = 2 * 2 ^ (w - 1)) as E.
  { rewrite <- Z.pow_succ_r by lia. f_equal. lia. }
  rewrite Z.mod_small; lia.
Qed.

(** ** Lemmas on buffers *)

Lemma length_le_bytes k x : length (le_bytes k x) = k.
Proof. revert x. induction k; intros; simpl; auto. Qed.

Lemma le_bytes_ok k x : bytes_ok (le_bytes k x).
Proof.
  revert x. induction k as [|k IH]; intros x; [by constructor|].
  constructor; [|apply IH]. unfold is_byte.
  pose proof (Z.mod_pos_bound x 256 ltac:(lia)). lia.
Qed.

Lemma pow256_succ k : 256 ^ Z.of_nat (S k) = 256 * 256 ^ Z.of_nat k.
Proof. rewrite Nat2Z.inj_succ, Z.pow_succ_r by lia. lia. Qed.

Lemma le_val_bytes k x : le_val (le_bytes k x) = x mod 256 ^ Z.of_nat k.
Proof.
  revert x. induction k as [|k IH]; intros x.
  - simpl. rewrite Z.mod_1_r. done.
  - cbn [le_bytes le_val]. rewrite IH, pow256_succ, Z.rem_mul_r by lia. lia.
Qed.

Lemma le_val_bound l : bytes_ok l → 0 ≤ le_val l < 256 ^ Z.of_nat (length l).
Proof.
  unfold bytes_ok. induction 1 as [|b l Hb _ IH].
  - simpl. lia.
  - cbn [length le_val]. rewrite pow256_succ. unfold is_byte in Hb. bool_facts. lia.
Qed.

Lemma le_bytes_val l : bytes_ok l → le_bytes (length l) (le_val l) = l.
Proof.
  unfold bytes_ok. induction 1 as [|b l Hb _ IH]; [done|].
  cbn [length le_val le_bytes]. unfold is_byte in Hb. bool_facts.
  replace (b + 256 * le_val l) with (b + le_val l * 256) by lia.
  rewrite Z.mod_add, Z.div_add by lia.
  rewrite Z.mod_small, Z.div_small by lia. f_equal. exact IH.
Qed.

Lemma le_val_bytes_u k x : 0 ≤ x < 256 ^ Z.of_nat k → le_val (le_bytes k x) = x.
Proof. intros. rewrite le_val_bytes. by apply Z.mod_small. Qed.

Lemma memcmp_app l r l' r' :
  length l = length r →
  memcmp (l ++ l') (r ++ r') = if memcmp l r =? 0 then memcmp l' r' else memcmp l r.
Proof.
  revert r. induction l as [|a l IH]; intros [|b r] H; simplify_eq/=; [done|].
  destruct (a =? b); [by apply IH|]. destruct (a <? b); done.
Qed.

Lemma memcmp_eq0 l r : length l = length r → memcmp l r = 0 → l = r.
Proof.
  revert r. induction l as [|a l IH]; intros [|b r] H E; simplify_eq/=; [done|].
  destruct (a =? b) eqn:?; [|destruct (a <? b); lia].
  bool_facts. subst. f_equal. auto.
Qed.

Lemma memcmp_refl l : memcmp l l = 0.
Proof. induction l as [|a l IH]; simpl; [done|]. by rewrite Z.eqb_refl. Qed.

Lemma memcmp_opp l r : memcmp r l = - memcmp l r.
Proof.
  revert r. induction l as [|a l IH]; intros [|b r]; simpl; try done.
  rewrite (Z.eqb_sym b a). destruct (a =? b) eqn:?; [auto|].
  crush_cmp.
Qed.

Lemma strcmp_refl l : strcmp l l = 0.
Proof. induction l as [|a l IH]; simpl; [done|]. by rewrite Z.eqb_refl. Qed.

Lemma strcmp_opp l r : strcmp r l = - strcmp l r.
Proof.
  revert r. induction l as [|a l IH]; intros [|b r]; simpl; try done.
  rewrite (Z.eqb_sym b a). destruct (a =? b) eqn:?; [auto|].
  crush_cmp.
Qed.

Lemma strcmp_eq0 l r : strcmp l r = 0 → l = r.
Proof.
  revert r. induction l as [|a l IH]; intros [|b r]; simpl; try done.
  destruct (a =? b) eqn:?; [|destruct (a <? b); lia].
  bool_facts. intros. subst. f_equal. auto.
Qed.

Lemma strcmp_trans l1 l2 l3 : strcmp l1 l2 ≤ 0 → strcmp l2 l3 ≤ 0 → strcmp l1 l3 ≤ 0.
Proof.
  revert l2 l3. induction l1 as [|a l1 IH]; intros [|b l2] [|c l3]; simpl; try lia.
  crush_cmp; subst; eauto.
Qed.
