(* ===== verification/StdContainers.v ===== *)
(** * Ordered containers of the C++ standard library

    [std::set<K, Cmp>] and [std::map<K, V, Cmp>] are modelled by the sequence their
    iterators run over: a list of entries sorted strictly by the comparator [Cmp] on the key
    of the entry.  A set has [key = id], a map has [key = fst].  Two keys are the same key when
    the comparator orders neither before the other, so the model covers comparators coarser
    than equality ([BSONObjCmp]).  Iterators are positions in the list. *)

From S2P Require Import Prelude.
From Stdlib Require Export Sorting.Sorted.

(** What [std::set] and [std::map] ask of a comparator (a strict weak ordering). *)
Class Comparator {K : Type} (ltb : K → K → bool) : Prop := {
  ltb_irrefl x : ltb x x = false;
  ltb_trans x y z : ltb x y = true → ltb y z = true → ltb x z = true;
  ltb_neg_trans x y z : ltb x y = false → ltb y z = false → ltb x z = false
}.

Section operations.
Context {A K : Type} (key : A → K) (ltb : K → K → bool).

Definition equivb (x y : K) : bool := negb (ltb x y) && negb (ltb y x).

(** [insert]: no effect when an equivalent key is present. *)
Fixpoint sl_insert (a : A) (l : list A) : list A :=
  match l with
  | [] => [a]
  | b :: l' =>
      if ltb (key a) (key b) then a :: l
      else if ltb (key b) (key a) then b :: sl_insert a l'
      else l
  end.

(** [erase(key)] *)
Fixpoint sl_erase (k : K) (l : list A) : list A :=
  match l with
  | [] => []
  | b :: l' => if equivb (key b) k then l' else b :: sl_erase k l'
  end.

(** [find]: [None] is [end()] *)
Fixpoint sl_find (k : K) (l : list A) : option A :=
  match l with
  | [] => None
  | b :: l' => if equivb (key b) k then Some b else sl_find k l'
  end.

(** [lower_bound] and [upper_bound], as positions; [length l] is [end()]. *)
Fixpoint sl_lower (k : K) (l : list A) : nat :=
  match l with
  | [] => 0
  | b :: l' => if ltb (key b) k then S (sl_lower k l') else 0
  end.

Fixpoint sl_upper (k : K) (l : list A) : nat :=
  match l with
  | [] => 0
  | b :: l' => if ltb k (key b) then 0 else S (sl_upper k l')
  end.

Definition sl_sorted (l : list A) : Prop :=
  StronglySorted (λ a b, ltb (key a) (key b) = true) l.

(** The same, as a test. *)
Fixpoint sl_sortedb (l : list A) : bool :=
  match l with
  | [] => true
  | a :: l' =>
      match l' with
      | [] => true
      | b :: _ => ltb (key a) (key b)
      end && sl_sortedb l'
  end.
End operations.

(** [m[k] = v]: assigns to the entry of [k] (whose stored key stays), or creates it. *)
Fixpoint map_assign {K V : Type} (ltb : K → K → bool) (k : K) (v : V) (l : list (K * V))
  : list (K * V) :=
  match l with
  | [] => [(k, v)]
  | (k', v') :: l' =>
      if ltb k k' then (k, v) :: l
      else if ltb k' k then (k', v') :: map_assign ltb k v l'
      else (k', v) :: l'
  end.

Section laws.
Context {A K : Type} (key : A → K) (ltb : K → K → bool) `{!Comparator ltb}.

Lemma ltb_asym x y : ltb x y = true → ltb y x = false.
Proof.
  intros H. destruct (ltb y x) eqn:E; [|done].
  pose proof (ltb_trans _ _ _ H E). by rewrite (ltb_irrefl (ltb:=ltb)) in *.
Qed.

Lemma equivb_refl x : equivb ltb x x = true.
Proof. unfold equivb. by rewrite (ltb_irrefl (ltb:=ltb)). Qed.

Lemma equivb_sym x y : equivb ltb x y = equivb ltb y x.
Proof. unfold equivb. apply andb_comm. Qed.

Lemma equivb_true x y : equivb ltb x y = true ↔ ltb x y = false ∧ ltb y x = false.
Proof. unfold equivb. rewrite andb_true_iff, !negb_true_iff. done. Qed.

Lemma equivb_ltb_l x y z : equivb ltb x y = true → ltb x z = ltb y z.
Proof.
  rewrite equivb_true. intros [H1 H2].
  destruct (ltb x z) eqn:E1, (ltb y z) eqn:E2; try done.
  - by rewrite (ltb_neg_trans _ _ _ H1 E2) in E1.
  - by rewrite (ltb_neg_trans _ _ _ H2 E1) in E2.
Qed.

Lemma equivb_ltb_r x y z : equivb ltb x y = true → ltb z x = ltb z y.
Proof.
  rewrite equivb_true. intros [H1 H2].
  destruct (ltb z x) eqn:E1, (ltb z y) eqn:E2; try done.
  - by rewrite (ltb_neg_trans _ _ _ E2 H2) in E1.
  - by rewrite (ltb_neg_trans _ _ _ E1 H1) in E2.
Qed.

Lemma equivb_equivb x y z : equivb ltb x y = true → equivb ltb x z = equivb ltb y z.
Proof.
  intros H. unfold equivb. by rewrite (equivb_ltb_l _ _ _ H), (equivb_ltb_r _ _ _ H).
Qed.

Lemma ltb_not_equivb x y : ltb x y = true → equivb ltb x y = false.
Proof. unfold equivb. by intros ->. Qed.

(** Trichotomy of a comparator, for case analysis. *)
Lemma ltb_cases x y :
  ltb x y = true ∧ ltb y x = false ∨ equivb ltb x y = true ∨ ltb x y = false ∧ ltb y x = true.
Proof.
  destruct (ltb x y) eqn:E1, (ltb y x) eqn:E2; auto.
  - by rewrite (ltb_asym _ _ E1) in E2.
  - right. left. by apply equivb_true.
Qed.

Lemma sl_sorted_cons a l :
  sl_sorted key ltb (a :: l) ↔ (∀ b, b ∈ l → ltb (key a) (key b) = true) ∧ sl_sorted key ltb l.
Proof.
  unfold sl_sorted. split.
  - inversion 1 as [|?? H1 H2]; subst. split; [|done].
    intros b Hb. by apply (proj1 (Forall_forall _ _) H2).
  - intros [H1 H2]. constructor; [done|]. by apply Forall_forall.
Qed.

Lemma sl_sortedb_sorted l : sl_sortedb key ltb l = true → sl_sorted key ltb l.
Proof.
  induction l as [|a l IH]; [constructor|]. cbn [sl_sortedb]. intros [H1 H2]%andb_true_iff.
  specialize (IH H2). apply sl_sorted_cons. split; [|done].
  destruct l as [|b l]; [intros ? []%not_elem_of_nil|].
  apply sl_sorted_cons in IH as [H3 _]. intros c [->|Hc]%elem_of_cons; [done|].
  apply (ltb_trans _ (key b)); [done|]. by apply H3.
Qed.

Lemma sl_insert_elem a l x : x ∈ sl_insert key ltb a l → x = a ∨ x ∈ l.
Proof.
  induction l as [|b l IH]; cbn [sl_insert].
  - intros ?%list_elem_of_singleton. by left.
  - split_ifs; rewrite ?elem_of_cons; naive_solver.
Qed.

Lemma sl_insert_old a l x : x ∈ l → x ∈ sl_insert key ltb a l.
Proof.
  induction l as [|b l IH]; cbn [sl_insert]; [intros []%not_elem_of_nil|].
  split_ifs; rewrite ?elem_of_cons; naive_solver.
Qed.

Lemma sl_insert_new a l :
  sl_find key ltb (key a) l = None → a ∈ sl_insert key ltb a l.
Proof.
  induction l as [|b l IH]; cbn [sl_insert sl_find]; [set_solver|].
  destruct (equivb ltb (key b) (key a)) eqn:E; [done|]. intros H.
  destruct (ltb (key a) (key b)) eqn:E1; [set_solver|].
  destruct (ltb (key b) (key a)) eqn:E2; [set_solver|].
  unfold equivb in E. by rewrite E1, E2 in E.
Qed.

Lemma sl_insert_sorted a l : sl_sorted key ltb l → sl_sorted key ltb (sl_insert key ltb a l).
Proof.
  induction l as [|b l IH]; cbn [sl_insert].
  - intros _. apply sl_sorted_cons. split; [set_solver|constructor].
  - intros H. pose proof H as [H1 H2]%sl_sorted_cons.
    destruct (ltb (key a) (key b)) eqn:E1.
    { apply sl_sorted_cons. split; [|done].
      intros c [->|Hc]%elem_of_cons; [done|]. eauto using ltb_trans. }
    destruct (ltb (key b) (key a)) eqn:E2; [|done].
    apply sl_sorted_cons. split; [|auto].
    intros c [->|Hc]%sl_insert_elem; auto.
Qed.

Lemma sl_erase_elem k l x : x ∈ sl_erase key ltb k l → x ∈ l.
Proof.
  induction l as [|b l IH]; cbn [sl_erase]; [done|].
  split_ifs; rewrite ?elem_of_cons; naive_solver.
Qed.

Lemma sl_erase_keep k l x :
  x ∈ l → equivb ltb (key x) k = false → x ∈ sl_erase key ltb k l.
Proof.
  induction l as [|b l IH]; cbn [sl_erase]; [done|].
  rewrite elem_of_cons. intros [->|H] E.
  - rewrite E. set_solver.
  - destruct (equivb ltb (key b) k); set_solver.
Qed.

Lemma sl_erase_sorted k l : sl_sorted key ltb l → sl_sorted key ltb (sl_erase key ltb k l).
Proof.
  induction l as [|b l IH]; cbn [sl_erase]; [done|].
  intros [H1 H2]%sl_sorted_cons. destruct (equivb ltb (key b) k); [done|].
  apply sl_sorted_cons. split; [|auto]. intros c ?%sl_erase_elem. auto.
Qed.

Lemma sl_erase_gone k l x :
  sl_sorted key ltb l → x ∈ sl_erase key ltb k l → equivb ltb (key x) k = false.
Proof.
  induction l as [|b l IH]; cbn [sl_erase]; [set_solver|].
  intros [H1 H2]%sl_sorted_cons. destruct (equivb ltb (key b) k) eqn:E.
  - intros Hx. pose proof (ltb_not_equivb _ _ (H1 _ Hx)) as N.
    rewrite (equivb_equivb _ _ _ E), equivb_sym in N. done.
  - intros [->|Hx]%elem_of_cons; auto.
Qed.

Lemma sl_erase_spec k l x :
  sl_sorted key ltb l →
  x ∈ sl_erase key ltb k l ↔ x ∈ l ∧ equivb ltb (key x) k = false.
Proof.
  intros S. split.
  - intros H. split; [by eapply sl_erase_elem|by eapply sl_erase_gone].
  - intros [H1 H2]. by apply sl_erase_keep.
Qed.

Lemma sl_find_Some k l a :
  sl_find key ltb k l = Some a → a ∈ l ∧ equivb ltb (key a) k = true.
Proof.
  induction l as [|b l IH]; cbn [sl_find]; [done|].
  destruct (equivb ltb (key b) k) eqn:E.
  - intros [= ->]. set_solver.
  - intros [? ?]%IH. set_solver.
Qed.

Lemma sl_find_None k l a :
  sl_find key ltb k l = None → a ∈ l → equivb ltb (key a) k = false.
Proof.
  induction l as [|b l IH]; cbn [sl_find]; [set_solver|].
  destruct (equivb ltb (key b) k) eqn:E; [done|].
  intros H [->|Ha]%elem_of_cons; auto.
Qed.

(** In a sorted sequence equivalent keys belong to one entry. *)
Lemma sl_sorted_unique l a b :
  sl_sorted key ltb l → a ∈ l → b ∈ l → equivb ltb (key a) (key b) = true → a = b.
Proof.
  induction l as [|c l IH]; [set_solver|].
  intros [H1 H2]%sl_sorted_cons [->|Ha]%elem_of_cons [->|Hb]%elem_of_cons E; auto.
  - by rewrite (ltb_not_equivb _ _ (H1 _ Hb)) in E.
  - rewrite equivb_sym in E. by rewrite (ltb_not_equivb _ _ (H1 _ Ha)) in E.
Qed.

Lemma sl_find_spec k l a :
  sl_sorted key ltb l → a ∈ l → equivb ltb (key a) k = true → sl_find key ltb k l = Some a.
Proof.
  intros S Ha E. destruct (sl_find key ltb k l) as [b|] eqn:F.
  - apply sl_find_Some in F as [Hb E']. f_equal. symmetry.
    apply (sl_sorted_unique l); auto.
    rewrite (equivb_equivb _ _ _ E). by rewrite equivb_sym.
  - by rewrite (sl_find_None _ _ _ F Ha) in E.
Qed.

(** [lower_bound] splits a sorted sequence into the keys before [k] and the rest. *)
Lemma sl_lower_before k l i a :
  l !! i = Some a → (i < sl_lower key ltb k l)%nat → ltb (key a) k = true.
Proof.
  revert i. induction l as [|b l IH]; intros i; cbn [sl_lower]; [done|].
  destruct (ltb (key b) k) eqn:E; [|lia].
  destruct i as [|i]; simpl; [by intros [= ->]|]. intros. apply (IH i); [done|lia].
Qed.

Lemma sl_lower_after k l i a :
  sl_sorted key ltb l →
  l !! i = Some a → (sl_lower key ltb k l ≤ i)%nat → ltb (key a) k = false.
Proof.
  revert i. induction l as [|b l IH]; intros i; cbn [sl_lower]; [done|].
  intros [H1 H2]%sl_sorted_cons. destruct (ltb (key b) k) eqn:E.
  - destruct i as [|i]; simpl; [lia|]. intros. apply (IH i); [done..|lia].
  - destruct i as [|i]; simpl; [by intros [= ->]|]. intros Ha _.
    apply list_elem_of_lookup_2, H1 in Ha. destruct (ltb (key a) k) eqn:E'; [|done].
    by rewrite (ltb_trans _ _ _ Ha E') in E.
Qed.

Lemma sl_lower_le k l : (sl_lower key ltb k l ≤ length l)%nat.
Proof. induction l as [|b l IH]; simpl; [lia|]. split_ifs; lia. Qed.

Lemma sl_upper_le k l : (sl_upper key ltb k l ≤ length l)%nat.
Proof. induction l as [|b l IH]; simpl; [lia|]. split_ifs; lia. Qed.

Lemma sl_upper_before k l i a :
  l !! i = Some a → (i < sl_upper key ltb k l)%nat → ltb k (key a) = false.
Proof.
  revert i. induction l as [|b l IH]; intros i; cbn [sl_upper]; [done|].
  destruct (ltb k (key b)) eqn:E; [lia|].
  destruct i as [|i]; simpl; [by intros [= ->]|]. intros. apply (IH i); [done|lia].
Qed.

Lemma sl_upper_after k l i a :
  sl_sorted key ltb l →
  l !! i = Some a → (sl_upper key ltb k l ≤ i)%nat → ltb k (key a) = true.
Proof.
  revert i. induction l as [|b l IH]; intros i; cbn [sl_upper]; [done|].
  intros [H1 H2]%sl_sorted_cons. destruct (ltb k (key b)) eqn:E.
  - destruct i as [|i]; simpl; [by intros [= ->]|]. intros Ha _.
    apply list_elem_of_lookup_2, H1 in Ha. by eapply ltb_trans.
  - destruct i as [|i]; simpl; [lia|]. intros. apply (IH i); [done..|lia].
Qed.

Lemma sl_sorted_lookup l i j a b :
  sl_sorted key ltb l → l !! i = Some a → l !! j = Some b → (i < j)%nat →
  ltb (key a) (key b) = true.
Proof.
  revert i j. induction l as [|c l IH]; intros i j; [done|].
  intros [H1 H2]%sl_sorted_cons. destruct j as [|j]; [lia|].
  destruct i as [|i]; simpl; intros Hi Hj ?.
  - simplify_eq. apply H1. by eapply list_elem_of_lookup_2.
  - apply (IH i j); auto with lia.
Qed.
End laws.

#[export] Hint Resolve sl_insert_sorted sl_erase_sorted : tokumx.

Section assign.
Context {K V : Type} (ltb : K → K → bool) `{!Comparator ltb}.

Lemma map_assign_elem k (v : V) l x :
  x ∈ map_assign ltb k v l → x ∈ l ∨ equivb ltb x.1 k = true ∧ x.2 = v.
Proof.
  induction l as [|[k' v'] l IH]; cbn [map_assign].
  - intros ->%list_elem_of_singleton. right. split; [apply (equivb_refl ltb)|done].
  - destruct (ltb k k') eqn:E1; [|destruct (ltb k' k) eqn:E2]; intros [->|Hx]%elem_of_cons; try (left; set_solver).
    + right. split; [apply (equivb_refl ltb)|done].
    + apply IH in Hx. set_solver.
    + right. split; [by apply equivb_true|done].
Qed.

Lemma map_assign_sorted k (v : V) l : sl_sorted fst ltb l → sl_sorted fst ltb (map_assign ltb k v l).
Proof.
  induction l as [|[k' v'] l IH]; cbn [map_assign]; [by repeat constructor|].
  intros [S1 S2]%sl_sorted_cons. destruct (ltb k k') eqn:E1; [|destruct (ltb k' k) eqn:E2]; apply sl_sorted_cons.
  - split; [|by apply sl_sorted_cons]. intros b [->|Hb]%elem_of_cons; [done|]. by eapply ltb_trans, S1.
  - split; [|by apply IH]. intros b [Hb|[Hb _]]%map_assign_elem; [by apply S1|]. cbn in *.
    by rewrite (equivb_ltb_r ltb _ _ _ Hb).
  - by split.
Qed.
End assign.
