(* ===== verification/Gtid.v ===== *)
(** * Global transaction identifiers and the GTID manager (src/src/mongo/db/gtid.{h,cpp})

    [GTID] is the pair of 64-bit counters a transaction carries in the oplog, with its
    comparison, its 16-byte form and its increments.  [GTIDManager] is the state a replica-set
    member keeps about the GTIDs it hands out (primary) or applies (secondary); each method is
    a function from state to state.  Methods run under [_lock], so a run of the manager is a
    sequence of whole methods.  [verify] ends the process on failure and gives [Err]; the
    [dassert]s, which release builds compile out, are kept as the separate predicates
    [*_dassert].  The condition variable [_minLiveCond] is the list of threads that wait on it,
    each with the GTID it passed as [last]. *)

From S2P Require Import Prelude StdContainers.
From stdpp Require Import pretty.
#[local] Open Scope Z_scope.

(** ** GTID *)

Record GTID := mkGTID { _primarySeqNo : Z; _GTSeqNo : Z }.

#[export] Instance GTID_eq_dec : EqDecision GTID.
Proof. solve_decision. Defined.

(** Both counters are [uint64_t]. *)
Definition gtid_ok (g : GTID) : Prop := in_u 64 (_primarySeqNo g) ∧ in_u 64 (_GTSeqNo g).

Module GTID.

Definition cmp (a b : GTID) : Z :=
  if negb (_primarySeqNo a =? _primarySeqNo b) then
    if _primarySeqNo a <? _primarySeqNo b then -1 else 1
  else if _GTSeqNo a =? _GTSeqNo b then 0
  else if _GTSeqNo a <? _GTSeqNo b then -1 else 1.

Definition GTIDBinarySize : Z := 2 * 8.

Definition SWAP64 (x : Z) : Z :=
  u64 (Z.lor (Z.shiftr (Z.land x 0xff00000000000000) 56)
      (Z.lor (Z.shiftr (Z.land x 0x00ff000000000000) 40)
      (Z.lor (Z.shiftr (Z.land x 0x0000ff0000000000) 24)
      (Z.lor (Z.shiftr (Z.land x 0x000000ff00000000) 8)
      (Z.lor (Z.shiftl (Z.land x 0x00000000ff000000) 8)
      (Z.lor (Z.shiftl (Z.land x 0x0000000000ff0000) 24)
      (Z.lor (Z.shiftl (Z.land x 0x000000000000ff00) 40)
             (Z.shiftl (Z.land x 0x00000000000000ff) 56)))))))).

(** [GTID()] *)
Definition default : GTID := mkGTID 0 0.

(** [GTID(const char* binData)]: reads two little-endian words and swaps them. *)
Definition ofBinData (binData : list Z) : GTID :=
  mkGTID (SWAP64 (le_val (take 8 binData))) (SWAP64 (le_val (take 8 (drop 8 binData)))).

Definition serializeBinaryData (g : GTID) : list Z :=
  le_bytes 8 (SWAP64 (_primarySeqNo g)) ++ le_bytes 8 (SWAP64 (_GTSeqNo g)).

Definition inc (g : GTID) : GTID := mkGTID (_primarySeqNo g) (u64 (_GTSeqNo g + 1)).

Definition inc_primary (g : GTID) : GTID := mkGTID (u64 (_primarySeqNo g + 1)) 0.

Definition toString (g : GTID) : string :=
  ("primary: " +:+ pretty (_primarySeqNo g) +:+ " secondary: " +:+ pretty (_GTSeqNo g))%string.

Definition isInitial (g : GTID) : bool := _primarySeqNo g =? 0.

End GTID.

(** [GTID_MAX] and the comparator of [GTIDSet] *)
Definition GTID_MAX : GTID := mkGTID (2 ^ 64 - 1) (2 ^ 64 - 1).

Definition GTIDCmp (l r : GTID) : bool := GTID.cmp l r <? 0.

Abbreviation set_insert := (sl_insert id GTIDCmp).
Abbreviation set_erase := (sl_erase id GTIDCmp).

(** ** GTIDManager *)

Record GTIDManager := mkGTIDManager {
  _incPrimary : bool;
  _lastLiveGTID : GTID;
  _lastUnappliedGTID : GTID;
  _minLiveGTID : GTID;
  _minUnappliedGTID : GTID;
  _liveGTIDs : list GTID;
  _unappliedGTIDs : list GTID;
  _lastTimestamp : Z;
  _lastHash : Z;
  _selfID : Z;
  _minLiveCond : list (nat * GTID) }.

Module GTIDManager.

(** The constructor; the members it does not assign are default-constructed. *)
Definition new (lastGTID : GTID) (lastTime lastHash id : Z) : GTIDManager :=
  {| _incPrimary := false;
     _lastLiveGTID := lastGTID;
     _lastUnappliedGTID := GTID.default;
     _minLiveGTID := GTID.inc lastGTID;
     _minUnappliedGTID := GTID.default;
     _liveGTIDs := [];
     _unappliedGTIDs := [];
     _lastTimestamp := lastTime;
     _lastHash := lastHash;
     _selfID := id;
     _minLiveCond := [] |}.

(** [now] is what [curTimeMillis64()] returned. Gives the GTID, its timestamp and its hash. *)
Definition getGTIDForPrimary (now : Z) (m : GTIDManager) : GTID * Z * Z * GTIDManager :=
  let last := if _incPrimary m then GTID.inc_primary (_lastLiveGTID m)
              else GTID.inc (_lastLiveGTID m) in
  let hash := u64 (u64 (u64 (_lastHash m * 131) + now) * 17 + _selfID m) in
  (last, now, hash,
   {| _incPrimary := false;
      _lastLiveGTID := last;
      _lastUnappliedGTID := last;
      _minLiveGTID := if bool_decide (length (_liveGTIDs m) = 0%nat) then last else _minLiveGTID m;
      _minUnappliedGTID := _minUnappliedGTID m;
      _liveGTIDs := set_insert last (_liveGTIDs m);
      _unappliedGTIDs := _unappliedGTIDs m;
      _lastTimestamp := now;
      _lastHash := hash;
      _selfID := _selfID m;
      _minLiveCond := _minLiveCond m |}).

Definition getGTIDForPrimary_dassert (m : GTIDManager) : bool :=
  GTID.cmp (_lastLiveGTID m) (_lastUnappliedGTID m) =? 0.

Definition noteLiveGTIDDone (gtid : GTID) (m : GTIDManager) : GTIDManager :=
  let live := set_erase gtid (_liveGTIDs m) in
  let isMin := GTID.cmp (_minLiveGTID m) gtid =? 0 in
  let minLive :=
    if isMin then match live with [] => GTID.inc (_lastLiveGTID m) | g :: _ => g end
    else _minLiveGTID m in
  {| _incPrimary := _incPrimary m;
     _lastLiveGTID := _lastLiveGTID m;
     _lastUnappliedGTID := _lastUnappliedGTID m;
     _minLiveGTID := minLive;
     _minUnappliedGTID := if isMin then minLive else _minUnappliedGTID m;
     _liveGTIDs := live;
     _unappliedGTIDs := _unappliedGTIDs m;
     _lastTimestamp := _lastTimestamp m;
     _lastHash := _lastHash m;
     _selfID := _selfID m;
     _minLiveCond := if isMin then [] else _minLiveCond m |}.

Definition noteLiveGTIDDone_dassert (gtid : GTID) (m : GTIDManager) : bool :=
  (0 <=? GTID.cmp gtid (_minLiveGTID m)) && bool_decide (0 < length (_liveGTIDs m))%nat.

Definition noteGTIDAdded (gtid : GTID) (ts lastHash : Z) (m : GTIDManager) : GTIDManager :=
  {| _incPrimary := _incPrimary m;
     _lastLiveGTID := gtid;
     _lastUnappliedGTID := _lastUnappliedGTID m;
     _minLiveGTID := GTID.inc gtid;
     _minUnappliedGTID := _minUnappliedGTID m;
     _liveGTIDs := _liveGTIDs m;
     _unappliedGTIDs := _unappliedGTIDs m;
     _lastTimestamp := ts;
     _lastHash := lastHash;
     _selfID := _selfID m;
     _minLiveCond := [] |}.

Definition noteGTIDAdded_dassert (gtid : GTID) (m : GTIDManager) : bool :=
  (GTID.cmp (_lastLiveGTID m) (_minLiveGTID m) <? 0) && (GTID.cmp (_lastLiveGTID m) gtid <? 0).

Definition noteApplyingGTID (gtid : GTID) (m : GTIDManager) : GTIDManager :=
  {| _incPrimary := _incPrimary m;
     _lastLiveGTID := _lastLiveGTID m;
     _lastUnappliedGTID := gtid;
     _minLiveGTID := _minLiveGTID m;
     _minUnappliedGTID :=
       if bool_decide (length (_unappliedGTIDs m) = 0%nat) then gtid else _minUnappliedGTID m;
     _liveGTIDs := _liveGTIDs m;
     _unappliedGTIDs := set_insert gtid (_unappliedGTIDs m);
     _lastTimestamp := _lastTimestamp m;
     _lastHash := _lastHash m;
     _selfID := _selfID m;
     _minLiveCond := _minLiveCond m |}.

Definition noteApplyingGTID_dassert (gtid : GTID) (m : GTIDManager) : bool :=
  (0 <=? GTID.cmp gtid (_minUnappliedGTID m)) && (0 <? GTID.cmp gtid (_lastUnappliedGTID m)).

Definition noteGTIDApplied (gtid : GTID) (m : GTIDManager) : GTIDManager :=
  let unapplied := set_erase gtid (_unappliedGTIDs m) in
  {| _incPrimary := _incPrimary m;
     _lastLiveGTID := _lastLiveGTID m;
     _lastUnappliedGTID := _lastUnappliedGTID m;
     _minLiveGTID := _minLiveGTID m;
     _minUnappliedGTID :=
       if GTID.cmp (_minUnappliedGTID m) gtid =? 0 then
         match unapplied with [] => GTID.inc (_lastUnappliedGTID m) | g :: _ => g end
       else _minUnappliedGTID m;
     _liveGTIDs := _liveGTIDs m;
     _unappliedGTIDs := unapplied;
     _lastTimestamp := _lastTimestamp m;
     _lastHash := _lastHash m;
     _selfID := _selfID m;
     _minLiveCond := _minLiveCond m |}.

Definition noteGTIDApplied_dassert (gtid : GTID) (m : GTIDManager) : bool :=
  (0 <=? GTID.cmp gtid (_minUnappliedGTID m)) && bool_decide (0 < length (_unappliedGTIDs m))%nat.

Definition getMins (m : GTIDManager) : GTID * GTID := (_minLiveGTID m, _minUnappliedGTID m).

Definition getMinLiveGTID (m : GTIDManager) : GTID := (getMins m).1.

Definition resetManager (m : GTIDManager) : GTIDManager :=
  {| _incPrimary := true;
     _lastLiveGTID := _lastLiveGTID m;
     _lastUnappliedGTID := _lastLiveGTID m;
     _minLiveGTID := GTID.inc (_lastLiveGTID m);
     _minUnappliedGTID := GTID.inc (_lastLiveGTID m);
     _liveGTIDs := _liveGTIDs m;
     _unappliedGTIDs := _unappliedGTIDs m;
     _lastTimestamp := _lastTimestamp m;
     _lastHash := _lastHash m;
     _selfID := _selfID m;
     _minLiveCond := _minLiveCond m |}.

Definition resetManager_dassert (m : GTIDManager) : bool :=
  bool_decide (length (_liveGTIDs m) = 0%nat).

Definition getLiveState (m : GTIDManager) : GTID := _lastLiveGTID m.

Definition getGTIDs (m : GTIDManager) : GTID * GTID * GTID * GTID :=
  (_lastLiveGTID m, _lastUnappliedGTID m, _minLiveGTID m, _minUnappliedGTID m).

Definition getLiveGTIDs (m : GTIDManager) : GTID * GTID :=
  let '(lastLive, lastUnapplied, _, _) := getGTIDs m in (lastLive, lastUnapplied).

(** Which [verify] failed, in the order of the code. *)
Inductive verify_failure :=
| LastLiveNotApplied
| MinsDiffer
| MinNotAboveLast
| LiveNotEmpty
| UnappliedNotEmpty.

Definition verifyReadyToBecomePrimary (m : GTIDManager) : result verify_failure unit :=
  if negb (GTID.cmp (_lastLiveGTID m) (_lastUnappliedGTID m) =? 0) then Err LastLiveNotApplied
  else if negb (GTID.cmp (_minLiveGTID m) (_minUnappliedGTID m) =? 0) then Err MinsDiffer
  else if negb (0 <? GTID.cmp (_minLiveGTID m) (_lastLiveGTID m)) then Err MinNotAboveLast
  else Ok tt.

(** The part of the call before the wait ends: the caller [tid] joins the waiters when there
    is nothing new.  It leaves the wait by a notification or by the timeout below. *)
Definition waitForDifferentMinLive (tid : nat) (last : GTID) (m : GTIDManager) : GTIDManager :=
  if GTID.cmp last (_minLiveGTID m) =? 0 then
    {| _incPrimary := _incPrimary m;
       _lastLiveGTID := _lastLiveGTID m;
       _lastUnappliedGTID := _lastUnappliedGTID m;
       _minLiveGTID := _minLiveGTID m;
       _minUnappliedGTID := _minUnappliedGTID m;
       _liveGTIDs := _liveGTIDs m;
       _unappliedGTIDs := _unappliedGTIDs m;
       _lastTimestamp := _lastTimestamp m;
       _lastHash := _lastHash m;
       _selfID := _selfID m;
       _minLiveCond := (tid, last) :: _minLiveCond m |}
  else m.

Definition waitForDifferentMinLive_dassert (last : GTID) (m : GTIDManager) : bool :=
  GTID.cmp last (_minLiveGTID m) <=? 0.

Definition resetAfterInitialSync (last : GTID) (lastTime lastHash : Z) (m : GTIDManager)
  : result verify_failure GTIDManager :=
  if negb (bool_decide (length (_liveGTIDs m) = 0%nat)) then Err LiveNotEmpty
  else if negb (bool_decide (length (_unappliedGTIDs m) = 0%nat)) then Err UnappliedNotEmpty
  else Ok
    {| _incPrimary := _incPrimary m;
       _lastLiveGTID := last;
       _lastUnappliedGTID := last;
       _minLiveGTID := GTID.inc last;
       _minUnappliedGTID := GTID.inc last;
       _liveGTIDs := _liveGTIDs m;
       _unappliedGTIDs := _unappliedGTIDs m;
       _lastTimestamp := lastTime;
       _lastHash := lastHash;
       _selfID := _selfID m;
       _minLiveCond := _minLiveCond m |}.

Definition getCurrTimestamp (m : GTIDManager) : Z := _lastTimestamp m.

Definition catchUnappliedToLive (m : GTIDManager) : result verify_failure GTIDManager :=
  if negb (bool_decide (length (_liveGTIDs m) = 0%nat)) then Err LiveNotEmpty
  else if negb (bool_decide (length (_unappliedGTIDs m) = 0%nat)) then Err UnappliedNotEmpty
  else Ok
    {| _incPrimary := _incPrimary m;
       _lastLiveGTID := _lastLiveGTID m;
       _lastUnappliedGTID := _lastLiveGTID m;
       _minLiveGTID := _minLiveGTID m;
       _minUnappliedGTID := _minLiveGTID m;
       _liveGTIDs := _liveGTIDs m;
       _unappliedGTIDs := _unappliedGTIDs m;
       _lastTimestamp := _lastTimestamp m;
       _lastHash := _lastHash m;
       _selfID := _selfID m;
       _minLiveCond := _minLiveCond m |}.

Definition rollbackNeeded (last : GTID) (lastTime lastHash : Z) (m : GTIDManager) : bool :=
  negb ((GTID.cmp last (_lastLiveGTID m) =? 0) &&
        (lastTime =? _lastTimestamp m) && (lastHash =? _lastHash m)).

End GTIDManager.

(** ** The order of GTIDs *)

Definition gtid_lt (a b : GTID) : Prop := GTID.cmp a b < 0.
Definition gtid_le (a b : GTID) : Prop := GTID.cmp a b ≤ 0.

(** Room for one more increment of either counter. *)
Definition gtid_room (g : GTID) : Prop :=
  0 ≤ _primarySeqNo g < 2 ^ 64 - 1 ∧ 0 ≤ _GTSeqNo g < 2 ^ 64 - 1.

Ltac gtid_cases :=
  unfold gtid_room, gtid_ok, in_u, gtid_lt, gtid_le, GTIDCmp, GTID.cmp, GTID.inc,
    GTID.inc_primary in *;
  repeat match goal with g : GTID |- _ => destruct g end;
  simpl in *;
  repeat match goal with
  | H : context [if ?b then _ else _] |- _ => destruct b eqn:?
  end; split_ifs; bool_facts.

Lemma gtid_cmp_eq0 a b : GTID.cmp a b = 0 ↔ a = b.
Proof. split; [|intros ->]; gtid_cases; intros; try lia. f_equal; lia. Qed.

Lemma gtid_cmp_opp a b : GTID.cmp b a = - GTID.cmp a b.
Proof. gtid_cases; lia. Qed.

Lemma gtid_lt_le_trans a b c : gtid_lt a b → gtid_le b c → gtid_lt a c.
Proof. intros. gtid_cases; lia. Qed.

Lemma gtid_le_lt_trans a b c : gtid_le a b → gtid_lt b c → gtid_lt a c.
Proof. intros. gtid_cases; lia. Qed.

Lemma gtid_le_trans a b c : gtid_le a b → gtid_le b c → gtid_le a c.
Proof. intros. gtid_cases; lia. Qed.

Lemma gtid_le_refl a : gtid_le a a.
Proof. unfold gtid_le. by rewrite (proj2 (gtid_cmp_eq0 a a) eq_refl). Qed.

Lemma gtid_lt_irrefl a : ¬ gtid_lt a a.
Proof. unfold gtid_lt. by rewrite (proj2 (gtid_cmp_eq0 a a) eq_refl). Qed.

Lemma gtid_lt_le a b : gtid_lt a b → gtid_le a b.
Proof. unfold gtid_lt, gtid_le. lia. Qed.

Lemma gtid_not_lt a b : ¬ gtid_lt a b ↔ gtid_le b a.
Proof. unfold gtid_lt, gtid_le. rewrite (gtid_cmp_opp a b). lia. Qed.

Lemma gtid_le_lt_eq a b : gtid_le a b → gtid_lt a b ∨ a = b.
Proof. unfold gtid_le, gtid_lt. rewrite <- gtid_cmp_eq0. lia. Qed.

Lemma gtid_inc_lt g : gtid_room g → gtid_lt g (GTID.inc g).
Proof.
  intros H. unfold GTID.inc. rewrite wrapU_id by (unfold gtid_room, in_u in *; lia).
  gtid_cases; lia.
Qed.

Lemma gtid_inc_primary_lt g : gtid_room g → gtid_lt g (GTID.inc_primary g).
Proof.
  intros H. unfold GTID.inc_primary. rewrite wrapU_id by (unfold gtid_room, in_u in *; lia).
  gtid_cases; lia.
Qed.

(** [inc] is the successor in the order of GTIDs. *)
Lemma gtid_inc_least g h : gtid_room g → gtid_lt g h → gtid_le (GTID.inc g) h.
Proof.
  intros H. unfold GTID.inc. rewrite wrapU_id by (unfold gtid_room, in_u in *; lia).
  intros. gtid_cases; lia.
Qed.

#[export] Hint Resolve gtid_le_refl gtid_lt_le gtid_inc_lt gtid_inc_primary_lt : tokumx.
#[export] Hint Resolve gtid_lt_le_trans gtid_le_lt_trans gtid_le_trans : tokumx.

#[export] Instance GTIDCmp_comparator : Comparator GTIDCmp.
Proof.
  split; unfold GTIDCmp.
  - intros x. by rewrite (proj2 (gtid_cmp_eq0 x x) eq_refl).
  - intros x y z H1 H2. bool_facts. apply Z.ltb_lt. by apply (gtid_lt_le_trans x y z), gtid_lt_le.
  - intros x y z H1 H2. bool_facts. apply Z.ltb_ge.
    pose proof (gtid_le_trans z y x). unfold gtid_le in *.
    rewrite (gtid_cmp_opp x y), (gtid_cmp_opp y z), (gtid_cmp_opp x z) in *. lia.
Qed.

Lemma gtid_equivb a b : equivb GTIDCmp a b = true ↔ a = b.
Proof.
  rewrite equivb_true. unfold GTIDCmp. rewrite !Z.ltb_ge, (gtid_cmp_opp a b), <- gtid_cmp_eq0.
  lia.
Qed.

Lemma gtid_equivb_false a b : equivb GTIDCmp a b = false ↔ a ≠ b.
Proof. rewrite <- gtid_equivb. destruct (equivb GTIDCmp a b); naive_solver. Qed.

(** ** The 16-byte form *)

(** Byte [k] of a word, as the masks of [SWAP64] take it. *)
Definition byte_at (x : Z) (k : Z) : Z := (x / 2 ^ (8 * k)) mod 256.

Lemma land_byte x k :
  0 ≤ k → Z.land x (Z.shiftl 255 (8 * k)) = Z.shiftl (byte_at x k) (8 * k).
Proof.
  intros Hk. unfold byte_at. change 255 with (Z.ones 8). change 256 with (2 ^ 8).
  rewrite <- Z.land_ones, <- Z.shiftr_div_pow2 by lia.
  apply Z.bits_inj'. intros n Hn.
  rewrite Z.land_spec, !Z.shiftl_spec by lia.
  destruct (decide (n < 8 * k)).
  - rewrite !(Z.testbit_neg_r _ (n - 8 * k)) by lia. apply andb_false_r.
  - rewrite Z.land_spec, Z.shiftr_spec by lia. do 2 f_equal. lia.
Qed.

Lemma lor_byte b r : is_byte b = true → 0 ≤ r → Z.lor b (Z.shiftl r 8) = b + 256 * r.
Proof.
  intros Hb Hr. unfold is_byte in Hb. bool_facts.
  assert (Z.land b (Z.shiftl r 8) = 0) as E.
  { apply Z.bits_inj'. intros n Hn. rewrite Z.land_spec, Z.shiftl_spec, Z.bits_0 by lia.
    destruct (decide (n < 8)); [rewrite (Z.testbit_neg_r r) by lia; apply andb_false_r|].
    destruct (decide (b = 0)) as [->|]; [by rewrite Z.bits_0|].
    rewrite (Z.bits_above_log2 b n); [done|lia|].
    enough (Z.log2 b < 8) by lia. apply Z.log2_lt_pow2; lia. }
  pose proof (Z.add_lor_land b (Z.shiftl r 8)) as H'. rewrite E in H'.
  rewrite Z.shiftl_mul_pow2 in * by lia. lia.
Qed.

Lemma byte_at_byte x k : is_byte (byte_at x k) = true.
Proof. unfold byte_at, is_byte. pose proof (Z.mod_pos_bound (x / 2 ^ (8 * k)) 256). lia. Qed.

Lemma SWAP64_bytes x :
  GTID.SWAP64 x = le_val (map (byte_at x) [7; 6; 5; 4; 3; 2; 1; 0]).
Proof.
  unfold GTID.SWAP64.
  change 0xff00000000000000 with (Z.shiftl 255 (8 * 7)).
  change 0x00ff000000000000 with (Z.shiftl 255 (8 * 6)).
  change 0x0000ff0000000000 with (Z.shiftl 255 (8 * 5)).
  change 0x000000ff00000000 with (Z.shiftl 255 (8 * 4)).
  change 0x00000000ff000000 with (Z.shiftl 255 (8 * 3)).
  change 0x0000000000ff0000 with (Z.shiftl 255 (8 * 2)).
  change 0x000000000000ff00 with (Z.shiftl 255 (8 * 1)).
  change 0x00000000000000ff with (Z.shiftl 255 (8 * 0)).
  rewrite !land_byte by lia.
  set (b := byte_at x).
  assert (∀ k, is_byte (b k) = true) as Hb by (intros; apply byte_at_byte).
  assert (bytes_ok (map b [7; 6; 5; 4; 3; 2; 1; 0])) as Hok by (repeat constructor; auto).
  rewrite !Z.shiftl_shiftl, !Z.shiftr_shiftl_l by lia.
  transitivity (u64 (le_val (map b [7; 6; 5; 4; 3; 2; 1; 0]))).
  2: { apply wrapU_id. pose proof (le_val_bound _ Hok). done. }
  f_equal. cbn [map le_val].
  assert (∀ k r, 0 ≤ r → b k + 256 * r = Z.lor (b k) (Z.shiftl r 8)) as L
    by (intros; symmetry; by apply lor_byte).
  assert (∀ k, 0 ≤ b k) as Hp by (intros k; specialize (Hb k); unfold is_byte in Hb; lia).
  pose proof (Hp 0). pose proof (Hp 1). pose proof (Hp 2). pose proof (Hp 3).
  pose proof (Hp 4). pose proof (Hp 5). pose proof (Hp 6).
  rewrite Z.mul_0_r, Z.add_0_r.
  rewrite (L 7), (L 6), (L 5), (L 4), (L 3), (L 2), (L 1) by lia.
  rewrite !Z.shiftl_lor, !Z.shiftl_shiftl by lia. cbn. by rewrite Z.shiftl_0_r.
Qed.

Lemma le_bytes8_byte_at x :
  le_bytes 8 x = map (byte_at x) [0; 1; 2; 3; 4; 5; 6; 7].
Proof.
  unfold byte_at. cbn [map le_bytes]. rewrite !Z.div_div by lia.
  repeat f_equal. by rewrite Z.div_1_r.
Qed.

(** The stored form of a counter is its big-endian form. *)
Lemma le_bytes_SWAP64 x : le_bytes 8 (GTID.SWAP64 x) = reverse (le_bytes 8 x).
Proof.
  rewrite (le_bytes8_byte_at x), SWAP64_bytes. unfold reverse. cbn [map rev_append].
  apply (le_bytes_val [byte_at x 7; byte_at x 6; byte_at x 5; byte_at x 4;
                       byte_at x 3; byte_at x 2; byte_at x 1; byte_at x 0]).
  repeat constructor; apply byte_at_byte.
Qed.

Lemma SWAP64_range x : in_u 64 (GTID.SWAP64 x).
Proof. apply wrapU_range. lia. Qed.

Lemma SWAP64_involutive x : in_u 64 x → GTID.SWAP64 (GTID.SWAP64 x) = x.
Proof.
  intros H.
  assert (le_bytes 8 (GTID.SWAP64 (GTID.SWAP64 x)) = le_bytes 8 x) as E.
  { by rewrite !le_bytes_SWAP64, reverse_involutive. }
  apply (f_equal le_val) in E. rewrite !le_val_bytes_u in E; auto.
  apply SWAP64_range.
Qed.

(** Comparing big-endian bytes compares the numbers. *)
Lemma memcmp_big_endian k x y :
  0 ≤ x < 256 ^ Z.of_nat k → 0 ≤ y < 256 ^ Z.of_nat k →
  memcmp (reverse (le_bytes k x)) (reverse (le_bytes k y)) =
  if x =? y then 0 else if x <? y then -1 else 1.
Proof.
  revert x y. induction k as [|k IH]; intros x y Hx Hy.
  { change (256 ^ Z.of_nat 0) with 1 in *. crush_cmp. }
  rewrite pow256_succ in Hx, Hy. cbn [le_bytes]. rewrite !reverse_cons.
  rewrite memcmp_app by (rewrite !length_reverse, !length_le_bytes; done).
  rewrite IH by (split; [apply Z.div_pos|apply Z.div_lt_upper_bound]; lia).
  pose proof (Z.div_mod x 256 ltac:(lia)). pose proof (Z.div_mod y 256 ltac:(lia)).
  pose proof (Z.mod_pos_bound x 256 ltac:(lia)). pose proof (Z.mod_pos_bound y 256 ltac:(lia)).
  cbn [memcmp]. crush_cmp.
Qed.

Lemma memcmp_counter x y :
  in_u 64 x → in_u 64 y →
  memcmp (le_bytes 8 (GTID.SWAP64 x)) (le_bytes 8 (GTID.SWAP64 y)) =
  if x =? y then 0 else if x <? y then -1 else 1.
Proof. intros. rewrite !le_bytes_SWAP64. by apply memcmp_big_endian. Qed.

(** The 16-byte form of a GTID sorts, byte by byte, exactly as [GTID::cmp] orders GTIDs,
    so the oplog, keyed by that form, is in GTID order. *)
Theorem gtid_binary_order a b :
  gtid_ok a → gtid_ok b →
  memcmp (GTID.serializeBinaryData a) (GTID.serializeBinaryData b) = GTID.cmp a b.
Proof.
  intros [] []. unfold GTID.serializeBinaryData.
  rewrite memcmp_app by (by rewrite !length_le_bytes).
  rewrite !memcmp_counter by done. unfold GTID.cmp. crush_cmp.
Qed.

Lemma gtid_binary_order_witness :
  memcmp (GTID.serializeBinaryData (mkGTID 1 (2 ^ 64 - 1)))
         (GTID.serializeBinaryData (mkGTID 256 0)) = -1.
Proof. by rewrite gtid_binary_order. Defined.

(** A GTID read back from its 16-byte form is the GTID that was written, and the form has
    [GTIDBinarySize()] bytes, whatever follows it in the buffer. *)
Theorem gtid_binary_roundtrip g rest :
  gtid_ok g →
  GTID.ofBinData (GTID.serializeBinaryData g ++ rest) = g ∧
  Z.of_nat (length (GTID.serializeBinaryData g)) = GTID.GTIDBinarySize.
Proof.
  intros []. unfold GTID.ofBinData, GTID.serializeBinaryData.
  rewrite length_app, !length_le_bytes. split; [|done].
  rewrite <- app_assoc, take_app_length' by (by rewrite length_le_bytes).
  rewrite drop_app_length' by (by rewrite length_le_bytes).
  rewrite take_app_length' by (by rewrite length_le_bytes).
  rewrite !le_val_bytes_u by apply SWAP64_range.
  rewrite !SWAP64_involutive by done. by destruct g.
Qed.

Lemma gtid_binary_roundtrip_witness :
  GTID.ofBinData (GTID.serializeBinaryData (mkGTID 7 258) ++ [9; 9]) = mkGTID 7 258.
Proof. by apply gtid_binary_roundtrip. Defined.

(** ** The manager on a primary

    A primary is its manager together with the history of the GTIDs it handed out and of those
    whose transaction has ended.  A step is one call under [_lock] by some thread. *)

Record primary := mkPrimary {
  p_mgr : GTIDManager;
  p_issued : list GTID;      (** newest first *)
  p_finished : list GTID }.

(** The end of a timed wait of thread [tid]. *)
Definition wait_timeout (tid : nat) (m : GTIDManager) : GTIDManager :=
  {| _incPrimary := _incPrimary m;
     _lastLiveGTID := _lastLiveGTID m;
     _lastUnappliedGTID := _lastUnappliedGTID m;
     _minLiveGTID := _minLiveGTID m;
     _minUnappliedGTID := _minUnappliedGTID m;
     _liveGTIDs := _liveGTIDs m;
     _unappliedGTIDs := _unappliedGTIDs m;
     _lastTimestamp := _lastTimestamp m;
     _lastHash := _lastHash m;
     _selfID := _selfID m;
     _minLiveCond := filter (λ w, w.1 ≠ tid) (_minLiveCond m) |}.

Inductive primary_step : primary → primary → Prop :=
| step_get n now g ts h m' :
    GTIDManager.getGTIDForPrimary now (p_mgr n) = (g, ts, h, m') → gtid_room g →
    primary_step n (mkPrimary m' (g :: p_issued n) (p_finished n))
| step_done n g :
    g ∈ _liveGTIDs (p_mgr n) →
    primary_step n (mkPrimary (GTIDManager.noteLiveGTIDDone g (p_mgr n))
                              (p_issued n) (g :: p_finished n))
| step_wait n tid last :
    GTIDManager.waitForDifferentMinLive_dassert last (p_mgr n) = true →
    primary_step n (mkPrimary (GTIDManager.waitForDifferentMinLive tid last (p_mgr n))
                              (p_issued n) (p_finished n))
| step_timeout n tid :
    primary_step n (mkPrimary (wait_timeout tid (p_mgr n)) (p_issued n) (p_finished n)).

(** A member becomes primary by [resetManager] (an election, [ReplSetImpl::_assumePrimary]) or,
    when it is the only member, by [catchUnappliedToLive] at startup. *)
Definition primary_start (n : primary) : Prop :=
  p_issued n = [] ∧ p_finished n = [] ∧
  ∃ m0, _liveGTIDs m0 = [] ∧ _unappliedGTIDs m0 = [] ∧ gtid_room (_lastLiveGTID m0) ∧
    (p_mgr n = GTIDManager.resetManager m0 ∨
     _minLiveGTID m0 = GTID.inc (_lastLiveGTID m0) ∧
     GTIDManager.catchUnappliedToLive m0 = Ok (p_mgr n)).

(** What [_minLiveGTID] is: the least live GTID, or the successor of the last one. *)
Definition min_live_of (last : GTID) (live : list GTID) : GTID :=
  match live with [] => GTID.inc last | g :: _ => g end.

Record primary_inv (n : primary) : Prop := {
  pi_sorted : sl_sorted id GTIDCmp (_liveGTIDs (p_mgr n));
  pi_room : gtid_room (_lastLiveGTID (p_mgr n));
  pi_unapplied : _lastUnappliedGTID (p_mgr n) = _lastLiveGTID (p_mgr n);
  pi_min : _minLiveGTID (p_mgr n) =
           min_live_of (_lastLiveGTID (p_mgr n)) (_liveGTIDs (p_mgr n));
  pi_issued_le : ∀ g, g ∈ p_issued n → gtid_le g (_lastLiveGTID (p_mgr n));
  pi_issued_sorted : StronglySorted (λ a b, gtid_lt b a) (p_issued n);
  pi_issued : ∀ g, g ∈ p_issued n ↔ g ∈ _liveGTIDs (p_mgr n) ∨ g ∈ p_finished n;
  pi_finished : ∀ g, g ∈ p_finished n → g ∉ _liveGTIDs (p_mgr n);
  pi_waiters : ∀ tid last g, (tid, last) ∈ _minLiveCond (p_mgr n) → g ∈ p_issued n →
               gtid_lt g (_minLiveGTID (p_mgr n)) → gtid_lt g last }.

Lemma primary_start_inv n : primary_start n → primary_inv n.
Proof.
  destruct n as [m iss fin]. intros (Hi & Hf & m0 & Hl & Hu & Hr & H). simpl in *. subst.
  destruct H as [->|[Hm H]].
  - constructor; simpl; rewrite ?Hl; auto; try set_solver; constructor.
  - unfold GTIDManager.catchUnappliedToLive in H. rewrite Hl, Hu in H. simplify_eq/=.
    constructor; simpl; rewrite ?Hl; auto; try set_solver; constructor.
Qed.

(** Every live GTID is at least [_minLiveGTID], every issued one below it has ended. *)
Lemma primary_live_min n g :
  primary_inv n → g ∈ _liveGTIDs (p_mgr n) → gtid_le (_minLiveGTID (p_mgr n)) g.
Proof.
  intros [S _ _ Hm _ _ _ _ _] Hg. rewrite Hm. destruct (_liveGTIDs (p_mgr n)) as [|a l]; [set_solver|].
  simpl. apply elem_of_cons in Hg as [->|Hg]; [apply gtid_le_refl|].
  apply sl_sorted_cons in S as [S _]. specialize (S _ Hg). unfold GTIDCmp in S.
  bool_facts. by apply gtid_lt_le.
Qed.

Lemma primary_min_le_next n :
  primary_inv n → gtid_le (_minLiveGTID (p_mgr n)) (GTID.inc (_lastLiveGTID (p_mgr n))).
Proof.
  intros H. destruct (_liveGTIDs (p_mgr n)) as [|a l] eqn:E.
  - rewrite (pi_min _ H), E. apply gtid_le_refl.
  - rewrite (pi_min _ H), E. simpl.
    apply gtid_lt_le, (gtid_le_lt_trans _ (_lastLiveGTID (p_mgr n))).
    + apply (pi_issued_le _ H), (pi_issued _ H). rewrite E. set_solver.
    + apply gtid_inc_lt, (pi_room _ H).
Qed.

(** The GTID a primary hands out next. *)
Definition next_gtid (m : GTIDManager) : GTID :=
  if _incPrimary m then GTID.inc_primary (_lastLiveGTID m) else GTID.inc (_lastLiveGTID m).

Lemma next_gtid_lt m : gtid_room (_lastLiveGTID m) → gtid_lt (_lastLiveGTID m) (next_gtid m).
Proof. intros. unfold next_gtid. destruct (_incPrimary m); auto with tokumx. Qed.

Lemma get_result now m g ts h m' :
  GTIDManager.getGTIDForPrimary now m = (g, ts, h, m') → g = next_gtid m ∧ _lastLiveGTID m' = g.
Proof. unfold GTIDManager.getGTIDForPrimary, next_gtid. intros. by simplify_eq. Qed.

(** Inserting a GTID above all the others leaves the least one in front. *)
Lemma set_insert_above g l :
  (∀ x, x ∈ l → gtid_lt x g) → set_insert g l = l ++ [g].
Proof.
  induction l as [|a l IH]; intros H; [done|]. cbn [sl_insert id]. unfold id.
  assert (gtid_lt a g) as Ha by (apply H; set_solver).
  assert (GTIDCmp a g = true) as E by (unfold GTIDCmp; by apply Z.ltb_lt).
  rewrite (ltb_asym _ _ _ E), E. simpl. f_equal. apply IH. set_solver.
Qed.

Lemma primary_step_get_inv n now g ts h m' :
  primary_inv n → GTIDManager.getGTIDForPrimary now (p_mgr n) = (g, ts, h, m') → gtid_room g →
  primary_inv (mkPrimary m' (g :: p_issued n) (p_finished n)).
Proof.
  intros I E Hg. pose proof (get_result _ _ _ _ _ _ E) as [-> _].
  pose proof (next_gtid_lt _ (pi_room _ I)) as Hlt.
  assert (∀ x, x ∈ p_issued n → gtid_lt x (next_gtid (p_mgr n))) as Hall.
  { intros x Hx. eapply gtid_le_lt_trans; [by apply (pi_issued_le _ I)|done]. }
  assert (∀ x, x ∈ _liveGTIDs (p_mgr n) → gtid_lt x (next_gtid (p_mgr n))) as Hlive.
  { intros x Hx. apply Hall, (pi_issued _ I). auto. }
  assert (m' = (GTIDManager.getGTIDForPrimary now (p_mgr n)).2) as -> by (by rewrite E). clear E.
  assert (set_insert (next_gtid (p_mgr n)) (_liveGTIDs (p_mgr n)) =
          _liveGTIDs (p_mgr n) ++ [next_gtid (p_mgr n)]) as Hins by (by apply set_insert_above).
  constructor; simpl; fold (next_gtid (p_mgr n)); rewrite ?Hins; [|done|done|..].
  - rewrite <- Hins. apply sl_insert_sorted; [apply _|apply (pi_sorted _ I)].
  - rewrite (pi_min _ I). by destruct (_liveGTIDs (p_mgr n)).
  - intros x [->|Hx]%elem_of_cons; auto with tokumx.
  - constructor; [apply (pi_issued_sorted _ I)|]. by apply Forall_forall.
  - intros x. rewrite elem_of_app, list_elem_of_singleton, elem_of_cons, (pi_issued _ I). tauto.
  - intros x Hx. rewrite elem_of_app, list_elem_of_singleton.
    intros [H| ->]; [by apply (pi_finished _ I x)|].
    apply (gtid_lt_irrefl (next_gtid (p_mgr n))), Hall, (pi_issued _ I). auto.
  - intros tid last x Hw Hx Hmin.
    destruct (_liveGTIDs (p_mgr n)) as [|a l] eqn:El; simpl in Hmin.
    + apply elem_of_cons in Hx as [->|Hx]; [by apply gtid_lt_irrefl in Hmin|].
      apply (pi_waiters _ I tid); auto. rewrite (pi_min _ I), El. simpl.
      eapply gtid_le_lt_trans; [by apply (pi_issued_le _ I)|]. apply gtid_inc_lt, (pi_room _ I).
    + apply elem_of_cons in Hx as [->|Hx]; [|by apply (pi_waiters _ I tid)].
      exfalso. apply (gtid_lt_irrefl (next_gtid (p_mgr n))).
      eapply gtid_lt_le_trans; [done|]. eapply gtid_le_trans; [by apply primary_min_le_next|].
      apply gtid_inc_least; [apply (pi_room _ I)|done].
Qed.

Lemma set_erase_spec g l x :
  sl_sorted id GTIDCmp l → x ∈ set_erase g l ↔ x ∈ l ∧ x ≠ g.
Proof. intros. rewrite (sl_erase_spec id GTIDCmp) by done. by rewrite gtid_equivb_false. Qed.

(** Erasing another element than the first leaves the first in front. *)
Lemma set_erase_head g a l : a ≠ g → set_erase g (a :: l) = a :: set_erase g l.
Proof. intros H. cbn [sl_erase id]. by rewrite (proj2 (gtid_equivb_false _ _) H). Qed.

Lemma primary_step_done_inv n g :
  primary_inv n → g ∈ _liveGTIDs (p_mgr n) →
  primary_inv (mkPrimary (GTIDManager.noteLiveGTIDDone g (p_mgr n))
                         (p_issued n) (g :: p_finished n)).
Proof.
  intros I Hg. pose proof (pi_sorted _ I) as S.
  constructor; simpl; try apply I.
  - by apply (sl_erase_sorted id GTIDCmp).
  - destruct (GTID.cmp (_minLiveGTID (p_mgr n)) g =? 0) eqn:E; [done|]. bool_facts.
    rewrite (pi_min _ I) in *. destruct (_liveGTIDs (p_mgr n)) as [|a l]; [set_solver|].
    simpl in E. rewrite set_erase_head; [done|]. intros ->. by rewrite (proj2 (gtid_cmp_eq0 _ _)) in E.
  - intros x. rewrite (pi_issued _ I), set_erase_spec, elem_of_cons by done.
    destruct (decide (x = g)); naive_solver.
  - intros x. rewrite set_erase_spec, elem_of_cons by done.
    intros [->|Hx]; [naive_solver|]. intros [? _]. by apply (pi_finished _ I x).
  - intros tid last x Hw Hx.
    destruct (GTID.cmp (_minLiveGTID (p_mgr n)) g =? 0) eqn:E; [set_solver|].
    by apply (pi_waiters _ I tid).
Qed.

Lemma primary_step_inv n n' : primary_inv n → primary_step n n' → primary_inv n'.
Proof.
  intros I. destruct 1 as [n now g ts h m' E Hg|n g Hg|n tid last Hd|n tid].
  - by eapply primary_step_get_inv.
  - by apply primary_step_done_inv.
  - unfold GTIDManager.waitForDifferentMinLive.
    destruct (GTID.cmp last (_minLiveGTID (p_mgr n)) =? 0) eqn:E.
    + constructor; simpl; try apply I. bool_facts. apply gtid_cmp_eq0 in E. subst.
      intros tid' last' x Hw Hx Hmin. apply elem_of_cons in Hw as [Hw|Hw].
      * by simplify_eq.
      * by apply (pi_waiters _ I tid').
    + by destruct n.
  - constructor; simpl; try apply I.
    intros tid' last x Hw. apply (pi_waiters _ I tid'). by apply list_elem_of_filter in Hw as [_ Hw].
Qed.

Lemma primary_reachable_inv n0 n : primary_start n0 → rtc primary_step n0 n → primary_inv n.
Proof.
  intros H. apply primary_start_inv in H. induction 1; eauto using primary_step_inv.
Qed.

(** C30: at every moment of a term of a primary, [_minLiveGTID] is the least GTID whose
    transaction is still running or, when none is, the successor of the last GTID handed out. *)
Theorem gtid_min_live_is_min n0 n :
  primary_start n0 → rtc primary_step n0 n →
  (_liveGTIDs (p_mgr n) = [] ∧ _minLiveGTID (p_mgr n) = GTID.inc (_lastLiveGTID (p_mgr n))) ∨
  (_minLiveGTID (p_mgr n) ∈ _liveGTIDs (p_mgr n) ∧
   ∀ g, g ∈ _liveGTIDs (p_mgr n) → gtid_le (_minLiveGTID (p_mgr n)) g).
Proof.
  intros H0 H. pose proof (primary_reachable_inv _ _ H0 H) as I.
  pose proof (pi_min _ I) as M. destruct (_liveGTIDs (p_mgr n)) as [|a l] eqn:E; [auto|].
  right. split; [rewrite M; set_solver|]. intros g Hg. apply primary_live_min; [done|]. by rewrite E.
Qed.

Lemma primary_step_issued n n' :
  primary_inv n → primary_step n n' →
  gtid_le (_minLiveGTID (p_mgr n)) (_minLiveGTID (p_mgr n')) ∧
  ∃ new, p_issued n' = new ++ p_issued n ∧
         ∀ g, g ∈ new → gtid_lt (_lastLiveGTID (p_mgr n)) g.
Proof.
  intros I S. pose proof (primary_step_inv _ _ I S) as I'.
  inversion S as [? now g ts h m' E Hg|? g Hg|? tid last Hd|? tid]; subst; simpl.
  - pose proof (get_result _ _ _ _ _ _ E) as [-> _].
    pose proof (next_gtid_lt _ (pi_room _ I)) as Hlt. split; [|exists [next_gtid (p_mgr n)]; set_solver].
    assert (m' = (GTIDManager.getGTIDForPrimary now (p_mgr n)).2) as -> by (by rewrite E).
    simpl. destruct (_liveGTIDs (p_mgr n)); simpl; [|apply gtid_le_refl].
    eapply gtid_le_trans; [by apply primary_min_le_next|].
    apply gtid_inc_least; [apply (pi_room _ I)|done].
  - split; [|exists []; set_solver].
    destruct (GTID.cmp (_minLiveGTID (p_mgr n)) g =? 0) eqn:E; [|apply gtid_le_refl].
    destruct (set_erase g (_liveGTIDs (p_mgr n))) as [|a l] eqn:El.
    + by apply primary_min_le_next.
    + apply primary_live_min; [done|]. apply (sl_erase_elem id GTIDCmp g). rewrite El. set_solver.
  - split; [|exists []; set_solver]. unfold GTIDManager.waitForDifferentMinLive.
    destruct (_ =? 0); apply gtid_le_refl.
  - split; [apply gtid_le_refl|exists []; set_solver].
Qed.

Lemma primary_step_last n n' :
  primary_inv n → primary_step n n' →
  gtid_le (_lastLiveGTID (p_mgr n)) (_lastLiveGTID (p_mgr n')).
Proof.
  intros I. destruct 1 as [n now g ts h m' E Hg|n g Hg|n tid last Hd|n tid]; simpl.
  - pose proof (get_result _ _ _ _ _ _ E) as [-> ->]. apply gtid_lt_le, next_gtid_lt, (pi_room _ I).
  - apply gtid_le_refl.
  - unfold GTIDManager.waitForDifferentMinLive. destruct (_ =? 0); apply gtid_le_refl.
  - apply gtid_le_refl.
Qed.

(** Later states of a term, seen from an earlier one. *)
Lemma primary_steps_issued n n' :
  primary_inv n → rtc primary_step n n' →
  gtid_le (_minLiveGTID (p_mgr n)) (_minLiveGTID (p_mgr n')) ∧
  ∃ new, p_issued n' = new ++ p_issued n ∧
         ∀ g, g ∈ new → gtid_lt (_lastLiveGTID (p_mgr n)) g.
Proof.
  intros I H. revert I. induction H as [n|n n1 n' S _ IH]; intros I.
  { split; [apply gtid_le_refl|]. exists []. set_solver. }
  pose proof (primary_step_issued _ _ I S) as [M1 (new1 & E1 & L1)].
  pose proof (primary_step_last _ _ I S) as Hlast.
  destruct (IH (primary_step_inv _ _ I S)) as [M2 (new2 & E2 & L2)].
  split; [by eapply gtid_le_trans|]. exists (new2 ++ new1). split.
  - by rewrite E2, E1, app_assoc.
  - intros g [Hg|Hg]%elem_of_app; [|auto]. eapply gtid_le_lt_trans; eauto.
Qed.

(** C7: within one term of a primary (from [primary_start], by the steps [primary_step])
    [_minLiveGTID] never moves back, the GTIDs it hands out are
    strictly increasing, and every GTID below [_minLiveGTID] that was or ever will be handed
    out belongs to a transaction that has already ended: a reader of the oplog that stops
    before [_minLiveGTID] never skips an entry. *)
Theorem gtid_read_horizon n0 n n' g :
  primary_start n0 → rtc primary_step n0 n → rtc primary_step n n' →
  gtid_le (_minLiveGTID (p_mgr n)) (_minLiveGTID (p_mgr n')) ∧
  StronglySorted (λ a b, gtid_lt b a) (p_issued n') ∧
  (g ∈ p_issued n' → gtid_lt g (_minLiveGTID (p_mgr n)) → g ∈ p_finished n).
Proof.
  intros H0 H1 H2. pose proof (primary_reachable_inv _ _ H0 H1) as I.
  assert (rtc primary_step n0 n') as H3 by (by etrans).
  pose proof (primary_reachable_inv _ _ H0 H3) as I'.
  destruct (primary_steps_issued _ _ I H2) as [M (new & E & L)].
  split; [done|]. split; [apply (pi_issued_sorted _ I')|].
  rewrite E. intros [Hg|Hg]%elem_of_app Hlt.
  - exfalso. apply (gtid_lt_irrefl g). eapply gtid_lt_le_trans; [done|].
    eapply gtid_le_trans; [by apply primary_min_le_next|].
    apply gtid_inc_least; [apply (pi_room _ I)|auto].
  - apply (pi_issued _ I) in Hg as [Hg|Hg]; [|done].
    exfalso. apply (gtid_lt_irrefl g). eapply gtid_lt_le_trans; [done|]. by apply primary_live_min.
Qed.


(** On a primary the debug assertions of the manager hold at every call. *)
Theorem gtid_primary_dasserts n0 n g :
  primary_start n0 → rtc primary_step n0 n →
  GTIDManager.getGTIDForPrimary_dassert (p_mgr n) = true ∧
  (g ∈ _liveGTIDs (p_mgr n) → GTIDManager.noteLiveGTIDDone_dassert g (p_mgr n) = true).
Proof.
  intros H0 H. pose proof (primary_reachable_inv _ _ H0 H) as I.
  unfold GTIDManager.getGTIDForPrimary_dassert, GTIDManager.noteLiveGTIDDone_dassert. split.
  - rewrite (pi_unapplied _ I). by apply Z.eqb_eq, gtid_cmp_eq0.
  - intros Hg. pose proof (primary_live_min _ _ I Hg) as L. unfold gtid_le in L.
    rewrite (gtid_cmp_opp (_minLiveGTID (p_mgr n))). apply andb_true_iff. split; [apply Z.leb_le; lia|].
    apply bool_decide_eq_true_2. destruct (_liveGTIDs (p_mgr n)); [set_solver|simpl; lia].
Qed.

(** The first GTID of a term.  After [resetManager] the next [getGTIDForPrimary] starts the
    next primary sequence number, and with it moves [_minLiveGTID] while [_minUnappliedGTID]
    and the waiting threads are left as they were. *)
Theorem gtid_first_of_term m0 now :
  _liveGTIDs m0 = [] → gtid_room (_lastLiveGTID m0) →
  let '(g, _, _, m) := GTIDManager.getGTIDForPrimary now (GTIDManager.resetManager m0) in
  g = mkGTID (_primarySeqNo (_lastLiveGTID m0) + 1) 0 ∧
  _minLiveGTID m = g ∧
  _minUnappliedGTID m = GTID.inc (_lastLiveGTID m0) ∧
  gtid_lt (_minUnappliedGTID m) (_minLiveGTID m) ∧
  _minLiveCond m = _minLiveCond m0.
Proof.
  intros Hl Hr. simpl. rewrite Hl. simpl. unfold GTID.inc_primary.
  assert (in_u 64 (_primarySeqNo (_lastLiveGTID m0) + 1) ∧ in_u 64 (_GTSeqNo (_lastLiveGTID m0) + 1))
    as [B1 B2] by (unfold gtid_room, in_u in *; lia).
  rewrite wrapU_id by done. repeat split.
  unfold GTID.inc. rewrite wrapU_id by done. gtid_cases; lia.
Qed.

(** ** Witnesses: a short term of a primary that had seen GTID (1, 5) as a secondary *)

Module GtidExample.

Definition m0 : GTIDManager := GTIDManager.new (mkGTID 1 5) 1000 77 1.
Definition n0 : primary := mkPrimary (GTIDManager.resetManager m0) [] [].
Definition get (now : Z) (n : primary) : primary :=
  let '(g, _, _, m) := GTIDManager.getGTIDForPrimary now (p_mgr n) in
  mkPrimary m (g :: p_issued n) (p_finished n).
Definition wait (n : primary) : primary :=
  mkPrimary (GTIDManager.waitForDifferentMinLive 7 (_minLiveGTID (p_mgr n)) (p_mgr n))
            (p_issued n) (p_finished n).
Definition n1 : primary := get 1002 (get 1001 n0).
Definition n2 : primary :=
  mkPrimary (GTIDManager.noteLiveGTIDDone (mkGTID 2 0) (p_mgr n1)) (p_issued n1) [mkGTID 2 0].
Definition n3 : primary := wait n2.

Lemma gtid_ex_start : primary_start n0.
Proof.
  split; [done|]. split; [done|]. exists m0. split; [done|]. split; [done|].
  split; [by vm_compute|]. by left.
Qed.

Lemma steps_n2 : rtc primary_step n0 n2.
Proof.
  eapply rtc_l; [eapply (step_get n0 1001); [reflexivity|by vm_compute]|].
  eapply rtc_l; [eapply (step_get _ 1002); [reflexivity|by vm_compute]|].
  eapply rtc_l; [apply (step_done _ (mkGTID 2 0)); apply (bool_decide_unpack _); by vm_compute|].
  apply rtc_refl.
Qed.

Lemma steps_n3 : rtc primary_step n2 n3.
Proof. apply rtc_once, (step_wait n2 7 (_minLiveGTID (p_mgr n2))). reflexivity. Qed.


Lemma gtid_min_live_is_min_witness :
  _minLiveGTID (p_mgr n2) ∈ _liveGTIDs (p_mgr n2).
Proof.
  destruct (gtid_min_live_is_min _ _ gtid_ex_start steps_n2) as [[H _]|[H _]]; [discriminate H|exact H].
Defined.

Lemma gtid_read_horizon_witness : mkGTID 2 0 ∈ p_finished n2.
Proof.
  apply (gtid_read_horizon n0 n2 n3 (mkGTID 2 0) gtid_ex_start steps_n2 steps_n3).
  - apply (bool_decide_unpack _). by vm_compute.
  - by vm_compute.
Defined.


Lemma gtid_primary_dasserts_witness :
  GTIDManager.getGTIDForPrimary_dassert (p_mgr n2) = true ∧
  GTIDManager.noteLiveGTIDDone_dassert (mkGTID 2 1) (p_mgr n2) = true.
Proof.
  destruct (gtid_primary_dasserts n0 n2 (mkGTID 2 1) gtid_ex_start steps_n2) as [H1 H2].
  split; [exact H1|]. apply H2. apply (bool_decide_unpack _). by vm_compute.
Defined.

Lemma gtid_first_of_term_witness :
  _minLiveGTID (GTIDManager.getGTIDForPrimary 1001 (GTIDManager.resetManager m0)).2 = mkGTID 2 0.
Proof. apply (gtid_first_of_term m0 1001); by vm_compute. Defined.

End GtidExample.
