(* ===== verification/BgSync.v ===== *)
(** * Replication on a secondary (src/src/mongo/db/repl/bgsync.cpp)

    The producer thread copies entries of another member's oplog into the local one, the applier
    thread applies them to the collections, and both report to the GTID manager; the threads
    that change the member's state stop and start the producer.  The state below is the
    [BackgroundSync] object, the GTID manager and the position of each thread in its code; a
    step is a stretch of code that one thread runs under [_mutex] (or a call to the GTID
    manager, under its own lock).  Whether a given call of [applyTransactionFromOplog] throws
    is left open.  Waits on condition variables are loops on their condition, so a waiting
    thread is one whose step is not enabled yet.

    A member that finds its oplog diverged rolls back inside [produce()]: the steps of
    [rollback_step] wait for the applier, check that it has settled, reset the manager and undo
    the oplog; the functions of [Rollback] are the search for the rollback point and the undoing
    themselves.  The steps are those of a secondary: between [stopOpSyncThread] and
    [startOpSyncThread] the member may be a primary, which is modelled in Gtid.v and not here. *)

From S2P Require Import Prelude StdContainers Gtid.
#[local] Open Scope Z_scope.

(** The fields of an oplog entry this code reads. *)
Record oplog_entry := mkEntry {
  oe_id : GTID;        (** [_id] *)
  oe_ts : Z;           (** [ts] *)
  oe_h : Z;            (** [h] *)
  oe_big : bool }.     (** [replicateFullTransactionToOplog] said the transaction is large *)

(** Where the producer thread is: outside [produce()], inside it, waiting there for the queue to
    shrink or for it to be empty, leaving its loop, gone; and in [runRollback]: waiting for the
    queue to be empty, before [resetAfterInitialSync], undoing the oplog, after a failed check. *)
Inductive producer_pc :=
| PIdle | PProduce | PFlow (bigTxn : bool) | PBig | PExiting | PExited
| PRollback (point : oplog_entry)
| PReset (point : oplog_entry)
| PUndo (point : oplog_entry)
| PFatal                                         (** an exception while undoing: [theReplSet->fatal()] *)
| PVerifyFailed.

(** Where the applier thread is in [applyOpsFromOplog]. *)
Inductive applier_pc :=
| AWait                                          (** waiting for [_deque] *)
| AHave (curr : oplog_entry)                     (** before [noteApplyingGTID] *)
| ATry (curr : oplog_entry) (numTries : Z)       (** at the test of the retry loop *)
| ANote (curr : oplog_entry)                     (** before [noteGTIDApplied] *)
| APop (curr : oplog_entry)                      (** before [_deque.pop_front()] *)
| AExited
| AAborted.                                      (** [::abort()] *)

(** The thread that holds [stateChangeMutex]; [CVerifyFailed true] is a failure of
    [verifySettled], [CVerifyFailed false] one of the checks of [_opSyncShouldRun]. *)
Inductive control_pc :=
| CRunning | CStop1 | CStop2 | CStopped | CStart | CVerifyFailed (settled : bool).

Record BackgroundSync := mkBgSync {
  _deque : list oplog_entry;
  _opSyncShouldRun : bool;
  _opSyncRunning : bool;
  _opSyncShouldExit : bool;
  _applierShouldExit : bool;
  _applierInProgress : bool;
  b_mgr : GTIDManager;
  b_producer : producer_pc;
  b_applier : applier_pc;
  b_control : control_pc;
  b_produced : list GTID;    (** history: entries written to the local oplog and not rolled back *)
  b_applied : list GTID;     (** history: entries whose [applyTransactionFromOplog] returned *)
  b_gave_up : list GTID }.   (** history: entries whose retry loop ran out *)

Module BackgroundSync.

(** One turn of [for (numTries = 0; numTries <= 100; numTries++)], whose body increments
    [numTries] once more before it calls [applyTransactionFromOplog]; [ok] says that the call
    did not throw. *)
Inductive retry_outcome := Applied | GaveUp | Aborted | Again (numTries : Z).

Definition retry (ok : bool) (numTries : Z) : retry_outcome :=
  if numTries <=? 100 then
    let numTries := u32 (numTries + 1) in
    if ok then Applied
    else if numTries =? 100 then Aborted
    else Again (u32 (numTries + 1))
  else GaveUp.

(** The whole loop on a sequence of outcomes: how it ends and how often it called
    [applyTransactionFromOplog]. *)
Fixpoint retry_loop (fuel : nat) (outcomes : nat → bool) (calls : nat) (numTries : Z)
  : option (retry_outcome * nat) :=
  match fuel with
  | O => None
  | S fuel' =>
      match retry (outcomes calls) numTries with
      | Again n => retry_loop fuel' outcomes (S calls) n
      | GaveUp => Some (GaveUp, calls)
      | r => Some (r, S calls)
      end
  end.

Inductive settle_failure := QueueNotEmpty | LastsDiffer | MinsNotEqual.

Definition verifySettled (applierInProgress : bool) (deque : list oplog_entry) (m : GTIDManager)
  : result settle_failure unit :=
  if negb applierInProgress then Ok tt
  else if negb (bool_decide (length deque = 0%nat)) then Err QueueNotEmpty
  else
    let '(lastLiveGTID, lastUnappliedGTID) := GTIDManager.getLiveGTIDs m in
    if negb (GTID.cmp lastUnappliedGTID lastLiveGTID =? 0) then Err LastsDiffer
    else
      let '(minLiveGTID, minUnappliedGTID) := GTIDManager.getMins m in
      if negb (GTID.cmp minUnappliedGTID minLiveGTID =? 0) then Err MinsNotEqual
      else Ok tt.

Definition set_mgr (m : GTIDManager) (s : BackgroundSync) : BackgroundSync :=
  mkBgSync (_deque s) (_opSyncShouldRun s) (_opSyncRunning s) (_opSyncShouldExit s)
    (_applierShouldExit s) (_applierInProgress s) m (b_producer s) (b_applier s) (b_control s)
    (b_produced s) (b_applied s) (b_gave_up s).

Definition set_producer (running : bool) (pc : producer_pc) (s : BackgroundSync) : BackgroundSync :=
  mkBgSync (_deque s) (_opSyncShouldRun s) running (_opSyncShouldExit s)
    (_applierShouldExit s) (_applierInProgress s) (b_mgr s) pc (b_applier s) (b_control s)
    (b_produced s) (b_applied s) (b_gave_up s).

Definition set_applier (pc : applier_pc) (s : BackgroundSync) : BackgroundSync :=
  mkBgSync (_deque s) (_opSyncShouldRun s) (_opSyncRunning s) (_opSyncShouldExit s)
    (_applierShouldExit s) (_applierInProgress s) (b_mgr s) (b_producer s) pc (b_control s)
    (b_produced s) (b_applied s) (b_gave_up s).

Definition set_control (shouldRun : bool) (pc : control_pc) (s : BackgroundSync) : BackgroundSync :=
  mkBgSync (_deque s) shouldRun (_opSyncRunning s) (_opSyncShouldExit s)
    (_applierShouldExit s) (_applierInProgress s) (b_mgr s) (b_producer s) (b_applier s) pc
    (b_produced s) (b_applied s) (b_gave_up s).

(** The block of [produce()] that follows the commit of entry [o] to the local oplog. *)
Definition produce_entry (o : oplog_entry) (s : BackgroundSync) : BackgroundSync :=
  let deque := _deque s ++ [o] in
  mkBgSync deque (_opSyncShouldRun s) (_opSyncRunning s) (_opSyncShouldExit s)
    (_applierShouldExit s) (_applierInProgress s)
    (GTIDManager.noteGTIDAdded (oe_id o) (oe_ts o) (oe_h o) (b_mgr s))
    (if 20000 <? Z.of_nat (length deque) then PFlow (oe_big o)
     else if oe_big o then PBig else PProduce)
    (b_applier s) (b_control s)
    (oe_id o :: b_produced s) (b_applied s) (b_gave_up s).

(** One step of the applier thread; [ok] is the outcome of [applyTransactionFromOplog] where
    the step calls it.  [None]: the thread waits, or has ended. *)
Definition applier_step (ok : bool) (s : BackgroundSync) : option BackgroundSync :=
  match b_applier s with
  | AWait =>
      match _deque s with
      | curr :: _ => Some (set_applier (AHave curr) s)
      | [] => if _applierShouldExit s then Some (set_applier AExited s) else None
      end
  | AHave curr =>
      Some (set_applier (ATry curr 0) (set_mgr (GTIDManager.noteApplyingGTID (oe_id curr) (b_mgr s)) s))
  | ATry curr numTries =>
      match retry ok numTries with
      | Applied =>
          Some (mkBgSync (_deque s) (_opSyncShouldRun s) (_opSyncRunning s) (_opSyncShouldExit s)
                  (_applierShouldExit s) (_applierInProgress s) (b_mgr s) (b_producer s)
                  (ANote curr) (b_control s)
                  (b_produced s) (oe_id curr :: b_applied s) (b_gave_up s))
      | GaveUp =>
          Some (mkBgSync (_deque s) (_opSyncShouldRun s) (_opSyncRunning s) (_opSyncShouldExit s)
                  (_applierShouldExit s) (_applierInProgress s) (b_mgr s) (b_producer s)
                  (ANote curr) (b_control s)
                  (b_produced s) (b_applied s) (oe_id curr :: b_gave_up s))
      | Aborted => Some (set_applier AAborted s)
      | Again n => Some (set_applier (ATry curr n) s)
      end
  | ANote curr =>
      Some (set_applier (APop curr) (set_mgr (GTIDManager.noteGTIDApplied (oe_id curr) (b_mgr s)) s))
  | APop curr =>
      Some (mkBgSync (tail (_deque s)) (_opSyncShouldRun s) (_opSyncRunning s) (_opSyncShouldExit s)
              (_applierShouldExit s) (_applierInProgress s) (b_mgr s) (b_producer s)
              AWait (b_control s) (b_produced s) (b_applied s) (b_gave_up s))
  | AExited | AAborted => None
  end.

(** The steps of [producerThread], other than adding an entry. *)
Inductive producer_step : BackgroundSync → BackgroundSync → Prop :=
| prod_sleep s :
    b_producer s = PIdle → producer_step s (set_producer false PIdle s)
| prod_go s :
    b_producer s = PIdle → _opSyncShouldRun s || _opSyncShouldExit s = true →
    producer_step s (set_producer true (if _opSyncShouldExit s then PExiting else PProduce) s)
| prod_return s :
    b_producer s = PProduce → producer_step s (set_producer (_opSyncRunning s) PIdle s)
| prod_flow s bigTxn :
    b_producer s = PFlow bigTxn →
    producer_step s (set_producer (_opSyncRunning s) (if bigTxn then PBig else PProduce) s)
| prod_big s :
    b_producer s = PBig → _deque s = [] →
    producer_step s (set_producer (_opSyncRunning s) PProduce s)
| prod_leave s :
    b_producer s = PIdle → _opSyncShouldExit s = true →
    producer_step s (set_producer (_opSyncRunning s) PExiting s)
| prod_exit s :
    b_producer s = PExiting → producer_step s (set_producer false PExited s).

(** [stopOpSyncThread] and [startOpSyncThread], up to each of their waits, and the flags that
    [shutdown] sets. *)
Inductive control_step : BackgroundSync → BackgroundSync → Prop :=
| ctl_stop s :
    b_control s = CRunning ∨ b_control s = CStopped →
    control_step s (set_control false CStop1 s)
| ctl_producer_idle s :
    b_control s = CStop1 → _opSyncRunning s = false →
    control_step s (set_control (_opSyncShouldRun s)
      (if _opSyncShouldRun s then CVerifyFailed false else CStop2) s)
| ctl_drained s :
    b_control s = CStop2 → _deque s = [] →
    control_step s (set_control (_opSyncShouldRun s)
      (if is_ok (verifySettled (_applierInProgress s) (_deque s) (b_mgr s))
       then CStopped else CVerifyFailed true) s)
| ctl_start s :
    b_control s = CStopped → _opSyncShouldExit s = false →
    control_step s
      (if is_ok (verifySettled (_applierInProgress s) (_deque s) (b_mgr s))
       then set_control true CStart s else set_control (_opSyncShouldRun s) (CVerifyFailed true) s)
| ctl_started s :
    b_control s = CStart → _opSyncRunning s = true →
    control_step s (set_control (_opSyncShouldRun s)
      (if _opSyncShouldRun s then CRunning else CVerifyFailed false) s)
| ctl_shutdown s applierShouldExit :
    control_step s
      (mkBgSync (_deque s) false (_opSyncRunning s) true (applierShouldExit || _applierShouldExit s)
         (_applierInProgress s) (b_mgr s) (b_producer s) (b_applier s) (b_control s)
         (b_produced s) (b_applied s) (b_gave_up s)).

(** The entries up to the rollback point stay. *)
Definition upto (point : oplog_entry) (l : list GTID) : list GTID :=
  filter (λ g, GTID.cmp g (oe_id point) <= 0) l.

(** [isRollbackRequired] and [runRollback] when a rollback is needed and a point is found; any
    entry that is not the initial one may be the point.  A rollback without a point, or without
    an answer of the other member, returns from [produce()].  What happens to a member after
    [theReplSet->fatal()] is not followed. *)
Inductive rollback_step : BackgroundSync → BackgroundSync → Prop :=
| roll_found s point :
    b_producer s = PProduce → GTID.isInitial (oe_id point) = false → gtid_room (oe_id point) →
    rollback_step s (set_producer (_opSyncRunning s) (PRollback point) s)
| roll_settled s point :
    b_producer s = PRollback point → _deque s = [] →
    rollback_step s (set_producer (_opSyncRunning s)
      (if is_ok (verifySettled (_applierInProgress s) (_deque s) (b_mgr s)) then PReset point else PVerifyFailed) s)
| roll_reset s point :
    b_producer s = PReset point →
    rollback_step s
      (match GTIDManager.resetAfterInitialSync (oe_id point) (oe_ts point) (oe_h point) (b_mgr s) with
       | Ok m => set_producer (_opSyncRunning s) (PUndo point) (set_mgr m s)
       | Err _ => set_producer (_opSyncRunning s) PVerifyFailed s
       end)
| roll_undo s point :
    b_producer s = PUndo point →
    rollback_step s
      (mkBgSync (_deque s) (_opSyncShouldRun s) (_opSyncRunning s) (_opSyncShouldExit s)
         (_applierShouldExit s) (_applierInProgress s) (b_mgr s) PIdle (b_applier s) (b_control s)
         (upto point (b_produced s)) (upto point (b_applied s)) (upto point (b_gave_up s)))
| roll_fatal s point :
    b_producer s = PUndo point → rollback_step s (set_producer (_opSyncRunning s) PFatal s).

Inductive step : BackgroundSync → BackgroundSync → Prop :=
| step_entry s o :
    b_producer s = PProduce →
    GTID.cmp (_lastLiveGTID (b_mgr s)) (oe_id o) < 0 → gtid_room (oe_id o) →
    step s (produce_entry o s)
| step_applier s s' ok : applier_step ok s = Some s' → step s s'
| step_producer s s' : producer_step s s' → step s s'
| step_rollback s s' : rollback_step s s' → step s s'
| step_control s s' : control_step s s' → step s s'.

End BackgroundSync.

(** ** The queue and the manager agree *)

(** [l] continues from [a] upwards and ends in [b]. *)
Fixpoint chain (a : GTID) (l : list GTID) (b : GTID) : Prop :=
  match l with
  | [] => a = b
  | x :: l' => gtid_lt a x ∧ chain x l' b
  end.

Lemma chain_snoc a l b x : chain a l b → gtid_lt b x → chain a (l ++ [x]) x.
Proof.
  revert a. induction l as [|y l IH]; intros a; simpl; [by intros ->|].
  intros [? ?] ?. split; auto.
Qed.

Lemma chain_lt a l b x : chain a l b → x ∈ l → gtid_lt a x.
Proof.
  revert a. induction l as [|y l IH]; intros a; simpl; [set_solver|].
  intros [H1 H2] [->|Hx]%elem_of_cons; [done|].
  eapply gtid_lt_le_trans; [done|]. apply gtid_lt_le, (IH _ H2 Hx).
Qed.

Definition ids (l : list oplog_entry) : list GTID := map oe_id l.

(** The entries whose application has not begun. *)
Definition pending (s : BackgroundSync) : list oplog_entry :=
  match b_applier s with
  | AWait | AHave _ | AExited => _deque s
  | _ => tail (_deque s)
  end.

Definition head_done (s : BackgroundSync) (e : oplog_entry) : Prop :=
  oe_id e ∈ b_applied s ∨ oe_id e ∈ b_gave_up s.

(** The manager's account of the entry being applied. *)
Definition applying (s : BackgroundSync) : Prop :=
  let m := b_mgr s in
  match b_applier s with
  | AWait | AExited =>
      _unappliedGTIDs m = [] ∧ _minUnappliedGTID m = GTID.inc (_lastUnappliedGTID m)
  | AHave e =>
      hd_error (_deque s) = Some e ∧
      _unappliedGTIDs m = [] ∧ _minUnappliedGTID m = GTID.inc (_lastUnappliedGTID m)
  | ATry e n =>
      hd_error (_deque s) = Some e ∧ Z.even n = true ∧ 0 ≤ n ≤ 102 ∧
      _lastUnappliedGTID m = oe_id e ∧ _unappliedGTIDs m = [oe_id e] ∧
      _minUnappliedGTID m = oe_id e
  | ANote e =>
      hd_error (_deque s) = Some e ∧ head_done s e ∧
      _lastUnappliedGTID m = oe_id e ∧ _unappliedGTIDs m = [oe_id e] ∧
      _minUnappliedGTID m = oe_id e
  | APop e =>
      hd_error (_deque s) = Some e ∧ head_done s e ∧
      _lastUnappliedGTID m = oe_id e ∧ _unappliedGTIDs m = [] ∧
      _minUnappliedGTID m = GTID.inc (_lastUnappliedGTID m)
  | AAborted => False
  end.

Definition producing (pc : producer_pc) : bool :=
  match pc with PIdle | PExiting | PExited => false | _ => true end.

Definition control_ok (s : BackgroundSync) : Prop :=
  (producing (b_producer s) = true → _opSyncRunning s = true) ∧
  match b_control s with
  | CRunning | CStart | CVerifyFailed false => True
  | CStop1 => _opSyncShouldRun s = false
  | CStop2 => _opSyncShouldRun s = false ∧ producing (b_producer s) = false
  | CStopped => _opSyncShouldRun s = false ∧ producing (b_producer s) = false ∧ _deque s = []
  | CVerifyFailed true => False
  end.

(** Only the producer fills the queue, so it stays empty during a rollback. *)
Definition rollback_ok (s : BackgroundSync) : Prop :=
  match b_producer s with
  | PRollback point => gtid_room (oe_id point)
  | PReset point => gtid_room (oe_id point) ∧ _deque s = []
  | PUndo _ => _deque s = []
  | PVerifyFailed => False
  | _ => True
  end.

Record bg_inv (s : BackgroundSync) : Prop := {
  bi_live : _liveGTIDs (b_mgr s) = [];
  bi_min : _minLiveGTID (b_mgr s) = GTID.inc (_lastLiveGTID (b_mgr s));
  bi_room : gtid_room (_lastLiveGTID (b_mgr s));
  bi_room' : gtid_room (_lastUnappliedGTID (b_mgr s));
  bi_chain : chain (_lastUnappliedGTID (b_mgr s)) (ids (pending s)) (_lastLiveGTID (b_mgr s));
  bi_rooms : Forall (λ e, gtid_room (oe_id e)) (_deque s);
  bi_applying : applying s;
  bi_hist : ∀ g, g ∈ b_produced s →
              g ∈ ids (_deque s) ∨ g ∈ b_applied s ∨ g ∈ b_gave_up s;
  bi_control : control_ok s;
  bi_rollback : rollback_ok s }.

(** Replication starts when the manager has been set to the end of the local oplog. *)
Definition bg_start (s : BackgroundSync) : Prop :=
  _deque s = [] ∧ _opSyncShouldRun s = false ∧ _opSyncRunning s = false ∧
  b_producer s = PIdle ∧ b_applier s = AWait ∧ b_control s = CStopped ∧
  b_produced s = [] ∧
  ∃ m0 last t h, gtid_room last ∧
    GTIDManager.resetAfterInitialSync last t h m0 = Ok (b_mgr s).

Lemma reset_inv last t h m0 m :
  GTIDManager.resetAfterInitialSync last t h m0 = Ok m →
  _liveGTIDs m = [] ∧ _unappliedGTIDs m = [] ∧ _lastLiveGTID m = last ∧
  _lastUnappliedGTID m = last ∧ _minLiveGTID m = GTID.inc last ∧ _minUnappliedGTID m = GTID.inc last.
Proof.
  unfold GTIDManager.resetAfterInitialSync. intros H.
  destruct (_liveGTIDs m0) eqn:E1, (_unappliedGTIDs m0) eqn:E2; simplify_eq/=. repeat split; auto.
Qed.

Lemma bg_start_inv s : bg_start s → bg_inv s.
Proof.
  intros (Hd & Hs & Hr & Hp & Ha & Hc & Hh & m0 & last & t & h & Hroom & Hm).
  apply reset_inv in Hm as (H1 & H2 & H3 & H4 & H5 & H6).
  constructor; unfold applying, control_ok, rollback_ok, pending; rewrite ?Ha, ?Hc, ?Hp, ?Hd, ?Hh, ?H1, ?H3, ?H4, ?H5;
    simpl; rewrite ?H2, ?H6; auto; try done.
Qed.

Lemma retry_even ok n :
  Z.even n = true → 0 ≤ n ≤ 102 →
  match BackgroundSync.retry ok n with
  | BackgroundSync.Again n' => Z.even n' = true ∧ 0 ≤ n' ≤ 102 ∧ n' = n + 2
  | BackgroundSync.Aborted => False
  | BackgroundSync.GaveUp => n = 102
  | BackgroundSync.Applied => ok = true
  end.
Proof.
  intros E R. unfold BackgroundSync.retry.
  apply Z.even_spec in E as [k ->].
  destruct (2 * k <=? 100) eqn:?; bool_facts; [|lia].
  rewrite !wrapU_id by (unfold in_u; lia). destruct ok; [done|].
  destruct (2 * k + 1 =? 100) eqn:?; bool_facts; [lia|].
  split; [|lia]. apply Z.even_spec. exists (k + 1). lia.
Qed.

Lemma set_erase_single g : set_erase g [g] = [].
Proof. cbn [sl_erase]. unfold id. by rewrite (proj2 (gtid_equivb g g) eq_refl). Qed.

Ltac bg_simpl :=
  unfold applying, control_ok, rollback_ok, pending, head_done, BackgroundSync.set_applier,
    BackgroundSync.set_mgr, BackgroundSync.set_producer, BackgroundSync.set_control in *;
  simpl in *.

Lemma bg_entry_inv s o :
  bg_inv s → b_producer s = PProduce →
  GTID.cmp (_lastLiveGTID (b_mgr s)) (oe_id o) < 0 → gtid_room (oe_id o) →
  bg_inv (BackgroundSync.produce_entry o s).
Proof.
  intros I Hp Hlt Hr. destruct I as [L M R R' C Rs A H [Hrun Hc] _].
  rewrite Hp in *. specialize (Hrun eq_refl).
  assert (b_control s ≠ CStop2 ∧ b_control s ≠ CStopped ∧ b_control s ≠ CVerifyFailed true) as (N1 & N2 & N3).
  { repeat split; intros E; rewrite E in Hc; simpl in Hc; naive_solver. }
  assert (pending (BackgroundSync.produce_entry o s) = pending s ++ [o] ∧
          ∀ e, hd_error (_deque s) = Some e → hd_error (_deque s ++ [o]) = Some e) as [P Hhd].
  { split; [|by destruct (_deque s)].
    unfold pending, applying in *. simpl.
    destruct (b_applier s); try done; destruct (_deque s); naive_solver. }
  constructor; simpl; auto.
  - rewrite P. unfold ids. rewrite map_app. by apply (chain_snoc _ _ (_lastLiveGTID (b_mgr s))).
  - apply Forall_app. auto.
  - unfold applying in *. simpl. destruct (b_applier s); naive_solver.
  - intros g. unfold ids. rewrite elem_of_cons, map_app, elem_of_app. simpl.
    intros [->|Hg]; [set_solver|]. apply H in Hg. naive_solver.
  - unfold control_ok. simpl. split; [auto|]. destruct (b_control s) as [| | | | |[]]; naive_solver.
  - unfold rollback_ok. simpl. by destruct (20000 <? _), (oe_big o).
Qed.

Lemma bg_applier_inv s s' ok :
  bg_inv s → BackgroundSync.applier_step ok s = Some s' → bg_inv s'.
Proof.
  intros [L M R R' C Rs A H K B] E. unfold BackgroundSync.applier_step in E.
  destruct (b_applier s) as [|e|e n|e|e| |] eqn:Ea; try done.
  - destruct (_deque s) as [|e q] eqn:Ed.
    + destruct (_applierShouldExit s); simplify_eq.
      constructor; bg_simpl; rewrite ?Ea, ?Ed in *; auto.
    + simplify_eq. constructor; bg_simpl; rewrite ?Ea, ?Ed in *; naive_solver.
  - simplify_eq. bg_simpl. rewrite Ea in *. destruct A as (Hh & Hu & Hm).
    destruct (_deque s) as [|e' q] eqn:Ed; simplify_eq/=. destruct C as [C1 C2].
    inversion Rs; subst.
    constructor; bg_simpl; rewrite ?Ed; simpl; auto. rewrite Hu. simpl. repeat split; auto; lia.
  - bg_simpl. rewrite Ea in *. destruct A as (Hh & He & Hn & HA).
    pose proof (retry_even ok n He Hn) as X. 
    destruct (BackgroundSync.retry ok n) eqn:Er; [..|]; simplify_eq.
    + constructor; bg_simpl; auto; clear L M R R' C Rs K; [repeat split; try tauto|]; set_solver.
    + constructor; bg_simpl; auto; clear L M R R' C Rs K; [repeat split; try tauto|]; set_solver.
    + done.
    + constructor; bg_simpl; auto. tauto.
  - simplify_eq. bg_simpl. rewrite Ea in *. destruct A as (Hh & Hd & Hl & Hu & Hm).
    constructor; bg_simpl; auto. rewrite Hu, Hm, set_erase_single.
    rewrite (proj2 (gtid_cmp_eq0 _ _) eq_refl). simpl. repeat split; auto.
  - simplify_eq. bg_simpl. rewrite Ea in *. destruct A as (Hh & Hd & Hl & Hu & Hm).
    destruct (_deque s) as [|e' q] eqn:Ed; simplify_eq/=. inversion Rs; subst.
    constructor; bg_simpl; auto.
    + intros g Hg. apply H in Hg. set_solver.
    + destruct K as [K1 K2]. split; [done|]. destruct (b_control s) as [| | | | |[]]; naive_solver.
    + destruct (b_producer s); naive_solver.
Qed.

(** An empty queue means that everything was applied and the two minima agree. *)
Lemma bg_settled s :
  bg_inv s → _deque s = [] →
  _lastUnappliedGTID (b_mgr s) = _lastLiveGTID (b_mgr s) ∧
  _minUnappliedGTID (b_mgr s) = _minLiveGTID (b_mgr s).
Proof.
  intros [L M R R' C Rs A H K _] Hd. unfold applying, pending in *. rewrite Hd in *.
  destruct (b_applier s); simpl in *; try naive_solver congruence.
Qed.

Lemma verifySettled_ok s :
  bg_inv s → _deque s = [] →
  BackgroundSync.verifySettled (_applierInProgress s) (_deque s) (b_mgr s) = Ok tt.
Proof.
  intros I Hd. destruct (bg_settled _ I Hd) as [E1 E2]. unfold BackgroundSync.verifySettled.
  rewrite Hd. simpl. rewrite E1, E2, !(proj2 (gtid_cmp_eq0 _ _) eq_refl).
  by destruct (_applierInProgress s).
Qed.

Lemma bg_producer_inv s s' : bg_inv s → BackgroundSync.producer_step s s' → bg_inv s'.
Proof.
  intros [L M R R' C Rs A H [K1 K2] B] S.
  destruct S as [s Hp|s Hp Hg|s Hp|s b Hp|s Hp Hd|s Hp He|s Hp];
    constructor; bg_simpl; auto; clear L M R R' C Rs A H; rewrite Hp in *; simpl in *; try (by repeat case_match); split; auto;
    try (destruct (b_control s) as [| | | | |[]]; naive_solver).
  - destruct (_opSyncShouldExit s) eqn:E; [naive_solver|].
    destruct (b_control s) as [| | | | |[]]; simpl in *; try done;
      destruct K2 as [K2 _] || idtac; rewrite K2 in Hg; done.
Qed.

(** With an empty queue the applier has nothing under way. *)
Lemma bg_no_unapplied s : bg_inv s → _deque s = [] → _unappliedGTIDs (b_mgr s) = [].
Proof.
  intros I Hd. pose proof (bi_applying _ I) as A. unfold applying in A. rewrite Hd in A.
  destruct (b_applier s); simpl in A; naive_solver.
Qed.

Lemma bg_reset_inv s point m :
  bg_inv s → b_producer s = PReset point →
  GTIDManager.resetAfterInitialSync (oe_id point) (oe_ts point) (oe_h point) (b_mgr s) = Ok m →
  bg_inv (BackgroundSync.set_producer (_opSyncRunning s) (PUndo point) (BackgroundSync.set_mgr m s)).
Proof.
  intros I Hp Hm. pose proof (bi_rollback _ I) as B. unfold rollback_ok in B. rewrite Hp in B. destruct B as [Hr Hd].
  apply reset_inv in Hm as (H1 & H2 & H3 & H4 & H5 & H6).
  destruct I as [L M R R' C Rs A H [K1 K2] _]. rewrite Hp in K1, K2.
  constructor; bg_simpl; rewrite ?H1, ?H3, ?H4, ?H5, ?Hd in *; auto.
  - by destruct (b_applier s).
  - destruct (b_applier s); simpl in *; rewrite ?H2, ?H6; naive_solver.
Qed.

Lemma bg_undo_hist s point :
  bg_inv s → _deque s = [] →
  ∀ g, g ∈ BackgroundSync.upto point (b_produced s) →
  g ∈ BackgroundSync.upto point (b_applied s) ∨ g ∈ BackgroundSync.upto point (b_gave_up s).
Proof.
  intros I Hd g. unfold BackgroundSync.upto. rewrite !list_elem_of_filter. intros [Hle Hg].
  destruct (bi_hist _ I g Hg) as [Hi|?]; [|naive_solver]. rewrite Hd in Hi. by apply elem_of_nil in Hi.
Qed.

Lemma bg_rollback_inv s s' : bg_inv s → BackgroundSync.rollback_step s s' → bg_inv s'.
Proof.
  intros I S. pose proof (bi_rollback _ I) as B. unfold rollback_ok in B.
  destruct S as [s point Hp Hi Hr|s point Hp Hd|s point Hp|s point Hp|s point Hp]; rewrite Hp in B.
  - destruct I as [L M R R' C Rs A H [K1 K2] _]. rewrite Hp in *. constructor; bg_simpl; auto.
  - rewrite (verifySettled_ok _ I Hd). destruct I as [L M R R' C Rs A H [K1 K2] _]. rewrite Hp in *. constructor; bg_simpl; auto.
  - destruct B as [Hr Hd]. destruct (GTIDManager.resetAfterInitialSync _ _ _ _) as [m|] eqn:E; [by apply bg_reset_inv|].
    unfold GTIDManager.resetAfterInitialSync in E. by rewrite (bi_live _ I), (bg_no_unapplied _ I Hd) in E.
  - pose proof (bg_undo_hist s point I B) as U. pose proof I as [L M R R' C Rs A H [K1 K2] _]. rewrite Hp in *.
    constructor; bg_simpl; auto.
    + rewrite B in *. destruct (b_applier s); simpl in *; naive_solver.
    + split; [done|]. destruct (b_control s) as [| | | | |[]]; naive_solver.
  - destruct I as [L M R R' C Rs A H [K1 K2] _]. rewrite Hp in *. constructor; bg_simpl; auto.
Qed.

Lemma bg_control_inv s s' : bg_inv s → BackgroundSync.control_step s s' → bg_inv s'.
Proof.
  intros I S. pose proof I as [L M R R' C Rs A H [K1 K2] B].
  destruct S as [s Hc|s Hc Hr|s Hc Hd|s Hc He|s Hc Hr|s b].
  - constructor; bg_simpl; auto.
  - constructor; bg_simpl; auto. rewrite Hc in K2. split; [done|]. rewrite K2. split; [done|].
    destruct (producing (b_producer s)); naive_solver.
  - rewrite (verifySettled_ok _ I Hd). constructor; bg_simpl; auto. rewrite Hc in K2. naive_solver.
  - rewrite Hc in K2. destruct K2 as (K2 & K3 & K4). rewrite (verifySettled_ok _ I K4).
    constructor; bg_simpl; auto.
  - constructor; bg_simpl; auto. split; [done|]. by destruct (_opSyncShouldRun s).
  - constructor; bg_simpl; auto. split; [done|]. destruct (b_control s) as [| | | | |[]]; naive_solver.
Qed.

Lemma bg_step_inv s s' : bg_inv s → BackgroundSync.step s s' → bg_inv s'.
Proof.
  intros I. destruct 1; eauto using bg_entry_inv, bg_applier_inv, bg_producer_inv, bg_rollback_inv, bg_control_inv.
Qed.

Lemma bg_reachable_inv s0 s : bg_start s0 → rtc BackgroundSync.step s0 s → bg_inv s.
Proof. intros H%bg_start_inv. induction 1; eauto using bg_step_inv. Qed.

(** C32: on a member that replicates from the point [resetAfterInitialSync] set (as a secondary:
    it takes over and applies entries, stops and starts its producer, rolls back), once the queue
    is empty the member is settled: [verifySettled] succeeds and so does
    [verifyReadyToBecomePrimary].  So no check of [verifySettled] ends the process, in
    [stopOpSyncThread], [startOpSyncThread] or [runRollback], and neither does winning an election
    there. *)
Theorem bgsync_settles s0 s :
  bg_start s0 → rtc BackgroundSync.step s0 s →
  b_control s ≠ CVerifyFailed true ∧ b_producer s ≠ PVerifyFailed ∧
  (_deque s = [] →
   BackgroundSync.verifySettled (_applierInProgress s) (_deque s) (b_mgr s) = Ok tt ∧
   GTIDManager.verifyReadyToBecomePrimary (b_mgr s) = Ok tt).
Proof.
  intros H0 H. pose proof (bg_reachable_inv _ _ H0 H) as I. split; [|split].
  - destruct (bi_control _ I) as [_ K]. intros E. by rewrite E in K.
  - pose proof (bi_rollback _ I) as B. intros E. unfold rollback_ok in B. by rewrite E in B.
  - intros Hd. split; [by apply verifySettled_ok|]. destruct (bg_settled _ I Hd) as [E1 E2].
    unfold GTIDManager.verifyReadyToBecomePrimary.
    rewrite E1, E2, !(proj2 (gtid_cmp_eq0 _ _) eq_refl), (bi_min _ I). simpl.
    pose proof (gtid_inc_lt _ (bi_room _ I)) as Hlt. unfold gtid_lt in Hlt.
    rewrite (gtid_cmp_opp (_lastLiveGTID (b_mgr s))).
    destruct (0 <? _) eqn:E; [done|]. bool_facts. lia.
Qed.

(** C38: after [stopOpSyncThread] returns, and until [startOpSyncThread], the producer thread is
    not inside [produce()] and the queue of unapplied entries is empty. *)
Theorem bgsync_stopped_quiescent s0 s :
  bg_start s0 → rtc BackgroundSync.step s0 s → b_control s = CStopped →
  _deque s = [] ∧ producing (b_producer s) = false ∧
  ∀ o s', BackgroundSync.step s s' → s' ≠ BackgroundSync.produce_entry o s.
Proof.
  intros H0 H Hc. pose proof (bg_reachable_inv _ _ H0 H) as I.
  destruct (bi_control _ I) as [_ K]. rewrite Hc in K. destruct K as (_ & K2 & K3).
  split; [done|]. split; [done|]. intros o s' S E.
  assert (length (_deque s') = 1%nat) as Hl by (rewrite E; simpl; by rewrite K3).
  assert (_deque s' = []) as Hd; [|by rewrite Hd in Hl].
  clear E Hl. destruct S as [s o' Hp|s s' ok Ha|s s' Hp|s s' Hp|s s' Hs].
  - by rewrite Hp in K2.
  - unfold BackgroundSync.applier_step in Ha. rewrite K3 in Ha.
    destruct (b_applier s); try done; [destruct (_applierShouldExit s)|..|destruct (BackgroundSync.retry ok numTries)| |];
      simplify_eq; simpl; by rewrite ?K3.
  - by destruct Hp.
  - destruct Hp; simpl; try done. by case_match.
  - destruct Hs; simpl; try done. destruct (is_ok _); done.
Qed.

(** C21: [_minUnappliedGTID] bounds what has been applied: every entry of the local oplog below
    it had its transaction applied, or its retry loop run out. *)
Theorem bgsync_unapplied_horizon s0 s g :
  bg_start s0 → rtc BackgroundSync.step s0 s → g ∈ b_produced s →
  gtid_lt g (_minUnappliedGTID (b_mgr s)) → g ∈ b_applied s ∨ g ∈ b_gave_up s.
Proof.
  intros H0 H Hg Hlt. pose proof (bg_reachable_inv _ _ H0 H) as I.
  destruct (bi_hist _ I _ Hg) as [Hd|?]; [|done].
  pose proof (bi_chain _ I) as C. pose proof (bi_applying _ I) as A.
  pose proof (bi_room' _ I) as R.
  assert (∀ x, x ∈ ids (pending s) → gtid_lt x (GTID.inc (_lastUnappliedGTID (b_mgr s))) → False) as P.
  { intros x Hx Hx'. apply (gtid_lt_irrefl x). eapply gtid_lt_le_trans; [done|].
    apply gtid_inc_least; [done|]. by apply (chain_lt _ _ _ _ C). }
  assert (gtid_lt g (GTID.inc (_lastUnappliedGTID (b_mgr s)))) as Hlt'.
  { unfold applying in A. eapply gtid_lt_le_trans; [done|].
    destruct (b_applier s); destruct_and?; try done;
      match goal with E : _minUnappliedGTID _ = _ |- _ => rewrite E end;
      try apply gtid_le_refl; apply gtid_lt_le;
      match goal with E : _lastUnappliedGTID _ = _ |- _ => rewrite <- E end;
      by apply gtid_inc_lt. }
  unfold applying, pending, head_done in *.
  destruct (b_applier s) as [|e|e n|e|e| |]; try (by exfalso; eauto);
    destruct (_deque s) as [|e' q]; simplify_eq/=; try done; destruct_and?; simplify_eq/=;
    try (apply elem_of_cons in Hd as [->|Hd]; [|by exfalso; eauto]); auto.
  exfalso. match goal with E : _minUnappliedGTID _ = _ |- _ => rewrite E in Hlt end.
  by apply (gtid_lt_irrefl (oe_id e)).
Qed.

Lemma retry_all_fail outcomes k :
  (k ≤ 51)%nat → (∀ j, (j < k)%nat → outcomes j = false) →
  BackgroundSync.retry_loop 52 outcomes 0 0 =
  BackgroundSync.retry_loop (52 - k) outcomes k (2 * Z.of_nat k).
Proof.
  induction k as [|k IH]; intros Hk Hf; [done|]. rewrite IH by auto with lia.
  replace (52 - k)%nat with (S (52 - S k)) by lia. cbn [BackgroundSync.retry_loop].
  rewrite Hf by lia.
  pose proof (retry_even false (2 * Z.of_nat k)) as X. rewrite Z.even_mul in X. simpl orb in X.
  specialize (X eq_refl ltac:(lia)). 
  destruct (BackgroundSync.retry false _) eqn:E; try done; [lia|].
  destruct X as (_ & _ & ->). f_equal. lia.
Qed.

(** The retry loop of [applyOpsFromOplog] ends after at most 51 calls of
    [applyTransactionFromOplog]: with the first call that succeeds, or, when all 51 throw, by
    falling out of the loop as if the entry had been applied.  It never reaches [::abort()],
    because [numTries] is incremented twice per turn and is odd at the test for 100. *)
Theorem bgsync_retry_loop outcomes i :
  (i ≤ 51)%nat → (∀ j, (j < i)%nat → outcomes j = false) →
  (i < 51)%nat ∧ outcomes i = true ∨ i = 51%nat →
  BackgroundSync.retry_loop 52 outcomes 0 0 =
  Some (if bool_decide (i < 51)%nat then (BackgroundSync.Applied, S i)
        else (BackgroundSync.GaveUp, 51%nat)).
Proof.
  intros Hi Hf H. rewrite (retry_all_fail _ i) by done.
  destruct H as [[Hlt Ht]| ->]; [|done].
  rewrite bool_decide_eq_true_2 by done.
  replace (52 - i)%nat with (S (51 - i)) by lia. cbn [BackgroundSync.retry_loop].
  rewrite Ht. unfold BackgroundSync.retry.
  destruct (2 * Z.of_nat i <=? 100) eqn:E; bool_facts; [done|lia].
Qed.

Lemma bgsync_retry_loop_witness :
  BackgroundSync.retry_loop 52 (λ _, false) 0 0 = Some (BackgroundSync.GaveUp, 51%nat).
Proof. apply (bgsync_retry_loop (λ _, false) 51); [lia|done|by right]. Defined.

(** On a secondary the debug assertions of the GTID manager hold at every call that the
    producer and the applier make. *)
Theorem bgsync_dasserts s0 s e n :
  bg_start s0 → rtc BackgroundSync.step s0 s →
  (b_applier s = AHave e → GTIDManager.noteApplyingGTID_dassert (oe_id e) (b_mgr s) = true) ∧
  (b_applier s = ANote e → GTIDManager.noteGTIDApplied_dassert (oe_id e) (b_mgr s) = true) ∧
  (GTID.cmp (_lastLiveGTID (b_mgr s)) n < 0 →
   GTIDManager.noteGTIDAdded_dassert n (b_mgr s) = true) ∧
  (b_control s = CStopped → GTIDManager.resetManager_dassert (b_mgr s) = true).
Proof.
  intros H0 H. pose proof (bg_reachable_inv _ _ H0 H) as I.
  pose proof (bi_applying _ I) as A. pose proof (bi_chain _ I) as C.
  unfold applying, pending in *. split; [|split; [|split]].
  - intros E. rewrite E in *. destruct A as (Hh & _ & Hm).
    destruct (_deque s) as [|e' q]; simplify_eq/=. destruct C as [C _].
    unfold GTIDManager.noteApplyingGTID_dassert. rewrite Hm.
    pose proof (gtid_inc_least _ _ (bi_room' _ I) C) as Hle. unfold gtid_lt, gtid_le in *.
    rewrite (gtid_cmp_opp (GTID.inc _)), (gtid_cmp_opp (_lastUnappliedGTID _)).
    apply andb_true_iff. split; [apply Z.leb_le|apply Z.ltb_lt]; lia.
  - intros E. rewrite E in *. destruct A as (_ & _ & _ & Hu & Hm).
    unfold GTIDManager.noteGTIDApplied_dassert.
    by rewrite Hm, Hu, (proj2 (gtid_cmp_eq0 _ _) eq_refl).
  - intros Hlt. unfold GTIDManager.noteGTIDAdded_dassert. rewrite (bi_min _ I).
    apply andb_true_iff. split; apply Z.ltb_lt; [|done]. apply gtid_inc_lt, (bi_room _ I).
  - intros _. unfold GTIDManager.resetManager_dassert. by rewrite (bi_live _ I).
Qed.

(** ** Rollback *)

Module Rollback.

Inductive rollback_error := TooLongAPeriod | NoIdToRollbackTo | ManagerNotEmpty.

(** The search of [runRollback]: [remote] is what the cursor on the other member's oplog gives,
    newest first; [localFind] is the lookup of a GTID in the local oplog. *)
Fixpoint find_point (localFind : GTID → option oplog_entry) (oplogTS : Z)
  (remote : list oplog_entry) : result rollback_error (option oplog_entry) :=
  match remote with
  | [] => Ok None
  | r :: remote' =>
      if u64 (oe_ts r + 1800 * 1000) <? oplogTS then Err TooLongAPeriod
      else
        match localFind (oe_id r) with
        | Some l =>
            if (oe_h l =? oe_h r) && (oe_ts l =? oe_ts r) && (GTID.cmp (oe_id l) (oe_id r) =? 0)
            then Ok (Some l)
            else find_point localFind oplogTS remote'
        | None => find_point localFind oplogTS remote'
        end
  end.

(** The loop that undoes the local oplog entry by entry; the oplog is given newest first. *)
Fixpoint undo (idToRollbackTo : GTID) (oplog : list oplog_entry) : list oplog_entry :=
  match oplog with
  | [] => []
  | o :: oplog' =>
      if GTID.cmp (oe_id o) idToRollbackTo <=? 0 then oplog else undo idToRollbackTo oplog'
  end.

(** Lookup by [_id] in the local oplog. *)
Definition local_find (oplog : list oplog_entry) (g : GTID) : option oplog_entry :=
  List.find (λ o, GTID.cmp (oe_id o) g =? 0) oplog.

Definition runRollback (remote oplog : list oplog_entry) (oplogTS : Z) (m : GTIDManager)
  : result rollback_error (list oplog_entry * GTIDManager) :=
  p <-? find_point (local_find oplog) oplogTS remote ;;
  match p with
  | None => Err NoIdToRollbackTo
  | Some l =>
      if GTID.isInitial (oe_id l) then Err NoIdToRollbackTo
      else
        match GTIDManager.resetAfterInitialSync (oe_id l) (oe_ts l) (oe_h l) m with
        | Err _ => Err ManagerNotEmpty
        | Ok m' => Ok (undo (oe_id l) oplog, m')
        end
  end.

(** [isRollbackRequired], on the first entry the other member's oplog has at or after our last
    GTID: [Ok None] means that replication goes on. *)
Definition isRollbackRequired (first : oplog_entry) (remote oplog : list oplog_entry)
  (m : GTIDManager) : result rollback_error (option (list oplog_entry * GTIDManager)) :=
  if negb (GTIDManager.rollbackNeeded (oe_id first) (oe_ts first) (oe_h first) m) then Ok None
  else r <-? runRollback remote oplog (oe_ts first) m ;; Ok (Some r).

(** A local oplog, newest entry first. *)
Definition oplog_sorted (oplog : list oplog_entry) : Prop :=
  StronglySorted (λ a b, gtid_lt (oe_id b) (oe_id a)) oplog.

(** Same entry on both members. *)
Definition same_entry (a b : oplog_entry) : Prop :=
  oe_id a = oe_id b ∧ oe_ts a = oe_ts b ∧ oe_h a = oe_h b.

End Rollback.

Lemma find_point_spec oplog ts remote l :
  Rollback.find_point (Rollback.local_find oplog) ts remote = Ok (Some l) →
  ∃ newer r older, remote = newer ++ r :: older ∧ Rollback.same_entry l r ∧ l ∈ oplog ∧
    ∀ x y, x ∈ newer → Rollback.local_find oplog (oe_id x) = Some y → ¬ Rollback.same_entry y x.
Proof.
  induction remote as [|r remote IH]; simpl; [done|].
  destruct (_ <? ts); [done|].
  destruct (Rollback.local_find oplog (oe_id r)) as [y|] eqn:F.
  - destruct (_ && _ && _) eqn:E.
    + intros [= ->]. bool_facts. exists [], r, remote. split; [done|].
      match goal with H : GTID.cmp _ _ = 0 |- _ => apply gtid_cmp_eq0 in H end.
      split; [done|]. split; [|set_solver].
      unfold Rollback.local_find in F. apply find_some in F as [F _]. by apply list_elem_of_In.
    + intros H. destruct (IH H) as (newer & r' & older & -> & S & L & N).
      exists (r :: newer), r', older. split; [done|]. split; [done|]. split; [done|].
      intros x y' [->|Hx]%elem_of_cons Hy; [|by eauto].
      intros (S1 & S2 & S3). simplify_eq. rewrite S1, S2, S3 in E.
      by rewrite !Z.eqb_refl, (proj2 (gtid_cmp_eq0 _ _) eq_refl) in E.
  - intros H. destruct (IH H) as (newer & r' & older & -> & S & L & N).
    exists (r :: newer), r', older. split; [done|]. split; [done|]. split; [done|].
    intros x y' [->|Hx]%elem_of_cons Hy; [congruence|by eauto].
Qed.

Lemma undo_spec id oplog :
  Rollback.oplog_sorted oplog → ∀ o, o ∈ Rollback.undo id oplog ↔ o ∈ oplog ∧ gtid_le (oe_id o) id.
Proof.
  unfold Rollback.oplog_sorted. induction 1 as [|a l S IH F]; intros o; simpl; [set_solver|].
  rewrite Forall_forall in F. destruct (GTID.cmp (oe_id a) id <=? 0) eqn:E; bool_facts.
  - rewrite elem_of_cons. split; [|tauto]. intros [->|Ho]; [auto|]. split; [auto|].
    eapply gtid_le_trans; [apply gtid_lt_le, F, Ho|done].
  - rewrite IH, elem_of_cons. split; [tauto|]. intros [[->|Ho] Hle]; [|done].
    unfold gtid_le in Hle. lia.
Qed.

Lemma local_find_sorted oplog o :
  Rollback.oplog_sorted oplog → o ∈ oplog → Rollback.local_find oplog (oe_id o) = Some o.
Proof.
  unfold Rollback.oplog_sorted, Rollback.local_find.
  induction 1 as [|a l S IH F]; [set_solver|]. rewrite Forall_forall in F. simpl.
  intros [->|Ho]%elem_of_cons; [by rewrite (proj2 (gtid_cmp_eq0 _ _) eq_refl)|].
  destruct (GTID.cmp (oe_id a) (oe_id o) =? 0) eqn:E; [|auto].
  bool_facts. apply gtid_cmp_eq0 in E. specialize (F _ Ho). rewrite E in F.
  by apply gtid_lt_irrefl in F.
Qed.

(** C37: a rollback that succeeds ends at the newest entry that both members have in common:
    the local oplog keeps exactly the entries up to it, no newer entry of the other member was
    ours, the manager's last GTID is the common one, and comparing with the other member's entry
    there asks for no further rollback. *)
Theorem rollback_to_common_point remote oplog ts m oplog' m' :
  Rollback.oplog_sorted oplog → Rollback.runRollback remote oplog ts m = Ok (oplog', m') →
  ∃ newer r older l, remote = newer ++ r :: older ∧ Rollback.same_entry l r ∧ l ∈ oplog' ∧
    (∀ o, o ∈ oplog' ↔ o ∈ oplog ∧ gtid_le (oe_id o) (oe_id l)) ∧
    (∀ x y, x ∈ newer → y ∈ oplog → ¬ Rollback.same_entry y x) ∧
    GTIDManager.getLiveState m' = oe_id l ∧
    GTIDManager.rollbackNeeded (oe_id r) (oe_ts r) (oe_h r) m' = false.
Proof.
  intros S. unfold Rollback.runRollback.
  destruct (Rollback.find_point _ _ _) as [[l|]|] eqn:F; simpl; try done.
  destruct (GTID.isInitial (oe_id l)); [done|].
  destruct (GTIDManager.resetAfterInitialSync _ _ _ m) as [m1|] eqn:R; [|done].
  intros [= <- <-].
  assert (_lastLiveGTID m1 = oe_id l ∧ _lastTimestamp m1 = oe_ts l ∧ _lastHash m1 = oe_h l) as (R1 & R2 & R3).
  { unfold GTIDManager.resetAfterInitialSync in R.
    destruct (_liveGTIDs m), (_unappliedGTIDs m); by simplify_eq/=. }
  apply find_point_spec in F as (newer & r & older & E & Se & L & N).
  exists newer, r, older, l. split; [done|]. split; [done|].
  split; [apply undo_spec; [done|split; [done|apply gtid_le_refl]]|].
  split; [by apply undo_spec|]. split.
  { intros x y Hx Hy Sxy. apply (N x y Hx); [|done].
    destruct Sxy as (<- & _). by apply local_find_sorted. }
  split; [done|]. destruct Se as (E1 & E2 & E3). unfold GTIDManager.rollbackNeeded.
  rewrite R1, R2, R3, E1, E2, E3, !Z.eqb_refl. by rewrite (proj2 (gtid_cmp_eq0 _ _) eq_refl).
Qed.

(** ** Witnesses: a secondary that takes over two entries *)

Module BgSyncExample.

Definition e1 : oplog_entry := mkEntry (mkGTID 1 6) 2000 11 false.
Definition e2 : oplog_entry := mkEntry (mkGTID 1 7) 2001 12 true.
Definition mgr0 : GTIDManager :=
  match GTIDManager.resetAfterInitialSync (mkGTID 1 5) 1000 10
          (GTIDManager.new GTID.default 0 0 1) with
  | Ok m => m
  | Err _ => GTIDManager.new GTID.default 0 0 1
  end.
Definition s0 : BackgroundSync :=
  mkBgSync [] false false false false true mgr0 PIdle AWait CStopped [] [] [].

(** Runs the applier thread [k] steps, every [applyTransactionFromOplog] succeeding. *)
Fixpoint apply_steps (k : nat) (s : BackgroundSync) : BackgroundSync :=
  match k with
  | O => s
  | S k' => match BackgroundSync.applier_step true s with Some s' => apply_steps k' s' | None => s end
  end.

Lemma apply_steps_rtc k s : rtc BackgroundSync.step s (apply_steps k s).
Proof.
  revert s. induction k as [|k IH]; intros s; simpl; [apply rtc_refl|].
  destruct (BackgroundSync.applier_step true s) as [s'|] eqn:E; [|apply rtc_refl].
  eapply rtc_l; [by eapply BackgroundSync.step_applier|apply IH].
Qed.

Definition s1 : BackgroundSync :=
  BackgroundSync.set_producer true PProduce (BackgroundSync.set_control true CStart s0).
Definition s2 : BackgroundSync :=
  BackgroundSync.produce_entry e2 (BackgroundSync.produce_entry e1 s1).
Definition s3 : BackgroundSync := apply_steps 9 s2.
Definition s4 : BackgroundSync := apply_steps 1 s3.

Lemma bgsync_ex_start : bg_start s0.
Proof.
  repeat (split; [done|]). exists (GTIDManager.new GTID.default 0 0 1), (mkGTID 1 5), 1000, 10.
  split; [by vm_compute|done].
Qed.

Lemma steps_s2 : rtc BackgroundSync.step s0 s2.
Proof.
  eapply rtc_l; [apply BackgroundSync.step_control; by eapply (BackgroundSync.ctl_start s0)|].
  eapply rtc_l; [apply BackgroundSync.step_producer; by eapply BackgroundSync.prod_go|].
  eapply rtc_l; [by eapply (BackgroundSync.step_entry _ e1); vm_compute|].
  eapply rtc_l; [by eapply (BackgroundSync.step_entry _ e2); vm_compute|].
  apply rtc_refl.
Qed.

Lemma steps_s3 : rtc BackgroundSync.step s0 s3.
Proof. etrans; [apply steps_s2|apply apply_steps_rtc]. Qed.

Lemma steps_s4 : rtc BackgroundSync.step s0 s4.
Proof. etrans; [apply steps_s3|apply apply_steps_rtc]. Qed.

Lemma bgsync_settles_witness : GTIDManager.verifyReadyToBecomePrimary (b_mgr s4) = Ok tt.
Proof. apply (bgsync_settles s0 s4 bgsync_ex_start steps_s4). by vm_compute. Defined.

(** The producer is started, takes over the two entries and returns; it is stopped. *)
Definition s5 : BackgroundSync :=
  BackgroundSync.set_control true CRunning (BackgroundSync.set_producer true PIdle (BackgroundSync.set_producer true PProduce s4)).
Definition s6 : BackgroundSync :=
  BackgroundSync.set_control false CStopped
    (BackgroundSync.set_producer false PIdle (BackgroundSync.set_control false CStop1 s5)).

Lemma steps_s5 : rtc BackgroundSync.step s0 s5.
Proof.
  etrans; [apply steps_s4|].
  eapply rtc_l; [apply BackgroundSync.step_producer; by eapply (BackgroundSync.prod_big s4); vm_compute|].
  eapply rtc_l; [apply BackgroundSync.step_producer; by eapply BackgroundSync.prod_return|].
  eapply rtc_l; [apply BackgroundSync.step_control; by eapply BackgroundSync.ctl_started; vm_compute|].
  apply rtc_refl.
Qed.

Lemma steps_s6 : rtc BackgroundSync.step s0 s6.
Proof.
  etrans; [apply steps_s5|].
  eapply rtc_l; [apply BackgroundSync.step_control, (BackgroundSync.ctl_stop s5); by left|].
  eapply rtc_l; [apply BackgroundSync.step_producer; by eapply BackgroundSync.prod_sleep|].
  eapply rtc_l; [apply BackgroundSync.step_control; by eapply BackgroundSync.ctl_producer_idle|].
  eapply rtc_l; [apply BackgroundSync.step_control; by eapply BackgroundSync.ctl_drained; vm_compute|].
  match goal with |- rtc _ ?x _ => assert (x = s6) as -> by (vm_compute; reflexivity) end. apply rtc_refl.
Qed.

Lemma bgsync_stopped_quiescent_witness :
  b_produced s6 = [mkGTID 1 7; mkGTID 1 6] ∧ b_applied s6 = [mkGTID 1 7; mkGTID 1 6] ∧
  _deque s6 = [] ∧ producing (b_producer s6) = false ∧
  ∀ o s', BackgroundSync.step s6 s' → s' ≠ BackgroundSync.produce_entry o s6.
Proof.
  split; [reflexivity|]. split; [reflexivity|]. apply (bgsync_stopped_quiescent s0 s6 bgsync_ex_start steps_s6). reflexivity.
Defined.

(** Or it finds that its last entry is not the other member's, and rolls back to the first. *)
Definition s7 : BackgroundSync :=
  match GTIDManager.resetAfterInitialSync (oe_id e1) (oe_ts e1) (oe_h e1) (b_mgr s4) with
  | Ok m => BackgroundSync.set_producer true (PUndo e1) (BackgroundSync.set_mgr m (BackgroundSync.set_producer true (PReset e1)
              (BackgroundSync.set_producer true (PRollback e1) (BackgroundSync.set_producer true PProduce s4))))
  | Err _ => s4
  end.

Example bgsync_rolls_back :
  ∃ s, rtc BackgroundSync.step s0 s ∧ b_produced s = [mkGTID 1 6] ∧ b_applied s = [mkGTID 1 6] ∧
    GTIDManager.getLiveState (b_mgr s) = mkGTID 1 6.
Proof.
  eexists. split; [|split; [|split]].
  - etrans; [apply steps_s4|].
    eapply rtc_l; [apply BackgroundSync.step_producer; by eapply (BackgroundSync.prod_big s4); vm_compute|].
    eapply rtc_l; [apply BackgroundSync.step_rollback; by eapply (BackgroundSync.roll_found _ e1); vm_compute|].
    eapply rtc_l; [apply BackgroundSync.step_rollback; by eapply (BackgroundSync.roll_settled _ e1); vm_compute|].
    eapply rtc_l; [apply BackgroundSync.step_rollback; by eapply (BackgroundSync.roll_reset _ e1); vm_compute|].
    match goal with |- rtc _ ?x _ => assert (x = s7) as -> by (vm_compute; reflexivity) end.
    eapply rtc_l; [apply BackgroundSync.step_rollback; apply (BackgroundSync.roll_undo s7 e1); vm_compute; reflexivity|].
    apply rtc_refl.
  - vm_compute. reflexivity.
  - vm_compute. reflexivity.
  - vm_compute. reflexivity.
Qed.

Lemma bgsync_unapplied_horizon_witness :
  mkGTID 1 7 ∈ b_applied s4 ∨ mkGTID 1 7 ∈ b_gave_up s4.
Proof.
  apply (bgsync_unapplied_horizon s0 s4 (mkGTID 1 7) bgsync_ex_start steps_s4).
  - apply (bool_decide_unpack _). by vm_compute.
  - by vm_compute.
Defined.

Lemma bgsync_dasserts_witness :
  GTIDManager.noteGTIDApplied_dassert (mkGTID 1 7) (b_mgr (apply_steps 8 s2)) = true.
Proof.
  destruct (bgsync_dasserts s0 (apply_steps 8 s2) e2 (mkGTID 1 8) bgsync_ex_start) as (_ & H & _).
  - etrans; [apply steps_s2|apply apply_steps_rtc].
  - apply H. reflexivity.
Defined.

Definition local : list oplog_entry :=
  [mkEntry (mkGTID 1 7) 2001 99 false; e1; mkEntry (mkGTID 1 5) 1000 10 false].

Lemma rollback_to_common_point_witness :
  ∃ l, l ∈ [e1; mkEntry (mkGTID 1 5) 1000 10 false] ∧ l ∈ local.
Proof.
  destruct (rollback_to_common_point [e2; e1] local 2001 mgr0
              [e1; mkEntry (mkGTID 1 5) 1000 10 false]
              (match Rollback.runRollback [e2; e1] local 2001 mgr0 with
               | Ok r => r.2 | Err _ => mgr0 end))
    as (newer & r & older & l & _ & _ & Hl & Hin & _).
  - repeat constructor.
  - reflexivity.
  - exists l. split; [exact Hl|]. apply Hin. exact Hl.
Defined.

End BgSyncExample.
