(* ===== verification/Double.v ===== *)
(** * IEEE-754 binary64, as the code uses [double]

    A [double] is its 64-bit pattern.  Every finite double is an integer multiple of 2^-1074,
    so [dbl_val] gives its value, scaled by 2^1074, as an exact integer; the infinities are
    placed just beyond the finite values.  Comparison, conversion from integers (rounding to
    nearest, ties to even) and truncation are what the source uses. *)

From S2P Require Import Prelude.
#[local] Open Scope Z_scope.

Definition dbl_neg (b : Z) : bool := 2 ^ 63 <=? b.
Definition dbl_exp (b : Z) : Z := (b / 2 ^ 52) mod 2 ^ 11.
Definition dbl_frac (b : Z) : Z := b mod 2 ^ 52.

Definition dbl_isNaN (b : Z) : bool := (dbl_exp b =? 2047) && negb (dbl_frac b =? 0).

(** Magnitude times 2^1074. *)
Definition dbl_mag (b : Z) : Z :=
  if dbl_exp b =? 0 then dbl_frac b
  else if dbl_exp b =? 2047 then 2 ^ 2098
  else (2 ^ 52 + dbl_frac b) * 2 ^ (dbl_exp b - 1).

Definition dbl_val (b : Z) : Z := if dbl_neg b then - dbl_mag b else dbl_mag b.

(** [a < b] and [a == b]; false when either is NaN. *)
Definition dbl_ltb (a b : Z) : bool :=
  negb (dbl_isNaN a) && negb (dbl_isNaN b) && (dbl_val a <? dbl_val b).
Definition dbl_eqb (a b : Z) : bool :=
  negb (dbl_isNaN a) && negb (dbl_isNaN b) && (dbl_val a =? dbl_val b).

(** [(double) n] for [n > 0]; a mantissa rounded up to 2^53 carries into the exponent. *)
Definition dbl_of_pos (n : Z) : Z :=
  let e := Z.log2 n in
  let m :=
    if e <=? 52 then n * 2 ^ (52 - e)
    else
      let k := e - 52 in
      let q := n / 2 ^ k in
      let r := n mod 2 ^ k in
      if (2 ^ (k - 1) <? r) || ((r =? 2 ^ (k - 1)) && Z.odd q) then q + 1 else q in
  (e + 1023) * 2 ^ 52 + (m - 2 ^ 52).

Definition dbl_of_Z (n : Z) : Z :=
  if n =? 0 then 0 else if n <? 0 then 2 ^ 63 + dbl_of_pos (- n) else dbl_of_pos n.

(** [static_cast<long long>(d)]: rounds towards zero. *)
Definition dbl_trunc (b : Z) : Z := Z.quot (dbl_val b) (2 ^ 1074).

Example dbl_of_Z_1 : dbl_of_Z 1 = 0x3FF0000000000000.
Proof. reflexivity. Qed.
Example dbl_of_Z_tie : dbl_of_Z (2 ^ 53 + 1) = dbl_of_Z (2 ^ 53) ∧ dbl_of_Z (2 ^ 53 + 3) = dbl_of_Z (2 ^ 53 + 4).
Proof. split; reflexivity. Qed.
Example dbl_of_Z_min : dbl_of_Z (- 2 ^ 63) = 0xC3E0000000000000.
Proof. reflexivity. Qed.

(** ** Exact integers *)

(** The bits assembled from an exponent and a fraction, read back. *)
Lemma dbl_fields e f :
  0 ≤ e < 2 ^ 11 → 0 ≤ f < 2 ^ 52 →
  dbl_exp (e * 2 ^ 52 + f) = e ∧ dbl_frac (e * 2 ^ 52 + f) = f ∧ dbl_neg (e * 2 ^ 52 + f) = false.
Proof.
  intros He Hf. unfold dbl_exp, dbl_frac, dbl_neg.
  rewrite Z.add_comm, Z.div_add, Z.mod_add by lia.
  rewrite (Z.div_small f), (Z.mod_small f) by lia. rewrite Z.mod_small by lia.
  split; [done|]. split; [done|]. apply Z.leb_gt. lia.
Qed.

Lemma dbl_fields_neg b :
  0 ≤ b < 2 ^ 63 →
  dbl_exp (2 ^ 63 + b) = dbl_exp b ∧ dbl_frac (2 ^ 63 + b) = dbl_frac b ∧
  dbl_neg (2 ^ 63 + b) = true ∧ dbl_neg b = false.
Proof.
  intros H. unfold dbl_exp, dbl_frac, dbl_neg.
  replace (2 ^ 63 + b) with (b + 2 ^ 11 * 2 ^ 52) by lia.
  rewrite Z.div_add, Z.mod_add by lia.
  replace (b / 2 ^ 52 + 2 ^ 11) with (b / 2 ^ 52 + 1 * 2 ^ 11) by lia. rewrite Z.mod_add by lia.
  split; [done|]. split; [done|]. split; [apply Z.leb_le|apply Z.leb_gt]; lia.
Qed.

(** The mantissa of [dbl_of_pos]. *)
Definition dbl_mant (n : Z) : Z :=
  let e := Z.log2 n in
  if e <=? 52 then n * 2 ^ (52 - e)
  else
    let k := e - 52 in
    let q := n / 2 ^ k in
    let r := n mod 2 ^ k in
    if (2 ^ (k - 1) <? r) || ((r =? 2 ^ (k - 1)) && Z.odd q) then q + 1 else q.

Lemma dbl_mant_bounds n : 0 < n → 2 ^ 52 ≤ dbl_mant n ≤ 2 ^ 53.
Proof.
  intros Hn. unfold dbl_mant. pose proof (Z.log2_spec n Hn) as [L1 L2].
  pose proof (Z.log2_nonneg n). set (e := Z.log2 n) in *.
  destruct (e <=? 52) eqn:E; bool_facts.
  - assert (2 ^ 52 = 2 ^ e * 2 ^ (52 - e)) as E1 by (rewrite <- Z.pow_add_r by lia; f_equal; lia).
    assert (2 ^ 53 = 2 ^ (Z.succ e) * 2 ^ (52 - e)) as E2 by (rewrite <- Z.pow_add_r by lia; f_equal; lia).
    rewrite E1, E2. nia.
  - set (k := e - 52). assert (2 ^ e = 2 ^ 52 * 2 ^ k) as E1 by (unfold k; rewrite <- Z.pow_add_r by lia; f_equal; lia).
    assert (2 ^ Z.succ e = 2 ^ 53 * 2 ^ k) as E2 by (unfold k; rewrite <- Z.pow_add_r by lia; f_equal; lia).
    rewrite E1 in L1. rewrite E2 in L2.
    assert (0 < 2 ^ k) by (apply Z.pow_pos_nonneg; lia).
    assert (2 ^ 52 ≤ n / 2 ^ k) by (apply Z.div_le_lower_bound; lia).
    assert (n / 2 ^ k < 2 ^ 53) by (apply Z.div_lt_upper_bound; lia).
    destruct (_ || _); lia.
Qed.

Lemma dbl_of_pos_fields n :
  0 < n < 2 ^ 65 →
  let b := dbl_of_pos n in
  0 ≤ b < 2 ^ 63 ∧
  (dbl_mant n < 2 ^ 53 ∧ dbl_exp b = Z.log2 n + 1023 ∧ dbl_frac b = dbl_mant n - 2 ^ 52 ∨
   dbl_mant n = 2 ^ 53 ∧ dbl_exp b = Z.log2 n + 1024 ∧ dbl_frac b = 0).
Proof.
  intros Hn b.
  pose proof (dbl_mant_bounds n ltac:(lia)) as Hm.
  pose proof (Z.log2_nonneg n). assert (Z.log2 n < 65) as Hl by (apply Z.log2_lt_pow2; lia).
  assert (b = (Z.log2 n + 1023) * 2 ^ 52 + (dbl_mant n - 2 ^ 52)) as -> by done.
  split; [lia|].
  destruct (decide (dbl_mant n = 2 ^ 53)) as [E|NE].
  - right. replace ((Z.log2 n + 1023) * 2 ^ 52 + (dbl_mant n - 2 ^ 52))
      with ((Z.log2 n + 1024) * 2 ^ 52 + 0) by lia.
    destruct (dbl_fields (Z.log2 n + 1024) 0) as (F1 & F2 & _); [lia..|]. auto.
  - left. destruct (dbl_fields (Z.log2 n + 1023) (dbl_mant n - 2 ^ 52)) as (F1 & F2 & _); [lia..|].
    split; [lia|]. auto.
Qed.

Lemma dbl_of_pos_val n :
  0 < n < 2 ^ 65 →
  dbl_isNaN (dbl_of_pos n) = false ∧ 0 ≤ dbl_of_pos n < 2 ^ 63 ∧
  dbl_mag (dbl_of_pos n) = dbl_mant n * 2 ^ (Z.log2 n + 1022).
Proof.
  intros Hn. destruct (dbl_of_pos_fields n Hn) as [Hb F].
  pose proof (Z.log2_nonneg n). assert (Z.log2 n < 65) as Hl by (apply Z.log2_lt_pow2; lia).
  unfold dbl_isNaN, dbl_mag. destruct F as [(M & -> & ->)|(M & -> & ->)];
    (split; [|split; [done|]]).
  - destruct (_ =? 2047) eqn:E; bool_facts; [lia|done].
  - destruct (_ =? 0) eqn:E0; bool_facts; [lia|].
    destruct (_ =? 2047) eqn:E; bool_facts; [lia|]. f_equal; [lia|]. f_equal. lia.
  - destruct (_ =? 2047) eqn:E; bool_facts; [lia|done].
  - destruct (_ =? 0) eqn:E0; bool_facts; [lia|].
    destruct (_ =? 2047) eqn:E; bool_facts; [lia|]. rewrite M.
    replace (Z.log2 n + 1024 - 1) with (Z.succ (Z.log2 n + 1022)) by lia.
    rewrite Z.pow_succ_r by lia. change (2 ^ 53) with (2 * 2 ^ 52). lia.
Qed.

Lemma dbl_of_Z_cases n :
  - 2 ^ 65 < n < 2 ^ 65 →
  dbl_isNaN (dbl_of_Z n) = false ∧ 0 ≤ dbl_of_Z n < 2 ^ 64 ∧
  dbl_val (dbl_of_Z n) = Z.sgn n * (dbl_mant (Z.abs n) * 2 ^ (Z.log2 (Z.abs n) + 1022)).
Proof.
  intros Hn. unfold dbl_of_Z, dbl_val.
  destruct (n =? 0) eqn:E0; bool_facts; [subst; done|].
  destruct (n <? 0) eqn:E1; bool_facts.
  - destruct (dbl_of_pos_val (- n) ltac:(lia)) as (N & B & V).
    destruct (dbl_fields_neg _ B) as (F1 & F2 & F3 & _).
    assert (dbl_isNaN (2 ^ 63 + dbl_of_pos (- n)) = false) as N'
      by (unfold dbl_isNaN in *; by rewrite F1, F2).
    assert (dbl_mag (2 ^ 63 + dbl_of_pos (- n)) = dbl_mag (dbl_of_pos (- n))) as M'
      by (unfold dbl_mag; by rewrite F1, F2).
    rewrite F3, N', M', V. split; [done|]. split; [lia|].
    rewrite Z.sgn_neg, Z.abs_neq by lia. lia.
  - destruct (dbl_of_pos_val n ltac:(lia)) as (N & B & V).
    destruct (dbl_fields_neg _ B) as (_ & _ & _ & F4).
    rewrite F4, N, V. split; [done|]. split; [lia|].
    rewrite Z.sgn_pos, Z.abs_eq by lia. lia.
Qed.

(** Integers up to 2^53 in magnitude are exact. *)
Lemma dbl_val_exact n : - 2 ^ 53 ≤ n ≤ 2 ^ 53 → dbl_val (dbl_of_Z n) = n * 2 ^ 1074.
Proof.
  intros Hn. destruct (dbl_of_Z_cases n) as (_ & _ & ->); [lia|].
  destruct (decide (n = 0)) as [->|N0]; [done|].
  unfold dbl_mant. pose proof (Z.log2_spec (Z.abs n) ltac:(lia)) as [L1 L2].
  pose proof (Z.log2_nonneg (Z.abs n)).
  assert (Z.log2 (Z.abs n) ≤ 53) as Hl.
  { apply Z.lt_succ_r, Z.log2_lt_pow2; lia. }
  destruct (_ <=? 52) eqn:E; bool_facts.
  - rewrite <- Z.mul_assoc, <- Z.pow_add_r by lia.
    replace (52 - Z.log2 (Z.abs n) + (Z.log2 (Z.abs n) + 1022)) with 1074 by lia.
    rewrite Z.mul_assoc, (Z.mul_comm (Z.sgn n)), Z.abs_sgn. done.
  - assert (Z.log2 (Z.abs n) = 53) as HL by lia. rewrite HL in *.
    assert (n = 2 ^ 53 ∨ n = - 2 ^ 53) as [-> | ->] by lia; reflexivity.
Qed.

Lemma dbl_trunc_exact n : - 2 ^ 53 ≤ n ≤ 2 ^ 53 → dbl_trunc (dbl_of_Z n) = n.
Proof. intros. unfold dbl_trunc. rewrite dbl_val_exact by done. by apply Z.quot_mul. Qed.

(** Rounding keeps larger integers beyond the exact ones. *)
Lemma dbl_val_large n :
  2 ^ 53 ≤ n < 2 ^ 65 → 2 ^ 53 * 2 ^ 1074 ≤ dbl_val (dbl_of_Z n).
Proof.
  intros Hn. destruct (dbl_of_Z_cases n) as (_ & _ & ->); [lia|].
  rewrite Z.sgn_pos, Z.abs_eq by lia.
  pose proof (dbl_mant_bounds n ltac:(lia)) as Hm.
  assert (53 ≤ Z.log2 n) as Hl by (apply Z.log2_le_pow2; lia).
  assert (2 ^ (53 + 1022) ≤ 2 ^ (Z.log2 n + 1022)) as Hp by (apply Z.pow_le_mono_r; lia).
  change (2 ^ (53 + 1022)) with (2 * 2 ^ 1074) in Hp.
  assert (0 < 2 ^ 1074) as H0 by reflexivity. revert H0 Hp. revert Hm.
  generalize (2 ^ (Z.log2 n + 1022)) (2 ^ 1074) (dbl_mant n). clear. intros. nia.
Qed.

Lemma dbl_of_Z_opp n : n ≠ 0 → - 2 ^ 65 < n < 2 ^ 65 → dbl_val (dbl_of_Z (- n)) = - dbl_val (dbl_of_Z n).
Proof.
  intros N Hn. destruct (dbl_of_Z_cases n) as (_ & _ & ->); [lia|].
  destruct (dbl_of_Z_cases (- n)) as (_ & _ & ->); [lia|].
  rewrite Z.sgn_opp, Z.abs_opp. lia.
Qed.

Lemma dbl_val_large_neg n :
  - 2 ^ 65 < n ≤ - 2 ^ 53 → dbl_val (dbl_of_Z n) ≤ - (2 ^ 53 * 2 ^ 1074).
Proof.
  intros Hn. pose proof (dbl_val_large (- n) ltac:(lia)).
  rewrite dbl_of_Z_opp in H by lia. revert H. generalize (2 ^ 1074) (dbl_val (dbl_of_Z n)).
  clear. intros. lia.
Qed.

Lemma dbl_of_Z_range n : - 2 ^ 65 < n < 2 ^ 65 → in_u 64 (dbl_of_Z n).
Proof. intros. apply dbl_of_Z_cases. done. Qed.

Lemma dbl_of_Z_not_nan n : - 2 ^ 65 < n < 2 ^ 65 → dbl_isNaN (dbl_of_Z n) = false.
Proof. intros. apply dbl_of_Z_cases. done. Qed.
