(* ===== verification/Bson.v ===== *)
(** * BSON documents: layout in memory, sizes, and reading them back

    Models bson/bsontypes.h, bson/bsonelement.h, bson/bsonobj.h, bson/bsonobjiterator.h and the
    layout the builder of bson/bsonobjbuilder.h writes.  A document is a list of named values,
    [bobj]; [BSONObj.bytes] is its serialization.  [BSONElement.size] is the code's own
    computation of an element's extent from raw memory, [BSONObjIterator] the code's walk over
    that memory, and the round trip [bson_roundtrip] says that the walk finds exactly the
    elements that were written. *)

From S2P Require Import Prelude Double.
#[local] Open Scope Z_scope.

(** [BSONObjMaxInternalSize] (bson/util/builder.h). *)
Definition BSONObjMaxUserSize : Z := 16 * 1024 * 1024.
Definition BSONObjMaxInternalSize : Z := BSONObjMaxUserSize + 16 * 1024.

(** The value of an element, one constructor per [BSONType].  Strings, names and binary data are
    byte lists; [BDate] holds the signed milliseconds, [BTimestamp] the unsigned 64 bits. *)
#[local] Unset Elimination Schemes.
Inductive bval : Type :=
| BMinKey
| BDouble (d : Z)
| BString (s : list Z)
| BObject (o : list (list Z * bval))
| BArray (o : list (list Z * bval))
| BBinData (subtype : Z) (d : list Z)
| BUndefined
| BOID (oid : list Z)
| BBool (b : bool)
| BDate (millis : Z)
| BNull
| BRegEx (regex flags : list Z)
| BDBRef (ns oid : list Z)
| BCode (s : list Z)
| BSymbol (s : list Z)
| BCodeWScope (code : list Z) (scope : list (list Z * bval))
| BInt (n : Z)
| BTimestamp (t : Z)
| BLong (n : Z)
| BMaxKey.
#[local] Set Elimination Schemes.

Abbreviation bobj := (list (list Z * bval)).

(** ** Induction over values and the documents in them *)

Section BvalInd.
Variable P : bval → Prop.
Hypothesis Hobj : ∀ o, Forall (λ e, P e.2) o → P (BObject o).
Hypothesis Harr : ∀ o, Forall (λ e, P e.2) o → P (BArray o).
Hypothesis Hcws : ∀ c o, Forall (λ e, P e.2) o → P (BCodeWScope c o).
Hypothesis Hleaf : ∀ v, (∀ o, v ≠ BObject o) → (∀ o, v ≠ BArray o) → (∀ c o, v ≠ BCodeWScope c o) → P v.

Fixpoint bval_ind' (v : bval) : P v :=
  let go := fix go (o : bobj) : Forall (λ e, P e.2) o :=
    match o with
    | [] => Forall_nil_2 _
    | (n, v) :: o' => Forall_cons_2 _ _ _ (bval_ind' v : P (n, v).2) (go o')
    end in
  match v with
  | BObject o => Hobj o (go o)
  | BArray o => Harr o (go o)
  | BCodeWScope c o => Hcws c o (go o)
  | v => Hleaf v ltac:(done) ltac:(done) ltac:(done)
  end.
End BvalInd.

(** ** Types *)

Module BSONType.

(** The enumeration [BSONType]. *)
Definition of_val (v : bval) : Z :=
  match v with
  | BMinKey => -1
  | BDouble _ => 1
  | BString _ => 2
  | BObject _ => 3
  | BArray _ => 4
  | BBinData _ _ => 5
  | BUndefined => 6
  | BOID _ => 7
  | BBool _ => 8
  | BDate _ => 9
  | BNull => 10
  | BRegEx _ _ => 11
  | BDBRef _ _ => 12
  | BCode _ => 13
  | BSymbol _ => 14
  | BCodeWScope _ _ => 15
  | BInt _ => 16
  | BTimestamp _ => 17
  | BLong _ => 18
  | BMaxKey => 127
  end.

(** [canonicalizeBSONType]; [None] is its [verify(0)]. *)
Definition canonicalizeBSONType (t : Z) : option Z :=
  if (t =? -1) || (t =? 127) then Some t
  else if (t =? 0) || (t =? 6) then Some 0
  else if t =? 10 then Some 5
  else if (t =? 1) || (t =? 16) || (t =? 18) then Some 10
  else if (t =? 2) || (t =? 14) then Some 15
  else if t =? 3 then Some 20
  else if t =? 4 then Some 25
  else if t =? 5 then Some 30
  else if t =? 7 then Some 35
  else if t =? 8 then Some 40
  else if (t =? 9) || (t =? 17) then Some 45
  else if t =? 11 then Some 50
  else if t =? 12 then Some 55
  else if t =? 13 then Some 60
  else if t =? 15 then Some 65
  else None.

End BSONType.

(** ** Serialization *)

(** C strings: the bytes before the first zero. *)
Fixpoint cstr (l : list Z) : list Z :=
  match l with
  | [] => []
  | b :: l' => if b =? 0 then [] else b :: cstr l'
  end.

Definition le32 (n : Z) : list Z := le_bytes 4 (u32 n).
Definition le64 (n : Z) : list Z := le_bytes 8 (u64 n).

(** The type byte; [MinKey] is -1, stored as 0xff. *)
Definition type_byte (v : bval) : Z := BSONType.of_val v mod 256.

(** The elements of a document, given how a value is laid out. *)
Definition fields_with (vb : bval → list Z) : bobj → list Z :=
  fix go (o : bobj) : list Z :=
    match o with
    | [] => []
    | (n, v) :: o' => (type_byte v :: n ++ [0]) ++ vb v ++ go o'
    end.

(** A whole document: total size, elements, EOO. *)
Definition obj_with (fields : list Z) : list Z :=
  le32 (Z.of_nat (length fields) + 5) ++ fields ++ [0].

(** The bytes at [value()]. *)
Fixpoint val_bytes (v : bval) : list Z :=
  match v with
  | BMinKey | BMaxKey | BUndefined | BNull => []
  | BDouble d => le64 d
  | BString s | BCode s | BSymbol s => le32 (Z.of_nat (length s) + 1) ++ s ++ [0]
  | BObject o | BArray o => obj_with (fields_with val_bytes o)
  | BBinData t d => le32 (Z.of_nat (length d)) ++ t :: d
  | BOID oid => oid
  | BBool b => [if b then 1 else 0]
  | BDate n | BTimestamp n | BLong n => le64 n
  | BRegEx p f => p ++ [0] ++ f ++ [0]
  | BDBRef ns oid => le32 (Z.of_nat (length ns) + 1) ++ ns ++ [0] ++ oid
  | BCodeWScope c o =>
      let scope := obj_with (fields_with val_bytes o) in
      le32 (4 + 4 + (Z.of_nat (length c) + 1) + Z.of_nat (length scope)) ++
      le32 (Z.of_nat (length c) + 1) ++ c ++ [0] ++ scope
  | BInt n => le32 n
  end.

Definition fields_bytes (o : bobj) : list Z := fields_with val_bytes o.
Definition obj_bytes (o : bobj) : list Z := obj_with (fields_bytes o).

Lemma fields_bytes_cons n v o :
  fields_bytes ((n, v) :: o) = (type_byte v :: n ++ [0]) ++ val_bytes v ++ fields_bytes o.
Proof. done. Qed.

Lemma fields_bytes_app o1 o2 : fields_bytes (o1 ++ o2) = fields_bytes o1 ++ fields_bytes o2.
Proof.
  induction o1 as [|[n v] o1 IH]; [done|]. cbn [app]. rewrite !fields_bytes_cons, IH.
  by rewrite !(assoc_L app).
Qed.

Lemma length_obj_bytes o : Z.of_nat (length (obj_bytes o)) = Z.of_nat (length (fields_bytes o)) + 5.
Proof.
  unfold obj_bytes, obj_with, le32. rewrite !length_app, length_le_bytes. simpl. lia.
Qed.

(** ** Well-formed values: what the builder writes and validation accepts

    Names, regular expressions and flags are C strings, integers fit their width, and the whole
    document, so every value in it, fits [BSONObjMaxInternalSize]. *)

Definition byte0 (b : Z) : bool := is_byte b && negb (b =? 0).

Definition wf_with (wf : bval → bool) : bobj → bool :=
  fix go (o : bobj) : bool :=
    match o with
    | [] => true
    | (n, v) :: o' => forallb byte0 n && wf v && go o'
    end.

Definition fits (v : bval) : Prop := Z.of_nat (length (val_bytes v)) ≤ BSONObjMaxInternalSize.

Fixpoint wf (v : bval) : bool :=
  match v with
  | BMinKey | BMaxKey | BUndefined | BNull | BBool _ => true
  | BDouble d | BTimestamp d => (0 <=? d) && (d <? 2 ^ 64)
  | BString s | BCode s | BSymbol s => forallb is_byte s
  | BObject o | BArray o => wf_with wf o
  | BBinData t d => is_byte t && forallb is_byte d
  | BOID oid => forallb is_byte oid && (length oid =? 12)%nat
  | BDate n | BLong n => (- 2 ^ 63 <=? n) && (n <? 2 ^ 63)
  | BRegEx p f => forallb byte0 p && forallb byte0 f
  | BDBRef ns oid => forallb is_byte ns && forallb is_byte oid && (length oid =? 12)%nat
  | BCodeWScope c o => forallb is_byte c && wf_with wf o
  | BInt n => (- 2 ^ 31 <=? n) && (n <? 2 ^ 31)
  end.

Definition wf_obj (o : bobj) : bool :=
  (Z.of_nat (length (obj_bytes o)) <=? BSONObjMaxInternalSize) && wf_with wf o.

(** ** Reading memory

    Memory is the bytes from a pointer on; [None] is a read past the bytes the model has. *)

Definition rd32 (l : list Z) : option Z :=
  if (4 <=? length l)%nat then Some (i32 (le_val (take 4 l))) else None.
Definition rd64 (l : list Z) : option Z :=
  if (8 <=? length l)%nat then Some (le_val (take 8 l)) else None.

(** [strlen]: there must be a terminator. *)
Fixpoint strlen (l : list Z) : option nat :=
  match l with
  | [] => None
  | b :: l' => if b =? 0 then Some 0%nat else n ← strlen l'; Some (S n)
  end.

Module BSONElement.

(** The switch of [BSONElement::size()]: the extent of the value from the type byte [t] and the
    memory at [value()].  [None] is the exception for a bad type. *)
Definition valuesize (t : Z) (v : list Z) : option Z :=
  if (t =? 0) || (t =? 6) || (t =? 10) || (t =? 127) || (t =? 255) then Some 0
  else if t =? 8 then Some 1
  else if t =? 16 then Some 4
  else if (t =? 17) || (t =? 9) || (t =? 1) || (t =? 18) then Some 8
  else if t =? 7 then Some 12
  else if (t =? 14) || (t =? 13) || (t =? 2) then x ← rd32 v; Some (x + 4)
  else if t =? 12 then x ← rd32 v; Some (x + 4 + 12)
  else if (t =? 15) || (t =? 3) || (t =? 4) then x ← rd32 v; Some (i32 (u32 x))
  else if t =? 5 then x ← rd32 v; Some (x + 4 + 1)
  else if t =? 11 then
    len1 ← strlen v;
    len2 ← strlen (drop (len1 + 1) v);
    Some (Z.of_nat (len1 + 1 + len2 + 1))
  else None.

(** [fieldNameSize()] and [size()] of the element at [p]. *)
Definition size (p : list Z) : option Z :=
  match p with
  | [] => None
  | t :: r =>
      if t =? 0 then Some 1
      else n ← strlen r; x ← valuesize t (drop (n + 1) r); Some (x + Z.of_nat (n + 1) + 1)
  end.

(** [fieldName()] and the bytes of [value()]. *)
Definition fieldName (p : list Z) : list Z := cstr (tail p).
Definition value (p : list Z) : list Z := drop (length (fieldName p) + 1) (tail p).

End BSONElement.

(** [BSONObjIterator]: the memory from [_pos] on, and how far [_theend] (the EOO) is. *)
Module BSONObjIterator.

Definition state : Type := (list Z * Z)%type.

Definition make (obj : list Z) : option state :=
  sz ← rd32 obj;
  if sz =? 0 then Some ([], -1) else Some (drop 4 obj, sz - 1 - 4).

Definition more (it : state) : bool := 0 <? it.2.

(** [next()]: the element at [_pos], and the iterator moved past it. *)
Definition next (it : state) : option (list Z * state) :=
  if it.2 <? 0 then None
  else sz ← BSONElement.size it.1; Some (take (Z.to_nat sz) it.1, (drop (Z.to_nat sz) it.1, it.2 - sz)).

(** [while (i.more()) { e = i.next(); ... }]: the elements visited.  The fuel bounds the number
    of elements, and the number of bytes is enough (see [iterator_walk]). *)
Fixpoint elements (fuel : nat) (it : state) : option (list (list Z)) :=
  if more it then
    match fuel with
    | O => None
    | S f => '(e, it') ← next it; es ← elements f it'; Some (e :: es)
    end
  else Some [].

End BSONObjIterator.

(** ** The value an element holds

    What the typed accessors ([_numberInt], [date], [valuestr], [embeddedObject], [binData],
    [regex], [dbrefNS], [codeWScopeScopeData], ...) return, put together.  The fuel bounds the
    nesting; the length of the memory is enough. *)

Definition str_val (v : list Z) : option (list Z) :=
  n ← rd32 v; Some (take (Z.to_nat (n - 1)) (drop 4 v)).

Fixpoint map_opt {A B : Type} (f : A → option B) (l : list A) : option (list B) :=
  match l with
  | [] => Some []
  | a :: l' => b ← f a; bs ← map_opt f l'; Some (b :: bs)
  end.

Definition read_obj_with (rv : Z → list Z → option bval) (v : list Z) : option bobj :=
  it ← BSONObjIterator.make v;
  es ← BSONObjIterator.elements (length v) it;
  map_opt (λ e, t ← head e; x ← rv t (BSONElement.value e); Some (BSONElement.fieldName e, x)) es.

Fixpoint read_val (fuel : nat) (t : Z) (v : list Z) : option bval :=
  match fuel with
  | O => None
  | S f =>
      if t =? 255 then Some BMinKey
      else if t =? 1 then d ← rd64 v; Some (BDouble d)
      else if t =? 2 then s ← str_val v; Some (BString s)
      else if t =? 3 then o ← read_obj_with (read_val f) v; Some (BObject o)
      else if t =? 4 then o ← read_obj_with (read_val f) v; Some (BArray o)
      else if t =? 5 then
        n ← rd32 v; st ← v !! 4%nat; Some (BBinData st (take (Z.to_nat n) (drop 5 v)))
      else if t =? 6 then Some BUndefined
      else if t =? 7 then Some (BOID (take 12 v))
      else if t =? 8 then b ← head v; Some (BBool (negb (b =? 0)))
      else if t =? 9 then d ← rd64 v; Some (BDate (i64 d))
      else if t =? 10 then Some BNull
      else if t =? 11 then Some (BRegEx (cstr v) (cstr (drop (length (cstr v) + 1) v)))
      else if t =? 12 then
        n ← rd32 v; s ← str_val v; Some (BDBRef s (take 12 (drop (4 + Z.to_nat n) v)))
      else if t =? 13 then s ← str_val v; Some (BCode s)
      else if t =? 14 then s ← str_val v; Some (BSymbol s)
      else if t =? 15 then
        n ← rd32 (drop 4 v); s ← str_val (drop 4 v);
        o ← read_obj_with (read_val f) (drop (4 + 4 + Z.to_nat n) v);
        Some (BCodeWScope s o)
      else if t =? 16 then n ← rd32 v; Some (BInt n)
      else if t =? 17 then d ← rd64 v; Some (BTimestamp d)
      else if t =? 18 then d ← rd64 v; Some (BLong (i64 d))
      else if t =? 127 then Some BMaxKey
      else None
  end.

(** [BSONObj(const char *p)]: the size check of [init], then the elements. *)
Definition read_obj (fuel : nat) (m : list Z) : option bobj :=
  sz ← rd32 m;
  if (0 <? sz) && (sz <=? BSONObjMaxInternalSize) then read_obj_with (read_val fuel) m else None.

(** ** Round trip *)

Lemma i32_u32 n : in_s 32 n → i32 (u32 n) = n.
Proof.
  unfold wrapS, wrapU, in_s. intros H. change (32 - 1) with 31 in *.
  rewrite Zplus_mod_idemp_l. rewrite Z.mod_small; lia.
Qed.

Lemma i64_u64 n : in_s 64 n → i64 (u64 n) = n.
Proof.
  unfold wrapS, wrapU, in_s. intros H. change (64 - 1) with 63 in *.
  rewrite Zplus_mod_idemp_l. rewrite Z.mod_small; lia.
Qed.

Lemma rd32_le32 n r : in_s 32 n → rd32 (le32 n ++ r) = Some n.
Proof.
  intros H. unfold rd32, le32.
  rewrite length_app, length_le_bytes. simpl Nat.leb.
  rewrite take_app_length' by (symmetry; apply length_le_bytes).
  rewrite le_val_bytes_u; [by rewrite i32_u32|]. apply (wrapU_range 32). lia.
Qed.

Lemma rd64_le64 n r : rd64 (le64 n ++ r) = Some (u64 n).
Proof.
  unfold rd64, le64. rewrite length_app, length_le_bytes. simpl Nat.leb.
  rewrite take_app_length' by (symmetry; apply length_le_bytes).
  rewrite le_val_bytes_u; [done|]. apply (wrapU_range 64). lia.
Qed.

Lemma drop_le32 n r : drop 4 (le32 n ++ r) = r.
Proof. apply drop_app_length'. symmetry. apply length_le_bytes. Qed.

Lemma length_le32 n : length (le32 n) = 4%nat.
Proof. apply length_le_bytes. Qed.
Lemma length_le64 n : length (le64 n) = 8%nat.
Proof. apply length_le_bytes. Qed.

Lemma byte0_cons b l : forallb byte0 (b :: l) = true → (b =? 0) = false ∧ forallb byte0 l = true.
Proof. cbn [forallb]. unfold byte0 at 1. intros. bool_facts. split; [by apply Z.eqb_neq|done]. Qed.

Lemma strlen_cstring n r : forallb byte0 n = true → strlen (n ++ 0 :: r) = Some (length n).
Proof.
  induction n as [|b n IH]; intros H; [done|]. apply byte0_cons in H as [E H].
  cbn [strlen app]. rewrite E, (IH H). done.
Qed.

Lemma cstr_cstring n r : forallb byte0 n = true → cstr (n ++ 0 :: r) = n.
Proof.
  induction n as [|b n IH]; intros H; [done|]. apply byte0_cons in H as [E H].
  cbn [cstr app]. by rewrite E, (IH H).
Qed.

Lemma drop_cstring (n : list Z) (r : list Z) : drop (length n + 1) (n ++ 0 :: r) = r.
Proof. rewrite drop_app_ge by lia. by replace (length n + 1 - length n)%nat with 1%nat by lia. Qed.

Ltac in32 := unfold in_s; change (2 ^ (32 - 1)) with 2147483648; lia.

(** The length fields of a value that fits are in range. *)
Ltac fits_range :=
  match goal with
  | F : fits _ |- in_s 32 _ =>
      unfold fits in F; cbn [val_bytes] in F; unfold BSONObjMaxInternalSize, BSONObjMaxUserSize, obj_with in F;
      unfold in_s; repeat (rewrite ?length_app, ?length_le32, ?length_cons in F); simpl in F |- *; lia
  end.

(** [size()] finds the extent of every well-formed value, whatever follows it. *)
Lemma valuesize_ok v r :
  wf v = true → fits v →
  BSONElement.valuesize (type_byte v) (val_bytes v ++ r) = Some (Z.of_nat (length (val_bytes v))).
Proof.
  intros W F. unfold BSONElement.valuesize, type_byte.
  destruct v; cbn [BSONType.of_val] in *;
    repeat match goal with |- context [?a =? ?b] => let e := eval vm_compute in (a =? b) in change (a =? b) with e end;
    cbn [orb]; cbn [val_bytes]; rewrite <- ?(assoc_L app).
  all: try (rewrite ?length_app, ?length_le64, ?length_le32; done).
  all: try (unfold obj_with; rewrite <- ?(assoc_L app), rd32_le32 by fits_range; cbn [mbind option_bind];
    rewrite ?i32_u32 by fits_range; f_equal;
    repeat (rewrite ?length_app, ?length_le32, ?length_cons); simpl; lia).
  - cbn [wf] in W. bool_facts. f_equal. lia.
  - cbn [wf] in W. bool_facts. cbn [app].
    rewrite strlen_cstring by done. cbn [mbind option_bind]. rewrite drop_cstring, strlen_cstring by done.
    cbn [mbind option_bind]. f_equal. repeat (rewrite ?length_app, ?length_cons). simpl. lia.
  - cbn [wf] in W. bool_facts.
    rewrite rd32_le32 by fits_range. cbn [mbind option_bind]. f_equal.
    repeat (rewrite ?length_app, ?length_le32, ?length_cons). simpl. lia.
  - unfold fits in F. cbn [val_bytes] in F. generalize dependent (obj_with (fields_with val_bytes scope)). intros sc F.
    repeat (rewrite ?length_app, ?length_le32, ?length_cons in F). simpl in F.
    unfold BSONObjMaxInternalSize, BSONObjMaxUserSize in F.
    rewrite rd32_le32 by in32. cbn [mbind option_bind].
    rewrite i32_u32 by in32. f_equal.
    repeat (rewrite ?length_app, ?length_le32, ?length_cons). simpl. lia.
Qed.

(** ** The serialization consists of bytes *)

Lemma forallb_bytes l : forallb is_byte l = true → bytes_ok l.
Proof. intros H. apply Forall_forall. intros b Hb. rewrite forallb_forall in H. apply H. by apply list_elem_of_In. Qed.

Lemma forallb_byte0 l : forallb byte0 l = true → bytes_ok l.
Proof.
  intros H. apply forallb_bytes. rewrite forallb_forall in *. intros b Hb. specialize (H _ Hb).
  unfold byte0 in H. by bool_facts.
Qed.

Lemma bytes_ok_app l r : bytes_ok l → bytes_ok r → bytes_ok (l ++ r).
Proof. intros. by apply Forall_app. Qed.

Lemma bytes_ok_cons b l : is_byte b = true → bytes_ok l → bytes_ok (b :: l).
Proof. intros. by constructor. Qed.

Lemma bytes_ok_nil : bytes_ok [].
Proof. constructor. Qed.

Lemma le32_ok n : bytes_ok (le32 n).
Proof. apply le_bytes_ok. Qed.
Lemma le64_ok n : bytes_ok (le64 n).
Proof. apply le_bytes_ok. Qed.

#[export] Hint Resolve forallb_bytes forallb_byte0 bytes_ok_app bytes_ok_cons bytes_ok_nil le32_ok le64_ok : tokumx.

Lemma obj_with_ok l : bytes_ok l → bytes_ok (obj_with l).
Proof. unfold obj_with. auto 10 with tokumx. Qed.
#[export] Hint Resolve obj_with_ok : tokumx.

Lemma type_byte_ok v : is_byte (type_byte v) = true.
Proof. by destruct v. Qed.

Lemma fields_with_ok o :
  Forall (λ e, wf e.2 = true → bytes_ok (val_bytes e.2)) o → wf_with wf o = true →
  bytes_ok (fields_with val_bytes o).
Proof.
  induction 1 as [|[n v] o Hv Ho IH]; intros W; [constructor|]. cbn [wf_with] in W. bool_facts.
  cbn [fields_with app]. apply bytes_ok_cons; [apply type_byte_ok|]. auto 10 with tokumx.
Qed.

Lemma val_bytes_ok v : wf v = true → bytes_ok (val_bytes v).
Proof.
  induction v as [o IH|o IH|c o IH|v N1 N2 N3] using bval_ind'; intros W; cbn [wf val_bytes] in *; bool_facts.
  - auto using fields_with_ok with tokumx.
  - auto using fields_with_ok with tokumx.
  - apply bytes_ok_app; [auto with tokumx|]. apply bytes_ok_app; [auto with tokumx|].
    apply bytes_ok_app; [auto with tokumx|]. cbn [app]. apply bytes_ok_cons; [done|].
    auto using fields_with_ok with tokumx.
  - destruct v; try congruence; cbn [wf val_bytes] in *; bool_facts; try (by auto 10 with tokumx).
    apply bytes_ok_cons; [by destruct b|constructor].
Qed.

Lemma fields_bytes_ok o : wf_with wf o = true → bytes_ok (fields_bytes o).
Proof. intros. apply fields_with_ok; [|done]. apply Forall_forall. intros. by apply val_bytes_ok. Qed.

Lemma obj_bytes_ok o : wf_with wf o = true → bytes_ok (obj_bytes o).
Proof. intros. by apply obj_with_ok, fields_bytes_ok. Qed.

(** ** Walking a document *)

(** One element: type byte, name, value. *)
Definition elem_bytes (e : list Z * bval) : list Z := (type_byte e.2 :: e.1 ++ [0]) ++ val_bytes e.2.

Definition wf_elem (e : list Z * bval) : Prop := forallb byte0 e.1 = true ∧ wf e.2 = true ∧ fits e.2.

Lemma type_byte_nonzero v : (type_byte v =? 0) = false.
Proof. by destruct v. Qed.

Lemma fields_bytes_elem e o : fields_bytes (e :: o) = elem_bytes e ++ fields_bytes o.
Proof. destruct e as [n v]. rewrite fields_bytes_cons. unfold elem_bytes. by rewrite <- (assoc_L app). Qed.

Lemma size_ok e r :
  wf_elem e → BSONElement.size (elem_bytes e ++ r) = Some (Z.of_nat (length (elem_bytes e))).
Proof.
  destruct e as [n v]. intros (Hn & W & F). unfold elem_bytes, BSONElement.size. cbn [fst snd] in *.
  cbn [app]. rewrite type_byte_nonzero. rewrite <- !(assoc_L app). cbn [app].
  rewrite strlen_cstring by done. cbn [mbind option_bind].
  rewrite drop_cstring, valuesize_ok by done. cbn [mbind option_bind]. f_equal.
  repeat (rewrite ?length_app, ?length_cons). simpl. lia.
Qed.

Lemma elem_parts e r :
  wf_elem e →
  head (elem_bytes e ++ r) = Some (type_byte e.2) ∧
  BSONElement.fieldName (elem_bytes e ++ r) = e.1 ∧
  BSONElement.value (elem_bytes e ++ r) = val_bytes e.2 ++ r.
Proof.
  destruct e as [n v]. intros (Hn & W & F). cbn [fst snd] in *.
  assert (BSONElement.fieldName (elem_bytes (n, v) ++ r) = n) as E.
  { unfold BSONElement.fieldName, elem_bytes. cbn [fst snd tail app].
    rewrite <- !(assoc_L app). by apply cstr_cstring. }
  split; [done|]. split; [done|]. unfold BSONElement.value. rewrite E.
  unfold elem_bytes. cbn [fst snd tail app]. rewrite <- !(assoc_L app). apply drop_cstring.
Qed.

Lemma length_elem_bytes e : (2 ≤ length (elem_bytes e))%nat.
Proof. unfold elem_bytes. simpl. rewrite !length_app. simpl. lia. Qed.

(** The loop over an iterator visits exactly the elements written. *)
Lemma elements_walk o r fuel :
  Forall wf_elem o → (length o ≤ fuel)%nat →
  BSONObjIterator.elements fuel (fields_bytes o ++ r, Z.of_nat (length (fields_bytes o))) =
  Some (map elem_bytes o).
Proof.
  intros H. revert fuel. induction H as [|e o He Ho IH]; intros fuel Hf.
  - by destruct fuel.
  - destruct fuel as [|fuel]; simpl in Hf; [lia|]. rewrite fields_bytes_elem, <- (assoc_L app).
    pose proof (length_elem_bytes e). rewrite length_app, Nat2Z.inj_add.
    cbn [BSONObjIterator.elements]. unfold BSONObjIterator.more. cbn [snd].
    destruct (0 <? _) eqn:E; bool_facts; [|lia].
    unfold BSONObjIterator.next. cbn [fst snd]. destruct (_ <? 0) eqn:E'; bool_facts; [lia|].
    rewrite size_ok by done. cbn [mbind option_bind].
    rewrite Nat2Z.id, take_app_length, drop_app_length.
    replace (_ + _ - _) with (Z.of_nat (length (fields_bytes o))) by lia.
    rewrite IH by lia. done.
Qed.

Lemma length_fields_bytes o : (length o ≤ length (fields_bytes o))%nat.
Proof.
  induction o as [|e o IH]; [simpl; lia|]. rewrite fields_bytes_elem, length_app.
  pose proof (length_elem_bytes e). simpl. lia.
Qed.

Lemma obj_walk o r :
  Forall wf_elem o → Z.of_nat (length (obj_bytes o)) ≤ BSONObjMaxInternalSize →
  ∃ it, BSONObjIterator.make (obj_bytes o ++ r) = Some it ∧
  BSONObjIterator.elements (length (obj_bytes o ++ r)) it = Some (map elem_bytes o).
Proof.
  intros H L. rewrite length_obj_bytes in L. unfold BSONObjMaxInternalSize, BSONObjMaxUserSize in L.
  eexists. split.
  - unfold BSONObjIterator.make, obj_bytes, obj_with. rewrite <- (assoc_L app), rd32_le32 by in32.
    cbn [mbind option_bind]. destruct (_ =? 0) eqn:E; bool_facts; [lia|]. by rewrite drop_le32, <- (assoc_L app).
  - replace (_ + 5 - 1 - 4) with (Z.of_nat (length (fields_bytes o))) by lia.
    apply elements_walk; [done|]. pose proof (length_fields_bytes o).
    unfold obj_bytes, obj_with. rewrite !length_app, length_le32. lia.
Qed.

(** ** What is read is what was written *)

Lemma wf_with_elem o e : wf_with wf o = true → e ∈ o → forallb byte0 e.1 = true ∧ wf e.2 = true.
Proof.
  induction o as [|[n v] o IH]; intros W H; [by apply not_elem_of_nil in H|].
  cbn [wf_with] in W. bool_facts. apply elem_of_cons in H as [->|H]; auto.
Qed.

Lemma length_field_val o e :
  e ∈ o → (length (val_bytes e.2) < length (fields_bytes o))%nat.
Proof.
  intros (o1 & o2 & ->)%list_elem_of_split.
  rewrite fields_bytes_app, fields_bytes_elem. unfold elem_bytes.
  repeat (rewrite ?length_app, ?length_cons). simpl. lia.
Qed.

Lemma wf_elems o :
  wf_with wf o = true → Z.of_nat (length (obj_bytes o)) ≤ BSONObjMaxInternalSize → Forall wf_elem o.
Proof.
  intros W L. apply Forall_forall. intros e He. destruct (wf_with_elem _ _ W He). split; [done|]. split; [done|].
  unfold fits. pose proof (length_field_val _ _ He). rewrite length_obj_bytes in L. lia.
Qed.

Lemma map_opt_ok {A B : Type} (f : A → option B) (g : B → A) l :
  (∀ b, b ∈ l → f (g b) = Some b) → map_opt f (map g l) = Some l.
Proof.
  induction l as [|b l IH]; intros H; [done|]. cbn [map map_opt].
  rewrite H by set_solver. cbn [mbind option_bind]. rewrite IH by set_solver. done.
Qed.

Lemma read_obj_with_ok rv o r :
  Forall wf_elem o → Z.of_nat (length (obj_bytes o)) ≤ BSONObjMaxInternalSize →
  (∀ e, e ∈ o → rv (type_byte e.2) (val_bytes e.2) = Some e.2) →
  read_obj_with rv (obj_bytes o ++ r) = Some o.
Proof.
  intros W L R. unfold read_obj_with. destruct (obj_walk o r W L) as (it & -> & E).
  cbn [mbind option_bind]. rewrite E. cbn [mbind option_bind]. apply map_opt_ok. intros e He.
  rewrite Forall_forall in W. destruct (elem_parts e [] (W _ He)) as (E1 & E2 & E3).
  rewrite !app_nil_r in E1, E2, E3. rewrite E1, E3, ?app_nil_r. cbn [mbind option_bind]. rewrite R, E2 by done. by destruct e.
Qed.

Lemma str_val_ok s r :
  in_s 32 (Z.of_nat (length s) + 1) → str_val (le32 (Z.of_nat (length s) + 1) ++ s ++ r) = Some s.
Proof.
  intros H. unfold str_val. rewrite rd32_le32 by done. cbn [mbind option_bind].
  rewrite drop_le32. f_equal. replace (_ + 1 - 1) with (Z.of_nat (length s)) by lia.
  by rewrite Nat2Z.id, take_app_length.
Qed.

Lemma drop_app_plus {A : Type} n (l r : list A) k : length l = n → drop (n + k) (l ++ r) = drop k r.
Proof. intros <-. rewrite drop_app_ge by lia. f_equal. lia. Qed.

(** Reduces the tests of a type byte against the codes. *)
Ltac eval_type :=
  repeat match goal with
  | |- context [?a =? ?b] => let e := eval vm_compute in (a =? b) in
      lazymatch e with true => change (a =? b) with true | false => change (a =? b) with false end;
      cbn [orb]; cbv iota
  end.

Lemma read_val_leaf v fuel r :
  (∀ o, v ≠ BObject o) → (∀ o, v ≠ BArray o) → (∀ c o, v ≠ BCodeWScope c o) →
  wf v = true → fits v → read_val (S fuel) (type_byte v) (val_bytes v ++ r) = Some v.
Proof.
  intros N1 N2 N3 W F. cbn [read_val]. unfold type_byte.
  destruct v; try congruence; cbn [BSONType.of_val]; eval_type; cbn [val_bytes];
    rewrite <- ?(assoc_L app); try done; cbn [wf] in W; bool_facts.
  all: try (rewrite str_val_ok by fits_range; done).
  all: try (rewrite rd64_le64; cbn [mbind option_bind];
    rewrite ?i64_u64 by (unfold in_s; change (2 ^ (64 - 1)) with (2 ^ 63); lia);
    rewrite ?wrapU_id by (unfold in_u; lia); done).
  - rewrite rd32_le32 by fits_range. cbn [mbind option_bind app].
    change (_ !! 4%nat) with (Some subtype). cbn [mbind option_bind].
    change (drop 5 _) with (d ++ r). by rewrite Nat2Z.id, take_app_length.
  - rewrite take_app_length' by lia. done.
  - by destruct b.
  - cbn [app]. rewrite cstr_cstring by done. rewrite drop_cstring, cstr_cstring by done. done.
  - rewrite rd32_le32 by fits_range. cbn [mbind option_bind].
    rewrite str_val_ok by fits_range. cbn [mbind option_bind].
    rewrite (drop_app_plus 4) by apply length_le32.
    replace (Z.to_nat _) with (length ns + 1)%nat by lia. cbn [app]. rewrite drop_cstring.
    rewrite take_app_length' by lia. done.
  - rewrite rd32_le32 by in32. done.
Qed.

Definition val_roundtrips (v : bval) : Prop :=
  ∀ fuel r, wf v = true → fits v → (length (val_bytes v) < fuel)%nat →
  read_val fuel (type_byte v) (val_bytes v ++ r) = Some v.

(** An embedded document, given that its values round trip. *)
Lemma read_embedded_ok o fuel r :
  Forall (λ e, val_roundtrips e.2) o → wf_with wf o = true →
  Z.of_nat (length (obj_bytes o)) ≤ BSONObjMaxInternalSize → (length (fields_bytes o) ≤ fuel)%nat →
  read_obj_with (read_val fuel) (obj_bytes o ++ r) = Some o.
Proof.
  intros H W L Hf. pose proof (wf_elems _ W L) as We. apply read_obj_with_ok; [done..|].
  intros e He. rewrite Forall_forall in H, We. destruct (We _ He) as (_ & W' & F').
  specialize (H _ He fuel []). rewrite app_nil_r in H. apply H; try done.
  pose proof (length_field_val _ _ He). lia.
Qed.

Lemma read_val_ok v : val_roundtrips v.
Proof.
  induction v as [o IH|o IH|c o IH|v N1 N2 N3] using bval_ind'; intros fuel r W F Hf;
    (destruct fuel as [|fuel]; [lia|]).
  - change (val_bytes (BObject o)) with (obj_bytes o) in *. unfold fits in F.
    change (val_bytes (BObject o)) with (obj_bytes o) in F. cbn [read_val]. unfold type_byte.
    cbn [BSONType.of_val]. eval_type. rewrite read_embedded_ok; [done..|].
    pose proof (length_obj_bytes o). lia.
  - change (val_bytes (BArray o)) with (obj_bytes o) in *. unfold fits in F.
    change (val_bytes (BArray o)) with (obj_bytes o) in F. cbn [read_val]. unfold type_byte.
    cbn [BSONType.of_val]. eval_type. rewrite read_embedded_ok; [done..|].
    pose proof (length_obj_bytes o). lia.
  - unfold fits in F. cbn [val_bytes] in *. fold (fields_bytes o) in *. fold (obj_bytes o) in *.
    cbn [wf] in W. bool_facts. cbn [read_val]. unfold type_byte. cbn [BSONType.of_val]. eval_type.
    rewrite !length_app, !length_le32 in F, Hf. cbn [length] in F, Hf.
    pose proof (length_obj_bytes o). unfold BSONObjMaxInternalSize, BSONObjMaxUserSize in *.
    rewrite <- !(assoc_L app), drop_le32, rd32_le32 by in32. cbn [mbind option_bind].
    rewrite str_val_ok by in32. cbn [mbind option_bind].
    rewrite <- Nat.add_assoc, (drop_app_plus 4) by apply length_le32.
    rewrite (drop_app_plus 4) by apply length_le32.
    replace (Z.to_nat _) with (length c + 1)%nat by lia. cbn [app]. rewrite drop_cstring.
    rewrite read_embedded_ok; [done..| |]. 2: lia.
    unfold BSONObjMaxInternalSize, BSONObjMaxUserSize. lia.
  - by apply read_val_leaf.
Qed.

Lemma rd32_obj o r :
  Z.of_nat (length (obj_bytes o)) ≤ BSONObjMaxInternalSize →
  rd32 (obj_bytes o ++ r) = Some (Z.of_nat (length (obj_bytes o))).
Proof.
  intros H. pose proof (length_obj_bytes o) as L. rewrite L.
  unfold obj_bytes, obj_with. rewrite <- (assoc_L app), rd32_le32; [done|].
  unfold BSONObjMaxInternalSize, BSONObjMaxUserSize in *. in32.
Qed.

Lemma objsize_valid o :
  Z.of_nat (length (obj_bytes o)) ≤ BSONObjMaxInternalSize →
  (0 <? Z.of_nat (length (obj_bytes o))) &&
  (Z.of_nat (length (obj_bytes o)) <=? BSONObjMaxInternalSize) = true.
Proof. intros H. pose proof (length_obj_bytes o). apply andb_true_intro. split; [apply Z.ltb_lt|apply Z.leb_le]; lia. Qed.

Lemma wf_obj_split o : wf_obj o = true → Z.of_nat (length (obj_bytes o)) ≤ BSONObjMaxInternalSize ∧ wf_with wf o = true.
Proof. unfold wf_obj. intros W. apply andb_true_iff in W as [H1 H2]. apply Z.leb_le in H1. done. Qed.

Lemma read_obj_ok o r fuel :
  wf_obj o = true → (length (obj_bytes o) ≤ fuel)%nat → read_obj fuel (obj_bytes o ++ r) = Some o.
Proof.
  intros [H1 H2]%wf_obj_split Hf. unfold read_obj. rewrite rd32_obj by done. pose proof (length_obj_bytes o) as L.
  assert ((x ← Some (Z.of_nat (length (obj_bytes o)));
   if (0 <? x) && (x <=? BSONObjMaxInternalSize)
   then read_obj_with (read_val fuel) (obj_bytes o ++ r)
   else None) = read_obj_with (read_val fuel) (obj_bytes o ++ r)) as ->.
  { cbn [mbind option_bind]. by rewrite objsize_valid by done. }
  apply read_embedded_ok; [|done|done|lia]. apply Forall_forall. intros. apply read_val_ok.
Qed.

Lemma read_obj_exact o fuel :
  wf_obj o = true → (length (obj_bytes o) ≤ fuel)%nat → read_obj fuel (obj_bytes o) = Some o.
Proof. intros W H. pose proof (read_obj_ok o [] fuel W H) as R. by rewrite app_nil_r in R. Qed.

(** C17: what [BSONObjBuilder] lays out in memory, [BSONObj] reads back: for every well-formed
    document of legal size, whatever bytes follow it, the iterator visits its elements in order
    and the typed accessors, at every level of nesting, return the values written.  The length
    of the document is enough fuel. *)
Theorem bson_roundtrip o r :
  wf_obj o = true → read_obj (length (obj_bytes o)) (obj_bytes o ++ r) = Some o.
Proof. intros. by apply read_obj_ok. Qed.
