(* ===== verification/BsonOrder.v ===== *)
(** * The order of BSON values

    Models [compareElementValues] and [BSONElement::woCompare] (bson/bson-inl.h),
    [BSONObj::woCompare], [woSortOrder] (db/jsobj.cpp) and [Ordering] (bson/ordering.h), the
    comparisons every index and every sort of the server rests on.

    The specification is a sort key: [vkey] maps a value, and [okey] a document, to a list of
    integers so that the code's comparison is the lexicographic order of the keys.  That the
    comparison is a total preorder follows.  It holds on the documents of [odom]: 64-bit
    integers beyond 2^53 compare with doubles through a rounded value and a [Date] with a
    [Timestamp] by two different rules, and the theorems at the end show that the order indeed
    fails there. *)

From S2P Require Import Prelude Double Bson.
#[local] Open Scope Z_scope.

(** ** Accessors *)

Module Element.

(** [canonicalType()] *)
Definition canonicalType (v : bval) : Z :=
  match BSONType.canonicalizeBSONType (BSONType.of_val v) with Some c => c | None => -1 end.

Definition isNumber (v : bval) : bool :=
  match v with BLong _ | BDouble _ | BInt _ => true | _ => false end.

Definition isSimpleType (v : bval) : bool :=
  match v with
  | BLong _ | BDouble _ | BInt _ | BString _ | BBool _ | BDate _ | BOID _ => true
  | _ => false
  end.

(** [numberDouble()], also called [number()]; a bit pattern. *)
Definition numberDouble (v : bval) : Z :=
  match v with
  | BDouble d => d
  | BInt n => dbl_of_Z n
  | BLong n => dbl_of_Z n
  | _ => 0
  end.

(** A double converted to a [w]-bit integer; [None] is the undefined behaviour of a value that
    does not fit. *)
Definition dbl_cast (w : Z) (d : Z) : option Z :=
  if dbl_isNaN d then None
  else if (- 2 ^ (w - 1) <=? dbl_trunc d) && (dbl_trunc d <? 2 ^ (w - 1)) then Some (dbl_trunc d)
  else None.

Definition numberInt (v : bval) : option Z :=
  match v with
  | BDouble d => dbl_cast 32 d
  | BInt n => Some n
  | BLong n => Some (i32 n)
  | _ => Some 0
  end.

Definition numberLong (v : bval) : option Z :=
  match v with
  | BDouble d => dbl_cast 64 d
  | BInt n => Some n
  | BLong n => Some n
  | _ => Some 0
  end.

Definition LLONG_MAX : Z := 2 ^ 63 - 1.
Definition LLONG_MIN : Z := - 2 ^ 63.

(** [safeNumberLong()] *)
Definition safeNumberLong (v : bval) : option Z :=
  match v with
  | BDouble d =>
      if dbl_isNaN d then Some 0
      else if dbl_ltb (dbl_of_Z LLONG_MAX) d then Some LLONG_MAX
      else if dbl_ltb d (dbl_of_Z LLONG_MIN) then Some LLONG_MIN
      else numberLong v
  | _ => numberLong v
  end.

Definition trueValue (v : bval) : bool :=
  match v with
  | BLong n => negb (n =? 0)
  | BDouble d => negb (dbl_eqb d 0)
  | BInt n => negb (n =? 0)
  | BBool b => b
  | BNull | BUndefined => false
  | _ => true
  end.

(** The comparison of two numbers through doubles ([dodouble]). *)
Definition compare_doubles (left right : Z) : Z :=
  if dbl_ltb left right then -1
  else if dbl_eqb left right then 0
  else if dbl_isNaN left then (if dbl_isNaN right then 0 else -1)
  else 1.

Definition compare_ints (L R : Z) : Z := if L <? R then -1 else if L =? R then 0 else 1.

(** [memcmp] over the common length, terminators included, then the lengths. *)
Definition compare_strings (l r : list Z) : Z :=
  let res := memcmp (l ++ [0]) (r ++ [0]) in
  if res =? 0 then Z.of_nat (length l) - Z.of_nat (length r) else res.

(** [codeWScopeScopeDataUnsafe()]: what follows the first zero byte of the code. *)
Definition scopeDataUnsafe (c : list Z) (scope : bobj) : list Z :=
  let p := c ++ [0] ++ obj_bytes scope in drop (length (cstr p) + 1) p.

(** [woCompare] of two elements, given the comparison of their values. *)
Definition wo_elem (considerFieldName : bool) (cv : bval → bval → Z) (l r : list Z * bval) : Z :=
  let x := canonicalType l.2 - canonicalType r.2 in
  if negb (x =? 0) && (negb (isNumber l.2) || negb (isNumber r.2)) then x
  else
    let y := if considerFieldName then strcmp l.1 r.1 else 0 in
    if negb (y =? 0) then y else cv l.2 r.2.

(** [BSONObj::woCompare(r)] with no ordering, given the comparison of values. *)
Definition wo_obj_with (cv : bval → bval → Z) : bobj → bobj → Z :=
  fix go (a b : bobj) : Z :=
    match a, b with
    | [], [] => 0
    | [], _ :: _ => -1
    | _ :: _, [] => 1
    | l :: a', r :: b' =>
        let x := wo_elem true cv l r in
        if negb (x =? 0) then x else go a' b'
    end.

(** [compareElementValues]: called on values of the same canonical type; otherwise the result
    is the [-1] of the end of the function. *)
Fixpoint compareElementValues (l r : bval) : Z :=
  match l, r with
  | BUndefined, _ | BNull, _ | BMaxKey, _ | BMinKey, _ =>
      let f := canonicalType l - canonicalType r in
      if f <? 0 then -1 else if f =? 0 then 0 else 1
  | BBool a, BBool b => (if a then 1 else 0) - (if b then 1 else 0)
  | BTimestamp a, BTimestamp b => compare_ints a b
  | BTimestamp a, BDate b => compare_ints a (u64 b)
  | BDate a, BTimestamp b => compare_ints a (i64 b)
  | BDate a, BDate b => compare_ints a b
  | BLong L, BLong R => compare_ints L R
  | BInt L, BInt R => compare_ints L R
  | BLong _, _ | BInt _, _ | BDouble _, _ => compare_doubles (numberDouble l) (numberDouble r)
  | BOID a, BOID b => memcmp a b
  | BCode a, BCode b => compare_strings a b
  | BSymbol a, BSymbol b | BSymbol a, BString b | BString a, BSymbol b | BString a, BString b =>
      compare_strings a b
  | BObject a, BObject b => wo_obj_with compareElementValues a b
  | BArray a, BArray b => wo_obj_with compareElementValues a b
  | BDBRef _ _, BDBRef _ _ =>
      let lsz := Z.of_nat (length (val_bytes l)) in
      let rsz := Z.of_nat (length (val_bytes r)) in
      if negb (lsz - rsz =? 0) then lsz - rsz else memcmp (val_bytes l) (val_bytes r)
  | BBinData t a, BBinData u b =>
      let lsz := Z.of_nat (length a) in
      let rsz := Z.of_nat (length b) in
      if negb (lsz - rsz =? 0) then lsz - rsz else memcmp (t :: a) (u :: b)
  | BRegEx p f, BRegEx q g =>
      let c := strcmp p q in if negb (c =? 0) then c else strcmp f g
  | BCodeWScope c o, BCodeWScope d s =>
      let f := strcmp (cstr c) (cstr d) in
      if negb (f =? 0) then f
      else strcmp (cstr (scopeDataUnsafe c o)) (cstr (scopeDataUnsafe d s))
  | _, _ => -1
  end.

(** [BSONElement::woCompare] *)
Definition woCompare (l r : list Z * bval) (considerFieldName : bool) : Z :=
  wo_elem considerFieldName compareElementValues l r.

Definition valuesEqual (l r : list Z * bval) : bool := woCompare l r false =? 0.
Definition eq_op (l r : list Z * bval) : bool := woCompare l r true =? 0.

(** [operator<]: ignores the names. *)
Definition lt_op (l r : list Z * bval) : bool :=
  let x := canonicalType l.2 - canonicalType r.2 in
  if x <? 0 then true else if 0 <? x then false else compareElementValues l.2 r.2 <? 0.

End Element.

(** ** [Ordering]: one bit per key field, set when the field is descending *)

Module Ordering.

(** [make]; the error is the assertion on more than 32 fields. *)
Fixpoint make_from (n : Z) (b : Z) (o : bobj) : result Z Z :=
  match o with
  | [] => Ok b
  | e :: o' =>
      if n <=? 31 then
        make_from (n + 1)
          (if dbl_ltb (Element.numberDouble e.2) 0 then Z.lor b (u32 (Z.shiftl 1 n)) else b) o'
      else Err 13103
  end.

Definition make (o : bobj) : result Z Z := make_from 0 0 o.

Definition get (bits i : Z) : Z := if Z.land (u32 (Z.shiftl 1 i)) bits =? 0 then 1 else -1.

Definition descending (bits mask : Z) : bool := negb (Z.land bits mask =? 0).

End Ordering.

Module Obj.

(** [woCompare(r, Ordering, considerFieldName)]: [mask] is a 32-bit word shifted at each field. *)
Fixpoint wo_ord_from (mask bits : Z) (considerFieldName : bool) (a b : bobj) : Z :=
  match a, b with
  | [], [] => 0
  | [], _ :: _ => -1
  | _ :: _, [] => 1
  | l :: a', r :: b' =>
      let x := Element.woCompare l r considerFieldName in
      let x := if Ordering.descending bits mask then - x else x in
      if negb (x =? 0) then x else wo_ord_from (u32 (Z.shiftl mask 1)) bits considerFieldName a' b'
  end.

Definition woCompare_ord (a b : bobj) (bits : Z) (considerFieldName : bool) : Z :=
  wo_ord_from 1 bits considerFieldName a b.

(** [woCompare(r, idxKey, considerFieldName)].  The third iterator is advanced before the ends
    are tested: [k] is what it has left, with its EOO, and advancing it further fails. *)
Fixpoint wo_idx_from (k : option (list (option Z))) (considerFieldName : bool) (a b : bobj)
    : option Z :=
  match k with
  | Some [] => None
  | _ =>
      let o := match k with Some (o :: _) => o | _ => None end in
      let k' := match k with Some (_ :: k') => Some k' | _ => None end in
      match a, b with
      | [], [] => Some 0
      | [], _ :: _ => Some (-1)
      | _ :: _, [] => Some 1
      | l :: a', r :: b' =>
          let x := Element.woCompare l r considerFieldName in
          let x := match o with Some d => if dbl_ltb d 0 then - x else x | None => x end in
          if negb (x =? 0) then Some x else wo_idx_from k' considerFieldName a' b'
      end
  end.

Definition woCompare_idx (a b idxKey : bobj) (considerFieldName : bool) : option Z :=
  match a, b with
  | [], [] => Some 0
  | [], _ => Some (-1)
  | _, [] => Some 1
  | _, _ =>
      let k := match idxKey with
               | [] => None
               | _ => Some (map (λ e, Some (Element.numberDouble e.2)) idxKey ++ [None])
               end in
      wo_idx_from k considerFieldName a b
  end.

(** [woCompare(r)]: the default arguments. *)
Definition woCompare (a b : bobj) : Z := Element.wo_obj_with Element.compareElementValues a b.

(** [equal]: only the end of the left document is tested, so the right iterator can be asked
    for an element past its EOO, which fails ([None]). *)
Fixpoint equal (a b : bobj) : option bool :=
  match a, b with
  | [], [] => Some true
  | [], _ :: _ => Some false
  | l :: _, [] =>
      if (Element.canonicalType l.2 =? 0) && bool_decide (l.1 = []) then None else Some false
  | l :: a', r :: b' => if Element.eq_op l r then equal a' b' else Some false
  end.

(** [isPrefixOf] and [isFieldNamePrefixOf] *)
Fixpoint isPrefixOf (a b : bobj) : bool :=
  match a, b with
  | [], _ => true
  | _ :: _, [] => false
  | x :: a', y :: b' => if Element.eq_op x y then isPrefixOf a' b' else false
  end.

Fixpoint isFieldNamePrefixOf (a b : bobj) : bool :=
  match a, b with
  | [], _ => true
  | _ :: _, [] => false
  | x :: a', y :: b' => if bool_decide (x.1 = y.1) then isFieldNamePrefixOf a' b' else false
  end.

End Obj.

(** ** The sort key *)

(** Which of [Date] and [Timestamp] a set of documents may use; they have one canonical type and
    their mixed comparisons agree only on the common range. *)
Inductive date_mode : Type := DatesOnly | TimestampsOnly | CommonRange.

Definition dom_with (dom : bval → bool) : bobj → bool :=
  fix go (o : bobj) : bool :=
    match o with
    | [] => true
    | (_, v) :: o' => dom v && go o'
    end.

Fixpoint vdom (m : date_mode) (v : bval) : bool :=
  match v with
  | BDate n => match m with DatesOnly => true | TimestampsOnly => false | CommonRange => 0 <=? n end
  | BTimestamp t => match m with DatesOnly => false | TimestampsOnly => true | CommonRange => t <? 2 ^ 63 end
  | BLong n => (- 2 ^ 53 <=? n) && (n <=? 2 ^ 53)
  | BObject o | BArray o => dom_with (vdom m) o
  | _ => true
  end.

Definition odom (m : date_mode) (o : bobj) : bool := wf_with wf o && dom_with (vdom m) o.

(** NaN is below every number. *)
Definition num_key (d : Z) : Z := if dbl_isNaN d then - 2 ^ 3000 else dbl_val d.

Definition fields_key_with (vk : bval → list Z) : bobj → list Z :=
  fix go (o : bobj) : list Z :=
    match o with
    | [] => [0]
    | (n, v) :: o' => (Element.canonicalType v + 2) :: n ++ 0 :: vk v ++ go o'
    end.

Definition str_key (s : list Z) : list Z := map (λ b, b + 1) s ++ [0].

Fixpoint vkey (v : bval) : list Z :=
  match v with
  | BMinKey | BMaxKey | BUndefined | BNull => []
  | BDouble _ | BInt _ | BLong _ => [num_key (Element.numberDouble v)]
  | BString s | BCode s | BSymbol s => str_key s
  | BObject o | BArray o => fields_key_with vkey o
  | BBinData t d => Z.of_nat (length d) :: t :: d
  | BOID oid => oid
  | BBool b => [if b then 1 else 0]
  | BDate n | BTimestamp n => [n]
  | BRegEx p f => p ++ 0 :: f ++ [0]
  | BDBRef ns oid => Z.of_nat (length ns) :: ns ++ oid
  | BCodeWScope c o => cstr c ++ 0 :: cstr (Element.scopeDataUnsafe c o) ++ [0]
  end.

Definition okey (o : bobj) : list Z := fields_key_with vkey o.

(** [x] decides, and where it is 0 [k] does. *)
Definition lexi (x k : Z) : Z := if x =? 0 then k else Z.sgn x.

Lemma lexi_assoc x y k : lexi x (lexi y k) = lexi (if negb (x =? 0) then x else y) k.
Proof. unfold lexi. destruct (x =? 0) eqn:E; simpl; rewrite ?E; done. Qed.

Lemma lexi_sgn x y k : Z.sgn x = Z.sgn y → lexi x k = lexi y k.
Proof.
  unfold lexi. intros E. rewrite E. destruct (x =? 0) eqn:Ex, (y =? 0) eqn:Ey; bool_facts; subst; try done.
  - destruct y; done.
  - destruct x; done.
Qed.

Lemma strcmp_sgn l r : Z.sgn (strcmp l r) = strcmp l r.
Proof. revert r. induction l as [|a l IH]; intros [|b r]; simpl; try done. crush_cmp. Qed.

Lemma strcmp_cons a b l r : strcmp (a :: l) (b :: r) = lexi (a - b) (strcmp l r).
Proof. cbn [strcmp]. unfold lexi. crush_cmp. Qed.

Lemma strcmp_fixed l r x y :
  length l = length r → strcmp (l ++ x) (r ++ y) = lexi (memcmp l r) (strcmp x y).
Proof.
  revert r. induction l as [|a l IH]; intros [|b r] H; simplify_eq/=; [done|].
  destruct (a =? b); [by apply IH|]. by destruct (a <? b).
Qed.

Definition all_pos (l : list Z) : Prop := Forall (λ b, 0 < b) l.

Lemma strcmp_term l r x y :
  all_pos l → all_pos r → strcmp (l ++ 0 :: x) (r ++ 0 :: y) = lexi (strcmp l r) (strcmp x y).
Proof.
  intros H. revert r. induction H as [|a l Ha _ IH]; intros r Hr.
  - destruct Hr as [|b r Hb Hr]; [done|]. cbn [app strcmp]. crush_cmp.
  - destruct Hr as [|b r Hb Hr].
    + cbn [app strcmp]. crush_cmp.
    + cbn [app strcmp]. destruct (a =? b); [by apply IH|]. by destruct (a <? b).
Qed.

Lemma byte0_pos l : forallb byte0 l = true → all_pos l.
Proof.
  induction l as [|b l IH]; [constructor|]. cbn [forallb]. unfold byte0 at 1, is_byte. intros. bool_facts.
  constructor; [lia|by apply IH].
Qed.

Lemma is_byte_nonneg l : forallb is_byte l = true → Forall (λ b, 0 ≤ b) l.
Proof.
  induction l as [|b l IH]; [constructor|]. cbn [forallb]. unfold is_byte at 1. intros. bool_facts.
  constructor; [lia|by apply IH].
Qed.

Lemma strcmp_str_key s t x y :
  Forall (λ b, 0 ≤ b) s → Forall (λ b, 0 ≤ b) t →
  strcmp (str_key s ++ x) (str_key t ++ y) = lexi (Element.compare_strings s t) (strcmp x y).
Proof.
  unfold str_key. intros Hs. revert t. induction Hs as [|a s Ha _ IH]; intros t Ht.
  - destruct Ht as [|b t Hb Ht]; [done|]. unfold Element.compare_strings, lexi. cbn [map app strcmp memcmp length].
    crush_cmp.
  - destruct Ht as [|b t Hb Ht].
    + unfold Element.compare_strings, lexi. cbn [map app strcmp memcmp length]. destruct s; simpl memcmp; crush_cmp.
    + cbn [map app strcmp]. rewrite (IH _ Ht). unfold Element.compare_strings.
      cbn [map app memcmp length].
      destruct (a + 1 =? b + 1) eqn:E; destruct (a =? b) eqn:E'; bool_facts; try lia.
      * f_equal. destruct (memcmp _ _ =? 0); lia.
      * unfold lexi. crush_cmp.
Qed.

(** ** Numbers *)

Lemma dbl_mag_bounds d : 0 ≤ dbl_mag d ≤ 2 ^ 2098.
Proof.
  unfold dbl_mag. pose proof (Z.mod_pos_bound d (2 ^ 52) ltac:(lia)) as Hf. fold (dbl_frac d) in Hf.
  pose proof (Z.mod_pos_bound (d / 2 ^ 52) (2 ^ 11) ltac:(lia)) as He. fold (dbl_exp d) in He.
  destruct (dbl_exp d =? 0) eqn:E0; [|destruct (dbl_exp d =? 2047) eqn:E1]; bool_facts.
  - split; [lia|]. transitivity (2 ^ 52); [lia|]. apply Z.pow_le_mono_r; lia.
  - split; [apply Z.pow_nonneg|]; lia.
  - assert (0 < 2 ^ (dbl_exp d - 1) ≤ 2 ^ 2045) as [P1 P2].
    { split; [apply Z.pow_pos_nonneg; lia|apply Z.pow_le_mono_r; lia]. }
    change (2 ^ 2098) with (2 ^ 53 * 2 ^ 2045).
    revert P1 P2 Hf. generalize (2 ^ (dbl_exp d - 1)) (2 ^ 2045) (dbl_frac d). clear. intros. nia.
Qed.

Lemma dbl_val_above_nan d : - 2 ^ 3000 < dbl_val d.
Proof.
  unfold dbl_val. pose proof (dbl_mag_bounds d) as B. assert (2 ^ 2098 < 2 ^ 3000) as P by done.
  revert B P. generalize (2 ^ 2098) (2 ^ 3000) (dbl_mag d). clear. intros. destruct (dbl_neg d); lia.
Qed.

Lemma compare_doubles_key l r :
  Z.sgn (Element.compare_doubles l r) = Z.sgn (num_key l - num_key r).
Proof.
  unfold Element.compare_doubles, dbl_ltb, dbl_eqb, num_key.
  pose proof (dbl_val_above_nan l) as Hl. pose proof (dbl_val_above_nan r) as Hr.
  revert Hl Hr. generalize (2 ^ 3000) (dbl_val l) (dbl_val r). intros N x y.
  destruct (dbl_isNaN l), (dbl_isNaN r); cbn [negb andb]; intros; crush_cmp.
Qed.

Lemma num_key_exact n : - 2 ^ 53 ≤ n ≤ 2 ^ 53 → num_key (dbl_of_Z n) = n * 2 ^ 1074.
Proof. intros. unfold num_key. rewrite dbl_of_Z_not_nan by lia. by apply dbl_val_exact. Qed.

Lemma compare_ints_sgn a b : Z.sgn (Element.compare_ints a b) = Z.sgn (a - b).
Proof. unfold Element.compare_ints. crush_cmp. Qed.

Lemma compare_ints_key a b :
  - 2 ^ 53 ≤ a ≤ 2 ^ 53 → - 2 ^ 53 ≤ b ≤ 2 ^ 53 →
  Z.sgn (Element.compare_ints a b) = Z.sgn (num_key (dbl_of_Z a) - num_key (dbl_of_Z b)).
Proof.
  intros. rewrite !num_key_exact, compare_ints_sgn by done.
  rewrite <- Z.mul_sub_distr_r, Z.sgn_mul. change (Z.sgn (2 ^ 1074)) with 1. lia.
Qed.

(** ** The comparison is the order of the keys *)

Lemma canonicalType_range v : -1 ≤ Element.canonicalType v ≤ 127.
Proof. destruct v; vm_compute; split; discriminate. Qed.

Lemma canonical_number v : Element.isNumber v = true → Element.canonicalType v = 10.
Proof. by destruct v. Qed.

(** [woCompare] of elements as type, name, value in turn. *)
Lemma wo_elem_lexi b cv l r k :
  lexi (Element.wo_elem b cv l r) k =
  lexi (Element.canonicalType l.2 - Element.canonicalType r.2)
    (lexi (if b then strcmp l.1 r.1 else 0) (lexi (cv l.2 r.2) k)).
Proof.
  unfold Element.wo_elem. set (c := _ - _).
  destruct (c =? 0) eqn:Ec; cbn [negb andb].
  - rewrite (lexi_assoc (if b then _ else _)). unfold lexi at 2. by rewrite Ec.
  - assert (negb (Element.isNumber l.2) || negb (Element.isNumber r.2) = true) as ->.
    { destruct (Element.isNumber l.2) eqn:E1, (Element.isNumber r.2) eqn:E2; try done.
      apply canonical_number in E1, E2. bool_facts. lia. }
    unfold lexi. by rewrite Ec.
Qed.

Lemma wo_obj_cons cv l r a b k :
  lexi (Element.wo_obj_with cv (l :: a) (r :: b)) k =
  lexi (Element.wo_elem true cv l r) (lexi (Element.wo_obj_with cv a b) k).
Proof. cbn [Element.wo_obj_with]. symmetry. apply lexi_assoc. Qed.

Section Keys.
Context (m : date_mode).

Definition key_ok (l : bval) : Prop :=
  ∀ r x y, wf l = true → wf r = true → vdom m l = true → vdom m r = true →
  Element.canonicalType l = Element.canonicalType r →
  strcmp (vkey l ++ x) (vkey r ++ y) = lexi (Element.compareElementValues l r) (strcmp x y).

Lemma okey_ok a b x y :
  Forall (λ e, key_ok e.2) a → odom m a = true → odom m b = true →
  strcmp (okey a ++ x) (okey b ++ y) =
  lexi (Element.wo_obj_with Element.compareElementValues a b) (strcmp x y).
Proof.
  unfold okey, odom. intros H. revert b. induction H as [|[n v] a Hv _ IH]; intros [|[n' v'] b] Da Db.
  - done.
  - cbn [fields_key_with app]. rewrite strcmp_cons. pose proof (canonicalType_range v').
    unfold lexi. cbn [Element.wo_obj_with]. crush_cmp.
  - cbn [fields_key_with app]. rewrite strcmp_cons. pose proof (canonicalType_range v).
    unfold lexi. cbn [Element.wo_obj_with]. crush_cmp.
  - cbn [wf_with dom_with] in Da, Db. bool_facts. cbn [snd] in Hv.
    cbn [fields_key_with app]. rewrite wo_obj_cons, wo_elem_lexi, strcmp_cons. cbn [fst snd].
    rewrite <- !(assoc_L app). cbn [app]. rewrite strcmp_term by (by apply byte0_pos).
    replace (Element.canonicalType v + 2 - (Element.canonicalType v' + 2))
      with (Element.canonicalType v - Element.canonicalType v') by lia.
    destruct (decide (Element.canonicalType v = Element.canonicalType v')) as [E|NE].
    + rewrite <- !(assoc_L app), Hv by done. rewrite IH; [done|..]; by apply andb_true_intro.
    + unfold lexi. destruct (_ - _ =? 0) eqn:E; bool_facts; [lia|done].
Qed.

Lemma cstr_pos l : Forall (λ b, 0 ≤ b) l → all_pos (cstr l).
Proof.
  induction 1 as [|b l Hb _ IH]; [constructor|]. cbn [cstr]. destruct (b =? 0) eqn:E; bool_facts; [constructor|].
  constructor; [lia|done].
Qed.

Lemma bytes_nonneg l : bytes_ok l → Forall (λ b, 0 ≤ b) l.
Proof. intros H. apply (Forall_impl _ _ _ H). intros b. unfold is_byte. intros. bool_facts. lia. Qed.

Lemma scope_pos c o :
  forallb is_byte c = true → wf_with wf o = true → all_pos (cstr (Element.scopeDataUnsafe c o)).
Proof.
  intros Hc Ho. apply cstr_pos, bytes_nonneg. apply Forall_drop. apply bytes_ok_app; [by apply forallb_bytes|].
  apply bytes_ok_cons; [done|]. by apply obj_bytes_ok.
Qed.

Lemma num_key_int n : in_s 32 n → num_key (dbl_of_Z n) = n * 2 ^ 1074.
Proof. unfold in_s. change (2 ^ (32 - 1)) with (2 ^ 31). intros. apply num_key_exact. lia. Qed.

(** The layout of a DBRef: equal sizes mean equally long namespaces. *)
Lemma dbref_key ns oid ns0 oid0 x y :
  length oid = 12%nat → length oid0 = 12%nat →
  strcmp (Z.of_nat (length ns) :: (ns ++ oid) ++ x) (Z.of_nat (length ns0) :: (ns0 ++ oid0) ++ y) =
  lexi (Element.compareElementValues (BDBRef ns oid) (BDBRef ns0 oid0)) (strcmp x y).
Proof.
  intros H1 H2. rewrite strcmp_cons. cbn [Element.compareElementValues val_bytes].
  rewrite !length_app, !length_le32, H1, H2. cbn [length].
  set (k := Z.of_nat (length ns) - Z.of_nat (length ns0)).
  replace (_ - _) with k by (subst k; lia).
  destruct (k =? 0) eqn:E; cbn [negb]; bool_facts.
  - assert (length ns = length ns0) as L by lia. rewrite L.
    rewrite strcmp_fixed by (rewrite !length_app; lia).
    unfold lexi at 1. destruct (k =? 0) eqn:E'; bool_facts; [|lia].
    rewrite !(memcmp_app (le32 _)), memcmp_refl by done. cbn [Z.eqb].
    rewrite !(memcmp_app ns) by done. done.
  - unfold lexi. destruct (k =? 0) eqn:E'; bool_facts; [lia|done].
Qed.

(** One goal per pair of constructors with the same canonical type. *)
Lemma key_ok_leaf l :
  (∀ o, l ≠ BObject o) → (∀ o, l ≠ BArray o) → (∀ c o, l ≠ BCodeWScope c o) → key_ok l.
Proof.
  intros N1 N2 N3 r x y Wl Wr Dl Dr E.
  destruct l, r; try congruence; try (vm_compute in E; discriminate E); clear E N1 N2 N3;
    cbn [wf vdom] in *; bool_facts; cbn [vkey Element.compareElementValues app]; try done.
  all: try (rewrite strcmp_str_key by (by apply is_byte_nonneg); done).
  all: try (rewrite strcmp_cons; apply lexi_sgn; cbn [Element.numberDouble]).
  all: try (by rewrite compare_doubles_key).
  all: try (by rewrite compare_ints_sgn).
  all: try (rewrite compare_ints_key by lia; done).
  - rewrite strcmp_cons, <- lexi_assoc. set (k := _ - _).
    destruct (decide (k = 0)) as [E|NE].
    + change (subtype :: ?l ++ x) with ((subtype :: l) ++ x).
      change (subtype0 :: ?l ++ y) with ((subtype0 :: l) ++ y).
      rewrite strcmp_fixed by (simpl; lia). done.
    + unfold lexi. destruct (k =? 0) eqn:E; bool_facts; [lia|done].
  - apply strcmp_fixed. lia.
  - done.
  - destruct m; try done. bool_facts. rewrite compare_ints_sgn, wrapS_id; [done|lia|].
    unfold in_s. change (2 ^ (64 - 1)) with (2 ^ 63). lia.
  - rewrite <- !(assoc_L app). cbn [app]. rewrite strcmp_term by (by apply byte0_pos).
    rewrite <- !(assoc_L app). cbn [app]. rewrite strcmp_term by (by apply byte0_pos). apply lexi_assoc.
  - by apply dbref_key.
  - destruct m; try done. bool_facts. rewrite compare_ints_sgn, wrapU_id; [done|]. unfold in_u. lia.
Qed.

Lemma key_ok_all v : key_ok v.
Proof.
  induction v as [o IH|o IH|c o IH|v N1 N2 N3] using bval_ind'; [| | |by apply key_ok_leaf];
    intros r x y Wl Wr Dl Dr E;
    destruct r; try (vm_compute in E; discriminate E); cbn [wf vdom] in *; bool_facts.
  - apply okey_ok; [done|..]; by apply andb_true_intro.
  - apply okey_ok; [done|..]; by apply andb_true_intro.
  - cbn [vkey Element.compareElementValues].
    rewrite <- !(assoc_L app). cbn [app]. rewrite strcmp_term
      by (by apply cstr_pos, bytes_nonneg, forallb_bytes).
    rewrite <- !(assoc_L app). cbn [app]. rewrite strcmp_term by (by apply scope_pos). apply lexi_assoc.
Qed.

Lemma okey_compare a b :
  odom m a = true → odom m b = true → Z.sgn (Obj.woCompare a b) = strcmp (okey a) (okey b).
Proof.
  intros Da Db. rewrite <- (app_nil_r (okey a)), <- (app_nil_r (okey b)).
  rewrite okey_ok by (auto; apply Forall_forall; intros; apply key_ok_all).
  unfold lexi, Obj.woCompare. simpl strcmp. destruct (_ =? 0) eqn:E; bool_facts; [by rewrite E|done].
Qed.
End Keys.

(** ** Ascending and descending fields *)

(** Two lists are equal, differ at some position, or one is a proper prefix of the other. *)
Lemma list_diff (k1 k2 : list Z) :
  k1 = k2 ∨ (∃ p a b s t, k1 = p ++ a :: s ∧ k2 = p ++ b :: t ∧ a ≠ b) ∨
  (∃ a s, k2 = k1 ++ a :: s) ∨ (∃ a s, k1 = k2 ++ a :: s).
Proof.
  revert k2. induction k1 as [|a k1 IH]; intros [|b k2]; [by left|by right; right; left; exists b, k2|
    by right; right; right; exists a, k1|].
  destruct (decide (a = b)) as [->|N]; [|by right; left; exists [], a, b, k1, k2].
  destruct (IH k2) as [->|[(p & c & d & s & t & -> & -> & N)|[(c & s & ->)|(c & s & ->)]]].
  - by left.
  - right. left. by exists (b :: p), c, d, s, t.
  - right. right. left. by exists c, s.
  - right. right. right. by exists c, s.
Qed.

Lemma strcmp_app p l r : strcmp (p ++ l) (p ++ r) = strcmp l r.
Proof. induction p as [|a p IH]; [done|]. cbn [app strcmp]. by rewrite Z.eqb_refl. Qed.

(** Keys that decide whatever follows are prefix-free, so negating them reverses the order. *)
Lemma strcmp_opp_keys k1 k2 c :
  (∀ x y, strcmp (k1 ++ x) (k2 ++ y) = lexi c (strcmp x y)) →
  ∀ x y, strcmp (map Z.opp k1 ++ x) (map Z.opp k2 ++ y) = lexi (- c) (strcmp x y).
Proof.
  intros H x y.
  destruct (list_diff k1 k2) as [->|[(p & a & b & s & t & -> & -> & N)|[(a & s & ->)|(a & s & ->)]]].
  - specialize (H [] []). rewrite strcmp_app in *. unfold lexi in *.
    destruct (c =? 0) eqn:E; bool_facts; [by subst|]. simpl in H. lia.
  - specialize (H [] []). rewrite <- !(assoc_L app), strcmp_app in H. cbn [app] in H. rewrite strcmp_cons in H.
    rewrite !map_app, <- !(assoc_L app), strcmp_app. cbn [map app]. rewrite strcmp_cons.
    unfold lexi in *. simpl strcmp in H.
    destruct (a - b =? 0) eqn:E1, (- a - - b =? 0) eqn:E2, (c =? 0) eqn:E3, (- c =? 0) eqn:E4; bool_facts; lia.
  - pose proof (H [] []) as H1. specialize (H [a + 1] []). rewrite <- !(assoc_L app), !strcmp_app in *.
    cbn [app] in *. rewrite strcmp_cons in H. unfold lexi in *. simpl strcmp in *.
    exfalso. destruct (c =? 0), (a + 1 - a =? 0) eqn:E; bool_facts; lia.
  - pose proof (H [] []) as H1. specialize (H [] [a + 1]). rewrite <- !(assoc_L app), !strcmp_app in *.
    cbn [app] in *. rewrite strcmp_cons in H. unfold lexi in *. simpl strcmp in *.
    exfalso. destruct (c =? 0), (a - (a + 1) =? 0) eqn:E; bool_facts; lia.
Qed.

(** The key under an ordering: the part of a descending field is negated; the end of a document
    is below everything. *)
Definition field_key (considerFieldName : bool) (e : list Z * bval) : list Z :=
  (Element.canonicalType e.2 + 2) :: (if considerFieldName then e.1 ++ [0] else []) ++ vkey e.2.

Fixpoint ord_key (mask bits : Z) (considerFieldName : bool) (o : bobj) : list Z :=
  match o with
  | [] => [-1000]
  | e :: o' =>
      (if Ordering.descending bits mask then map Z.opp (field_key considerFieldName e)
       else field_key considerFieldName e) ++
      ord_key (u32 (Z.shiftl mask 1)) bits considerFieldName o'
  end.

Section OrdKeys.
Context (m : date_mode) (bits : Z) (cfn : bool).

Definition edom (e : list Z * bval) : Prop :=
  forallb byte0 e.1 = true ∧ wf e.2 = true ∧ vdom m e.2 = true.

Lemma odom_elems o : odom m o = true → Forall edom o.
Proof.
  unfold odom. induction o as [|[n v] o IH]; intros H; [constructor|].
  cbn [wf_with dom_with] in H. bool_facts. constructor; [done|]. apply IH. by apply andb_true_intro.
Qed.

Lemma field_key_ok l r x y :
  edom l → edom r →
  strcmp (field_key cfn l ++ x) (field_key cfn r ++ y) = lexi (Element.woCompare l r cfn) (strcmp x y).
Proof.
  destruct l as [n v], r as [n' v']. intros (B & W & D) (B' & W' & D'). cbn [fst snd] in *.
  unfold Element.woCompare. rewrite wo_elem_lexi. unfold field_key. cbn [fst snd app]. rewrite strcmp_cons.
  replace (_ + 2 - _) with (Element.canonicalType v - Element.canonicalType v') by lia.
  destruct (decide (Element.canonicalType v = Element.canonicalType v')) as [E|NE].
  - rewrite <- (key_ok_all m v v' x y) by done. f_equal.
    destruct cfn; [|done]. rewrite <- !(assoc_L app). cbn [app]. by rewrite strcmp_term by (by apply byte0_pos).
  - unfold lexi. destruct (_ - _ =? 0) eqn:E; bool_facts; [lia|done].
Qed.

Lemma dir_key_ok (d : bool) l r x y :
  edom l → edom r →
  strcmp ((if d then map Z.opp (field_key cfn l) else field_key cfn l) ++ x)
         ((if d then map Z.opp (field_key cfn r) else field_key cfn r) ++ y) =
  lexi (if d then - Element.woCompare l r cfn else Element.woCompare l r cfn) (strcmp x y).
Proof.
  intros Hl Hr. destruct d; [|by apply field_key_ok].
  apply strcmp_opp_keys. intros. by apply field_key_ok.
Qed.

Lemma dir_key_above (d : bool) l x :
  strcmp [-1000] ((if d then map Z.opp (field_key cfn l) else field_key cfn l) ++ x) = -1.
Proof.
  pose proof (canonicalType_range l.2). destruct d; unfold field_key; cbn [map app strcmp]; crush_cmp.
Qed.

Lemma ord_key_ok mask a b :
  Forall edom a → Forall edom b →
  Z.sgn (Obj.wo_ord_from mask bits cfn a b) = strcmp (ord_key mask bits cfn a) (ord_key mask bits cfn b).
Proof.
  intros Ha. revert mask b. induction Ha as [|l a Hl Ha IH]; intros mask b Hb.
  - destruct Hb as [|r b Hr Hb]; [done|]. cbn [ord_key Obj.wo_ord_from]. by rewrite dir_key_above.
  - destruct Hb as [|r b Hr Hb]; cbn [ord_key Obj.wo_ord_from].
    + rewrite strcmp_opp, dir_key_above. done.
    + rewrite dir_key_ok, <- IH by done. unfold lexi.
      set (x := if Ordering.descending _ _ then _ else _). destruct (x =? 0) eqn:E; done.
Qed.
End OrdKeys.

(** The comparison without an ordering is the one where no field is descending. *)
Lemma woCompare_plain mask a b : Obj.woCompare a b = Obj.wo_ord_from mask 0 true a b.
Proof.
  unfold Obj.woCompare. revert mask b. induction a as [|l a IH]; intros mask [|r b]; try done.
  cbn [Element.wo_obj_with Obj.wo_ord_from]. unfold Element.woCompare, Ordering.descending.
  rewrite Z.land_0_l. cbn [Z.eqb negb]. by rewrite <- IH.
Qed.

(** C6: [BSONObj::woCompare], at any ordering and with or without field names, is the
    lexicographic order of a sort key of each document alone: canonical type, name and value of
    each field in turn, negated where the field is descending, a shorter document first.  Both
    documents are in the domain [odom]: well formed, 64-bit integers of magnitude at most 2^53, and
    dates and timestamps not mixed except on their common range. *)
Theorem bson_order_key m bits cfn a b :
  odom m a = true → odom m b = true →
  Z.sgn (Obj.woCompare_ord a b bits cfn) = strcmp (ord_key 1 bits cfn a) (ord_key 1 bits cfn b).
Proof. intros. apply (ord_key_ok m); by apply odom_elems. Qed.

(** So [woCompare] is a total preorder, at any ordering: antisymmetric in sign, reflexive,
    transitive, and its equality is a congruence. *)
Theorem bson_order_total m bits cfn a b c :
  odom m a = true → odom m b = true → odom m c = true →
  let cmp x y := Obj.woCompare_ord x y bits cfn in
  Z.sgn (cmp b a) = - Z.sgn (cmp a b) ∧
  cmp a a = 0 ∧
  (cmp a b ≤ 0 → cmp b c ≤ 0 → cmp a c ≤ 0) ∧
  (cmp a b = 0 → Z.sgn (cmp a c) = Z.sgn (cmp b c)).
Proof.
  intros Da Db Dc. pose proof (odom_elems _ _ Da) as Ha. pose proof (odom_elems _ _ Db) as Hb.
  pose proof (odom_elems _ _ Dc) as Hc. cbv zeta. unfold Obj.woCompare_ord.
  pose proof (ord_key_ok m bits cfn 1 a b Ha Hb) as Kab. pose proof (ord_key_ok m bits cfn 1 b a Hb Ha) as Kba.
  pose proof (ord_key_ok m bits cfn 1 a a Ha Ha) as Kaa. pose proof (ord_key_ok m bits cfn 1 a c Ha Hc) as Kac.
  pose proof (ord_key_ok m bits cfn 1 b c Hb Hc) as Kbc.
  rewrite strcmp_refl in Kaa. rewrite strcmp_opp in Kba.
  split; [congruence|]. split; [lia|]. split.
  - intros H1 H2. pose proof (strcmp_trans (ord_key 1 bits cfn a) (ord_key 1 bits cfn b) (ord_key 1 bits cfn c)). lia.
  - intros H1. rewrite Kac, Kbc. rewrite H1 in Kab. symmetry in Kab. apply strcmp_eq0 in Kab. by rewrite Kab.
Qed.

(** ** Equality and prefixes *)

Lemma equal_compare a b :
  Forall (λ e, ¬ (e.1 = [] ∧ e.2 = BUndefined)) a →
  Obj.equal a b = Some (Obj.woCompare a b =? 0).
Proof.
  unfold Obj.woCompare. intros H. revert b. induction H as [|l a Hl _ IH]; intros [|r b]; try done.
  - cbn [Obj.equal Element.wo_obj_with]. destruct (_ && _) eqn:E; [|done]. bool_facts. exfalso. apply Hl.
    apply bool_decide_eq_true in H0. split; [done|]. by destruct l as [n []].
  - cbn [Obj.equal Element.wo_obj_with]. rewrite IH. unfold Element.eq_op, Element.woCompare.
    destruct (_ =? 0) eqn:E; cbn [negb]; [done|]. by rewrite E.
Qed.

(** [BSONObj::equal] decides [woCompare] equality: on documents without an unnamed
    [undefined] field it always answers, and answers whether the comparison is 0. *)
Theorem bson_equal_compare a b :
  Forall (λ e, ¬ (e.1 = [] ∧ e.2 = BUndefined)) a →
  Obj.equal a b = Some (Obj.woCompare a b =? 0).
Proof. apply equal_compare. Qed.

(** [isPrefixOf] holds exactly when the first fields of the other document, as many as this
    one has, compare equal to this one. *)
Theorem bson_prefix_spec a b :
  Obj.isPrefixOf a b = true ↔ (length a ≤ length b)%nat ∧ Obj.woCompare a (take (length a) b) = 0.
Proof.
  unfold Obj.woCompare. revert b. induction a as [|x a IH]; intros [|y b]; cbn [Obj.isPrefixOf length take].
  - split; [done|]. done.
  - split; [intros _; split; [lia|done]|done].
  - split; [done|]. lia.
  - cbn [Element.wo_obj_with]. unfold Element.eq_op, Element.woCompare.
    destruct (_ =? 0) eqn:E; cbn [negb].
    + rewrite IH. split; intros [? ?]; split; auto; lia.
    + bool_facts. split; [done|]. intros [_ ?]. done.
Qed.

(** ** Orderings *)

(** The bit of field [i] is set exactly when the [i]-th value of the pattern is negative. *)
Lemma make_from_bits n b o bits i :
  0 ≤ n → Ordering.make_from n b o = Ok bits → 0 ≤ i →
  Z.testbit bits i =
  Z.testbit b i || ((n <=? i) && match o !! Z.to_nat (i - n) with
                                 | Some e => dbl_ltb (Element.numberDouble e.2) 0
                                 | None => false
                                 end).
Proof.
  revert n b. induction o as [|e o IH]; intros n b Hn E Hi; cbn [Ordering.make_from] in E.
  - simplify_eq. rewrite lookup_nil, andb_false_r. by rewrite orb_false_r.
  - destruct (n <=? 31) eqn:L; [|done]. bool_facts. apply IH in E; [|lia|done]. rewrite E. clear E IH.
    assert (Z.testbit (u32 (Z.shiftl 1 n)) i = (n =? i)) as T.
    { rewrite Z.shiftl_1_l, wrapU_id by (unfold in_u; split; [apply Z.pow_nonneg; lia|apply Z.pow_lt_mono_r; lia]).
      rewrite Z.pow2_bits_eqb by done. done. }
    destruct (decide (i = n)) as [->|N].
    + rewrite Z.sub_diag, Z.leb_refl. change ((e :: o) !! Z.to_nat 0) with (Some e). cbn [andb].
      destruct (n + 1 <=? n) eqn:F; bool_facts; [lia|]. rewrite orb_false_r.
      destruct (dbl_ltb _ _); [|by rewrite orb_false_r]. by rewrite Z.lor_spec, T, Z.eqb_refl.
    + replace (Z.testbit (if dbl_ltb _ _ then _ else b) i) with (Z.testbit b i).
      2:{ destruct (dbl_ltb _ _); [|done]. rewrite Z.lor_spec, T. destruct (n =? i) eqn:F; bool_facts; [lia|].
          by rewrite orb_false_r. }
      f_equal. destruct (n + 1 <=? i) eqn:F, (n <=? i) eqn:G; bool_facts; try lia; try done.
      replace (Z.to_nat (i - n)) with (S (Z.to_nat (i - (n + 1)))) by lia. done.
Qed.

Lemma make_from_ok n b o :
  0 ≤ n → n + Z.of_nat (length o) ≤ 32 → ∃ bits, Ordering.make_from n b o = Ok bits.
Proof.
  revert n b. induction o as [|e o IH]; intros n b Hn L; cbn [Ordering.make_from length] in *; [by eexists|].
  destruct (n <=? 31) eqn:E; bool_facts; [|lia]. apply IH; lia.
Qed.

(** [Ordering::make] succeeds on key patterns of up to 32 fields, and then [get(i)] is -1
    exactly for the fields whose pattern value is negative. *)
Theorem ordering_make o :
  Z.of_nat (length o) ≤ 32 →
  ∃ bits, Ordering.make o = Ok bits ∧
  ∀ i, 0 ≤ i < 32 →
    Ordering.get bits i =
    match o !! Z.to_nat i with
    | Some e => if dbl_ltb (Element.numberDouble e.2) 0 then -1 else 1
    | None => 1
    end.
Proof.
  intros L. destruct (make_from_ok 0 0 o ltac:(lia) ltac:(lia)) as [bits E]. exists bits. split; [done|].
  intros i Hi. pose proof (make_from_bits 0 0 o bits i ltac:(lia) E ltac:(lia)) as T.
  rewrite Z.testbit_0_l, Z.sub_0_r in T. cbn [orb] in T. destruct (0 <=? i) eqn:F; bool_facts; [|lia].
  cbn [andb] in T. unfold Ordering.get.
  rewrite Z.shiftl_1_l, wrapU_id by (unfold in_u; split; [apply Z.pow_nonneg; lia|apply Z.pow_lt_mono_r; lia]).
  rewrite Z.land_comm. destruct (Z.land bits (2 ^ i) =? 0) eqn:G; bool_facts.
  - apply (f_equal (λ z, Z.testbit z i)) in G. rewrite Z.land_spec, Z.pow2_bits_true, Z.testbit_0_l, andb_true_r in G by lia.
    rewrite G in T. destruct (o !! _); [|done]. by rewrite <- T.
  - destruct (Z.testbit bits i) eqn:B.
    + destruct (o !! _); [|done]. by rewrite <- T.
    + exfalso. apply G. apply Z.bits_inj'. intros j Hj. rewrite Z.land_spec, Z.pow2_bits_eqb, Z.testbit_0_l by lia.
      destruct (i =? j) eqn:J; bool_facts; [subst; by rewrite B|by rewrite andb_false_r].
Qed.

(** ** Conversions to 64-bit integers *)

Lemma quot_bounds v s : 0 < s → - 2 ^ 63 * s ≤ v ≤ 2 ^ 63 * s → - 2 ^ 63 ≤ Z.quot v s ≤ 2 ^ 63.
Proof.
  intros Hs [H1 H2]. split.
  - replace (- 2 ^ 63) with (Z.quot (- 2 ^ 63 * s) s) by (apply Z.quot_mul; lia). by apply Z.quot_le_mono.
  - replace (2 ^ 63) with (Z.quot (2 ^ 63 * s) s) by (apply Z.quot_mul; lia). by apply Z.quot_le_mono.
Qed.

Lemma quot_above v s : 0 < s → 2 ^ 63 * s ≤ v → 2 ^ 63 ≤ Z.quot v s.
Proof.
  intros Hs H. replace (2 ^ 63) with (Z.quot (2 ^ 63 * s) s) by (apply Z.quot_mul; lia). by apply Z.quot_le_mono.
Qed.

Lemma quot_below v s : 0 < s → v < 2 ^ 63 * s → Z.quot v s < 2 ^ 63.
Proof.
  intros Hs H. destruct (decide (v ≤ 0)).
  - assert (Z.quot v s ≤ Z.quot 0 s) by (by apply Z.quot_le_mono). rewrite Z.quot_0_l in * by lia. lia.
  - apply Z.quot_lt_upper_bound; lia.
Qed.

Lemma quot_min v s : 0 < s → v ≤ - 2 ^ 63 * s → Z.quot v s ≤ - 2 ^ 63.
Proof.
  intros Hs H. replace (- 2 ^ 63) with (Z.quot (- 2 ^ 63 * s) s) by (apply Z.quot_mul; lia). by apply Z.quot_le_mono.
Qed.

(** [safeNumberLong] of a double is 0 for NaN and otherwise the truncated value clamped to
    64 bits, as its comment says, except at exactly 2^63: the bound is rounded to 2^63 when it is
    converted to double and the test is strict, so that value reaches the undefined conversion of
    [numberLong]. *)
Theorem bson_safeNumberLong d :
  Element.safeNumberLong (BDouble d) =
  if dbl_isNaN d then Some 0
  else if dbl_val d =? 2 ^ 63 * 2 ^ 1074 then None
  else Some (Z.max Element.LLONG_MIN (Z.min Element.LLONG_MAX (dbl_trunc d))).
Proof.
  cbn [Element.safeNumberLong Element.numberLong]. unfold Element.dbl_cast.
  destruct (dbl_isNaN d) eqn:N; [done|]. unfold dbl_ltb. rewrite N. unfold dbl_trunc.
  change (dbl_isNaN (dbl_of_Z Element.LLONG_MAX)) with false. change (dbl_isNaN (dbl_of_Z Element.LLONG_MIN)) with false.
  assert (dbl_val (dbl_of_Z Element.LLONG_MAX) = 2 ^ 63 * 2 ^ 1074) as -> by reflexivity.
  assert (dbl_val (dbl_of_Z Element.LLONG_MIN) = - 2 ^ 63 * 2 ^ 1074) as -> by reflexivity.
  unfold Element.LLONG_MAX, Element.LLONG_MIN. change (64 - 1) with 63. cbn [negb andb].
  assert (0 < 2 ^ 1074) as Hs by reflexivity. revert Hs. generalize (2 ^ 1074) (dbl_val d). clear N. intros s v Hs.
  destruct (2 ^ 63 * s <? v) eqn:E1; bool_facts.
  { destruct (v =? _) eqn:E; bool_facts; [lia|]. pose proof (quot_above v s Hs). f_equal. lia. }
  destruct (v <? - 2 ^ 63 * s) eqn:E2; bool_facts.
  { destruct (v =? _) eqn:E; bool_facts; [lia|]. pose proof (quot_min v s Hs). f_equal. lia. }
  pose proof (quot_bounds v s Hs ltac:(lia)). pose proof (quot_below v s Hs). pose proof (quot_above v s Hs).
  destruct (v =? 2 ^ 63 * s) eqn:E3; bool_facts.
  - destruct (_ <=? _); [|done]. destruct (_ <? _) eqn:F; bool_facts; [lia|done].
  - destruct (_ <=? _) eqn:F; bool_facts; [|lia]. destruct (_ <? _) eqn:G; bool_facts; [|lia]. cbn [andb].
    f_equal. lia.
Qed.

(** ** Where the order fails *)

(** A date before 1970 and a timestamp compare as less in both directions: [Date] on the
    left compares signed, [Timestamp] on the left unsigned. *)
Theorem bson_date_timestamp_order n t :
  - 2 ^ 63 ≤ n < 0 → 0 ≤ t < 2 ^ 63 →
  Element.compareElementValues (BDate n) (BTimestamp t) = -1 ∧
  Element.compareElementValues (BTimestamp t) (BDate n) = -1.
Proof.
  intros Hn Ht. cbn [Element.compareElementValues]. unfold Element.compare_ints.
  rewrite wrapS_id by (try lia; unfold in_s; change (2 ^ (64 - 1)) with (2 ^ 63); lia).
  unfold wrapU. replace (n mod 2 ^ 64) with (n + 2 ^ 64).
  - split; crush_cmp.
  - symmetry. rewrite <- (Z.mod_add n 1) by lia. rewrite Z.mod_small; lia.
Qed.

(** Beyond 2^53 equality of numbers is not transitive: two different 64-bit integers both
    compare equal to one double. *)
Theorem bson_long_double_order :
  let cmp := Element.compareElementValues in
  let d := BDouble (dbl_of_Z (2 ^ 53)) in
  cmp (BLong (2 ^ 53)) d = 0 ∧ cmp d (BLong (2 ^ 53 + 1)) = 0 ∧ cmp (BLong (2 ^ 53)) (BLong (2 ^ 53 + 1)) = -1.
Proof. by vm_compute. Qed.

(** ** Witnesses *)

Module BsonExample.

Definition name (n : Z) : list Z := [n].

(** {a: 5, b: {c: "x\0y", d: [1.5, null]}, e: ObjectId, f: true} *)
Definition doc : bobj :=
  [ (name 97, BInt 5);
    (name 98, BObject [(name 99, BString [120; 0; 121]);
                       (name 100, BArray [([48], BDouble 0x3FF8000000000000); ([49], BNull)])]);
    (name 101, BOID [1; 2; 3; 4; 5; 6; 7; 8; 9; 10; 11; 12]);
    (name 102, BBool true);
    (name 103, BCodeWScope [102; 40; 41] [(name 104, BLong (-7))]);
    (name 105, BRegEx [94; 97] [105]) ].

Definition doc2 : bobj := [ (name 97, BLong 5); (name 98, BObject []) ].
Definition doc3 : bobj := [ (name 97, BDouble (dbl_of_Z 6)) ].

Lemma bson_roundtrip_witness : read_obj (length (obj_bytes doc)) (obj_bytes doc ++ [7; 7; 7]) = Some doc.
Proof. apply bson_roundtrip. by vm_compute. Defined.

Lemma bson_order_key_witness :
  odom DatesOnly doc = true ∧
  Z.sgn (Obj.woCompare_ord doc doc2 2 true) = strcmp (ord_key 1 2 true doc) (ord_key 1 2 true doc2).
Proof. split; [by vm_compute|]. apply (bson_order_key DatesOnly); by vm_compute. Defined.

Lemma bson_order_total_witness :
  let cmp x y := Obj.woCompare_ord x y 1 false in
  cmp doc doc2 = 1 ∧ Z.sgn (cmp doc2 doc) = - Z.sgn (cmp doc doc2).
Proof.
  split; [by vm_compute|].
  destruct (bson_order_total DatesOnly 1 false doc doc2 doc3) as (H & _); [by vm_compute..|]. exact H.
Defined.

Lemma bson_equal_compare_witness : Obj.equal doc doc2 = Some (Obj.woCompare doc doc2 =? 0).
Proof. apply bson_equal_compare. repeat constructor; by intros []. Defined.

Lemma ordering_make_witness : ∃ bits, Ordering.make [(name 97, BInt 1); (name 98, BInt (-1))] = Ok bits ∧
  Ordering.get bits 1 = -1.
Proof.
  destruct (ordering_make [(name 97, BInt 1); (name 98, BInt (-1))]) as (bits & E & H); [vm_compute; discriminate|].
  exists bits. split; [exact E|]. rewrite H by lia. by vm_compute.
Defined.

Lemma bson_date_timestamp_order_witness :
  Element.compareElementValues (BDate (-1)) (BTimestamp 1) = -1 ∧
  Element.compareElementValues (BTimestamp 1) (BDate (-1)) = -1.
Proof. apply (bson_date_timestamp_order (-1) 1); lia. Defined.

(** An unnamed [undefined] on the left makes [equal] run past the end of the right document. *)
Example equal_past_end : Obj.equal [([], BUndefined)] [] = None.
Proof. reflexivity. Qed.

End BsonExample.
