(* ===== verification/StorageKey.v ===== *)
(** * Dictionary keys: the compact KeyV1 format

    Models db/storage/key.h and db/storage/key.cpp: [KeyV1Owned] packs the values of a document
    into a byte string when each of them has a compact form and otherwise keeps the document
    behind a sentinel byte, [KeyV1::toBson] unpacks, [KeyV1::woCompare] compares packed keys
    without unpacking, and [Key] appends the primary key for secondary indexes.  The theorems
    relate all of it to the documents: what is packed can be recovered, its size can be found,
    and its order is the order of the documents. *)

From S2P Require Import Prelude Double Bson BsonOrder.
#[local] Open Scope Z_scope.

(** ** Constants: [[ ][HASMORE][x][y][canontype_4bits]] *)

Definition cminkey : Z := 1.
Definition cnull : Z := 2.
Definition cdouble : Z := 4.
Definition cstring : Z := 6.
Definition cbindata : Z := 7.
Definition coid : Z := 8.
Definition cfalse : Z := 10.
Definition ctrue : Z := 11.
Definition cdate : Z := 12.
Definition cmaxkey : Z := 14.
Definition cCANONTYPEMASK : Z := 0xf.
Definition cY : Z := 0x10.
Definition cint : Z := Z.lor cY cdouble.
Definition cX : Z := 0x20.
Definition clong : Z := Z.lor cX cdouble.
Definition cZ : Z := 0x30.
Definition cint64 : Z := Z.lor cZ cdouble.
Definition cHASMORE : Z := 0x40.
Definition IsBSON : Z := 0xff.

Definition BinDataTypeMask : Z := 0x0f.
Definition BinDataLenMax : Z := 32.
Definition BinDataLengthToCode : list Z :=
  [ 0x00; 0x10; 0x20; 0x30; 0x40; 0x50; 0x60; 0x70;
    0x80; -1; 0x90; -1; 0xa0; -1; 0xb0; -1;
    0xc0; -1; -1; -1; 0xd0; -1; -1; -1;
    0xe0; -1; -1; -1; -1; -1; -1; -1;
    0xf0 ].
Definition BinDataCodeToLength : list Z := [0; 1; 2; 3; 4; 5; 6; 7; 8; 10; 12; 14; 16; 20; 24; 32].

Definition binDataCodeToLength (codeByte : Z) : option Z :=
  BinDataCodeToLength !! Z.to_nat (Z.shiftr codeByte 4).

(** ** Packing *)

Module KeyV1.

(** A long at least 2^53 in magnitude is not stored as a double. *)
Definition big (n : Z) : bool := let m := 2 ^ 53 in (m <=? n) || (n <=? - m).

(** One turn of the loop of [KeyV1Owned(const BSONObj&)]: [None] is [traditional(obj)]. *)
Definition pack (more : bool) (v : bval) : option (list Z) :=
  let bits := if more then cHASMORE else 0 in
  match v with
  | BMinKey => Some [Z.lor cminkey bits]
  | BNull => Some [Z.lor cnull bits]
  | BMaxKey => Some [Z.lor cmaxkey bits]
  | BBool b => Some [Z.lor (if b then ctrue else cfalse) bits]
  | BOID oid => Some (Z.lor coid bits :: oid)
  | BBinData t d =>
      let len := Z.of_nat (length d) in
      if (Z.land t 0x78 =? 0) && negb (t =? 2) then
        if len <=? BinDataLenMax then
          code ← BinDataLengthToCode !! length d;
          if 0 <=? code then
            let t := if 128 <=? t then Z.lor (t - 128) 0x08 else t in
            Some (Z.lor cbindata bits :: Z.lor code t :: d)
          else None
        else None
      else None
  | BDate n => Some (Z.lor cdate bits :: le64 n)
  | BString s =>
      let x := Z.of_nat (length s) in
      if 255 <? x then None else Some (Z.lor cstring bits :: x :: s)
  | BInt n => Some (Z.lor cint bits :: le64 (dbl_of_Z n))
  | BLong n =>
      if big n then Some (Z.lor cint64 bits :: le64 n)
      else Some (Z.lor clong bits :: le64 (dbl_of_Z n))
  | BDouble d => if dbl_isNaN d then None else Some (Z.lor cdouble bits :: le64 d)
  | _ => None
  end.

(** The loop; an empty document meets EOO first, which is not a compact type. *)
Fixpoint pack_all (o : bobj) : option (list Z) :=
  match o with
  | [] => None
  | e :: o' =>
      match o' with
      | [] => pack false e.2
      | _ => p ← pack true e.2; q ← pack_all o'; Some (p ++ q)
      end
  end.

Definition traditional (o : bobj) : list Z := IsBSON :: obj_bytes o.

(** [KeyV1Owned(const BSONObj&)] *)
Definition KeyV1Owned (o : bobj) : list Z :=
  match pack_all o with Some b => b | None => traditional o end.

(** ** Reading packed keys

    A key is the memory at [_keyData]; [None] is a read past it or a failed [verify]. *)

Definition isCompactFormat (p : list Z) : option bool := b ← head p; Some (negb (b =? IsBSON)).

(** One turn of the loop of [toBson]: the value at [p] and where the next one starts. *)
Definition unpack (p : list Z) : option (bval * list Z) :=
  bits ← head p;
  let p := tail p in
  let t := Z.land bits 0x3f in
  if t =? cminkey then Some (BMinKey, p)
  else if t =? cnull then Some (BNull, p)
  else if t =? cfalse then Some (BBool false, p)
  else if t =? ctrue then Some (BBool true, p)
  else if t =? cmaxkey then Some (BMaxKey, p)
  else if t =? cstring then
    sz ← head p;
    Some (BString (take (Z.to_nat sz) (tail p)), drop (Z.to_nat sz) (tail p))
  else if t =? coid then Some (BOID (take 12 p), drop 12 p)
  else if t =? cbindata then
    c ← head p;
    len ← binDataCodeToLength c;
    let subtype := Z.land c BinDataTypeMask in
    let subtype := if Z.land subtype 0x8 =? 0 then subtype else Z.lor (Z.land subtype 0x7) 0x80 in
    Some (BBinData subtype (take (Z.to_nat len) (tail p)), drop (Z.to_nat len) (tail p))
  else if t =? cdate then d ← rd64 p; Some (BDate (i64 d), drop 8 p)
  else if t =? cdouble then d ← rd64 p; Some (BDouble d, drop 8 p)
  else if t =? cint then d ← rd64 p; n ← Element.dbl_cast 32 d; Some (BInt n, drop 8 p)
  else if t =? clong then d ← rd64 p; n ← Element.dbl_cast 64 d; Some (BLong n, drop 8 p)
  else if t =? cint64 then d ← rd64 p; Some (BLong (i64 d), drop 8 p)
  else None.

(** The loop of [toBson]; the fuel bounds the number of values, and the number of bytes is
    enough. *)
Fixpoint unpack_all (fuel : nat) (p : list Z) : option bobj :=
  match fuel with
  | O => None
  | S f =>
      bits ← head p;
      '(v, p') ← unpack p;
      if Z.land bits cHASMORE =? 0 then Some [([], v)]
      else o ← unpack_all f p'; Some (([], v) :: o)
  end.

Definition toBson (p : list Z) : option bobj :=
  c ← isCompactFormat p;
  if (c : bool) then unpack_all (length p) p else read_obj (length p) (tail p).

(** ** Sizes *)

Definition sizes : list Z := [0; 1; 1; 0; 9; 0; 0; 0; 13; 0; 1; 1; 9; 0; 1; 0].

Definition sizeOfElement (p : list Z) : option Z :=
  b ← head p;
  let type := Z.land b cCANONTYPEMASK in
  sz ← sizes !! Z.to_nat type;
  if sz =? 0 then
    if type =? cstring then n ← p !! 1%nat; Some (n + 2)
    else if type =? cbindata then c ← p !! 1%nat; n ← binDataCodeToLength c; Some (n + 2)
    else None
  else Some sz.

Fixpoint dataSize_from (fuel : nat) (p : list Z) : option Z :=
  match fuel with
  | O => None
  | S f =>
      z ← sizeOfElement p;
      b ← head p;
      if Z.land b cHASMORE =? 0 then Some z
      else s ← dataSize_from f (drop (Z.to_nat z) p); Some (z + s)
  end.

Definition dataSize (p : list Z) : option Z :=
  c ← isCompactFormat p;
  if (c : bool) then dataSize_from (length p) p
  else
    sz ← rd32 (tail p);
    if (0 <? sz) && (sz <=? BSONObjMaxInternalSize) then Some (sz + 1) else None.

(** ** Comparing without unpacking *)

(** A number at [p]: the 64-bit integer when the whole type byte is [cint64], else the double. *)
Definition packed_double (real : Z) (d : Z) : Z := if real =? cint64 then dbl_of_Z (i64 d) else d.

(** [compare]: the sign, and both pointers moved past the element when it is 0. *)
Definition compare (l r : list Z) : option (Z * (list Z * list Z)) :=
  lt_real ← head l;
  rt_real ← head r;
  let lt := Z.land lt_real cCANONTYPEMASK in
  let rt := Z.land rt_real cCANONTYPEMASK in
  let x := lt - rt in
  if negb (x =? 0) then Some (x, (l, r))
  else
    let l := tail l in
    let r := tail r in
    if lt =? cdouble then
      dl ← rd64 l;
      dr ← rd64 r;
      let next := (drop 8 l, drop 8 r) in
      if (lt_real =? cint64) && (rt_real =? cint64) then
        let L := i64 dl in
        let R := i64 dr in
        if L <? R then Some (-1, (l, r))
        else if negb (L =? R) then Some (1, (l, r))
        else Some (0, next)
      else
        let L := packed_double lt_real dl in
        let R := packed_double rt_real dr in
        if dbl_ltb L R then Some (-1, (l, r))
        else if negb (dbl_eqb L R) then Some (1, (l, r))
        else Some (0, next)
    else if lt =? cstring then
      lsz ← head l;
      rsz ← head r;
      let common := Z.to_nat (Z.min lsz rsz) in
      let l := tail l in
      let r := tail r in
      let res := memcmp (take common l) (take common r) in
      if negb (res =? 0) then Some (res, (l, r))
      else if negb (lsz - rsz =? 0) then Some (lsz - rsz, (l, r))
      else Some (0, (drop (Z.to_nat lsz) l, drop (Z.to_nat lsz) r))
    else if lt =? cbindata then
      L ← head l;
      R ← head r;
      llen ← binDataCodeToLength L;
      let diff := L - R in
      if negb (diff =? 0) then
        rlen ← binDataCodeToLength R;
        if negb (llen =? rlen) then Some (llen - rlen, (l, r)) else Some (diff, (l, r))
      else
        let l := tail l in
        let r := tail r in
        let res := memcmp (take (Z.to_nat llen) l) (take (Z.to_nat llen) r) in
        if negb (res =? 0) then Some (res, (l, r))
        else Some (0, (drop (Z.to_nat llen) l, drop (Z.to_nat llen) r))
    else if lt =? cdate then
      dl ← rd64 l;
      dr ← rd64 r;
      let L := i64 dl in
      let R := i64 dr in
      if L <? R then Some (-1, (l, r))
      else if R <? L then Some (1, (l, r))
      else Some (0, (drop 8 l, drop 8 r))
    else if lt =? coid then
      let res := memcmp (take 12 l) (take 12 r) in
      if negb (res =? 0) then Some (res, (l, r)) else Some (0, (drop 12 l, drop 12 r))
    else Some (0, (l, r)).

(** The loop of [woCompare]. *)
Fixpoint woCompare_from (fuel : nat) (mask order : Z) (l r : list Z) : option Z :=
  match fuel with
  | O => None
  | S f =>
      lval ← head l;
      rval ← head r;
      '(x, (l', r')) ← compare l r;
      if negb (x =? 0) then Some (if Ordering.descending order mask then - x else x)
      else
        let x := Z.land lval cHASMORE - Z.land rval cHASMORE in
        if negb (x =? 0) then Some x
        else if Z.land lval cHASMORE =? 0 then Some 0
        else woCompare_from f (u32 (Z.shiftl mask 1)) order l' r'
  end.

Definition compareHybrid (l r : list Z) (order : Z) : option Z :=
  L ← toBson l;
  R ← toBson r;
  Some (Obj.woCompare_ord L R order false).

Definition woCompare (l r : list Z) (order : Z) : option Z :=
  lb ← head l;
  rb ← head r;
  if Z.lor lb rb =? IsBSON then compareHybrid l r order
  else woCompare_from (length l) 1 order l r.

(** ** [woEqual] *)

Definition sub_eq (k : nat) (l r : list Z) : bool := bool_decide (take k l = take k r).

(** One turn: [Some None] is [return false], [Some (Some (l, r))] goes on. *)
Definition equal_elem (t : Z) (l r : list Z) : option (option (list Z * list Z)) :=
  if t =? coid then
    if negb (sub_eq 4 l r) then Some None
    else if negb (sub_eq 8 (drop 4 l) (drop 4 r)) then Some None
    else Some (Some (drop 12 l, drop 12 r))
  else if t =? cdate then
    if negb (sub_eq 8 l r) then Some None else Some (Some (drop 8 l, drop 8 r))
  else if t =? cdouble then
    dl ← rd64 l;
    dr ← rd64 r;
    if negb (dbl_eqb dl dr) then Some None else Some (Some (drop 8 l, drop 8 r))
  else if t =? cstring then
    a ← head l;
    b ← head r;
    if negb (a =? b) then Some None
    else
      let sz := Z.to_nat (a + 1) in
      if negb (memcmp (take sz l) (take sz r) =? 0) then Some None
      else Some (Some (drop sz l, drop sz r))
  else if t =? cbindata then
    a ← head l;
    b ← head r;
    if negb (a =? b) then Some None
    else
      n ← binDataCodeToLength a;
      let len := Z.to_nat (n + 1) in
      if negb (memcmp (take len l) (take len r) =? 0) then Some None
      else Some (Some (drop len l, drop len r))
  else if (t =? cminkey) || (t =? cnull) || (t =? cfalse) || (t =? ctrue) || (t =? cmaxkey) then
    Some (Some (l, r))
  else None.

Fixpoint woEqual_from (fuel : nat) (l r : list Z) : option bool :=
  match fuel with
  | O => None
  | S f =>
      lval ← head l;
      rval ← head r;
      let mask := Z.lor cCANONTYPEMASK cHASMORE in
      if negb (Z.land lval mask =? Z.land rval mask) then Some false
      else
        next ← equal_elem (Z.land lval cCANONTYPEMASK) (tail l) (tail r);
        match next with
        | None => Some false
        | Some (l', r') => if Z.land lval cHASMORE =? 0 then Some true else woEqual_from f l' r'
        end
  end.

Definition woEqual (l r : list Z) : option bool :=
  lb ← head l;
  rb ← head r;
  if Z.lor lb rb =? IsBSON then
    L ← toBson l;
    R ← toBson r;
    Obj.equal L R
  else woEqual_from (length l) l r.

End KeyV1.

(** ** [Key]: a packed key, then the primary key of a secondary index entry *)

Module Key.

(** [Key(const BSONObj &key, const BSONObj *pk)] *)
Definition make (key : bobj) (pk : option bobj) : list Z :=
  KeyV1.KeyV1Owned key ++ match pk with Some o => obj_bytes o | None => [] end.

(** [Key(const char *buf, bool hasPK)]: the size of the key at [buf]. *)
Definition size_at (buf : list Z) (hasPK : bool) : option Z :=
  keySize ← KeyV1.dataSize buf;
  if hasPK then
    sz ← rd32 (drop (Z.to_nat keySize) buf);
    if (0 <? sz) && (sz <=? BSONObjMaxInternalSize) then Some (keySize + sz) else None
  else Some keySize.

(** [woCompare(key1, key2, ordering)] *)
Definition woCompare (key1 key2 : list Z) (ordering : Z) : option Z :=
  c ← KeyV1.woCompare key1 key2 ordering;
  if c <? 0 then Some (-1)
  else if 0 <? c then Some 1
  else
    k1_size ← KeyV1.dataSize key1;
    k2_size ← KeyV1.dataSize key2;
    let left1 := Z.of_nat (length key1) - k1_size in
    let left2 := Z.of_nat (length key2) - k2_size in
    if (0 <? left1) && (0 <? left2) then
      other_k1 ← read_obj (length key1) (drop (Z.to_nat k1_size) key1);
      other_k2 ← read_obj (length key2) (drop (Z.to_nat k2_size) key2);
      let c := Obj.woCompare_ord other_k1 other_k2 0 true in
      if c <? 0 then Some (-1) else if 0 <? c then Some 1 else Some 0
    else Some 0.

(** [key()] and [pk()] *)
Definition key (buf : list Z) : option bobj := KeyV1.toBson buf.

Definition pk (buf : list Z) : option bobj :=
  keySize ← KeyV1.dataSize buf;
  if keySize <? Z.of_nat (length buf) then read_obj (length buf) (drop (Z.to_nat keySize) buf)
  else Some [].

End Key.

(** ** Packing and unpacking *)

(** The length and subtype nibbles of binary data, by enumeration. *)
Definition bindata_table : bool :=
  forallb (λ len, forallb (λ t,
    match BinDataLengthToCode !! len with
    | Some code =>
        (code <? 0) ||
        (bool_decide (binDataCodeToLength (Z.lor code t) = Some (Z.of_nat len)) &&
         (Z.land (Z.lor code t) 15 =? t) && (Z.lor code t =? code + t))
    | None => false
    end) (seqZ 0 16)) (seq 0 33).

Lemma bindata_code len code t :
  BinDataLengthToCode !! len = Some code → 0 ≤ code → 0 ≤ t < 16 →
  binDataCodeToLength (Z.lor code t) = Some (Z.of_nat len) ∧
  Z.land (Z.lor code t) 15 = t ∧ Z.lor code t = code + t.
Proof.
  intros E Hc Ht. assert (bindata_table = true) as B by (by vm_compute). unfold bindata_table in B.
  rewrite forallb_forall in B. specialize (B len). assert (In len (seq 0 33)) as I.
  { apply in_seq. apply lookup_lt_Some in E. simpl in E. lia. }
  specialize (B I). rewrite forallb_forall in B. specialize (B t).
  assert (In t (seqZ 0 16)) as J by (apply list_elem_of_In, elem_of_seqZ; lia). specialize (B J).
  rewrite E in B. apply orb_true_iff in B as [B|B]; bool_facts; [lia|].
  apply bool_decide_eq_true in H. done.
Qed.

Definition pack_subtype (t : Z) : Z := if 128 <=? t then Z.lor (t - 128) 0x08 else t.
Definition unpack_subtype (s : Z) : Z := if Z.land s 0x8 =? 0 then s else Z.lor (Z.land s 0x7) 0x80.

Definition subtype_table : bool :=
  forallb (λ t, negb (Z.land t 0x78 =? 0) ||
    ((0 <=? pack_subtype t) && (pack_subtype t <? 16) && (unpack_subtype (pack_subtype t) =? t))) (seqZ 0 256).

Lemma subtype_pack t :
  is_byte t = true → Z.land t 0x78 = 0 → 0 ≤ pack_subtype t < 16 ∧ unpack_subtype (pack_subtype t) = t.
Proof.
  intros Ht E. assert (subtype_table = true) as B by (by vm_compute). unfold subtype_table in B.
  rewrite forallb_forall in B. specialize (B t). unfold is_byte in Ht. bool_facts.
  assert (In t (seqZ 0 256)) as J by (apply list_elem_of_In, elem_of_seqZ; lia). specialize (B J).
  rewrite E in B. cbn [Z.eqb negb orb] in B. bool_facts. lia.
Qed.

Lemma pack_bindata more t d p :
  KeyV1.pack more (BBinData t d) = Some p → is_byte t = true →
  ∃ code c, p = Z.lor cbindata (if more then cHASMORE else 0) :: c :: d ∧
    binDataCodeToLength c = Some (Z.of_nat (length d)) ∧
    Z.land c BinDataTypeMask = pack_subtype t ∧ unpack_subtype (pack_subtype t) = t ∧
    BinDataLengthToCode !! length d = Some code ∧ c = code + pack_subtype t.
Proof.
  cbn [KeyV1.pack]. destruct (_ && _) eqn:E1; [|done]. destruct (_ <=? _) eqn:E2; [|done].
  destruct (BinDataLengthToCode !! length d) as [code|] eqn:E3; [|done]. cbn [mbind option_bind].
  destruct (0 <=? code) eqn:E4; [|done]. intros H Ht. bool_facts. simplify_eq.
  destruct (subtype_pack t Ht) as [B S]; [done|].
  destruct (bindata_code _ _ _ E3 E4 B) as (C1 & C2 & C3).
  by exists code, (Z.lor code (pack_subtype t)).
Qed.

Lemma dbl_cast_int n w : 
  0 < w → - 2 ^ 53 ≤ n ≤ 2 ^ 53 → in_s w n → Element.dbl_cast w (dbl_of_Z n) = Some n.
Proof.
  intros Hw Hn Hs. unfold Element.dbl_cast. rewrite dbl_of_Z_not_nan by lia. rewrite dbl_trunc_exact by done.
  unfold in_s in Hs. destruct (_ <=? _) eqn:E; bool_facts; [|lia]. destruct (_ <? _) eqn:F; bool_facts; [done|lia].
Qed.

Lemma rd64_dbl n r : - 2 ^ 65 < n < 2 ^ 65 → rd64 (le64 (dbl_of_Z n) ++ r) = Some (dbl_of_Z n).
Proof. intros. rewrite rd64_le64, wrapU_id; [done|]. by apply dbl_of_Z_range. Qed.

Lemma drop_le64 n r : drop 8 (le64 n ++ r) = r.
Proof. apply drop_app_length'. symmetry. apply length_le64. Qed.

(** The tests of a packed type byte against the constants. *)
Ltac eval_tag :=
  repeat match goal with
  | |- context [?a =? ?b] =>
      let e := eval vm_compute in (a =? b) in
      lazymatch e with true => change (a =? b) with true | false => change (a =? b) with false end;
      cbn [orb andb negb]; cbv iota
  end.

(** The same, for a nibble compared with the named constants only. *)
Ltac eval_nibble :=
  repeat match goal with
  | |- context [?a =? ?b] =>
      is_const b;
      let e := eval vm_compute in (a =? b) in
      lazymatch e with true => change (a =? b) with true | false => change (a =? b) with false end;
      cbn [orb andb negb]; cbv iota
  end.

(** What is packed is unpacked, whatever follows. *)
Lemma unpack_ok more v p r :
  KeyV1.pack more v = Some p → wf v = true → KeyV1.unpack (p ++ r) = Some (v, r).
Proof.
  intros E W. unfold KeyV1.unpack.
  destruct v; try discriminate E; cbn [wf] in W; bool_facts.
  4:{ destruct (pack_bindata _ _ _ _ E) as (code & c & -> & C1 & C2 & C3 & _ & _); [done|].
      destruct more; cbn [app head tail mbind option_bind]; eval_tag; cbn [head tail mbind option_bind];
        rewrite C1; cbn [mbind option_bind]; rewrite C2; fold (unpack_subtype (pack_subtype subtype)); rewrite C3;
        rewrite Nat2Z.id, take_app_length, drop_app_length; done. }
  all: cbn [KeyV1.pack] in E.
  9:{ unfold KeyV1.big in E. destruct (_ || _) eqn:B; simplify_eq; bool_facts;
        destruct more; cbn [app head tail mbind option_bind]; eval_tag.
      1,2: rewrite rd64_le64, drop_le64; cbn [mbind option_bind]; rewrite i64_u64; [done|];
           unfold in_s; change (2 ^ (64 - 1)) with (2 ^ 63); lia.
      all: rewrite rd64_dbl, drop_le64 by lia; cbn [mbind option_bind]; rewrite dbl_cast_int; try done; try lia;
           unfold in_s; change (2 ^ (64 - 1)) with (2 ^ 63); lia. }
  all: try (destruct (dbl_isNaN d); [done|]); try (destruct (255 <? _) eqn:L; [done|]).
  all: try destruct b; simplify_eq; destruct more; cbn [app head tail mbind option_bind]; eval_tag; try done.
  all: rewrite ?rd64_le64, ?drop_le64; cbn [head tail mbind option_bind].
  all: try (rewrite wrapU_id by (unfold in_u; lia); done).
  all: try (rewrite Nat2Z.id, take_app_length, drop_app_length; done).
  all: try (rewrite take_app_length', drop_app_length' by lia; done).
  all: try (rewrite i64_u64 by (unfold in_s; change (2 ^ (64 - 1)) with (2 ^ 63); lia); done).
  all: rewrite wrapU_id by (apply dbl_of_Z_range; lia); rewrite dbl_cast_int; try done; try lia;
       unfold in_s; change (2 ^ (32 - 1)) with (2 ^ 31); lia.
Qed.

(** The type byte: whether more follows, and never the sentinel. *)
Lemma pack_head more v p r :
  KeyV1.pack more v = Some p → wf v = true →
  ∃ b, head (p ++ r) = Some b ∧ (Z.land b cHASMORE =? 0) = negb more ∧
       Z.land b cHASMORE = (if more then 64 else 0) ∧ 0 ≤ b < 128.
Proof.
  intros E W. destruct v; try discriminate E; cbn [wf] in W; bool_facts.
  4:{ destruct (pack_bindata _ _ _ _ E) as (code & c & -> & _); [done|]. eexists. split; [done|].
      destruct more; vm_compute; intuition discriminate. }
  all: cbn [KeyV1.pack] in E.
  all: try (destruct (dbl_isNaN d); [done|]); try (destruct (255 <? _) eqn:L; [done|]);
    try (destruct (KeyV1.big n)).
  all: simplify_eq; eexists; split; [done|]; try destruct b; destruct more; vm_compute; intuition discriminate.
Qed.

Lemma sizeOfElement_ok more v p r :
  KeyV1.pack more v = Some p → wf v = true →
  KeyV1.sizeOfElement (p ++ r) = Some (Z.of_nat (length p)).
Proof.
  intros E W. unfold KeyV1.sizeOfElement. destruct v; try discriminate E; cbn [wf] in W; bool_facts.
  4:{ destruct (pack_bindata _ _ _ _ E) as (code & c & -> & C1 & _); [done|].
      destruct more; cbn [app head tail mbind option_bind length];
        change (KeyV1.sizes !! _) with (Some 0); cbn [mbind option_bind]; eval_tag;
        change ((?a :: c :: ?l) !! 1%nat) with (Some c); cbn [mbind option_bind]; rewrite C1; cbn [mbind option_bind];
        f_equal; lia. }
  all: cbn [KeyV1.pack] in E.
  all: try (destruct (dbl_isNaN d); [done|]); try (destruct (255 <? _) eqn:L; [done|]);
    try (destruct (KeyV1.big n)).
  all: simplify_eq; try destruct b; destruct more; cbn [app head mbind option_bind length];
    match goal with |- context [KeyV1.sizes !! ?k] =>
      let e := eval vm_compute in (KeyV1.sizes !! k) in change (KeyV1.sizes !! k) with e end;
    cbn [mbind option_bind]; eval_tag; rewrite ?length_le64; try done.
  all: try (change ((?a :: ?c :: ?l) !! 1%nat) with (Some c); cbn [mbind option_bind]).
  all: f_equal; lia.
Qed.

(** ** Whole keys *)

Definition strip_names (o : bobj) : bobj := map (λ e, ([], e.2)) o.

Lemma pack_all_cons e e' o p :
  KeyV1.pack_all (e :: e' :: o) = Some p →
  ∃ p1 p2, KeyV1.pack true e.2 = Some p1 ∧ KeyV1.pack_all (e' :: o) = Some p2 ∧ p = p1 ++ p2.
Proof.
  intros E. change (KeyV1.pack_all (e :: e' :: o)) with
    (p ← KeyV1.pack true e.2; q ← KeyV1.pack_all (e' :: o); Some (p ++ q)) in E.
  destruct (KeyV1.pack true e.2) as [p1|]; [|done]. cbn [mbind option_bind] in E.
  destruct (KeyV1.pack_all (e' :: o)) as [p2|]; [|done]. cbn [mbind option_bind] in E. simplify_eq.
  by exists p1, p2.
Qed.

Lemma pack_nonempty more v p : KeyV1.pack more v = Some p → wf v = true → (1 ≤ length p)%nat.
Proof. intros E W. destruct (pack_head _ _ _ [] E W) as (b & H & _). destruct p; [done|]. simpl. lia. Qed.

Lemma unpack_all_ok o p r fuel :
  KeyV1.pack_all o = Some p → wf_with wf o = true → (length o ≤ fuel)%nat →
  KeyV1.unpack_all fuel (p ++ r) = Some (strip_names o).
Proof.
  revert p fuel. induction o as [|[n v] o IH]; intros p fuel E W Hf; [done|].
  cbn [wf_with] in W. bool_facts. destruct fuel as [|fuel]; simpl in Hf; [lia|]. cbn [KeyV1.unpack_all].
  destruct o as [|e' o].
  - cbn [KeyV1.pack_all snd] in E. destruct (pack_head _ _ _ r E H1) as (b & -> & Hm & _).
    cbn [mbind option_bind]. rewrite (unpack_ok _ _ _ _ E H1). cbn [mbind option_bind]. by rewrite Hm.
  - destruct (pack_all_cons _ _ _ _ E) as (p1 & p2 & E1 & E2 & ->). cbn [snd] in E1. rewrite <- (assoc_L app).
    destruct (pack_head _ _ _ (p2 ++ r) E1 H1) as (b & -> & Hm & _).
    cbn [mbind option_bind]. rewrite (unpack_ok _ _ _ _ E1 H1). cbn [mbind option_bind]. rewrite Hm. cbn [negb].
    rewrite (IH p2 fuel E2 H0) by (simpl in *; lia). done.
Qed.

Lemma length_pack_all o p : KeyV1.pack_all o = Some p → wf_with wf o = true → (length o ≤ length p)%nat.
Proof.
  revert p. induction o as [|[n v] o IH]; intros p E W; [done|]. cbn [wf_with] in W. bool_facts.
  destruct o as [|e' o].
  - cbn [KeyV1.pack_all snd] in E. simpl. by eapply pack_nonempty.
  - destruct (pack_all_cons _ _ _ _ E) as (p1 & p2 & E1 & E2 & ->). specialize (IH _ E2 H0).
    pose proof (pack_nonempty _ _ _ E1 H1). rewrite length_app. simpl in *. lia.
Qed.

Lemma pack_all_head o p r :
  KeyV1.pack_all o = Some p → wf_with wf o = true → ∃ b, head (p ++ r) = Some b ∧ 0 ≤ b < 128.
Proof.
  destruct o as [|[n v] [|e' o]]; intros E W; [done|..]; cbn [wf_with] in W; bool_facts.
  - destruct (pack_head _ _ _ r E H1) as (b & ? & _ & _ & ?). by exists b.
  - destruct (pack_all_cons _ _ _ _ E) as (p1 & p2 & E1 & E2 & ->). rewrite <- (assoc_L app).
    destruct (pack_head _ _ _ (p2 ++ r) E1 H1) as (b & ? & _ & _ & ?). by exists b.
Qed.

Lemma isCompactFormat_ok o r :
  wf_with wf o = true →
  KeyV1.isCompactFormat (KeyV1.KeyV1Owned o ++ r) = Some (bool_decide (is_Some (KeyV1.pack_all o))).
Proof.
  intros W. unfold KeyV1.KeyV1Owned, KeyV1.isCompactFormat. destruct (KeyV1.pack_all o) as [p|] eqn:E; [|done].
  destruct (pack_all_head _ _ r E W) as (b & -> & Hb). cbn [mbind option_bind].
  destruct (b =? IsBSON) eqn:F; bool_facts; [unfold IsBSON in *; lia|done].
Qed.

Lemma wf_obj_with o : wf_obj o = true → wf_with wf o = true.
Proof. unfold wf_obj. intros. by bool_facts. Qed.

Lemma wf_obj_size o : wf_obj o = true → Z.of_nat (length (obj_bytes o)) ≤ BSONObjMaxInternalSize.
Proof. unfold wf_obj. intros. by bool_facts. Qed.

Lemma toBson_ok o r :
  wf_obj o = true →
  KeyV1.toBson (KeyV1.KeyV1Owned o ++ r) =
  Some (if bool_decide (is_Some (KeyV1.pack_all o)) then strip_names o else o).
Proof.
  intros W. pose proof (wf_obj_with _ W) as W'. unfold KeyV1.toBson.
  rewrite isCompactFormat_ok by done. cbn [mbind option_bind]. unfold KeyV1.KeyV1Owned.
  destruct (KeyV1.pack_all o) as [p|] eqn:E; case_bool_decide as D; try (by destruct D); try (exfalso; apply D; by eexists).
  - apply unpack_all_ok; [done..|]. pose proof (length_pack_all _ _ E W'). rewrite length_app. lia.
  - cbn [KeyV1.traditional app tail]. apply read_obj_ok; [done|]. cbn [length]. rewrite length_app. lia.
Qed.

Lemma dataSize_from_ok o p r fuel :
  KeyV1.pack_all o = Some p → wf_with wf o = true → (length o ≤ fuel)%nat →
  KeyV1.dataSize_from fuel (p ++ r) = Some (Z.of_nat (length p)).
Proof.
  revert p fuel. induction o as [|[n v] o IH]; intros p fuel E W Hf; [done|].
  cbn [wf_with] in W. bool_facts. destruct fuel as [|fuel]; simpl in Hf; [lia|]. cbn [KeyV1.dataSize_from].
  destruct o as [|e' o].
  - cbn [KeyV1.pack_all snd] in E. rewrite (sizeOfElement_ok _ _ _ _ E H1). cbn [mbind option_bind].
    destruct (pack_head _ _ _ r E H1) as (b & -> & Hm & _). cbn [mbind option_bind]. by rewrite Hm.
  - destruct (pack_all_cons _ _ _ _ E) as (p1 & p2 & E1 & E2 & ->). cbn [snd] in E1. rewrite <- (assoc_L app).
    rewrite (sizeOfElement_ok _ _ _ _ E1 H1). cbn [mbind option_bind].
    destruct (pack_head _ _ _ (p2 ++ r) E1 H1) as (b & -> & Hm & _). cbn [mbind option_bind]. rewrite Hm. cbn [negb].
    rewrite Nat2Z.id, drop_app_length, (IH p2 fuel E2 H0) by (simpl in *; lia). cbn [mbind option_bind].
    f_equal. rewrite length_app. lia.
Qed.

Lemma dataSize_ok o r :
  wf_obj o = true →
  KeyV1.dataSize (KeyV1.KeyV1Owned o ++ r) = Some (Z.of_nat (length (KeyV1.KeyV1Owned o))).
Proof.
  intros W. pose proof (wf_obj_with _ W) as W'. unfold KeyV1.dataSize.
  rewrite isCompactFormat_ok by done. cbn [mbind option_bind]. unfold KeyV1.KeyV1Owned.
  destruct (KeyV1.pack_all o) as [p|] eqn:E; case_bool_decide as D; try (by destruct D); try (exfalso; apply D; by eexists).
  - apply (dataSize_from_ok o); [done..|]. pose proof (length_pack_all _ _ E W'). rewrite length_app. lia.
  - cbn [KeyV1.traditional app tail length]. pose proof (wf_obj_size _ W).
    rewrite rd32_obj by done. cbn [mbind option_bind]. rewrite objsize_valid by done. f_equal. lia.
Qed.

(** C26: [toBson] inverts [KeyV1Owned]: a packed key yields the values of the document in order,
    with empty names, and a key kept as BSON the document itself, whatever follows in memory. *)
Theorem keyv1_roundtrip o r :
  wf_obj o = true →
  KeyV1.toBson (KeyV1.KeyV1Owned o ++ r) =
  Some (if bool_decide (is_Some (KeyV1.pack_all o)) then strip_names o else o).
Proof. intros. by apply toBson_ok. Qed.

(** [dataSize] finds the end of a key, packed or not, whatever follows in memory. *)
Theorem keyv1_dataSize o r :
  wf_obj o = true →
  KeyV1.dataSize (KeyV1.KeyV1Owned o ++ r) = Some (Z.of_nat (length (KeyV1.KeyV1Owned o))).
Proof. intros. by apply dataSize_ok. Qed.

(** ** The order of packed keys *)

(** The canonical type nibble. *)
Definition ptype (v : bval) : Z :=
  match v with
  | BMinKey => cminkey | BNull => cnull | BMaxKey => cmaxkey
  | BBool b => if b then ctrue else cfalse
  | BOID _ => coid | BBinData _ _ => cbindata | BDate _ => cdate | BString _ => cstring
  | BInt _ | BLong _ | BDouble _ => cdouble
  | _ => 0
  end.

Lemma pack_type more v p r :
  KeyV1.pack more v = Some p → wf v = true →
  ∃ b, head (p ++ r) = Some b ∧ Z.land b cCANONTYPEMASK = ptype v.
Proof.
  intros E W. destruct v; try discriminate E; cbn [wf] in W; bool_facts.
  4:{ destruct (pack_bindata _ _ _ _ E) as (code & c & -> & _); [done|]. eexists. split; [done|].
      by destruct more. }
  all: cbn [KeyV1.pack] in E.
  all: try (destruct (dbl_isNaN d); [done|]); try (destruct (255 <? _) eqn:L; [done|]);
    try (destruct (KeyV1.big n)).
  all: simplify_eq; eexists; split; [done|]; try destruct b; by destruct more.
Qed.

(** Values compared as [woCompare] without names does. *)
Definition vcmp (v w : bval) : Z := Element.woCompare ([], v) ([], w) false.

(** Different nibbles are in the order of the values. *)
Lemma ptype_order m m' v w p q :
  KeyV1.pack m v = Some p → KeyV1.pack m' w = Some q → ptype v ≠ ptype w →
  Z.sgn (ptype v - ptype w) = Z.sgn (vcmp v w).
Proof.
  intros E F N. unfold vcmp.
  destruct v; try discriminate E; destruct w; try discriminate F; clear E F;
    try (exfalso; apply N; reflexivity); try destruct b; try destruct b0; try reflexivity; exfalso; apply N; reflexivity.
Qed.

(** Longs beyond 2^53 are only the last value of a key. *)
Definition long_last (more : bool) (v : bval) : bool :=
  match v with BLong n => negb (more && KeyV1.big n) | _ => true end.

(** ** Numbers *)

Definition number_bits (v : bval) : Z :=
  match v with BLong n => if KeyV1.big n then u64 n else dbl_of_Z n | v => Element.numberDouble v end.

Definition is_big (v : bval) : bool := match v with BLong n => KeyV1.big n | _ => false end.

Lemma pack_number more v p r :
  KeyV1.pack more v = Some p → wf v = true → Element.isNumber v = true → long_last more v = true →
  ∃ b, p = b :: le64 (number_bits v) ∧ (b =? cint64) = is_big v ∧ Z.land b cCANONTYPEMASK = cdouble ∧
    rd64 (le64 (number_bits v) ++ r) = Some (number_bits v) ∧
    KeyV1.packed_double b (number_bits v) = Element.numberDouble v ∧
    dbl_isNaN (Element.numberDouble v) = false.
Proof.
  intros E W N L. rewrite rd64_le64.
  destruct v; try discriminate N; cbn [wf KeyV1.pack number_bits is_big Element.numberDouble long_last] in *; bool_facts.
  - destruct (dbl_isNaN d) eqn:F; [done|]. simplify_eq. eexists. split; [done|].
    rewrite wrapU_id by (unfold in_u; lia). by destruct more.
  - simplify_eq. eexists. split; [done|]. rewrite wrapU_id by (apply dbl_of_Z_range; lia).
    pose proof (dbl_of_Z_not_nan n ltac:(lia)). by destruct more.
  - pose proof (dbl_of_Z_not_nan n ltac:(lia)). destruct (KeyV1.big n) eqn:B; simplify_eq.
    + rewrite andb_true_r in L. destruct more; [done|]. eexists.
      split; [f_equal; unfold le64; by rewrite (wrapU_id 64 (u64 n)) by (apply wrapU_range; lia)|].
      unfold KeyV1.packed_double. cbn [Z.eqb Pos.eqb]. rewrite i64_u64 by (unfold in_s; change (2 ^ (64 - 1)) with (2 ^ 63); lia).
      rewrite (wrapU_id 64 (u64 n)) by (apply wrapU_range; lia). done.
    + eexists. split; [done|]. rewrite wrapU_id by (apply dbl_of_Z_range; lia). by destruct more.
Qed.

(** Comparing through doubles agrees with comparing longs unless both are beyond 2^53. *)
Lemma compare_long_mixed a b :
  in_s 64 a → in_s 64 b → KeyV1.big a && KeyV1.big b = false →
  Z.sgn (Element.compare_doubles (dbl_of_Z a) (dbl_of_Z b)) = Z.sgn (Element.compare_ints a b).
Proof.
  unfold in_s. change (2 ^ (64 - 1)) with (2 ^ 63). intros Ha Hb B.
  rewrite compare_doubles_key, compare_ints_sgn. unfold num_key. rewrite !dbl_of_Z_not_nan by lia.
  assert (0 < 2 ^ 1074) as Hs by reflexivity.
  pose proof (dbl_val_exact a) as Ea. pose proof (dbl_val_exact b) as Eb.
  pose proof (dbl_val_large a) as La. pose proof (dbl_val_large b) as Lb.
  pose proof (dbl_val_large_neg a) as Na. pose proof (dbl_val_large_neg b) as Nb.
  revert Hs Ea Eb La Lb Na Nb. generalize (2 ^ 1074) (dbl_val (dbl_of_Z a)) (dbl_val (dbl_of_Z b)). intros s x y Hs Ea Eb La Lb Na Nb.
  unfold KeyV1.big in B.
  apply andb_false_iff in B as [B|B]; bool_facts.
  - rewrite Ea by lia. destruct (decide (2 ^ 53 ≤ b)); [|destruct (decide (b ≤ - 2 ^ 53))].
    + specialize (Lb ltac:(lia)). rewrite !Z.sgn_neg; [done|lia|nia].
    + specialize (Nb ltac:(lia)). rewrite !Z.sgn_pos; [done|lia|nia].
    + rewrite Eb by lia. rewrite <- Z.mul_sub_distr_r, Z.sgn_mul, (Z.sgn_pos s) by done. lia.
  - rewrite Eb by lia. destruct (decide (2 ^ 53 ≤ a)); [|destruct (decide (a ≤ - 2 ^ 53))].
    + specialize (La ltac:(lia)). rewrite !Z.sgn_pos; [done|lia|nia].
    + specialize (Na ltac:(lia)). rewrite !Z.sgn_neg; [done|lia|nia].
    + rewrite Ea by lia. rewrite <- Z.mul_sub_distr_r, Z.sgn_mul, (Z.sgn_pos s) by done. lia.
Qed.

Lemma vcmp_same v w :
  Element.canonicalType v = Element.canonicalType w → vcmp v w = Element.compareElementValues v w.
Proof. intros E. unfold vcmp, Element.woCompare, Element.wo_elem. cbn [fst snd]. by rewrite E, Z.sub_diag. Qed.

(** Outside the longs beyond 2^53, values compare as their doubles do. *)
Lemma compare_numbers v w :
  wf v = true → wf w = true → Element.isNumber v = true → Element.isNumber w = true →
  is_big v && is_big w = false →
  Z.sgn (Element.compare_doubles (Element.numberDouble v) (Element.numberDouble w)) =
  Z.sgn (Element.compareElementValues v w).
Proof.
  intros Wv Ww Nv Nw B.
  destruct v; try discriminate Nv; destruct w; try discriminate Nw; try reflexivity; cbn [wf is_big] in *; bool_facts;
    cbn [Element.compareElementValues Element.numberDouble]; apply compare_long_mixed;
    try (unfold in_s; change (2 ^ (64 - 1)) with (2 ^ 63); lia); try done.
  unfold KeyV1.big. destruct (_ || _) eqn:E; [|done]. apply orb_true_iff in E as [E|E]; bool_facts; lia.
Qed.

Lemma compare_number_ok m m' v w p q x y :
  KeyV1.pack m v = Some p → KeyV1.pack m' w = Some q → wf v = true → wf w = true →
  long_last m v = true → long_last m' w = true → Element.isNumber v = true → Element.isNumber w = true →
  ∃ c l r, KeyV1.compare (p ++ x) (q ++ y) = Some (c, (l, r)) ∧ Z.sgn c = Z.sgn (vcmp v w) ∧
    (c = 0 → l = x ∧ r = y).
Proof.
  intros E F Wv Ww Lv Lw Nv Nw.
  destruct (pack_number _ _ _ x E Wv Nv Lv) as (b & -> & B1 & B2 & B3 & B4 & B5).
  destruct (pack_number _ _ _ y F Ww Nw Lw) as (b' & -> & C1 & C2 & C3 & C4 & C5).
  rewrite vcmp_same by (by rewrite !canonical_number).
  unfold KeyV1.compare. cbn [app head tail mbind option_bind]. rewrite B2, C2, B3, C3, B1, C1, !drop_le64.
  rewrite Z.sub_diag. cbn [Z.eqb negb mbind option_bind]. change (cdouble =? cdouble) with true. cbv iota.
  rewrite B4, C4.
  destruct (is_big v && is_big w) eqn:B.
  - bool_facts. destruct v as [| | | | | | | | | | | | | | | | | |n|]; try discriminate.
    destruct w as [| | | | | | | | | | | | | | | | | |n'|]; try discriminate.
    cbn [is_big number_bits wf Element.compareElementValues] in *. rewrite H, H0. bool_facts.
    rewrite !i64_u64 by (unfold in_s; change (2 ^ (64 - 1)) with (2 ^ 63); lia).
    unfold Element.compare_ints. split_ifs; bool_facts; eexists _, _, _; (split; [done|]); try lia; split; try done; lia.
  - rewrite <- compare_numbers by done. unfold Element.compare_doubles. rewrite B5.
    destruct (dbl_ltb _ _); [by eexists _, _, _|]. destruct (dbl_eqb _ _); by eexists _, _, _.
Qed.

(** ** Strings and binary data *)

Lemma memcmp_take s t x y :
  let k := Nat.min (length s) (length t) in memcmp (take k (s ++ x)) (take k (t ++ y)) = memcmp s t.
Proof.
  revert t. induction s as [|a s IH]; intros [|b t]; simpl; try done. by rewrite IH.
Qed.

Lemma compare_strings_sgn s t :
  Forall (λ b, 0 ≤ b) s → Forall (λ b, 0 ≤ b) t →
  Z.sgn (if negb (memcmp s t =? 0) then memcmp s t else Z.of_nat (length s) - Z.of_nat (length t)) =
  Z.sgn (Element.compare_strings s t).
Proof.
  unfold Element.compare_strings. intros Hs. revert t. induction Hs as [|a s Ha _ IH]; intros t Ht.
  - destruct Ht as [|b t Hb _]; [done|]. cbn [app memcmp length]. crush_cmp.
  - destruct Ht as [|b t Hb Ht]; cbn [app memcmp length].
    + destruct s; cbn [app memcmp]; crush_cmp.
    + specialize (IH _ Ht). destruct (a =? b) eqn:E; [|crush_cmp].
      replace (Z.of_nat (S (length s)) - Z.of_nat (S (length t))) with (Z.of_nat (length s) - Z.of_nat (length t)) by lia.
      exact IH.
Qed.

Lemma pack_subtype_sgn t u :
  is_byte t = true → is_byte u = true → Z.land t 0x78 = 0 → Z.land u 0x78 = 0 →
  Z.sgn (pack_subtype t - pack_subtype u) = Z.sgn (t - u).
Proof.
  intros Ht Hu Et Eu. destruct (subtype_pack t Ht Et) as [Bt Rt], (subtype_pack u Hu Eu) as [Bu Ru].
  assert (forallb (λ a, forallb (λ b, Z.sgn (a - b) =? Z.sgn (unpack_subtype a - unpack_subtype b)) (seqZ 0 16)) (seqZ 0 16) = true)
    as T by (by vm_compute).
  rewrite forallb_forall in T. specialize (T (pack_subtype t)). rewrite forallb_forall in T.
  rewrite <- Rt, <- Ru at 2. apply Z.eqb_eq. apply T; apply list_elem_of_In, elem_of_seqZ; lia.
Qed.

Lemma pack_bindata_subtype more t d p : KeyV1.pack more (BBinData t d) = Some p → Z.land t 0x78 = 0.
Proof. cbn [KeyV1.pack]. destruct (_ && _) eqn:E; [|done]. intros _. by bool_facts. Qed.

Lemma compare_string_ok m m' s t p q x y :
  KeyV1.pack m (BString s) = Some p → KeyV1.pack m' (BString t) = Some q →
  wf (BString s) = true → wf (BString t) = true →
  ∃ c l r, KeyV1.compare (p ++ x) (q ++ y) = Some (c, (l, r)) ∧
    Z.sgn c = Z.sgn (Element.compare_strings s t) ∧ (c = 0 → l = x ∧ r = y).
Proof.
  cbn [KeyV1.pack wf]. intros E F Ws Wt. destruct (255 <? Z.of_nat (length s)); [done|].
  destruct (255 <? Z.of_nat (length t)); [done|]. simplify_eq.
  rewrite <- compare_strings_sgn by (by apply is_byte_nonneg).
  assert (∀ a b : Z, a ∈ [6; 70] → b ∈ [6; 70] → ∃ c l r,
    KeyV1.compare (a :: Z.of_nat (length s) :: s ++ x) (b :: Z.of_nat (length t) :: t ++ y) = Some (c, (l, r)) ∧
    c = (if negb (memcmp s t =? 0) then memcmp s t else Z.of_nat (length s) - Z.of_nat (length t)) ∧
    (c = 0 → l = x ∧ r = y)) as H.
  { intros a b Ha Hb. unfold KeyV1.compare. cbn [head tail mbind option_bind].
    assert (Z.land a cCANONTYPEMASK = 6) as -> by set_solver.
    assert (Z.land b cCANONTYPEMASK = 6) as -> by set_solver. eval_tag. cbn [head tail mbind option_bind].
    replace (Z.to_nat (Z.min _ _)) with (Nat.min (length s) (length t)) by lia. rewrite memcmp_take.
    destruct (memcmp s t =? 0) eqn:M; cbn [negb]; bool_facts; [|by eexists _, _, _].
    destruct (_ - _ =? 0) eqn:D; cbn [negb]; bool_facts; eexists _, _, _; (split; [done|]).
    - split; [lia|]. intros _. rewrite Nat2Z.id, drop_app_length. split; [done|].
      rewrite drop_app_length' by lia. done.
    - split; [done|]. done. }
  destruct (H (Z.lor cstring (if m then cHASMORE else 0)) (Z.lor cstring (if m' then cHASMORE else 0)))
    as (c & l & r & H1 & H2 & H3); [destruct m; set_solver|destruct m'; set_solver|].
  exists c, l, r. by rewrite H2 in *.
Qed.

Lemma compare_bindata_ok m m' t d u e p q x y :
  KeyV1.pack m (BBinData t d) = Some p → KeyV1.pack m' (BBinData u e) = Some q →
  wf (BBinData t d) = true → wf (BBinData u e) = true →
  ∃ c l r, KeyV1.compare (p ++ x) (q ++ y) = Some (c, (l, r)) ∧
    Z.sgn c = Z.sgn (Element.compareElementValues (BBinData t d) (BBinData u e)) ∧ (c = 0 → l = x ∧ r = y).
Proof.
  intros E F Wt Wu. pose proof (pack_bindata_subtype _ _ _ _ E) as Tt. pose proof (pack_bindata_subtype _ _ _ _ F) as Tu.
  cbn [wf] in *. bool_facts.
  destruct (pack_bindata _ _ _ _ E) as (code & L & -> & L1 & _ & L3 & L4 & L5); [done|].
  destruct (pack_bindata _ _ _ _ F) as (code' & R & -> & R1 & _ & R3 & R4 & R5); [done|]. clear E F.
  assert (∀ b, Z.land (Z.lor cbindata (if (b : bool) then cHASMORE else 0)) cCANONTYPEMASK = cbindata) as TG by (by intros []).
  unfold KeyV1.compare. cbn [app head tail mbind option_bind]. rewrite !TG. eval_tag. cbn [head tail mbind option_bind].
  rewrite L1, R1. cbn [mbind option_bind Element.compareElementValues].
  pose proof (pack_subtype_sgn t u ltac:(done) ltac:(done) Tt Tu) as S.
  destruct (decide (length d = length e)) as [El|Nl].
  - rewrite El in *. rewrite L4 in R4. simplify_eq. rewrite Z.sub_diag. cbn [Z.eqb negb]. rewrite Z.eqb_refl. cbn [negb].
    cbn [memcmp]. destruct (decide (t = u)) as [->|Nt].
    + rewrite Z.sub_diag. cbn [Z.eqb negb]. rewrite Z.eqb_refl, !Nat2Z.id.
      rewrite !take_app_length', !drop_app_length' by lia.
      destruct (memcmp d e =? 0) eqn:M; cbn [negb]; bool_facts; eexists _, _, _; (split; [done|]); split; try done. by rewrite M.
    + replace (code' + pack_subtype t - (code' + pack_subtype u)) with (pack_subtype t - pack_subtype u) by lia.
      destruct (_ - _ =? 0) eqn:D; cbn [negb]; bool_facts; [rewrite D in S; simpl in S; lia|].
      eexists _, _, _. split; [done|]. split; [|done]. rewrite S. crush_cmp.
  - destruct (Z.of_nat (length d) - _ =? 0) eqn:D; cbn [negb]; bool_facts; [lia|].
    destruct (L - R =? 0) eqn:D'; cbn [negb]; bool_facts.
    + replace R with L in R1 by lia. rewrite L1 in R1. injection R1. lia.
    + destruct (_ =? _) eqn:D''; cbn [negb]; bool_facts; [lia|]. by eexists _, _, _.
Qed.

(** One element: the packed comparison has the sign of the comparison of the values, and moves
    past both when they are equal. *)
Lemma compare_ok m m' v w p q x y :
  KeyV1.pack m v = Some p → KeyV1.pack m' w = Some q → wf v = true → wf w = true →
  long_last m v = true → long_last m' w = true →
  ∃ c l r, KeyV1.compare (p ++ x) (q ++ y) = Some (c, (l, r)) ∧ Z.sgn c = Z.sgn (vcmp v w) ∧
    (c = 0 → l = x ∧ r = y).
Proof.
  intros E F Wv Ww Lv Lw.
  destruct (decide (ptype v = ptype w)) as [P|P].
  2:{ destruct (pack_type _ _ _ x E Wv) as (b & Hb & Tb). destruct (pack_type _ _ _ y F Ww) as (b' & Hb' & Tb').
      exists (ptype v - ptype w), (p ++ x), (q ++ y).
      split; [|split; [by eapply ptype_order|lia]]. unfold KeyV1.compare. rewrite Hb, Hb'. cbn [mbind option_bind].
      rewrite Tb, Tb'. destruct (_ =? 0) eqn:Z; bool_facts; [lia|done]. }
  destruct (Element.isNumber v) eqn:Nv.
  { assert (Element.isNumber w = true) as Nw.
    { destruct v; try discriminate Nv; destruct w; try discriminate F; try discriminate P; try done; by destruct b. }
    by eapply compare_number_ok. }
  destruct v; try discriminate E; try discriminate Nv; destruct w; try discriminate F; try discriminate P;
    try (destruct b; discriminate P); rewrite vcmp_same by done.
  all: try (by eapply compare_string_ok).
  all: try (by eapply compare_bindata_ok).
  all: cbn [KeyV1.pack wf] in *; bool_facts; simplify_eq; unfold KeyV1.compare.
  - destruct m, m'; by eexists _, _, _.
  - destruct m, m'; cbn [app head tail mbind option_bind]; eval_tag;
      rewrite !take_app_length', !drop_app_length' by lia; cbn [Element.compareElementValues];
      (destruct (memcmp oid oid0 =? 0) eqn:M; cbn [negb]; bool_facts;
       [exists 0; eexists _, _; rewrite M; done|by eexists _, _, _]).
  - destruct b, b0; try discriminate P; destruct m, m'; by eexists _, _, _.
  - destruct m, m'; cbn [app head tail mbind option_bind]; eval_tag; rewrite !rd64_le64, !drop_le64; cbn [mbind option_bind];
      rewrite !i64_u64 by (unfold in_s; change (2 ^ (64 - 1)) with (2 ^ 63); lia); cbn [Element.compareElementValues];
      unfold Element.compare_ints; split_ifs; bool_facts; try lia; by eexists _, _, _.
  - destruct m, m'; by eexists _, _, _.
  - destruct m, m'; by eexists _, _, _.
Qed.

(** ** Whole keys *)

Fixpoint key_long_last (o : bobj) : bool :=
  match o with
  | [] => true
  | e :: o' => long_last (match o' with [] => false | _ => true end) e.2 && key_long_last o'
  end.

(** A packed key as its first element and the rest. *)
Lemma pack_all_split n v a p :
  KeyV1.pack_all ((n, v) :: a) = Some p →
  ∃ p1 p2 m, p = p1 ++ p2 ∧ KeyV1.pack m v = Some p1 ∧ m = match a with [] => false | _ => true end ∧
    (a ≠ [] → KeyV1.pack_all a = Some p2).
Proof.
  intros E. destruct a as [|e a]; [exists p, [], false; by rewrite app_nil_r|].
  destruct (pack_all_cons _ _ _ _ E) as (p1 & p2 & E1 & E2 & ->). by exists p1, p2, true.
Qed.

Lemma woCompare_from_ok order a b p q x y mask fuel :
  KeyV1.pack_all a = Some p → KeyV1.pack_all b = Some q → wf_with wf a = true → wf_with wf b = true →
  key_long_last a = true → key_long_last b = true → (length a ≤ fuel)%nat →
  ∃ c, KeyV1.woCompare_from fuel mask order (p ++ x) (q ++ y) = Some c ∧
    Z.sgn c = Z.sgn (Obj.wo_ord_from mask order false a b).
Proof.
  revert b p q mask fuel. induction a as [|[n v] a IH]; intros [|[n' w] b] p q mask fuel E F Wa Wb La Lb Hf; try done.
  cbn [wf_with key_long_last snd] in *. bool_facts. destruct fuel as [|fuel]; simpl in Hf; [lia|].
  destruct (pack_all_split _ _ _ _ E) as (p1 & p2 & m & -> & E1 & Em & E2).
  destruct (pack_all_split _ _ _ _ F) as (q1 & q2 & m' & -> & F1 & Fm & F2).
  clear E F. rewrite <- !(assoc_L app). cbn [KeyV1.woCompare_from Obj.wo_ord_from].
  destruct (pack_head _ _ _ (p2 ++ x) E1) as (hl & -> & Hl & Hl' & _); [done|].
  destruct (pack_head _ _ _ (q2 ++ y) F1) as (hr & -> & Hr & Hr' & _); [done|].
  destruct (compare_ok m m' v w p1 q1 (p2 ++ x) (q2 ++ y)) as (c & l & r & C1 & C2 & C3); [by subst..|].
  cbn [mbind option_bind]. rewrite C1. cbn [mbind option_bind]. unfold vcmp in C2.
  change (Element.woCompare ([], v) ([], w) false) with (Element.woCompare (n, v) (n', w) false) in C2.
  set (X := Element.woCompare _ _ _) in *.
  destruct (c =? 0) eqn:Ec; cbn [negb]; bool_facts.
  2:{ eexists. split; [done|]. destruct (Ordering.descending order mask).
      - destruct (- X =? 0) eqn:F; bool_facts; [lia|]. cbn [negb]. lia.
      - destruct (X =? 0) eqn:F; bool_facts; [lia|]. cbn [negb]. lia. }
  assert (X = 0) as -> by lia. destruct (C3 Ec) as [-> ->].
  replace (if Ordering.descending order mask then - 0 else 0) with 0 by (by destruct (Ordering.descending _ _)).
  cbn [Z.eqb negb]. rewrite Hl, Hl', Hr'. subst m m'.
  destruct a as [|e a], b as [|f b]; cbn [Z.sub Z.opp Z.add Z.pos_sub Z.eqb negb].
  - by exists 0.
  - by exists (-64).
  - by exists 64.
  - apply IH; auto. simpl in *; lia.
Qed.

Lemma lor_sentinel b : 0 ≤ b < 256 → Z.lor IsBSON b = IsBSON.
Proof.
  intros H. assert (forallb (λ b, Z.lor IsBSON b =? IsBSON) (seqZ 0 256) = true) as T by (by vm_compute).
  rewrite forallb_forall in T. apply Z.eqb_eq, T. apply list_elem_of_In, elem_of_seqZ. lia.
Qed.

Lemma lor_compact a b : 0 ≤ a < 128 → 0 ≤ b < 128 → Z.lor a b ≠ IsBSON.
Proof.
  intros Ha Hb E. apply (f_equal (λ z, Z.testbit z 7)) in E. rewrite Z.lor_spec in E.
  assert (∀ z, 0 ≤ z < 128 → Z.testbit z 7 = false) as T.
  { intros z Hz. apply Z.testbit_false; [lia|]. rewrite Z.div_small by (change (2 ^ 7) with 128; lia). done. }
  rewrite (T a Ha), (T b Hb) in E. discriminate E.
Qed.

Lemma key_head o r :
  wf_with wf o = true →
  ∃ b, head (KeyV1.KeyV1Owned o ++ r) = Some b ∧
    if bool_decide (is_Some (KeyV1.pack_all o)) then 0 ≤ b < 128 else b = IsBSON.
Proof.
  intros W. unfold KeyV1.KeyV1Owned. destruct (KeyV1.pack_all o) as [p|] eqn:E.
  - destruct (pack_all_head _ _ r E W) as (b & H & Hb). by exists b.
  - by exists IsBSON.
Qed.

(** Field names play no part at the top level. *)
Lemma wo_ord_strip mask order a b :
  Obj.wo_ord_from mask order false (strip_names a) b = Obj.wo_ord_from mask order false a b ∧
  Obj.wo_ord_from mask order false a (strip_names b) = Obj.wo_ord_from mask order false a b.
Proof.
  revert mask b. induction a as [|[n v] a IH]; intros mask [|[n' w] b]; try done.
  cbn [strip_names map Obj.wo_ord_from snd]. fold (strip_names a) (strip_names b).
  change (Element.woCompare ([], v) (n', w) false) with (Element.woCompare (n, v) (n', w) false).
  change (Element.woCompare (n, v) ([], w) false) with (Element.woCompare (n, v) (n', w) false).
  destruct (IH (u32 (Z.shiftl mask 1)) b) as [-> ->]. done.
Qed.

Lemma wo_ord_strip_if mask order (c d : bool) a b :
  Obj.wo_ord_from mask order false (if c then strip_names a else a) (if d then strip_names b else b) =
  Obj.wo_ord_from mask order false a b.
Proof. destruct c, d; rewrite ?(proj1 (wo_ord_strip _ _ _ _)), ?(proj2 (wo_ord_strip _ _ _ _)); done. Qed.

Lemma woCompare_ok a b x y order :
  wf_obj a = true → wf_obj b = true → key_long_last a = true → key_long_last b = true →
  ∃ c, KeyV1.woCompare (KeyV1.KeyV1Owned a ++ x) (KeyV1.KeyV1Owned b ++ y) order = Some c ∧
    Z.sgn c = Z.sgn (Obj.woCompare_ord a b order false).
Proof.
  intros Wa Wb La Lb. unfold KeyV1.woCompare, Obj.woCompare_ord.
  pose proof (wf_obj_with _ Wa) as Wa'. pose proof (wf_obj_with _ Wb) as Wb'.
  destruct (key_head a x Wa') as (ba & -> & Ha). destruct (key_head b y Wb') as (bb & -> & Hb).
  cbn [mbind option_bind].
  destruct (decide (is_Some (KeyV1.pack_all a) ∧ is_Some (KeyV1.pack_all b))) as [[[p Ea] [q Eb]]|N].
  - rewrite !bool_decide_eq_true_2 in Ha, Hb by (by eexists).
    destruct (_ =? IsBSON) eqn:E; bool_facts; [by apply lor_compact in E|].
    unfold KeyV1.KeyV1Owned. rewrite Ea, Eb. apply woCompare_from_ok; try done.
    pose proof (length_pack_all _ _ Ea Wa'). rewrite length_app. lia.
  - assert (Z.lor ba bb = IsBSON) as ->.
    { case_bool_decide; case_bool_decide; subst;
        first [tauto | done | apply lor_sentinel; lia | rewrite Z.lor_comm; apply lor_sentinel; lia]. }
    cbn [Z.eqb Pos.eqb]. unfold KeyV1.compareHybrid. rewrite !toBson_ok by done. cbn [mbind option_bind].
    eexists. split; [reflexivity|]. unfold Obj.woCompare_ord. by rewrite wo_ord_strip_if.
Qed.

(** C2: [KeyV1::woCompare] on packed keys, whether either is compact or kept as BSON and
    whatever follows them in memory, orders them exactly as [BSONObj::woCompare] orders the
    documents they were packed from, provided longs of magnitude 2^53 or more occur only as the
    last value. *)
Theorem keyv1_order a b x y order :
  wf_obj a = true → wf_obj b = true → key_long_last a = true → key_long_last b = true →
  ∃ c, KeyV1.woCompare (KeyV1.KeyV1Owned a ++ x) (KeyV1.KeyV1Owned b ++ y) order = Some c ∧
    Z.sgn c = Z.sgn (Obj.woCompare_ord a b order false).
Proof. apply woCompare_ok. Qed.

(** Without that proviso it does not: the test for a 64-bit integer looks at the whole type
    byte, so in a compound key the bits of a leading long are compared as if they were a double.
    Here {2^53, 0} is packed below {1.0, 0}. *)
Theorem keyv1_compound_long_misordered :
  let a := [([], BLong (2 ^ 53)); ([], BInt 0)] in
  let b := [([], BDouble (dbl_of_Z 1)); ([], BInt 0)] in
  Obj.woCompare_ord a b 0 false = 1 ∧
  KeyV1.woCompare (KeyV1.KeyV1Owned a) (KeyV1.KeyV1Owned b) 0 = Some (-1).
Proof. by vm_compute. Qed.

(** ** Equality of packed keys *)

Lemma memcmp_eqb l r : length l = length r → (memcmp l r =? 0) = bool_decide (l = r).
Proof.
  intros H. case_bool_decide as E.
  - subst. by rewrite memcmp_refl.
  - destruct (_ =? 0) eqn:F; [|done]. bool_facts. by apply memcmp_eq0 in F.
Qed.

Lemma compare_strings_eqb s t : (Element.compare_strings s t =? 0) = bool_decide (s = t).
Proof.
  unfold Element.compare_strings. case_bool_decide as E.
  - subst. rewrite memcmp_refl. cbn [Z.eqb]. by rewrite Z.sub_diag.
  - destruct (memcmp _ _ =? 0) eqn:F; [|done]. destruct (_ - _ =? 0) eqn:G; [|done]. bool_facts.
    apply memcmp_eq0 in F; [by simplify_list_eq|]. rewrite !length_app. simpl. lia.
Qed.

Lemma sub_eq_app k l r x y :
  length l = k → length r = k → KeyV1.sub_eq k (l ++ x) (r ++ y) = bool_decide (l = r).
Proof. intros. unfold KeyV1.sub_eq. by rewrite !take_app_length' by lia. Qed.

Lemma compare_doubles_eqb l r :
  dbl_isNaN l = false → (Element.compare_doubles l r =? 0) = dbl_eqb l r.
Proof.
  intros N. unfold Element.compare_doubles. rewrite N. unfold dbl_ltb, dbl_eqb. rewrite N.
  destruct (dbl_isNaN r); cbn [negb andb]; crush_cmp.
Qed.

Lemma sgn_eqb x y : Z.sgn x = Z.sgn y → (x =? 0) = (y =? 0).
Proof. intros. destruct (x =? 0) eqn:E, (y =? 0) eqn:F; bool_facts; lia. Qed.

Lemma le64_inj a b : in_s 64 a → in_s 64 b → le64 a = le64 b → a = b.
Proof.
  intros Ha Hb E. apply (f_equal (λ l, rd64 (l ++ []))) in E. rewrite !rd64_le64 in E. injection E as E.
  rewrite <- (i64_u64 a), <- (i64_u64 b) by done. by rewrite E.
Qed.

Lemma oid_parts (l r : list Z) x y :
  length l = 12%nat → length r = 12%nat →
  (if negb (KeyV1.sub_eq 4 (l ++ x) (r ++ y)) then Some None
   else if negb (KeyV1.sub_eq 8 (drop 4 (l ++ x)) (drop 4 (r ++ y))) then Some None
   else Some (Some (x, y))) =
  Some (if bool_decide (l = r) then Some (x, y) else None).
Proof.
  intros Hl Hr. rewrite <- (take_drop 4 l), <- (take_drop 4 r), <- !(assoc_L app).
  rewrite sub_eq_app by (rewrite length_take; lia).
  rewrite !drop_app_length' by (rewrite length_take; lia).
  rewrite sub_eq_app by (rewrite length_drop; lia).
  case_bool_decide as A; cbn [negb].
  - rewrite A. case_bool_decide as B; cbn [negb]; case_bool_decide as C; try done.
    + by rewrite B in C.
    + by apply app_inv_head in C.
  - case_bool_decide as C; [|done]. exfalso. apply A. apply app_inj_1 in C; [tauto|]. rewrite !length_take. lia.
Qed.

Lemma equal_bindata_ok t d u e code code' L R (x y : list Z) :
  binDataCodeToLength L = Some (Z.of_nat (length d)) → unpack_subtype (pack_subtype t) = t →
  BinDataLengthToCode !! length d = Some code → L = code + pack_subtype t →
  binDataCodeToLength R = Some (Z.of_nat (length e)) → unpack_subtype (pack_subtype u) = u →
  BinDataLengthToCode !! length e = Some code' → R = code' + pack_subtype u →
  (if negb (L =? R) then Some None
   else n ← binDataCodeToLength L;
        let len := Z.to_nat (n + 1) in
        if negb (memcmp (take len (L :: d ++ x)) (take len (R :: e ++ y)) =? 0) then Some None
        else Some (Some (drop len (L :: d ++ x), drop len (R :: e ++ y)))) =
  Some (if Element.compareElementValues (BBinData t d) (BBinData u e) =? 0 then Some (x, y) else None).
Proof.
  intros L1 L3 L4 L5 R1 R3 R4 R5. cbn [Element.compareElementValues].
  destruct (decide (length d = length e)) as [El|Nl].
  - assert (code = code') as <- by congruence. rewrite El, Z.sub_diag in *. cbn [Z.eqb negb memcmp].
    destruct (decide (t = u)) as [->|Nt].
    + assert (L = R) as -> by congruence. rewrite !Z.eqb_refl. cbn [negb]. rewrite R1. cbn [mbind option_bind].
      replace (Z.to_nat _) with (S (length e)) by lia. cbn [take drop memcmp].
      rewrite Z.eqb_refl, !take_app_length', !drop_app_length' by lia. by destruct (memcmp d e =? 0).
    + destruct (L =? R) eqn:D; bool_facts.
      * assert (pack_subtype t = pack_subtype u) by lia. congruence.
      * cbn [negb]. by destruct (t =? u) eqn:T, (t <? u); bool_facts.
  - destruct (Z.of_nat (length d) - Z.of_nat (length e) =? 0) eqn:Q; cbn [negb]; bool_facts; [lia|].
    destruct (L =? R) eqn:D; bool_facts; cbn [negb].
    + rewrite D, R1 in L1. injection L1. lia.
    + destruct (_ =? 0) eqn:Q'; bool_facts; [lia|done].
Qed.

(** One element with equal nibbles: [Some (Some _)] exactly for equal values. *)
Definition equal_elem_spec (v w : bval) (p q x y : list Z) : Prop :=
  KeyV1.equal_elem (ptype v) (tail (p ++ x)) (tail (q ++ y)) =
  Some (if vcmp v w =? 0 then Some (x, y) else None).

Lemma equal_number_ok m v w p q x y :
  KeyV1.pack m v = Some p → KeyV1.pack m w = Some q → wf v = true → wf w = true →
  is_big v = false → is_big w = false → Element.isNumber v = true → Element.isNumber w = true →
  equal_elem_spec v w p q x y.
Proof.
  intros E F Wv Ww Bv Bw Nv Nw.
  assert (∀ v, is_big v = false → long_last m v = true) as LL.
  { intros [] B; try done. cbn [is_big long_last] in *. by rewrite B, andb_false_r. }
  destruct (pack_number _ _ _ x E Wv Nv (LL _ Bv)) as (b & -> & B1 & B2 & B3 & B4 & B5).
  destruct (pack_number _ _ _ y F Ww Nw (LL _ Bw)) as (b' & -> & C1 & C2 & C3 & C4 & C5).
  unfold equal_elem_spec, KeyV1.equal_elem. cbn [app tail].
  assert (ptype v = cdouble) as -> by (by destruct v). eval_nibble.
  rewrite B3, C3, !drop_le64. cbn [mbind option_bind].
  unfold KeyV1.packed_double in B4, C4. rewrite B1, Bv in B4. rewrite C1, Bw in C4. rewrite B4, C4.
  rewrite vcmp_same by (by rewrite !canonical_number).
  rewrite <- (sgn_eqb _ _ (compare_numbers v w Wv Ww Nv Nw ltac:(by rewrite Bv))), compare_doubles_eqb by done.
  by destruct (dbl_eqb _ _).
Qed.

Lemma equal_elem_ok m v w p q x y :
  KeyV1.pack m v = Some p → KeyV1.pack m w = Some q → wf v = true → wf w = true →
  is_big v = false → is_big w = false → ptype v = ptype w → equal_elem_spec v w p q x y.
Proof.
  intros E F Wv Ww Bv Bw P.
  destruct (Element.isNumber v) eqn:Nv.
  { assert (Element.isNumber w = true) as Nw.
    { destruct v; try discriminate Nv; destruct w; try discriminate F; try discriminate P; try done; by destruct b. }
    by eapply equal_number_ok. }
  destruct v; try discriminate E; try discriminate Nv; destruct w; try discriminate F; try discriminate P;
    try (destruct b; discriminate P); unfold equal_elem_spec; rewrite vcmp_same by done; cbn [wf] in *; bool_facts.
  3:{ destruct (pack_bindata _ _ _ _ E) as (code & L & -> & L1 & _ & L3 & L4 & L5); [done|].
      destruct (pack_bindata _ _ _ _ F) as (code' & R & -> & R1 & _ & R3 & R4 & R5); [done|].
      cbn [ptype app tail]. unfold KeyV1.equal_elem. eval_nibble. cbn [head mbind option_bind].
      by eapply equal_bindata_ok. }
  all: cbn [KeyV1.pack] in E, F; unfold KeyV1.equal_elem.
  - simplify_eq. by destruct m.
  - destruct (255 <? Z.of_nat (length s)); [done|]. destruct (255 <? Z.of_nat (length s0)); [done|]. simplify_eq.
    cbn [ptype app tail]. eval_nibble. cbn [head mbind option_bind Element.compareElementValues].
    rewrite compare_strings_eqb. destruct (decide (length s = length s0)) as [El|Nl].
    + rewrite El, Z.eqb_refl. cbn [negb]. replace (Z.to_nat _) with (S (length s0)) by lia. cbn [take drop memcmp].
      rewrite Z.eqb_refl, !take_app_length', !drop_app_length', memcmp_eqb by lia.
      by case_bool_decide.
    + rewrite bool_decide_eq_false_2 by congruence.
      destruct (_ =? _) eqn:D; bool_facts; [lia|done].
  - simplify_eq. cbn [ptype app tail]. eval_nibble. cbn [Element.compareElementValues]. rewrite memcmp_eqb by lia.
    replace (drop 12 (oid ++ x)) with x by (symmetry; apply drop_app_length'; lia).
    replace (drop 12 (oid0 ++ y)) with y by (symmetry; apply drop_app_length'; lia). by apply oid_parts.
  - simplify_eq. destruct b, b0; try discriminate P; by destruct m.
  - simplify_eq. cbn [ptype app tail]. eval_nibble. rewrite sub_eq_app, !drop_le64 by apply length_le64.
    cbn [Element.compareElementValues].
    assert (in_s 64 millis ∧ in_s 64 millis0) as [I1 I2] by (unfold in_s; change (2 ^ (64 - 1)) with (2 ^ 63); lia).
    case_bool_decide as D; cbn [negb].
    + apply le64_inj in D; [|done..]. subst. unfold Element.compare_ints. by rewrite Z.ltb_irrefl, Z.eqb_refl.
    + destruct (Element.compare_ints millis millis0 =? 0) eqn:C; [|done]. bool_facts. exfalso. apply D.
      unfold Element.compare_ints in C. destruct (_ <? _); [done|]. destruct (_ =? _) eqn:G; [|done]. bool_facts. by subst.
  - simplify_eq. by destruct m.
  - simplify_eq. by destruct m.
Qed.

Lemma tag_mask b :
  0 ≤ b < 128 → Z.land b (Z.lor cCANONTYPEMASK cHASMORE) = Z.land b cCANONTYPEMASK + Z.land b cHASMORE ∧
  0 ≤ Z.land b cCANONTYPEMASK < 64.
Proof.
  intros H.
  assert (forallb (λ b, (Z.land b (Z.lor cCANONTYPEMASK cHASMORE) =? Z.land b cCANONTYPEMASK + Z.land b cHASMORE) &&
    (0 <=? Z.land b cCANONTYPEMASK) && (Z.land b cCANONTYPEMASK <? 64)) (seqZ 0 128) = true) as T by (by vm_compute).
  rewrite forallb_forall in T. 
  specialize (T b ltac:(apply list_elem_of_In, elem_of_seqZ; lia)). bool_facts. lia.
Qed.

Definition no_big (o : bobj) : bool := forallb (λ e, negb (is_big e.2)) o.

Lemma pack_tag more v p r :
  KeyV1.pack more v = Some p → wf v = true →
  ∃ b, head (p ++ r) = Some b ∧ (Z.land b cHASMORE =? 0) = negb more ∧ Z.land b cCANONTYPEMASK = ptype v ∧
    Z.land b (Z.lor cCANONTYPEMASK cHASMORE) = ptype v + (if more then 64 else 0) ∧ 0 ≤ ptype v < 64.
Proof.
  intros E W. destruct (pack_head _ _ _ r E W) as (b & H1 & H2 & H3 & H4).
  destruct (pack_type _ _ _ r E W) as (b' & H1' & T). rewrite H1 in H1'. simplify_eq.
  exists b'. destruct (tag_mask b' H4) as [M1 M2]. rewrite M1, H3, T in *. done.
Qed.

Lemma woEqual_from_ok a b p q x y fuel :
  KeyV1.pack_all a = Some p → KeyV1.pack_all b = Some q → wf_with wf a = true → wf_with wf b = true →
  no_big a = true → no_big b = true → (length a ≤ fuel)%nat →
  ∀ mask, KeyV1.woEqual_from fuel (p ++ x) (q ++ y) = Some (Obj.wo_ord_from mask 0 false a b =? 0).
Proof.
  revert b p q fuel. induction a as [|[n v] a IH]; intros [|[n' w] b] p q fuel E F Wa Wb Na Nb Hf mask; try done.
  cbn [wf_with no_big forallb snd] in *. fold (no_big a) (no_big b) in *. bool_facts.
  destruct fuel as [|fuel]; simpl in Hf; [lia|].
  destruct (pack_all_split _ _ _ _ E) as (p1 & p2 & m & -> & E1 & Em & E2).
  destruct (pack_all_split _ _ _ _ F) as (q1 & q2 & m' & -> & F1 & Fm & F2).
  rewrite <- !(assoc_L app). cbn [KeyV1.woEqual_from Obj.wo_ord_from].
  destruct (pack_tag _ _ _ (p2 ++ x) E1) as (hl & -> & Hl & Tl & Ml & Rl); [done|].
  destruct (pack_tag _ _ _ (q2 ++ y) F1) as (hr & -> & Hr & Tr & Mr & Rr); [done|].
  cbn [mbind option_bind]. rewrite Ml, Mr, Tl, Hl. unfold Ordering.descending. rewrite Z.land_0_l. cbn [Z.eqb negb].
  change (Element.woCompare (n, v) (n', w) false) with (vcmp v w).
  destruct (decide (ptype v = ptype w)) as [P|P].
  2:{ pose proof (ptype_order _ _ _ _ _ _ E1 F1 P) as O.
      destruct (vcmp v w =? 0) eqn:V; bool_facts; [rewrite V in O; simpl in O; lia|]. cbn [negb]. rewrite (proj2 (Z.eqb_neq _ _) V).
      rewrite (proj2 (Z.eqb_neq (ptype v + _) _)); [done|]. destruct m, m'; lia. }
  destruct (decide (m = m')) as [M|M].
  - rewrite P, M, Z.eqb_refl. cbn [negb]. rewrite <- P, <- M.
    assert (equal_elem_spec v w p1 q1 (p2 ++ x) (q2 ++ y)) as S
      by (apply (equal_elem_ok m); first [done | by rewrite M]).
    unfold equal_elem_spec in S. rewrite S. cbn [mbind option_bind].
    destruct (vcmp v w =? 0) eqn:V; cbn [negb]; [|by rewrite V]. rewrite M, Fm in Em. subst m m'.
    destruct a as [|e a], b as [|f b]; try discriminate Em; [done|]. apply IH; auto. simpl in *. lia.
  - rewrite (proj2 (Z.eqb_neq (ptype v + _) _)) by (destruct m, m'; congruence || lia). cbn [negb].
    destruct (vcmp v w =? 0) eqn:V; cbn [negb]; [|by rewrite V]. subst m m'.
    destruct a as [|e a], b as [|f b]; done.
Qed.

(** On compact keys without longs of magnitude 2^53 or more, [woEqual] holds exactly when the
    documents compare equal. *)
Theorem keyv1_woEqual a b x y :
  wf_with wf a = true → wf_with wf b = true → no_big a = true → no_big b = true →
  is_Some (KeyV1.pack_all a) → is_Some (KeyV1.pack_all b) →
  KeyV1.woEqual (KeyV1.KeyV1Owned a ++ x) (KeyV1.KeyV1Owned b ++ y) =
  Some (Obj.woCompare_ord a b 0 false =? 0).
Proof.
  intros Wa Wb Na Nb [p Ea] [q Eb]. unfold KeyV1.woEqual, KeyV1.KeyV1Owned. rewrite Ea, Eb.
  destruct (pack_all_head _ _ x Ea Wa) as (ba & -> & Ha). destruct (pack_all_head _ _ y Eb Wb) as (bb & -> & Hb).
  cbn [mbind option_bind]. destruct (_ =? IsBSON) eqn:E; bool_facts; [by apply lor_compact in E|].
  apply woEqual_from_ok; try done. pose proof (length_pack_all _ _ Ea Wa). rewrite length_app. lia.
Qed.

(** With such a long it can hold of different numbers: the bits of the integer are compared
    as a double, so the long 0x4014000000000000 "equals" 5. *)
Theorem keyv1_woEqual_long_confused :
  let a := [([], BLong 0x4014000000000000)] in
  let b := [([], BInt 5)] in
  Obj.woCompare_ord a b 0 false = 1 ∧
  KeyV1.woEqual (KeyV1.KeyV1Owned a) (KeyV1.KeyV1Owned b) = Some true.
Proof. by vm_compute. Qed.

(** ** Keys with a primary key *)

(** The parts of a [Key] can be recovered: [key()] the values, [pk()] the primary key (or
    the empty document), and the constructor from memory finds the size of the whole. *)
Theorem key_parts k pk r :
  wf_obj k = true → (∀ o, pk = Some o → wf_obj o = true) →
  Key.key (Key.make k pk) =
    Some (if bool_decide (is_Some (KeyV1.pack_all k)) then strip_names k else k) ∧
  Key.pk (Key.make k pk) = Some (default [] pk) ∧
  Key.size_at (Key.make k pk ++ r) (bool_decide (is_Some pk)) = Some (Z.of_nat (length (Key.make k pk))).
Proof.
  intros Wk Wp. unfold Key.key, Key.pk, Key.size_at, Key.make. split; [by apply toBson_ok|].
  rewrite <- (assoc_L app), !dataSize_ok by done. cbn [mbind option_bind]. rewrite Nat2Z.id, !drop_app_length.
  destruct pk as [o|]; [change (default [] (Some o)) with o|cbn [default]].
  - pose proof (length_obj_bytes o). specialize (Wp o eq_refl). rewrite bool_decide_eq_true_2 by (by eexists). split.
    + rewrite (proj2 (Z.ltb_lt _ _)) by (rewrite length_app; lia).
      apply read_obj_exact; [done|]. rewrite length_app. lia.
    + rewrite rd32_obj by (by apply wf_obj_size). cbn [mbind option_bind].
      rewrite objsize_valid by (by apply wf_obj_size). f_equal. rewrite length_app. lia.
  - rewrite app_nil_r, Z.ltb_irrefl. done.
Qed.

Lemma key_compare_parts k1 k2 pk1 pk2 order :
  wf_obj k1 = true → wf_obj k2 = true → wf_obj pk1 = true → wf_obj pk2 = true →
  key_long_last k1 = true → key_long_last k2 = true →
  Key.woCompare (Key.make k1 (Some pk1)) (Key.make k2 (Some pk2)) order =
  Some (lexi (Obj.woCompare_ord k1 k2 order false) (Z.sgn (Obj.woCompare_ord pk1 pk2 0 true))).
Proof.
  intros W1 W2 P1 P2 L1 L2. unfold Key.woCompare, Key.make.
  destruct (woCompare_ok k1 k2 (obj_bytes pk1) (obj_bytes pk2) order W1 W2 L1 L2) as (c & -> & S).
  cbn [mbind option_bind]. unfold lexi.
  destruct (c <? 0) eqn:C1; bool_facts; [rewrite (proj2 (Z.eqb_neq _ _)) by lia; f_equal; lia|].
  destruct (0 <? c) eqn:C2; bool_facts; [rewrite (proj2 (Z.eqb_neq _ _)) by lia; f_equal; lia|].
  rewrite (proj2 (Z.eqb_eq _ _)) by lia. rewrite !dataSize_ok by done. cbn [mbind option_bind].
  pose proof (length_obj_bytes pk1). pose proof (length_obj_bytes pk2).
  rewrite !length_app, (proj2 (Z.ltb_lt 0 _)), (proj2 (Z.ltb_lt 0 _)) by lia. cbn [andb].
  rewrite !Nat2Z.id, !drop_app_length.
  rewrite !read_obj_exact by (try done; lia). cbn [mbind option_bind].
  destruct (_ <? 0) eqn:D1; bool_facts; [f_equal; lia|]. destruct (0 <? _) eqn:D2; bool_facts; f_equal; lia.
Qed.

(** C20: entries of a secondary index are ordered by their key values under the index's ordering
    and then by the primary key, ascending; so distinct documents with equal index keys are
    adjacent and kept apart.  As for the order of packed keys, longs of magnitude 2^53 or more occur
    only as the last value of an index key ([key_long_last] on both). *)
Theorem key_order k1 k2 pk1 pk2 order :
  wf_obj k1 = true → wf_obj k2 = true → wf_obj pk1 = true → wf_obj pk2 = true →
  key_long_last k1 = true → key_long_last k2 = true →
  Key.woCompare (Key.make k1 (Some pk1)) (Key.make k2 (Some pk2)) order =
  Some (lexi (Obj.woCompare_ord k1 k2 order false) (Z.sgn (Obj.woCompare_ord pk1 pk2 0 true))).
Proof. apply key_compare_parts. Qed.

Module KeyExample.

(** {: "ab", : -3, : true} and {: "ab", : 7.5, : BinData(0x80, 01 02 03)} *)
Definition k1 : bobj := [([97], BString [97; 98]); ([98], BInt (-3)); ([99], BBool true)].
Definition k2 : bobj :=
  [([97], BString [97; 98]); ([98], BDouble 0x401E000000000000); ([99], BBinData 128 [1; 2; 3])].
Definition pk1 : bobj := [([95; 105; 100], BLong 12)].

Lemma keyv1_roundtrip_witness :
  KeyV1.toBson (KeyV1.KeyV1Owned k2 ++ [1; 2]) = Some (strip_names k2).
Proof. rewrite keyv1_roundtrip by (by vm_compute). by vm_compute. Defined.

Lemma keyv1_dataSize_witness : KeyV1.dataSize (KeyV1.KeyV1Owned k2 ++ [1; 2]) = Some 18.
Proof. rewrite keyv1_dataSize by (by vm_compute). by vm_compute. Defined.

Lemma keyv1_order_witness :
  ∃ c, KeyV1.woCompare (KeyV1.KeyV1Owned k1 ++ [1]) (KeyV1.KeyV1Owned k2 ++ []) 2 = Some c ∧ Z.sgn c = 1.
Proof.
  destruct (keyv1_order k1 k2 [1] [] 2) as (c & H1 & H2); [by vm_compute..|].
  exists c. split; [exact H1|]. rewrite H2. by vm_compute.
Defined.

Lemma keyv1_woEqual_witness :
  KeyV1.woEqual (KeyV1.KeyV1Owned k1 ++ []) (KeyV1.KeyV1Owned k2 ++ []) = Some false.
Proof.
  rewrite (keyv1_woEqual k1 k2); [by vm_compute..| |]; by eexists.
Defined.

Lemma key_parts_witness : Key.pk (Key.make k1 (Some pk1)) = Some pk1.
Proof.
  destruct (key_parts k1 (Some pk1) []) as (_ & H & _); [by vm_compute|intros o [= <-]; by vm_compute|exact H].
Defined.

Lemma key_order_witness : Key.woCompare (Key.make k1 (Some pk1)) (Key.make k1 (Some [])) 0 = Some 1.
Proof. rewrite (key_order k1 k1 pk1 [] 0) by (by vm_compute). by vm_compute. Defined.

End KeyExample.
