(* ===== verification/BsonValidate.v ===== *)
(** * Validation of untrusted BSON

    Models bson/bson_validate.cpp: the [Buffer] of unsigned 64-bit positions, the frames of
    nested documents, [validateElementInfo] and the state machine of [validateBSONIterative], as
    a step function on explicit states.  Memory is a function from offsets to bytes, so that it
    can be said which bytes are looked at.

    The theorems: every well-formed document is accepted, in no more steps than it has bytes;
    an accepted buffer really holds as many bytes as its size field says; nothing outside the
    buffer is read, whatever the bytes are.  A negative length in the input moves the position
    backwards: two theorems show a buffer accepted that is not BSON and one on which the loop
    does not end. *)

From S2P Require Import Prelude Double Bson.
#[local] Open Scope Z_scope.

(** The messages of the [Status] values. *)
Inductive verror : Type :=
| InvalidBson
| NoEndOfCString
| NotNullTerminated
| InvalidType
| SizeLargerThanBuffer
| LengthMismatch
| InvalidCodeWScopeSize
| CodeWScopeLengthMismatch
| UnnestedCodeWScope
| TooShort.

Definition memory : Type := Z → Z.

Module Buffer.
Section Buffer.
Context (mem : memory) (maxLength : Z).

(** [readNumber<N>]: the bytes read, and the new position. *)
Definition readNumber (n : nat) (pos : Z) : option (list Z * Z) :=
  if maxLength <? u64 (pos + Z.of_nat n) then None
  else Some (map (λ i, mem (pos + Z.of_nat i)) (seq 0 n), u64 (pos + Z.of_nat n)).

Definition readInt (pos : Z) : option (Z * Z) :=
  '(b, pos) ← readNumber 4 pos; Some (i32 (le_val b), pos).

(** [memchr(p, 0, n)]: the offset of the first zero byte. *)
Fixpoint memchr0 (n : nat) (p : Z) : option Z :=
  match n with
  | O => None
  | S n' => if mem p =? 0 then Some p else memchr0 n' (p + 1)
  end.

Definition readCString (pos : Z) : result verror Z :=
  match memchr0 (Z.to_nat (u64 (maxLength - pos))) pos with
  | None => Err NoEndOfCString
  | Some x => Ok (u64 (pos + ((x - pos) + 1)))
  end.

(** [skip]: the position moves even when the result is false. *)
Definition skip (sz pos : Z) : bool * Z :=
  let pos := u64 (pos + u64 sz) in (pos <? maxLength, pos).

Definition skip_or (e : verror) (sz pos : Z) : result verror Z :=
  let '(ok, pos) := skip sz pos in if (ok : bool) then Ok pos else Err e.

Definition readUTF8String (pos : Z) : result verror Z :=
  match readInt pos with
  | None => Err InvalidBson
  | Some (sz, pos) =>
      pos <-? skip_or InvalidBson (i32 (sz - 1)) pos ;;
      match readNumber 1 pos with
      | None => Err InvalidBson
      | Some (c, pos) => if bool_decide (c = [0]) then Ok pos else Err NotNullTerminated
      end
  end.

End Buffer.
End Buffer.

Module ValidationState.
Inductive State : Type := BeginObj | WithinObj | EndObj | BeginCodeWScope | EndCodeWScope | Done.
End ValidationState.

(** A frame packs the flag into the top bit of the start position. *)
Record ValidationObjectFrame : Type := mkFrame { expectedSize : Z; _startPosition : Z }.

Module Frame.
Definition top : Z := 2 ^ 31.
Definition startPosition (f : ValidationObjectFrame) : Z := Z.land (_startPosition f) (top - 1).
Definition isCodeWithScope (f : ValidationObjectFrame) : bool := negb (Z.land (_startPosition f) top =? 0).

(** [setStartPosition] and [setIsCodeWithScope] on a new frame. *)
Definition setStartPosition (pos : Z) (f : ValidationObjectFrame) : ValidationObjectFrame :=
  mkFrame (expectedSize f) (Z.lor (Z.land (_startPosition f) top) (Z.land (u32 pos) (top - 1))).
Definition setIsCodeWithScope (b : bool) (f : ValidationObjectFrame) : ValidationObjectFrame :=
  mkFrame (expectedSize f)
    (if b then Z.lor (_startPosition f) top else Z.land (_startPosition f) (top - 1)).
Definition setExpectedSize (n : Z) (f : ValidationObjectFrame) : ValidationObjectFrame :=
  mkFrame n (_startPosition f).

Definition push (pos : Z) (cws : bool) : ValidationObjectFrame :=
  setIsCodeWithScope cws (setStartPosition pos (mkFrame 0 0)).
End Frame.

(** The loop state: the current frame is the top of the stack. *)
Record vstate : Type := mkV { v_state : ValidationState.State; v_frames : list ValidationObjectFrame; v_pos : Z }.

Section Validate.
Import ValidationState.
Context (mem : memory) (maxLength : Z).

(** [validateElementInfo]: the next state, if it changes, and the new position. *)
Definition validateElementInfo (pos : Z) : result verror (option State * Z) :=
  let stay (r : result verror Z) := pos <-? r ;; Ok (None, pos) in
  match Buffer.readNumber mem maxLength 1 pos with
  | None => Err InvalidBson
  | Some (t, pos) =>
      let type := le_val t in
      if type =? 0 then Ok (Some EndObj, pos)
      else
        pos <-? Buffer.readCString mem maxLength pos ;;
        if (type =? 255) || (type =? 127) || (type =? 10) || (type =? 6) then Ok (None, pos)
        else if type =? 7 then stay (Buffer.skip_or maxLength InvalidBson 12 pos)
        else if type =? 16 then stay (Buffer.skip_or maxLength InvalidBson 4 pos)
        else if type =? 8 then stay (Buffer.skip_or maxLength InvalidBson 1 pos)
        else if (type =? 1) || (type =? 18) || (type =? 17) || (type =? 9) then
          stay (Buffer.skip_or maxLength InvalidBson 8 pos)
        else if type =? 12 then
          pos <-? Buffer.readUTF8String mem maxLength pos ;;
          Ok (None, (Buffer.skip maxLength 12 pos).2)
        else if type =? 11 then
          pos <-? Buffer.readCString mem maxLength pos ;;
          stay (Buffer.readCString mem maxLength pos)
        else if (type =? 13) || (type =? 14) || (type =? 2) then
          stay (Buffer.readUTF8String mem maxLength pos)
        else if type =? 5 then
          match Buffer.readInt mem maxLength pos with
          | None => Err InvalidBson
          | Some (sz, pos) => stay (Buffer.skip_or maxLength InvalidBson (i32 (1 + sz)) pos)
          end
        else if type =? 15 then Ok (Some BeginCodeWScope, pos)
        else if (type =? 3) || (type =? 4) then Ok (Some BeginObj, pos)
        else Err InvalidType
  end.

Definition within (frames : list ValidationObjectFrame) (pos : Z) : result verror vstate :=
  match validateElementInfo pos with
  | Ok (next, pos) => Ok (mkV (default WithinObj next) frames pos)
  | Err e => Err e
  end.

(** One turn of the loop of [validateBSONIterative]. *)
Definition vstep (s : vstate) : result verror vstate :=
  let pos := v_pos s in
  match v_state s with
  | BeginObj =>
      let f := Frame.push pos false in
      match Buffer.readInt mem maxLength pos with
      | None => Err SizeLargerThanBuffer
      | Some (sz, pos) => within (Frame.setExpectedSize sz f :: v_frames s) pos
      end
  | WithinObj => within (v_frames s) pos
  | EndObj =>
      match v_frames s with
      | [] => Ok s
      | curr :: frames =>
          if negb (i32 (u64 (pos - Frame.startPosition curr)) =? expectedSize curr) then Err LengthMismatch
          else
            match frames with
            | [] => Ok (mkV Done [] pos)
            | parent :: _ =>
                Ok (mkV (if Frame.isCodeWithScope parent then EndCodeWScope else WithinObj) frames pos)
            end
      end
  | BeginCodeWScope =>
      let f := Frame.push pos true in
      match Buffer.readInt mem maxLength pos with
      | None => Err InvalidCodeWScopeSize
      | Some (sz, pos) =>
          pos <-? Buffer.readUTF8String mem maxLength pos ;;
          Ok (mkV BeginObj (Frame.setExpectedSize sz f :: v_frames s) pos)
      end
  | EndCodeWScope =>
      match v_frames s with
      | [] => Ok s
      | curr :: frames =>
          if negb (i32 (u64 (pos - Frame.startPosition curr)) =? expectedSize curr) then
            Err CodeWScopeLengthMismatch
          else
            match frames with
            | [] => Err UnnestedCodeWScope
            | _ => Ok (mkV WithinObj frames pos)
            end
      end
  | Done => Ok s
  end.

(** The loop; [None] is still running when the fuel is used up. *)
Fixpoint vrun (fuel : nat) (s : vstate) : option (result verror Z) :=
  match v_state s with
  | Done => Some (Ok (v_pos s))
  | _ =>
      match fuel with
      | O => None
      | S f => match vstep s with Ok s' => vrun f s' | Err e => Some (Err e) end
      end
  end.

Definition vstart : vstate := mkV BeginObj [] 0.

(** [validateBSON]; the [Ok] carries the final position. *)
Definition validateBSON (fuel : nat) : option (result verror Z) :=
  if maxLength <? 5 then Some (Err TooShort) else vrun fuel vstart.

End Validate.

(** ** Reading what is there *)

Definition holds (mem : memory) (p : Z) (l : list Z) : Prop := ∀ i b, l !! i = Some b → mem (p + Z.of_nat i) = b.

(** A buffer in memory; bytes beyond it are 0. *)
Definition mem_of (l : list Z) : memory := λ i, nth (Z.to_nat i) l 0.

Lemma holds_app mem p l r : holds mem p (l ++ r) ↔ holds mem p l ∧ holds mem (p + Z.of_nat (length l)) r.
Proof.
  unfold holds. split.
  - intros H. split; intros i b E.
    + apply H. by apply lookup_app_l_Some.
    + replace (_ + _ + _) with (p + Z.of_nat (length l + i)) by lia. apply H. rewrite lookup_app_r by lia.
      by replace (length l + i - length l)%nat with i by lia.
  - intros [H1 H2] i b [E|[L E]]%lookup_app_Some; [by apply H1|].
    specialize (H2 _ _ E). rewrite <- H2. f_equal. lia.
Qed.

Lemma holds_cons mem p a l : holds mem p (a :: l) ↔ mem p = a ∧ holds mem (p + 1) l.
Proof.
  change (a :: l) with ([a] ++ l). rewrite holds_app. simpl length. split; intros [H1 H2]; split; try done.
  - specialize (H1 0%nat a eq_refl). by rewrite Z.add_0_r in H1.
  - intros [|i] b E; simplify_eq/=. by rewrite Z.add_0_r.
Qed.

Lemma holds_mem_of l r : holds (mem_of (l ++ r)) 0 l.
Proof.
  intros i b E. unfold mem_of. rewrite Z.add_0_l, Nat2Z.id. apply nth_lookup_Some.
  by apply lookup_app_l_Some.
Qed.

Lemma u64_small x : 0 ≤ x < 2 ^ 63 → u64 x = x.
Proof. intros. apply wrapU_id. unfold in_u. lia. Qed.

Section Reads.
Context (mem : memory) (maxLength : Z).
Context (Hmax : 0 ≤ maxLength < 2 ^ 31).

Lemma readNumber_ok n p l :
  holds mem p l → length l = n → 0 ≤ p → p + Z.of_nat n ≤ maxLength →
  Buffer.readNumber mem maxLength n p = Some (l, p + Z.of_nat n).
Proof.
  intros H L Hp Hm. unfold Buffer.readNumber. rewrite u64_small by lia.
  destruct (_ <? _) eqn:E; bool_facts; [lia|]. do 2 f_equal. subst n.
  apply list_eq. intros i. destruct (decide (i < length l)%nat) as [Hi|Hi].
  - destruct (lookup_lt_is_Some_2 l i Hi) as [b Hb]. rewrite Hb, list_lookup_fmap, lookup_seq_lt by done.
    simpl. f_equal. by apply H.
  - rewrite !lookup_ge_None_2; [done|lia|]. rewrite length_fmap, length_seq. lia.
Qed.

Lemma readInt_ok n p :
  holds mem p (le32 n) → in_s 32 n → 0 ≤ p → p + 4 ≤ maxLength →
  Buffer.readInt mem maxLength p = Some (n, p + 4).
Proof.
  intros H Hn Hp Hm. unfold Buffer.readInt. rewrite (readNumber_ok 4 p (le32 n)) by (done || apply length_le32 || lia).
  cbn [mbind option_bind]. unfold le32. rewrite le_val_bytes_u by (apply (wrapU_range 32); lia).
  by rewrite i32_u32.
Qed.

Lemma memchr0_ok s p n :
  holds mem p (s ++ [0]) → forallb byte0 s = true → (length s < n)%nat →
  Buffer.memchr0 mem n p = Some (p + Z.of_nat (length s)).
Proof.
  revert p n. induction s as [|b s IH]; intros p n H B L; (destruct n as [|n]; simpl in L; [lia|]); cbn [Buffer.memchr0].
  - cbn [app] in H. apply holds_cons in H as [-> _]. cbn [Z.eqb]. f_equal. simpl. lia.
  - apply byte0_cons in B as [E B]. cbn [app] in H. apply holds_cons in H as [-> H]. rewrite E.
    rewrite (IH (p + 1) n) by (done || lia). f_equal. simpl length. lia.
Qed.

Lemma readCString_ok s p :
  holds mem p (s ++ [0]) → forallb byte0 s = true → 0 ≤ p → p + Z.of_nat (length s) + 1 ≤ maxLength →
  Buffer.readCString mem maxLength p = Ok (p + Z.of_nat (length s) + 1).
Proof.
  intros H B Hp Hm. unfold Buffer.readCString. rewrite (u64_small (maxLength - p)) by lia.
  rewrite (memchr0_ok s) by (done || lia). f_equal. rewrite u64_small; lia.
Qed.

Lemma skip_or_ok e sz p :
  0 ≤ sz → 0 ≤ p → p + sz < maxLength → Buffer.skip_or maxLength e sz p = Ok (p + sz).
Proof.
  intros. unfold Buffer.skip_or, Buffer.skip. rewrite (u64_small sz), u64_small by lia.
  destruct (_ <? _) eqn:E; bool_facts; [done|lia].
Qed.

Lemma readUTF8String_ok s p :
  holds mem p (le32 (Z.of_nat (length s) + 1) ++ s ++ [0]) → 0 ≤ p →
  p + 4 + Z.of_nat (length s) + 1 ≤ maxLength →
  Buffer.readUTF8String mem maxLength p = Ok (p + 4 + Z.of_nat (length s) + 1).
Proof.
  intros H Hp Hm. apply holds_app in H as [H1 H2]. rewrite length_le32 in H2. apply holds_app in H2 as [_ H2].
  change (Z.of_nat 4) with 4 in H2.
  assert (in_s 32 (Z.of_nat (length s) + 1)) as I by in32.
  unfold Buffer.readUTF8String. rewrite (readInt_ok (Z.of_nat (length s) + 1)) by (done || lia).
  rewrite wrapS_id by (lia || in32).
  replace (_ + 1 - 1) with (Z.of_nat (length s)) by lia. rewrite skip_or_ok by lia. cbn [result_bind].
  rewrite (readNumber_ok 1 _ [0]) by (done || lia). by rewrite bool_decide_eq_true_2.
Qed.
End Reads.

(** ** Elements *)

Section Elements.
Context (mem : memory) (maxLength : Z).
Context (Hmax : 0 ≤ maxLength < 2 ^ 31).

(** Type byte and name. *)
Definition after_name (n : list Z) (v : bval) (p : Z) : Prop :=
  Buffer.readNumber mem maxLength 1 p = Some ([type_byte v], p + 1) ∧
  Buffer.readCString mem maxLength (p + 1) = Ok (p + Z.of_nat (length n) + 2) ∧
  holds mem (p + Z.of_nat (length n) + 2) (val_bytes v).

Lemma element_head n v p :
  holds mem p (elem_bytes (n, v)) → forallb byte0 n = true → 0 ≤ p →
  p + Z.of_nat (length (elem_bytes (n, v))) < maxLength → after_name n v p.
Proof.
  unfold elem_bytes. cbn [fst snd app]. intros H B Hp Hm. rewrite length_cons, !length_app in Hm. simpl length in Hm.
  apply holds_cons in H as [H1 H2]. apply holds_app in H2 as [H2 H3]. rewrite length_app in H3. simpl length in H3.
  split; [|split].
  - rewrite (readNumber_ok mem maxLength Hmax 1 p [type_byte v]); try done; [|lia].
    apply holds_cons. split; [done|]. intros i b E. by rewrite lookup_nil in E.
  - rewrite (readCString_ok mem maxLength Hmax n) by (done || lia). f_equal. lia.
  - replace (p + Z.of_nat (length n) + 2) with (p + 1 + Z.of_nat (length n + 1)) by lia. done.
Qed.

Ltac start_element n v p E1 E2 E3 :=
  match goal with H : holds _ _ _, B : forallb byte0 n = true |- _ =>
    destruct (element_head n v p H B) as (E1 & E2 & E3); [lia..|] end;
  unfold validateElementInfo; rewrite E1; unfold type_byte; cbn [le_val BSONType.of_val];
  eval_type; rewrite E2; cbn [result_bind]; eval_type; cbn [val_bytes] in E3.

Lemma element_leaf n v p :
  (∀ o, v ≠ BObject o) → (∀ o, v ≠ BArray o) → (∀ c o, v ≠ BCodeWScope c o) →
  holds mem p (elem_bytes (n, v)) → forallb byte0 n = true → wf v = true → 0 ≤ p →
  p + Z.of_nat (length (elem_bytes (n, v))) < maxLength →
  validateElementInfo mem maxLength p = Ok (None, p + Z.of_nat (length (elem_bytes (n, v)))).
Proof.
  intros N1 N2 N3 H B W Hp Hm.
  assert (Z.of_nat (length (elem_bytes (n, v))) = Z.of_nat (length n) + 2 + Z.of_nat (length (val_bytes v))) as L.
  { unfold elem_bytes. cbn [fst snd app]. rewrite length_cons, !length_app. simpl. lia. }
  destruct v; try congruence; cbn [wf] in W; bool_facts;
    match goal with |- context [elem_bytes (n, ?v)] => start_element n v p E1 E2 E3 end.
  all: rewrite L; rewrite L in Hm; clear L H; cbn [val_bytes] in Hm |- *.
  all: repeat (rewrite ?length_app, ?length_le32, ?length_le64, ?length_cons in Hm |- *); simpl length in Hm |- *.
  all: try (rewrite skip_or_ok by lia; cbn [result_bind]; do 2 f_equal; lia).
  all: try (do 2 f_equal; lia).
  1,5,6: rewrite (readUTF8String_ok _ _ Hmax s) by (done || lia); cbn [result_bind]; do 2 f_equal; lia.
  - apply holds_app in E3 as [E3 _].
    rewrite (readInt_ok mem maxLength Hmax (Z.of_nat (length d))) by (done || in32 || lia).
    rewrite wrapS_id by (lia || in32). rewrite skip_or_ok by lia. cbn [result_bind]. do 2 f_equal. lia.
  - rewrite (app_assoc regex) in E3. apply holds_app in E3 as [E3 E4]. rewrite length_app in E4. simpl length in E4.
    rewrite (readCString_ok mem maxLength Hmax regex) by (done || lia). cbn [result_bind].
    rewrite (readCString_ok mem maxLength Hmax flags); [cbn [result_bind]; do 2 f_equal; lia| |done|lia|lia].
    replace (_ + _ + 2 + _ + 1) with (p + Z.of_nat (length n) + 2 + Z.of_nat (length regex + 1)) by lia. done.
  - replace (le32 (Z.of_nat (length ns) + 1) ++ ns ++ [0] ++ oid)
      with ((le32 (Z.of_nat (length ns) + 1) ++ ns ++ [0]) ++ oid) in E3 by (by rewrite <- !(assoc_L app)).
    apply holds_app in E3 as [E3 _]. rewrite (readUTF8String_ok _ _ Hmax ns) by (done || lia). cbn [result_bind].
    do 2 f_equal. unfold Buffer.skip. cbn [snd]. rewrite (u64_small 12), u64_small; lia.
Qed.

Lemma element_object n v p o :
  v = BObject o ∨ v = BArray o →
  holds mem p (elem_bytes (n, v)) → forallb byte0 n = true → 0 ≤ p →
  p + Z.of_nat (length (elem_bytes (n, v))) < maxLength →
  validateElementInfo mem maxLength p = Ok (Some ValidationState.BeginObj, p + Z.of_nat (length n) + 2) ∧
  holds mem (p + Z.of_nat (length n) + 2) (obj_bytes o).
Proof.
  intros [-> | ->] H B Hp Hm.
  - start_element n (BObject o) p E1 E2 E3. done.
  - start_element n (BArray o) p E1 E2 E3. done.
Qed.

Lemma element_cws n p c o :
  holds mem p (elem_bytes (n, BCodeWScope c o)) → forallb byte0 n = true → 0 ≤ p →
  p + Z.of_nat (length (elem_bytes (n, BCodeWScope c o))) < maxLength →
  validateElementInfo mem maxLength p = Ok (Some ValidationState.BeginCodeWScope, p + Z.of_nat (length n) + 2) ∧
  holds mem (p + Z.of_nat (length n) + 2) (val_bytes (BCodeWScope c o)).
Proof.
  intros H B Hp Hm. destruct (element_head n _ p H B) as (_ & _ & E); [lia..|].
  split; [|done]. clear E. start_element n (BCodeWScope c o) p E1 E2 E3. done.
Qed.
End Elements.

(** ** Frames *)

Lemma land_low p : 0 ≤ p < 2 ^ 31 → Z.land p (Frame.top - 1) = p.
Proof. intros H. change (Frame.top - 1) with (Z.ones 31). rewrite Z.land_ones by lia. by apply Z.mod_small. Qed.

Lemma land_top p : 0 ≤ p < 2 ^ 31 → Z.land p Frame.top = 0.
Proof.
  intros H. apply Z.bits_inj'. intros i Hi. rewrite Z.land_spec, Z.testbit_0_l. unfold Frame.top.
  rewrite Z.pow2_bits_eqb by lia. destruct (31 =? i) eqn:E; bool_facts; [|by rewrite andb_false_r].
  subst. assert (Z.testbit p 31 = false) as ->; [|done]. apply Z.testbit_false; [lia|]. by rewrite Z.div_small.
Qed.

Lemma frame_push sz p b :
  0 ≤ p < 2 ^ 31 →
  let f := Frame.setExpectedSize sz (Frame.push p b) in
  Frame.startPosition f = p ∧ Frame.isCodeWithScope f = b ∧ expectedSize f = sz.
Proof.
  intros H. unfold Frame.setExpectedSize, Frame.push, Frame.setIsCodeWithScope, Frame.setStartPosition,
    Frame.startPosition, Frame.isCodeWithScope. cbn [_startPosition expectedSize].
  rewrite Z.land_0_l, Z.lor_0_l, (wrapU_id 32 p) by (unfold in_u; lia). rewrite (land_low p H).
  destruct b.
  - rewrite !Z.land_lor_distr_l, (land_low p H), (land_top p H).
    change (Z.land Frame.top (Frame.top - 1)) with 0. by rewrite Z.lor_0_r.
  - rewrite !(land_low p H), (land_top p H). done.
Qed.

(** ** Documents are accepted *)

Section Accept.
Import ValidationState.
Context (mem : memory) (maxLength : Z).
Context (Hmax : 0 ≤ maxLength < 2 ^ 31).

Definition R (s s' : vstate) : Prop := v_state s ≠ Done ∧ vstep mem maxLength s = Ok s'.

Definition reach (k : nat) (s s' : vstate) : Prop := ∃ n, (1 ≤ n ≤ k)%nat ∧ nsteps R n s s'.

Lemma reach_one s s' : v_state s ≠ Done → vstep mem maxLength s = Ok s' → reach 1 s s'.
Proof. intros N E. exists 1%nat. split; [lia|]. by apply nsteps_once. Qed.

Lemma reach_trans k1 k2 s1 s2 s3 : reach k1 s1 s2 → reach k2 s2 s3 → reach (k1 + k2) s1 s3.
Proof. intros (n1 & L1 & H1) (n2 & L2 & H2). exists (n1 + n2)%nat. split; [lia|]. by eapply nsteps_trans. Qed.

Lemma reach_weaken k k' s s' : reach k s s' → (k ≤ k')%nat → reach k' s s'.
Proof. intros (n & L & H) Hk. exists n. split; [lia|done]. Qed.

(** States with the same next step reach the same states. *)
Lemma reach_same k s1 s2 s' :
  v_state s2 ≠ Done → vstep mem maxLength s2 = vstep mem maxLength s1 → reach k s1 s' → reach k s2 s'.
Proof.
  intros N E (n & L & H). destruct n as [|n]; [lia|]. inversion H as [|? ? y ? HR Hn]; subst.
  exists (S n). split; [done|]. econstructor; [|done]. split; [done|]. rewrite E. apply HR.
Qed.

(** An element is passed over, with the frames as they were. *)
Definition passes (v : bval) : Prop :=
  ∀ n f fs p, wf v = true → forallb byte0 n = true → 0 ≤ p → holds mem p (elem_bytes (n, v)) →
  p + Z.of_nat (length (elem_bytes (n, v))) < maxLength → Frame.isCodeWithScope f = false →
  reach (length (elem_bytes (n, v))) (mkV WithinObj (f :: fs) p)
    (mkV WithinObj (f :: fs) (p + Z.of_nat (length (elem_bytes (n, v))))).

Lemma fields_pass o f fs p :
  Forall (λ e, passes e.2) o → wf_with wf o = true → 0 ≤ p → holds mem p (fields_bytes o ++ [0]) →
  p + Z.of_nat (length (fields_bytes o)) + 1 ≤ maxLength → Frame.isCodeWithScope f = false →
  reach (length (fields_bytes o) + 1) (mkV WithinObj (f :: fs) p)
    (mkV EndObj (f :: fs) (p + Z.of_nat (length (fields_bytes o)) + 1)).
Proof.
  intros H. revert p. induction H as [|[n v] o Hv _ IH]; intros p W Hp M L C.
  - apply reach_one; [done|]. cbn [vstep v_state v_frames v_pos]. unfold within, validateElementInfo.
    cbn [fields_bytes fields_with app] in M. cbn [fields_bytes fields_with length] in *.
    rewrite (readNumber_ok mem maxLength Hmax 1 p [0]) by (done || lia). cbn [le_val].
    change (0 + 256 * 0 =? 0) with true. cbv iota. cbn [default]. unfold id. do 2 f_equal. lia.
  - cbn [wf_with] in W. bool_facts. rewrite fields_bytes_elem in *. rewrite <- (assoc_L app) in M.
    apply holds_app in M as [M1 M2]. rewrite length_app in *.
    replace (length (elem_bytes (n, v)) + length (fields_bytes o) + 1)%nat
      with (length (elem_bytes (n, v)) + (length (fields_bytes o) + 1))%nat by lia.
    eapply reach_trans; [apply Hv; try done; cbn [snd]; lia|]. cbn [snd].
    replace (p + Z.of_nat (length (elem_bytes (n, v)) + length (fields_bytes o)) + 1)
      with (p + Z.of_nat (length (elem_bytes (n, v))) + Z.of_nat (length (fields_bytes o)) + 1) by lia.
    apply IH; try done; lia.
Qed.

Lemma end_frame f p q :
  Frame.startPosition f = p → expectedSize f = q - p → 0 ≤ p → p ≤ q < 2 ^ 31 →
  negb (i32 (u64 (q - Frame.startPosition f)) =? expectedSize f) = false.
Proof.
  intros -> -> Hp Hq. rewrite u64_small by lia. rewrite wrapS_id by (lia || in32). by rewrite Z.eqb_refl.
Qed.

(** A nested document: from its size field to the frame below. *)
Lemma object_pass o f fs p :
  Forall (λ e, passes e.2) o → wf_with wf o = true → 0 ≤ p → holds mem p (obj_bytes o) →
  p + Z.of_nat (length (obj_bytes o)) ≤ maxLength →
  reach (length (obj_bytes o)) (mkV BeginObj (f :: fs) p)
    (mkV (if Frame.isCodeWithScope f then EndCodeWScope else WithinObj) (f :: fs)
       (p + Z.of_nat (length (obj_bytes o)))).
Proof.
  intros H W Hp M L. pose proof (length_obj_bytes o) as LO. rewrite LO in L |- *.
  unfold obj_bytes, obj_with in M. apply holds_app in M as [M1 M2]. rewrite length_le32 in M2.
  change (Z.of_nat 4) with 4 in M2.
  remember (Z.of_nat (length (fields_bytes o)) + 5) as sz eqn:Hsz.
  destruct (frame_push sz p false ltac:(lia)) as (F1 & F2 & F3).
  set (fr := Frame.setExpectedSize sz (Frame.push p false)) in *.
  replace (length (obj_bytes o)) with ((length (fields_bytes o) + 1) + 4)%nat by lia.
  eapply reach_trans.
  - apply (reach_same _ (mkV WithinObj (fr :: f :: fs) (p + 4))); [done| |].
    + cbn [vstep v_state v_frames v_pos]. by rewrite (readInt_ok mem maxLength Hmax sz) by (done || in32 || lia).
    + apply fields_pass; try done; lia.
  - eapply reach_weaken; [apply reach_one; [done|]|lia]. cbn [vstep v_state v_frames v_pos].
    rewrite (end_frame fr p) by (done || lia). do 2 f_equal. lia.
Qed.

Lemma passes_object n v o f fs p :
  v = BObject o ∨ v = BArray o → Forall (λ e, passes e.2) o →
  wf_with wf o = true → forallb byte0 n = true → 0 ≤ p → holds mem p (elem_bytes (n, v)) →
  p + Z.of_nat (length (elem_bytes (n, v))) < maxLength → Frame.isCodeWithScope f = false →
  reach (length (elem_bytes (n, v))) (mkV WithinObj (f :: fs) p)
    (mkV WithinObj (f :: fs) (p + Z.of_nat (length (elem_bytes (n, v))))).
Proof.
  intros V H W B Hp M L C. destruct (element_object mem maxLength Hmax n v p o V M B Hp L) as [E E'].
  assert (length (elem_bytes (n, v)) = (length n + 2 + length (obj_bytes o))%nat) as LE.
  { destruct V as [-> | ->]; unfold elem_bytes; cbn [fst snd app]; rewrite length_cons, !length_app;
      change (length (val_bytes _)) with (length (obj_bytes o)); simpl; lia. }
  rewrite LE in *. eapply reach_trans.
  - eapply reach_weaken; [apply reach_one; [done|]|lia]. cbn [vstep v_state v_frames v_pos]. unfold within. rewrite E. reflexivity.
  - cbn [default]. unfold id. pose proof (object_pass o f fs (p + Z.of_nat (length n) + 2) H W) as O.
    rewrite C in O. replace (p + Z.of_nat (length n + 2 + length (obj_bytes o)))
      with (p + Z.of_nat (length n) + 2 + Z.of_nat (length (obj_bytes o))) by lia. apply O; try done; lia.
Qed.

Lemma passes_cws n c o f fs p :
  Forall (λ e, passes e.2) o → wf_with wf o = true → forallb byte0 n = true → 0 ≤ p →
  holds mem p (elem_bytes (n, BCodeWScope c o)) →
  p + Z.of_nat (length (elem_bytes (n, BCodeWScope c o))) < maxLength →
  reach (length (elem_bytes (n, BCodeWScope c o))) (mkV WithinObj (f :: fs) p)
    (mkV WithinObj (f :: fs) (p + Z.of_nat (length (elem_bytes (n, BCodeWScope c o))))).
Proof.
  intros H W B Hp M L. destruct (element_cws mem maxLength Hmax n p c o M B Hp L) as [E E'].
  pose proof (length_obj_bytes o) as LO.
  assert (length (elem_bytes (n, BCodeWScope c o)) = (length n + 2 + (4 + (4 + length c + 1)) + length (obj_bytes o))%nat) as LE.
  { unfold elem_bytes. cbn [fst snd app val_bytes]. fold (fields_bytes o). fold (obj_bytes o).
    rewrite length_cons, !length_app, !length_le32. simpl. lia. }
  rewrite LE in *. clear LE M. cbn [val_bytes] in E'. fold (fields_bytes o) in E'. fold (obj_bytes o) in E'.
  remember (4 + 4 + (Z.of_nat (length c) + 1) + Z.of_nat (length (obj_bytes o))) as sz eqn:Hsz.
  remember (p + Z.of_nat (length n) + 2) as q eqn:Hq.
  rewrite (app_assoc c), (app_assoc (le32 (Z.of_nat (length c) + 1))) in E'.
  apply holds_app in E' as [M1 M2]. rewrite length_le32 in M2. change (Z.of_nat 4) with 4 in M2.
  apply holds_app in M2 as [M2 M3]. rewrite !length_app, length_le32 in M3. simpl length in M3.
  destruct (frame_push sz q true ltac:(lia)) as (F1 & F2 & F3).
  set (fr := Frame.setExpectedSize sz (Frame.push q true)) in *.
  replace (length n + 2 + (4 + (4 + length c + 1)) + length (obj_bytes o))%nat
    with (1 + (1 + (length (obj_bytes o) + (length n + 9 + length c))))%nat by lia.
  eapply reach_trans; [apply reach_one; [done|]|].
  { cbn [vstep v_state v_frames v_pos]. unfold within. rewrite E. reflexivity. }
  cbn [default]. unfold id. eapply reach_trans; [apply reach_one; [done|]|].
  { cbn [vstep v_state v_frames v_pos]. rewrite (readInt_ok mem maxLength Hmax sz) by (done || in32 || lia).
    rewrite (readUTF8String_ok mem maxLength Hmax c) by (done || lia). reflexivity. }
  fold fr. eapply reach_trans.
  - apply (object_pass o fr (f :: fs)); try done; [lia| |lia].
    replace (q + 4 + 4 + Z.of_nat (length c) + 1) with (q + 4 + Z.of_nat (4 + (length c + 1))) by lia. done.
  - rewrite F2. eapply reach_weaken; [apply reach_one; [done|]|lia]. cbn [vstep v_state v_frames v_pos].
    rewrite (end_frame fr q) by (done || lia). do 2 f_equal. lia.
Qed.

Lemma passes_all v : passes v.
Proof.
  induction v as [o IH|o IH|c o IH|v N1 N2 N3] using bval_ind'; intros n f fs p W B Hp M L C.
  - eapply passes_object; eauto.
  - eapply passes_object; eauto.
  - cbn [wf] in W. bool_facts. by apply passes_cws.
  - eapply reach_weaken; [apply reach_one; [done|]|pose proof (length_elem_bytes (n, v)); lia].
    cbn [vstep v_state v_frames v_pos]. unfold within. by rewrite (element_leaf mem maxLength Hmax n v p).
Qed.

(** Steps of the loop are turns of the run. *)
Lemma vrun_steps n s s' fuel :
  nsteps R n s s' → v_state s' = Done → (n ≤ fuel)%nat → vrun mem maxLength fuel s = Some (Ok (v_pos s')).
Proof.
  intros H. revert fuel. induction H as [s|n s s1 s2 [N E] _ IH]; intros fuel D Hf.
  - destruct fuel; cbn [vrun]; by rewrite D.
  - destruct fuel as [|fuel]; [lia|]. cbn [vrun]. rewrite E. rewrite IH by (done || lia).
    by destruct (v_state s).
Qed.

Lemma validate_obj o fuel :
  wf_with wf o = true → holds mem 0 (obj_bytes o) → Z.of_nat (length (obj_bytes o)) ≤ maxLength →
  (length (obj_bytes o) ≤ fuel)%nat →
  validateBSON mem maxLength fuel = Some (Ok (Z.of_nat (length (obj_bytes o)))).
Proof.
  intros W M L Hf. pose proof (length_obj_bytes o) as LO. unfold validateBSON.
  destruct (_ <? 5) eqn:E; bool_facts; [lia|].
  unfold obj_bytes, obj_with in M. apply holds_app in M as [M1 M2]. rewrite length_le32 in M2.
  change (Z.of_nat 4) with 4 in M2.
  remember (Z.of_nat (length (fields_bytes o)) + 5) as sz eqn:Hsz.
  destruct (frame_push sz 0 false ltac:(lia)) as (F1 & F2 & F3).
  set (fr := Frame.setExpectedSize sz (Frame.push 0 false)) in *.
  assert (reach (length (fields_bytes o) + 1 + 1) vstart (mkV Done [] sz)) as (n & Ln & H).
  { eapply reach_trans.
    - apply (reach_same _ (mkV WithinObj [fr] (0 + 4))); [done| |].
      + cbn [vstep v_state v_frames v_pos vstart]. by rewrite (readInt_ok mem maxLength Hmax sz) by (done || in32 || lia).
      + apply fields_pass; try done; try lia. apply Forall_forall. intros. apply passes_all.
    - apply reach_one; [done|]. cbn [vstep v_state v_frames v_pos].
      rewrite (end_frame fr 0) by (done || lia). do 2 f_equal. lia. }
  rewrite (vrun_steps _ _ _ _ H) by (done || lia). cbn [v_pos]. by rewrite LO.
Qed.
End Accept.

(** C31: every well-formed document of legal size is accepted, whatever follows it in the buffer,
    and in at most as many turns of the loop as it has bytes; the position reached is its end. *)
Theorem validate_accepts o r fuel :
  wf_obj o = true → Z.of_nat (length (obj_bytes o ++ r)) < 2 ^ 31 → (length (obj_bytes o) ≤ fuel)%nat →
  validateBSON (mem_of (obj_bytes o ++ r)) (Z.of_nat (length (obj_bytes o ++ r))) fuel =
  Some (Ok (Z.of_nat (length (obj_bytes o)))).
Proof.
  intros [_ W]%wf_obj_split L Hf. apply validate_obj; [lia|done|apply holds_mem_of|rewrite length_app; lia|done].
Qed.

(** ** Only the buffer is read *)

Section Bounds.
Context (m1 m2 : memory) (maxLength : Z).
Context (Hmax : 0 ≤ maxLength < 2 ^ 62).
Context (Agree : ∀ i, 0 ≤ i < maxLength → m1 i = m2 i).

(** Positions stay within the buffer, or just beyond it after an unchecked skip. *)
Definition pos_ok (pos : Z) : Prop := 0 ≤ pos ≤ maxLength + 12.

Lemma readNumber_agree n pos :
  pos_ok pos → (n ≤ 8)%nat →
  Buffer.readNumber m1 maxLength n pos = Buffer.readNumber m2 maxLength n pos ∧
  ∀ b pos', Buffer.readNumber m1 maxLength n pos = Some (b, pos') → 0 ≤ pos' ≤ maxLength.
Proof.
  unfold pos_ok, Buffer.readNumber. intros Hp Hn. rewrite u64_small by lia.
  destruct (_ <? _) eqn:E; bool_facts; [done|]. split.
  - do 2 f_equal. apply map_ext_in. intros i [_ Hi]%in_seq. apply Agree. lia.
  - intros b pos' [= <- <-]. lia.
Qed.

Lemma readInt_agree pos :
  pos_ok pos →
  Buffer.readInt m1 maxLength pos = Buffer.readInt m2 maxLength pos ∧
  ∀ n pos', Buffer.readInt m1 maxLength pos = Some (n, pos') → 0 ≤ pos' ≤ maxLength.
Proof.
  intros Hp. unfold Buffer.readInt. destruct (readNumber_agree 4 pos Hp ltac:(lia)) as [E H]. rewrite <- E.
  split; [done|]. intros n pos'. destruct (Buffer.readNumber m1 maxLength 4 pos) as [[b q]|]; [|done].
  cbn [mbind option_bind]. intros [= _ <-]. by eapply H.
Qed.

Lemma memchr0_agree n p :
  0 ≤ p → p + Z.of_nat n ≤ maxLength →
  Buffer.memchr0 m1 n p = Buffer.memchr0 m2 n p ∧
  ∀ x, Buffer.memchr0 m1 n p = Some x → p ≤ x < p + Z.of_nat n.
Proof.
  revert p. induction n as [|n IH]; intros p Hp Hn; [done|]. cbn [Buffer.memchr0]. rewrite <- (Agree p) by lia.
  destruct (m1 p =? 0); [split; [done|]; intros x [= <-]; lia|]. destruct (IH (p + 1)) as [E H]; [lia..|].
  split; [done|]. intros x Hx. specialize (H _ Hx). lia.
Qed.

Lemma readCString_agree pos :
  0 ≤ pos ≤ maxLength →
  Buffer.readCString m1 maxLength pos = Buffer.readCString m2 maxLength pos ∧
  ∀ pos', Buffer.readCString m1 maxLength pos = Ok pos' → 0 ≤ pos' ≤ maxLength.
Proof.
  intros Hp. unfold Buffer.readCString. rewrite (u64_small (maxLength - pos)) by lia.
  destruct (memchr0_agree (Z.to_nat (maxLength - pos)) pos) as [E H]; [lia..|]. rewrite <- E.
  split; [done|]. intros pos'. destruct (Buffer.memchr0 m1 _ pos) as [x|]; [|done]. specialize (H _ eq_refl).
  rewrite u64_small by lia. intros [= <-]. lia.
Qed.

Lemma skip_or_pos e sz pos pos' : Buffer.skip_or maxLength e sz pos = Ok pos' → 0 ≤ pos' ≤ maxLength.
Proof.
  unfold Buffer.skip_or, Buffer.skip. destruct (_ <? _) eqn:E; [|done]. intros [= <-]. bool_facts.
  pose proof (wrapU_range 64 (pos + u64 sz) ltac:(lia)) as [? _]. lia.
Qed.

Lemma readUTF8String_agree pos :
  pos_ok pos →
  Buffer.readUTF8String m1 maxLength pos = Buffer.readUTF8String m2 maxLength pos ∧
  ∀ pos', Buffer.readUTF8String m1 maxLength pos = Ok pos' → 0 ≤ pos' ≤ maxLength.
Proof.
  intros Hp. unfold Buffer.readUTF8String. destruct (readInt_agree pos Hp) as [E _]. rewrite <- E.
  destruct (Buffer.readInt m1 maxLength pos) as [[sz q]|]; [|done].
  destruct (Buffer.skip_or maxLength InvalidBson (i32 (sz - 1)) q) as [q'|] eqn:S; [|done]. apply skip_or_pos in S.
  cbn [result_bind]. destruct (readNumber_agree 1 q') as [E' H]; [unfold pos_ok; lia|lia|]. rewrite <- E'.
  split; [done|]. intros pos'. destruct (Buffer.readNumber m1 maxLength 1 q') as [[c q'']|] eqn:F; [|done].
  case_bool_decide; [|done]. intros [= <-]. by eapply H.
Qed.

Lemma pos_ok_max pos : 0 ≤ pos ≤ maxLength → pos_ok pos.
Proof. unfold pos_ok. lia. Qed.

Definition info_ok (r1 r2 : result verror (option ValidationState.State * Z)) : Prop :=
  r1 = r2 ∧ ∀ n pos', r1 = Ok (n, pos') → pos_ok pos' ∧ (n = Some ValidationState.EndObj → pos' ≤ maxLength) ∧
    n ≠ Some ValidationState.Done.

Lemma info_stay r1 r2 :
  r1 = r2 → (∀ pos', r1 = Ok pos' → 0 ≤ pos' ≤ maxLength) →
  info_ok (pos <-? r1 ;; Ok (None, pos)) (pos <-? r2 ;; Ok (None, pos)).
Proof.
  intros <- H. split; [done|]. intros n pos' E. destruct r1 as [q|]; [|done]. cbn [result_bind] in E. simplify_eq.
  split; [by apply pos_ok_max, H|done].
Qed.

Lemma validateElementInfo_agree pos :
  pos_ok pos → info_ok (validateElementInfo m1 maxLength pos) (validateElementInfo m2 maxLength pos).
Proof.
  intros Hp. unfold validateElementInfo. destruct (readNumber_agree 1 pos Hp ltac:(lia)) as [E H]. rewrite <- E.
  destruct (Buffer.readNumber m1 maxLength 1 pos) as [[t q]|]; [|done]. specialize (H _ _ eq_refl).
  destruct (le_val t =? 0); [split; [done|]; intros n pos' [= <- <-]; split; [by apply pos_ok_max|split; [lia|done]]|].
  destruct (readCString_agree q H) as [E' H']. rewrite <- E'.
  destruct (Buffer.readCString m1 maxLength q) as [q'|]; [|done]. specialize (H' _ eq_refl). cbn [result_bind].
  assert (∀ n, n ≠ Some ValidationState.Done → info_ok (Ok (n, q')) (Ok (n, q'))) as Same.
  { intros n Hn. split; [done|]. intros n' pos' [= <- <-]. split; [by apply pos_ok_max|split; [lia|done]]. }
  repeat match goal with |- info_ok (if ?b then _ else _) (if ?b then _ else _) => destruct b end;
    try (by apply Same); try done; try (apply info_stay; [done|by apply skip_or_pos]).
  - destruct (readUTF8String_agree q') as [F G]; [by apply pos_ok_max|]. rewrite <- F.
    destruct (Buffer.readUTF8String m1 maxLength q') as [q''|]; [|done]. specialize (G _ eq_refl). cbn [result_bind].
    split; [done|]. unfold Buffer.skip. cbn [snd]. rewrite (u64_small 12), u64_small by lia.
    intros n pos' [= <- <-]. split; [unfold pos_ok; lia|done].
  - destruct (readCString_agree q' H') as [F G]. rewrite <- F.
    destruct (Buffer.readCString m1 maxLength q') as [q''|]; [|done]. specialize (G _ eq_refl). cbn [result_bind].
    destruct (readCString_agree q'' G) as [F' G']. by apply info_stay.
  - destruct (readUTF8String_agree q') as [F G]; [by apply pos_ok_max|]. by apply info_stay.
  - destruct (readInt_agree q') as [F G]; [by apply pos_ok_max|]. rewrite <- F.
    destruct (Buffer.readInt m1 maxLength q') as [[sz q'']|]; [|done]. apply info_stay; [done|by apply skip_or_pos].
Qed.

Lemma within_agree fs pos :
  pos_ok pos →
  within m1 maxLength fs pos = within m2 maxLength fs pos ∧
  ∀ s', within m1 maxLength fs pos = Ok s' →
    pos_ok (v_pos s') ∧ v_frames s' = fs ∧ (v_state s' = ValidationState.EndObj → v_pos s' ≤ maxLength) ∧
    v_state s' ≠ ValidationState.Done.
Proof.
  intros Hp. destruct (validateElementInfo_agree pos Hp) as [E H]. unfold within. rewrite <- E. split; [done|].
  intros s'. destruct (validateElementInfo m1 maxLength pos) as [[n q]|] eqn:V; [|done]. intros [= <-].
  destruct (H _ _ eq_refl) as (H1 & H2 & H3). cbn [v_pos v_frames v_state]. split; [done|]. split; [done|].
  destruct n as [st|]; [|done]. cbn [default from_option]. unfold id. split; [|congruence].
  intros ->. by apply H2.
Qed.

Lemma vstep_agree s :
  pos_ok (v_pos s) →
  vstep m1 maxLength s = vstep m2 maxLength s ∧ ∀ s', vstep m1 maxLength s = Ok s' → pos_ok (v_pos s').
Proof.
  intros Hp. unfold vstep. destruct (v_state s).
  - destruct (readInt_agree _ Hp) as [E H]. rewrite <- E.
    destruct (Buffer.readInt m1 maxLength (v_pos s)) as [[sz q]|]; [|done]. specialize (H _ _ eq_refl).
    destruct (within_agree (Frame.setExpectedSize sz (Frame.push (v_pos s) false) :: v_frames s) q) as [F G];
      [by apply pos_ok_max|]. split; [done|]. intros s' Hs. by apply G.
  - destruct (within_agree (v_frames s) (v_pos s) Hp) as [F G]. split; [done|]. intros s' Hs. by apply G.
  - split; [done|]. intros s' Hs. destruct (v_frames s) as [|f [|f' fs]]; simplify_eq; try done;
      (destruct (negb _); simplify_eq; done).
  - destruct (readInt_agree _ Hp) as [E H]. rewrite <- E.
    destruct (Buffer.readInt m1 maxLength (v_pos s)) as [[sz q]|]; [|done]. specialize (H _ _ eq_refl).
    destruct (readUTF8String_agree q) as [F G]; [by apply pos_ok_max|]. rewrite <- F.
    destruct (Buffer.readUTF8String m1 maxLength q) as [q'|]; [|done]. cbn [result_bind]. split; [done|].
    intros s' [= <-]. cbn [v_pos]. by apply pos_ok_max, G.
  - split; [done|]. intros s' Hs. destruct (v_frames s) as [|f [|f' fs]]; simplify_eq; try done;
      (destruct (negb _); simplify_eq; done).
  - split; [done|]. by intros s' [= <-].
Qed.

Lemma vrun_agree fuel s : pos_ok (v_pos s) → vrun m1 maxLength fuel s = vrun m2 maxLength fuel s.
Proof.
  revert s. induction fuel as [|fuel IH]; intros s Hp; cbn [vrun]; destruct (v_state s) eqn:V; try done;
    (destruct (vstep_agree s Hp) as [E H]; rewrite <- E; destruct (vstep m1 maxLength s); [|done]; by apply IH, H).
Qed.
End Bounds.

(** C8: validation reads nothing outside the buffer it is given: two memories that agree on the
    buffer, whatever its bytes, are validated alike. *)
Theorem validate_in_bounds m1 m2 maxLength fuel :
  0 ≤ maxLength < 2 ^ 62 → (∀ i, 0 ≤ i < maxLength → m1 i = m2 i) →
  validateBSON m1 maxLength fuel = validateBSON m2 maxLength fuel.
Proof.
  intros Hmax A. unfold validateBSON. destruct (_ <? _); [done|].
  apply vrun_agree; [done|done|]. unfold pos_ok. cbn [v_pos vstart]. lia.
Qed.

(** ** The declared size is there *)

Section Size.
Import ValidationState.
Context (mem : memory) (maxLength : Z).
Context (Hmax : 0 ≤ maxLength < 2 ^ 31).

Definition declared : Z := i32 (le_val (map mem [0; 1; 2; 3])).

Record size_inv (s : vstate) : Prop := {
  si_pos : pos_ok maxLength (v_pos s);
  si_empty : v_frames s = [] → v_state s = BeginObj ∧ v_pos s = 0 ∨ v_state s = Done;
  si_bottom : ∀ f, last (v_frames s) = Some f → Frame.startPosition f = 0 ∧ expectedSize f = declared;
  si_end : v_state s = EndObj → v_pos s ≤ maxLength;
  si_done : v_state s = Done → v_pos s ≤ maxLength ∧ declared = v_pos s
}.

Lemma readInt_declared : 4 ≤ maxLength → Buffer.readInt mem maxLength 0 = Some (declared, 4).
Proof.
  intros H. unfold Buffer.readInt, Buffer.readNumber. change (u64 (0 + Z.of_nat 4)) with 4.
  destruct (_ <? _) eqn:E; bool_facts; [lia|]. done.
Qed.

Lemma size_within fs pos s' :
  pos_ok maxLength pos → fs ≠ [] →
  (∀ f, last fs = Some f → Frame.startPosition f = 0 ∧ expectedSize f = declared) →
  within mem maxLength fs pos = Ok s' → size_inv s'.
Proof.
  intros Hp N B E. destruct (within_agree mem mem maxLength ltac:(lia) ltac:(done) fs pos Hp) as [_ H].
  destruct (H _ E) as (H1 & H2 & H3 & H4). constructor; try done; rewrite ?H2; done.
Qed.

Lemma size_step s s' : size_inv s → vstep mem maxLength s = Ok s' → size_inv s'.
Proof.
  intros I E. pose proof I as [P Em B En D]. unfold vstep in E.
  destruct (v_state s) eqn:V.
  - destruct (Buffer.readInt mem maxLength (v_pos s)) as [[sz q]|] eqn:RI; [|done].
    eapply size_within; [| |intros f Hf|exact E]; [|done|].
    + destruct (readInt_agree mem mem maxLength ltac:(lia) ltac:(done) _ P) as [_ H]. by eapply pos_ok_max, H.
    + destruct (v_frames s) as [|g fs] eqn:F; [|by apply B].
      destruct (Em eq_refl) as [[_ P0]|]; [|done]. rewrite P0 in *. cbn [last] in Hf. injection Hf as <-.
      assert (4 ≤ maxLength) as L4.
      { unfold Buffer.readInt, Buffer.readNumber in RI. destruct (_ <? _) eqn:G; [done|]. bool_facts.
        rewrite u64_small in G; lia. }
      rewrite (readInt_declared L4) in RI. simplify_eq.
      destruct (frame_push declared 0 false ltac:(lia)) as (? & _ & ?). done.
  - eapply size_within; [exact P| |exact B|exact E]. intros F. destruct (Em F) as [[? ?]|]; done.
  - destruct (v_frames s) as [|curr fs] eqn:F; [by destruct (Em eq_refl) as [[? ?]|]|].
    destruct (negb _) eqn:C; [done|]. destruct fs as [|parent fs]; simplify_eq.
    + destruct (B curr eq_refl) as [S X]. bool_facts. rewrite S, X, Z.sub_0_r in C. specialize (En eq_refl).
      unfold pos_ok in P. rewrite u64_small, wrapS_id in C by (lia || in32).
      constructor; cbn [v_pos v_frames v_state]; try done. by right.
    + constructor; cbn [v_pos v_frames v_state]; try done; by destruct (Frame.isCodeWithScope parent).
  - destruct (readInt_agree mem mem maxLength ltac:(lia) ltac:(done) _ P) as [_ H].
    destruct (Buffer.readInt mem maxLength (v_pos s)) as [[sz q]|] eqn:RI; [|done]. specialize (H _ _ eq_refl).
    destruct (readUTF8String_agree mem mem maxLength ltac:(lia) ltac:(done) q) as [_ H']; [by apply pos_ok_max|].
    destruct (Buffer.readUTF8String mem maxLength q) as [q'|] eqn:RU; [|done]. cbn [result_bind] in E. simplify_eq.
    constructor; cbn [v_pos v_frames v_state]; try done; [by apply pos_ok_max, H'|].
    intros f Hf. destruct (v_frames s) as [|g fs] eqn:F; [by destruct (Em eq_refl) as [[? ?]|]|]. by apply B.
  - destruct (v_frames s) as [|curr fs] eqn:F; [by destruct (Em eq_refl) as [[? ?]|]|].
    destruct (negb _) eqn:C; [done|]. destruct fs as [|parent fs]; simplify_eq.
    constructor; cbn [v_pos v_frames v_state]; done.
  - by injection E as <-.
Qed.

Lemma size_run fuel s pos :
  size_inv s → vrun mem maxLength fuel s = Some (Ok pos) → 0 ≤ pos ≤ maxLength ∧ declared = pos.
Proof.
  revert s. induction fuel as [|fuel IH]; intros s I E; cbn [vrun] in E; destruct (v_state s) eqn:V; try done;
    try (destruct (vstep mem maxLength s) as [s'|] eqn:S; [|done]; eapply IH; [|exact E]; by eapply size_step).
  all: injection E as <-; destruct (si_done _ I V); pose proof (si_pos _ I) as [? _]; lia.
Qed.
End Size.

(** An accepted buffer holds the document it announces: the size field equals the number of
    bytes consumed, which does not exceed the buffer. *)
Theorem validate_size mem maxLength fuel pos :
  0 ≤ maxLength < 2 ^ 31 → validateBSON mem maxLength fuel = Some (Ok pos) →
  0 ≤ pos ≤ maxLength ∧ i32 (le_val (map mem [0; 1; 2; 3])) = pos.
Proof.
  intros Hmax. unfold validateBSON. destruct (_ <? 5) eqn:E; [done|]. apply size_run; [done|].
  constructor; cbn [v_pos v_frames v_state vstart]; try done; [unfold pos_ok; lia|by left].
Qed.

(** ** Negative lengths *)

(** {"": BinData of length -7} *)
Definition looping : list Z := [12; 0; 0; 0; 5; 0; 0xf9; 0xff; 0xff; 0xff; 0; 0].

(** On this buffer of 12 bytes the loop never ends: the negative length of the binary data
    takes the position back to the start of the element. *)
Theorem validate_loops fuel : validateBSON (mem_of looping) 12 fuel = None.
Proof.
  unfold validateBSON. change (12 <? 5) with false. cbv iota.
  destruct fuel as [|fuel]; [done|]. cbn [vrun].
  set (f := Frame.setExpectedSize 12 (Frame.push 0 false)).
  assert (vstep (mem_of looping) 12 vstart = Ok (mkV ValidationState.WithinObj [f] 4)) as -> by (by vm_compute).
  induction fuel as [|fuel IH]; [done|]. cbn [vrun v_state].
  assert (vstep (mem_of looping) 12 (mkV ValidationState.WithinObj [f] 4) = Ok (mkV ValidationState.WithinObj [f] 4)) as ->
    by (by vm_compute). exact IH.
Qed.

(** {"": string of size 0, without its terminator} *)
Definition headless_string : list Z := [11; 0; 0; 0; 2; 0; 0; 0; 0; 0; 0].

(** A string of size 0 is accepted, its terminator found in the last byte of the size, though
    no document is laid out that way. *)
Theorem validate_accepts_non_bson :
  validateBSON (mem_of headless_string) 11 11 = Some (Ok 11) ∧
  ∀ o, wf_obj o = true → obj_bytes o ≠ headless_string.
Proof.
  split; [by vm_compute|]. intros o W E. pose proof (read_obj_exact o 11 W) as R.
  rewrite E in R. specialize (R ltac:(simpl; lia)).
  assert (read_obj 11 headless_string = Some [([], BString [])]) as R' by (by vm_compute).
  rewrite R' in R. simplify_eq.
Qed.

Module ValidateExample.

Definition doc : bobj :=
  [ ([97], BString [120; 121]); ([98], BObject [([99], BInt 5)]);
    ([100], BCodeWScope [102] [([101], BBool true)]); ([103], BArray []) ].

Lemma validate_accepts_witness :
  validateBSON (mem_of (obj_bytes doc ++ [9; 9])) (Z.of_nat (length (obj_bytes doc ++ [9; 9]))) 100 =
  Some (Ok (Z.of_nat (length (obj_bytes doc)))).
Proof. apply validate_accepts; [by vm_compute|by vm_compute|simpl; lia]. Defined.

Lemma validate_in_bounds_witness :
  validateBSON (mem_of looping) 12 50 = validateBSON (mem_of (looping ++ [1; 2; 3])) 12 50.
Proof.
  apply validate_in_bounds; [lia|]. intros i Hi.
  assert (i ∈ seqZ 0 12) as H by (apply elem_of_seqZ; lia).
  apply list_elem_of_In in H. simpl in H. intuition (subst; reflexivity).
Defined.

Lemma validate_size_witness : i32 (le_val (map (mem_of headless_string) [0; 1; 2; 3])) = 11.
Proof. apply (validate_size (mem_of headless_string) 11 20 11); [lia|by vm_compute]. Defined.

End ValidateExample.
