(* ===== verification/BsonObj.v ===== *)
(** * Operations on BSON documents

    Models the document operations of bson/bson-inl.h, bson/bsonobjbuilder.h and db/jsobj.cpp:
    field access by name and by dotted path, projections, flattening, the storage check, sorting
    by a key pattern, the bounds of each type, and the choice of a numeric type.

    The theorems: a sort by [woSortOrder] is a sort by a key of each document alone, so a total
    preorder; a dotted path finds in the nested document what its name finds in the flattened
    one; a number keeps its value in the type chosen for it; the type bounds enclose every value of
    the type but the infinities, NaN and scoped code; the storage check says what it should
    except after a DBRef field. *)

From S2P Require Import Prelude Double Bson BsonOrder.
#[local] Open Scope Z_scope.

(** ** Fields *)

Module Fields.

Abbreviation elem := (list Z * bval)%type.

Fixpoint getField (name : list Z) (o : bobj) : option elem :=
  match o with
  | [] => None
  | e :: o' => if bool_decide (name = e.1) then Some e else getField name o'
  end.

Definition hasField (name : list Z) (o : bobj) : bool := match getField name o with Some _ => true | None => false end.

(** [getIntField]: a number converted through double to int. *)
Definition getIntField (name : list Z) (o : bobj) : option Z :=
  match getField name o with
  | Some e => if Element.isNumber e.2 then Element.dbl_cast 32 (Element.numberDouble e.2) else Some (- 2 ^ 31)
  | None => Some (- 2 ^ 31)
  end.

Definition getBoolField (name : list Z) (o : bobj) : bool :=
  match getField name o with Some (_, BBool b) => b | _ => false end.

Definition getStringField (name : list Z) (o : bobj) : list Z :=
  match getField name o with Some (_, BString s) => cstr s | _ => [] end.

Definition getObjectField (name : list Z) (o : bobj) : bobj :=
  match getField name o with Some (_, BObject s) => s | Some (_, BArray s) => s | _ => [] end.

Definition nFields (o : bobj) : nat := length o.

Definition dot : Z := 46.
Definition dollar : Z := 36.

(** [name.find('.')]: what precedes and follows the first dot. *)
Fixpoint split_dot (name : list Z) : option (list Z * list Z) :=
  match name with
  | [] => None
  | c :: n => if c =? dot then Some ([], n) else '(l, r) ← split_dot n; Some (c :: l, r)
  end.

(** [getFieldDotted]; each level of the recursion shortens the name. *)
Fixpoint getFieldDotted_from (fuel : nat) (name : list Z) (o : bobj) : option elem :=
  match getField name o with
  | Some e => Some e
  | None =>
      match split_dot name, fuel with
      | Some (lname, rname), S f =>
          match getObjectField lname o with
          | [] => None
          | sub => getFieldDotted_from f rname sub
          end
      | _, _ => None
      end
  end.

Definition getFieldDotted (name : list Z) (o : bobj) : option elem := getFieldDotted_from (length name) name o.

Definition removeField (name : list Z) (o : bobj) : bobj := filter (λ e : elem, name ≠ e.1) o.

Definition extractFieldsUnDotted (pattern o : bobj) : bobj :=
  omap (λ e : elem, match getField e.1 o with Some x => Some ([], x.2) | None => None end) pattern.

Definition extractFields (pattern : bobj) (fillWithNull : bool) (o : bobj) : bobj :=
  omap (λ e : elem,
    match getFieldDotted e.1 o with
    | Some x => Some (e.1, x.2)
    | None => if fillWithNull then Some (e.1, BNull) else None
    end) pattern.

Definition filterFieldsUndotted (flt : bobj) (inFilter : bool) (o : bobj) : bobj :=
  List.filter (λ e : elem, Bool.eqb (hasField e.1 flt) inFilter) o.

(** [getFieldUsingIndexNames]: the position of the name in the pattern, then the field there. *)
Fixpoint index_of (name : list Z) (pattern : bobj) : option nat :=
  match pattern with
  | [] => None
  | f :: p => if bool_decide (f.1 = name) then Some 0%nat else j ← index_of name p; Some (S j)
  end.

Definition getFieldUsingIndexNames (name : list Z) (indexKey o : bobj) : option elem :=
  j ← index_of name indexKey; o !! j.

Fixpoint replaceFieldNames (names o : bobj) : bobj :=
  match o, names with
  | [], _ => []
  | e :: o', f :: names' => (f.1, e.2) :: replaceFieldNames names' o'
  | e :: o', [] => e :: replaceFieldNames [] o'
  end.

(** [clientReadable]: [{$minElement: 1}] and [{$maxElement: 1}] for the extreme keys. *)
Definition minElement : list Z := [36; 109; 105; 110; 69; 108; 101; 109; 101; 110; 116].
Definition maxElement : list Z := [36; 109; 97; 120; 69; 108; 101; 109; 101; 110; 116].

Definition clientReadable (o : bobj) : bobj :=
  map (λ e : elem,
    match e.2 with
    | BMinKey => (e.1, BObject [(minElement, BInt 1)])
    | BMaxKey => (e.1, BObject [(maxElement, BInt 1)])
    | _ => e
    end) o.

(** [fieldsMatch] *)
Fixpoint fieldsMatch (l r : bobj) : bool :=
  match l, r with
  | [], [] => true
  | a :: l', b :: r' => if bool_decide (a.1 = b.1) then fieldsMatch l' r' else false
  | _, _ => false
  end.

(** [appendKeys]; [None] is the failed [verify]. *)
Fixpoint appendKeys (keyPattern values : bobj) : option bobj :=
  match keyPattern, values with
  | [], [] => Some []
  | k :: kp, v :: vs => o ← appendKeys kp vs; Some ((k.1, v.2) :: o)
  | _, _ => None
  end.

(** [appendElementsUnique]: the names present before are skipped. *)
Definition appendElementsUnique (b x : bobj) : bobj :=
  b ++ List.filter (λ e : elem, negb (hasField e.1 b)) x.

(** [cloneBSONWithFieldChanged] *)
Definition cloneBSONWithFieldChanged (orig : bobj) (newElement : elem) (appendIfMissing : bool) : bobj :=
  let b := map (λ e : elem, if bool_decide (newElement.1 = e.1) then newElement else e) orig in
  if negb (hasField newElement.1 orig) && appendIfMissing then b ++ [newElement] else b.

(** [nested2dotted]: embedded documents are flattened, arrays are not. *)
Definition flatten_with (fl : list Z → bval → bobj) : list Z → bobj → bobj :=
  fix go (base : list Z) (o : bobj) : bobj :=
    match o with
    | [] => []
    | (n, v) :: o' => fl (base ++ n) v ++ go base o'
    end.

Fixpoint flatten_val (name : list Z) (v : bval) : bobj :=
  match v with
  | BObject o => flatten_with flatten_val (name ++ [dot]) o
  | v => [(name, v)]
  end.

Definition nested2dotted (o : bobj) : bobj := flatten_with flatten_val [] o.

(** ** The storage check *)

Definition id_name : list Z := [95; 105; 100].
Definition ref_name : list Z := [36; 114; 101; 102].
Definition dollar_id_name : list Z := [36; 105; 100].

Definition bad_name (n : list Z) : bool := existsb (λ c, (c =? dot) || (c =? dollar)) n.

(** [okForStorage]: a name with a dot or a dollar sign decides at once. *)
Definition ok_with (ok : bval → bool) : bobj → bool :=
  fix go (o : bobj) : bool :=
    match o with
    | [] => true
    | (n, v) :: o' =>
        if bad_name n then bool_decide (n = ref_name) || bool_decide (n = dollar_id_name)
        else if bool_decide (n = id_name) && match v with BRegEx _ _ => true | _ => false end then false
        else if ok v then go o' else false
    end.

Fixpoint ok_val (v : bval) : bool :=
  match v with
  | BObject o | BArray o | BCodeWScope _ o => ok_with ok_val o
  | _ => true
  end.

Definition okForStorage (o : bobj) : bool := ok_with ok_val o.

End Fields.

(** ** Numbers and bounds of types *)

Module Build.

(** [appendIntOrLL]: [x * -1] overflows for the least long, [None]. *)
Definition appendIntOrLL (n : Z) : option bval :=
  if n =? - 2 ^ 63 then None
  else if Z.abs n <? (2 ^ 31 - 1) / 2 then Some (BInt n) else Some (BLong n).

(** [appendNumber(long long)]: the smallest sensible type. *)
Definition appendNumber (n : Z) : option bval :=
  if n =? - 2 ^ 63 then None
  else if Z.abs n <? 2 ^ 30 then Some (BInt n)
  else if Z.abs n <? 2 ^ 40 then Some (BDouble (dbl_of_Z n))
  else Some (BLong n).

(** [numeric_limits<double>::max()] and its negation. *)
Definition DBL_MAX : Z := 0x7FEFFFFFFFFFFFFF.
Definition NEG_DBL_MAX : Z := 0xFFEFFFFFFFFFFFFF.

Definition zero_oid : list Z := repeat 0 12.
Definition ff_oid : list Z := repeat 0xff 12.

(** [appendMinForType] and [appendMaxForType], on the type of a value. *)
Definition minForType (v : bval) : bval :=
  match v with
  | BInt _ | BDouble _ | BLong _ => BDouble NEG_DBL_MAX
  | BSymbol _ | BString _ => BString []
  | BDate _ => BBool true
  | BTimestamp _ => BTimestamp 0
  | BUndefined => BUndefined
  | BMinKey => BMinKey
  | BMaxKey => BMaxKey
  | BOID _ => BOID zero_oid
  | BBool _ => BBool false
  | BNull => BNull
  | BObject _ => BObject []
  | BArray _ => BArray []
  | BBinData _ _ => BBinData 0 []
  | BRegEx _ _ => BRegEx [] []
  | BDBRef _ _ => BDBRef [] zero_oid
  | BCode _ => BCode []
  | BCodeWScope _ _ => BCodeWScope [] []
  end.

Definition maxForType (v : bval) : bval :=
  match v with
  | BInt _ | BDouble _ | BLong _ => BDouble DBL_MAX
  | BSymbol _ | BString _ => minForType (BObject [])
  | BDate _ => BDate (2 ^ 63 - 1)
  | BTimestamp _ => BTimestamp (2 ^ 64 - 1)
  | BUndefined => BUndefined
  | BMinKey => BMinKey
  | BMaxKey => BMaxKey
  | BOID _ => BOID ff_oid
  | BBool _ => BBool true
  | BNull => BNull
  | BObject _ => minForType (BArray [])
  | BArray _ => minForType (BBinData 0 [])
  | BBinData _ _ => minForType (BOID [])
  | BRegEx _ _ => minForType (BDBRef [] [])
  | BDBRef _ _ => minForType (BCode [])
  | BCode _ => minForType (BCodeWScope [] [])
  | BCodeWScope _ _ => minForType BMaxKey
  end.

End Build.

(** ** Sorting by a key pattern *)

Module Sort.

(** [woSortOrder]: a missing field sorts as null. *)
Definition sort_field (useDotted : bool) (name : list Z) (o : bobj) : list Z * bval :=
  match (if useDotted then Fields.getFieldDotted name o else Fields.getField name o) with
  | Some e => e
  | None => ([], BNull)
  end.

Fixpoint sort_from (sortKey : bobj) (useDotted : bool) (a b : bobj) : Z :=
  match sortKey with
  | [] => 0
  | f :: k =>
      let x := Element.woCompare (sort_field useDotted f.1 a) (sort_field useDotted f.1 b) false in
      let x := if dbl_ltb (Element.numberDouble f.2) 0 then - x else x in
      if negb (x =? 0) then x else sort_from k useDotted a b
  end.

Definition woSortOrder (a b sortKey : bobj) (useDotted : bool) : result Z Z :=
  match a, b with
  | [], [] => Ok 0
  | [], _ => Ok (-1)
  | _, [] => Ok 1
  | _, _ => match sortKey with [] => Err 10060 | _ => Ok (sort_from sortKey useDotted a b) end
  end.

End Sort.

(** ** Lookup lemmas *)

Lemma getField_elem n o e : Fields.getField n o = Some e → e ∈ o ∧ e.1 = n.
Proof.
  induction o as [|x o IH]; [done|]. cbn [Fields.getField]. case_bool_decide as E.
  - intros [= ->]. split; [by left|done].
  - intros [H1 H2]%IH. split; [by right|done].
Qed.

Lemma getField_app n o1 o2 :
  Fields.getField n (o1 ++ o2) =
  match Fields.getField n o1 with Some e => Some e | None => Fields.getField n o2 end.
Proof. induction o1 as [|x o1 IH]; [done|]. cbn [app Fields.getField]. by case_bool_decide. Qed.

Lemma getField_None n o : (∀ e, e ∈ o → e.1 ≠ n) → Fields.getField n o = None.
Proof.
  induction o as [|x o IH]; intros H; [done|]. cbn [Fields.getField].
  rewrite bool_decide_eq_false_2; [apply IH; set_solver|]. intros E. by apply (H x); [left|].
Qed.

(** The element found by a dotted path comes from inside the document. *)
Lemma getFieldDotted_ind (P : list Z * bval → Prop) fuel :
  (∀ e, P e → match e.2 with BObject s | BArray s => Forall P s | _ => True end) →
  ∀ n o e, Forall P o → Fields.getFieldDotted_from fuel n o = Some e → P e.
Proof.
  intros HP. induction fuel as [|fuel IH]; intros n o e Ho; cbn [Fields.getFieldDotted_from];
    (destruct (Fields.getField n o) as [e'|] eqn:G;
     [intros [= <-]; rewrite Forall_forall in Ho; by apply Ho, (getField_elem _ _ _ G)|]);
    (destruct (Fields.split_dot n) as [[l r]|]; [|done]); [done|].
  assert (Forall P (Fields.getObjectField l o)) as Hs.
  { unfold Fields.getObjectField. destruct (Fields.getField l o) as [[l' v]|] eqn:G'; [|constructor].
    apply getField_elem in G' as [G' _]. rewrite Forall_forall in Ho. specialize (HP _ (Ho _ G')). cbn [snd] in HP.
    destruct v; try constructor; done. }
  destruct (Fields.getObjectField l o) as [|x s]; [done|]. by apply IH.
Qed.

(** ** Sorting *)

(** The sort key of a document: each field of the pattern in turn, negated where descending. *)
Fixpoint pattern_key (sortKey : bobj) (useDotted : bool) (o : bobj) : list Z :=
  match sortKey with
  | [] => []
  | f :: k =>
      (if dbl_ltb (Element.numberDouble f.2) 0
       then map Z.opp (field_key false (Sort.sort_field useDotted f.1 o))
       else field_key false (Sort.sort_field useDotted f.1 o)) ++ pattern_key k useDotted o
  end.

Definition sort_key (sortKey : bobj) (useDotted : bool) (o : bobj) : list Z :=
  match o with [] => [0] | _ => 1 :: pattern_key sortKey useDotted o end.

Section SortKeys.
Context (m : date_mode).

Lemma edom_inner e :
  edom m e → match e.2 with BObject s | BArray s => Forall (edom m) s | _ => True end.
Proof.
  intros (_ & W & D). destruct (e.2); try done; cbn [wf vdom] in W, D;
    apply odom_elems, andb_true_iff; bool_facts; done.
Qed.

Lemma sort_field_dom useDotted n o : Forall (edom m) o → edom m (Sort.sort_field useDotted n o).
Proof.
  intros H. unfold Sort.sort_field. destruct useDotted.
  - unfold Fields.getFieldDotted. destruct (Fields.getFieldDotted_from _ n o) as [e|] eqn:E; [|done].
    by apply (getFieldDotted_ind (edom m) _ edom_inner _ _ _ H E).
  - destruct (Fields.getField n o) as [e|] eqn:E; [|done]. apply getField_elem in E as [E _].
    rewrite Forall_forall in H. by apply H.
Qed.

Lemma sort_from_key sortKey useDotted a b :
  Forall (edom m) a → Forall (edom m) b →
  Z.sgn (Sort.sort_from sortKey useDotted a b) =
  strcmp (pattern_key sortKey useDotted a) (pattern_key sortKey useDotted b).
Proof.
  intros Ha Hb. induction sortKey as [|f k IH]; [done|]. cbn [Sort.sort_from pattern_key].
  rewrite (dir_key_ok m) by (by apply sort_field_dom). rewrite <- IH. unfold lexi.
  set (x := if dbl_ltb _ 0 then _ else _). destruct (x =? 0) eqn:E; done.
Qed.
End SortKeys.

(** Sorting by a key pattern is sorting by a key of each document alone: [woSortOrder]
    compares documents exactly as the lexicographic order of their sort keys does, so it is a
    total preorder whatever fields are missing. *)
Theorem bson_sort_key m a b sortKey useDotted :
  odom m a = true → odom m b = true → sortKey ≠ [] →
  ∃ c, Sort.woSortOrder a b sortKey useDotted = Ok c ∧
    Z.sgn c = strcmp (sort_key sortKey useDotted a) (sort_key sortKey useDotted b).
Proof.
  intros Ha%odom_elems Hb%odom_elems N. unfold Sort.woSortOrder.
  destruct a as [|x a], b as [|y b]; try (by eexists). destruct sortKey as [|f k]; [done|].
  eexists. split; [reflexivity|]. rewrite (sort_from_key m) by done. done.
Qed.

(** ** Dotted paths and flattening *)

Definition no_dot (n : list Z) : bool := forallb (λ c, negb (c =? Fields.dot)) n.

(** No dots in names, and no arrays, inside embedded documents. *)
Definition plain_with (pl : bval → bool) : bobj → bool :=
  fix go (o : bobj) : bool :=
    match o with
    | [] => true
    | (n, v) :: o' => no_dot n && pl v && go o'
    end.

Fixpoint plain_val (v : bval) : bool :=
  match v with BObject o => plain_with plain_val o | BArray _ => false | _ => true end.

Definition plain (o : bobj) : bool := plain_with plain_val o.

Lemma split_dot_spec n l r :
  Fields.split_dot n = Some (l, r) → n = l ++ Fields.dot :: r ∧ no_dot l = true.
Proof.
  revert l r. induction n as [|c n IH]; intros l r; [done|]. cbn [Fields.split_dot].
  destruct (c =? Fields.dot) eqn:E.
  - intros [= <- <-]. bool_facts. by subst.
  - destruct (Fields.split_dot n) as [[l' r']|]; [|done]. cbn [mbind option_bind]. intros [= <- <-].
    destruct (IH l' r' eq_refl) as [-> H]. split; [done|]. cbn [no_dot forallb]. by rewrite E.
Qed.

(** The text before the first dot is unique. *)
Lemma no_dot_prefix a b s t :
  no_dot a = true → no_dot b = true → a ++ Fields.dot :: s = b ++ Fields.dot :: t → a = b ∧ s = t.
Proof.
  revert b. induction a as [|x a IH]; intros [|y b] Ha Hb E; cbn [no_dot forallb app] in *; bool_facts; simplify_eq; try done.
  destruct (IH b) as [-> ->]; done.
Qed.

Lemma no_dot_app a s : no_dot (a ++ Fields.dot :: s) = false.
Proof. unfold no_dot. rewrite forallb_app. cbn [forallb]. rewrite Z.eqb_refl. cbn. apply andb_false_r. Qed.

(** Flattened names extend the path by dots. *)
Lemma flatten_names v nm e :
  e ∈ Fields.flatten_val nm v → e.1 = nm ∨ ∃ s, e.1 = nm ++ Fields.dot :: s.
Proof.
  revert nm. induction v as [o IH|o _|c o _|v N1 N2 N3] using bval_ind'; intros nm.
  - cbn [Fields.flatten_val]. intros H. right. revert H. induction IH as [|[n v] o Hv _ IHo]; [set_solver|].
    cbn [Fields.flatten_with]. intros [H|H]%elem_of_app; [|by apply IHo].
    apply Hv in H as [->|(s & ->)].
    + exists n. by rewrite <- (assoc_L app).
    + exists (n ++ Fields.dot :: s). by rewrite <- !(assoc_L app).
  - cbn. intros ->%list_elem_of_singleton. by left.
  - cbn. intros ->%list_elem_of_singleton. by left.
  - destruct v; try congruence; cbn; intros ->%list_elem_of_singleton; by left.
Qed.

Lemma plain_cons n v o :
  plain_with plain_val ((n, v) :: o) = true ↔ no_dot n = true ∧ plain_val v = true ∧ plain_with plain_val o = true.
Proof. cbn [plain_with]. rewrite !andb_true_iff. tauto. Qed.

(** The flattened fields of another field do not answer to the path. *)
Lemma flatten_other base n v p :
  (∀ s, p ≠ n ++ Fields.dot :: s) → p ≠ n →
  Fields.getField (base ++ p) (Fields.flatten_val (base ++ n) v) = None.
Proof.
  intros H1 H2. apply getField_None. intros e [E|(s & E)]%flatten_names; rewrite E.
  - intros ?%(inj (app base)). congruence.
  - rewrite <- (assoc_L app). intros ?%(inj (app base)). by apply (H1 s).
Qed.

Lemma flatten_leaf base p o n v :
  plain_with plain_val o = true → Fields.getField p o = Some (n, v) → (∀ s, v ≠ BObject s) →
  Fields.getField (base ++ p) (Fields.flatten_with Fields.flatten_val base o) = Some (base ++ p, v).
Proof.
  intros P G N. assert (no_dot p = true) as Dp.
  { apply getField_elem in G as [G E]. cbn in E. subst n. clear N. induction o as [|[k w] o IH]; [set_solver|].
    apply plain_cons in P as (H1 & _ & H3). apply elem_of_cons in G as [[= -> ->]|G]; auto. }
  induction o as [|[k w] o IH]; [done|]. apply plain_cons in P as (H1 & _ & H3).
  cbn [Fields.getField fst] in G. cbn [Fields.flatten_with]. rewrite getField_app. case_bool_decide as E.
  - simplify_eq. destruct v; cbn [Fields.flatten_val Fields.getField fst]; try by rewrite bool_decide_eq_true_2.
    by destruct (N o0).
  - rewrite flatten_other; [by apply IH| |done]. intros s ->. by rewrite no_dot_app in Dp.
Qed.

Lemma flatten_sub base l r o sub x :
  plain_with plain_val o = true → no_dot l = true → Fields.getObjectField l o = sub → sub ≠ [] →
  (plain_with plain_val sub = true →
   Fields.getField (base ++ l ++ Fields.dot :: r)
     (Fields.flatten_with Fields.flatten_val ((base ++ l) ++ [Fields.dot]) sub) = Some x) →
  Fields.getField (base ++ l ++ Fields.dot :: r) (Fields.flatten_with Fields.flatten_val base o) = Some x.
Proof.
  unfold Fields.getObjectField. intros P Dl G N HX. induction o as [|[k w] o IH]; [by subst|].
  apply plain_cons in P as (H1 & H2 & H3). cbn [Fields.getField fst] in G. cbn [Fields.flatten_with].
  rewrite getField_app. case_bool_decide as E.
  - subst k. destruct w; try (by subst sub). subst. cbn [Fields.flatten_val]. by rewrite HX.
  - rewrite flatten_other; [by apply IH| |].
    + intros s Hs. symmetry in Hs. apply no_dot_prefix in Hs as [? _]; congruence.
    + intros <-. by rewrite no_dot_app in H1.
Qed.

Lemma dotted_flatten fuel p base o n v :
  plain_with plain_val o = true → Fields.getFieldDotted_from fuel p o = Some (n, v) → (∀ s, v ≠ BObject s) →
  Fields.getField (base ++ p) (Fields.flatten_with Fields.flatten_val base o) = Some (base ++ p, v).
Proof.
  revert p base o. induction fuel as [|fuel IH]; intros p base o P; cbn [Fields.getFieldDotted_from];
    (destruct (Fields.getField p o) as [e|] eqn:G; [intros [= ->] N; by apply (flatten_leaf _ _ _ n)|]);
    (destruct (Fields.split_dot p) as [[l r]|] eqn:S; [|done]); [done|].
  apply split_dot_spec in S as [-> Dl]. intros H N.
  apply (flatten_sub base l r o (Fields.getObjectField l o)); try done.
  - by destruct (Fields.getObjectField l o).
  - intros Ps. destruct (Fields.getObjectField l o) as [|x s]; [done|].
    specialize (IH r ((base ++ l) ++ [Fields.dot]) _ Ps H N). rewrite <- !(assoc_L app) in IH. rewrite <- !(assoc_L app). exact IH.
Qed.

(** In a document without arrays or dotted names, what a dotted path finds by walking the
    embedded documents is what the path itself finds in the flattened document. *)
Theorem bson_dotted_flatten p o n v :
  plain o = true → Fields.getFieldDotted p o = Some (n, v) → (∀ s, v ≠ BObject s) →
  Fields.getField p (Fields.nested2dotted o) = Some (p, v).
Proof. apply (dotted_flatten _ p []). Qed.

(** ** Changing one field *)

Lemma clone_lookup n v o k :
  Fields.getField k (Fields.cloneBSONWithFieldChanged o (n, v) true) =
  if bool_decide (k = n) then Some (n, v) else Fields.getField k o.
Proof.
  unfold Fields.cloneBSONWithFieldChanged, Fields.hasField. cbn [fst].
  assert (∀ f, (∀ e : list Z * bval, f e = if bool_decide (n = e.1) then (n, v) else e) →
    Fields.getField k (map f o) =
    if bool_decide (k = n) then match Fields.getField n o with Some _ => Some (n, v) | None => None end
    else Fields.getField k o) as E.
  { intros f Hf. induction o as [|[k' w] o IH]; cbn [map Fields.getField fst]; [by case_bool_decide|].
    rewrite Hf, IH. cbn [fst]. repeat case_bool_decide; simplify_eq/=; done. }
  destruct (Fields.getField n o) as [e|] eqn:G; cbn [negb andb].
  - rewrite E by done. done.
  - rewrite getField_app, E by done. cbn [Fields.getField fst]. repeat case_bool_decide; try done.
    by destruct (Fields.getField k o).
Qed.

Lemma removeField_lookup n o k :
  Fields.getField k (Fields.removeField n o) = if bool_decide (k = n) then None else Fields.getField k o.
Proof.
  unfold Fields.removeField. induction o as [|[k' w] o IH]; [by case_bool_decide|].
  destruct (decide (n = k')) as [<-|N].
  - rewrite filter_cons_False by (cbn; tauto). rewrite IH. cbn [Fields.getField fst]. by repeat case_bool_decide.
  - rewrite filter_cons_True by done. cbn [Fields.getField fst]. rewrite IH.
    repeat case_bool_decide; simplify_eq; done.
Qed.

(** ** Numbers *)

(** [appendNumber] keeps the number: whatever type it picks reads back the same integer
    and compares equal to the long. *)
Theorem bson_appendNumber n :
  - 2 ^ 63 < n < 2 ^ 63 →
  ∃ v, Build.appendNumber n = Some v ∧ Element.numberLong v = Some n ∧
    Element.compareElementValues v (BLong n) = 0.
Proof.
  intros H. unfold Build.appendNumber. rewrite (proj2 (Z.eqb_neq n (- 2 ^ 63))) by lia.
  assert (Element.compare_doubles (dbl_of_Z n) (dbl_of_Z n) = 0) as R
    by (apply Z.sgn_null_iff; rewrite compare_doubles_key, Z.sub_diag; done).
  destruct (Z.abs n <? 2 ^ 30) eqn:E1; [eexists; split_and!; [done..|exact R]|].
  destruct (Z.abs n <? 2 ^ 40) eqn:E2; (eexists; split; [done|]; split; [|try exact R]).
  - apply Z.ltb_lt in E2. cbn [Element.numberLong]. unfold Element.dbl_cast.
    rewrite dbl_of_Z_not_nan, dbl_trunc_exact by lia. change (2 ^ (64 - 1)) with (2 ^ 63).
    rewrite (proj2 (Z.leb_le _ _)), (proj2 (Z.ltb_lt _ _)) by lia. done.
  - done.
  - cbn. unfold Element.compare_ints. by rewrite Z.ltb_irrefl, Z.eqb_refl.
Qed.

(** ** The bounds of a type *)

(** The values the bounds are meant for: finite numbers, and no scoped code. *)
Definition bounded (v : bval) : bool :=
  match v with BDouble d => dbl_exp d <? 2047 | BCodeWScope _ _ => false | _ => true end.

Lemma DBL_MAX_key : num_key Build.DBL_MAX = (2 ^ 53 - 1) * 2 ^ 2045.
Proof. reflexivity. Qed.

Lemma NEG_DBL_MAX_key : num_key Build.NEG_DBL_MAX = - ((2 ^ 53 - 1) * 2 ^ 2045).
Proof. reflexivity. Qed.

Lemma dbl_mag_finite d : dbl_exp d < 2047 → 0 ≤ dbl_mag d ≤ (2 ^ 53 - 1) * 2 ^ 2045.
Proof.
  intros E. assert (0 ≤ dbl_exp d) as E0 by (apply Z.mod_pos_bound; lia).
  assert (0 ≤ dbl_frac d < 2 ^ 52) as F by (apply Z.mod_pos_bound; lia).
  unfold dbl_mag. destruct (dbl_exp d =? 0) eqn:Z0.
  - assert (2 ^ 53 ≤ 2 ^ 2045) as L by (apply Z.pow_le_mono_r; lia). revert L. generalize (2 ^ 2045). intros. nia.
  - apply Z.eqb_neq in Z0. rewrite (proj2 (Z.eqb_neq _ 2047)) by lia.
    assert (2 ^ (dbl_exp d - 1) ≤ 2 ^ 2045) as L by (apply Z.pow_le_mono_r; lia).
    assert (0 < 2 ^ (dbl_exp d - 1)) as L0 by (apply Z.pow_pos_nonneg; lia).
    revert L L0. generalize (2 ^ 2045) (2 ^ (dbl_exp d - 1)). intros. nia.
Qed.

Lemma num_key_finite d : dbl_exp d < 2047 → Z.abs (num_key d) ≤ (2 ^ 53 - 1) * 2 ^ 2045.
Proof.
  intros E. unfold num_key, dbl_isNaN. rewrite (proj2 (Z.eqb_neq _ 2047)) by lia. cbn [andb].
  pose proof (dbl_mag_finite d E) as M. unfold dbl_val. revert M. generalize ((2 ^ 53 - 1) * 2 ^ 2045).
  destruct (dbl_neg d); lia.
Qed.

Lemma num_key_long n : - 2 ^ 63 ≤ n < 2 ^ 63 → Z.abs (num_key (dbl_of_Z n)) ≤ (2 ^ 53 - 1) * 2 ^ 2045.
Proof.
  intros H. destruct (dbl_of_Z_cases n) as (N & _ & V); [lia|]. unfold num_key. rewrite N, V.
  destruct (decide (n = 0)) as [->|N0]; [by vm_compute|].
  pose proof (dbl_mant_bounds (Z.abs n) ltac:(lia)) as M.
  assert (0 ≤ Z.log2 (Z.abs n) ≤ 63) as L.
  { split; [apply Z.log2_nonneg|]. change 63 with (Z.log2 (2 ^ 63)). apply Z.log2_le_mono. lia. }
  assert (Z.abs (Z.sgn n) = 1) as S by lia.
  assert (2 ^ (Z.log2 (Z.abs n) + 1022) ≤ 2 ^ 2044) as P by (apply Z.pow_le_mono_r; lia).
  assert (0 < 2 ^ (Z.log2 (Z.abs n) + 1022)) as P0 by (apply Z.pow_pos_nonneg; lia).
  change (2 ^ 2045) with (2 * 2 ^ 2044). rewrite Z.abs_mul, S, Z.mul_1_l. revert P P0 M. generalize (2 ^ (Z.log2 (Z.abs n) + 1022)) (2 ^ 2044) (dbl_mant (Z.abs n)).
  intros x y z. nia.
Qed.

Lemma bounds_num v :
  wf v = true → bounded v = true → Element.isNumber v = true →
  Z.abs (num_key (Element.numberDouble v)) ≤ (2 ^ 53 - 1) * 2 ^ 2045.
Proof.
  intros W B N. destruct v; try done; cbn [wf bounded Element.numberDouble] in *.
  - apply num_key_finite. by apply Z.ltb_lt.
  - apply num_key_long. bool_facts. lia.
  - apply num_key_long. bool_facts. lia.
Qed.

Lemma compare_doubles_le l r : num_key l ≤ num_key r → Element.compare_doubles l r ≤ 0.
Proof.
  intros H. pose proof (compare_doubles_key l r) as E. revert H E. generalize (num_key l) (num_key r). lia.
Qed.

Lemma compare_strings_nil s : forallb is_byte s = true → Element.compare_strings [] s ≤ 0.
Proof.
  unfold Element.compare_strings. destruct s as [|b s]; [done|]. cbn [forallb app memcmp length]. intros H.
  apply andb_true_iff in H as [H _]. unfold is_byte in H. destruct s; cbn [app memcmp]; crush_cmp.
Qed.

Lemma memcmp_repeat_lo n l : forallb is_byte l = true → memcmp (repeat 0 n) l ≤ 0.
Proof.
  revert l. induction n as [|n IH]; intros [|b l]; try done. cbn [repeat forallb memcmp]. intros H.
  apply andb_true_iff in H as [H H']. unfold is_byte in H. destruct (0 =? b) eqn:E; [by apply IH|]. crush_cmp.
Qed.

Lemma memcmp_repeat_hi n l : forallb is_byte l = true → memcmp l (repeat 0xff n) ≤ 0.
Proof.
  revert l. induction n as [|n IH]; intros [|b l]; try done. cbn [repeat forallb memcmp]. intros H.
  apply andb_true_iff in H as [H H']. unfold is_byte in H. destruct (b =? 0xff) eqn:E; [by apply IH|]. crush_cmp.
Qed.

Lemma strcmp_nil l : strcmp [] l ≤ 0.
Proof. by destruct l. Qed.

Lemma bindata_min t d :
  is_byte t = true → Element.compareElementValues (BBinData 0 []) (BBinData t d) ≤ 0.
Proof.
  intros H. unfold is_byte in H. cbn [Element.compareElementValues length memcmp].
  destruct d; cbn [length memcmp]; [crush_cmp|]. rewrite (proj2 (Z.eqb_neq _ 0)) by lia. cbn [negb]. lia.
Qed.

Lemma dbref_min ns oid :
  forallb is_byte oid = true → length oid = 12%nat →
  Element.compareElementValues (BDBRef [] Build.zero_oid) (BDBRef ns oid) ≤ 0.
Proof.
  intros B L. cbn [Element.compareElementValues val_bytes].
  set (l := Z.of_nat _). set (r := Z.of_nat (length (le32 (Z.of_nat (length ns) + 1) ++ _))).
  assert (l - r = - Z.of_nat (length ns)) as ->.
  { subst l r. rewrite !length_app, L. cbn [length]. unfold le32. rewrite !length_le_bytes. unfold Build.zero_oid.
    rewrite repeat_length. lia. }
  destruct ns as [|c ns]; cbn [length]; [|rewrite (proj2 (Z.eqb_neq _ 0)) by lia; cbn [negb]; lia].
  cbn [negb Z.eqb Z.of_nat Z.opp Z.add app]. rewrite memcmp_app, memcmp_refl by done. cbn [Z.eqb memcmp].
  by apply memcmp_repeat_lo.
Qed.

Lemma compare_ints_le a b : a ≤ b → Element.compare_ints a b ≤ 0.
Proof. unfold Element.compare_ints. crush_cmp. Qed.

#[local] Hint Resolve compare_strings_nil memcmp_repeat_lo memcmp_repeat_hi strcmp_nil bindata_min dbref_min
  compare_ints_le : tokumx.

Lemma wo_elem_value cv l r :
  Element.canonicalType l.2 = Element.canonicalType r.2 → Element.wo_elem false cv l r = cv l.2 r.2.
Proof. intros E. unfold Element.wo_elem. by rewrite E, Z.sub_diag. Qed.

Lemma wo_elem_type cv l r :
  Element.canonicalType l.2 < Element.canonicalType r.2 → Element.isNumber l.2 && Element.isNumber r.2 = false →
  Element.wo_elem false cv l r ≤ 0.
Proof.
  intros E N. unfold Element.wo_elem. rewrite (proj2 (Z.eqb_neq _ 0)) by lia.
  destruct (Element.isNumber l.2), (Element.isNumber r.2); cbn [negb orb andb]; try done; lia.
Qed.

Lemma num_min v :
  wf v = true → bounded v = true → Element.isNumber v = true →
  Element.compareElementValues (BDouble Build.NEG_DBL_MAX) v ≤ 0.
Proof.
  intros W B N. pose proof (bounds_num v W B N) as K.
  assert (Element.compareElementValues (BDouble Build.NEG_DBL_MAX) v =
    Element.compare_doubles Build.NEG_DBL_MAX (Element.numberDouble v)) as -> by (by destruct v).
  apply compare_doubles_le. rewrite NEG_DBL_MAX_key. revert K. generalize ((2 ^ 53 - 1) * 2 ^ 2045). lia.
Qed.

Lemma num_max v :
  wf v = true → bounded v = true → Element.isNumber v = true →
  Element.compareElementValues v (BDouble Build.DBL_MAX) ≤ 0.
Proof.
  intros W B N. pose proof (bounds_num v W B N) as K.
  assert (Element.compareElementValues v (BDouble Build.DBL_MAX) =
    Element.compare_doubles (Element.numberDouble v) Build.DBL_MAX) as -> by (by destruct v).
  apply compare_doubles_le. rewrite DBL_MAX_key. revert K. generalize ((2 ^ 53 - 1) * 2 ^ 2045). lia.
Qed.

Lemma minForType_le n n' v :
  wf v = true → bounded v = true → Element.woCompare (n, Build.minForType v) (n', v) false ≤ 0.
Proof.
  intros W B. unfold Element.woCompare. destruct (Element.isNumber v) eqn:N.
  - rewrite wo_elem_value by (by destruct v). destruct v; try done; by apply num_min.
  - destruct v; try done;
      try (rewrite wo_elem_value by done; cbn [snd Build.minForType]);
      try (apply wo_elem_type; done).
    all: cbn [wf] in W; rewrite ?andb_true_iff in W.
    all: try (by destruct_and?; bool_facts; auto with tokumx; cbn; auto with tokumx).
    + by destruct o.
    + by destruct o.
    + destruct W as [W _]. by apply memcmp_repeat_lo.
    + by destruct b.
    + cbn [Element.compareElementValues]. by destruct regex, flags.
Qed.

Lemma maxForType_ge n n' v :
  wf v = true → bounded v = true → Element.woCompare (n, v) (n', Build.maxForType v) false ≤ 0.
Proof.
  intros W B. unfold Element.woCompare. destruct (Element.isNumber v) eqn:N.
  - rewrite wo_elem_value by (by destruct v). destruct v; try done; by apply num_max.
  - destruct v; try done; try (apply wo_elem_type; done);
      (rewrite wo_elem_value by done); cbn [wf snd Build.maxForType Element.compareElementValues] in *;
      rewrite ?andb_true_iff in W.
    + destruct W as [W _]. by apply memcmp_repeat_hi.
    + by destruct b.
    + bool_facts. apply compare_ints_le. lia.
    + bool_facts. apply compare_ints_le. lia.
Qed.

(** The bounds [appendMinForType] and [appendMaxForType] give for a type enclose, in the
    order of BSON, every value of that type but the infinities, NaN and scoped code. *)
Theorem bson_type_bounds n n1 n2 v :
  wf v = true → bounded v = true →
  Element.woCompare (n1, Build.minForType v) (n, v) false ≤ 0 ∧
  Element.woCompare (n, v) (n2, Build.maxForType v) false ≤ 0.
Proof. intros W B. split; [by apply minForType_le|by apply maxForType_ge]. Qed.

(** ** The storage check *)

(** Every field name of a document, embedded documents included. *)
Definition names_with (nm : bval → list (list Z)) : bobj → list (list Z) :=
  fix go (o : bobj) : list (list Z) :=
    match o with [] => [] | (n, v) :: o' => n :: nm v ++ go o' end.

Fixpoint names_val (v : bval) : list (list Z) :=
  match v with BObject o | BArray o | BCodeWScope _ o => names_with names_val o | _ => [] end.

Definition all_names (o : bobj) : list (list Z) := names_with names_val o.

Definition dbref_name (n : list Z) : Prop := n = Fields.ref_name ∨ n = Fields.dollar_id_name.

Lemma ok_with_names o :
  Forall (λ e, (∀ n, n ∈ names_val e.2 → ¬ dbref_name n) → Fields.ok_val e.2 = true →
               ∀ n, n ∈ names_val e.2 → Fields.bad_name n = false) o →
  (∀ n, n ∈ all_names o → ¬ dbref_name n) → Fields.okForStorage o = true →
  ∀ n, n ∈ all_names o → Fields.bad_name n = false.
Proof.
  unfold Fields.okForStorage, all_names. induction 1 as [|[k v] o Hv Ho IH]; [set_solver|].
  cbn [names_with Fields.ok_with snd] in *. intros D Hok n Hn.
  destruct (Fields.bad_name k) eqn:Bk.
  { exfalso. apply (D k); [by left|]. apply orb_true_iff in Hok as [E%bool_decide_eq_true|E%bool_decide_eq_true];
      [by left|by right]. }
  destruct (_ && _); [done|]. destruct (Fields.ok_val v) eqn:Ev; [|done].
  apply elem_of_cons in Hn as [->|[Hn|Hn]%elem_of_app]; [done| |].
  - apply Hv; [|done..]. intros n' ?. apply D. right. apply elem_of_app. by left.
  - apply IH; [|done..]. intros n' ?. apply D. right. apply elem_of_app. by right.
Qed.

Lemma ok_val_names v :
  (∀ n, n ∈ names_val v → ¬ dbref_name n) → Fields.ok_val v = true →
  ∀ n, n ∈ names_val v → Fields.bad_name n = false.
Proof.
  induction v as [o IH|o IH|c o IH|v N1 N2 N3] using bval_ind'; try by apply ok_with_names.
  destruct v; try congruence; set_solver.
Qed.

(** A document that passes [okForStorage] has no name with a dot or a dollar sign at any
    depth, provided it holds no DBRef field: a [$ref] or [$id] field ends the check at its
    level, and whatever follows it passes unseen. *)
Theorem bson_okForStorage o :
  (Fields.okForStorage o = true → (∀ n, n ∈ all_names o → ¬ dbref_name n) →
   ∀ n, n ∈ all_names o → Fields.bad_name n = false) ∧
  (∀ n v, dbref_name n → Fields.okForStorage ((n, v) :: o) = true).
Proof.
  split.
  - intros H D. apply ok_with_names; [|done..]. apply Forall_forall. intros. by apply (ok_val_names x.2).
  - intros n v [->| ->]; done.
Qed.

(** ** Concrete documents *)

Module BsonObjExample.

(** [{a: {b: 5, c: "x"}, d: 2}] and the pattern [{"a.b": -1, d: 1}]. *)
Definition obj_ex_nested : bobj :=
  [([97], BObject [([98], BInt 5); ([99], BString [120])]); ([100], BInt 2)].
Definition obj_ex_other : bobj := [([97], BObject [([98], BInt 7)]); ([100], BInt 1)].
Definition obj_ex_pattern : bobj := [([97; 46; 98], BInt (-1)); ([100], BInt 1)].

Example obj_ex_sort : Sort.woSortOrder obj_ex_nested obj_ex_other obj_ex_pattern true = Ok 1.
Proof. vm_compute. reflexivity. Qed.

Lemma bson_sort_key_witness :
  ∃ c, Sort.woSortOrder obj_ex_nested obj_ex_other obj_ex_pattern true = Ok c ∧
    Z.sgn c = strcmp (sort_key obj_ex_pattern true obj_ex_nested) (sort_key obj_ex_pattern true obj_ex_other).
Proof. apply (bson_sort_key CommonRange); [vm_compute; reflexivity..|discriminate]. Defined.

Lemma bson_dotted_flatten_witness :
  Fields.getField [97; 46; 98] (Fields.nested2dotted obj_ex_nested) = Some ([97; 46; 98], BInt 5).
Proof. apply (bson_dotted_flatten _ _ [98]); [reflexivity|reflexivity|discriminate]. Defined.

Lemma bson_appendNumber_witness :
  ∃ v, Build.appendNumber (2 ^ 39) = Some v ∧ Element.numberLong v = Some (2 ^ 39) ∧
    Element.compareElementValues v (BLong (2 ^ 39)) = 0.
Proof. apply (bson_appendNumber (2 ^ 39)). lia. Defined.

Lemma bson_type_bounds_witness :
  Element.woCompare ([], Build.minForType (BLong (- 2 ^ 63))) ([], BLong (- 2 ^ 63)) false ≤ 0 ∧
  Element.woCompare ([], BLong (- 2 ^ 63)) ([], Build.maxForType (BLong (- 2 ^ 63))) false ≤ 0.
Proof. apply (bson_type_bounds [] [] []); reflexivity. Defined.

(** Infinity and NaN lie outside the bounds of their type, and so does code with a scope of
    256 bytes: the comparison of scopes stops at the first zero byte, here that of the size. *)
Example obj_ex_infinity :
  0 < Element.woCompare ([], BDouble 0x7FF0000000000000) ([], Build.maxForType (BDouble 0)) false ∧
  0 < Element.woCompare ([], Build.minForType (BDouble 0)) ([], BDouble 0x7FF8000000000000) false.
Proof. vm_compute. done. Qed.

Example obj_ex_scope :
  let v := BCodeWScope [] [([97], BString (repeat 120 243))] in
  wf v = true ∧ 0 < Element.woCompare ([], Build.minForType v) ([], v) false.
Proof. vm_compute. done. Qed.

(** A document whose second field has a dollar sign passes the check behind a [$id]. *)
Example obj_ex_storage :
  Fields.okForStorage [(Fields.dollar_id_name, BInt 1); ([36; 115; 101; 116], BInt 1)] = true ∧
  Fields.okForStorage [([36; 115; 101; 116], BInt 1)] = false.
Proof. done. Qed.

Lemma bson_okForStorage_witness :
  Fields.bad_name [97] = false ∧ Fields.okForStorage ((Fields.ref_name, BNull) :: obj_ex_nested) = true.
Proof.
  destruct (bson_okForStorage obj_ex_nested) as [H1 H2]. split; [|apply H2; by left].
  apply H1; [reflexivity| |by left]. intros n Hn [-> | ->]; revert Hn; apply (bool_decide_unpack _); reflexivity.
Defined.

End BsonObjExample.
