(* ===== verification/DocOrder.v ===== *)
(** * What the sharding code asks of documents used as keys

    Chunk bounds are documents compared with [BSONObj::woCompare], tested with [operator==] and
    [isEmpty], and stored in maps ordered by [BSONObjCmp] (bson/bsonmisc.h).  [TotalOrd] and
    [DocOrder] state what that code relies on; [shard_doc] discharges it with the documents of BsonOrder on which
    the comparison is a total preorder.  [korder] decides goals of the order. *)

From S2P Require Import Prelude StdContainers Double Bson BsonOrder.
#[local] Open Scope Z_scope.

(** A comparison, and that it is a total preorder. *)
Class Cmp (K : Type) := woCompare : K → K → Z.

Class TotalOrd (K : Type) `{Cmp K} := {
  woCompare_opp (a b : K) : Z.sgn (woCompare b a) = - Z.sgn (woCompare a b);
  woCompare_trans (a b c : K) : woCompare a b <= 0 → woCompare b c <= 0 → woCompare a c <= 0
}.

Class DocOrder (K : Type) := {
  doc_cmp :: Cmp K;
  doc_total :: TotalOrd K;
  equal : K → K → bool;
  isEmpty : K → bool;
  empty : K;
  equal_spec a b : equal a b = (woCompare a b =? 0);
  empty_isEmpty : isEmpty empty = true
}.

(** [BSONObjCmp] with no order *)
Definition BSONObjCmp `{Cmp K} (l r : K) : bool := woCompare l r <? 0.

Definition kle `{Cmp K} (a b : K) : Prop := woCompare a b <= 0.

Section order.
Context `{TotalOrd K}.
Implicit Types a b c : K.

Lemma kle_refl a : kle a a.
Proof. unfold kle. pose proof (woCompare_opp a a). lia. Qed.

Lemma kle_trans a b c : kle a b → kle b c → kle a c.
Proof. apply woCompare_trans. Qed.

Lemma kle_total a b : ¬ kle a b → kle b a.
Proof. unfold kle. pose proof (woCompare_opp a b). lia. Qed.

#[global] Instance kle_dec a b : Decision (kle a b).
Proof. unfold kle. apply _. Defined.

Lemma cmp_true a b : BSONObjCmp a b = true ↔ ¬ kle b a.
Proof. unfold BSONObjCmp, kle. rewrite Z.ltb_lt. pose proof (woCompare_opp a b). lia. Qed.

Lemma cmp_false a b : BSONObjCmp a b = false ↔ kle b a.
Proof. unfold BSONObjCmp, kle. rewrite Z.ltb_ge. pose proof (woCompare_opp a b). lia. Qed.

Lemma woCompare_lt a b : (woCompare a b <? 0) = true ↔ ¬ kle b a.
Proof. apply cmp_true. Qed.

Lemma woCompare_ge a b : (0 <=? woCompare a b) = true ↔ kle b a.
Proof. unfold kle. rewrite Z.leb_le. pose proof (woCompare_opp a b). lia. Qed.

Lemma woCompare_le a b : (woCompare a b <=? 0) = true ↔ kle a b.
Proof. unfold kle. apply Z.leb_le. Qed.

Lemma woCompare_eq a b : (woCompare a b =? 0) = true ↔ kle a b ∧ kle b a.
Proof. unfold kle. rewrite Z.eqb_eq. pose proof (woCompare_opp a b). lia. Qed.

Lemma woCompare_gt a b : (0 <? woCompare a b) = true ↔ ¬ kle a b.
Proof. unfold kle. rewrite Z.ltb_lt. lia. Qed.

Lemma equivb_kle a b : equivb BSONObjCmp a b = true ↔ kle a b ∧ kle b a.
Proof. rewrite equivb_true, !cmp_false. tauto. Qed.

End order.

Lemma equal_true `{DocOrder K} (a b : K) : equal a b = true ↔ kle a b ∧ kle b a.
Proof. rewrite equal_spec. apply woCompare_eq. Qed.

(** Saturates the order facts by totality and transitivity. *)
Ltac korder_total :=
  repeat match goal with
  | H : ¬ kle ?a ?b |- _ =>
      lazymatch goal with _ : kle b a |- _ => fail | _ => pose proof (kle_total _ _ H) end
  end.
Ltac korder_trans :=
  repeat match goal with
  | H1 : kle ?a ?b, H2 : kle ?b ?c |- _ =>
      lazymatch goal with
      | _ : kle a c |- _ => fail
      | _ => pose proof (kle_trans _ _ _ H1 H2); try done
      end
  end.
Ltac korder :=
  repeat match goal with
  | H : _ ∧ _ |- _ => destruct H
  | |- _ ∧ _ => split
  | |- ¬ kle _ _ => intro
  | |- kle ?a ?a => apply kle_refl
  | |- kle ?a ?b => destruct (decide (kle a b)); [assumption|exfalso]
  end;
  try assumption; exfalso; korder_total; korder_trans;
  first [ done | match goal with H : ¬ kle ?a ?a |- _ => by destruct H; apply kle_refl end ].

#[global] Instance cmp_comparator `{TotalOrd K} : Comparator (BSONObjCmp (K:=K)).
Proof.
  split.
  - intros x. apply cmp_false, kle_refl.
  - intros x y z. rewrite !cmp_true. intros. korder.
  - intros x y z. rewrite !cmp_false. intros. korder.
Qed.

(** ** BSON documents *)

(** The documents of a comparable range, without unnamed [undefined] fields (BsonOrder). *)
Definition named (o : bobj) : bool :=
  forallb (λ e, negb (bool_decide (e.1 = []) && match e.2 with BUndefined => true | _ => false end)) o.

Definition shard_doc (m : date_mode) : Type := { o : bobj | odom m o && named o = true }.

Lemma named_spec o : named o = true → Forall (λ e : list Z * bval, ¬ (e.1 = [] ∧ e.2 = BUndefined)) o.
Proof.
  unfold named. rewrite forallb_forall. intros H. apply Forall_forall. intros e He [E1 E2].
  apply list_elem_of_In, H in He. by rewrite E1, E2 in He.
Qed.

Section docs.
Context (m : date_mode).

Lemma doc_dom (a : shard_doc m) : odom m (`a) = true.
Proof. exact (proj1 (andb_prop _ _ (proj2_sig a))). Qed.

Lemma doc_named (a : shard_doc m) : named (`a) = true.
Proof. exact (proj2 (andb_prop _ _ (proj2_sig a))). Qed.

Lemma doc_opp (a b : shard_doc m) :
  Z.sgn (Obj.woCompare (`b) (`a)) = - Z.sgn (Obj.woCompare (`a) (`b)).
Proof. rewrite !(okey_compare m) by apply doc_dom. apply strcmp_opp. Qed.

Lemma doc_trans (a b c : shard_doc m) :
  Obj.woCompare (`a) (`b) <= 0 → Obj.woCompare (`b) (`c) <= 0 → Obj.woCompare (`a) (`c) <= 0.
Proof.
  pose proof (okey_compare m _ _ (doc_dom a) (doc_dom b)). pose proof (okey_compare m _ _ (doc_dom b) (doc_dom c)).
  pose proof (okey_compare m _ _ (doc_dom a) (doc_dom c)).
  pose proof (strcmp_trans (okey (`a)) (okey (`b)) (okey (`c))). lia.
Qed.

Lemma doc_equal (a b : shard_doc m) :
  default false (Obj.equal (`a) (`b)) = (Obj.woCompare (`a) (`b) =? 0).
Proof. by rewrite equal_compare by (apply named_spec, doc_named). Qed.

#[global] Instance shard_doc_cmp : Cmp (shard_doc m) := λ a b, Obj.woCompare (`a) (`b).

#[global] Instance shard_doc_total : TotalOrd (shard_doc m).
Proof. split; [exact doc_opp|exact doc_trans]. Qed.

#[global, refine] Instance shard_doc_order : DocOrder (shard_doc m) := {|
  equal a b := default false (Obj.equal (`a) (`b));
  isEmpty a := match `a with [] => true | _ => false end;
  empty := [] ↾ eq_refl;
  equal_spec := doc_equal
|}.
Proof. done. Defined.

End docs.
