(* ===== verification/ChunkVersion.v ===== *)
(** * Versions of chunks

    Models s/chunk_version.h: the version of a chunk is a major and a minor number, read together
    as one unsigned 64-bit number, and the epoch of the collection.

    The theorems: the order of versions is the lexicographic order of (major, minor) and each
    increment moves up in it; what [toBSON] writes [fromBSON] reads back, with the epoch; and an
    array whose first element is no version is still reported as parsed. *)

From S2P Require Import Prelude Double Bson BsonOrder BsonObj.
#[local] Open Scope Z_scope.

(** An [OID] is its twelve bytes. *)
Definition OID_isSet (oid : list Z) : bool := negb (forallb (λ b, b =? 0) oid).

Record ChunkVersion := mkVersion { _major : Z; _minor : Z; _epoch : list Z }.

Module Version.

Definition no_epoch : list Z := repeat 0 12.

Definition zero : ChunkVersion := mkVersion 0 0 no_epoch.

(** The union: [_minor] is the low word of [_combined], [_major] the high one. *)
Definition _combined (v : ChunkVersion) : Z := u32 (_minor v) + 2 ^ 32 * u32 (_major v).

Definition of_combined (ll : Z) (epoch : list Z) : ChunkVersion :=
  mkVersion (i32 (ll / 2 ^ 32)) (i32 ll) epoch.

Definition incMajor (v : ChunkVersion) : ChunkVersion := mkVersion (i32 (_major v + 1)) 0 (_epoch v).
Definition incMinor (v : ChunkVersion) : ChunkVersion := mkVersion (_major v) (i32 (_minor v + 1)) (_epoch v).
Definition inc (major : bool) (v : ChunkVersion) : ChunkVersion := if major then incMajor v else incMinor v.

(** [incEpoch]: the new identifier is an argument. *)
Definition incEpoch (gen : list Z) : ChunkVersion := mkVersion 0 0 gen.

Definition toLong (v : ChunkVersion) : Z := _combined v.
Definition isSet (v : ChunkVersion) : bool := 0 <? _combined v.
Definition isEpochSet (v : ChunkVersion) : bool := OID_isSet (_epoch v).
Definition majorVersion (v : ChunkVersion) : Z := _major v.

Definition gt (v w : ChunkVersion) : bool := _combined w <? _combined v.
Definition ge (v w : ChunkVersion) : bool := _combined w <=? _combined v.
Definition lt (v w : ChunkVersion) : bool := _combined v <? _combined w.
Definition le (v w : ChunkVersion) : bool := _combined v <=? _combined w.

Definition hasCompatibleEpoch (v : ChunkVersion) (otherEpoch : list Z) : bool :=
  negb (OID_isSet otherEpoch && OID_isSet (_epoch v) && negb (bool_decide (otherEpoch = _epoch v))).

Definition isWriteCompatibleWith (v w : ChunkVersion) : bool :=
  hasCompatibleEpoch v (_epoch w) && (_major w =? _major v).

Definition isEquivalentTo (v w : ChunkVersion) : bool :=
  hasCompatibleEpoch v (_epoch w) && (_combined w =? _combined v).

(** ** Reading: the version and [canParse]; [None] is an undefined conversion of a double *)

(** [fromBSON] of the elements of an array, given the reading of its first; the test of the
    pointer [canParse] never fails. *)
Definition from_array (first : option (ChunkVersion * bool)) (rest : bobj) : option (ChunkVersion * bool) :=
  '(version, _) ← first;
  Some (match rest with
        | (_, BOID oid) :: _ => mkVersion (_major version) (_minor version) oid
        | _ => version
        end, true).

Fixpoint fromBSON_elem (el : bval) : option (ChunkVersion * bool) :=
  match el with
  | BArray [] => Some (zero, false)
  | BArray ((_, e) :: rest) => from_array (fromBSON_elem e) rest
  | BOID oid => Some (mkVersion 0 0 oid, true)
  | BInt _ | BLong _ | BDouble _ => n ← Element.numberLong el; Some (of_combined (u64 n) no_epoch, true)
  | BTimestamp t => Some (of_combined t no_epoch, true)
  | BDate d => Some (of_combined (u64 d) no_epoch, true)
  | _ => Some (of_combined 0 no_epoch, false)
  end.

Definition fromBSON_arr (arr : bobj) : option (ChunkVersion * bool) := fromBSON_elem (BArray arr).

Definition version_str : list Z := [118; 101; 114; 115; 105; 111; 110].
Definition lastmod_str : list Z := [108; 97; 115; 116; 109; 111; 100].
Definition Epoch_str : list Z := [69; 112; 111; 99; 104].

Definition fromBSON (obj : bobj) (prefixIn : list Z) : option (ChunkVersion * bool) :=
  let prefix :=
    if bool_decide (prefixIn = []) && Fields.hasField version_str obj then version_str
    else if bool_decide (prefixIn = []) && Fields.hasField lastmod_str obj then lastmod_str
    else prefixIn in
  '(version, canParse) ←
    match Fields.getField prefix obj with
    | Some e => fromBSON_elem e.2
    | None => Some (of_combined 0 no_epoch, false)
    end;
  Some (match Fields.getField (prefix ++ Epoch_str) obj with
        | Some (_, BOID oid) => (mkVersion (_major version) (_minor version) oid, true)
        | _ => (version, canParse)
        end).

(** ** Writing *)

Definition toBSON (v : ChunkVersion) (prefixIn : list Z) : bobj :=
  let prefix := if bool_decide (prefixIn = []) then version_str else prefixIn in
  [(prefix, BTimestamp (_combined v)); (prefix ++ Epoch_str, BOID (_epoch v))].

Definition addToBSON (b : bobj) (v : ChunkVersion) (prefix : list Z) : bobj := b ++ toBSON v prefix.

Definition addEpochToBSON (b : bobj) (v : ChunkVersion) (prefix : list Z) : bobj :=
  b ++ [(prefix ++ Epoch_str, BOID (_epoch v))].

End Version.

(** ** Proofs *)

Definition version_wf (v : ChunkVersion) : Prop := in_s 32 (_major v) ∧ in_s 32 (_minor v).

Lemma combined_range v : in_u 64 (Version._combined v).
Proof.
  unfold Version._combined, in_u, u32, wrapU.
  pose proof (Z.mod_pos_bound (_minor v) (2 ^ 32) ltac:(lia)).
  pose proof (Z.mod_pos_bound (_major v) (2 ^ 32) ltac:(lia)). lia.
Qed.

(** The two words are read back from the combined number. *)
Lemma of_combined_ok v e :
  version_wf v → Version.of_combined (Version._combined v) e = mkVersion (_major v) (_minor v) e.
Proof.
  intros [H1 H2]. unfold Version.of_combined. f_equal.
  - transitivity (i32 (u32 (_major v))); [|by apply i32_u32]. f_equal. unfold Version._combined, wrapU.
    pose proof (Z.mod_pos_bound (_minor v) (2 ^ 32) ltac:(lia)).
    rewrite Z.mul_comm, Z.div_add by lia. rewrite Z.div_small by lia. lia.
  - transitivity (i32 (u32 (_minor v))); [|by apply i32_u32]. unfold Version._combined. generalize (u32 (_minor v)).
    intros x. unfold wrapS. f_equal.
    replace (x + 2 ^ 32 * u32 (_major v) + 2 ^ (32 - 1)) with (x + 2 ^ (32 - 1) + u32 (_major v) * 2 ^ 32) by lia.
    by rewrite Z.mod_add.
Qed.

Lemma i32_range n : in_s 32 (i32 n).
Proof. unfold in_s, wrapS. pose proof (Z.mod_pos_bound (n + 2 ^ (32 - 1)) (2 ^ 32) ltac:(lia)). lia. Qed.

Lemma u32_nonneg n : 0 <= n → in_s 32 n → u32 n = n.
Proof. intros H [_ H']. change (2 ^ (32 - 1)) with (2 ^ 31) in H'. apply Z.mod_small. lia. Qed.

(** On versions that never went negative, the order of versions is the lexicographic order
    of (major, minor), and incrementing either part gives a greater version. *)
Theorem version_order v w :
  version_wf v → version_wf w → 0 <= _major v → 0 <= _minor v → 0 <= _major w → 0 <= _minor w →
  (Version.lt v w = true ↔ _major v < _major w ∨ _major v = _major w ∧ _minor v < _minor w) ∧
  (Version.le v w = negb (Version.lt w v)) ∧
  (_minor v < 2 ^ 31 - 1 → Version.lt v (Version.incMinor v) = true) ∧
  (_major v < 2 ^ 31 - 1 → Version.lt v (Version.incMajor v) = true).
Proof.
  intros [Hv1 Hv2] [Hw1 Hw2] ????. unfold Version.lt, Version.le, Version._combined.
  assert (∀ n, 0 <= n → n < 2 ^ 31 - 1 → i32 (n + 1) = n + 1 ∧ u32 (n + 1) = n + 1) as I.
  { intros n Hn Hn'. assert (in_s 32 (n + 1)) by (split; change (2 ^ (32 - 1)) with (2 ^ 31); lia).
    split; [by apply wrapS_id|by apply u32_nonneg; [lia|]]. }
  rewrite !u32_nonneg by done. unfold in_s in *. change (2 ^ (32 - 1)) with (2 ^ 31) in *.
  split; [rewrite Z.ltb_lt; lia|]. split; [apply Z.leb_antisym|].
  split; intros L; rewrite Z.ltb_lt; cbn [Version.incMinor Version.incMajor _major _minor].
  - destruct (I (_minor v)) as [-> ->]; [done..|]. rewrite u32_nonneg by done. lia.
  - destruct (I (_major v)) as [-> ->]; [done..|]. change (u32 0) with 0. lia.
Qed.

Lemma from_fields p t n e : Fields.getField p [(p, t); (n, e)] = Some (p, t).
Proof. cbn [Fields.getField fst]. by rewrite bool_decide_eq_true_2. Qed.

Lemma epoch_field p t e :
  Fields.getField (p ++ Version.Epoch_str) [(p, t); (p ++ Version.Epoch_str, e)] = Some (p ++ Version.Epoch_str, e).
Proof.
  cbn [Fields.getField fst]. rewrite bool_decide_eq_false_2; [by rewrite bool_decide_eq_true_2|].
  intros E. apply (f_equal length) in E. rewrite length_app in E. cbn [length Version.Epoch_str] in E. lia.
Qed.

(** A version written by [toBSON] under any name is read back by [fromBSON], epoch
    included, also through a document that already has other fields. *)
Theorem version_roundtrip v prefix b :
  version_wf v →
  (∀ e, e ∈ b → e.1 ∉ [prefix; prefix ++ Version.Epoch_str; Version.version_str;
                       Version.version_str ++ Version.Epoch_str]) →
  Version.fromBSON (Version.addToBSON b v prefix) prefix = Some (v, true).
Proof.
  intros W N. unfold Version.addToBSON, Version.fromBSON.
  assert (∀ n o, n ∈ [prefix; prefix ++ Version.Epoch_str; Version.version_str; Version.version_str ++ Version.Epoch_str] →
    Fields.getField n (b ++ o) = Fields.getField n o) as G.
  { intros n o Hn. rewrite getField_app, getField_None; [done|]. intros e He E. apply (N e He). by rewrite E. }
  unfold Fields.hasField, Version.toBSON. destruct (decide (prefix = [])) as [->|NE].
  - rewrite (bool_decide_eq_true_2 ([] = [])) by done. rewrite (G Version.version_str) by set_solver.
    rewrite from_fields by done. cbn [andb]. rewrite !G by set_solver. rewrite from_fields, epoch_field by done.
    cbn [snd Version.fromBSON_elem mbind option_bind]. rewrite of_combined_ok by done. by destruct v.
  - rewrite bool_decide_eq_false_2 by done. cbn [andb]. rewrite !G by set_solver.
    rewrite from_fields, epoch_field by done.
    cbn [snd Version.fromBSON_elem mbind option_bind]. rewrite of_combined_ok by done. by destruct v.
Qed.

(** An array whose first element is no version is reported as parsed: the pointer is tested
    where the flag is meant. *)
Lemma version_array_parsed n v rest r :
  Version.fromBSON_arr ((n, v) :: rest) = Some r → r.2 = true.
Proof.
  unfold Version.fromBSON_arr. cbn [Version.fromBSON_elem]. unfold Version.from_array.
  destruct (Version.fromBSON_elem v) as [[version c]|]; cbn [mbind option_bind]; [|done]. by intros [= <-].
Qed.

Module VersionExample.

Definition version_ex : ChunkVersion := mkVersion 3 7 [1; 2; 3; 4; 5; 6; 7; 8; 9; 10; 11; 12].

Lemma version_order_witness : Version.lt version_ex (Version.incMinor version_ex) = true.
Proof.
  destruct (version_order version_ex Version.zero) as (_ & _ & H & _); [by split|by split|by cbn..|]. apply H. by cbn.
Defined.

Lemma version_roundtrip_witness :
  Version.fromBSON (Version.addToBSON [([97], BInt 1)] version_ex []) [] = Some (version_ex, true).
Proof. apply version_roundtrip; [by split|]. intros e ->%list_elem_of_singleton. set_solver. Defined.

(** [{version: ["x"]}] is reported as parsed; [{version: "x"}] is not. *)
Example version_ex_array :
  Version.fromBSON [(Version.version_str, BArray [([48], BString [120])])] [] = Some (Version.zero, true) ∧
  Version.fromBSON [(Version.version_str, BString [120])] [] = Some (Version.zero, false).
Proof. done. Qed.

End VersionExample.
