(* ===== verification/CollectionManager.v ===== *)
(** * The chunks of a collection on a shard

    Models s/collection_manager.cpp over the interface [DocOrder] of chunk bounds: the map from
    the minimum of each chunk to its maximum, the map of coalesced ranges derived from it, the
    versions, the question whether a document belongs to the shard, and the operations that
    build a new manager by removing, adding or splitting a chunk.

    The theorems: [belongsToMe] answers whether one of the chunks contains the key, although it
    looks at one coalesced range; removing, adding and splitting at one key keep the chunks
    disjoint and change the set of keys exactly as they should; the debug assertion [isValid]
    holds in every manager built from a valid one; and a split at two keys or at the minimum of
    the chunk breaks the chunks. *)

From S2P Require Import Prelude StdContainers Double Bson BsonOrder BsonObj DocOrder ChunkVersion.
#[local] Open Scope Z_scope.

Section Manager.
Context `{DocOrder K}.

Abbreviation ChunkType := (K * K)%type.
Abbreviation RangeMap := (list (K * K)).

Record CollectionManager := mkManager {
  _maxCollVersion : ChunkVersion;
  _maxShardVersion : ChunkVersion;
  _key : K;
  _chunksMap : RangeMap;
  _rangesMap : RangeMap
}.

(** The messages of [errMsg]. *)
Inductive clone_error :=
| CouldntFindChunk
| RangesDiffer
| VersionOnRemovingLastChunk
| VersionNotGreater
| VersionCantBeZero
| RangesOverlap
| CantSplitOn.

Definition chunkExists (mgr : CollectionManager) (chunk : ChunkType) : result clone_error unit :=
  match sl_find fst BSONObjCmp chunk.1 (_chunksMap mgr) with
  | None => Err CouldntFindChunk
  | Some it => if woCompare it.2 chunk.2 =? 0 then Ok tt else Err RangesDiffer
  end.

(** The loop of [fillRanges] from a chunk on; [min] and [max] are its locals. *)
Fixpoint fill_from (min max : K) (it : RangeMap) (ranges : RangeMap) : RangeMap :=
  match it with
  | [] => sl_insert fst BSONObjCmp (min, max) ranges
  | (currMin, currMax) :: it' =>
      if isEmpty min then fill_from currMin currMax it' ranges
      else if equal max currMin then fill_from min currMax it' ranges
      else fill_from currMin currMax it' (sl_insert fst BSONObjCmp (min, max) ranges)
  end.

Definition fillRanges (chunks : RangeMap) : RangeMap :=
  match chunks with [] => [] | _ => fill_from empty empty chunks [] end.

Definition newer (newShardVersion coll : ChunkVersion) : ChunkVersion :=
  if Version.gt newShardVersion coll then newShardVersion else coll.

Definition cloneMinus (mgr : CollectionManager) (chunk : ChunkType) (newShardVersion : ChunkVersion)
  : result clone_error CollectionManager :=
  _ <-? chunkExists mgr chunk;;
  if (length (_chunksMap mgr) =? 1)%nat && Version.isSet newShardVersion then Err VersionOnRemovingLastChunk
  else if negb (length (_chunksMap mgr) =? 1)%nat && Version.le newShardVersion (_maxShardVersion mgr)
  then Err VersionNotGreater
  else
    let chunks := sl_erase fst BSONObjCmp chunk.1 (_chunksMap mgr) in
    Ok (mkManager (newer newShardVersion (_maxCollVersion mgr)) newShardVersion (_key mgr) chunks (fillRanges chunks)).

Definition overlap (chunk : ChunkType) (l2 h2 : K) : bool :=
  negb ((woCompare chunk.2 l2 <=? 0) || (woCompare h2 chunk.1 <=? 0)).

(** The entry before an iterator, or the first. *)
Definition step_back (i : nat) (l : RangeMap) : option ChunkType := l !! Nat.pred i.

Definition clonePlus (mgr : CollectionManager) (chunk : ChunkType) (newShardVersion : ChunkVersion)
  : result clone_error CollectionManager :=
  if negb (Version.isSet newShardVersion) then Err VersionCantBeZero
  else
    let clash :=
      match step_back (sl_lower fst BSONObjCmp chunk.2 (_chunksMap mgr)) (_chunksMap mgr) with
      | Some it => overlap chunk it.1 it.2
      | None => false
      end in
    if clash then Err RangesOverlap
    else
      let chunks := sl_insert fst BSONObjCmp chunk (_chunksMap mgr) in
      Ok (mkManager (newer newShardVersion (_maxCollVersion mgr)) newShardVersion (_key mgr) chunks (fillRanges chunks)).

Definition contains (min max point : K) : bool := (0 <=? woCompare point min) && (woCompare point max <? 0).

(** The loop over the split keys: every key is stored at the minimum of the original chunk. *)
Fixpoint split_loop (chunk : ChunkType) (splitKeys : list K) (chunks : RangeMap) (version : ChunkVersion)
  : RangeMap * ChunkVersion :=
  match splitKeys with
  | [] => (chunks, version)
  | split :: ks =>
      split_loop chunk ks
        (sl_insert fst BSONObjCmp (split, chunk.2) (map_assign BSONObjCmp chunk.1 split chunks))
        (Version.incMinor version)
  end.

Definition cloneSplit (mgr : CollectionManager) (chunk : ChunkType) (splitKeys : list K)
    (newShardVersion : ChunkVersion) : result clone_error CollectionManager :=
  if Version.le newShardVersion (_maxShardVersion mgr) then Err VersionNotGreater
  else
    _ <-? chunkExists mgr chunk;;
    if negb (forallb (contains chunk.1 chunk.2) splitKeys) then Err CantSplitOn
    else
      let '(chunks, version) := split_loop chunk splitKeys (_chunksMap mgr) newShardVersion in
      Ok (mkManager (newer version (_maxCollVersion mgr)) version (_key mgr) chunks (fillRanges chunks)).

Definition belongsToMe (mgr : CollectionManager) (point : K) : bool :=
  if isEmpty (_key mgr) then true
  else
    match step_back (sl_upper fst BSONObjCmp point (_rangesMap mgr)) (_rangesMap mgr) with
    | Some it => contains it.1 it.2 point
    | None => false
    end.

(** [getNextChunk]: the answer, and the chunk it fills in, if any. *)
Definition getNextChunk (mgr : CollectionManager) (lookupKey : K) : bool * option ChunkType :=
  match _chunksMap mgr with
  | [] => (true, None)
  | first :: _ =>
      if isEmpty lookupKey then ((length (_chunksMap mgr) =? 1)%nat, Some first)
      else
        match _chunksMap mgr !! sl_upper fst BSONObjCmp lookupKey (_chunksMap mgr) with
        | Some it => (false, Some it)
        | None => (true, None)
        end
  end.

Definition isValid (mgr : CollectionManager) : bool :=
  if Version.gt (_maxShardVersion mgr) (_maxCollVersion mgr) then false
  else negb (Version.majorVersion (_maxCollVersion mgr) =? 0).

(** ** Disjoint chunks *)

Definition chunk_ok (c : ChunkType) : Prop := ¬ kle c.2 c.1 ∧ isEmpty c.1 = false.
Definition before (c d : ChunkType) : Prop := kle c.2 d.1.

Definition disjoint_chunks (l : RangeMap) : Prop := Forall chunk_ok l ∧ StronglySorted before l.

Definition covers (l : RangeMap) (p : K) : bool := existsb (λ c, contains c.1 c.2 p) l.

(** The invariant of a manager. *)
Record manager_wf (mgr : CollectionManager) : Prop := {
  wf_key : isEmpty (_key mgr) = false;
  wf_chunks : disjoint_chunks (_chunksMap mgr);
  wf_ranges : _rangesMap mgr = fillRanges (_chunksMap mgr)
}.

Lemma contains_spec mn mx p : contains mn mx p = true ↔ kle mn p ∧ ¬ kle mx p.
Proof. unfold contains. rewrite andb_true_iff, woCompare_ge, woCompare_lt. done. Qed.

Lemma contains_iff a b c d p :
  (kle a p ∧ ¬ kle b p ↔ kle c p ∧ ¬ kle d p) → contains a b p = contains c d p.
Proof. intros E. apply eq_true_iff_eq. by rewrite !contains_spec. Qed.

Lemma contains_false mn mx p : (kle mn p → kle mx p) → contains mn mx p = false.
Proof. intros E. apply not_true_iff_false. rewrite contains_spec. tauto. Qed.

Lemma covers_cons c l p : covers (c :: l) p = contains c.1 c.2 p || covers l p.
Proof. done. Qed.

Lemma disjoint_cons c l :
  disjoint_chunks (c :: l) ↔ chunk_ok c ∧ (∀ d, d ∈ l → before c d) ∧ disjoint_chunks l.
Proof.
  unfold disjoint_chunks. rewrite Forall_cons. split.
  - intros [[? ?] S]. inversion S; subst. rewrite Forall_forall in *. naive_solver.
  - intros (? & ? & ? & ?). split; [done|]. constructor; [done|]. by apply Forall_forall.
Qed.

Lemma disjoint_ok l c : disjoint_chunks l → c ∈ l → chunk_ok c.
Proof. intros [F _]. rewrite Forall_forall in F. apply F. Qed.

Lemma disjoint_sorted l : disjoint_chunks l → sl_sorted fst BSONObjCmp l.
Proof.
  induction l as [|c l IH]; [constructor|]. intros (Hc & Hb & D)%disjoint_cons. apply sl_sorted_cons.
  split; [|by apply IH]. intros d Hd. specialize (Hb _ Hd). unfold before in Hb. destruct Hc as [Hc _].
  pose proof (disjoint_ok _ _ D Hd) as [Hd' _]. apply cmp_true. korder.
Qed.

(** No chunk after one that starts beyond the point contains it. *)
Lemma covers_beyond l p : (∀ d, d ∈ l → ¬ kle d.1 p) → covers l p = false.
Proof.
  induction l as [|d l IH]; intros Hl; [done|]. rewrite covers_cons, IH by set_solver.
  rewrite contains_false; [done|]. intros ?. by destruct (Hl d); [left|].
Qed.

(** The chunks of a disjoint map do not meet. *)
Lemma covers_before c l p :
  (∀ d, d ∈ l → before c d) → contains c.1 c.2 p = true → covers l p = false.
Proof.
  intros Hb [H1 H2]%contains_spec. apply covers_beyond. intros d Hd. specialize (Hb d Hd). unfold before in Hb. korder.
Qed.

(** One lookup answers for the whole map. *)
Lemma lookup_covers l p :
  disjoint_chunks l →
  match step_back (sl_upper fst BSONObjCmp p l) l with
  | Some it => contains it.1 it.2 p
  | None => false
  end = covers l p.
Proof.
  induction l as [|c l IH]; [done|]. intros D. pose proof (disjoint_sorted _ D) as [S _]%sl_sorted_cons.
  apply disjoint_cons in D as (Hc & Hb & D). specialize (IH D). rewrite covers_cons. cbn [sl_upper].
  assert (∀ x, x ∈ l → ¬ kle x.1 c.1) as S' by (intros; by apply cmp_true, S).
  destruct (BSONObjCmp p c.1) eqn:E.
  - cbn. rewrite (covers_beyond l); [by rewrite orb_false_r|].
    intros d Hd. specialize (S' d Hd). apply cmp_true in E. korder.
  - unfold step_back in *. destruct l as [|d l]; [cbn; by rewrite orb_false_r|].
    cbn [sl_upper] in IH |- *. destruct (BSONObjCmp p d.1) eqn:E'.
    + cbn [Nat.pred lookup list_lookup]. rewrite covers_beyond; [by rewrite orb_false_r|].
      apply cmp_true in E'. intros x [->|Hx]%elem_of_cons; [korder|].
      apply disjoint_sorted, sl_sorted_cons in D as [S2 _]. specialize (S2 _ Hx). apply cmp_true in S2. korder.
    + etransitivity; [exact IH|]. rewrite (contains_false c.1 c.2); [done|].
      intros _. specialize (Hb d ltac:(by left)). unfold before in Hb. apply cmp_false in E'. korder.
Qed.

(** ** Coalesced ranges *)

Fixpoint coalesce (min max : K) (it : RangeMap) : RangeMap :=
  match it with
  | [] => [(min, max)]
  | (currMin, currMax) :: it' =>
      if equal max currMin then coalesce min currMax it' else (min, max) :: coalesce currMin currMax it'
  end.

Lemma sl_insert_end (a : ChunkType) (l : RangeMap) :
  (∀ d, d ∈ l → ¬ kle a.1 d.1) → sl_insert fst BSONObjCmp a l = l ++ [a].
Proof.
  induction l as [|d l IH]; intros Hl; [done|]. cbn [sl_insert app].
  assert (¬ kle a.1 d.1) as Hd by (apply Hl; by left).
  rewrite (proj2 (cmp_false _ _)) by korder. rewrite (proj2 (cmp_true _ _)) by done.
  f_equal. apply IH. set_solver.
Qed.

Lemma fill_coalesce it min max ranges :
  disjoint_chunks ((min, max) :: it) → (∀ d, d ∈ ranges → ¬ kle min d.1) →
  fill_from min max it ranges = ranges ++ coalesce min max it.
Proof.
  revert min max ranges. induction it as [|[cmin cmax] it IH]; intros min max ranges D Hr; cbn [fill_from coalesce].
  - by apply sl_insert_end.
  - apply disjoint_cons in D as ([Hc E] & Hb & D). cbn [fst snd] in *. rewrite E.
    pose proof D as ([Hc' E'] & Hb' & D')%disjoint_cons. cbn [fst snd] in *.
    pose proof (Hb (cmin, cmax) ltac:(by left)) as B. unfold before in B. cbn [fst snd] in B.
    destruct (equal max cmin) eqn:Q.
    + apply IH; [|done]. apply disjoint_cons. split; [split; cbn; [korder|done]|]. split; [|done].
      intros d Hd. apply (Hb' d Hd).
    + rewrite sl_insert_end by done. rewrite IH; [by rewrite <- (assoc_L app)|done|].
      intros d [Hd| ->%list_elem_of_singleton]%elem_of_app; cbn; [specialize (Hr _ Hd)|]; korder.
Qed.

Lemma coalesce_covers it min max p :
  disjoint_chunks ((min, max) :: it) → covers (coalesce min max it) p = covers ((min, max) :: it) p.
Proof.
  revert min max. induction it as [|[cmin cmax] it IH]; intros min max D; cbn [coalesce]; [done|].
  apply disjoint_cons in D as ([Hc E] & Hb & D). pose proof D as ([Hc' E'] & Hb' & D')%disjoint_cons.
  cbn [fst snd] in *. destruct (equal max cmin) eqn:Q; [|by rewrite covers_cons, IH].
  apply equal_true in Q. rewrite IH.
  - rewrite !covers_cons, orb_assoc. f_equal. cbn [fst snd]. apply eq_true_iff_eq.
    rewrite orb_true_iff, !contains_spec. destruct (decide (kle cmin p)).
    + split; [intros [? ?]; right; korder|intros [[? ?]|[? ?]]; korder].
    + split; [intros [? ?]; left; korder|intros [[? ?]|[? ?]]; korder].
  - apply disjoint_cons. split; [split; cbn; [korder|done]|done].
Qed.

Lemma coalesce_elem it min max d :
  d ∈ coalesce min max it → disjoint_chunks ((min, max) :: it) → kle min d.1 ∧ isEmpty d.1 = false.
Proof.
  revert min max. induction it as [|[cmin cmax] it IH]; intros min max; cbn [coalesce].
  - intros ->%list_elem_of_singleton ([_ ?] & _)%disjoint_cons. split; [apply kle_refl|done].
  - intros Hd ([Hc E] & Hb & D)%disjoint_cons. cbn [fst snd] in *.
    pose proof (Hb (cmin, cmax) ltac:(by left)) as B. unfold before in B. cbn [fst snd] in B.
    pose proof D as ([Hc' E'] & Hb' & D')%disjoint_cons. cbn [fst snd] in *. destruct (equal max cmin).
    + apply (IH min cmax Hd). apply disjoint_cons. split; [split; cbn; [korder|done]|done].
    + apply elem_of_cons in Hd as [->|Hd]; [split; [apply kle_refl|done]|].
      destruct (IH _ _ Hd D) as [H1 H2]. split; [korder|done].
Qed.

Lemma coalesce_disjoint it min max :
  disjoint_chunks ((min, max) :: it) → disjoint_chunks (coalesce min max it).
Proof.
  revert min max. induction it as [|[cmin cmax] it IH]; intros min max D; cbn [coalesce]; [done|].
  apply disjoint_cons in D as ([Hc E] & Hb & D). cbn [fst snd] in *.
  pose proof (Hb (cmin, cmax) ltac:(by left)) as B. unfold before in B. cbn [fst snd] in B.
  pose proof D as ([Hc' E'] & Hb' & D')%disjoint_cons. cbn [fst snd] in *. destruct (equal max cmin).
  - apply IH. apply disjoint_cons. split; [split; cbn; [korder|done]|done].
  - apply disjoint_cons. split; [done|]. split; [|by apply IH].
    intros d Hd. apply coalesce_elem in Hd as [Hd _]; [|done]. unfold before. cbn. korder.
Qed.

Lemma fillRanges_coalesce c l :
  disjoint_chunks (c :: l) → fillRanges (c :: l) = coalesce c.1 c.2 l.
Proof.
  intros D. unfold fillRanges. destruct c as [cmin cmax]. cbn [fill_from]. rewrite empty_isEmpty.
  rewrite fill_coalesce; [done|done|set_solver].
Qed.

Lemma fillRanges_spec l :
  disjoint_chunks l → disjoint_chunks (fillRanges l) ∧ ∀ p, covers (fillRanges l) p = covers l p.
Proof.
  destruct l as [|c l]; [done|]. intros D. rewrite fillRanges_coalesce by done. destruct c.
  split; [by apply coalesce_disjoint|]. intros p. by apply coalesce_covers.
Qed.

Lemma belongs_covers mgr p : manager_wf mgr → belongsToMe mgr p = covers (_chunksMap mgr) p.
Proof.
  intros [Hk Hc Hr]. unfold belongsToMe. rewrite Hk, Hr. pose proof (fillRanges_spec _ Hc) as [D E].
  by rewrite lookup_covers, E.
Qed.

(** ** Removing a chunk *)

Lemma disjoint_erase k l : disjoint_chunks l → disjoint_chunks (sl_erase fst BSONObjCmp k l).
Proof.
  induction l as [|c l IH]; [done|]. intros (Hc & Hb & D)%disjoint_cons. cbn [sl_erase].
  destruct (equivb BSONObjCmp c.1 k); [done|]. apply disjoint_cons. split; [done|]. split; [|by apply IH].
  intros d Hd%sl_erase_elem. by apply Hb.
Qed.

Lemma covers_elem l e p : e ∈ l → contains e.1 e.2 p = true → covers l p = true.
Proof. intros He Hp. apply existsb_exists. exists e. by rewrite <- list_elem_of_In. Qed.

Lemma covers_erase k l e p :
  disjoint_chunks l → e ∈ l → equivb BSONObjCmp e.1 k = true →
  covers (sl_erase fst BSONObjCmp k l) p = covers l p && negb (contains e.1 e.2 p).
Proof.
  intros D He Q. pose proof (disjoint_sorted _ D) as S.
  induction l as [|c l IH]; [set_solver|]. cbn [sl_erase]. rewrite covers_cons.
  destruct (equivb BSONObjCmp c.1 k) eqn:E.
  - assert (e = c) as ->.
    { apply (sl_sorted_unique fst BSONObjCmp (c :: l)); [done|done|by left|].
      apply equivb_kle. apply equivb_kle in E, Q. korder. }
    apply disjoint_cons in D as (_ & Hb & _). pose proof (covers_before c l p Hb) as N.
    destruct (contains c.1 c.2 p); cbn [negb andb orb]; [by rewrite N|by rewrite andb_true_r].
  - apply elem_of_cons in He as [->|He]; [congruence|]. apply disjoint_cons in D as (_ & Hb & D).
    apply sl_sorted_cons in S as [_ S]. rewrite covers_cons, IH by done.
    pose proof (covers_before c l p Hb) as N. pose proof (covers_elem l e p He) as N'.
    destruct (contains c.1 c.2 p); cbn [orb]; [|done].
    destruct (contains e.1 e.2 p); [|done]. rewrite N in N' by done. by specialize (N' eq_refl).
Qed.

Lemma chunkExists_ok mgr c :
  chunkExists mgr c = Ok tt →
  ∃ e, e ∈ _chunksMap mgr ∧ equivb BSONObjCmp e.1 c.1 = true ∧ kle e.2 c.2 ∧ kle c.2 e.2.
Proof.
  unfold chunkExists. destruct (sl_find _ _ _ _) as [e|] eqn:F; [|done].
  apply (sl_find_Some fst BSONObjCmp) in F as [He Q]. destruct (_ =? 0) eqn:E; [|done]. apply woCompare_eq in E.
  intros _. by exists e.
Qed.

Lemma chunkExists_cases mgr c : chunkExists mgr c = Ok tt ∨ ∃ x, chunkExists mgr c = Err x.
Proof. unfold chunkExists. destruct (sl_find _ _ _ _); [destruct (_ =? 0)|]; eauto. Qed.

Lemma contains_equiv e c p :
  equivb BSONObjCmp e.1 c.1 = true → kle e.2 c.2 → kle c.2 e.2 → contains e.1 e.2 p = contains c.1 c.2 p.
Proof. intros [? ?]%equivb_kle ? ?. apply contains_iff. split; intros [? ?]; korder. Qed.

(** ** Adding a chunk *)

Lemma overlap_spec c d : overlap c d.1 d.2 = false ↔ before c d ∨ before d c.
Proof.
  unfold overlap, before. rewrite negb_false_iff, orb_true_iff, !woCompare_le. done.
Qed.

(** Only the last chunk that starts below the end of the new one needs a look. *)
Lemma overlap_lookup c l :
  chunk_ok c → disjoint_chunks l →
  match step_back (sl_lower fst BSONObjCmp c.2 l) l with
  | Some it => overlap c it.1 it.2
  | None => false
  end = existsb (λ d, overlap c d.1 d.2) l.
Proof.
  intros [Hc _]. induction l as [|d l IH]; [done|]. intros D. pose proof (disjoint_sorted _ D) as [S _]%sl_sorted_cons.
  apply disjoint_cons in D as ([Hd _] & Hb & D). specialize (IH D). cbn [sl_lower existsb].
  assert ((∀ x, x ∈ l → ¬ overlap c x.1 x.2 = true) → existsb (λ d, overlap c d.1 d.2) l = false) as N.
  { intros Hx. apply not_true_iff_false. rewrite existsb_exists. intros (x & Hl & Ho).
    apply list_elem_of_In in Hl. by apply (Hx x). }
  destruct (BSONObjCmp d.1 c.2) eqn:E.
  - unfold step_back in *. destruct l as [|x l]; [cbn; by rewrite orb_false_r|].
    cbn [sl_lower] in IH |- *. destruct (BSONObjCmp x.1 c.2) eqn:E'.
    + etransitivity; [exact IH|]. pose proof (Hb x ltac:(by left)) as B. unfold before in B.
      destruct (overlap c d.1 d.2) eqn:O; [|done]. cbn [orb].
      apply existsb_exists. exists x. split; [by left|]. apply not_false_iff_true. rewrite overlap_spec. unfold before.
      apply not_false_iff_true in O. rewrite overlap_spec in O. unfold before in O.
      apply cmp_true in E, E'. pose proof (disjoint_ok _ x D ltac:(by left)) as [? _].
      intros [?|?]; [korder|]. apply O. right. korder.
    + cbn [Nat.pred]. rewrite N; [by rewrite orb_false_r|]. apply cmp_false in E'.
      intros y Hy O. apply not_false_iff_true in O. apply O, overlap_spec. left. unfold before.
      apply elem_of_cons in Hy as [->|Hy]; [done|].
      apply disjoint_sorted, sl_sorted_cons in D as [S2 _]. specialize (S2 _ Hy). apply cmp_true in S2. korder.
  - cbn. rewrite N; [by rewrite orb_false_r|]. apply cmp_false in E.
    intros y Hy O. apply not_false_iff_true in O. apply O, overlap_spec. left. unfold before.
    specialize (S _ Hy). apply cmp_true in S. korder.
Qed.

Lemma insert_spec c l :
  chunk_ok c → disjoint_chunks l → (∀ d, d ∈ l → before c d ∨ before d c) →
  disjoint_chunks (sl_insert fst BSONObjCmp c l) ∧
  length (sl_insert fst BSONObjCmp c l) = S (length l) ∧
  ∀ p, covers (sl_insert fst BSONObjCmp c l) p = contains c.1 c.2 p || covers l p.
Proof.
  intros Hc. induction l as [|d l IH]; intros D N; cbn [sl_insert].
  - split; [|done]. apply disjoint_cons. split; [done|]. split; [set_solver|done].
  - pose proof D as (Hd & Hb & D')%disjoint_cons.
    destruct (N d ltac:(by left)) as [B|B]; unfold before in B; pose proof Hc as [Hc' _]; pose proof Hd as [Hd' _].
    + rewrite (proj2 (cmp_true c.1 d.1)) by korder. split; [|done]. apply disjoint_cons. split; [done|]. split; [|done].
      intros x [->|Hx]%elem_of_cons; unfold before; [done|]. specialize (Hb _ Hx). unfold before in Hb. korder.
    + rewrite (proj2 (cmp_false c.1 d.1)) by korder. rewrite (proj2 (cmp_true d.1 c.1)) by korder.
      destruct IH as (I1 & I2 & I3); [done|set_solver|]. split; [|split].
      * apply disjoint_cons. split; [done|]. split; [|done]. intros x [->|Hx]%sl_insert_elem; [done|by apply Hb].
      * cbn [length]. by rewrite I2.
      * intros p. rewrite !covers_cons, I3, !orb_assoc. f_equal. apply orb_comm.
Qed.

(** ** Splitting a chunk *)

Lemma disjoint_nil : disjoint_chunks [].
Proof. split; constructor. Qed.

Lemma disjoint_app l1 l2 :
  disjoint_chunks (l1 ++ l2) ↔
  disjoint_chunks l1 ∧ disjoint_chunks l2 ∧ ∀ x y, x ∈ l1 → y ∈ l2 → before x y.
Proof.
  induction l1 as [|c l1 IH]; cbn [app].
  - split; [|by intros (_ & ? & _)]. intros D. split; [apply disjoint_nil|]. split; [done|]. set_solver.
  - rewrite !disjoint_cons, IH. split.
    + intros (Hc & Hb & D1 & D2 & Hx). split; [split; [done|]; split; [|done]; set_solver|].
      split; [done|]. intros x y [->|Hx1]%elem_of_cons Hy; [|by apply Hx]. apply Hb. set_solver.
    + intros ((Hc & Hb & D1) & D2 & Hx). split; [done|]. split; [|set_solver].
      intros d [Hd|Hd]%elem_of_app; [by apply Hb|]. apply Hx; [by left|done].
Qed.

Lemma covers_app l1 l2 p : covers (l1 ++ l2) p = covers l1 p || covers l2 p.
Proof. apply existsb_app. Qed.

(** The first split key replaces the chunk by two. *)
Lemma split_shape l e c k :
  disjoint_chunks l → e ∈ l → equivb BSONObjCmp e.1 c.1 = true → kle c.2 e.2 → ¬ kle k c.1 → ¬ kle c.2 k →
  ∃ l1 l2, l = l1 ++ e :: l2 ∧
    sl_insert fst BSONObjCmp (k, c.2) (map_assign BSONObjCmp c.1 k l) = l1 ++ (e.1, k) :: (k, c.2) :: l2.
Proof.
  intros D He Q1 Q2 K1 K2. apply equivb_kle in Q1 as [Q1 Q1']. induction l as [|d l IH]; [set_solver|].
  pose proof (disjoint_sorted _ D) as [S _]%sl_sorted_cons. apply disjoint_cons in D as ([Hd _] & Hb & D).
  destruct d as [dmin dmax]. cbn [fst snd map_assign] in *. apply elem_of_cons in He as [->|He].
  - exists [], l. split; [done|]. cbn [fst snd] in *.
    rewrite (proj2 (cmp_false c.1 dmin)), (proj2 (cmp_false dmin c.1)) by done. cbn [sl_insert fst app].
    rewrite (proj2 (cmp_false k dmin)), (proj2 (cmp_true dmin k)) by korder. f_equal.
    destruct l as [|x l]; [done|]. cbn [sl_insert fst]. specialize (Hb x ltac:(by left)). unfold before in Hb.
    cbn [fst snd] in Hb. by rewrite (proj2 (cmp_true k x.1)) by korder.
  - specialize (S _ He). apply cmp_true in S. cbn [fst] in S.
    rewrite (proj2 (cmp_false c.1 dmin)), (proj2 (cmp_true dmin c.1)) by korder. cbn [sl_insert fst].
    rewrite (proj2 (cmp_false k dmin)), (proj2 (cmp_true dmin k)) by korder.
    destruct IH as (l1 & l2 & -> & ->); [done|done|]. by exists ((dmin, dmax) :: l1), l2.
Qed.

Lemma split_spec l1 l2 e c k :
  disjoint_chunks (l1 ++ e :: l2) → equivb BSONObjCmp e.1 c.1 = true → kle e.2 c.2 → kle c.2 e.2 →
  ¬ kle k c.1 → ¬ kle c.2 k → isEmpty k = false →
  disjoint_chunks (l1 ++ (e.1, k) :: (k, c.2) :: l2) ∧
  ∀ p, covers (l1 ++ (e.1, k) :: (k, c.2) :: l2) p = covers (l1 ++ e :: l2) p.
Proof.
  intros D Q1 Q2 Q3 K1 K2 E. apply equivb_kle in Q1 as [Q1 Q1']. split.
  - apply disjoint_app in D as (D1 & D2 & Hx). apply disjoint_cons in D2 as ([He Ee] & Hb & D2).
    apply disjoint_app. split; [done|]. split.
    + apply disjoint_cons. split; [split; cbn; [korder|done]|]. split.
      * intros d [->|Hd]%elem_of_cons; unfold before; cbn; [apply kle_refl|].
        specialize (Hb _ Hd). unfold before in Hb. korder.
      * apply disjoint_cons. split; [split; cbn; [korder|done]|]. split; [|done].
        intros d Hd. specialize (Hb _ Hd). unfold before in Hb |- *. cbn. korder.
    + intros x y Hx1 Hy. pose proof (Hx x e Hx1 ltac:(by left)) as B. unfold before in B |- *.
      apply elem_of_cons in Hy as [->|[->|Hy]%elem_of_cons]; cbn [fst]; [done|korder|].
      apply (Hx x y); [done|by right].
  - intros p. rewrite !covers_app, !covers_cons. f_equal. rewrite orb_assoc. f_equal. cbn [fst snd].
    apply eq_true_iff_eq. rewrite orb_true_iff, !contains_spec. destruct (decide (kle k p)).
    + split; [intros [[? ?]|[? ?]]; korder|intros [? ?]; right; korder].
    + split; [intros [[? ?]|[? ?]]; korder|intros [? ?]; left; korder].
Qed.

Lemma map_assign_new k v (l : RangeMap) : ∃ k', kle k' k ∧ (k', v) ∈ map_assign BSONObjCmp k v l.
Proof.
  induction l as [|[k' v'] l IH]; cbn [map_assign]; [exists k; split; [apply kle_refl|set_solver]|].
  destruct (BSONObjCmp k k') eqn:E1; [exists k; split; [apply kle_refl|set_solver]|].
  destruct (BSONObjCmp k' k) eqn:E2.
  - destruct IH as (k'' & H1 & H2). exists k''. split; [done|by right].
  - exists k'. apply cmp_false in E1. split; [done|by left].
Qed.

Lemma map_assign_keep k v (l : RangeMap) x : x ∈ l → ¬ kle x.1 k → x ∈ map_assign BSONObjCmp k v l.
Proof.
  induction l as [|[k' v'] l IH]; cbn [map_assign]; [set_solver|]. intros Hx N.
  destruct (BSONObjCmp k k') eqn:E1; [by right|]. apply cmp_false in E1.
  apply elem_of_cons in Hx as [->|Hx]; [done|].
  destruct (BSONObjCmp k' k); right; [by apply IH|done].
Qed.

(** ** Versions *)

Lemma newer_valid v coll :
  negb (Version.majorVersion coll =? 0) = true → version_wf v → version_wf coll →
  negb (Version.majorVersion (newer v coll) =? 0) = true.
Proof.
  intros M [W1 W2] [C1 C2]. unfold newer. destruct (Version.gt v coll) eqn:G; [|done].
  apply negb_true_iff, Z.eqb_neq. unfold Version.majorVersion in *. intros Z0.
  apply negb_true_iff, Z.eqb_neq in M. apply M. unfold Version.gt, Version._combined in G. apply Z.ltb_lt in G.
  rewrite Z0 in G. change (u32 0) with 0 in G.
  pose proof (Z.mod_pos_bound (_minor v) (2 ^ 32) ltac:(lia)). pose proof (Z.mod_pos_bound (_minor coll) (2 ^ 32) ltac:(lia)).
  pose proof (Z.mod_pos_bound (_major coll) (2 ^ 32) ltac:(lia)). unfold wrapU in G.
  assert (u32 (_major coll) = 0) as U by (unfold wrapU; lia).
  rewrite <- (i32_u32 (_major coll)) by done. by rewrite U.
Qed.

(** ** The operations *)

(** C14: a document belongs to the shard exactly when one of its chunks contains the key: one
    lookup in the coalesced ranges answers for all the chunks. *)
Theorem cm_belongs mgr p :
  manager_wf mgr →
  belongsToMe mgr p = true ↔ ∃ c, c ∈ _chunksMap mgr ∧ contains c.1 c.2 p = true.
Proof.
  intros W. rewrite belongs_covers by done. unfold covers. rewrite existsb_exists.
  split; intros (c & Hc & ?); exists c; by rewrite list_elem_of_In in *.
Qed.

Lemma build_wf mgr cv sv chunks :
  manager_wf mgr → disjoint_chunks chunks →
  let mgr' := mkManager cv sv (_key mgr) chunks (fillRanges chunks) in
  manager_wf mgr' ∧ ∀ p, belongsToMe mgr' p = covers chunks p.
Proof.
  intros W D mgr'. assert (manager_wf mgr') as W' by (split; [apply W|done|done]).
  split; [done|]. intros p. by rewrite belongs_covers.
Qed.

(** Removing a chunk that is there succeeds unless it moves the version the wrong way (not
    forward, or not to zero with the last chunk); the shard then has the same keys but those of
    the chunk, in disjoint chunks. *)
Theorem cm_minus mgr c v :
  manager_wf mgr → chunkExists mgr c = Ok tt →
  if (if (length (_chunksMap mgr) =? 1)%nat then Version.isSet v else Version.le v (_maxShardVersion mgr))
  then ∃ e, cloneMinus mgr c v = Err e
  else ∃ mgr', cloneMinus mgr c v = Ok mgr' ∧ manager_wf mgr' ∧ _maxShardVersion mgr' = v ∧
    ∀ p, belongsToMe mgr' p = belongsToMe mgr p && negb (contains c.1 c.2 p).
Proof.
  intros W Hc. unfold cloneMinus. rewrite Hc. cbn [result_bind].
  apply chunkExists_ok in Hc as (e & He & Q1 & Q2 & Q3).
  destruct (build_wf mgr (newer v (_maxCollVersion mgr)) v (sl_erase fst BSONObjCmp c.1 (_chunksMap mgr)) W)
    as [W' B]; [by apply disjoint_erase, W|].
  assert (∀ p, covers (sl_erase fst BSONObjCmp c.1 (_chunksMap mgr)) p =
    belongsToMe mgr p && negb (contains c.1 c.2 p)) as B'.
  { intros p. rewrite (covers_erase _ _ e), belongs_covers by (done || apply W). by rewrite (contains_equiv e c). }
  destruct (length (_chunksMap mgr) =? 1)%nat; cbn [negb andb].
  - destruct (Version.isSet v); [by eexists|]. eexists. do 3 (split; [done|]). intros p. by rewrite B, B'.
  - destruct (Version.le v _); [by eexists|]. eexists. do 3 (split; [done|]). intros p. by rewrite B, B'.
Qed.

(** C25: a chunk can be added under a version other than zero exactly when it meets no chunk of
    the shard, although only one of them is compared; the shard then has the keys of the chunk
    as well, in disjoint chunks. *)
Theorem cm_plus mgr c v :
  manager_wf mgr → chunk_ok c → Version.isSet v = true →
  if existsb (λ d, overlap c d.1 d.2) (_chunksMap mgr)
  then clonePlus mgr c v = Err RangesOverlap
  else ∃ mgr', clonePlus mgr c v = Ok mgr' ∧ manager_wf mgr' ∧ _maxShardVersion mgr' = v ∧
    length (_chunksMap mgr') = S (length (_chunksMap mgr)) ∧
    ∀ p, belongsToMe mgr' p = contains c.1 c.2 p || belongsToMe mgr p.
Proof.
  intros W Hc Hv. unfold clonePlus. rewrite Hv. cbn [negb]. rewrite overlap_lookup by (done || apply W).
  destruct (existsb _ _) eqn:E; [done|]. destruct (insert_spec c (_chunksMap mgr)) as (D & L & C); [done|apply W| |].
  { intros d Hd. apply overlap_spec, not_true_iff_false. intros O. apply not_true_iff_false in E. apply E, existsb_exists.
    exists d. by rewrite <- list_elem_of_In. }
  destruct (build_wf mgr (newer v (_maxCollVersion mgr)) v _ W D) as [W' B].
  eexists. split; [done|]. split; [done|]. split; [done|]. split; [done|].
  intros p. by rewrite B, C, belongs_covers.
Qed.

(** Splitting a chunk at one key strictly inside it replaces it by the two halves and
    leaves the keys of the shard as they were. *)
Theorem cm_split mgr c k v :
  manager_wf mgr → chunkExists mgr c = Ok tt → ¬ kle k c.1 → ¬ kle c.2 k → isEmpty k = false →
  Version.le v (_maxShardVersion mgr) = false →
  ∃ mgr' l1 e l2, cloneSplit mgr c [k] v = Ok mgr' ∧ manager_wf mgr' ∧
    _maxShardVersion mgr' = Version.incMinor v ∧
    _chunksMap mgr = l1 ++ e :: l2 ∧ _chunksMap mgr' = l1 ++ (e.1, k) :: (k, c.2) :: l2 ∧
    ∀ p, belongsToMe mgr' p = belongsToMe mgr p.
Proof.
  intros W Hc K1 K2 E Hv. unfold cloneSplit. rewrite Hv, Hc. cbn [result_bind forallb].
  apply chunkExists_ok in Hc as (e & He & Q1 & Q2 & Q3).
  rewrite (proj2 (contains_spec _ _ _)) by korder. cbn [andb negb split_loop].
  destruct (split_shape (_chunksMap mgr) e c k) as (l1 & l2 & Hl & Hs); [apply W|done..|]. rewrite Hs.
  pose proof (wf_chunks _ W) as D. rewrite Hl in D. destruct (split_spec l1 l2 e c k) as [D' C]; [done..|].
  destruct (build_wf mgr (newer (Version.incMinor v) (_maxCollVersion mgr)) (Version.incMinor v) _ W D') as [W' B].
  eexists _, l1, e, l2. split; [done|]. do 4 (split; [done|]). intros p. by rewrite B, C, belongs_covers, Hl.
Qed.

(** With two split keys in ascending order the halves overlap: the first chunk is extended
    to the second key, while the chunk at the first key still runs to the end. *)
Theorem cm_split_two mgr c k1 k2 v :
  manager_wf mgr → chunkExists mgr c = Ok tt →
  ¬ kle k1 c.1 → ¬ kle k2 k1 → ¬ kle c.2 k2 → Version.le v (_maxShardVersion mgr) = false →
  ∃ mgr' k, cloneSplit mgr c [k1; k2] v = Ok mgr' ∧ kle k c.1 ∧
    (k, k2) ∈ _chunksMap mgr' ∧ (k1, c.2) ∈ _chunksMap mgr' ∧ ¬ disjoint_chunks (_chunksMap mgr').
Proof.
  intros W Hc K1 K2 K3 Hv. unfold cloneSplit. rewrite Hv, Hc. cbn [result_bind forallb].
  apply chunkExists_ok in Hc as (e & He & Q1 & Q2 & Q3).
  rewrite !(proj2 (contains_spec _ _ _)) by korder. cbn [andb negb split_loop].
  destruct (split_shape (_chunksMap mgr) e c k1) as (l1 & l2 & Hl & ->); [apply W|done|done|done|done|korder|].
  set (chunks := l1 ++ _). destruct (map_assign_new c.1 k2 chunks) as (k & Hk & M).
  eexists _, k. split; [done|]. split; [done|]. cbn [_chunksMap].
  set (chunks' := sl_insert _ _ _ _). assert ((k, k2) ∈ chunks') as M1 by (by apply sl_insert_old).
  assert ((k1, c.2) ∈ chunks') as M2.
  { apply sl_insert_old, map_assign_keep; [|done]. apply elem_of_app. right. right. by left. }
  split; [done|]. split; [done|]. intros D.
  apply list_elem_of_split in M1 as (a & b & Hab). rewrite Hab in M2, D.
  apply disjoint_app in D as (_ & D & Hx). apply disjoint_cons in D as (_ & Hb & _).
  apply elem_of_app in M2 as [M2|[[= -> <-]|M2]%elem_of_cons].
  - specialize (Hx _ (k, k2) M2 ltac:(by left)). unfold before in Hx. cbn in Hx. korder.
  - korder.
  - specialize (Hb _ M2). unfold before in Hb. cbn in Hb. korder.
Qed.

Lemma build_valid mgr v chunks ranges :
  isValid mgr = true → version_wf v → version_wf (_maxCollVersion mgr) →
  isValid (mkManager (newer v (_maxCollVersion mgr)) v (_key mgr) chunks ranges) = true.
Proof.
  unfold isValid. destruct (Version.gt (_maxShardVersion mgr) _); [done|]. intros V W W'.
  cbn [_maxShardVersion _maxCollVersion].
  assert (Version.gt v (newer v (_maxCollVersion mgr)) = false) as ->; [|by apply newer_valid].
  unfold newer. destruct (Version.gt v (_maxCollVersion mgr)) eqn:G; [|done]. apply Z.ltb_irrefl.
Qed.

Lemma split_loop_wf c ks chunks v : version_wf v → version_wf (split_loop c ks chunks v).2.
Proof.
  revert chunks v. induction ks as [|k ks IH]; intros chunks v W; [done|]. apply IH.
  destruct W as [W1 W2]. split; [done|]. apply i32_range.
Qed.

(** The debug assertion at the end of each operation holds: from a valid manager, removing,
    adding and splitting only build valid ones. *)
Theorem cm_valid mgr mgr' c ks v :
  isValid mgr = true → version_wf v → version_wf (_maxCollVersion mgr) →
  cloneMinus mgr c v = Ok mgr' ∨ clonePlus mgr c v = Ok mgr' ∨ cloneSplit mgr c ks v = Ok mgr' →
  isValid mgr' = true.
Proof.
  intros V W W' [E|[E|E]].
  - unfold cloneMinus in E. destruct (chunkExists_cases mgr c) as [Hc|(x & Hc)]; rewrite Hc in E; [|done].
    cbn [result_bind] in E. repeat (destruct (_ && _); [done|]). simplify_eq. by apply build_valid.
  - unfold clonePlus in E. destruct (negb _); [done|]. destruct (match _ with Some _ => _ | None => _ end); [done|].
    simplify_eq. by apply build_valid.
  - unfold cloneSplit in E. destruct (Version.le _ _); [done|].
    destruct (chunkExists_cases mgr c) as [Hc|(x & Hc)]; rewrite Hc in E; [|done].
    cbn [result_bind] in E. destruct (negb _); [done|].
    pose proof (split_loop_wf c ks (_chunksMap mgr) v W) as Wv.
    destruct (split_loop _ _ _ _) as [chunks version]. simplify_eq. by apply build_valid.
Qed.

Lemma upper_at (l : RangeMap) i c :
  sl_sorted fst BSONObjCmp l → l !! i = Some c → sl_upper fst BSONObjCmp c.1 l = S i.
Proof.
  revert i. induction l as [|d l IH]; intros i; [done|]. intros [S1 S2]%sl_sorted_cons Hi. cbn [sl_upper].
  destruct i as [|i].
  - injection Hi as ->. rewrite (proj2 (cmp_false _ _)) by apply kle_refl. f_equal.
    destruct l as [|x l]; [done|]. cbn [sl_upper]. by rewrite (S1 x) by (by left).
  - cbn in Hi. rewrite (IH i) by done. pose proof (S1 c ltac:(by eapply list_elem_of_lookup_2)) as L.
    apply cmp_true in L. by rewrite (proj2 (cmp_false _ _)) by korder.
Qed.

(** [getNextChunk] enumerates the chunks: from the empty document the first, from the
    minimum of a chunk the one after it, with [true] only past the last chunk or when there is
    a single one. *)
Theorem cm_next mgr :
  manager_wf mgr →
  (∀ k, isEmpty k = true →
     getNextChunk mgr k = ((length (_chunksMap mgr) <=? 1)%nat, _chunksMap mgr !! 0%nat)) ∧
  (∀ i c, _chunksMap mgr !! i = Some c →
     getNextChunk mgr c.1 = match _chunksMap mgr !! S i with Some d => (false, Some d) | None => (true, None) end).
Proof.
  intros W. pose proof (wf_chunks _ W) as D. unfold getNextChunk. split.
  - intros k Hk. destruct (_chunksMap mgr) as [|c l]; [done|]. rewrite Hk. by destruct l.
  - intros i c Hi. pose proof (disjoint_ok _ c D ltac:(by eapply list_elem_of_lookup_2)) as [_ E].
    pose proof (upper_at _ i c (disjoint_sorted _ D) Hi) as U. rewrite E, U.
    by destruct (_chunksMap mgr) as [|first l].
Qed.
End Manager.

(** ** A shard with three chunks *)

Module ManagerExample.

Abbreviation cm_doc := (shard_doc CommonRange).

Definition cm_k0 : cm_doc := [([97], BInt 0)] ↾ eq_refl.
Definition cm_k5 : cm_doc := [([97], BInt 5)] ↾ eq_refl.
Definition cm_k7 : cm_doc := [([97], BDouble 0x401C000000000000)] ↾ eq_refl.
Definition cm_k10 : cm_doc := [([97], BInt 10)] ↾ eq_refl.
Definition cm_k20 : cm_doc := [([97], BLong 20)] ↾ eq_refl.
Definition cm_k30 : cm_doc := [([97], BInt 30)] ↾ eq_refl.
Definition cm_k40 : cm_doc := [([97], BMaxKey)] ↾ eq_refl.
Definition cm_pattern : cm_doc := [([97], BInt 1)] ↾ eq_refl.

Definition cm_version (major minor : Z) : ChunkVersion := mkVersion major minor Version.no_epoch.

(** Chunks [0, 10), [10, 20) and [30, MaxKey): two ranges. *)
Definition cm_chunks : list (cm_doc * cm_doc) := [(cm_k0, cm_k10); (cm_k10, cm_k20); (cm_k30, cm_k40)].

Definition cm_start : CollectionManager :=
  mkManager (cm_version 5 0) (cm_version 4 2) cm_pattern cm_chunks (fillRanges cm_chunks).

Ltac cm_eval := apply (bool_decide_unpack _); vm_compute; reflexivity.

Lemma cm_start_wf : manager_wf cm_start.
Proof.
  split; [reflexivity| |reflexivity].
  apply disjoint_cons. split; [split; [cm_eval|reflexivity]|]. split.
  { intros d [->|[->|[]%not_elem_of_nil]%elem_of_cons]%elem_of_cons; cm_eval. }
  apply disjoint_cons. split; [split; [cm_eval|reflexivity]|]. split.
  { intros d [->|[]%not_elem_of_nil]%elem_of_cons; cm_eval. }
  apply disjoint_cons. split; [split; [cm_eval|reflexivity]|]. split.
  { intros d []%not_elem_of_nil. }
  apply disjoint_nil.
Qed.

Lemma cm_belongs_witness : ∃ c, c ∈ _chunksMap cm_start ∧ contains c.1 c.2 cm_k7 = true.
Proof. apply (cm_belongs cm_start cm_k7 cm_start_wf). vm_compute. reflexivity. Defined.

Lemma cm_minus_witness :
  ∃ mgr', cloneMinus cm_start (cm_k10, cm_k20) (cm_version 5 1) = Ok mgr' ∧ manager_wf mgr' ∧
    _maxShardVersion mgr' = cm_version 5 1 ∧
    ∀ p, belongsToMe mgr' p = belongsToMe cm_start p && negb (contains cm_k10 cm_k20 p).
Proof. exact (cm_minus cm_start (cm_k10, cm_k20) (cm_version 5 1) cm_start_wf eq_refl). Defined.

Lemma cm_plus_witness :
  ∃ mgr', clonePlus cm_start (cm_k20, cm_k30) (cm_version 5 1) = Ok mgr' ∧ manager_wf mgr' ∧
    _maxShardVersion mgr' = cm_version 5 1 ∧ length (_chunksMap mgr') = 4%nat ∧
    ∀ p, belongsToMe mgr' p = contains cm_k20 cm_k30 p || belongsToMe cm_start p.
Proof.
  refine (cm_plus cm_start (cm_k20, cm_k30) (cm_version 5 1) cm_start_wf _ eq_refl).
  split; [cm_eval|reflexivity].
Defined.

Lemma cm_split_witness :
  ∃ mgr' l1 e l2, cloneSplit cm_start (cm_k0, cm_k10) [cm_k5] (cm_version 5 1) = Ok mgr' ∧ manager_wf mgr' ∧
    _maxShardVersion mgr' = cm_version 5 2 ∧
    _chunksMap cm_start = l1 ++ e :: l2 ∧ _chunksMap mgr' = l1 ++ (e.1, cm_k5) :: (cm_k5, cm_k10) :: l2 ∧
    ∀ p, belongsToMe mgr' p = belongsToMe cm_start p.
Proof.
  apply (cm_split cm_start (cm_k0, cm_k10) cm_k5 (cm_version 5 1) cm_start_wf); first [reflexivity | cm_eval].
Defined.

Lemma cm_split_two_witness :
  ∃ mgr' k, cloneSplit cm_start (cm_k0, cm_k10) [cm_k5; cm_k7] (cm_version 5 1) = Ok mgr' ∧ kle k cm_k0 ∧
    (k, cm_k7) ∈ _chunksMap mgr' ∧ (cm_k5, cm_k10) ∈ _chunksMap mgr' ∧ ¬ disjoint_chunks (_chunksMap mgr').
Proof.
  apply (cm_split_two cm_start (cm_k0, cm_k10) cm_k5 cm_k7 (cm_version 5 1) cm_start_wf); first [reflexivity | cm_eval].
Defined.

Lemma cm_valid_witness :
  ∃ mgr', clonePlus cm_start (cm_k20, cm_k30) (cm_version 5 1) = Ok mgr' ∧ isValid mgr' = true.
Proof.
  eexists. split; [reflexivity|].
  apply (cm_valid cm_start _ (cm_k20, cm_k30) [] (cm_version 5 1)); [reflexivity|by split|by split|].
  right. left. reflexivity.
Defined.

Lemma cm_next_witness : getNextChunk cm_start cm_k10 = (false, Some (cm_k30, cm_k40)).
Proof. exact (proj2 (cm_next cm_start cm_start_wf) 1%nat (cm_k10, cm_k20) eq_refl). Defined.

(** Splitting at the minimum of the chunk is accepted and loses its keys. *)
Example cm_split_min :
  match cloneSplit cm_start (cm_k0, cm_k10) [cm_k0] (cm_version 5 1) with
  | Ok mgr' => belongsToMe cm_start cm_k5 && negb (belongsToMe mgr' cm_k5)
  | Err _ => false
  end = true.
Proof. vm_compute. reflexivity. Qed.

End ManagerExample.
