(* ===== verification/QLock.v ===== *)
(** * The quad lock

    Models util/concurrency/qlock.h: the lock behind every read and write of the server, with
    its four modes (intent and global, read and write) and the extra mode X that all intent
    writers can be gathered into.  The state is the counters of the [QLock] object and, for each
    thread, where it is: idle, holding a mode, or in the wait loop of one of the operations,
    asleep on its condition variable or awake.  A step is one critical section of the mutex [m]:
    a call up to its first wait or its return, or a turn of a wait loop.  Which thread a
    [notify_one] wakes is a parameter; a sleeping thread may also wake by itself, as condition
    variables allow.  [fassert] ends the process and gives [Err] with its number.

    The theorems: threads that hold the lock at the same time hold modes the table of the header
    allows; no [fassert] fails except for a second concurrent upgrade; without timeouts no wakeup
    is lost; and a [lock_W_try] that times out leaves a reader asleep on a free lock. *)

From S2P Require Import Prelude.
#[local] Open Scope Z_scope.

(** ** The state *)

Inductive mode := mr | mw | mR | mW | mX.

#[global] Instance mode_eq_dec : EqDecision mode.
Proof. solve_decision. Defined.

Record QLock := mkQLock {
  r_n : Z; w_n : Z; R_n : Z; W_n : Z; U_n : Z; X_n : Z;
  numPendingGlobalWrites : Z;
  generationX : Z;
  generationXExit : Z
}.

(** The wait loops; [w_to_X] has two, with its local [myGeneration]. *)
Inductive wait :=
| in_lock_r | in_lock_w | in_lock_R | in_lock_R_try | in_lock_W | in_lock_W_try | in_R_to_W
| in_w_to_X (myGeneration : Z)
| in_w_to_X_exit (myGeneration : Z).

Inductive thread :=
| Idle
| Holds (m : mode)
| Waits (k : wait) (awake : bool).

Record system := mkSystem { lock : QLock; threads : list thread }.

Module Q.

Definition init : QLock := mkQLock 0 0 0 0 0 0 0 0 0.

Definition pending (q : QLock) : bool := 0 <? numPendingGlobalWrites q.

Definition W_legal (q : QLock) : bool := r_n q + w_n q + R_n q + W_n q + X_n q =? 0.
Definition R_legal_ignore_greed (q : QLock) : bool := w_n q + W_n q + X_n q =? 0.
Definition r_legal_ignore_greed (q : QLock) : bool := W_n q + X_n q =? 0.
Definition w_legal_ignore_greed (q : QLock) : bool := R_n q + W_n q + X_n q =? 0.
Definition R_legal (q : QLock) : bool := negb (pending q) && R_legal_ignore_greed q.
Definition w_legal (q : QLock) : bool := negb (pending q) && w_legal_ignore_greed q.
Definition r_legal (q : QLock) : bool := negb (pending q) && r_legal_ignore_greed q.
Definition X_legal (q : QLock) : bool := w_n q + r_n q + R_n q + W_n q =? 0.

Definition i_block (me them : mode) : bool :=
  match me with
  | mW => true
  | mR => match them with mW | mw | mX => true | _ => false end
  | mw => match them with mW | mR | mX => true | _ => false end
  | mr => match them with mW | mX => true | _ => false end
  | mX => true
  end.

(** ** Condition variables *)

(** The condition variable a loop waits on; [U] is the one of upgrades. *)
Inductive cond := cr | cw | cR | cW | cU | cX.

Definition waits_on (k : wait) : cond :=
  match k with
  | in_lock_r => cr
  | in_lock_w => cw
  | in_lock_R | in_lock_R_try => cR
  | in_lock_W | in_lock_W_try => cW
  | in_R_to_W => cU
  | in_w_to_X _ | in_w_to_X_exit _ => cX
  end.

#[global] Instance cond_eq_dec : EqDecision cond.
Proof. solve_decision. Defined.

Definition asleep_on (c : cond) (t : thread) : bool :=
  match t with Waits k false => bool_decide (waits_on k = c) | _ => false end.

Definition wake (t : thread) : thread := match t with Waits k _ => Waits k true | t => t end.

Definition notify_all (c : cond) (l : list thread) : list thread :=
  map (λ t, if asleep_on c t then wake t else t) l.

(** [notify_one] wakes the sleeper [pick] names, or else the first one. *)
Fixpoint wake_first (c : cond) (l : list thread) : list thread :=
  match l with
  | [] => []
  | t :: l' => if asleep_on c t then wake t :: l' else t :: wake_first c l'
  end.

Definition notify_one (pick : cond → nat) (c : cond) (l : list thread) : list thread :=
  match l !! pick c with
  | Some t => if asleep_on c t then <[pick c := wake t]> l else wake_first c l
  | None => wake_first c l
  end.

Definition fassert {A : Type} (n : Z) (b : bool) (k : result Z A) : result Z A := if b then k else Err n.

Definition notifyWeUnlocked (pick : cond → nat) (me : mode) (q : QLock) (l : list thread)
  : result Z (list thread) :=
  fassert 16201 (W_n q =? 0)
    (let l := match me with mX => notify_all cX l | _ => l end in
     if negb (U_n q =? 0) && ((r_n q + w_n q + W_n q + X_n q =? 0) && (R_n q =? 1)) then Ok (notify_one pick cU l)
     else
       let l := if X_legal q && i_block me mX then notify_one pick cX l else l in
       let l' := if W_legal q && i_block me mW then notify_one pick cW l else l in
       if (W_legal q && i_block me mW) && pending q then Ok l'
       else
         let l := l' in
         let l := if R_legal_ignore_greed q && i_block me mR then notify_all cR l else l in
         let l := if w_legal_ignore_greed q && i_block me mw then notify_all cw l else l in
         let l := if r_legal_ignore_greed q && i_block me mr then notify_all cr l else l in
         Ok l).

(** ** Updates of the counters *)

Definition set_r n q := mkQLock n (w_n q) (R_n q) (W_n q) (U_n q) (X_n q) (numPendingGlobalWrites q) (generationX q) (generationXExit q).
Definition set_w n q := mkQLock (r_n q) n (R_n q) (W_n q) (U_n q) (X_n q) (numPendingGlobalWrites q) (generationX q) (generationXExit q).
Definition set_R n q := mkQLock (r_n q) (w_n q) n (W_n q) (U_n q) (X_n q) (numPendingGlobalWrites q) (generationX q) (generationXExit q).
Definition set_W n q := mkQLock (r_n q) (w_n q) (R_n q) n (U_n q) (X_n q) (numPendingGlobalWrites q) (generationX q) (generationXExit q).
Definition set_U n q := mkQLock (r_n q) (w_n q) (R_n q) (W_n q) n (X_n q) (numPendingGlobalWrites q) (generationX q) (generationXExit q).
Definition set_X n q := mkQLock (r_n q) (w_n q) (R_n q) (W_n q) (U_n q) n (numPendingGlobalWrites q) (generationX q) (generationXExit q).
Definition set_pending n q := mkQLock (r_n q) (w_n q) (R_n q) (W_n q) (U_n q) (X_n q) n (generationX q) (generationXExit q).
Definition set_gen n q := mkQLock (r_n q) (w_n q) (R_n q) (W_n q) (U_n q) (X_n q) (numPendingGlobalWrites q) n (generationXExit q).
Definition set_exit n q := mkQLock (r_n q) (w_n q) (R_n q) (W_n q) (U_n q) (X_n q) (numPendingGlobalWrites q) (generationX q) n.

(** Thread [i] moves to [t]. *)
Definition moves (i : nat) (t : thread) (q : QLock) (l : list thread) : result Z system :=
  Ok (mkSystem q (<[i := t]> l)).

(** Thread [i] moves to [t] and notifies. *)
Definition unlocks (pick : cond → nat) (me : mode) (i : nat) (t : thread) (q : QLock) (l : list thread)
  : result Z system :=
  l' <-? notifyWeUnlocked pick me q (<[i := t]> l) ;; Ok (mkSystem q l').

(** ** The wait loops: one turn, of thread [i], after which it holds, sleeps or has given up *)

(** The end of [w_to_X] for a thread that another one overtook. *)
Definition loop_X_exit (i : nat) (myGeneration : Z) (q : QLock) (l : list thread) : result Z system :=
  if myGeneration =? generationXExit q then moves i (Waits (in_w_to_X_exit myGeneration) false) q l
  else fassert 16216 (R_n q =? 0) (fassert 16217 (0 <? w_n q) (moves i (Holds mw) q l)).

Definition loop (pick : cond → nat) (expired : bool) (i : nat) (k : wait) (q : QLock) (l : list thread)
  : result Z system :=
  match k with
  | in_lock_r =>
      if negb (r_legal q) then moves i (Waits k false) q l
      else moves i (Holds mr) (set_r (r_n q + 1) q) l
  | in_lock_w =>
      if negb (w_legal q) then moves i (Waits k false) q l
      else moves i (Holds mw) (set_w (w_n q + 1) q) l
  | in_lock_R =>
      if negb (R_legal q) then moves i (Waits k false) q l
      else moves i (Holds mR) (set_R (R_n q + 1) q) l
  | in_lock_R_try =>
      if negb (R_legal q) && negb expired then moves i (Waits k false) q l
      else if R_legal q then moves i (Holds mR) (set_R (R_n q + 1) q) l
      else moves i Idle q l
  | in_lock_W =>
      if negb (W_legal q) then moves i (Waits k false) q l
      else
        let q := set_pending (numPendingGlobalWrites q - 1) q in
        moves i (Holds mW) (set_W (W_n q + 1) q) l
  | in_lock_W_try =>
      if negb (W_legal q) && negb expired then moves i (Waits k false) q l
      else
        let q := set_pending (numPendingGlobalWrites q - 1) q in
        if W_legal q then
          let q := set_W (W_n q + 1) q in fassert 16202 (W_n q =? 1) (moves i (Holds mW) q l)
        else moves i Idle q l
  | in_R_to_W =>
      if 1 <? W_n q + R_n q + w_n q + r_n q then moves i (Waits k false) q l
      else
        let q := set_pending (numPendingGlobalWrites q - 1) q in
        fassert 16209 (R_n q =? 1) (fassert 16210 (W_n q =? 0) (fassert 16211 (U_n q =? 1)
          (moves i (Holds mW) (set_U 0 (set_W 1 (set_R 0 q))) l)))
  | in_w_to_X myGeneration =>
      if negb (X_legal q) && (myGeneration =? generationX q) then moves i (Waits k false) q l
      else if myGeneration =? generationX q then
        fassert 16214 (X_legal q) (fassert 16215 (w_n q =? 0)
          (unlocks pick mw i (Holds mX) (set_gen (generationX q + 1) q) l))
      else loop_X_exit i myGeneration q l
  | in_w_to_X_exit myGeneration => loop_X_exit i myGeneration q l
  end.

(** ** The operations *)

Inductive op :=
| lock_r | lock_w | lock_R | lock_R_try | lock_W | lock_W_try
| unlock_r | unlock_w | unlock_R | unlock_W | W_to_R | R_to_W | w_to_X | X_to_w.

#[global] Instance op_eq_dec : EqDecision op.
Proof. solve_decision. Defined.

(** What the caller has to hold. *)
Definition may_call (o : op) (t : thread) : bool :=
  match o, t with
  | (lock_r | lock_w | lock_R | lock_R_try | lock_W | lock_W_try), Idle => true
  | unlock_r, Holds mr => true
  | (unlock_w | w_to_X), Holds mw => true
  | (unlock_R | R_to_W), Holds mR => true
  | (unlock_W | W_to_R), Holds mW => true
  | X_to_w, Holds mX => true
  | _, _ => false
  end.

Definition call (pick : cond → nat) (expired : bool) (i : nat) (o : op) (q : QLock) (l : list thread)
  : result Z system :=
  match o with
  | lock_r => loop pick expired i in_lock_r q l
  | lock_w => loop pick expired i in_lock_w q l
  | lock_R => loop pick expired i in_lock_R q l
  | lock_R_try => loop pick expired i in_lock_R_try q l
  | lock_W => loop pick expired i in_lock_W (set_pending (numPendingGlobalWrites q + 1) q) l
  | lock_W_try => loop pick expired i in_lock_W_try (set_pending (numPendingGlobalWrites q + 1) q) l
  | unlock_r => fassert 16137 (0 <? r_n q) (unlocks pick mr i Idle (set_r (r_n q - 1) q) l)
  | unlock_w => fassert 16138 (0 <? w_n q) (unlocks pick mw i Idle (set_w (w_n q - 1) q) l)
  | unlock_R => fassert 16139 (0 <? R_n q) (unlocks pick mR i Idle (set_R (R_n q - 1) q) l)
  | unlock_W => fassert 16140 (W_n q =? 1) (unlocks pick mW i Idle (set_W (W_n q - 1) q) l)
  | W_to_R =>
      fassert 16203 (W_n q =? 1) (fassert 16204 (R_n q =? 0) (fassert 16205 (U_n q =? 0)
        (unlocks pick mW i (Holds mR) (set_R 1 (set_W 0 q)) l)))
  | R_to_W =>
      fassert 16206 (0 <? R_n q) (fassert 16207 (W_n q =? 0) (fassert 16208 (U_n q =? 0)
        (loop pick expired i in_R_to_W (set_pending (numPendingGlobalWrites q + 1) (set_U 1 q)) l)))
  | w_to_X =>
      fassert 16212 (0 <? w_n q)
        (let q := set_w (w_n q - 1) (set_X (X_n q + 1) q) in
         loop pick expired i (in_w_to_X (generationX q)) q l)
  | X_to_w =>
      fassert 16219 (W_n q =? 0) (fassert 16220 (R_n q =? 0) (fassert 16221 (w_n q =? 0) (fassert 16222 (0 <? X_n q)
        (unlocks pick mX i (Holds mw) (set_exit (generationXExit q + 1) (set_X 0 (set_w (X_n q) q))) l))))
  end.

(** ** Steps of the threads

    The flag says whether a [lock_W_try] gave up in the step. *)

Definition gives_up (expired : bool) (k : wait) (q : QLock) : bool :=
  match k with in_lock_W_try => negb (W_legal q) && expired | _ => false end.

Inductive step : bool → system → system → Prop :=
| step_call pick expired i o t q l s :
    l !! i = Some t → may_call o t = true → call pick expired i o q l = Ok s →
    step (match o with lock_W_try => negb (W_legal q) && expired | _ => false end) (mkSystem q l) s
| step_run pick expired i k q l s :
    l !! i = Some (Waits k true) → loop pick expired i k q l = Ok s →
    step (gives_up expired k q) (mkSystem q l) s
| step_wake i k q l :
    l !! i = Some (Waits k false) → step false (mkSystem q l) (mkSystem q (<[i := Waits k true]> l)).

Inductive reachable (timeouts : bool) (n : nat) : system → Prop :=
| reach_init : reachable timeouts n (mkSystem init (replicate n Idle))
| reach_step s s' b :
    reachable timeouts n s → step b s s' → (b = true → timeouts = true) → reachable timeouts n s'.

End Q.

(** ** Counting threads *)

Fixpoint cnt (f : thread → Z) (l : list thread) : Z :=
  match l with [] => 0 | t :: l' => f t + cnt f l' end.

(** Threads up to being asleep or awake. *)
Definition strip (t : thread) : thread := match t with Waits k _ => Waits k true | t => t end.

Definition one (b : bool) : Z := if b then 1 else 0.

(** What each thread adds to each counter; a thread overtaken in [w_to_X] is a writer again once
    its generation has left X. *)
Definition in_r (t : thread) : Z := match t with Holds mr => 1 | _ => 0 end.
Definition in_w (e : Z) (t : thread) : Z :=
  match t with
  | Holds mw => 1
  | Waits (in_w_to_X g) _ | Waits (in_w_to_X_exit g) _ => one (g <? e)
  | _ => 0
  end.
Definition in_R (t : thread) : Z := match t with Holds mR | Waits in_R_to_W _ => 1 | _ => 0 end.
Definition in_W (t : thread) : Z := match t with Holds mW => 1 | _ => 0 end.
Definition in_U (t : thread) : Z := match t with Waits in_R_to_W _ => 1 | _ => 0 end.
Definition has_X (t : thread) : Z := match t with Holds mX => 1 | _ => 0 end.
Definition in_X (e : Z) (t : thread) : Z :=
  match t with
  | Holds mX => 1
  | Waits (in_w_to_X g) _ | Waits (in_w_to_X_exit g) _ => one (e <=? g)
  | _ => 0
  end.
Definition in_pending (t : thread) : Z :=
  match t with Waits (in_lock_W | in_lock_W_try | in_R_to_W) _ => 1 | _ => 0 end.

(** Generations of threads inside [w_to_X]. *)
Definition gen_ok (gen exit : Z) (t : thread) : Prop :=
  match t with
  | Waits (in_w_to_X g) _ => g ≤ exit
  | Waits (in_w_to_X_exit g) _ => g ≤ exit ∧ g < gen
  | _ => True
  end.

(** The counters count, and the modes held exclude each other. *)
Record qinv (q : QLock) (l : list thread) : Prop := {
  inv_r : r_n q = cnt in_r l;
  inv_w : w_n q = cnt (in_w (generationXExit q)) l;
  inv_R : R_n q = cnt in_R l;
  inv_W : W_n q = cnt in_W l;
  inv_U : U_n q = cnt in_U l;
  inv_X : X_n q = cnt (in_X (generationXExit q)) l;
  inv_pending : numPendingGlobalWrites q = cnt in_pending l;
  inv_gen : generationX q = generationXExit q + cnt has_X l;
  inv_gens : Forall (gen_ok (generationX q) (generationXExit q)) l;
  inv_one_U : U_n q ≤ 1;
  inv_excl_W : 0 < W_n q → W_n q = 1 ∧ r_n q = 0 ∧ w_n q = 0 ∧ R_n q = 0 ∧ X_n q = 0;
  inv_excl_R : 0 < R_n q → w_n q = 0 ∧ X_n q = 0;
  inv_excl_X : 0 < cnt has_X l → cnt has_X l = 1 ∧ w_n q = 0 ∧ r_n q = 0
}.

Section counting.
Context (f : thread → Z).

Lemma cnt_insert l i t t' : l !! i = Some t → cnt f (<[i := t']> l) = cnt f l - f t + f t'.
Proof.
  revert i. induction l as [|x l IH]; intros [|i] Hi; simplify_eq/=; [lia|]. rewrite (IH i Hi). lia.
Qed.

Lemma cnt_nonneg l : (∀ t, 0 ≤ f t) → 0 ≤ cnt f l.
Proof. intros H. induction l as [|x l IH]; simpl; [lia|]. specialize (H x). lia. Qed.

Lemma cnt_ge l i t : (∀ t, 0 ≤ f t) → l !! i = Some t → f t ≤ cnt f l.
Proof.
  intros H. revert i. induction l as [|x l IH]; intros [|i] Hi; simplify_eq/=.
  - pose proof (cnt_nonneg l H). lia.
  - pose proof (H x). specialize (IH i Hi). lia.
Qed.

Lemma cnt_strip l l' : (∀ t, f (strip t) = f t) → map strip l = map strip l' → cnt f l = cnt f l'.
Proof.
  intros H. revert l'. induction l as [|x l IH]; intros [|y l'] E; simplify_eq/=; [done|].
  rewrite (IH l') by done. rewrite <- (H x), <- (H y). congruence.
Qed.
End counting.

Lemma cnt_ext f g l : (∀ t, t ∈ l → f t = g t) → cnt f l = cnt g l.
Proof.
  induction l as [|x l IH]; intros H; [done|]. cbn [cnt]. rewrite (H x) by (by left). rewrite IH; [done|]. set_solver.
Qed.

Lemma cnt_add f g l : cnt (λ t, f t + g t) l = cnt f l + cnt g l.
Proof. induction l as [|x l IH]; simpl; lia. Qed.

Lemma in_w_strip e t : in_w e (strip t) = in_w e t.
Proof. by destruct t as [| |[] ?]. Qed.
Lemma in_X_strip e t : in_X e (strip t) = in_X e t.
Proof. by destruct t as [| |[] ?]. Qed.

(** Being asleep or awake does not matter to the counters. *)
Lemma qinv_same q l l' : map strip l = map strip l' → qinv q l → qinv q l'.
Proof.
  intros E [].
  assert (∀ f, (∀ t, f (strip t) = f t) → cnt f l' = cnt f l) as C by (intros; by apply cnt_strip).
  assert (cnt has_X l' = cnt has_X l) as CX by (apply C; by intros [| |[] ?]).
  split; rewrite ?CX; try done;
    try (rewrite C; [done|]; try (by intros [| |[] ?]); intros; by (apply in_w_strip || apply in_X_strip)).
  assert (∀ l0, Forall (gen_ok (generationX q) (generationXExit q)) l0 ↔
    Forall (gen_ok (generationX q) (generationXExit q)) (map strip l0)) as F.
  { induction l0 as [|t k IH]; [done|]. cbn [map]. rewrite !Forall_cons, IH. by destruct t as [| |[] ?]. }
  apply (proj2 (F l')). rewrite <- E. by apply (proj1 (F l)).
Qed.

(** Threads inside [w_to_X] all become writers when the generation leaves X. *)
Lemma cnt_exit_w gen e l :
  Forall (gen_ok gen e) l → cnt (in_w (e + 1)) l = cnt (in_w e) l + cnt (in_X e) l - cnt has_X l.
Proof.
  induction 1 as [|t l Ht _ IH]; [done|]. cbn [cnt]. rewrite IH.
  assert (in_w (e + 1) t = in_w e t + in_X e t - has_X t); [|lia].
  destruct t as [|[]|[] ?]; cbn in *; try done; unfold one; crush_cmp.
Qed.

Lemma cnt_exit_X gen e l : Forall (gen_ok gen e) l → cnt (in_X (e + 1)) l = cnt has_X l.
Proof.
  induction 1 as [|t l Ht _ IH]; [done|]. cbn [cnt]. rewrite IH.
  assert (in_X (e + 1) t = has_X t); [|lia].
  destruct t as [|[]|[] ?]; cbn in *; try done; unfold one; crush_cmp.
Qed.

(** ** Notification *)

Lemma strip_wake t : strip (Q.wake t) = strip t.
Proof. by destruct t. Qed.

Lemma notify_all_same c l : map strip (Q.notify_all c l) = map strip l.
Proof.
  induction l as [|t l IH]; [done|]. cbn [Q.notify_all map]. f_equal; [|done].
  destruct (Q.asleep_on c t); [apply strip_wake|done].
Qed.

Lemma wake_first_same c l : map strip (Q.wake_first c l) = map strip l.
Proof.
  induction l as [|t l IH]; [done|]. cbn [Q.wake_first]. destruct (Q.asleep_on c t); cbn [map]; f_equal; auto using strip_wake.
Qed.

Lemma notify_one_same pick c l : map strip (Q.notify_one pick c l) = map strip l.
Proof.
  unfold Q.notify_one. destruct (l !! pick c) as [t|] eqn:E; [|apply wake_first_same].
  destruct (Q.asleep_on c t); [|apply wake_first_same].
  change (map strip) with (fmap (M:=list) strip). rewrite list_fmap_insert, strip_wake. apply list_insert_id.
  rewrite list_lookup_fmap, E. done.
Qed.

Lemma notify_same pick me q l :
  W_n q = 0 → ∃ l', Q.notifyWeUnlocked pick me q l = Ok l' ∧ map strip l' = map strip l.
Proof.
  intros HW. unfold Q.notifyWeUnlocked, Q.fassert. rewrite HW. cbn [Z.eqb].
  set (l0 := match me with mX => _ | _ => _ end).
  assert (map strip l0 = map strip l) as E0 by (subst l0; destruct me; auto using notify_all_same).
  clearbody l0. destruct (negb _ && _); [eexists; split; [done|]; by rewrite notify_one_same|].
  set (l1 := if Q.X_legal q && Q.i_block me mX then Q.notify_one pick Q.cX l0 else l0).
  assert (map strip l1 = map strip l) as E1
    by (subst l1; destruct (Q.X_legal q && _); [by rewrite notify_one_same|done]).
  clearbody l1. set (l2 := if Q.W_legal q && Q.i_block me mW then Q.notify_one pick Q.cW l1 else l1).
  assert (map strip l2 = map strip l) as E2
    by (subst l2; destruct (Q.W_legal q && _); [by rewrite notify_one_same|done]).
  clearbody l2. destruct (_ && Q.pending q); [by eexists|]. eexists. split; [done|].
  repeat destruct (_ && _); by rewrite ?notify_all_same.
Qed.

(** ** Every step keeps the invariant and fails no [fassert] *)

Lemma cnt_le f g l : (∀ t, f t ≤ g t) → cnt f l ≤ cnt g l.
Proof. intros H. induction l as [|t l IH]; cbn [cnt]; [lia|]. specialize (H t). lia. Qed.

Lemma one_nonneg b : 0 ≤ one b.
Proof. by destruct b. Qed.

Ltac by_thread := intros [|[]|[] ?]; cbn; try lia; try apply one_nonneg.

Record qfacts (q : QLock) (l : list thread) : Prop := {
  nn_r : 0 ≤ r_n q; nn_w : 0 ≤ w_n q; nn_R : 0 ≤ R_n q; nn_W : 0 ≤ W_n q; nn_U : 0 ≤ U_n q; nn_X : 0 ≤ X_n q;
  nn_hX : 0 ≤ cnt has_X l; le_UR : U_n q ≤ R_n q; le_hX : cnt has_X l ≤ X_n q;
  nn_P : U_n q ≤ numPendingGlobalWrites q
}.

Lemma qinv_facts q l : qinv q l → qfacts q l.
Proof.
  intros [Er Ew ER EW EU EX EP _ _ _ _ _ _]. split; rewrite ?Er, ?Ew, ?ER, ?EW, ?EU, ?EX, ?EP; try (apply cnt_nonneg; by_thread); try (apply cnt_le; by_thread).
Qed.

(** A thread counts in the counter of its place. *)
Lemma qinv_member q l i t :
  qinv q l → l !! i = Some t →
  in_r t ≤ r_n q ∧ in_w (generationXExit q) t ≤ w_n q ∧ in_R t ≤ R_n q ∧ in_W t ≤ W_n q ∧ in_U t ≤ U_n q ∧
  in_X (generationXExit q) t ≤ X_n q ∧ has_X t ≤ cnt has_X l ∧ in_pending t ≤ numPendingGlobalWrites q ∧
  gen_ok (generationX q) (generationXExit q) t.
Proof.
  intros [Er Ew ER EW EU EX EP _ G _ _ _ _] Hi. rewrite Er, Ew, ER, EW, EU, EX, EP. split_and!; try (eapply cnt_ge; [by_thread|done]).
  rewrite Forall_forall in G. apply G. by eapply list_elem_of_lookup_2.
Qed.

Definition good (r : result Z system) : Prop := match r with Ok s => qinv (lock s) (threads s) | Err _ => False end.

Lemma unlocks_good pick me i t q l : W_n q = 0 → qinv q (<[i := t]> l) → good (Q.unlocks pick me i t q l).
Proof.
  intros HW I. unfold Q.unlocks. destruct (notify_same pick me q (<[i := t]> l) HW) as (l' & -> & E).
  cbn. by apply (qinv_same q (<[i := t]> l)).
Qed.

(** The invariant after thread [i] moves: the counters by arithmetic, the generations by the
    new place of the thread. *)
Ltac qmove Hi :=
  split; cbn [lock threads r_n w_n R_n W_n U_n X_n numPendingGlobalWrites generationX generationXExit
              Q.set_r Q.set_w Q.set_R Q.set_W Q.set_U Q.set_X Q.set_pending Q.set_gen Q.set_exit];
  rewrite ?(cnt_insert _ _ _ _ _ Hi); cbn [in_r in_w in_R in_W in_U in_X has_X in_pending];
  try (apply Forall_insert; cbn [gen_ok]); try done; try lia.

Ltac qunfold :=
  unfold Q.r_legal, Q.w_legal, Q.R_legal, Q.W_legal, Q.X_legal, Q.pending, Q.r_legal_ignore_greed,
    Q.w_legal_ignore_greed, Q.R_legal_ignore_greed in *;
  cbn [r_n w_n R_n W_n U_n X_n numPendingGlobalWrites generationX generationXExit
       Q.set_r Q.set_w Q.set_R Q.set_W Q.set_U Q.set_X Q.set_pending Q.set_gen Q.set_exit] in *; bool_facts.

(** The test of an [fassert] that holds. *)
Ltac qassert := unfold Q.fassert at 1; match goal with
  | |- context [if ?b then _ else Err _] => replace b with true by (symmetry; qunfold; (apply Z.eqb_eq || apply Z.ltb_lt); lia)
  end.

Lemma loop_X_exit_good i g b q l :
  qinv q l → l !! i = Some (Waits (in_w_to_X g) b) ∧ g < generationX q ∨ l !! i = Some (Waits (in_w_to_X_exit g) b) →
  good (Q.loop_X_exit i g q l).
Proof.
  intros I Hi. pose proof (qinv_facts _ _ I) as []. pose proof I as [].
  assert (∃ t, l !! i = Some t ∧ (t = Waits (in_w_to_X g) b ∨ t = Waits (in_w_to_X_exit g) b)) as (t & Ht & Et).
  { destruct Hi as [[Hi _]|Hi]; eauto. }
  pose proof (qinv_member _ _ _ _ I Ht) as M. unfold Q.loop_X_exit.
  assert (g ≤ generationXExit q ∧ g < generationX q) as [G1 G2].
  { destruct Hi as [[Hi L]|Hi]; rewrite Hi in Ht; injection Ht as <-; cbn [gen_ok] in M; lia. }
  destruct (g =? generationXExit q) eqn:E; bool_facts.
  - destruct Et as [-> | ->]; cbn; qmove Ht.
  - assert (in_w (generationXExit q) t = 1 ∧ in_X (generationXExit q) t = 0 ∧ in_r t = 0 ∧ in_R t = 0 ∧ in_W t = 0 ∧
      in_U t = 0 ∧ in_pending t = 0 ∧ has_X t = 0) as (F1 & F2 & F3 & F4 & F5 & F6 & F7 & F8).
    { destruct Et as [-> | ->]; cbn [in_w in_X in_r in_R in_W in_U in_pending has_X];
        rewrite (proj2 (Z.ltb_lt g _)), (proj2 (Z.leb_gt _ g)) by lia; by split_and!. }
    rewrite F1 in M. do 2 qassert. cbn. qmove Ht.
Qed.

Lemma loop_good pick e i k q l :
  qinv q l → l !! i = Some (Waits k true) → good (Q.loop pick e i k q l).
Proof.
  intros I Hi. pose proof (qinv_facts _ _ I) as []. pose proof (qinv_member _ _ _ _ I Hi) as M.
  pose proof I as []. cbn [in_r in_w in_R in_W in_U in_X has_X in_pending gen_ok] in M. destruct k as [| | | | | | |g|g]; cbn [Q.loop].
  - destruct (negb _) eqn:E; cbn; [qmove Hi|]. qunfold. qmove Hi.
  - destruct (negb _) eqn:E; cbn; [qmove Hi|]. qunfold. qmove Hi.
  - destruct (negb _) eqn:E; cbn; [qmove Hi|]. qunfold. qmove Hi.
  - destruct (_ && _) eqn:E; cbn; [qmove Hi|]. destruct (Q.R_legal q) eqn:E'; cbn; [|qmove Hi]. qunfold. qmove Hi.
  - destruct (negb _) eqn:E; cbn; [qmove Hi|]. qunfold. qmove Hi.
  - destruct (negb _ && _) eqn:E; cbn; [qmove Hi|]. destruct (Q.W_legal _) eqn:E'; cbn; [|qmove Hi].
    qunfold. qassert. cbn. qmove Hi.
  - destruct (1 <? _) eqn:E; cbn; [qmove Hi|]. bool_facts. do 3 qassert. cbn. qmove Hi.
  - destruct (_ && _) eqn:E; [cbn; qmove Hi|]. destruct (g =? generationX q) eqn:E'.
    + rewrite andb_true_r in E. qunfold. do 2 qassert. apply unlocks_good; [cbn; lia|]. assert (one (g <? generationXExit q) = 0 ∧ one (generationXExit q <=? g) = 1) as [O1 O2]
        by (rewrite (proj2 (Z.ltb_ge _ _)), (proj2 (Z.leb_le _ _)) by lia; done).
      qmove Hi; rewrite ?O1, ?O2; try lia. eapply Forall_impl; [done|]. intros [| |[] ?]; cbn; lia.
    + bool_facts. apply (loop_X_exit_good i g true); [done|]. left. split; [done|]. lia.
  - apply (loop_X_exit_good i g true); auto.
Qed.

(** A loop forgets where the thread was before. *)
Lemma loop_insert pick e i k t q l : Q.loop pick e i k q (<[i := t]> l) = Q.loop pick e i k q l.
Proof.
  destruct k; cbn [Q.loop]; unfold Q.loop_X_exit, Q.unlocks, Q.moves; by rewrite !list_insert_insert_eq.
Qed.

Lemma enter_good pick e i k t q' l :
  l !! i = Some t → qinv q' (<[i := Waits k true]> l) → good (Q.loop pick e i k q' l).
Proof.
  intros Hi I. rewrite <- (loop_insert _ _ _ _ (Waits k true)). apply loop_good; [done|].
  apply list_lookup_insert_eq. by eapply lookup_lt_Some.
Qed.

Lemma call_good pick e i o t q l :
  qinv q l → l !! i = Some t → Q.may_call o t = true → (o = Q.R_to_W → U_n q = 0) → good (Q.call pick e i o q l).
Proof.
  intros I Hi Ho HU. pose proof (qinv_facts _ _ I) as []. pose proof (qinv_member _ _ _ _ I Hi) as M.
  pose proof I as []. destruct o, t as [|[]|]; try discriminate Ho;
    cbn [in_r in_w in_R in_W in_U in_X has_X in_pending gen_ok] in M; cbn [Q.call];
    try (by (apply (enter_good _ _ _ _ _ _ _ Hi); qmove Hi)).
  - qassert. apply unlocks_good; [cbn; lia|]. qmove Hi.
  - qassert. apply unlocks_good; [cbn; lia|]. qmove Hi.
  - qassert. apply unlocks_good; [cbn; lia|]. qmove Hi.
  - qassert. apply unlocks_good; [cbn; lia|]. qmove Hi.
  - do 3 qassert. apply unlocks_good; [cbn; lia|]. qmove Hi.
  - specialize (HU eq_refl). do 3 qassert. apply (enter_good _ _ _ _ _ _ _ Hi). qmove Hi.
  - qassert. apply (enter_good _ _ _ _ _ _ _ Hi). cbn [Q.set_w Q.set_X generationX].
    assert (one (generationX q <? generationXExit q) = 0 ∧ one (generationXExit q <=? generationX q) = 1) as [O1 O2]
      by (rewrite (proj2 (Z.ltb_ge _ _)), (proj2 (Z.leb_le _ _)) by lia; done).
    qmove Hi; rewrite ?O1, ?O2; lia.
  - do 4 qassert. apply unlocks_good; [cbn; lia|].
    pose proof (cnt_exit_w _ _ _ inv_gens0) as Cw. pose proof (cnt_exit_X _ _ _ inv_gens0) as CX.
    qmove Hi; try (rewrite Cw || rewrite CX; lia). eapply Forall_impl; [done|]. intros [| |[] ?]; cbn; lia.
Qed.

Lemma reachable_inv b n s : Q.reachable b n s → qinv (lock s) (threads s).
Proof.
  induction 1 as [|s s' b' _ IH Hs _].
  - assert (∀ f, f Idle = 0 → cnt f (replicate n Idle) = 0) as Z0 by (intros f Hf; induction n; cbn; lia).
    split; cbn; rewrite ?Z0; try done; try lia. apply Forall_replicate. done.
  - destruct Hs as [pick e i o t q l s Hi Ho Hc|pick e i k q l s Hi Hl|i k q l Hi]; cbn [lock threads] in *.
    + destruct (decide (o = Q.R_to_W ∧ U_n q ≠ 0)) as [[-> HU]|N].
      { cbn [Q.call] in Hc. unfold Q.fassert in Hc. rewrite (proj2 (Z.eqb_neq (U_n q) 0)) in Hc by done.
        destruct (0 <? R_n q), (W_n q =? 0); discriminate Hc. }
      assert (good (Q.call pick e i o q l)) as G; [|by rewrite Hc in G].
      apply (call_good _ _ _ _ t); try done. intros ->. destruct (decide (U_n q = 0)); [done|]. by destruct N.
    + pose proof (loop_good pick e i k q l IH Hi) as G. by rewrite Hl in G.
    + apply (qinv_same q l); [|done]. change (map strip) with (fmap (M:=list) strip).
      rewrite list_fmap_insert. symmetry. apply list_insert_id. by rewrite list_lookup_fmap, Hi.
Qed.

(** ** Mutual exclusion *)

(** The table of the header, for modes that are held. *)
Definition compatible (a b : mode) : bool :=
  match a, b with
  | mr, (mr | mw | mR) | mw, (mr | mw) | mR, (mr | mR) => true
  | _, _ => false
  end.

Lemma cnt_two f l i j t t' :
  (∀ t, 0 ≤ f t) → i ≠ j → l !! i = Some t → l !! j = Some t' → f t + f t' ≤ cnt f l.
Proof.
  intros Hf. revert i j. induction l as [|x l IH]; intros [|i] [|j] N Hi Hj; simplify_eq/=.
  - pose proof (cnt_ge f l j t' Hf Hj). lia.
  - pose proof (cnt_ge f l i t Hf Hi). lia.
  - pose proof (Hf x). specialize (IH i j ltac:(lia) Hi Hj). lia.
Qed.

(** C11: two threads never hold modes that the table of the header excludes: a global writer and
    a holder of X are alone, and a global reader never meets an intent writer. *)
Theorem qlock_exclusion b n s i j a c :
  Q.reachable b n s → i ≠ j →
  threads s !! i = Some (Holds a) → threads s !! j = Some (Holds c) → compatible a c = true.
Proof.
  intros I%reachable_inv N Hi Hj. pose proof (qinv_facts _ _ I) as [].
  pose proof (qinv_member _ _ _ _ I Hi) as M. pose proof (qinv_member _ _ _ _ I Hj) as M'.
  pose proof (cnt_two in_W _ _ _ _ _ ltac:(by_thread) N Hi Hj) as TW.
  pose proof (cnt_two has_X _ _ _ _ _ ltac:(by_thread) N Hi Hj) as TX.
  destruct I. destruct a, c; try done; cbn [in_r in_w in_R in_W in_X has_X] in *; exfalso; lia.
Qed.

(** C39: no [fassert] of the lock ever fails, as long as each thread only releases what it holds,
    but for one: a second thread that asks for the upgrade [R_to_W] while one is waiting for it
    ends the process at 16208. *)
Theorem qlock_fasserts b n s pick e i t :
  Q.reachable b n s → threads s !! i = Some t →
  (∀ o x, Q.may_call o t = true → Q.call pick e i o (lock s) (threads s) = Err x →
     o = Q.R_to_W ∧ x = 16208 ∧ U_n (lock s) = 1) ∧
  (∀ k x, t = Waits k true → Q.loop pick e i k (lock s) (threads s) ≠ Err x).
Proof.
  intros I%reachable_inv Hi. pose proof (qinv_facts _ _ I) as []. split.
  - intros o x Ho Hc. destruct (decide (o = Q.R_to_W ∧ U_n (lock s) ≠ 0)) as [[-> HU]|N].
    + destruct t as [|[]|]; try discriminate Ho. pose proof (qinv_member _ _ _ _ I Hi) as M.
      destruct I. cbn [in_R] in M. cbn [Q.call] in Hc. unfold Q.fassert in Hc.
      rewrite (proj2 (Z.ltb_lt 0 _)), (proj2 (Z.eqb_eq (W_n _) 0)), (proj2 (Z.eqb_neq (U_n _) 0)) in Hc by lia.
      injection Hc as <-. split_and!; [done|done|lia].
    + assert (good (Q.call pick e i o (lock s) (threads s))) as G; [|by rewrite Hc in G].
      apply (call_good _ _ _ _ t); try done. intros ->. destruct (decide (U_n (lock s) = 0)); [done|]. by destruct N.
  - intros k x -> Hl. pose proof (loop_good pick e i k _ _ I Hi) as G. by rewrite Hl in G.
Qed.

(** ** Wakeups *)

Definition awake_on (c : Q.cond) (t : thread) : bool :=
  match t with Waits k true => bool_decide (Q.waits_on k = c) | _ => false end.

(** Whether some thread sleeps, or is awake, at a condition variable. *)
Definition sl (c : Q.cond) (l : list thread) : Z := one (existsb (Q.asleep_on c) l).
Definition aw (c : Q.cond) (l : list thread) : Z := one (existsb (awake_on c) l).

(** A thread asleep in [w_to_X] belongs to the generation that has not left X. *)
Definition fresh (exit : Z) (t : thread) : Prop :=
  match t with Waits (in_w_to_X g) false | Waits (in_w_to_X_exit g) false => g = exit | _ => True end.

(** Whoever sleeps has a reason: the mode is not free, or a global writer is pending, or (where
    one thread is notified) another waiter is awake. *)
Record winv (q : QLock) (l : list thread) : Prop := {
  win_r : sl Q.cr l = 1 → 0 < numPendingGlobalWrites q ∨ 0 < W_n q + X_n q;
  win_w : sl Q.cw l = 1 → 0 < numPendingGlobalWrites q ∨ 0 < R_n q + W_n q + X_n q;
  win_R : sl Q.cR l = 1 → 0 < numPendingGlobalWrites q ∨ 0 < w_n q + W_n q + X_n q;
  win_W : sl Q.cW l = 1 → aw Q.cW l = 1 ∨ 0 < r_n q + w_n q + R_n q + W_n q + X_n q;
  win_U : sl Q.cU l = 1 → aw Q.cU l = 1 ∨ 1 < W_n q + R_n q + w_n q + r_n q;
  win_X : sl Q.cX l = 1 → aw Q.cX l = 1 ∨ 0 < cnt has_X l ∨ 0 < w_n q + r_n q + R_n q + W_n q;
  win_fresh : Forall (fresh (generationXExit q)) l
}.

Lemma one_range b : 0 ≤ one b ≤ 1.
Proof. by destruct b. Qed.

Lemma one_existsb (p : thread → bool) l : one (existsb p l) = 1 ↔ ∃ t, t ∈ l ∧ p t = true.
Proof.
  unfold one. destruct (existsb p l) eqn:E.
  - apply existsb_exists in E as (t & Ht & Hp). split; [|done]. intros _. exists t. by rewrite list_elem_of_In.
  - split; [done|]. intros (t & Ht & Hp). apply not_true_iff_false in E. destruct E. apply existsb_exists.
    exists t. by rewrite <- list_elem_of_In.
Qed.

(** A move of thread [i]. *)
Lemma sl_insert c l i t' : sl c (<[i := t']> l) ≤ sl c l + one (Q.asleep_on c t').
Proof.
  destruct (decide (sl c (<[i := t']> l) = 1)) as [E|E].
  - pose proof E as (t & Ht & Hp)%one_existsb. apply list_elem_of_lookup in Ht as (j & Hj).
    apply list_lookup_insert_Some in Hj as [(-> & <- & _)|(_ & Hj)].
    + rewrite Hp, E. pose proof (one_range (existsb (Q.asleep_on c) l)). unfold sl. cbn [one]. lia.
    + assert (sl c l = 1) by (apply one_existsb; exists t; split; [by eapply list_elem_of_lookup_2|done]).
      pose proof (one_range (Q.asleep_on c t')). lia.
  - unfold sl in *. pose proof (one_range (existsb (Q.asleep_on c) (<[i := t']> l))).
    pose proof (one_range (existsb (Q.asleep_on c) l)). pose proof (one_range (Q.asleep_on c t')). lia.
Qed.

Lemma aw_insert c l i t t' :
  l !! i = Some t → aw c l - one (awake_on c t) ≤ aw c (<[i := t']> l) ∧ one (awake_on c t') ≤ aw c (<[i := t']> l).
Proof.
  intros Hi. assert (i < length l)%nat by (by eapply lookup_lt_Some). split.
  - destruct (decide (aw c l = 1)) as [E|E].
    + pose proof E as (x & Hx & Hp)%one_existsb. apply list_elem_of_lookup in Hx as (j & Hj).
      destruct (decide (i = j)) as [<-|N].
      * assert (x = t) as -> by congruence. rewrite Hp, E. cbn [one].
        pose proof (one_range (existsb (awake_on c) (<[i := t']> l))). unfold aw. lia.
      * assert (aw c (<[i := t']> l) = 1).
        { apply one_existsb. exists x. split; [|done]. apply list_elem_of_lookup. exists j. by rewrite list_lookup_insert_ne. }
        pose proof (one_range (awake_on c t)). lia.
    + unfold aw in *. pose proof (one_range (existsb (awake_on c) (<[i := t']> l))).
      pose proof (one_range (existsb (awake_on c) l)). pose proof (one_range (awake_on c t)). lia.
  - destruct (awake_on c t') eqn:E; [|apply one_range]. cbn [one].
    assert (aw c (<[i := t']> l) = 1) as ->; [|done]. apply one_existsb. exists t'. split; [|done].
    apply list_elem_of_lookup. exists i. by apply list_lookup_insert_eq.
Qed.

(** Notifying wakes and never puts to sleep. *)
Lemma wake_not_asleep c t : Q.asleep_on c (Q.wake t) = false.
Proof. by destruct t. Qed.

Lemma wake_awake c t : awake_on c t = true → awake_on c (Q.wake t) = true.
Proof. by destruct t as [| |? []]. Qed.

Lemma asleep_wake c t : Q.asleep_on c t = true → awake_on c (Q.wake t) = true.
Proof. by destruct t as [| |? []]. Qed.

(** [l'] is [l] with some threads woken. *)
Definition woken (l l' : list thread) : Prop := Forall2 (λ t t', t' = t ∨ t' = Q.wake t) l l'.

Lemma woken_refl l : woken l l.
Proof. induction l; constructor; auto. Qed.

Lemma woken_trans l1 l2 l3 : woken l1 l2 → woken l2 l3 → woken l1 l3.
Proof.
  intros H. revert l3. induction H as [|t t' l l' E H IH]; intros l3 H3; inversion H3 as [|? t'' ? ? E']; subst; constructor; [|by apply IH].
  assert (Q.wake (Q.wake t) = Q.wake t) by (by destruct t). destruct E as [->| ->], E' as [->| ->]; auto.
Qed.

Lemma woken_sl c l l' : woken l l' → sl c l' ≤ sl c l.
Proof.
  intros H. unfold sl. induction H as [|t t' l l' E H IH]; [done|]. cbn [existsb].
  destruct E as [->| ->]; [destruct (Q.asleep_on c t); [done|exact IH]|].
  rewrite wake_not_asleep. cbn [orb]. destruct (Q.asleep_on c t); [|exact IH]. apply one_range.
Qed.

Lemma woken_aw c l l' : woken l l' → aw c l ≤ aw c l'.
Proof.
  intros H. unfold aw. induction H as [|t t' l l' E H IH]; [done|]. cbn [existsb].
  destruct E as [->| ->]; [destruct (awake_on c t); [done|exact IH]|].
  destruct (awake_on c t) eqn:A; [by rewrite wake_awake|]. destruct (awake_on c (Q.wake t)); [apply one_range|exact IH].
Qed.

Lemma woken_fresh e l l' : woken l l' → Forall (fresh e) l → Forall (fresh e) l'.
Proof.
  induction 1 as [|t t' l l' E H IH]; [done|]. rewrite !Forall_cons. intros [Ht Hl]. split; [|by apply IH].
  destruct E as [->| ->]; [done|]. by destruct t as [| |[] ?].
Qed.

Lemma notify_all_spec c l : woken l (Q.notify_all c l) ∧ sl c (Q.notify_all c l) = 0.
Proof.
  unfold sl. induction l as [|t l [IH1 IH2]]; [split; [constructor|done]|]. cbn [Q.notify_all map existsb].
  destruct (Q.asleep_on c t) eqn:E; cbn [orb].
  - rewrite wake_not_asleep. split; [constructor; [by right|done]|done].
  - rewrite E. split; [constructor; [by left|done]|done].
Qed.

Lemma wake_first_spec c l : woken l (Q.wake_first c l) ∧ sl c l ≤ aw c (Q.wake_first c l).
Proof.
  unfold sl, aw. induction l as [|t l [IH1 IH2]]; [split; [constructor|done]|]. cbn [Q.wake_first existsb].
  destruct (Q.asleep_on c t) eqn:E; cbn [existsb orb].
  - rewrite (asleep_wake _ _ E). split; [constructor; [by right|apply woken_refl]|done].
  - split; [constructor; [by left|done]|]. destruct (awake_on c t); [|done]. apply one_range.
Qed.

Lemma notify_one_spec pick c l : woken l (Q.notify_one pick c l) ∧ sl c l ≤ aw c (Q.notify_one pick c l).
Proof.
  unfold Q.notify_one. destruct (l !! pick c) as [t|] eqn:Hi; [|apply wake_first_spec].
  destruct (Q.asleep_on c t) eqn:E; [|apply wake_first_spec]. split.
  - revert Hi. generalize (pick c). clear E. induction l as [|x l IH]; intros [|i] Hi; simplify_eq/=.
    + constructor; [by right|apply woken_refl].
    + constructor; [by left|by apply IH].
  - pose proof (aw_insert c l (pick c) t (Q.wake t) Hi) as [_ A]. rewrite (asleep_wake _ _ E) in A. cbn [one] in A.
    pose proof (one_range (existsb (Q.asleep_on c) l)). unfold sl. lia.
Qed.

(** What [notifyWeUnlocked] guarantees. *)
Definition notified (me : mode) (q : QLock) (l' : list thread) : Prop :=
  (me = mX → sl Q.cX l' = 0) ∧
  if negb (U_n q =? 0) && ((r_n q + w_n q + W_n q + X_n q =? 0) && (R_n q =? 1)) then sl Q.cU l' ≤ aw Q.cU l'
  else
    (Q.X_legal q = true → sl Q.cX l' ≤ aw Q.cX l') ∧
    (Q.W_legal q = true → sl Q.cW l' ≤ aw Q.cW l') ∧
    (Q.W_legal q && Q.pending q = false →
     (Q.R_legal_ignore_greed q && Q.i_block me mR = true → sl Q.cR l' = 0) ∧
     (Q.w_legal_ignore_greed q && Q.i_block me mw = true → sl Q.cw l' = 0) ∧
     (Q.r_legal_ignore_greed q && Q.i_block me mr = true → sl Q.cr l' = 0)).

Lemma i_block_WX me : Q.i_block me mW = true ∧ Q.i_block me mX = true.
Proof. by destruct me. Qed.

Lemma sl_zero c l l' : woken l l' → sl c l = 0 → sl c l' = 0.
Proof. intros H E. pose proof (woken_sl c _ _ H). pose proof (one_range (existsb (Q.asleep_on c) l')). unfold sl in *. lia. Qed.

Lemma notify_if (b : bool) c l :
  ∃ l', (if b then Q.notify_all c l else l) = l' ∧ woken l l' ∧ (b = true → sl c l' = 0).
Proof.
  destruct b; eexists; (split; [done|]).
  - pose proof (notify_all_spec c l) as [? ?]. auto.
  - split; [apply woken_refl|done].
Qed.

Lemma notify_one_if (b : bool) pick c l :
  ∃ l', (if b then Q.notify_one pick c l else l) = l' ∧ woken l l' ∧ (b = true → sl c l' ≤ aw c l').
Proof.
  destruct b; eexists; (split; [done|]).
  - pose proof (notify_one_spec pick c l) as [W A]. split; [done|]. intros _. pose proof (woken_sl c _ _ W). lia.
  - split; [apply woken_refl|done].
Qed.

Lemma woken_ready c l l' : woken l l' → sl c l ≤ aw c l → sl c l' ≤ aw c l'.
Proof. intros W H. pose proof (woken_sl c _ _ W). pose proof (woken_aw c _ _ W). lia. Qed.

Lemma notify_spec pick me q l l' :
  Q.notifyWeUnlocked pick me q l = Ok l' → woken l l' ∧ notified me q l'.
Proof.
  unfold Q.notifyWeUnlocked, Q.fassert, notified. destruct (W_n q =? 0); [|done].
  destruct (i_block_WX me) as [-> ->]. rewrite !andb_true_r.
  assert (∃ l0, match me with mX => Q.notify_all Q.cX l | _ => l end = l0 ∧ woken l l0 ∧ (me = mX → sl Q.cX l0 = 0))
    as (l0 & -> & W0 & Z0).
  { destruct (notify_all_spec Q.cX l) as [? ?]. destruct me; eexists; (split; [done|]); (split; [done || apply woken_refl|]); done. }
  destruct (negb _ && _).
  { intros [= <-]. destruct (notify_one_if true pick Q.cU l0) as (? & <- & W1 & A1).
    split; [by eapply woken_trans|]. split; [|by apply A1]. intros E. by eapply sl_zero, Z0. }
  destruct (notify_one_if (Q.X_legal q) pick Q.cX l0) as (l1 & -> & W1 & A1).
  destruct (notify_one_if (Q.W_legal q) pick Q.cW l1) as (l2 & -> & W2 & A2).
  assert (woken l0 l2) as W02 by (by eapply woken_trans).
  destruct (Q.W_legal q && Q.pending q) eqn:P.
  { intros [= <-]. split; [by eapply woken_trans|]. split; [intros E; by eapply sl_zero, Z0|]. split_and!.
    - intros L. by eapply woken_ready, A1.
    - exact A2.
    - done. }
  destruct (notify_if (Q.R_legal_ignore_greed q && Q.i_block me mR) Q.cR l2) as (l3 & -> & W3 & A3).
  destruct (notify_if (Q.w_legal_ignore_greed q && Q.i_block me mw) Q.cw l3) as (l4 & -> & W4 & A4).
  destruct (notify_if (Q.r_legal_ignore_greed q && Q.i_block me mr) Q.cr l4) as (l5 & -> & W5 & A5).
  intros [= <-]. assert (woken l3 l5) as W35 by (by eapply woken_trans). assert (woken l2 l5) as W25 by (by eapply woken_trans).
  assert (woken l1 l5) as W15 by (by eapply woken_trans). assert (woken l0 l5) as W05 by (by eapply woken_trans).
  split; [by eapply woken_trans|]. split; [intros E; by eapply sl_zero, Z0|]. split_and!.
  - intros L. by eapply woken_ready, A1.
  - intros L. by eapply woken_ready, A2.
  - intros _. split_and!; intros L; [by eapply sl_zero, A3|by eapply sl_zero, A4|by apply A5].
Qed.

Lemma one_true b : one b = 1 → b = true.
Proof. by destruct b. Qed.

Lemma notified_arith me q l :
  notified me q l →
  (me = mX → sl Q.cX l = 0) ∧
  (U_n q ≠ 0 ∧ r_n q + w_n q + W_n q + X_n q = 0 ∧ R_n q = 1 ∧ sl Q.cU l ≤ aw Q.cU l ∨
   (U_n q = 0 ∨ r_n q + w_n q + W_n q + X_n q ≠ 0 ∨ R_n q ≠ 1) ∧
   (w_n q + r_n q + R_n q + W_n q = 0 → sl Q.cX l ≤ aw Q.cX l) ∧
   (r_n q + w_n q + R_n q + W_n q + X_n q = 0 → sl Q.cW l ≤ aw Q.cW l) ∧
   (r_n q + w_n q + R_n q + W_n q + X_n q = 0 ∧ 0 < numPendingGlobalWrites q ∨
    (w_n q + W_n q + X_n q = 0 → one (Q.i_block me mR) = 1 → sl Q.cR l = 0) ∧
    (R_n q + W_n q + X_n q = 0 → one (Q.i_block me mw) = 1 → sl Q.cw l = 0) ∧
    (W_n q + X_n q = 0 → one (Q.i_block me mr) = 1 → sl Q.cr l = 0))).
Proof.
  intros [HX N]. split; [done|]. destruct (negb _ && _) eqn:E.
  { left. bool_facts. done. }
  right. destruct N as (NX & NW & NR). split_and!.
  - apply andb_false_iff in E as [E|[E|E]%andb_false_iff]; bool_facts; auto.
  - intros L. apply NX. unfold Q.X_legal. by apply Z.eqb_eq.
  - intros L. apply NW. unfold Q.W_legal. by apply Z.eqb_eq.
  - unfold Q.W_legal, Q.pending, Q.R_legal_ignore_greed, Q.w_legal_ignore_greed, Q.r_legal_ignore_greed in *.
    destruct (r_n q + w_n q + R_n q + W_n q + X_n q =? 0) eqn:E1, (0 <? numPendingGlobalWrites q) eqn:E2;
      bool_facts; try (by left); right; destruct (NR eq_refl) as (N1 & N2 & N3);
      split_and!; intros L B; apply one_true in B; (apply N1 || apply N2 || apply N3);
      rewrite B, (proj2 (Z.eqb_eq _ 0)) by lia; done.
Qed.

Lemma unlocks_wakes pick me i t t' q l s :
  l !! i = Some t → (∀ c, Q.asleep_on c t' = false) →
  Q.unlocks pick me i t' q l = Ok s →
  lock s = q ∧ notified me q (threads s) ∧ woken (<[i := t']> l) (threads s) ∧
  ∀ c, 0 ≤ sl c (threads s) ∧ sl c (threads s) ≤ sl c l ∧ aw c l - one (awake_on c t) ≤ aw c (threads s).
Proof.
  intros Hi Ht'. unfold Q.unlocks. destruct (Q.notifyWeUnlocked _ _ _ _) as [l'|] eqn:E; [|done].
  cbn [result_bind]. intros [= <-]. apply notify_spec in E as [W N]. cbn [lock threads]. do 3 (split; [done|]). intros c.
  pose proof (woken_sl c _ _ W). pose proof (woken_aw c _ _ W). pose proof (sl_insert c l i t') as S.
  rewrite Ht' in S. cbn [one] in S. pose proof (aw_insert c l i t t' Hi) as [A _].
  pose proof (one_range (existsb (Q.asleep_on c) l')). unfold sl in *. lia.
Qed.

Lemma sl_fresh e l : sl Q.cX l = 0 → Forall (fresh e) l.
Proof.
  intros E. apply Forall_forall. intros t Ht. destruct t as [| |k []]; try done; [by destruct k|].
  assert (sl Q.cX l ≠ 1 ∨ Q.waits_on k ≠ Q.cX) as [N|N].
  { destruct (decide (Q.waits_on k = Q.cX)); [left|by right]. lia. }
  - destruct k; try done; destruct N; apply one_existsb; eexists; (split; [done|done]).
  - by destruct k.
Qed.

(** Upgrades: the sleeper and an awake one would be two. *)
Lemma sl_aw_U l : sl Q.cU l + aw Q.cU l ≤ cnt in_U l.
Proof.
  unfold sl, aw. induction l as [|t l IH]; [done|]. cbn [existsb cnt].
  pose proof (one_range (existsb (Q.asleep_on Q.cU) l)). pose proof (one_range (existsb (awake_on Q.cU) l)).
  destruct t as [|[]|[] []]; cbn [Q.asleep_on awake_on in_U Q.waits_on];
    repeat case_bool_decide; try congruence; cbn [orb one]; lia.
Qed.

(** ** The invariant of wakeups is kept by every step that is not a timeout *)

Ltac cond_facts H :=
  pose proof (H Q.cr); pose proof (H Q.cw); pose proof (H Q.cR); pose proof (H Q.cW); pose proof (H Q.cU); pose proof (H Q.cX).

Definition wgood (r : result Z system) : Prop := match r with Ok s => winv (lock s) (threads s) | Err _ => True end.

Ltac qcbn :=
  cbn [r_n w_n R_n W_n U_n X_n numPendingGlobalWrites generationX generationXExit lock threads
       Q.set_r Q.set_w Q.set_R Q.set_W Q.set_U Q.set_X Q.set_pending Q.set_gen Q.set_exit] in *.

(** Which modes can be held together. *)
Lemma qinv_modes q l :
  qinv q l →
  W_n q = 1 ∧ r_n q = 0 ∧ w_n q = 0 ∧ R_n q = 0 ∧ X_n q = 0 ∨
  W_n q = 0 ∧ 0 < R_n q ∧ w_n q = 0 ∧ X_n q = 0 ∨
  W_n q = 0 ∧ R_n q = 0.
Proof. intros I. pose proof (qinv_facts _ _ I) as []. destruct I. lia. Qed.

(** An unlock by a thread that holds the lock. *)
Lemma unlocks_wgood pick me i m t' q q' l :
  qinv q l → winv q l → l !! i = Some (Holds m) → (∀ c, Q.asleep_on c t' = false) →
  qinv q' (<[i := t']> l) →
  (me, q') ∈ [(mr, Q.set_r (r_n q - 1) q); (mw, Q.set_w (w_n q - 1) q); (mR, Q.set_R (R_n q - 1) q);
              (mW, Q.set_W (W_n q - 1) q); (mW, Q.set_R 1 (Q.set_W 0 q))] →
  has_X t' = 0 → has_X (Holds m) = 0 →
  wgood (Q.unlocks pick me i t' q' l).
Proof.
  intros I V Hi Ht' I' E HX1 HX2. destruct (Q.unlocks _ _ _ _ _ _) as [s|] eqn:U; [|done]. cbn [wgood].
  destruct (unlocks_wakes _ _ _ _ _ _ _ _ Hi Ht' U) as (-> & N & W & F).
  apply notified_arith in N as [_ N].
  assert (cnt has_X (threads s) = cnt has_X l) as CX.
  { transitivity (cnt has_X (<[i := t']> l)); [|rewrite (cnt_insert _ _ _ _ _ Hi); lia].
    unfold Q.unlocks in U. destruct (Q.notifyWeUnlocked _ _ _ _) as [l'|] eqn:EN; [|done]. injection U as <-.
    apply cnt_strip; [by intros [| |[] ?]|]. cbn [threads].
    destruct (decide (W_n q' = 0)) as [Z0|NZ].
    - destruct (notify_same pick me q' (<[i := t']> l) Z0) as (l'' & E' & S). congruence.
    - unfold Q.notifyWeUnlocked, Q.fassert in EN. by rewrite (proj2 (Z.eqb_neq _ _) NZ) in EN. }
  assert (Forall (fresh (generationXExit q')) (threads s)) as Fr.
  { eapply woken_fresh; [done|]. apply Forall_insert; [|by destruct t' as [| |[] []]; try (specialize (Ht' Q.cX); discriminate)].
    assert (generationXExit q' = generationXExit q) as -> by (set_unfold; naive_solver). apply V. }
  pose proof (qinv_modes _ _ I) as Mo. pose proof (qinv_facts _ _ I) as [? ? ? ? ? ? _ ? _ ?].
  pose proof (qinv_facts _ _ I') as [? ? ? ? _ _ _ ? _ _].
  destruct V as [Vr Vw VR VW VU VX _].
  assert (∀ c, sl c (threads s) = 1 → sl c l = 1) as Up.
  { intros c S. specialize (F c). clear - F S. pose proof (one_range (existsb (Q.asleep_on c) l)). unfold sl in *. lia. }
  assert (∀ c, aw c l = 1 → aw c (threads s) = 1) as Aw.
  { intros c S. specialize (F c) as (_ & _ & A). cbn [awake_on one] in A. clear - A S.
    pose proof (one_range (existsb (awake_on c) (threads s))). unfold aw in *. lia. }
  assert (sl Q.cU (threads s) = 1 → 0 < U_n q) as SU.
  { intros S%Up. pose proof (sl_aw_U l) as SU. rewrite <- (inv_U _ _ I) in SU. clear - S SU.
    pose proof (one_range (existsb (awake_on Q.cU) l)). unfold aw in *. lia. }
  assert (∀ c, aw c (threads s) ≤ 1) as A1 by (intros c; apply one_range).
  pose proof (A1 Q.cW). pose proof (A1 Q.cU). pose proof (A1 Q.cX). clear F W U Ht' I I' Hi A1 HX1 HX2.
  rewrite !elem_of_cons, elem_of_nil in E.
  split; try exact Fr; intros S;
    [pose proof (Vr (Up _ S)) as V|pose proof (Vw (Up _ S)) as V|pose proof (VR (Up _ S)) as V
    |destruct (VW (Up _ S)) as [V%Aw|V]; [by left|]|destruct (VU (Up _ S)) as [V%Aw|V]; [by left|]
    |destruct (VX (Up _ S)) as [V%Aw|V]; [by left|]];
    clear Vr Vw VR VW VU VX Up Aw Fr;
    destruct E as [E|[E|[E|[E|[E|[]]]]]]; injection E as -> ->; qcbn; cbn [Q.i_block one] in *;
    destruct N as [N|(N1 & N2 & N3 & [N4|(N4 & N5 & N6)])]; destruct Mo as [Mo|[Mo|Mo]]; lia.
Qed.

(** A step in which thread [i] just moves. *)
Lemma sl_up c l i t' : one (Q.asleep_on c t') = 0 → sl c (<[i := t']> l) = 1 → sl c l = 1.
Proof.
  intros E S. pose proof (sl_insert c l i t'). pose proof (one_range (existsb (Q.asleep_on c) l)). unfold sl in *. lia.
Qed.

Lemma aw_up c l i t t' : l !! i = Some t → one (awake_on c t) = 0 → aw c l = 1 → aw c (<[i := t']> l) = 1.
Proof.
  intros Hi E S. pose proof (aw_insert c l i t t' Hi) as [A _].
  pose proof (one_range (existsb (awake_on c) (<[i := t']> l))). unfold aw in *. lia.
Qed.

(** Thread [i] goes to sleep with a reason, and the counters only grew. *)
Lemma sleep_winv q q' l i t k :
  winv q l → l !! i = Some t → (∀ c, c ≠ Q.waits_on k → awake_on c t = false) →
  qfacts q l → r_n q ≤ r_n q' → R_n q ≤ R_n q' → W_n q ≤ W_n q' → X_n q ≤ X_n q' → w_n q ≤ w_n q' →
  numPendingGlobalWrites q ≤ numPendingGlobalWrites q' → generationXExit q' = generationXExit q →
  has_X t = 0 → fresh (generationXExit q) (Waits k false) →
  match Q.waits_on k with
  | Q.cr => 0 < numPendingGlobalWrites q' ∨ 0 < W_n q' + X_n q'
  | Q.cw => 0 < numPendingGlobalWrites q' ∨ 0 < R_n q' + W_n q' + X_n q'
  | Q.cR => 0 < numPendingGlobalWrites q' ∨ 0 < w_n q' + W_n q' + X_n q'
  | Q.cW => 0 < r_n q' + w_n q' + R_n q' + W_n q' + X_n q'
  | Q.cU => 1 < W_n q' + R_n q' + w_n q' + r_n q'
  | Q.cX => 0 < cnt has_X l ∨ 0 < w_n q' + r_n q' + R_n q' + W_n q'
  end →
  winv q' (<[i := Waits k false]> l).
Proof.
  intros V Hi A [] ? ? ? ? ? ? EX HX Fk Hk. destruct V as [Vr Vw VR VW VU VX VF].
  assert (∀ c, c ≠ Q.waits_on k → sl c (<[i := Waits k false]> l) = 1 → sl c l = 1) as Up.
  { intros c N. apply sl_up. cbn [Q.asleep_on]. by rewrite bool_decide_eq_false_2. }
  assert (∀ c, c ≠ Q.waits_on k → aw c l = 1 → aw c (<[i := Waits k false]> l) = 1) as Aw.
  { intros c N. apply (aw_up c l i t); [done|]. by rewrite A. }
  assert (cnt has_X (<[i := Waits k false]> l) = cnt has_X l) as CX by (rewrite (cnt_insert _ _ _ _ _ Hi), HX; cbn; lia).
  split; rewrite ?CX, ?EX; [..|by apply Forall_insert]; intros S; clear Hi A CX EX HX Fk VF.
  - destruct (decide (Q.cr = Q.waits_on k)) as [E|N]; [by rewrite <- E in Hk|]. pose proof (Vr (Up _ N S)). lia.
  - destruct (decide (Q.cw = Q.waits_on k)) as [E|N]; [by rewrite <- E in Hk|]. pose proof (Vw (Up _ N S)). lia.
  - destruct (decide (Q.cR = Q.waits_on k)) as [E|N]; [by rewrite <- E in Hk|]. pose proof (VR (Up _ N S)). lia.
  - destruct (decide (Q.cW = Q.waits_on k)) as [E|N]; [right; by rewrite <- E in Hk|].
    destruct (VW (Up _ N S)) as [?|?]; [left; by apply Aw|lia].
  - destruct (decide (Q.cU = Q.waits_on k)) as [E|N]; [right; by rewrite <- E in Hk|].
    destruct (VU (Up _ N S)) as [?|?]; [left; by apply Aw|lia].
  - destruct (decide (Q.cX = Q.waits_on k)) as [E|N]; [right; by rewrite <- E in Hk|].
    destruct (VX (Up _ N S)) as [?|?]; [left; by apply Aw|lia].
Qed.

(** Thread [i] acquires a mode or leaves: nobody new sleeps. *)
Lemma move_winv q q' l i t t' :
  winv q l → l !! i = Some t → (∀ c, Q.asleep_on c t' = false) → generationXExit q' = generationXExit q →
  (sl Q.cr l = 1 → 0 < numPendingGlobalWrites q ∨ 0 < W_n q + X_n q → 0 < numPendingGlobalWrites q' ∨ 0 < W_n q' + X_n q') →
  (sl Q.cw l = 1 → 0 < numPendingGlobalWrites q ∨ 0 < R_n q + W_n q + X_n q →
     0 < numPendingGlobalWrites q' ∨ 0 < R_n q' + W_n q' + X_n q') →
  (sl Q.cR l = 1 → 0 < numPendingGlobalWrites q ∨ 0 < w_n q + W_n q + X_n q →
     0 < numPendingGlobalWrites q' ∨ 0 < w_n q' + W_n q' + X_n q') →
  (sl Q.cW l = 1 → awake_on Q.cW t = true ∨ 0 < r_n q + w_n q + R_n q + W_n q + X_n q →
     awake_on Q.cW t' = true ∨ 0 < r_n q' + w_n q' + R_n q' + W_n q' + X_n q') →
  (sl Q.cU l = 1 → awake_on Q.cU t = true ∨ 1 < W_n q + R_n q + w_n q + r_n q →
     awake_on Q.cU t' = true ∨ 1 < W_n q' + R_n q' + w_n q' + r_n q') →
  (sl Q.cX l = 1 → awake_on Q.cX t = true ∨ 0 < cnt has_X l ∨ 0 < w_n q + r_n q + R_n q + W_n q →
     awake_on Q.cX t' = true ∨ 0 < cnt has_X (<[i := t']> l) ∨ 0 < w_n q' + r_n q' + R_n q' + W_n q') →
  winv q' (<[i := t']> l).
Proof.
  intros [Vr Vw VR VW VU VX VF] Hi Ht EX Gr Gw GR GW GU GX.
  assert (∀ c, sl c (<[i := t']> l) = 1 → sl c l = 1) as Up by (intros c; apply sl_up; by rewrite Ht).
  assert (∀ c, aw c l = 1 → awake_on c t = true ∨ aw c (<[i := t']> l) = 1) as Aw.
  { intros c Ac. destruct (awake_on c t) eqn:E; [by left|right]. apply (aw_up c l i t); [done|by rewrite E|done]. }
  assert (∀ c, awake_on c t' = true → aw c (<[i := t']> l) = 1) as An.
  { intros c Ac. pose proof (aw_insert c l i t t' Hi) as [_ A]. rewrite Ac in A. cbn [one] in A. clear - A.
    pose proof (one_range (existsb (awake_on c) (<[i := t']> l))). unfold aw in *. lia. }
  split; rewrite ?EX; [| | | | | |apply Forall_insert; [done|by destruct t' as [| |[] []]; try (specialize (Ht Q.cX); discriminate)]];
    intros S%Up; [by auto..| | |].
  - destruct (VW S) as [[A|A]%Aw|A]; [|by left|]; (destruct GW as [?%An|?]; [done|by auto|by left|by right]).
  - destruct (VU S) as [[A|A]%Aw|A]; [|by left|]; (destruct GU as [?%An|?]; [done|by auto|by left|by right]).
  - destruct (VX S) as [[A|A]%Aw|A]; [|by left|]; (destruct GX as [?%An|?]; [done|by auto|by left|by right]).
Qed.

Lemma r_illegal q l : qfacts q l → Q.r_legal q = false → 0 < numPendingGlobalWrites q ∨ 0 < W_n q + X_n q.
Proof. intros [] E. unfold Q.r_legal, Q.pending, Q.r_legal_ignore_greed in E. apply andb_false_iff in E as [E|E]; bool_facts; lia. Qed.
Lemma w_illegal q l : qfacts q l → Q.w_legal q = false → 0 < numPendingGlobalWrites q ∨ 0 < R_n q + W_n q + X_n q.
Proof. intros [] E. unfold Q.w_legal, Q.pending, Q.w_legal_ignore_greed in E. apply andb_false_iff in E as [E|E]; bool_facts; lia. Qed.
Lemma R_illegal q l : qfacts q l → Q.R_legal q = false → 0 < numPendingGlobalWrites q ∨ 0 < w_n q + W_n q + X_n q.
Proof. intros [] E. unfold Q.R_legal, Q.pending, Q.R_legal_ignore_greed in E. apply andb_false_iff in E as [E|E]; bool_facts; lia. Qed.

Ltac qgoal :=
  cbn [r_n w_n R_n W_n U_n X_n numPendingGlobalWrites generationX generationXExit lock threads wgood Q.moves
       Q.set_r Q.set_w Q.set_R Q.set_W Q.set_U Q.set_X Q.set_pending Q.set_gen Q.set_exit].

(** Thread [i] goes to sleep; the reason is left. *)
Ltac wsleep V Hi :=
  apply (sleep_winv _ _ _ _ _ _ V Hi); qgoal; cbn [Q.waits_on has_X fresh]; try done; try lia;
  try (intros ? ?; cbn [awake_on]; try apply bool_decide_eq_false_2; cbn in *; congruence).

(** Thread [i] moves on; the clauses of the conditions that change are left. *)
Ltac wmove V Hi :=
  apply (move_winv _ _ _ _ _ _ V Hi); qgoal; try done; rewrite ?(cnt_insert _ _ _ _ _ Hi);
  cbn [awake_on Q.waits_on has_X]; intros S; try (intros [?%bool_decide_eq_true|?]; [done|]); try done; try lia.

(** A thread overtaken in [w_to_X]. *)
Lemma loop_X_exit_wgood i g k q l :
  qinv q l → winv q l → l !! i = Some (Waits k true) → Q.waits_on k = Q.cX → g ≤ generationXExit q → g < generationX q →
  wgood (Q.loop_X_exit i g q l).
Proof.
  intros I V Hi Hk G1 G2. pose proof (qinv_facts _ _ I) as F. unfold Q.loop_X_exit.
  pose proof (inv_gen _ _ I). destruct (g =? _) eqn:E; bool_facts; qgoal.
  - apply (sleep_winv _ _ _ _ _ _ V Hi); cbn [Q.waits_on has_X fresh]; try done; [|lia].
    intros c N. cbn [awake_on]. apply bool_decide_eq_false_2. rewrite Hk. cbn [Q.waits_on] in N. congruence.
  - unfold Q.fassert. destruct (R_n q =? 0), (0 <? w_n q) eqn:Ew; try done. qgoal. bool_facts.
    pose proof F as [? ? ? ? ? ? _ ? _ ?].
    apply (move_winv _ _ _ _ _ _ V Hi); try done; cbn [awake_on]; rewrite Hk; intros S [?%bool_decide_eq_true|?]; try done; try lia.
Qed.

(** The thread that gets X. *)
Lemma enter_X_wgood pick i g q l :
  qinv q l → winv q l → l !! i = Some (Waits (in_w_to_X g) true) → w_n q + r_n q + R_n q + W_n q = 0 →
  0 < X_n q → (sl Q.cU l = 1 → 0 < U_n q) →
  wgood (Q.unlocks pick mw i (Holds mX) (Q.set_gen (generationX q + 1) q) l).
Proof.
  intros I V Hi L HX SU. destruct (Q.unlocks _ _ _ _ _ _) as [s|] eqn:U; [|done]. cbn [wgood].
  destruct (unlocks_wakes pick mw i _ (Holds mX) _ _ _ Hi (λ _, eq_refl) U) as (-> & _ & W & F).
  pose proof (qinv_facts _ _ I) as [? ? ? ? ? ? _ ? _ ?].
  assert (sl Q.cU (threads s) ≠ 1) as NU.
  { pose proof (F Q.cU) as (_ & F1 & _). pose proof (one_range (existsb (Q.asleep_on Q.cU) l)). unfold sl in *. lia. }
  assert (0 < cnt has_X (threads s)) as CX.
  { pose proof W as W'. unfold woken in W'.
    destruct (Forall2_lookup_l _ _ _ i (Holds mX) W') as (t & Ht & [-> | ->]).
    - apply list_lookup_insert_eq. by eapply lookup_lt_Some.
    - pose proof (cnt_ge has_X _ _ _ ltac:(by_thread) Ht) as C. cbn in C. lia.
    - pose proof (cnt_ge has_X _ _ _ ltac:(by_thread) Ht) as C. cbn in C. lia. }
  split; qgoal; try lia. eapply woken_fresh; [done|]. apply Forall_insert; [apply V|done].
Qed.

Lemma loop_wgood pick e i k q l :
  qinv q l → winv q l → l !! i = Some (Waits k true) → Q.gives_up e k q = false → wgood (Q.loop pick e i k q l).
Proof.
  intros I V Hi Ho. pose proof (qinv_facts _ _ I) as F. pose proof (qinv_modes _ _ I) as Mo.
  assert (sl Q.cU l = 1 → 0 < U_n q) as SU.
  { intros S. pose proof (sl_aw_U l). rewrite (inv_U _ _ I). pose proof (one_range (existsb (awake_on Q.cU) l)). unfold aw in *. lia. }
  pose proof F as [? ? ? ? ? ? _ ? _ ?].
  destruct k as [| | | | | | |g|g]; cbn [Q.loop].
  - destruct (Q.r_legal q) eqn:E; cbn [negb]; qgoal; [wmove V Hi|]. pose proof (r_illegal _ _ F E). wsleep V Hi.
  - destruct (Q.w_legal q) eqn:E; cbn [negb]; qgoal; [wmove V Hi|]. pose proof (w_illegal _ _ F E). wsleep V Hi.
  - destruct (Q.R_legal q) eqn:E; cbn [negb]; qgoal; [wmove V Hi|]. pose proof (R_illegal _ _ F E). wsleep V Hi.
  - destruct (Q.R_legal q) eqn:E; cbn [negb andb]; [qgoal; wmove V Hi|]. pose proof (R_illegal _ _ F E).
    destruct e; cbn [negb]; qgoal; [wmove V Hi|wsleep V Hi].
  - destruct (Q.W_legal q) eqn:E; cbn [negb]; qgoal; unfold Q.W_legal in E; bool_facts; [wmove V Hi|wsleep V Hi].
  - cbn [Q.gives_up] in Ho. change (Q.W_legal (Q.set_pending _ q)) with (Q.W_legal q).
    destruct (Q.W_legal q) eqn:E; cbn [negb andb] in *; unfold Q.W_legal in E; bool_facts.
    + unfold Q.fassert. destruct (_ =? 1) eqn:E1; [|done]. qgoal. wmove V Hi.
    + rewrite Ho. qgoal. cbn [negb]. wsleep V Hi.
  - destruct (1 <? _) eqn:E; bool_facts; qgoal; [wsleep V Hi|].
    unfold Q.fassert. qgoal. destruct (R_n q =? 1) eqn:?, (W_n q =? 0) eqn:?, (U_n q =? 1) eqn:?; try done. qgoal. bool_facts.
    pose proof (sl_aw_U l) as A. rewrite <- (inv_U _ _ I) in A.
    assert (aw Q.cU l = 1) as A1 by (apply one_existsb; exists (Waits in_R_to_W true); split; [by eapply list_elem_of_lookup_2|done]).
    pose proof (inv_one_U _ _ I). wmove V Hi.
  - pose proof (qinv_member _ _ _ _ I Hi) as M. cbn [in_w in_X gen_ok] in M.
    pose proof (inv_gen _ _ I). pose proof (cnt_nonneg has_X l ltac:(by_thread)).
    destruct (g =? generationX q) eqn:Eg; [|rewrite andb_false_r]; bool_facts.
    + destruct (Q.X_legal q) eqn:E; cbn [negb andb]; unfold Q.X_legal in E; bool_facts; [|qgoal; wsleep V Hi].
      unfold Q.fassert. destruct (w_n q =? 0); [|done]. rewrite (proj2 (Z.leb_le (generationXExit q) g)) in M by lia.
      cbn [one] in M. apply (enter_X_wgood _ _ g); try done. lia.
    + apply (loop_X_exit_wgood _ g (in_w_to_X g)); try done; lia.
  - pose proof (qinv_member _ _ _ _ I Hi) as M. cbn [in_w in_X gen_ok] in M.
    apply (loop_X_exit_wgood _ g (in_w_to_X_exit g)); try done; lia.
Qed.

(** Entering a wait loop. *)
Lemma enter_wgood pick e i k t q' l :
  l !! i = Some t → qinv q' (<[i := Waits k true]> l) → winv q' (<[i := Waits k true]> l) → Q.gives_up e k q' = false →
  wgood (Q.loop pick e i k q' l).
Proof.
  intros Hi I V G. rewrite <- (loop_insert _ _ _ _ (Waits k true)). apply loop_wgood; try done.
  apply list_lookup_insert_eq. by eapply lookup_lt_Some.
Qed.

Lemma exit_X_wgood pick i q l :
  qinv q l → winv q l → l !! i = Some (Holds mX) → W_n q = 0 → R_n q = 0 → 0 < X_n q →
  wgood (Q.unlocks pick mX i (Holds mw) (Q.set_exit (generationXExit q + 1) (Q.set_X 0 (Q.set_w (X_n q) q))) l).
Proof.
  intros I V Hi HW HR HX. pose proof (qinv_facts _ _ I) as [? ? ? ? ? ? _ ? _ ?].
  destruct (Q.unlocks _ _ _ _ _ _) as [s|] eqn:U; [|done]. cbn [wgood].
  destruct (unlocks_wakes pick mX i _ (Holds mw) _ _ _ Hi (λ _, eq_refl) U) as (-> & N & W & F).
  apply notified_arith in N as [NX N]. specialize (NX eq_refl). cbn [Q.i_block one] in N.
  assert (sl Q.cU (threads s) ≠ 1) as NU.
  { pose proof (F Q.cU) as (_ & F1 & _). pose proof (sl_aw_U l) as SU. rewrite <- (inv_U _ _ I) in SU.
    pose proof (one_range (existsb (awake_on Q.cU) l)). clear - F1 SU H HR nn_U0 le_UR0. unfold sl, aw in *. lia. }
  clear F W U. split; qcbn; [..|by apply sl_fresh]; lia.
Qed.

(** Entering a loop with counters that only grew. *)
Lemma enter_winv q q' l i t k :
  winv q l → l !! i = Some t → (∀ c, awake_on c t = false) → has_X t = 0 →
  r_n q' = r_n q → w_n q' = w_n q → R_n q' = R_n q → W_n q' = W_n q → X_n q' = X_n q →
  numPendingGlobalWrites q ≤ numPendingGlobalWrites q' → generationXExit q' = generationXExit q →
  winv q' (<[i := Waits k true]> l).
Proof.
  intros V Hi A HX Er Ew ER EW EX EP EE.
  apply (move_winv _ _ _ _ _ _ V Hi); try done; rewrite ?(cnt_insert _ _ _ _ _ Hi), ?HX, ?A, ?Er, ?Ew, ?ER, ?EW, ?EX;
    cbn [has_X]; intros S; try (intros [?|?]; [discriminate|]); rewrite ?Z.sub_0_r, ?Z.add_0_r; auto; lia.
Qed.

Lemma call_wgood pick e i o t q l :
  qinv q l → winv q l → l !! i = Some t → Q.may_call o t = true → (o = Q.R_to_W → U_n q = 0) →
  match o with Q.lock_W_try => negb (Q.W_legal q) && e | _ => false end = false →
  wgood (Q.call pick e i o q l).
Proof.
  intros I V Hi Ho HU G. pose proof (qinv_facts _ _ I) as []. pose proof (qinv_member _ _ _ _ I Hi) as M.
  assert (sl Q.cU l = 1 → 0 < U_n q) as SU.
  { intros S. pose proof (sl_aw_U l). rewrite (inv_U _ _ I). pose proof (one_range (existsb (awake_on Q.cU) l)). unfold aw in *. lia. }
  pose proof I as []. destruct o, t as [|[]|]; try discriminate Ho;
    cbn [in_r in_w in_R in_W in_U in_X has_X in_pending gen_ok] in M; cbn [Q.call];
    try (by (apply (enter_wgood _ _ _ _ _ _ _ Hi); [qmove Hi|apply (enter_winv q _ _ _ _ _ V Hi); qgoal; done || lia|])).
  1-5: unfold Q.fassert.
  - destruct (0 <? r_n q); [|done]. eapply (unlocks_wgood _ _ _ _ _ q); try done; [qmove Hi|set_solver].
  - destruct (0 <? w_n q); [|done]. eapply (unlocks_wgood _ _ _ _ _ q); try done; [qmove Hi|set_solver].
  - destruct (0 <? R_n q); [|done]. eapply (unlocks_wgood _ _ _ _ _ q); try done; [qmove Hi|set_solver].
  - destruct (W_n q =? 1); [|done]. eapply (unlocks_wgood _ _ _ _ _ q); try done; [qmove Hi|set_solver].
  - destruct (W_n q =? 1), (R_n q =? 0), (U_n q =? 0); try done.
    eapply (unlocks_wgood _ _ _ _ _ q); try done; [qmove Hi|set_solver].
  - specialize (HU eq_refl). unfold Q.fassert. destruct (0 <? R_n q), (W_n q =? 0), (U_n q =? 0); try done.
    apply (enter_wgood _ _ _ _ _ _ _ Hi); [qmove Hi|apply (enter_winv q _ _ _ _ _ V Hi); qgoal; done || lia|done].
  - unfold Q.fassert. destruct (0 <? w_n q); [|done]. cbn [Q.set_w Q.set_X generationX].
    assert (one (generationX q <? generationXExit q) = 0 ∧ one (generationXExit q <=? generationX q) = 1) as [O1 O2]
      by (rewrite (proj2 (Z.ltb_ge _ _)), (proj2 (Z.leb_le _ _)) by lia; done).
    apply (enter_wgood _ _ _ _ _ _ _ Hi); [qmove Hi; rewrite ?O1, ?O2; lia| |done].
    apply (move_winv _ _ _ _ _ _ V Hi); qgoal; try done; intros S; try (intros [?|?]; [discriminate|]); try (by left); lia.
  - unfold Q.fassert. destruct (W_n q =? 0) eqn:?, (R_n q =? 0) eqn:?, (w_n q =? 0), (0 <? X_n q) eqn:?; try done.
    bool_facts. by apply exit_X_wgood.
Qed.

Lemma sl_replicate c n : sl c (replicate n Idle) = 0.
Proof. unfold sl. by induction n as [|n IH]. Qed.

Lemma reachable_winv n s : Q.reachable false n s → winv (lock s) (threads s).
Proof.
  induction 1 as [|s s' b R IH Hs Hb].
  - split; cbn [lock threads]; rewrite ?sl_replicate; try done. by apply Forall_replicate.
  - apply reachable_inv in R as I.
    destruct Hs as [pick e i o t q l s Hi Ho Hc|pick e i k q l s Hi Hl|i k q l Hi]; cbn [lock threads] in *.
    + destruct (decide (o = Q.R_to_W ∧ U_n q ≠ 0)) as [[-> HU]|N].
      { cbn [Q.call] in Hc. unfold Q.fassert in Hc. rewrite (proj2 (Z.eqb_neq (U_n q) 0)) in Hc by done.
        destruct (0 <? R_n q), (W_n q =? 0); discriminate Hc. }
      assert (wgood (Q.call pick e i o q l)) as G; [|by rewrite Hc in G].
      apply (call_wgood _ _ _ _ t); try done; [intros ->; destruct (decide (U_n q = 0)); [done|]; by destruct N|].
      destruct (match o with Q.lock_W_try => _ | _ => _ end); [|done]. by specialize (Hb eq_refl).
    + assert (Q.gives_up e k q = false) as G by (destruct (Q.gives_up e k q); [by specialize (Hb eq_refl)|done]).
      pose proof (loop_wgood pick e i k q l I IH Hi G) as W. by rewrite Hl in W.
    + eapply (move_winv _ _ _ _ _ _ IH Hi); try done; cbn [awake_on]; intros S; try (intros [?|?]; [discriminate|]); auto.
      rewrite (cnt_insert _ _ _ _ _ Hi). cbn [has_X]. right. lia.
Qed.

(** ** No lost wakeups *)

Definition at_rest (t : thread) : bool := match t with Idle | Waits _ false => true | _ => false end.

Lemma cnt_rest f l : Forall (λ t, f t = 0) l → cnt f l = 0.
Proof. induction 1 as [|t l E _ IH]; [done|]. cbn [cnt]. lia. Qed.

Lemma aw_rest c l : Forall (λ t, at_rest t = true) l → aw c l = 0.
Proof. unfold aw. induction 1 as [|t l E _ IH]; [done|]. cbn [existsb]. by destruct t as [| |? []]. Qed.

Lemma sl_none c l t k : sl c l = 0 → t ∈ l → t = Waits k false → Q.waits_on k ≠ c.
Proof.
  intros S Ht -> E. assert (sl c l = 1); [|lia]. apply one_existsb. eexists. split; [done|].
  cbn [Q.asleep_on]. by rewrite bool_decide_eq_true_2.
Qed.

Lemma sl_cases c l : sl c l = 0 ∨ sl c l = 1.
Proof. unfold sl. destruct (existsb _ _); auto. Qed.

(** Of threads at rest, those that wait on [c] alone count in [f]. *)
Lemma rest_count f c l :
  Forall (λ t, at_rest t = true) l → (f Idle = 0) → (∀ k, Q.waits_on k ≠ c → f (Waits k false) = 0) → sl c l = 0 → cnt f l = 0.
Proof.
  intros R H1 H2 S. apply cnt_rest, Forall_forall. intros t Ht. rewrite Forall_forall in R. specialize (R t Ht).
  destruct t as [| |k []]; try discriminate R; [done|]. apply H2. by eapply sl_none.
Qed.

(** C27: unless a [lock_W_try] has timed out, no wakeup is lost: when no thread holds the lock
    and none is on its way, every thread is idle, none is left asleep. *)
Theorem qlock_no_lost_wakeup n s :
  Q.reachable false n s → Forall (λ t, at_rest t = true) (threads s) → Forall (λ t, t = Idle) (threads s).
Proof.
  intros R H. pose proof (reachable_inv _ _ _ R) as I. destruct (reachable_winv _ _ R) as [Vr Vw VR VW VU VX VF].
  pose proof (λ c, aw_rest c _ H) as A. pose proof (λ f, cnt_rest f (threads s)) as C.
  assert (r_n (lock s) = 0) as Er.
  { rewrite (inv_r _ _ I). apply C. eapply Forall_impl; [exact H|]. intros [|m|k [|]] Ht; try discriminate Ht; by try destruct k. }
  assert (W_n (lock s) = 0) as EW.
  { rewrite (inv_W _ _ I). apply C. eapply Forall_impl; [exact H|]. intros [|m|k [|]] Ht; try discriminate Ht; by try destruct k. }
  assert (cnt has_X (threads s) = 0) as EhX.
  { apply C. eapply Forall_impl; [exact H|]. intros [|m|k [|]] Ht; try discriminate Ht; by try destruct k. }
  assert (w_n (lock s) = 0) as Ew.
  { rewrite (inv_w _ _ I). apply C, Forall_forall. intros t Ht. rewrite Forall_forall in VF, H.
    specialize (VF t Ht). specialize (H t Ht). destruct t as [|[]|[] []]; try done; cbn [fresh in_w] in *;
      rewrite (proj2 (Z.ltb_ge _ _)) by lia; done. }
  assert (R_n (lock s) = U_n (lock s)) as ER.
  { rewrite (inv_R _ _ I), (inv_U _ _ I). apply cnt_ext. intros t Ht. rewrite Forall_forall in H.
    specialize (H t Ht). by destruct t as [|[]|[] []]. }
  assert (sl Q.cU (threads s) = 0) as SU.
  { destruct (sl_cases Q.cU (threads s)) as [?|S]; [done|]. pose proof (A Q.cU). pose proof (inv_one_U _ _ I). specialize (VU S). lia. }
  assert (U_n (lock s) = 0) as EU by (rewrite (inv_U _ _ I); apply (rest_count _ Q.cU); try done; by intros []).
  assert (sl Q.cX (threads s) = 0) as SX.
  { destruct (sl_cases Q.cX (threads s)) as [?|S]; [done|]. pose proof (A Q.cX). specialize (VX S). lia. }
  assert (X_n (lock s) = 0) as EX by (rewrite (inv_X _ _ I); apply (rest_count _ Q.cX); try done; by intros []).
  assert (sl Q.cW (threads s) = 0) as SW.
  { destruct (sl_cases Q.cW (threads s)) as [?|S]; [done|]. pose proof (A Q.cW). specialize (VW S). lia. }
  assert (numPendingGlobalWrites (lock s) = 0) as EP.
  { rewrite (inv_pending _ _ I). apply C, Forall_forall. intros t Ht. rewrite Forall_forall in H. specialize (H t Ht).
    destruct t as [|[]|k []]; try done. pose proof (sl_none _ _ _ k SW Ht eq_refl). pose proof (sl_none _ _ _ k SU Ht eq_refl).
    by destruct k. }
  apply Forall_forall. intros t Ht. rewrite Forall_forall in H. specialize (H t Ht).
  destruct t as [| |k []]; try done. exfalso.
  assert (sl Q.cr (threads s) = 0 ∧ sl Q.cw (threads s) = 0 ∧ sl Q.cR (threads s) = 0) as (Sr & Sw & SR).
  { clear VW VU VX.
    split_and!; [destruct (sl_cases Q.cr (threads s)) as [?|S]|destruct (sl_cases Q.cw (threads s)) as [?|S]
      |destruct (sl_cases Q.cR (threads s)) as [?|S]]; try done;
      [specialize (Vr S)|specialize (Vw S)|specialize (VR S)]; clear - Vr Vw VR Ew EW ER EX EU EP; lia. }
  pose proof (λ c S, sl_none c _ _ k S Ht eq_refl) as N. destruct k;
    [by apply (N _ Sr)|by apply (N _ Sw)|by apply (N _ SR)|by apply (N _ SR)|by apply (N _ SW)|by apply (N _ SW)
    |by apply (N _ SU)|by apply (N _ SX)|by apply (N _ SX)].
Qed.

(** ** Runs *)

Module QLockExample.

Definition pick0 : Q.cond → nat := λ _, 0%nat.

Definition q_readers : system := mkSystem (mkQLock 2 0 0 0 0 0 0 0 0) [Holds mr; Holds mr; Idle].

Lemma q_readers_reachable : Q.reachable false 3 q_readers.
Proof.
  eapply (Q.reach_step _ _ (mkSystem (mkQLock 1 0 0 0 0 0 0 0 0) [Holds mr; Idle; Idle]) _ false); [|by eapply (Q.step_call pick0 false 1%nat Q.lock_r)|done].
  eapply (Q.reach_step _ _ _ _ false); [apply Q.reach_init|by eapply (Q.step_call pick0 false 0%nat Q.lock_r)|done].
Qed.

Lemma qlock_exclusion_witness : compatible mr mr = true.
Proof. apply (qlock_exclusion false 3 q_readers 0 1 mr mr q_readers_reachable); done. Defined.

(** Two threads hold the lock for global reading and the first waits for the upgrade. *)
Definition q_upgrade : system :=
  mkSystem (mkQLock 0 0 2 0 1 0 1 0 0) [Waits in_R_to_W false; Holds mR; Idle].

Lemma q_upgrade_reachable : Q.reachable false 3 q_upgrade.
Proof.
  eapply (Q.reach_step _ _ (mkSystem (mkQLock 0 0 2 0 0 0 0 0 0) [Holds mR; Holds mR; Idle]) _ false); [|by eapply (Q.step_call pick0 false 0%nat Q.R_to_W)|done].
  eapply (Q.reach_step _ _ (mkSystem (mkQLock 0 0 1 0 0 0 0 0 0) [Holds mR; Idle; Idle]) _ false); [|by eapply (Q.step_call pick0 false 1%nat Q.lock_R)|done].
  eapply (Q.reach_step _ _ _ _ false); [apply Q.reach_init|by eapply (Q.step_call pick0 false 0%nat Q.lock_R)|done].
Qed.

Lemma qlock_fasserts_witness :
  Q.call pick0 false 1 Q.R_to_W (lock q_upgrade) (threads q_upgrade) = Err 16208 ∧ U_n (lock q_upgrade) = 1.
Proof.
  split; [done|].
  apply (proj1 (qlock_fasserts false 3 q_upgrade pick0 false 1 (Holds mR) q_upgrade_reachable eq_refl) Q.R_to_W 16208); done.
Defined.

(** The first thread writes and goes exclusive; the second falls asleep on its read, is woken when the
    first leaves X, and reads; both unlock. *)
Definition q_done : system := mkSystem (mkQLock 0 0 0 0 0 0 0 1 1) [Idle; Idle; Idle].

Lemma q_done_reachable : Q.reachable false 3 q_done.
Proof.
  eapply (Q.reach_step _ _ (mkSystem (mkQLock 0 1 0 0 0 0 0 1 1) [Holds mw; Idle; Idle]) _ false); [|by eapply (Q.step_call pick0 false 0%nat Q.unlock_w)|done].
  eapply (Q.reach_step _ _ (mkSystem (mkQLock 1 1 0 0 0 0 0 1 1) [Holds mw; Holds mr; Idle]) _ false); [|by eapply (Q.step_call pick0 false 1%nat Q.unlock_r)|done].
  eapply (Q.reach_step _ _ (mkSystem (mkQLock 0 1 0 0 0 0 0 1 1) [Holds mw; Waits in_lock_r true; Idle]) _ false);
    [|by apply (Q.step_run pick0 false 1%nat in_lock_r (mkQLock 0 1 0 0 0 0 0 1 1) [Holds mw; Waits in_lock_r true; Idle])|done].
  eapply (Q.reach_step _ _ (mkSystem (mkQLock 0 0 0 0 0 1 0 1 0) [Holds mX; Waits in_lock_r false; Idle]) _ false); [|by eapply (Q.step_call pick0 false 0%nat Q.X_to_w)|done].
  eapply (Q.reach_step _ _ (mkSystem (mkQLock 0 0 0 0 0 1 0 1 0) [Holds mX; Idle; Idle]) _ false); [|by eapply (Q.step_call pick0 false 1%nat Q.lock_r)|done].
  eapply (Q.reach_step _ _ (mkSystem (mkQLock 0 1 0 0 0 0 0 0 0) [Holds mw; Idle; Idle]) _ false); [|by eapply (Q.step_call pick0 false 0%nat Q.w_to_X)|done].
  eapply (Q.reach_step _ _ _ _ false); [apply Q.reach_init|by eapply (Q.step_call pick0 false 0%nat Q.lock_w)|done].
Qed.

Lemma qlock_no_lost_wakeup_witness : generationX (lock q_done) = 1 ∧ Forall (λ t, t = Idle) (threads q_done).
Proof. split; [reflexivity|]. apply (qlock_no_lost_wakeup 3 q_done q_done_reachable). by repeat constructor. Defined.

End QLockExample.

(** A [lock_W_try] that gives up does not notify: a reader that queued behind it stays asleep
    although the lock is free, nobody holds it and no writer is pending. *)
Theorem qlock_timeout_strands :
  ∃ s, Q.reachable true 3 s ∧ threads s = [Idle; Idle; Waits in_lock_r false] ∧
    Q.r_legal (lock s) = true ∧ Q.W_legal (lock s) = true.
Proof.
  set (pick := QLockExample.pick0).
  exists (mkSystem Q.init [Idle; Idle; Waits in_lock_r false]). split; [|done].
  eapply (Q.reach_step _ _ (mkSystem (mkQLock 1 0 0 0 0 0 0 0 0) [Holds mr; Idle; Waits in_lock_r false]) _ false);
    [|by eapply (Q.step_call pick false 0%nat Q.unlock_r)|done].
  eapply (Q.reach_step _ _ (mkSystem (mkQLock 1 0 0 0 0 0 1 0 0) [Holds mr; Waits in_lock_W_try true; Waits in_lock_r false]) _ true);
    [|by apply (Q.step_run pick true 1%nat in_lock_W_try (mkQLock 1 0 0 0 0 0 1 0 0)
         [Holds mr; Waits in_lock_W_try true; Waits in_lock_r false])|done].
  eapply (Q.reach_step _ _ (mkSystem (mkQLock 1 0 0 0 0 0 1 0 0) [Holds mr; Waits in_lock_W_try false; Waits in_lock_r false]) _ false);
    [|by apply (Q.step_wake 1%nat in_lock_W_try)|done].
  eapply (Q.reach_step _ _ (mkSystem (mkQLock 1 0 0 0 0 0 1 0 0) [Holds mr; Waits in_lock_W_try false; Idle]) _ false);
    [|by eapply (Q.step_call pick false 2%nat Q.lock_r)|done].
  eapply (Q.reach_step _ _ (mkSystem (mkQLock 1 0 0 0 0 0 0 0 0) [Holds mr; Idle; Idle]) _ false);
    [|by apply (Q.step_call pick false 1%nat Q.lock_W_try Idle (mkQLock 1 0 0 0 0 0 0 0 0) [Holds mr; Idle; Idle])|done].
  eapply (Q.reach_step _ _ _ _ false); [apply Q.reach_init|by eapply (Q.step_call pick false 0%nat Q.lock_r)|done].
Qed.
