(* ===== verification/ParseNumber.v ===== *)
(** * Parsing of numbers

    Models base/parse_number.cpp: [parseNumberFromStringWithBase] for an integer type of [w] bits,
    signed or not, with the conversions and the promotion to [int] that the C++ arithmetic goes
    through written out.  Strings are lists of bytes.

    The numerals and their values are given by a grammar: the digits of a base by their place in the
    two alphabets, a number by its digits, and the prefixes and signs of strtol.  The theorem: for
    every type, base and string the function accepts exactly the numerals whose value fits the type,
    and returns that value; the checks against overflow are themselves free of overflow, at the
    limits of the type included. *)

From S2P Require Import Prelude.
#[local] Open Scope Z_scope.

Inductive parse_error := BadValue | FailedToParse.

Section ParseNumber.

(** The integer type: width and signedness. *)
Context (w : Z) (is_signed : bool).

Definition limits_min : Z := if is_signed then - 2 ^ (w - 1) else 0.
Definition limits_max : Z := if is_signed then 2 ^ (w - 1) - 1 else 2 ^ w - 1.

(** [NumberType(x)] *)
Definition NumberType (x : Z) : Z := if is_signed then wrapS w x else wrapU w x.

(** The result of an arithmetic operation: of type [int] for types narrower than [int]. *)
Definition promote (x : Z) : Z := if w <? 32 then wrapS 32 x else NumberType x.

Definition _digitValue (c : Z) : Z :=
  if (48 <=? c) && (c <=? 57) then c - 48
  else if (97 <=? c) && (c <=? 122) then c - 97 + 10
  else if (65 <=? c) && (c <=? 90) then c - 65 + 10
  else 36.

(** The rest of the string, and whether it is negative. *)
Definition _extractSign (s : list Z) : list Z * bool :=
  match s with
  | [] => (s, false)
  | c :: r => if c =? 45 then (r, true) else if c =? 43 then (r, false) else (s, false)
  end.

Definition has_hex_prefix (s : list Z) : bool :=
  match s with c :: d :: _ => (c =? 48) && ((d =? 120) || (d =? 88)) | _ => false end.

(** The digits, and the base to use. *)
Definition _extractBase (s : list Z) (inputBase : Z) : list Z * Z :=
  if inputBase =? 0 then
    if (2 <? length s)%nat && has_hex_prefix s then (drop 2 s, 16)
    else if (1 <? length s)%nat && match s with c :: _ => c =? 48 | [] => false end then (s, 8)
    else (s, 10)
  else if (inputBase =? 16) && has_hex_prefix s then (drop 2 s, inputBase)
  else (s, inputBase).

(** The loop for negative numbers; division truncates towards zero. *)
Fixpoint parse_neg (base : Z) (str : list Z) (n : Z) : result parse_error Z :=
  match str with
  | [] => Ok n
  | c :: str' =>
      let digitValue := NumberType (_digitValue c) in
      if base <=? digitValue then Err FailedToParse
      else if (n <? NumberType (promote (Z.quot limits_min base)))
           || (promote (- digitValue) <? promote (limits_min - NumberType (promote (n * base))))
      then Err FailedToParse
      else parse_neg base str' (NumberType (promote (NumberType (promote (n * NumberType base)) - NumberType digitValue)))
  end.

Fixpoint parse_pos (base : Z) (str : list Z) (n : Z) : result parse_error Z :=
  match str with
  | [] => Ok n
  | c :: str' =>
      let digitValue := NumberType (_digitValue c) in
      if base <=? digitValue then Err FailedToParse
      else if (NumberType (promote (Z.quot limits_max base)) <? n)
           || (NumberType (promote (limits_max - promote (n * base))) <? digitValue)
      then Err FailedToParse
      else parse_pos base str' (NumberType (promote (NumberType (promote (n * NumberType base)) + NumberType digitValue)))
  end.

Definition parseNumberFromStringWithBase (stringValue : list Z) (base : Z) : result parse_error Z :=
  if (base =? 1) || (base <? 0) || (36 <? base) then Err BadValue
  else
    let '(s, isNegative) := _extractSign stringValue in
    let '(str, base) := _extractBase s base in
    match str with
    | [] => Err FailedToParse
    | _ =>
        if (isNegative : bool) then
          if is_signed then parse_neg base str 0 else Err FailedToParse
        else parse_pos base str 0
    end.

Definition parseNumberFromString (stringValue : list Z) : result parse_error Z :=
  parseNumberFromStringWithBase stringValue 0.

(** ** Numerals *)

(** The digits: their place in the alphabets is their value. *)
Definition lower_digits : list Z := bytes "0123456789abcdefghijklmnopqrstuvwxyz".
Definition upper_digits : list Z := bytes "0123456789ABCDEFGHIJKLMNOPQRSTUVWXYZ".
Definition digit (c d : Z) : Prop :=
  0 <= d ∧ (lower_digits !! Z.to_nat d = Some c ∨ upper_digits !! Z.to_nat d = Some c).

(** A number in base [b]: one or more digits, the last one of weight one. *)
Inductive digits (b : Z) : list Z → Z → Prop :=
  | digits_one c d : digit c d → d < b → digits b [c] d
  | digits_snoc s v c d : digits b s v → digit c d → d < b → digits b (s ++ [c]) (v * b + d).

(** Base 16 allows a prefix 0x; base 0 takes hexadecimal and octal numbers by their prefixes, and others
    as decimal. *)
Inductive magnitude : Z → list Z → Z → Prop :=
  | mag_plain b s v : 2 <= b <= 36 → digits b s v → magnitude b s v
  | mag_hex b prefix s v : b = 0 ∨ b = 16 → prefix = bytes "0x" ∨ prefix = bytes "0X" → digits 16 s v → magnitude b (prefix ++ s) v
  | mag_octal s v : digits 8 s v → magnitude 0 (bytes "0" ++ s) v
  | mag_decimal s v : digits 10 s v → s = bytes "0" ∨ head s ≠ head (bytes "0") → magnitude 0 s v.

(** A type without sign has no negative numerals, not even -0. *)
Inductive numeral (b : Z) : list Z → Z → Prop :=
  | num_unsigned s v : magnitude b s v → numeral b s v
  | num_plus s v : magnitude b s v → numeral b (bytes "+" ++ s) v
  | num_minus s v : is_signed = true → magnitude b s v → numeral b (bytes "-" ++ s) (- v).

Definition legal_base (base : Z) : Prop := base = 0 ∨ 2 <= base <= 36.

(** ** The value of a numeral, computed *)

Definition digits_ok (base : Z) (str : list Z) : bool := forallb (λ c, _digitValue c <? base) str.

(** Each digit by its weight. *)
Fixpoint digits_value (base : Z) (str : list Z) : Z :=
  match str with
  | [] => 0
  | c :: str' => _digitValue c * base ^ Z.of_nat (length str') + digits_value base str'
  end.

Definition in_limits (v : Z) : bool := (limits_min <=? v) && (v <=? limits_max).

Definition numeral_value (stringValue : list Z) (base : Z) : option Z :=
  let '(s, isNegative) := _extractSign stringValue in
  let '(str, base) := _extractBase s base in
  if negb (bool_decide (str = [])) && digits_ok base str && negb (isNegative && negb is_signed)
  then Some (if isNegative then - digits_value base str else digits_value base str)
  else None.

(** ** Proofs *)

Hypothesis w_cases : w = 8 ∨ w = 16 ∨ w = 32 ∨ w = 64.

Lemma digitValue_range c : 0 <= _digitValue c <= 36.
Proof. unfold _digitValue. crush_cmp. Qed.

Lemma NumberType_id x : limits_min <= x <= limits_max → NumberType x = x.
Proof.
  unfold NumberType, limits_min, limits_max. destruct is_signed; intros H.
  - apply wrapS_id; [lia|]. unfold in_s. lia.
  - apply wrapU_id. unfold in_u. lia.
Qed.

Lemma limits_bounds : limits_min <= 0 ∧ 127 <= limits_max ∧ limits_max < 2 ^ 64 ∧ - 2 ^ 63 <= limits_min ∧
  (w < 32 → limits_max < 2 ^ 16 ∧ - 2 ^ 15 <= limits_min) ∧ (is_signed = true → limits_min = - limits_max - 1).
Proof.
  unfold limits_min, limits_max. destruct w_cases as [->|[->|[->| ->]]], is_signed; cbn; lia.
Qed.

Lemma promote_id x :
  limits_min <= x <= limits_max ∨ w < 32 ∧ - 2 ^ 31 <= x < 2 ^ 31 → promote x = x.
Proof.
  intros H. unfold promote. pose proof limits_bounds as (? & ? & ? & ? & B & _). destruct (w <? 32) eqn:E; bool_facts.
  - apply wrapS_id; [lia|]. unfold in_s. change (2 ^ (32 - 1)) with (2 ^ 31). specialize (B E).
    assert (2 ^ 16 < 2 ^ 31) by (cbn; lia). assert (2 ^ 15 < 2 ^ 31) by (cbn; lia). lia.
  - apply NumberType_id. lia.
Qed.

Lemma digits_value_nonneg base str : 0 <= base → 0 <= digits_value base str.
Proof.
  intros B. induction str as [|c str IH]; cbn [digits_value]; [lia|]. pose proof (digitValue_range c).
  assert (0 <= base ^ Z.of_nat (length str)) by (apply Z.pow_nonneg; lia). nia.
Qed.

Lemma pow_pos base n : 2 <= base → 1 <= base ^ Z.of_nat n.
Proof. intros B. assert (0 < base ^ Z.of_nat n) by (apply Z.pow_pos_nonneg; lia). lia. Qed.

(** One digit: the checks of the loops are exact. *)
Lemma pos_check base n d :
  2 <= base <= 36 → 0 <= n <= limits_max → 0 <= d < base →
  ((NumberType (promote (Z.quot limits_max base)) <? n)
   || (NumberType (promote (limits_max - promote (n * base))) <? d)) = (limits_max <? n * base + d).
Proof.
  intros B N D. pose proof limits_bounds as (? & ? & _).
  assert (0 <= limits_max / base <= limits_max) as Q by (split; [apply Z.div_pos; lia|apply Z.div_le_upper_bound; nia]).
  rewrite Z.quot_div_nonneg, promote_id, NumberType_id by lia.
  pose proof (Z.mul_div_le limits_max base ltac:(lia)). pose proof (Z.mul_succ_div_gt limits_max base ltac:(lia)).
  destruct (limits_max / base <? n) eqn:E; bool_facts; cbn [orb].
  - symmetry. apply Z.ltb_lt. nia.
  - assert (0 <= n * base <= limits_max) by nia. rewrite (promote_id (n * base)), promote_id, NumberType_id by lia.
    apply eq_true_iff_eq. rewrite !Z.ltb_lt. lia.
Qed.

Lemma neg_check base n d :
  is_signed = true → 2 <= base <= 36 → 0 <= n <= - limits_min → 0 <= d < base →
  ((- n <? NumberType (promote (Z.quot limits_min base)))
   || (promote (- d) <? promote (limits_min - NumberType (promote (- n * base))))) = (- limits_min <? n * base + d).
Proof.
  intros Sg B N D. pose proof limits_bounds as (? & ? & _ & _ & _ & L). specialize (L Sg).
  assert (Z.quot limits_min base = - (- limits_min / base)) as ->.
  { rewrite <- (Z.opp_involutive limits_min) at 1. rewrite Z.quot_opp_l, Z.quot_div_nonneg by lia. lia. }
  assert (0 <= - limits_min / base <= - limits_min) as Q by (split; [apply Z.div_pos; lia|apply Z.div_le_upper_bound; nia]).
  rewrite promote_id, NumberType_id by lia.
  pose proof (Z.mul_div_le (- limits_min) base ltac:(lia)). pose proof (Z.mul_succ_div_gt (- limits_min) base ltac:(lia)).
  destruct (- n <? - (- limits_min / base)) eqn:E; bool_facts; cbn [orb].
  - symmetry. apply Z.ltb_lt. nia.
  - assert (0 <= n * base <= - limits_min) by nia. replace (- n * base) with (- (n * base)) by lia.
    rewrite (promote_id (- (n * base))), NumberType_id, !promote_id by lia.
    apply eq_true_iff_eq. rewrite !Z.ltb_lt. lia.
Qed.

(** The digits from a number on. *)
Lemma value_step base n c str :
  n * base ^ Z.of_nat (length (c :: str)) + digits_value base (c :: str) =
  (n * base + _digitValue c) * base ^ Z.of_nat (length str) + digits_value base str.
Proof.
  cbn [digits_value length]. rewrite Nat2Z.inj_succ, Z.pow_succ_r by lia. ring.
Qed.

Lemma value_ge base m str : 2 <= base → 0 <= m → m <= m * base ^ Z.of_nat (length str) + digits_value base str.
Proof. intros B M. pose proof (pow_pos base (length str) B). pose proof (digits_value_nonneg base str ltac:(lia)). nia. Qed.

Lemma parse_pos_spec base str n :
  2 <= base <= 36 → 0 <= n <= limits_max →
  parse_pos base str n =
  (let v := n * base ^ Z.of_nat (length str) + digits_value base str in
   if digits_ok base str && (v <=? limits_max) then Ok v else Err FailedToParse).
Proof.
  intros B. revert n. induction str as [|c str IH]; intros n N; cbn [parse_pos].
  - cbn. rewrite Z.mul_1_r, Z.add_0_r, (proj2 (Z.leb_le n _)) by lia. done.
  - pose proof (digitValue_range c) as D. pose proof limits_bounds as (? & ? & _). cbv zeta.
    rewrite value_step. cbn [digits_ok forallb]. rewrite !(NumberType_id (_digitValue c)), (NumberType_id base) by lia.
    destruct (_digitValue c <? base) eqn:E; bool_facts.
    + rewrite (proj2 (Z.leb_gt base _)) by lia. rewrite pos_check by lia. cbn [andb].
      pose proof (value_ge base (n * base + _digitValue c) str ltac:(lia) ltac:(nia)).
      destruct (limits_max <? _) eqn:E'; bool_facts.
      * rewrite (proj2 (Z.leb_gt _ limits_max)) by lia. by rewrite andb_false_r.
      * assert (0 <= n * base <= limits_max) by nia. rewrite (promote_id (n * base)), (NumberType_id (n * base)) by lia.
        rewrite promote_id, NumberType_id by lia. rewrite IH by lia. done.
    + rewrite (proj2 (Z.leb_le base _)) by lia. done.
Qed.

Lemma parse_neg_spec base str n :
  is_signed = true → 2 <= base <= 36 → 0 <= n <= - limits_min →
  parse_neg base str (- n) =
  (let v := n * base ^ Z.of_nat (length str) + digits_value base str in
   if digits_ok base str && (v <=? - limits_min) then Ok (- v) else Err FailedToParse).
Proof.
  intros Sg B. revert n. induction str as [|c str IH]; intros n N; cbn [parse_neg].
  - cbn. rewrite Z.mul_1_r, Z.add_0_r, (proj2 (Z.leb_le n _)) by lia. done.
  - pose proof (digitValue_range c) as D. pose proof limits_bounds as (? & ? & _ & _ & _ & L). specialize (L Sg). cbv zeta.
    rewrite value_step. cbn [digits_ok forallb]. rewrite !(NumberType_id (_digitValue c)), (NumberType_id base) by lia.
    destruct (_digitValue c <? base) eqn:E; bool_facts.
    + rewrite (proj2 (Z.leb_gt base _)) by lia. rewrite neg_check by (done || lia). cbn [andb].
      pose proof (value_ge base (n * base + _digitValue c) str ltac:(lia) ltac:(nia)).
      destruct (- limits_min <? _) eqn:E'; bool_facts.
      * rewrite (proj2 (Z.leb_gt _ (- limits_min))) by lia. by rewrite andb_false_r.
      * assert (0 <= n * base <= - limits_min) by nia. replace (- n * base) with (- (n * base)) by lia.
        rewrite (promote_id (- (n * base))), (NumberType_id (- (n * base))) by lia.
        rewrite promote_id, NumberType_id by lia.
        replace (- (n * base) - _digitValue c) with (- (n * base + _digitValue c)) by lia. rewrite IH by lia. done.
    + rewrite (proj2 (Z.leb_le base _)) by lia. done.
Qed.

Lemma extractBase_range s base : base = 0 ∨ 2 <= base <= 36 → 2 <= (_extractBase s base).2 <= 36.
Proof. intros B. unfold _extractBase. split_ifs; cbn; bool_facts; lia. Qed.

Lemma parse_number_value stringValue base :
  base = 0 ∨ 2 <= base <= 36 →
  parseNumberFromStringWithBase stringValue base =
  match numeral_value stringValue base with
  | Some v => if in_limits v then Ok v else Err FailedToParse
  | None => Err FailedToParse
  end.
Proof.
  intros B. unfold parseNumberFromStringWithBase, numeral_value, in_limits.
  replace ((base =? 1) || (base <? 0) || (36 <? base)) with false
    by (symmetry; rewrite !orb_false_iff, Z.eqb_neq, !Z.ltb_ge; lia).
  destruct (_extractSign stringValue) as [s neg]. pose proof (extractBase_range s base B) as R.
  destruct (_extractBase s base) as [str b]. cbn [snd] in R. destruct str as [|c str]; [done|].
  rewrite bool_decide_eq_false_2 by done. cbn [negb andb]. pose proof limits_bounds as (? & ? & _).
  set (l := c :: str). pose proof (digits_value_nonneg b l ltac:(lia)). destruct neg; cbn [andb negb].
  - destruct is_signed eqn:Sg; cbn [negb]; [|by rewrite andb_false_r]. rewrite andb_true_r.
    change 0 with (- 0) at 1. rewrite parse_neg_spec by (done || lia). cbv zeta. rewrite Z.mul_0_l, Z.add_0_l.
    destruct (digits_ok b l); cbn [andb]; [|done].
    rewrite (proj2 (Z.leb_le (- digits_value b l) limits_max)) by lia. rewrite andb_true_r.
    replace (limits_min <=? - digits_value b l) with (digits_value b l <=? - limits_min); [done|].
    apply eq_true_iff_eq. rewrite !Z.leb_le. lia.
  - rewrite andb_true_r, parse_pos_spec by lia. cbv zeta. rewrite Z.mul_0_l, Z.add_0_l.
    destruct (digits_ok b l); cbn [andb]; [|done].
    by rewrite (proj2 (Z.leb_le limits_min (digits_value b l))) by lia.
Qed.

(** *** Digits *)

Lemma lookup_digits (l : list Z) : (∀ i, (i < 36)%nat → _digitValue <$> l !! i = Some (Z.of_nat i)) → length l = 36%nat →
  ∀ c d, 0 <= d → l !! Z.to_nat d = Some c → _digitValue c = d ∧ d < 36.
Proof.
  intros H L c d D E. pose proof (lookup_lt_Some _ _ _ E) as B. specialize (H (Z.to_nat d) ltac:(lia)).
  rewrite E in H. cbn in H. injection H as H. lia.
Qed.

Lemma digit_spec c d : digit c d ↔ _digitValue c = d ∧ d < 36.
Proof.
  assert (∀ l : list Z, forallb (λ i, bool_decide (_digitValue <$> l !! i = Some (Z.of_nat i))) (seq 0 36) = true →
    ∀ i, (i < 36)%nat → _digitValue <$> l !! i = Some (Z.of_nat i)) as T.
  { intros l F i I. rewrite forallb_forall in F. specialize (F i). rewrite bool_decide_eq_true, in_seq in F. apply F. lia. }
  split.
  - intros [D [E|E]]; (eapply lookup_digits; [| |exact D|exact E]; [apply T; vm_compute; reflexivity|reflexivity]).
  - intros [<- B]. split; [apply digitValue_range|].
    assert (∀ (l : list Z) a n k, forallb (λ i, bool_decide (l !! (k + i)%nat = Some (a + Z.of_nat i))) (seq 0 n) = true →
      a <= c < a + Z.of_nat n → l !! Z.to_nat (c - a + Z.of_nat k) = Some c) as A.
    { intros l a n k F R. rewrite forallb_forall in F. specialize (F (Z.to_nat (c - a))). rewrite bool_decide_eq_true, in_seq in F.
      replace (Z.to_nat (c - a + Z.of_nat k)) with (k + Z.to_nat (c - a))%nat by lia. rewrite F by lia. f_equal. lia. }
    revert B. unfold _digitValue. split_ifs; bool_facts; intros B; [left|left|right|lia].
    + rewrite <- (Z.add_0_r (c - 48)). apply (A _ 48 10%nat 0%nat); [reflexivity|lia].
    + apply (A _ 97 26%nat 10%nat); [reflexivity|lia].
    + apply (A _ 65 26%nat 10%nat); [reflexivity|lia].
Qed.

Lemma digits_value_snoc b s c : digits_value b (s ++ [c]) = digits_value b s * b + _digitValue c.
Proof.
  induction s as [|x s IH]; cbn [app digits_value length]; [cbn; lia|].
  rewrite IH, length_app. cbn [length]. rewrite Nat2Z.inj_add, Z.pow_add_r by lia. change (Z.of_nat 1) with 1. rewrite Z.pow_1_r. ring.
Qed.

Lemma digits_spec b s v : b <= 36 → digits b s v ↔ s ≠ [] ∧ digits_ok b s = true ∧ digits_value b s = v.
Proof.
  intros B. split.
  - induction 1 as [c d [E _]%digit_spec L|s v c d H (N & O & E) [D _]%digit_spec L].
    + cbn. rewrite E. split; [done|]. split; [|lia]. apply andb_true_iff. split; [by apply Z.ltb_lt|done].
    + rewrite digits_value_snoc, E, D. split; [by destruct s|]. split; [|done].
      unfold digits_ok in *. rewrite forallb_app, O. cbn. rewrite D. apply andb_true_iff. split; [by apply Z.ltb_lt|done].
  - intros (N & O & <-). induction s as [|c s IH] using rev_ind; [done|]. clear N.
    unfold digits_ok in *. rewrite forallb_app in O. cbn in O. rewrite andb_true_r in O. apply andb_true_iff in O as [O C].
    apply Z.ltb_lt in C. assert (digit c (_digitValue c)) as D by (apply digit_spec; lia).
    rewrite digits_value_snoc. destruct s as [|x s]; [by apply digits_one|]. apply digits_snoc; [by apply IH|done|done].
Qed.

(** The digits of a number do not start with a sign or end in the letter of the prefix. *)
Lemma digits_cons b c s v : b <= 36 → digits b (c :: s) v → _digitValue c < b.
Proof. intros B (_ & O & _)%digits_spec; [|done]. apply andb_true_iff in O as [O _]. by apply Z.ltb_lt. Qed.

Lemma hex_prefix_spec s : has_hex_prefix s = true ↔ ∃ prefix, (prefix = bytes "0x" ∨ prefix = bytes "0X") ∧ s = prefix ++ drop 2 s.
Proof.
  split.
  - destruct s as [|c [|d s]]; [done|done|]. cbn. intros [C D]%andb_true_iff. apply Z.eqb_eq in C as ->.
    apply orb_true_iff in D as [D|D]; apply Z.eqb_eq in D as ->; [exists (bytes "0x")|exists (bytes "0X")]; auto.
  - by intros (prefix & [->| ->] & ->).
Qed.

(** The letter of the prefix is not a digit up to base 16. *)
Lemma hex_prefix_digits b s v : b <= 16 → digits b s v → has_hex_prefix s = false.
Proof.
  intros B (_ & O & _)%digits_spec; [|lia]. apply not_true_is_false. intros (p & H & E)%hex_prefix_spec. rewrite E in O.
  unfold digits_ok in O. rewrite forallb_app in O. apply andb_true_iff in O as [O _].
  rewrite forallb_forall in O.
  destruct H as [->| ->]; [specialize (O 120)|specialize (O 88)]; apply Z.ltb_lt in O; first [by right; left|change (33 < b) in O; lia].
Qed.

Lemma digits_zero b s v : 2 <= b <= 36 → s ≠ [] → digits b (48 :: s) v ↔ digits b s v.
Proof.
  intros B N. rewrite !digits_spec by lia. cbn [digits_ok forallb digits_value]. change (_digitValue 48) with 0.
  rewrite (proj2 (Z.ltb_lt 0 b)) by lia. rewrite Z.mul_0_l, Z.add_0_l. naive_solver.
Qed.

Lemma magnitude_base b s v : magnitude b s v → digits (_extractBase s b).2 (_extractBase s b).1 v.
Proof.
  intros M. unfold _extractBase. inv M as [? ? ? B D|? p s' ? B P D|s' ? D|? ? D H].
  - rewrite (proj2 (Z.eqb_neq b 0)) by lia. destruct ((b =? 16) && _) eqn:E; [|done]. apply andb_true_iff in E as [->%Z.eqb_eq E].
    by rewrite (hex_prefix_digits _ _ _ ltac:(done) D) in E.
  - assert (has_hex_prefix (p ++ s') = true) as -> by (by destruct P as [->| ->]).
    assert (drop 2 (p ++ s') = s') as -> by (by destruct P as [->| ->]).
    assert ((2 <? length (p ++ s'))%nat = true) as ->.
    { apply digits_spec in D as (N & _); [|lia]. destruct P as [->| ->], s'; cbn; done. }
    by destruct B as [->| ->].
  - pose proof D as (N & _)%digits_spec; [|lia]. cbn [bytes app Z.eqb] in *. change (bytes "0" ++ s') with (48 :: s').
    apply (digits_zero 8 s' v) in D; [|lia|done]. rewrite (hex_prefix_digits 8 _ v) by done. rewrite andb_false_r. by destruct s'.
  - cbn [Z.eqb]. rewrite (hex_prefix_digits 10 _ _ ltac:(done) D), andb_false_r.
    destruct H as [->|H]; [done|]. destruct s as [|c s]; [done|].
    rewrite (proj2 (Z.eqb_neq c 48)) by (intros ->; by apply H). by rewrite andb_false_r.
Qed.

Lemma base_magnitude b s v : legal_base b → digits (_extractBase s b).2 (_extractBase s b).1 v → magnitude b s v.
Proof.
  unfold _extractBase. intros B D. destruct (b =? 0) eqn:Z0; bool_facts.
  - subst b. destruct ((2 <? length s)%nat && has_hex_prefix s) eqn:E.
    { apply andb_true_iff in E as [_ (p & P & ->)%hex_prefix_spec]. apply mag_hex; [auto|done|]. cbn [fst snd] in D.
      by destruct P as [->| ->]. }
    destruct ((1 <? length s)%nat && _) eqn:E'; cbn [fst snd] in D.
    + apply andb_true_iff in E' as [L C]. destruct s as [|c [|c' s]]; try done. apply Z.eqb_eq in C as ->.
      apply (mag_octal (c' :: s)). by apply (digits_zero 8 (c' :: s) v); [lia|done|].
    + apply mag_decimal; [done|]. destruct s as [|c s]; [by right|]. destruct (decide (c = 48)) as [->|N]; [|right; intros E0; by injection E0].
      left. by destruct s.
  - destruct ((b =? 16) && _) eqn:E; cbn [fst snd] in D.
    + apply andb_true_iff in E as [->%Z.eqb_eq (p & P & ->)%hex_prefix_spec]. apply mag_hex; [auto|done|]. by destruct P as [->| ->].
    + apply mag_plain; [by destruct B|done].
Qed.

Lemma magnitude_head b c s v : magnitude b (c :: s) v → c ≠ 43 ∧ c ≠ 45.
Proof.
  intros M. enough (_digitValue c < 36) by (split; intros ->; cbn in *; lia).
  inv M as [? ? ? B D|? p s' ? B P D E|s' ? D E|? ? D H].
  - apply digits_cons in D; lia.
  - by destruct P as [->| ->]; cbn in *; simplify_eq.
  - by cbn.
  - apply digits_cons in D; lia.
Qed.

Lemma numeral_value_spec b s v : legal_base b → numeral b s v ↔ numeral_value s b = Some v.
Proof.
  intros B.
  assert (∀ s v, magnitude b s v ↔ (let '(str, b') := _extractBase s b in negb (bool_decide (str = [])) && digits_ok b' str = true ∧ digits_value b' str = v)) as M.
  { intros s0 v0. pose proof (extractBase_range s0 b B) as R. pose proof (magnitude_base b s0 v0). pose proof (base_magnitude b s0 v0 B).
    destruct (_extractBase s0 b) as [str b']. cbn [fst snd] in *. rewrite digits_spec in * by lia.
    rewrite andb_true_iff, negb_true_iff, bool_decide_eq_false. naive_solver. }
  assert (∀ s v, numeral_value s b = Some v ↔ ∃ v', magnitude b (_extractSign s).1 v' ∧ v = (if (_extractSign s).2 then - v' else v') ∧
    ((_extractSign s).2 = true → is_signed = true)) as V.
  { intros s0 v0. unfold numeral_value. destruct (_extractSign s0) as [r neg]. cbn [fst snd]. setoid_rewrite M.
    destruct (_extractBase r b) as [str b']. destruct (negb (bool_decide (str = [])) && digits_ok b' str), neg, is_signed; cbn; naive_solver. }
  rewrite V. split.
  - intros N. inv N as [? ? H|s' ? H|s' v' Sg H].
    + exists v. destruct s as [|c s]; [done|]. pose proof (magnitude_head _ _ _ _ H) as [? ?]. cbn [_extractSign].
      rewrite (proj2 (Z.eqb_neq c 45)), (proj2 (Z.eqb_neq c 43)) by done. done.
    + by exists v.
    + by exists v'.
  - intros (v' & H & -> & Sg). destruct s as [|c s]; [by apply num_unsigned|]. cbn [_extractSign] in *.
    destruct (c =? 45) eqn:C; bool_facts; [subst; by apply (num_minus b s v'); [apply Sg|]|].
    destruct (c =? 43) eqn:C'; bool_facts; [subst; by apply (num_plus b s v')|]. by apply num_unsigned.
Qed.

(** An illegal base is reported as such. *)
Lemma parse_number_base stringValue base :
  base = 1 ∨ base < 0 ∨ 36 < base → parseNumberFromStringWithBase stringValue base = Err BadValue.
Proof.
  intros B. unfold parseNumberFromStringWithBase.
  replace ((base =? 1) || (base <? 0) || (36 <? base)) with true; [done|].
  symmetry. rewrite !orb_true_iff, Z.eqb_eq, !Z.ltb_lt. lia.
Qed.

(** C40: for every integer type, base and string: a base other than 0 and 2 to 36 is a bad value; otherwise the
    function accepts exactly the numerals of the grammar whose value the type can hold, the extreme ones
    included, and returns that value, which is the only one the grammar gives; everything else fails to
    parse. *)
Theorem parse_number_spec stringValue base :
  match parseNumberFromStringWithBase stringValue base with
  | Ok v => legal_base base ∧ limits_min <= v <= limits_max ∧ ∀ v', numeral base stringValue v' ↔ v' = v
  | Err FailedToParse => legal_base base ∧ ∀ v, numeral base stringValue v → ¬ limits_min <= v <= limits_max
  | Err BadValue => ¬ legal_base base
  end.
Proof.
  assert (legal_base base ∨ (base = 1 ∨ base < 0 ∨ 36 < base)) as [B|B] by (unfold legal_base; lia).
  - rewrite parse_number_value by done. pose proof (λ v, numeral_value_spec base stringValue v B) as N.
    destruct (numeral_value stringValue base) as [v|]; [|split; [done|]; by intros v ?%N]. unfold in_limits.
    destruct ((limits_min <=? v) && (v <=? limits_max)) eqn:L; bool_facts.
    + split; [done|]. split; [lia|]. intros v'. rewrite N. naive_solver.
    + split; [done|]. intros v' E%N. injection E as <-. intros [L1 L2]. apply andb_false_iff in L as [L|L]; bool_facts; lia.
  - rewrite parse_number_base by done. unfold legal_base. lia.
Qed.
End ParseNumber.

(** The limits of [int8_t] and of [unsigned long long]: -128, -129, 0x7f and 2^64-1. *)
Example parse_int8 :
  parseNumberFromString 8 true (bytes "-128") = Ok (-128) ∧
  parseNumberFromString 8 true (bytes "-129") = Err FailedToParse ∧
  parseNumberFromString 8 true (bytes "0x7f") = Ok 127.
Proof. done. Qed.

Lemma parse_number_spec_witness :
  parseNumberFromStringWithBase 64 false (bytes "18446744073709551615") 10 = Ok (2 ^ 64 - 1) ∧
  (∀ v', numeral false 10 (bytes "18446744073709551615") v' ↔ v' = 2 ^ 64 - 1) ∧
  (∀ v, numeral false 10 (bytes "18446744073709551616") v → ¬ 0 <= v <= 2 ^ 64 - 1).
Proof.
  split; [reflexivity|].
  exact (conj (proj2 (proj2 (parse_number_spec 64 false ltac:(lia) (bytes "18446744073709551615") 10)))
    (proj2 (parse_number_spec 64 false ltac:(lia) (bytes "18446744073709551616") 10))).
Defined.
