(* ===== verification/FieldElement.v ===== *)
(** * The elements that bound ranges

    What the query planner (db/queryutil.cpp) asks of a [BSONElement]: the comparison with and without
    field names, and the extreme elements.  [FieldElement] states the operations and [FieldElementLaws]
    what the theorems on ranges rely on; [scan_elem] discharges both with the elements of BsonOrder on
    which [BSONElement::woCompare] is a total preorder. *)

From S2P Require Import Prelude StdContainers Double Bson BsonOrder DocOrder.
#[local] Open Scope Z_scope.

(** [Cmp] is [woCompare(_, false)], [woCompareNamed] compares field names too. *)
Class FieldElement (K : Type) := {
  field_cmp :: Cmp K;
  woCompareNamed : K → K → Z;
  minKey : K;
  maxKey : K
}.

(** What the theorems ask of elements. *)
Class FieldElementLaws (K : Type) `{FieldElement K} := {
  fe_total :: TotalOrd K;
  named_refl (a : K) : woCompareNamed a a = 0;
  named_eq (a b : K) : woCompareNamed a b = 0 → woCompare a b = 0;
  minKey_le (a : K) : kle minKey a;
  maxKey_ge (a : K) : kle a maxKey
}.

(** ** BSON elements *)

Definition elem_dom (m : date_mode) (e : list Z * bval) : bool := forallb byte0 e.1 && wf e.2 && vdom m e.2.

(** The elements of a comparable range *)
Definition scan_elem (m : date_mode) : Type := { e : list Z * bval | elem_dom m e = true }.

Section elements.
Context (m : date_mode).
Implicit Types a b c : scan_elem m.

Lemma scan_elem_dom a : edom m (`a).
Proof. pose proof (proj2_sig a) as D. unfold elem_dom in D. bool_facts. done. Qed.

Lemma scan_elem_key cfn a b :
  Z.sgn (Element.woCompare (`a) (`b) cfn) = strcmp (field_key cfn (`a)) (field_key cfn (`b)).
Proof.
  pose proof (field_key_ok m cfn (`a) (`b) [] [] (scan_elem_dom a) (scan_elem_dom b)) as E.
  rewrite !app_nil_r in E. rewrite E. unfold lexi. cbn [strcmp]. by destruct (_ =? 0) eqn:E'; bool_facts; [rewrite E'|].
Qed.

#[global] Instance scan_element : FieldElement (scan_elem m) := {|
  field_cmp := λ a b, Element.woCompare (`a) (`b) false;
  woCompareNamed a b := Element.woCompare (`a) (`b) true;
  minKey := ([], BMinKey) ↾ eq_refl;
  maxKey := ([], BMaxKey) ↾ eq_refl
|}.

#[global] Instance scan_total : TotalOrd (scan_elem m).
Proof.
  split; cbn.
  - intros a b. unfold woCompare. cbn. rewrite !scan_elem_key. apply strcmp_opp.
  - intros a b c. unfold woCompare. cbn. pose proof (scan_elem_key false a b). pose proof (scan_elem_key false b c).
    pose proof (scan_elem_key false a c).
    pose proof (strcmp_trans (field_key false (`a)) (field_key false (`b)) (field_key false (`c))). lia.
Qed.

Lemma scan_named a b : Element.woCompare (`a) (`b) true = 0 → Element.woCompare (`a) (`b) false = 0.
Proof.
  unfold Element.woCompare. pose proof (wo_elem_lexi true Element.compareElementValues (`a) (`b) 0) as E1.
  pose proof (wo_elem_lexi false Element.compareElementValues (`a) (`b) 0) as E2. intros E. rewrite E in E1.
  unfold lexi in *. cbn [Z.eqb] in *. repeat case_match; bool_facts; lia.
Qed.

Lemma scan_extreme a : Element.woCompare ([], BMinKey) (`a) false <= 0 ∧ Element.woCompare (`a) ([], BMaxKey) false <= 0.
Proof. destruct a as [[n v] D]. cbn. clear D. destruct v; vm_compute; split; discriminate. Qed.

#[global] Instance scan_laws : FieldElementLaws (scan_elem m).
Proof.
  split; [apply _|..].
  - intros a. cbn. pose proof (scan_elem_key true a a) as E. rewrite strcmp_refl in E. lia.
  - apply scan_named.
  - intros a. apply scan_extreme.
  - intros a. apply scan_extreme.
Qed.
End elements.
