(* ===== verification/FieldRange.v ===== *)
(** * Ranges of values for a field

    Models [FieldBound], [FieldInterval] and [FieldRange] of db/queryutil.h and db/queryutil.cpp:
    the ordered lists of intervals that the query planner derives from a query, with their
    intersection, union and difference.  The elements that bound an interval are of any type with
    the comparisons the code uses (FieldElement); the theorems need the comparison without
    field names to be a total preorder.

    [FieldInterval::_cachedEquality], a cache of [equality], and [_objData], which owns the memory
    of the bounds, are left out.

    Each bound cuts the line of elements just before or just after its value.  Cuts are ordered
    ([cut_total]), the tests of the code are comparisons of cuts, and an interval is the set of
    elements between its two cuts.  The theorems: on lists of nonempty intervals in ascending order
    with gaps between them the three operations compute exactly the intersection, the union and the
    difference, and give such lists again. *)

From S2P Require Import Prelude StdContainers Bson BsonOrder DocOrder FieldElement.
#[local] Open Scope Z_scope.

Record FieldBound (K : Type) := mkBound { _bound : K; _inclusive : bool }.
Arguments mkBound {_}. Arguments _bound {_}. Arguments _inclusive {_}.

Record FieldInterval (K : Type) := mkInterval { _lower : FieldBound K; _upper : FieldBound K }.
Arguments mkInterval {_}. Arguments _lower {_}. Arguments _upper {_}.

(** [SpecialIndices]: a [std::map] from index type names to whether the index is required. *)
Definition SpecialIndices : Type := list (list Z * bool).
Definition name_lt (a b : list Z) : bool := strcmp a b <? 0.

Module Special.

(** [_indexRequired[k] = _indexRequired[k] || v] *)
Definition or_assign (k : list Z) (v : bool) (s : SpecialIndices) : SpecialIndices :=
  map_assign name_lt k (default false (snd <$> sl_find fst name_lt k s) || v) s.

Definition has (k : list Z) (s : SpecialIndices) : bool :=
  match sl_find fst name_lt k s with Some _ => true | None => false end.

Definition combineWith (s other : SpecialIndices) : SpecialIndices :=
  foldl (λ ret e, or_assign e.1 e.2 ret) s other.

Definition add (k : list Z) (required : bool) (s : SpecialIndices) : SpecialIndices := or_assign k required s.

Definition anyRequireIndex (s : SpecialIndices) : bool := existsb snd s.

End Special.

Record FieldRange (K : Type) := mkRange {
  _intervals : list (FieldInterval K);
  _special : SpecialIndices;
  _exactMatchRepresentation : bool;
  _elemMatchContext : option K
}.
Arguments mkRange {_}. Arguments _intervals {_}. Arguments _special {_}.
Arguments _exactMatchRepresentation {_}. Arguments _elemMatchContext {_}.

Module Bound.
Section bound.
Context `{FieldElement K}.

Definition eq (a b : FieldBound K) : bool :=
  (woCompareNamed (_bound a) (_bound b) =? 0) && Bool.eqb (_inclusive a) (_inclusive b).

Definition flipInclusive (a : FieldBound K) : FieldBound K := mkBound (_bound a) (negb (_inclusive a)).

Definition maxLowerBound (a b : FieldBound K) : FieldBound K :=
  let cmp := woCompare (_bound a) (_bound b) in
  if ((cmp =? 0) && negb (_inclusive b)) || (cmp <? 0) then b else a.

Definition minUpperBound (a b : FieldBound K) : FieldBound K :=
  let cmp := woCompare (_bound a) (_bound b) in
  if ((cmp =? 0) && negb (_inclusive b)) || (0 <? cmp) then b else a.

End bound.
End Bound.

Module Interval.
Section interval.
Context `{FieldElement K}.

(** The interval of one value *)
Definition point (e : K) : FieldInterval K := mkInterval (mkBound e true) (mkBound e true).

Definition isStrictValid (i : FieldInterval K) : bool :=
  let cmp := woCompare (_bound (_lower i)) (_bound (_upper i)) in
  (cmp <? 0) || ((cmp =? 0) && _inclusive (_lower i) && _inclusive (_upper i)).

Definition equality (i : FieldInterval K) : bool :=
  _inclusive (_lower i) && _inclusive (_upper i) && (woCompare (_bound (_lower i)) (_bound (_upper i)) =? 0).

(** [fieldIntervalOverlap]: the overlap when it is a valid interval. *)
Definition fieldIntervalOverlap (one two : FieldInterval K) : option (FieldInterval K) :=
  let result := mkInterval (Bound.maxLowerBound (_lower one) (_lower two))
                           (Bound.minUpperBound (_upper one) (_upper two)) in
  if isStrictValid result then Some result else None.

End interval.
End Interval.

(** [RangeUnionBuilder]: no tail yet, or the tail and the finished intervals, last first. *)
Module RangeUnionBuilder.
Section builder.
Context `{FieldElement K}.

Record t := mk { _initial : bool; _tail : option (FieldInterval K); _unionIntervals : list (FieldInterval K) }.

Definition init : t := mk true None [].

Definition handleDisjoint (tail next : FieldInterval K) : bool :=
  let cmp := woCompare (_bound (_upper tail)) (_bound (_lower next)) in
  (cmp <? 0) || ((cmp =? 0) && negb (_inclusive (_upper tail)) && negb (_inclusive (_lower next))).

Definition handleExtend (tail next : FieldInterval K) : FieldInterval K :=
  let cmp := woCompare (_bound (_upper tail)) (_bound (_upper next)) in
  if (cmp <? 0) || ((cmp =? 0) && negb (_inclusive (_upper tail)) && _inclusive (_upper next))
  then mkInterval (_lower tail) (_upper next) else tail.

Definition nextOrderedInterval (next : FieldInterval K) (b : t) : t :=
  match _initial b, _tail b with
  | false, Some tail =>
      if handleDisjoint tail next then mk false (Some next) (_unionIntervals b ++ [tail])
      else mk false (Some (handleExtend tail next)) (_unionIntervals b)
  | _, _ => mk false (Some next) (_unionIntervals b)
  end.

Definition done (b : t) : list (FieldInterval K) :=
  match _initial b, _tail b with
  | false, Some tail => _unionIntervals b ++ [tail]
  | _, _ => _unionIntervals b
  end.

End builder.
End RangeUnionBuilder.

Module Range.
Section range.
Context `{FieldElement K}.
Implicit Types (r other : FieldRange K) (l : list (FieldInterval K)).

Definition empty r : bool := match _intervals r with [] => true | _ => false end.

(** [min], [max] and their inclusivity; [None] where [verify( !empty() )] fails. *)
Definition min r : option K := (λ i, _bound (_lower i)) <$> head (_intervals r).
Definition max r : option K := (λ i, _bound (_upper i)) <$> last (_intervals r).
Definition minInclusive r : option bool := (λ i, _inclusive (_lower i)) <$> head (_intervals r).
Definition maxInclusive r : option bool := (λ i, _inclusive (_upper i)) <$> last (_intervals r).

Definition equality r : bool :=
  match min r, max r, maxInclusive r, minInclusive r with
  | Some a, Some b, Some bi, Some ai => (woCompare a b =? 0) && bi && ai
  | _, _, _, _ => false
  end.

(** The loop of [universal] over neighbouring intervals *)
Fixpoint contiguous l : bool :=
  match l with
  | i :: l' =>
      match l' with
      | j :: _ =>
          let prev := _upper i in let curr := _lower j in
          if negb (_inclusive prev) && negb (_inclusive curr) then false
          else if woCompareNamed (_bound prev) (_bound curr) <? 0 then false
          else contiguous l'
      | [] => true
      end
  | [] => true
  end.

Definition universal r : bool :=
  match min r, max r with
  | Some a, Some b =>
      if negb (woCompare minKey a =? 0) then false
      else if negb (woCompare maxKey b =? 0) then false
      else contiguous (_intervals r)
  | _, _ => false
  end.

Definition isPointIntervalSet r : bool :=
  match _intervals r with [] => false | l => forallb Interval.equality l end.

Definition set_intervals l r : FieldRange K :=
  mkRange l (_special r) (_exactMatchRepresentation r) (_elemMatchContext r).

Definition makeEmpty r : FieldRange K := set_intervals [] r.

Definition setExclusiveBounds r : FieldRange K :=
  set_intervals (map (λ i, mkInterval (mkBound (_bound (_lower i)) false) (mkBound (_bound (_upper i)) false)) (_intervals r)) r.

(** [reverse( ret )]: [ret] gets the intervals; [None] where [verify( _special.empty() )] fails. *)
Definition reverse r ret : option (FieldRange K) :=
  match _special r with
  | [] => Some (set_intervals (List.rev (map (λ i, mkInterval (_upper i) (_lower i)) (_intervals r))) ret)
  | _ => None
  end.

Definition finishOperation r (newIntervals : list (FieldInterval K)) other (exactMatchRepresentation : bool) : FieldRange K :=
  mkRange newIntervals
    (match _special r, _special other with [], (_ :: _) as s => s | s, _ => s end)
    exactMatchRepresentation None.

(** The loop of [intersect] *)
Fixpoint intersect_loop l : list (FieldInterval K) → list (FieldInterval K) :=
  fix go l2 :=
    match l, l2 with
    | i :: l', j :: l2' =>
        let new := match Interval.fieldIntervalOverlap i j with Some overlap => [overlap] | None => [] end in
        new ++ (if Bound.eq (_upper i) (Bound.minUpperBound (_upper i) (_upper j))
                then intersect_loop l' l2 else go l2')
    | _, _ => []
    end.

(** The loops of [operator|=] *)
Fixpoint union_loop (b : RangeUnionBuilder.t) l l2 : RangeUnionBuilder.t :=
  let fix go b l2 :=
    match l, l2 with
    | i :: l', j :: l2' =>
        let cmp := woCompare (_bound (_lower i)) (_bound (_lower j)) in
        if (cmp <? 0) || ((cmp =? 0) && _inclusive (_lower i))
        then union_loop (RangeUnionBuilder.nextOrderedInterval i b) l' l2
        else go (RangeUnionBuilder.nextOrderedInterval j b) l2'
    | i :: l', [] => union_loop (RangeUnionBuilder.nextOrderedInterval i b) l' []
    | [], j :: l2' => go (RangeUnionBuilder.nextOrderedInterval j b) l2'
    | [], [] => b
    end in go b l2.

Definition union r other : FieldRange K :=
  finishOperation r (RangeUnionBuilder.done (union_loop RangeUnionBuilder.init (_intervals r) (_intervals other))) other false.

(** The loops of [operator-=]; the code moves the lower bound of [*i] in place. *)
Fixpoint diff_loop l : list (FieldInterval K) → list (FieldInterval K) :=
  match l with
  | [] => λ _, []
  | i :: l' =>
      (fix go i l2 :=
         match l2 with
         | [] => i :: l'
         | j :: l2' =>
             let cmp := woCompare (_bound (_lower i)) (_bound (_lower j)) in
             let cmp3 := woCompare (_bound (_upper i)) (_bound (_upper j)) in
             let rest :=
               if (cmp3 <? 0) || ((cmp3 =? 0) && (negb (_inclusive (_upper i)) || _inclusive (_upper j)))
               then diff_loop l' l2
               else go (mkInterval (Bound.flipInclusive (_upper j)) (_upper i)) l2' in
             if (cmp <? 0) || ((cmp =? 0) && _inclusive (_lower i) && negb (_inclusive (_lower j))) then
               let cmp2 := woCompare (_bound (_upper i)) (_bound (_lower j)) in
               if cmp2 <? 0 then i :: diff_loop l' l2
               else if cmp2 =? 0 then
                 (if _inclusive (_upper i) && _inclusive (_lower j)
                  then mkInterval (_lower i) (mkBound (_bound (_upper i)) false) else i) :: diff_loop l' l2
               else mkInterval (_lower i) (Bound.flipInclusive (_lower j)) :: rest
             else
               let cmp2 := woCompare (_bound (_lower i)) (_bound (_upper j)) in
               if (0 <? cmp2) || ((cmp2 =? 0) && (negb (_inclusive (_lower i)) || negb (_inclusive (_upper j))))
               then go i l2'
               else rest
         end) i
  end.

Definition difference r other : FieldRange K :=
  finishOperation r (diff_loop (_intervals r) (_intervals other)) other false.

(** [operator<=] *)
Definition le r other : bool := empty (difference r other).

Definition intersect r other (singleKey : bool) : FieldRange K :=
  if universal r then
    mkRange (_intervals other) (Special.combineWith (_special r) (_special other))
            (_exactMatchRepresentation other) (_elemMatchContext other)
  else if negb singleKey && negb (universal r) then
    let chosen := if le other r then other else r in
    mkRange (_intervals chosen) (Special.combineWith (_special r) (_special other)) false (_elemMatchContext chosen)
  else
    finishOperation r (intersect_loop (_intervals r) (_intervals other)) other
      (_exactMatchRepresentation r && _exactMatchRepresentation other).

End range.
End Range.

(** ** Cuts *)

Record cut (K : Type) := Cut { cut_at : K; cut_after : bool }.
Arguments Cut {_}. Arguments cut_at {_}. Arguments cut_after {_}.

#[global] Instance cut_cmp `{Cmp K} : Cmp (cut K) := λ c d,
  let x := woCompare (cut_at c) (cut_at d) in
  if x =? 0 then Z.b2z (cut_after c) - Z.b2z (cut_after d) else x.

Lemma cut_compare `{Cmp K} (c d : cut K) :
  woCompare c d = if woCompare (cut_at c) (cut_at d) =? 0 then Z.b2z (cut_after c) - Z.b2z (cut_after d)
                  else woCompare (cut_at c) (cut_at d).
Proof. done. Qed.

#[global] Instance cut_total `{TotalOrd K} : TotalOrd (cut K).
Proof.
  split.
  - intros [a x] [b y]. rewrite !cut_compare. cbn. pose proof (woCompare_opp a b). crush_cmp.
  - intros [a x] [b y] [c z]. rewrite !cut_compare. cbn.
    pose proof (woCompare_trans a b c). pose proof (woCompare_trans c a b). pose proof (woCompare_trans b c a).
    pose proof (woCompare_opp a b). pose proof (woCompare_opp b c). pose proof (woCompare_opp a c).
    crush_cmp.
Qed.

(** Reduces facts on cuts to the comparison of their elements. *)
Ltac cut_cases a b :=
  unfold kle in *; rewrite ?cut_compare in *; cbn [cut_at cut_after Z.b2z] in *;
  pose proof (woCompare_opp a b).

Section Cuts.
Context `{FieldElement K} `{!TotalOrd K}.
Implicit Types (v : K) (c d : cut K) (i j : FieldInterval K) (l : list (FieldInterval K)).

Definition lo i : cut K := Cut (_bound (_lower i)) (negb (_inclusive (_lower i))).
Definition up i : cut K := Cut (_bound (_upper i)) (_inclusive (_upper i)).

(** [v] is below a cut, in an interval, in a list of intervals. *)
Definition below v c : Prop := kle (Cut v true) c.
Definition inb v i : Prop := ¬ below v (lo i) ∧ below v (up i).
Definition mem v l : Prop := Exists (inb v) l.

(** Nonempty intervals, above a cut, in ascending order and with gaps between them. *)
Fixpoint above (oc : option (cut K)) l : Prop :=
  match l with
  | [] => True
  | i :: l' => (match oc with None => True | Some c => ¬ kle (lo i) c end) ∧ ¬ kle (up i) (lo i) ∧ above (Some (up i)) l'
  end.
Definition separated l : Prop := above None l.

#[global] Instance mem_dec v l : Decision (mem v l).
Proof. unfold mem, inb, below. apply _. Defined.

#[global] Instance above_dec oc l : Decision (above oc l).
Proof. revert oc. induction l as [|i l IH]; intros oc; cbn; [apply _|]. destruct oc; apply _. Defined.

#[global] Instance separated_dec l : Decision (separated l).
Proof. unfold separated. apply _. Defined.

Lemma mem_nil v : mem v [] ↔ False.
Proof. apply Exists_nil. Qed.

Lemma mem_cons v i l : mem v (i :: l) ↔ inb v i ∨ mem v l.
Proof. apply Exists_cons. Qed.

Lemma above_mono oc c l : match oc with None => True | Some d => kle d c end → above (Some c) l → above oc l.
Proof. destruct l as [|i l]; [done|]. cbn. intros M (A & B & C). repeat split; try done. destruct oc; [|done]. korder. Qed.

Lemma above_separated c l : above (Some c) l → separated l.
Proof. by apply (above_mono None). Qed.

Lemma above_mem c l v : above (Some c) l → mem v l → ¬ below v c.
Proof.
  revert c. induction l as [|i l IH]; intros c A; [by rewrite mem_nil|]. destruct A as (A & B & C).
  rewrite mem_cons. intros [[I _]|M]; unfold below in *; [korder|]. specialize (IH _ C M). korder.
Qed.

Lemma below_le v c d : kle c d → below v c → below v d.
Proof. unfold below. intros. korder. Qed.

Lemma below_lt v c d : ¬ kle d c → below v c → below v d.
Proof. unfold below. intros. korder. Qed.

#[global] Instance below_dec v c : Decision (below v c).
Proof. unfold below. apply _. Defined.

(** *** The tests of the code as comparisons of cuts *)

Lemma strict_valid_spec i : Interval.isStrictValid i = true ↔ ¬ kle (up i) (lo i).
Proof.
  unfold Interval.isStrictValid, up, lo. destruct i as [[a x] [b y]]. cbn. cut_cases a b.
  rewrite orb_true_iff, !andb_true_iff, Z.ltb_lt, Z.eqb_eq.
  destruct x, y; cbn [Z.b2z negb]; crush_cmp; intuition (lia || done).
Qed.

Lemma point_lo_up v : lo (Interval.point v) = Cut v false ∧ up (Interval.point v) = Cut v true.
Proof. done. Qed.

Lemma cut_adjacent v c : ¬ below v c ↔ kle c (Cut v false).
Proof. destruct c as [b y]. unfold below. cut_cases v b. destruct y; crush_cmp. Qed.

Lemma cut_adjacent_at v c : below v c ↔ ¬ kle c (Cut v false).
Proof. rewrite <- cut_adjacent. unfold below. split; [tauto|]. intros. by apply dec_stable. Qed.

(** [maxLowerBound] and [minUpperBound] *)
Lemma maxLower_spec a b :
  let m := Cut (_bound (Bound.maxLowerBound a b)) (negb (_inclusive (Bound.maxLowerBound a b))) in
  let ca := Cut (_bound a) (negb (_inclusive a)) in let cb := Cut (_bound b) (negb (_inclusive b)) in
  kle ca m ∧ kle cb m ∧ (kle m ca ∨ kle m cb).
Proof.
  destruct a as [a x], b as [b y]. cbn. unfold Bound.maxLowerBound. cbn. pose proof (woCompare_opp a a).
  pose proof (woCompare_opp b b). cut_cases a b.
  destruct x, y; cbn [negb andb orb]; rewrite ?andb_true_r, ?andb_false_r; cbn [orb];
    crush_cmp; cbn [_bound _inclusive negb Z.b2z] in *; crush_cmp.
Qed.

Lemma minUpper_spec a b :
  let m := Cut (_bound (Bound.minUpperBound a b)) (_inclusive (Bound.minUpperBound a b)) in
  let ca := Cut (_bound a) (_inclusive a) in let cb := Cut (_bound b) (_inclusive b) in
  kle m ca ∧ kle m cb ∧ (kle ca m ∨ kle cb m).
Proof.
  destruct a as [a x], b as [b y]. cbn. unfold Bound.minUpperBound. cbn. pose proof (woCompare_opp a a).
  pose proof (woCompare_opp b b). cut_cases a b.
  destruct x, y; cbn [negb andb orb]; rewrite ?andb_true_r, ?andb_false_r; cbn [orb];
    crush_cmp; cbn [_bound _inclusive negb Z.b2z] in *; crush_cmp.
Qed.

(** The tests of the union and of the difference *)
Ltac cut_test i j :=
  destruct i as [[? ?] [? ?]], j as [[? ?] [? ?]];
  unfold RangeUnionBuilder.handleDisjoint, lo, up, kle; rewrite ?cut_compare; cbn;
  match goal with
  | |- context [woCompare ?a ?b] => pose proof (woCompare_opp a b)
  end;
  repeat match goal with x : bool |- _ => destruct x end; cbn [Z.b2z negb andb orb];
  crush_cmp; intuition (lia || done).

Lemma disjoint_spec i j : RangeUnionBuilder.handleDisjoint i j = true ↔ ¬ kle (lo j) (up i).
Proof. cut_test i j. Qed.

Lemma order_true i j :
  let cmp := woCompare (_bound (_lower i)) (_bound (_lower j)) in
  (cmp <? 0) || ((cmp =? 0) && _inclusive (_lower i)) = true → kle (lo i) (lo j).
Proof. cut_test i j. Qed.

Lemma order_false i j :
  let cmp := woCompare (_bound (_lower i)) (_bound (_lower j)) in
  (cmp <? 0) || ((cmp =? 0) && _inclusive (_lower i)) = false → kle (lo j) (lo i).
Proof. cut_test i j. Qed.

Lemma lower_lt_spec i j :
  let cmp := woCompare (_bound (_lower i)) (_bound (_lower j)) in
  (cmp <? 0) || ((cmp =? 0) && _inclusive (_lower i) && negb (_inclusive (_lower j))) = true ↔ ¬ kle (lo j) (lo i).
Proof. cut_test i j. Qed.

Lemma upper_le_spec i j :
  let cmp := woCompare (_bound (_upper i)) (_bound (_upper j)) in
  (cmp <? 0) || ((cmp =? 0) && (negb (_inclusive (_upper i)) || _inclusive (_upper j))) = true ↔ kle (up i) (up j).
Proof. cut_test i j. Qed.

Lemma past_spec i j :
  let cmp := woCompare (_bound (_lower i)) (_bound (_upper j)) in
  (0 <? cmp) || ((cmp =? 0) && (negb (_inclusive (_lower i)) || negb (_inclusive (_upper j)))) = true ↔ kle (up j) (lo i).
Proof. cut_test i j. Qed.

Lemma before_spec i j : (woCompare (_bound (_upper i)) (_bound (_lower j)) <? 0) = true → ¬ kle (lo j) (up i).
Proof. cut_test i j. Qed.

Lemma beyond_spec i j :
  (woCompare (_bound (_upper i)) (_bound (_lower j)) <? 0) = false →
  (woCompare (_bound (_upper i)) (_bound (_lower j)) =? 0) = false → kle (lo j) (up i).
Proof. cut_test i j. Qed.

(** Where the upper bound of [i] meets the lower bound of [j] *)
Lemma meet_spec i j :
  (woCompare (_bound (_upper i)) (_bound (_lower j)) =? 0) = true →
  if _inclusive (_upper i) && _inclusive (_lower j)
  then kle (lo j) (Cut (_bound (_upper i)) false) ∧ kle (Cut (_bound (_upper i)) false) (lo j) ∧
       up i = Cut (_bound (_upper i)) true
  else kle (up i) (lo j).
Proof. cut_test i j. Qed.

Lemma extend_spec i j :
  let t := RangeUnionBuilder.handleExtend i j in
  _lower t = _lower i ∧ kle (up i) (up t) ∧ kle (up j) (up t) ∧ (kle (up t) (up i) ∨ kle (up t) (up j)).
Proof.
  destruct i as [? [a x]], j as [? [b y]]. cbn. unfold RangeUnionBuilder.handleExtend, up. cbn.
  pose proof (woCompare_opp a a). pose proof (woCompare_opp b b). cut_cases a b.
  destruct x, y; cbn [negb andb orb Z.b2z]; rewrite ?andb_true_r, ?andb_false_r; cbn [orb];
    crush_cmp; cbn [_lower _upper _bound _inclusive Z.b2z] in *; (split; [done|]); crush_cmp.
Qed.

End Cuts.

(** Decides on which side of the bounds [v] is. *)
Ltac below_cases v :=
  repeat match goal with
  | |- context [below v (?f ?i)] =>
      lazymatch goal with
      | _ : below v (f i) |- _ => fail | _ : ¬ below v (f i) |- _ => fail
      | _ => destruct (decide (below v (f i)))
      end
  end.

Section Ops.
Context `{FieldElementLaws K}.
Implicit Types (v : K) (c : cut K) (i j : FieldInterval K) (l : list (FieldInterval K)) (r other : FieldRange K).

(** *** Intersection *)

Lemma overlap_some i j o :
  Interval.fieldIntervalOverlap i j = Some o →
  kle (lo i) (lo o) ∧ kle (lo j) (lo o) ∧ (kle (lo o) (lo i) ∨ kle (lo o) (lo j)) ∧
  kle (up o) (up i) ∧ kle (up o) (up j) ∧ (kle (up i) (up o) ∨ kle (up j) (up o)) ∧ ¬ kle (up o) (lo o).
Proof.
  unfold Interval.fieldIntervalOverlap. case_match eqn:E; [|done]. intros [= <-]. apply strict_valid_spec in E.
  pose proof (maxLower_spec (_lower i) (_lower j)) as (?&?&?). pose proof (minUpper_spec (_upper i) (_upper j)) as (?&?&?).
  unfold lo, up in *. cbn in *. tauto.
Qed.

Lemma overlap_none i j v :
  Interval.fieldIntervalOverlap i j = None → inb v i → inb v j → False.
Proof.
  unfold Interval.fieldIntervalOverlap. case_match eqn:E; [done|]. intros _ [A B] [C D].
  apply not_true_iff_false in E. apply E, strict_valid_spec. clear E.
  pose proof (maxLower_spec (_lower i) (_lower j)) as (?&?&M). pose proof (minUpper_spec (_upper i) (_upper j)) as (?&?&N).
  unfold below, lo, up in *. cbn in *. destruct M, N; korder.
Qed.

Lemma overlap_mem i j v :
  (∃ o, Interval.fieldIntervalOverlap i j = Some o ∧ inb v o) ↔ inb v i ∧ inb v j.
Proof.
  split.
  - intros (o & (?&?&?&?&?&?&?)%overlap_some & I & J). unfold inb, below in *. repeat split; korder.
  - intros [I J]. destruct (Interval.fieldIntervalOverlap i j) as [o|] eqn:E.
    + exists o. split; [done|]. apply overlap_some in E as (?&?&M&?&?&N&?). unfold inb, below in *.
      destruct I, J, M, N; split; korder.
    + by destruct (overlap_none i j v E).
Qed.

Lemma advance_spec i j :
  if Bound.eq (_upper i) (Bound.minUpperBound (_upper i) (_upper j)) then kle (up i) (up j) else kle (up j) (up i).
Proof.
  unfold Bound.eq, Bound.minUpperBound, up. destruct i as [? [a x]], j as [? [b y]]. cbn.
  pose proof (named_refl a). pose proof (named_eq a b). cut_cases a b.
  destruct x, y; cbn [negb andb orb Z.b2z Bool.eqb]; rewrite ?andb_true_r, ?andb_false_r; cbn [orb];
    split_ifs; cbn [_bound _inclusive Bool.eqb] in *; rewrite ?andb_true_r, ?andb_false_r in *; bool_facts; lia || done || idtac.
  all: match goal with H : woCompareNamed _ _ = 0, H' : _ → _ |- _ => specialize (H' H); lia end.
Qed.

Lemma overlap_list_mem i j v :
  mem v (match Interval.fieldIntervalOverlap i j with Some o => [o] | None => [] end) ↔ inb v i ∧ inb v j.
Proof.
  rewrite <- overlap_mem. destruct (Interval.fieldIntervalOverlap i j) as [o|].
  - rewrite mem_cons, mem_nil. split; [intros [?|[]]; eauto|intros (? & [= ->] & ?); auto].
  - rewrite mem_nil. split; [done|by intros (? & ? & _)].
Qed.

(** One turn of the loop, when the rest is computed from [la] and [lb]. *)
Section IntersectStep.
Context (i j : FieldInterval K) (l l2 la lb rest : list (FieldInterval K)).
Context (S1 : separated (i :: l)) (S2 : separated (j :: l2)).
Context (Next : (la = l ∧ lb = j :: l2 ∧ kle (up i) (up j)) ∨ (la = i :: l ∧ lb = l2 ∧ kle (up j) (up i))).
Context (Hm : ∀ v, mem v rest ↔ mem v la ∧ mem v lb).
Context (Ha : ∀ oc, above oc la ∨ above oc lb → above oc rest).
#[local] Definition step_list : list (FieldInterval K) :=
  match Interval.fieldIntervalOverlap i j with Some o => [o] | None => [] end ++ rest.

Lemma intersect_step_mem v : mem v step_list ↔ mem v (i :: l) ∧ mem v (j :: l2).
Proof.
  destruct S1 as (_ & W1 & A1), S2 as (_ & W2 & A2).
  pose proof (above_mem _ _ v A1) as M1. pose proof (above_mem _ _ v A2) as M2.
  unfold step_list, mem. rewrite Exists_app. fold (mem v rest). rewrite Hm.
  change (Exists (inb v) ?x) with (mem v x). rewrite overlap_list_mem, !mem_cons. unfold inb, below in *.
  destruct Next as [(-> & -> & ?)|(-> & -> & ?)]; rewrite mem_cons; unfold inb, below; split; try tauto;
    intros [[I|I] [J|J]]; try tauto; exfalso.
  - specialize (M2 J). korder.
  - specialize (M1 I). korder.
Qed.

Lemma intersect_step_above oc : above oc (i :: l) ∨ above oc (j :: l2) → above oc step_list.
Proof.
  intros Hc. destruct S1 as (_ & W1 & A1), S2 as (_ & W2 & A2). unfold step_list.
  destruct (Interval.fieldIntervalOverlap i j) as [o|] eqn:E; cbn.
  - apply overlap_some in E as (?&?&?&?&?&?&?). repeat split; [|done|].
    + destruct oc; [|done]. destruct Hc as [(?&_)|(?&_)]; korder.
    + apply Ha. destruct Next as [(-> & -> & ?)|(-> & -> & ?)]; [left|right]; (eapply above_mono; [|eassumption]); korder.
  - apply Ha. destruct Next as [(-> & -> & ?)|(-> & -> & ?)].
    + destruct Hc as [(?&?&Hc)|?]; [left|by right]. eapply above_mono; [|exact Hc]. destruct oc; [|done]. korder.
    + destruct Hc as [?|(?&?&Hc)]; [by left|right]. eapply above_mono; [|exact Hc]. destruct oc; [|done]. korder.
Qed.
End IntersectStep.

Lemma intersect_loop_spec l l2 :
  separated l → separated l2 →
  (∀ v, mem v (Range.intersect_loop l l2) ↔ mem v l ∧ mem v l2) ∧
  (∀ oc, above oc l ∨ above oc l2 → above oc (Range.intersect_loop l l2)).
Proof.
  revert l2. induction l as [|i l IH]; intros l2; [|induction l2 as [|j l2 IH2]]; intros S1 S2.
  - destruct l2; cbn; split; [setoid_rewrite mem_nil; tauto|done|setoid_rewrite mem_nil; tauto|done].
  - cbn. split; [setoid_rewrite mem_nil; tauto|done].
  - pose proof (advance_spec i j) as A. pose proof S1 as (_ & _ & A1). pose proof S2 as (_ & _ & A2).
    apply above_separated in A1, A2. cbn [Range.intersect_loop]. destruct (Bound.eq _ _).
    + destruct (IH (j :: l2) A1 S2) as [Hm Ha].
      split; [apply (intersect_step_mem i j l l2 l (j :: l2))|apply (intersect_step_above i j l l2 l (j :: l2))]; auto.
    + destruct (IH2 S1 A2) as [Hm Ha].
      split; [apply (intersect_step_mem i j l l2 (i :: l) l2)|apply (intersect_step_above i j l l2 (i :: l) l2)]; auto.
Qed.

(** *** Union *)

Definition starts c l : Prop := match l with [] => True | i :: _ => kle c (lo i) end.

Lemma separated_starts i l : separated (i :: l) → starts (lo i) l.
Proof. destruct l as [|j l]; [done|]. cbn. intros (_ & ? & ? & _). korder. Qed.

Lemma starts_mono c d l : kle c d → starts d l → starts c l.
Proof. destruct l as [|j l]; [done|]. cbn. intros. korder. Qed.

(** The rest of the union: [R] starts where the tail does. *)
Definition union_rest (b : RangeUnionBuilder.t) (acc : list (FieldInterval K)) c (P : K → Prop) : Prop :=
  ∃ i R, RangeUnionBuilder.done b = acc ++ i :: R ∧ separated (i :: R) ∧ kle c (lo i) ∧ kle (lo i) c ∧
    ∀ v, mem v (i :: R) ↔ P v.

Lemma union_rest_ext b acc c P Q : (∀ v, P v ↔ Q v) → union_rest b acc c P → union_rest b acc c Q.
Proof. intros E (i & R & ? & ? & ? & ? & M). exists i, R. do 4 (split; [done|]). intros v. rewrite M. apply E. Qed.

(** Taking the next interval, when the rest is right for every tail. *)
Lemma union_next tail acc n (cont : RangeUnionBuilder.t → RangeUnionBuilder.t) (P : K → Prop) :
  ¬ kle (up tail) (lo tail) → ¬ kle (up n) (lo n) → kle (lo tail) (lo n) →
  (∀ tail' acc', ¬ kle (up tail') (lo tail') → kle (lo tail') (lo n) →
     union_rest (cont (RangeUnionBuilder.mk false (Some tail') acc')) acc' (lo tail') (λ v, inb v tail' ∨ P v)) →
  union_rest (cont (RangeUnionBuilder.nextOrderedInterval n (RangeUnionBuilder.mk false (Some tail) acc)))
    acc (lo tail) (λ v, inb v tail ∨ inb v n ∨ P v).
Proof.
  intros W1 W2 L C. unfold RangeUnionBuilder.nextOrderedInterval. cbn.
  destruct (RangeUnionBuilder.handleDisjoint tail n) eqn:E.
  - apply disjoint_spec in E. destruct (C n (acc ++ [tail]) W2 (kle_refl _)) as (i & R & D & S & ? & ? & M).
    exists tail, (i :: R). rewrite D, <- app_assoc. split; [done|]. split; [|split; [apply kle_refl|split; [apply kle_refl|]]].
    + destruct S as (_ & ? & ?). cbn. repeat split; try done. korder.
    + intros v. rewrite mem_cons, M. tauto.
  - apply not_true_iff_false in E. rewrite disjoint_spec in E. apply dec_stable in E.
    set (t := RangeUnionBuilder.handleExtend tail n).
    pose proof (extend_spec tail n) as (T & ? & ? & T'). fold t in T, T', H1, H2.
    assert (lo t = lo tail) as Ht by (unfold lo; by rewrite T).
    assert (¬ kle (up t) (lo t)) as Wt by (rewrite Ht; korder).
    assert (∀ v, inb v t ↔ inb v tail ∨ inb v n) as Mt.
    { intros v. unfold inb, below. rewrite Ht. split.
      - intros [? ?]. destruct (decide (kle (Cut v true) (up tail))); [left; split; korder|right]. destruct T'; split; korder.
      - intros [[? ?]|[? ?]]; split; korder. }
    rewrite <- Ht in *. eapply union_rest_ext; [|apply (C t acc Wt)]; [|korder]. intros v. cbn. rewrite Mt. tauto.
Qed.

Lemma union_loop_spec l l2 tail acc :
  separated l → separated l2 → ¬ kle (up tail) (lo tail) → starts (lo tail) l → starts (lo tail) l2 →
  union_rest (Range.union_loop (RangeUnionBuilder.mk false (Some tail) acc) l l2) acc (lo tail)
    (λ v, inb v tail ∨ mem v l ∨ mem v l2).
Proof.
  revert l2 tail acc. induction l as [|i l IH]; intros l2; induction l2 as [|j l2 IH2]; intros tail acc S1 S2 W T1 T2.
  - exists tail, []. cbn. repeat split; try done; try apply kle_refl; rewrite mem_cons, !mem_nil; tauto.
  - pose proof S2 as (_ & W2 & A2). apply above_separated in A2.
    eapply union_rest_ext; [|apply (union_next tail acc j (λ b, Range.union_loop b [] l2) (λ v, mem v l2) W W2 T2)].
    + intros v. cbn. rewrite !mem_nil, mem_cons. tauto.
    + intros t' acc' W' L'. eapply union_rest_ext; [|apply (IH2 t' acc'); try done].
      * intros v. cbn. rewrite mem_nil. tauto.
      * by eapply starts_mono, separated_starts.
  - pose proof S1 as (_ & W1 & A1). apply above_separated in A1.
    eapply union_rest_ext; [|apply (union_next tail acc i (λ b, Range.union_loop b l []) (λ v, mem v l) W W1 T1)].
    + intros v. cbn. rewrite !mem_nil, mem_cons. tauto.
    + intros t' acc' W' L'. eapply union_rest_ext; [|apply (IH [] t' acc'); try done].
      * intros v. cbn. rewrite mem_nil. tauto.
      * by eapply starts_mono, separated_starts.
  - pose proof S1 as (_ & W1 & A1). pose proof S2 as (_ & W2 & A2). apply above_separated in A1, A2.
    pose proof (order_true i j) as O1. pose proof (order_false i j) as O2. cbv zeta in O1, O2.
    cbn [Range.union_loop]. destruct (_ || _); [specialize (O1 eq_refl)|specialize (O2 eq_refl)].
    + eapply union_rest_ext; [|apply (union_next tail acc i (λ b, Range.union_loop b l (j :: l2)) (λ v, mem v l ∨ mem v (j :: l2)) W W1 T1)].
      * intros v. cbn. rewrite (mem_cons v i). tauto.
      * intros t' acc' W' L'. apply (IH (j :: l2)); try done; [by eapply starts_mono, separated_starts|]. cbn. korder.
    + eapply union_rest_ext; [|apply (union_next tail acc j (λ b, Range.union_loop b (i :: l) l2) (λ v, mem v (i :: l) ∨ mem v l2) W W2 T2)].
      * intros v. cbn. rewrite (mem_cons v j). tauto.
      * intros t' acc' W' L'. apply (IH2 t' acc'); try done; [|by eapply starts_mono, separated_starts]. cbn. korder.
Qed.

(** The first interval becomes the tail. *)
Lemma union_first tail l l2 :
  separated l → separated l2 → ¬ kle (up tail) (lo tail) → starts (lo tail) l → starts (lo tail) l2 →
  let u := RangeUnionBuilder.done (Range.union_loop (RangeUnionBuilder.mk false (Some tail) []) l l2) in
  separated u ∧ ∀ v, mem v u ↔ inb v tail ∨ mem v l ∨ mem v l2.
Proof.
  intros S1 S2 W T1 T2. destruct (union_loop_spec l l2 tail [] S1 S2 W T1 T2) as (i & R & D & S & _ & _ & M).
  rewrite D. done.
Qed.

Lemma union_loop_init l l2 :
  separated l → separated l2 →
  let u := RangeUnionBuilder.done (Range.union_loop RangeUnionBuilder.init l l2) in
  separated u ∧ ∀ v, mem v u ↔ mem v l ∨ mem v l2.
Proof.
  intros S1 S2. destruct l as [|i l], l2 as [|j l2].
  - cbn. split; [done|]. intros v. rewrite mem_nil. tauto.
  - pose proof S2 as (_ & W2 & A2). apply above_separated in A2.
    destruct (union_first j [] l2 S1 A2 W2 I (separated_starts _ _ S2)) as [S M].
    split; [exact S|]. intros v. etransitivity; [apply (M v)|]. rewrite mem_cons. tauto.
  - pose proof S1 as (_ & W1 & A1). apply above_separated in A1.
    destruct (union_first i l [] A1 S2 W1 (separated_starts _ _ S1) I) as [S M].
    split; [exact S|]. intros v. etransitivity; [apply (M v)|]. rewrite mem_cons. tauto.
  - pose proof S1 as (_ & W1 & A1). pose proof S2 as (_ & W2 & A2). apply above_separated in A1, A2.
    pose proof (order_true i j) as O1. pose proof (order_false i j) as O2. cbv zeta in O1, O2 |- *.
    cbn [Range.union_loop]. destruct (_ || _); [specialize (O1 eq_refl)|specialize (O2 eq_refl)].
    + destruct (union_first i l (j :: l2) A1 S2 W1 (separated_starts _ _ S1) O1) as [S M].
      split; [exact S|]. intros v. etransitivity; [apply (M v)|]. rewrite (mem_cons v i). tauto.
    + destruct (union_first j (i :: l) l2 S1 A2 W2 O2 (separated_starts _ _ S2)) as [S M].
      split; [exact S|]. intros v. etransitivity; [apply (M v)|]. rewrite (mem_cons v j). tauto.
Qed.

(** *** Difference *)

Definition diff_ok l l2 res : Prop :=
  (∀ v, mem v res ↔ mem v l ∧ ¬ mem v l2) ∧ (∀ oc, above oc l → above oc res).

(** [i] is used up: all of it is subtracted, or all but [new], which starts it. *)
Lemma diff_take i l l2 res :
  separated (i :: l) → (∀ v, inb v i → mem v l2) → diff_ok l l2 res → diff_ok (i :: l) l2 res.
Proof.
  intros (_ & W & A) Hi [Hm Ha]. split.
  - intros v. rewrite Hm, mem_cons. specialize (Hi v). tauto.
  - intros oc (? & ? & ?). apply Ha. eapply above_mono; [|done]. destruct oc; [|done]. korder.
Qed.

Lemma diff_push i l l2 new res :
  separated (i :: l) → lo new = lo i → ¬ kle (up new) (lo i) → kle (up new) (up i) →
  (∀ v, inb v new → ¬ mem v l2) → (∀ v, inb v i → ¬ inb v new → mem v l2) →
  diff_ok l l2 res → diff_ok (i :: l) l2 (new :: res).
Proof.
  intros (_ & W & A) E Wn U Hn Hi [Hm Ha]. split.
  - intros v. rewrite !mem_cons, Hm. specialize (Hn v). specialize (Hi v).
    assert (inb v new → inb v i) by (unfold inb, below; rewrite E; intros []; split; korder).
    destruct (decide (mem v [new])) as [D|D]; rewrite mem_cons, mem_nil in D; tauto.
  - intros oc (? & ? & ?). cbn. rewrite E. repeat split; try done. apply Ha. eapply above_mono; [|exact A]. korder.
Qed.

(** The part of [i] up to the end of [j] is dealt with; [x] is the rest of [i]. *)
Section DiffMove.
Context (i j x : FieldInterval K) (l l2 res : list (FieldInterval K)).
Context (S1 : separated (i :: l)) (S2 : separated (j :: l2)).
Context (X1 : lo x = up j) (X2 : up x = up i) (Le : ¬ kle (up i) (up j)) (R : diff_ok (x :: l) l2 res).

Lemma diff_shift : kle (lo j) (lo i) → ¬ kle (up j) (lo i) → diff_ok (i :: l) (j :: l2) res.
Proof.
  intros L1 L2. destruct S1 as (_ & W1 & A1), S2 as (_ & W2 & A2), R as [Hm Ha]. split.
  - intros v. rewrite Hm, !mem_cons. pose proof (above_mem _ _ v A1). pose proof (above_mem _ _ v A2).
    unfold inb. rewrite X1, X2. pose proof (below_lt v _ _ Le). pose proof (below_le v _ _ L1). pose proof (below_lt v _ _ L2).
    below_cases v; tauto.
  - intros oc (? & ? & ?). apply Ha. cbn. rewrite X1, X2. repeat split; try done. destruct oc; [|done]. korder.
Qed.

Lemma diff_cut new :
  ¬ kle (lo j) (lo i) → kle (lo j) (up i) → lo new = lo i → up new = lo j → diff_ok (i :: l) (j :: l2) (new :: res).
Proof.
  intros L1 L2 N1 N2. destruct S1 as (_ & W1 & A1), S2 as (_ & W2 & A2), R as [Hm Ha]. split.
  - intros v. rewrite !mem_cons, Hm, mem_cons. pose proof (above_mem _ _ v A1). pose proof (above_mem _ _ v A2).
    unfold inb. rewrite X1, X2, N1, N2. pose proof (below_lt v _ _ Le). pose proof (below_lt v _ _ L1).
    pose proof (below_le v _ _ L2). pose proof (below_lt v _ _ W2). below_cases v; tauto.
  - intros oc (? & ? & ?). cbn. rewrite N1, N2. repeat split; try done.
    apply Ha. cbn. rewrite X1, X2. repeat split; try done.
Qed.
End DiffMove.

Lemma diff_skip i j l l2 res :
  separated (i :: l) → kle (up j) (lo i) → diff_ok (i :: l) l2 res → diff_ok (i :: l) (j :: l2) res.
Proof.
  intros (_ & W1 & A1) L [Hm Ha]. split; [|done]. intros v. rewrite Hm, !mem_cons. pose proof (above_mem _ _ v A1).
  unfold inb. pose proof (below_le v _ _ L). pose proof (below_lt v _ _ W1). below_cases v; tauto.
Qed.

Lemma separated_mem j l v : separated (j :: l) → mem v (j :: l) → ¬ below v (lo j).
Proof.
  intros (_ & W & A). rewrite mem_cons. intros [[? _]|M]; [done|]. pose proof (above_mem _ _ _ A M).
  unfold below in *. korder.
Qed.

(** [i] ends in the value that [j] begins with. *)
Lemma diff_meet i l j l2 res :
  separated (i :: l) → separated (j :: l2) → ¬ kle (lo j) (lo i) →
  kle (lo j) (Cut (_bound (_upper i)) false) ∧ kle (Cut (_bound (_upper i)) false) (lo j) ∧
    up i = Cut (_bound (_upper i)) true →
  diff_ok l (j :: l2) res →
  diff_ok (i :: l) (j :: l2) (mkInterval (_lower i) (mkBound (_bound (_upper i)) false) :: res).
Proof.
  intros S1 S2 L1 (T2 & T3 & U) R. set (new := mkInterval _ _). pose proof S2 as (_ & W2 & _).
  assert (up new = Cut (_bound (_upper i)) false) as Un by done.
  apply diff_push; [done|done|rewrite Un; korder|rewrite Un, U| | |done].
  - unfold kle. rewrite cut_compare. cbn. pose proof (woCompare_opp (_bound (_upper i)) (_bound (_upper i))). crush_cmp.
  - intros v [_ B] M%separated_mem; [|done]. apply M. unfold below in *. rewrite Un in B. korder.
  - intros v [B1 B2] N. rewrite mem_cons. left. unfold inb in N. rewrite Un in N.
    assert (below (_bound (_upper i)) (up j)) as C by (apply cut_adjacent_at; korder).
    rewrite U in B2. unfold inb, below in *. split; [|korder]. intros ?. apply N. split; [done|korder].
Qed.

Lemma diff_loop_cons i l j l2 :
  Range.diff_loop (i :: l) (j :: l2) =
  let rest :=
    if kle_dec (up i) (up j) then Range.diff_loop l (j :: l2)
    else Range.diff_loop (mkInterval (Bound.flipInclusive (_upper j)) (_upper i) :: l) l2 in
  if kle_dec (lo j) (lo i)
  then if kle_dec (up j) (lo i) then Range.diff_loop (i :: l) l2 else rest
  else let cmp2 := woCompare (_bound (_upper i)) (_bound (_lower j)) in
    if cmp2 <? 0 then i :: Range.diff_loop l (j :: l2)
    else if cmp2 =? 0 then
      (if _inclusive (_upper i) && _inclusive (_lower j)
       then mkInterval (_lower i) (mkBound (_bound (_upper i)) false) else i) :: Range.diff_loop l (j :: l2)
    else mkInterval (_lower i) (Bound.flipInclusive (_lower j)) :: rest.
Proof.
  pose proof (lower_lt_spec i j) as T1. pose proof (upper_le_spec i j) as T2. pose proof (past_spec i j) as T3.
  cbv zeta in T1, T2, T3. cbn [Range.diff_loop]. cbv zeta.
  destruct (kle_dec (up i) (up j)), (kle_dec (lo j) (lo i)), (kle_dec (up j) (lo i));
    repeat match goal with
    | H : ?x = true ↔ ?P |- _ => let E := fresh in destruct x eqn:E;
        [apply proj1 in H; specialize (H eq_refl)|assert (¬ P) by (intros ?%H; done); clear H]
    end; try done; tauto.
Qed.

Lemma flip_lo j u : lo (mkInterval (Bound.flipInclusive (_upper j)) u) = up j.
Proof. unfold lo, up. cbn. by rewrite negb_involutive. Qed.

Lemma diff_loop_spec l l2 : separated l → separated l2 → diff_ok l l2 (Range.diff_loop l l2).
Proof.
  revert l2. induction l as [|i l IH]; intros l2; [|revert i; induction l2 as [|j l2 IH2]; intros i]; intros S1 S2.
  - split; [|done]. intros v. cbn. rewrite mem_nil. tauto.
  - cbn. split; [|done]. intros v. rewrite mem_nil. tauto.
  - pose proof S1 as (_ & W1 & A1). pose proof S2 as (_ & W2 & A2). pose proof (above_separated _ _ A1) as S1'.
    pose proof (above_separated _ _ A2) as S2'. rewrite diff_loop_cons. cbv zeta.
    set (x := mkInterval (Bound.flipInclusive (_upper j)) (_upper i)). pose proof (flip_lo j (_upper i)) as X. fold x in X.
    assert (¬ kle (up i) (up j) → separated (x :: l)) as Sx.
    { intros L. split; [done|]. rewrite X. split; [exact L|exact A1]. }
    destruct (kle_dec (lo j) (lo i)) as [L1|L1]; [destruct (kle_dec (up j) (lo i)) as [L2|L2]; [|destruct (kle_dec (up i) (up j)) as [L3|L3]]|].
    + apply diff_skip; auto.
    + apply diff_take; auto. intros v [B1 B2]. rewrite mem_cons. left. unfold inb, below in *. split; korder.
    + eapply diff_shift; eauto.
    + pose proof (before_spec i j) as T1. pose proof (meet_spec i j) as T2. pose proof (beyond_spec i j) as T3.
      destruct (_ <? 0) eqn:E1; [|destruct (_ =? 0) eqn:E2; [|destruct (kle_dec (up i) (up j)) as [L3|L3]]].
      * specialize (T1 eq_refl). apply diff_push; [done|done|exact W1|apply kle_refl| |tauto|auto].
        intros v [_ B] M%separated_mem; [|done]. apply M. unfold below in *. korder.
      * specialize (T2 eq_refl). clear T1 T3. destruct (_ && _).
        -- apply diff_meet; auto.
        -- apply diff_push; [done|done|exact W1|apply kle_refl| |tauto|auto].
           intros v [_ B] M%separated_mem; [|done]. apply M. unfold below in *. korder.
      * specialize (T3 eq_refl eq_refl). apply diff_push; [done|done|done|done| | |auto].
        ++ intros v [_ B] M%separated_mem; [|done]. apply M. exact B.
        ++ intros v [B1 B2] N. rewrite mem_cons. left. unfold inb in *. split; [|unfold below in *; korder].
           intros ?. apply N. done.
      * by eapply diff_cut; eauto.
Qed.

(** *** The operations on ranges *)

Definition range_ok r : Prop := separated (_intervals r).
Definition contains r v : Prop := mem v (_intervals r).

Lemma difference_spec r other :
  range_ok r → range_ok other →
  range_ok (Range.difference r other) ∧
  ∀ v, contains (Range.difference r other) v ↔ contains r v ∧ ¬ contains other v.
Proof. intros S1 S2. destruct (diff_loop_spec _ _ S1 S2) as [M A]. split; [by apply A|exact M]. Qed.

Lemma intersect_superset r other singleKey v :
  range_ok r → range_ok other → contains r v → contains other v → contains (Range.intersect r other singleKey) v.
Proof.
  intros S1 S2 C1 C2. unfold Range.intersect. destruct (Range.universal r); [done|]. destruct singleKey; cbn [negb andb].
  - by apply intersect_loop_spec.
  - by destruct (Range.le other r).
Qed.

Lemma intersect_ok r other singleKey : range_ok r → range_ok other → range_ok (Range.intersect r other singleKey).
Proof.
  intros S1 S2. unfold Range.intersect. destruct (Range.universal r); [done|]. destruct singleKey; cbn [negb andb].
  - apply intersect_loop_spec; auto.
  - by destruct (Range.le other r).
Qed.

(** C33: the union of two ranges is again a list of separated intervals and holds exactly the
    values of the two. *)
Theorem range_union r other :
  range_ok r → range_ok other →
  range_ok (Range.union r other) ∧ ∀ v, contains (Range.union r other) v ↔ contains r v ∨ contains other v.
Proof. intros S1 S2. apply (union_loop_init _ _ S1 S2). Qed.

(** C16: the difference of two ranges is again a list of separated intervals and holds exactly the
    values of the first that the second does not hold; where [operator<=] answers true, the first
    is a subset of the second. *)
Theorem range_difference r other :
  range_ok r → range_ok other →
  range_ok (Range.difference r other) ∧
  (∀ v, contains (Range.difference r other) v ↔ contains r v ∧ ¬ contains other v) ∧
  (Range.le r other = true → ∀ v, contains r v → contains other v).
Proof.
  intros S1 S2. destruct (difference_spec r other S1 S2) as [S M]. split; [done|]. split; [done|].
  unfold Range.le, Range.empty. case_match eqn:E; [|done]. intros _ v C. apply dec_stable. intros N.
  assert (contains (Range.difference r other) v) as D by (by apply M). unfold contains in D. rewrite E in D. by apply mem_nil in D.
Qed.

(** C24: an intersection never loses a value that both ranges hold, on a single key index or on a
    multikey one; on a single key index, unless the first range passes for universal, it holds
    exactly those values. *)
Theorem range_intersect r other singleKey :
  range_ok r → range_ok other →
  range_ok (Range.intersect r other singleKey) ∧
  (∀ v, contains r v → contains other v → contains (Range.intersect r other singleKey) v) ∧
  (singleKey = true → Range.universal r = false →
   ∀ v, contains (Range.intersect r other singleKey) v ↔ contains r v ∧ contains other v).
Proof.
  intros S1 S2. split; [by apply intersect_ok|]. split; [intros; by apply intersect_superset|].
  intros -> E. unfold Range.intersect. rewrite E. cbn [negb andb]. by apply intersect_loop_spec.
Qed.

(** Neighbouring bounds whose comparison the names do not change *)
Definition names_agree l : Prop :=
  ∀ i j, i ∈ l → j ∈ l → woCompare (_bound (_upper i)) (_bound (_lower j)) < 0 →
         woCompareNamed (_bound (_upper i)) (_bound (_lower j)) < 0.

(** Where names do not decide comparisons, a range that passes for universal holds every value
    strictly between the extreme ones. *)
Theorem range_universal r v :
  range_ok r → names_agree (_intervals r) → Range.universal r = true →
  ¬ kle v minKey → ¬ kle maxKey v → contains r v.
Proof.
  unfold range_ok, Range.universal, Range.min, Range.max, contains. destruct (_intervals r) as [|i [|j l]]; intros S N; [done|..].
  - cbn. intros E L U. rewrite mem_cons. left. destruct (woCompare minKey _ =? 0) eqn:E1; [|done].
    destruct (woCompare maxKey _ =? 0) eqn:E2; [|done]. apply woCompare_eq in E1, E2. unfold inb, below, lo, up. destruct i as [[a x] [b y]]. cbn in *.
    assert (¬ kle v a) as L' by korder. assert (¬ kle b v) as U' by korder. clear -L' U' H0.
    pose proof (woCompare_opp a v). pose proof (woCompare_opp b v). unfold kle in *. rewrite !cut_compare. cbn. crush_cmp.
  - assert (Range.contiguous (i :: j :: l) = false) as ->; [|by repeat case_match].
    cbn [Range.contiguous]. destruct S as (_ & _ & S & _). apply disjoint_spec in S. unfold RangeUnionBuilder.handleDisjoint in S.
    specialize (N i j ltac:(set_solver) ltac:(set_solver)).
    destruct (negb _ && negb _) eqn:E; [done|]. rewrite <- andb_assoc, E, andb_false_r, orb_false_r in S.
    apply Z.ltb_lt in S. by rewrite (proj2 (Z.ltb_lt _ _) (N S)).
Qed.

End Ops.


(** ** Witnesses *)

Module RangeExample.

Definition elem : Type := scan_elem DatesOnly.
Definition e1 : elem := ([97], BInt 1) ↾ eq_refl.
Definition e5 : elem := ([97], BLong 5) ↾ eq_refl.
Definition e6 : elem := ([97], BInt 6) ↾ eq_refl.
Definition e9 : elem := ([], BInt 9) ↾ eq_refl.

(** a < 5 or a > 9, a in [1, 6), everything but 5 *)
Definition interval (a : elem) (x : bool) (b : elem) (y : bool) : FieldInterval elem := mkInterval (mkBound a x) (mkBound b y).
Definition outside : FieldRange elem := mkRange [interval minKey true e5 false; interval e9 false maxKey true] [] true None.
Definition inside : FieldRange elem := mkRange [interval e1 true e6 false] [] true None.
Definition all : FieldRange elem := mkRange [interval minKey true maxKey true] [] true None.

Lemma outside_ok : range_ok outside.
Proof. unfold range_ok. apply (bool_decide_eq_true_1 _). by vm_compute. Qed.
Lemma inside_ok : range_ok inside.
Proof. unfold range_ok. apply (bool_decide_eq_true_1 _). by vm_compute. Qed.
Lemma all_ok : range_ok all.
Proof. unfold range_ok. apply (bool_decide_eq_true_1 _). by vm_compute. Qed.

Lemma range_union_witness :
  range_ok (Range.union outside inside) ∧
  ∀ v, contains (Range.union outside inside) v ↔ contains outside v ∨ contains inside v.
Proof. apply (range_union outside inside); [apply outside_ok|apply inside_ok]. Defined.

Lemma range_difference_witness :
  range_ok (Range.difference outside inside) ∧
  ∀ v, contains (Range.difference outside inside) v ↔ contains outside v ∧ ¬ contains inside v.
Proof.
  destruct (range_difference outside inside) as (A & B & _); [apply outside_ok|apply inside_ok|]. by split.
Defined.

Lemma range_intersect_witness :
  Range.universal outside = false ∧
  ∀ v, contains (Range.intersect outside inside true) v ↔ contains outside v ∧ contains inside v.
Proof.
  destruct (range_intersect outside inside true) as (_ & _ & C); [apply outside_ok|apply inside_ok|].
  assert (Range.universal outside = false) as U by (by vm_compute). split; [exact U|]. by apply C.
Defined.

Lemma range_universal_witness : contains all e5.
Proof.
  apply (range_universal all e5); [apply all_ok| |by vm_compute|..].
  - intros i j ->%list_elem_of_singleton ->%list_elem_of_singleton L. by vm_compute in L.
  - by vm_compute.
  - by vm_compute.
Defined.

(** The names of the bounds can hide a gap from [universal]: at most 5 or at least 9, where the bounds
    come from fields named b and a. *)
Lemma universal_named_gap :
  let r := mkRange [interval minKey true (([98], BInt 5) ↾ eq_refl) true; interval (([97], BInt 9) ↾ eq_refl) true maxKey true] [] true None in
  range_ok r ∧ Range.universal r = true ∧ ¬ contains r e6.
Proof.
  intros r. split; [|split; [by vm_compute|]].
  - unfold range_ok. apply (bool_decide_eq_true_1 _). by vm_compute.
  - unfold contains. apply (bool_decide_eq_false_1 _). by vm_compute.
Qed.
End RangeExample.
