(* ===== verification/FieldRangeSet.v ===== *)
(** * Ranges for the fields of a query

    Models [FieldRangeSet] and [FieldRangeSetPair] of db/queryutil.h and db/queryutil.cpp as far
    as they do not parse queries: the map from field names to ranges, its intersection and
    difference, and the questions the planner asks of it.  A field without an entry has the
    universal range.  Strings are lists of bytes; the map is the sorted sequence of its entries.

    A set of ranges describes the assignments of values to fields whose every value is in the range
    of its field ([satisfies]).  The theorems: the intersection keeps every assignment that is in
    both sets, the difference keeps every assignment of the first that is not in the second, and
    where a match is reported impossible no assignment is in the set. *)

From S2P Require Import Prelude StdContainers DocOrder Bson BsonOrder FieldElement FieldRange.
#[local] Open Scope Z_scope.

Record FieldRangeSet (K : Type) := mkRangeSet {
  _ranges : list (list Z * FieldRange K);
  _queries : list bobj;
  _singleKey : bool;
  frs_exact : bool;        (** [_exactMatchRepresentation] *)
  _boundElemMatch : bool
}.
Arguments mkRangeSet {_}. Arguments _ranges {_}. Arguments _queries {_}. Arguments _singleKey {_}.
Arguments frs_exact {_}. Arguments _boundElemMatch {_}.

Module RangeSet.
Section range_set.
Context `{FieldElement K}.
Implicit Types (s other : FieldRangeSet K) (l : list (list Z * FieldRange K)).

(** [FieldRange( BSONObj().firstElement(), false, true )] *)
Definition universalRange : FieldRange K :=
  mkRange [mkInterval (mkBound minKey true) (mkBound maxKey true)] [] true None.

Definition lookup (fieldName : list Z) l : FieldRange K :=
  match sl_find fst name_lt fieldName l with Some e => e.2 | None => universalRange end.

(** [range( fieldName ) const]; the other [range] creates the entry, see [assign]. *)
Definition range s (fieldName : list Z) : FieldRange K := lookup fieldName (_ranges s).

Definition set_ranges l s : FieldRangeSet K :=
  mkRangeSet l (_queries s) (_singleKey s) (frs_exact s) (_boundElemMatch s).

(** [range( fieldName ) = r] *)
Definition assign s (fieldName : list Z) (r : FieldRange K) : FieldRangeSet K :=
  set_ranges (map_assign name_lt fieldName r (_ranges s)) s.

Definition numNonUniversalRanges s : nat :=
  length (filter (λ e, Range.universal e.2 = false) (_ranges s)).

Definition matchPossible s : bool := forallb (λ e, negb (Range.empty e.2)) (_ranges s).

(** The names of the fields of an index; ["$natural"] stops the loop. *)
Definition natural : list Z := [36; 110; 97; 116; 117; 114; 97; 108].

Fixpoint fields_possible s (keyPattern : list (list Z)) : bool :=
  match keyPattern with
  | [] => true
  | name :: keyPattern' =>
      if bool_decide (name = natural) then true
      else if Range.empty (range s name) then false
      else fields_possible s keyPattern'
  end.

Definition matchPossibleForIndex s (keyPattern : list (list Z)) : bool :=
  if negb (_singleKey s) then matchPossible s else fields_possible s keyPattern.

Definition isPointIntervalSet s (fieldname : list Z) : bool := Range.isPointIntervalSet (range s fieldname).

Definition getSpecial s : SpecialIndices :=
  match filter (λ e, _special e.2 ≠ []) (_ranges s) with e :: _ => _special e.2 | [] => [] end.

Definition makeEmpty s : FieldRangeSet K := set_ranges (map (λ e, (e.1, Range.makeEmpty e.2)) (_ranges s)) s.

Definition appendQueries s other : FieldRangeSet K :=
  mkRangeSet (_ranges s) (_queries s ++ _queries other) (_singleKey s) (frs_exact s) (_boundElemMatch s).

(** The loop of [operator-=]: the number of fields not included, the last of them, and whether
    every field of the other set was met; [None] where it returns early. *)
Fixpoint minus_loop (nUnincluded : nat) (key : list Z) l : list (list Z * FieldRange K) → option (nat * list Z * bool) :=
  fix go l2 :=
    match l, l2 with
    | i :: l', j :: l2' =>
        if (nUnincluded <? 2)%nat then
          let cmp := strcmp i.1 j.1 in
          if cmp =? 0 then
            if Range.le i.2 j.2 then minus_loop nUnincluded key l' l2'
            else minus_loop (S nUnincluded) i.1 l' l2'
          else if cmp <? 0 then minus_loop nUnincluded key l' l2
          else None
        else Some (nUnincluded, key, false)
    | _, [] => Some (nUnincluded, key, true)
    | [], _ => Some (nUnincluded, key, false)
    end.

Definition difference s other : FieldRangeSet K :=
  match minus_loop 0 [] (_ranges s) (_ranges other) with
  | None => s
  | Some (nUnincluded, key, atEnd) =>
      if negb atEnd then s
      else if (1 <? nUnincluded)%nat then s
      else if (nUnincluded =? 0)%nat then makeEmpty s
      else appendQueries (assign s key (Range.difference (range s key) (range other key))) other
  end.

(** The loops of [operator&=]; an entry the set lacks is created before [*i]. *)
Fixpoint and_loop (singleKey : bool) l : list (list Z * FieldRange K) → list (list Z * FieldRange K) :=
  fix go l2 :=
    match l, l2 with
    | i :: l', j :: l2' =>
        let cmp := strcmp i.1 j.1 in
        if cmp =? 0 then (i.1, Range.intersect i.2 j.2 singleKey) :: and_loop singleKey l' l2'
        else if cmp <? 0 then i :: and_loop singleKey l' l2
        else j :: go l2'
    | _, [] => l
    | [], _ => l2
    end.

Definition intersection s other : FieldRangeSet K :=
  appendQueries (set_ranges (and_loop (_singleKey s) (_ranges s) (_ranges other)) s) other.

(** [FieldRangeSet( ns(), BSONObj(), _singleKey, true )] with the queries set afterwards *)
Definition fresh s : FieldRangeSet K := mkRangeSet [] (_queries s) (_singleKey s) true true.

Definition subset s (fields : list (list Z)) : FieldRangeSet K :=
  foldl (λ ret name, if Range.universal (range s name) then ret else assign ret name (range s name)) (fresh s) fields.

Definition prefixed s (prefix : list Z) : FieldRangeSet K :=
  foldl (λ ret e, assign ret (prefix ++ [46] ++ e.1) e.2) (fresh s) (_ranges s).

End range_set.
End RangeSet.

(** [FieldRangeSetPair]: the ranges for single key and for multikey indexes. *)
Record FieldRangeSetPair (K : Type) := mkPair { pair_singleKey : FieldRangeSet K; pair_multiKey : FieldRangeSet K }.
Arguments mkPair {_}. Arguments pair_singleKey {_}. Arguments pair_multiKey {_}.

Module SetPair.
Section pair.
Context `{FieldElement K}.
Implicit Types p other : FieldRangeSetPair K.

Definition noNonUniversalRanges p : bool :=
  (RangeSet.numNonUniversalRanges (pair_singleKey p) =? 0)%nat && (RangeSet.numNonUniversalRanges (pair_multiKey p) =? 0)%nat.

Definition matchPossible p : bool := RangeSet.matchPossible (pair_multiKey p).

Definition intersection p other : FieldRangeSetPair K :=
  mkPair (RangeSet.intersection (pair_singleKey p) (pair_singleKey other))
         (RangeSet.intersection (pair_multiKey p) (pair_multiKey other)).

Definition difference p (scanned : FieldRangeSet K) : FieldRangeSetPair K :=
  mkPair (RangeSet.difference (pair_singleKey p) scanned) (RangeSet.difference (pair_multiKey p) scanned).

(** The index: none, or whether it is multikey. *)
Definition frsForIndex p (multikey : option bool) : FieldRangeSet K :=
  match multikey with Some false => pair_singleKey p | _ => pair_multiKey p end.

Definition matchPossibleForIndex p (multikey : option bool) (keyPattern : list (list Z)) : bool :=
  if negb (matchPossible p) then false
  else match multikey with
       | None => true
       | Some _ => RangeSet.matchPossibleForIndex (frsForIndex p multikey) keyPattern
       end.

End pair.
End SetPair.

(** ** Names *)

Lemma name_equiv a b : equivb name_lt a b = true ↔ a = b.
Proof.
  rewrite equivb_true. unfold name_lt. rewrite !Z.ltb_ge. pose proof (strcmp_opp a b). split.
  - intros. apply strcmp_eq0. lia.
  - intros ->. rewrite strcmp_refl. lia.
Qed.

#[global] Instance name_comparator : Comparator name_lt.
Proof.
  unfold name_lt. split.
  - intros x. by rewrite strcmp_refl.
  - intros x y z. rewrite !Z.ltb_lt. intros. pose proof (strcmp_trans x y z). pose proof (strcmp_trans z x y).
    pose proof (strcmp_opp x z). pose proof (strcmp_opp x y). pose proof (strcmp_opp y z). lia.
  - intros x y z. rewrite !Z.ltb_ge. intros. pose proof (strcmp_trans z y x).
    pose proof (strcmp_opp x z). pose proof (strcmp_opp x y). pose proof (strcmp_opp y z). lia.
Qed.

Lemma map_assign_Forall {V} (P : list Z * V → Prop) k v l :
  Forall P l → P (k, v) → Forall P (map_assign name_lt k v l).
Proof.
  intros F Pk. induction F as [|[k' v'] l Pe F IH]; cbn [map_assign]; [by repeat constructor|].
  destruct (name_lt k k') eqn:E1; [by repeat constructor|]. destruct (name_lt k' k) eqn:E2; [by constructor|].
  assert (k' = k) as -> by (apply name_equiv, equivb_true; done). by constructor.
Qed.

Lemma map_assign_inv {V} (P : list Z * V → Prop) k v l :
  Forall P (map_assign name_lt k v l) → P (k, v) ∧ Forall (λ e, e.1 = k ∨ P e) l.
Proof.
  induction l as [|[k' v'] l IH]; cbn [map_assign]; [intros F; inversion F; auto|].
  destruct (name_lt k k') eqn:E1; [|destruct (name_lt k' k) eqn:E2]; intros F; inversion F as [|? ? F1 F2]; subst.
  - split; [done|]. eapply Forall_impl; [exact F2|]. auto.
  - destruct (IH F2). split; [done|]. constructor; auto.
  - assert (k' = k) as -> by (apply name_equiv, equivb_true; done). split; [done|]. constructor; [by left|].
    eapply Forall_impl; [exact F2|]. auto.
Qed.

Section Sets.
Context `{FieldElementLaws K}.
Implicit Types (s other : FieldRangeSet K) (l : list (list Z * FieldRange K)) (φ : list Z → K).

(** The map is sorted by name and its ranges are separated. *)
Definition ranges_ok l : Prop := sl_sorted fst name_lt l ∧ Forall (λ e, range_ok e.2) l.
Definition set_ok s : Prop := ranges_ok (_ranges s).

(** The values [φ] of the fields are in the ranges. *)
Definition in_ranges φ l : Prop := Forall (λ e, contains e.2 (φ e.1)) l.
Definition satisfies s φ : Prop := in_ranges φ (_ranges s).

Lemma universalRange_ok : range_ok (RangeSet.universalRange (K:=K)).
Proof.
  repeat split. cbn. unfold lo, up, kle. cbn. rewrite cut_compare. cbn. pose proof (minKey_le (maxKey (K:=K))) as L.
  unfold kle in L. pose proof (woCompare_opp (maxKey (K:=K)) minKey). crush_cmp.
Qed.

Lemma universalRange_contains v : contains (RangeSet.universalRange (K:=K)) v.
Proof.
  apply mem_cons. left. unfold inb, below, lo, up, kle. cbn. rewrite !cut_compare. cbn.
  pose proof (minKey_le v) as L1. pose proof (maxKey_ge v) as L2. unfold kle in *. pose proof (woCompare_opp v minKey). crush_cmp.
Qed.

Lemma lookup_elem l e : sl_sorted fst name_lt l → e ∈ l → RangeSet.lookup e.1 l = e.2.
Proof.
  intros S E. unfold RangeSet.lookup. rewrite (sl_find_spec fst name_lt _ _ e S E); [done|]. by apply name_equiv.
Qed.

Lemma lookup_cases l n : RangeSet.lookup n l = RangeSet.universalRange ∨ (n, RangeSet.lookup n l) ∈ l.
Proof.
  unfold RangeSet.lookup. destruct (sl_find fst name_lt n l) as [[n' r]|] eqn:E; [|by left].
  apply (sl_find_Some fst name_lt) in E as [E <-%name_equiv]. by right.
Qed.

Lemma lookup_contains l n φ : in_ranges φ l → contains (RangeSet.lookup n l) (φ n).
Proof.
  intros F. destruct (lookup_cases l n) as [->|E]; [apply universalRange_contains|].
  exact (proj1 (Forall_forall _ _) F _ E).
Qed.

Lemma lookup_ok l n : Forall (λ e, range_ok e.2) l → range_ok (RangeSet.lookup n l).
Proof.
  intros F. destruct (lookup_cases l n) as [->|E]; [apply universalRange_ok|].
  exact (proj1 (Forall_forall _ _) F _ E).
Qed.

Lemma le_sound r r2 v : range_ok r → range_ok r2 → Range.le r r2 = true → contains r v → contains r2 v.
Proof.
  intros S1 S2. destruct (difference_spec r r2 S1 S2) as [_ M]. unfold Range.le, Range.empty.
  case_match eqn:E; [|done]. intros _ C. apply dec_stable. intros N.
  assert (contains (Range.difference r r2) v) as D by (by apply M). unfold contains in D. rewrite E in D. by apply mem_nil in D.
Qed.

(** The loop of the difference: the fields of the other set that are met are included, but for the
    ones counted, of which [key] is the last. *)
Lemma minus_loop_spec φ l l2 n key m key' :
  Forall (λ e, range_ok e.2) l → Forall (λ e, range_ok e.2) l2 → in_ranges φ l →
  RangeSet.minus_loop n key l l2 = Some (m, key', true) →
  (n ≤ m)%nat ∧ (m = n → key' = key ∧ in_ranges φ l2) ∧
  (m = S n → Forall (λ e, e.1 = key' ∨ contains e.2 (φ e.1)) l2).
Proof.
  revert n key l2. induction l as [|i l IH]; intros n key [|j l2] F1 F2 In E.
  - injection E as -> ->. split; [done|]. split; [by repeat constructor|lia].
  - discriminate.
  - injection E as -> ->. split; [done|]. split; [by repeat constructor|lia].
  - cbn [RangeSet.minus_loop] in E. inversion F1 as [|? ? F1i F1l]; subst. inversion F2 as [|? ? F2j F2l]; subst.
    inversion In as [|? ? Ini Inl]; subst. destruct (n <? 2)%nat; [|discriminate].
    destruct (strcmp i.1 j.1 =? 0) eqn:E1.
    + apply Z.eqb_eq, strcmp_eq0 in E1. destruct (Range.le i.2 j.2) eqn:E2.
      * assert (contains j.2 (φ j.1)) by (rewrite <- E1; by apply (le_sound i.2)).
        apply IH in E as (L & A & B); [|done..]. split; [done|]. split.
        -- intros ->. destruct (A eq_refl) as [-> ?]. split; [done|by constructor].
        -- intros ->. constructor; [by right|by apply B].
      * apply IH in E as (L & A & _); [|done..]. split; [lia|]. split; [lia|]. intros ->. destruct (A eq_refl) as [-> ?].
        constructor; [by left|]. eapply Forall_impl; [done|]. auto.
    + destruct (strcmp i.1 j.1 <? 0); [|discriminate]. by apply IH in E.
Qed.

(** C34: the difference of two sets keeps every assignment of the first that is not in the second, and
    adds none. *)
Theorem rangeset_difference s other φ :
  set_ok s → set_ok other →
  (satisfies s φ → ¬ satisfies other φ → satisfies (RangeSet.difference s other) φ) ∧
  (satisfies (RangeSet.difference s other) φ → satisfies s φ).
Proof.
  intros [S1 F1] [S2 F2]. unfold RangeSet.difference.
  destruct (RangeSet.minus_loop 0 [] (_ranges s) (_ranges other)) as [[[m key] [|]]|] eqn:E; cbn [negb]; [|done..].
  destruct (1 <? m)%nat eqn:E1; [done|]. apply Nat.ltb_ge in E1. destruct (m =? 0)%nat eqn:E2; bool_facts.
  - subst m. split.
    + intros In N. apply (minus_loop_spec φ) in E as (_ & [_ ?]%(λ f, f eq_refl) & _); done.
    + unfold satisfies, in_ranges. cbn. rewrite Forall_map. intros F. eapply Forall_impl; [exact F|]. cbn. intros e C. by apply mem_nil in C.
  - assert (m = 1%nat) as -> by lia. clear E1 E2.
    destruct (difference_spec (RangeSet.range s key) (RangeSet.range other key)) as [_ M]; [by apply lookup_ok..|]. split.
    + intros In N. apply (minus_loop_spec φ) in E as (_ & _ & F%(λ f, f eq_refl)); [|done..].
      unfold satisfies, in_ranges. cbn. apply map_assign_Forall; [done|]. cbn. apply M. split; [by apply lookup_contains|].
      intros C. apply N. unfold satisfies, in_ranges. rewrite Forall_forall in F |- *. intros e He.
      destruct (F e He) as [<-|]; [|done]. unfold RangeSet.range in C. by rewrite (lookup_elem _ e S2 He) in C.
    + unfold satisfies, in_ranges. cbn. intros [C F]%map_assign_inv. apply M in C as [C _].
      eapply Forall_impl; [eapply Forall_and; split; [exact F|apply Forall_forall; intros e He; exact He]|].
      cbn. intros e [[<-|?] He]; [|done]. unfold RangeSet.range in C. by rewrite (lookup_elem _ e S1 He) in C.
Qed.

Lemma and_loop_superset singleKey φ l l2 :
  Forall (λ e, range_ok e.2) l → Forall (λ e, range_ok e.2) l2 → in_ranges φ l → in_ranges φ l2 →
  in_ranges φ (RangeSet.and_loop singleKey l l2).
Proof.
  revert l2. induction l as [|i l IH]; intros l2; induction l2 as [|j l2 IH2]; intros F1 F2 I1 I2; try done.
  cbn [RangeSet.and_loop]. inversion F1; subst. inversion F2; subst. inversion I1; subst. inversion I2; subst.
  destruct (strcmp i.1 j.1 =? 0) eqn:E; [|destruct (strcmp i.1 j.1 <? 0)].
  - apply Z.eqb_eq, strcmp_eq0 in E. constructor; [|by apply IH]. cbn. apply intersect_superset; try done. by rewrite E.
  - constructor; [done|]. apply IH; try done.
  - constructor; [done|]. by apply IH2.
Qed.

Lemma and_loop_exact φ l l2 :
  Forall (λ e, range_ok e.2 ∧ Range.universal e.2 = false) l → Forall (λ e, range_ok e.2) l2 →
  in_ranges φ (RangeSet.and_loop true l l2) → in_ranges φ l ∧ in_ranges φ l2.
Proof.
  revert l2. induction l as [|i l IH]; intros l2; induction l2 as [|j l2 IH2]; intros F1 F2 I1; try (by split; [|constructor]).
  - split; [constructor|done].
  - cbn [RangeSet.and_loop] in I1. inversion F1 as [|? ? [O1 U1]]; subst. inversion F2; subst.
    destruct (strcmp i.1 j.1 =? 0) eqn:E; [|destruct (strcmp i.1 j.1 <? 0)]; inversion I1 as [|? ? Ie Ir]; subst.
    + apply Z.eqb_eq, strcmp_eq0 in E. apply IH in Ir as [? ?]; [|done..]. cbn in Ie.
      unfold contains, Range.intersect in Ie. rewrite U1 in Ie. cbn [negb andb] in Ie.
      apply intersect_loop_spec in Ie as [? ?]; [|done..]. rewrite E in *. split; constructor; try done. by rewrite E.
    + apply IH in Ir as [? ?]; [|done..]. split; [by constructor|done].
    + apply IH2 in Ir as [? ?]; [|done..]. split; [done|by constructor].
Qed.

(** The intersection of two sets keeps every assignment that is in both; on a single key index it
    keeps no other, when none of the ranges of the first set passes for universal. *)
Theorem rangeset_intersection s other φ :
  set_ok s → set_ok other →
  (satisfies s φ → satisfies other φ → satisfies (RangeSet.intersection s other) φ) ∧
  (_singleKey s = true → Forall (λ e, Range.universal e.2 = false) (_ranges s) →
   satisfies (RangeSet.intersection s other) φ → satisfies s φ ∧ satisfies other φ).
Proof.
  intros [_ F1] [_ F2]. split.
  - intros. by apply and_loop_superset.
  - intros Sk U. unfold satisfies, RangeSet.intersection. cbn. rewrite Sk. apply and_loop_exact; [|done].
    eapply Forall_and. by split.
Qed.

(** Where the planner reports a match impossible for an index, no assignment is in the set. *)
Theorem rangeset_match_impossible s keyPattern φ :
  set_ok s → RangeSet.matchPossibleForIndex s keyPattern = false → ¬ satisfies s φ.
Proof.
  intros [S F]. unfold RangeSet.matchPossibleForIndex. destruct (_singleKey s); cbn [negb].
  - induction keyPattern as [|n ks IH]; cbn; [done|]. case_bool_decide; [done|].
    destruct (Range.empty (RangeSet.range s n)) eqn:E; [|done]. intros _ In.
    pose proof (lookup_contains (_ranges s) n φ In) as C. unfold RangeSet.range, Range.empty, contains in *.
    destruct (_intervals (RangeSet.lookup n (_ranges s))); [by apply mem_nil in C|done].
  - unfold RangeSet.matchPossible. intros E In. apply not_true_iff_false in E. apply E, forallb_forall. intros e He%list_elem_of_In.
    pose proof (proj1 (Forall_forall _ _) In e He) as C. unfold Range.empty, contains in *. cbn in C.
    destruct (_intervals e.2); [by apply mem_nil in C|done].
Qed.

(** *** Every operation keeps the map sorted and the ranges separated. *)

Lemma ranges_ok_assign l n r : ranges_ok l → range_ok r → ranges_ok (map_assign name_lt n r l).
Proof. intros [S F] R. split; [by apply (map_assign_sorted name_lt)|by apply map_assign_Forall]. Qed.

Lemma foldl_ranges_ok {A} (f : FieldRangeSet K → A → FieldRangeSet K) (P : A → Prop) xs s :
  (∀ s x, set_ok s → P x → set_ok (f s x)) → Forall P xs → set_ok s → set_ok (foldl f s xs).
Proof. intros Hf F. revert s. induction F; cbn; auto. Qed.

Lemma and_loop_elem singleKey l l2 e :
  e ∈ RangeSet.and_loop singleKey l l2 → ∃ e', e'.1 = e.1 ∧ (e' ∈ l ∨ e' ∈ l2).
Proof.
  revert l2. induction l as [|i l IH]; intros l2; induction l2 as [|j l2 IH2]; try by eauto.
  cbn [RangeSet.and_loop]. destruct (strcmp i.1 j.1 =? 0); [|destruct (strcmp i.1 j.1 <? 0)]; intros [->|E]%elem_of_cons.
  - exists i. set_solver.
  - destruct (IH _ E) as (e' & ? & ?). exists e'. set_solver.
  - exists i. set_solver.
  - destruct (IH _ E) as (e' & ? & ?). exists e'. set_solver.
  - exists j. set_solver.
  - destruct (IH2 E) as (e' & ? & ?). exists e'. set_solver.
Qed.

Lemma and_loop_ok singleKey l l2 : ranges_ok l → ranges_ok l2 → ranges_ok (RangeSet.and_loop singleKey l l2).
Proof.
  revert l2. induction l as [|i l IH]; intros l2; induction l2 as [|j l2 IH2]; try done. intros O1 O2.
  pose proof O1 as [[S1 S1']%sl_sorted_cons F1]. pose proof O2 as [[S2 S2']%sl_sorted_cons F2].
  inversion F1 as [|? ? Fi Fl]; subst. inversion F2 as [|? ? Fj Fl2]; subst.
  assert (∀ (x : list Z * FieldRange K) rest, range_ok x.2 → ranges_ok rest → (∀ e, e ∈ rest → name_lt x.1 e.1 = true) → ranges_ok (x :: rest)) as Cons.
  { intros x rest Ox [Sr Fr] Lt. split; [apply (sl_sorted_cons fst name_lt); by split|by constructor]. }
  cbn [RangeSet.and_loop]. destruct (strcmp i.1 j.1 =? 0) eqn:E; [|destruct (strcmp i.1 j.1 <? 0) eqn:E'].
  - apply Z.eqb_eq, strcmp_eq0 in E. apply Cons; [by apply intersect_ok|by apply IH|].
    intros e (e' & <- & [?|?])%and_loop_elem; cbn; [by apply S1|rewrite E; by apply S2].
  - apply Cons; [done|by apply IH|]. intros e (e' & <- & [?|[->|?]%elem_of_cons])%and_loop_elem; [by apply S1|done|].
    eapply ltb_trans; [exact E'|by apply S2].
  - apply Cons; [done|by apply IH2|].
    assert (name_lt j.1 i.1 = true) as L by (unfold name_lt; pose proof (strcmp_opp i.1 j.1); bool_facts; lia).
    intros e (e' & <- & [[->|?]%elem_of_cons|?])%(and_loop_elem singleKey (i :: l)); [done| |by apply S2].
    eapply ltb_trans; [exact L|by apply S1].
Qed.

(** Every operation on a set of ranges gives a map sorted by field name whose ranges are
    separated intervals in ascending order. *)
Theorem rangeset_type s other fields prefix :
  set_ok s → set_ok other →
  set_ok (RangeSet.intersection s other) ∧ set_ok (RangeSet.difference s other) ∧
  set_ok (RangeSet.makeEmpty s) ∧ set_ok (RangeSet.subset s fields) ∧ set_ok (RangeSet.prefixed s prefix).
Proof.
  intros O1 O2. pose proof O1 as [S1 F1]. pose proof O2 as [S2 F2].
  assert (set_ok (RangeSet.makeEmpty s)) as Oe.
  { split; cbn; [|rewrite Forall_map; by apply Forall_forall]. clear -S1. unfold sl_sorted in *. cbn.
    induction S1; cbn; constructor; [done|]. by rewrite Forall_map. }
  assert (set_ok (RangeSet.fresh s)) as Of by (by repeat constructor).
  split; [by apply and_loop_ok|]. split; [|split; [done|split]].
  - unfold RangeSet.difference. destruct (RangeSet.minus_loop _ _ _ _) as [[[m key] []]|]; [|done..]. cbn [negb].
    destruct (1 <? m)%nat; [done|]. destruct (m =? 0)%nat; [done|]. apply ranges_ok_assign; [done|].
    apply difference_spec; by apply lookup_ok.
  - apply (foldl_ranges_ok _ (λ _, True)); [|by apply Forall_forall|done]. intros s' n O' _.
    destruct (Range.universal _); [done|]. apply ranges_ok_assign; [done|by apply lookup_ok].
  - eapply foldl_ranges_ok; [|exact F1|done]. intros s' n O' R. by apply ranges_ok_assign.
Qed.

End Sets.

(** ** Witnesses *)

Module RangeSetExample.
Import RangeExample.

Definition nothing : FieldRange elem := mkRange [] [] true None.
Definition two : FieldRangeSet elem := mkRangeSet [([97], outside); ([98], inside)] [] true true true.
Definition one : FieldRangeSet elem := mkRangeSet [([97], inside)] [] true true true.
Definition none : FieldRangeSet elem := mkRangeSet [([97], outside); ([98], nothing)] [] true true true.

(** a is 1 or the least element, every other field is 5. *)
Definition values (name : list Z) : elem := if bool_decide (name = [97]) then e1 else e5.
Definition values_min (name : list Z) : elem := if bool_decide (name = [97]) then minKey else e5.

#[local] Instance satisfies_dec s φ : Decision (satisfies (K:=elem) s φ).
Proof. unfold satisfies, in_ranges, contains. apply _. Defined.

Lemma two_ok : set_ok two.
Proof. split; [by repeat constructor|]. constructor; [apply outside_ok|]. constructor; [apply inside_ok|constructor]. Qed.
Lemma one_ok : set_ok one.
Proof. split; [by repeat constructor|]. constructor; [apply inside_ok|constructor]. Qed.
Lemma none_ok : set_ok none.
Proof. split; [by repeat constructor|]. constructor; [apply outside_ok|]. by repeat constructor. Qed.

Lemma rangeset_difference_witness : satisfies (RangeSet.difference two one) values_min.
Proof.
  apply (rangeset_difference two one values_min); [apply two_ok|apply one_ok|..].
  - apply (bool_decide_eq_true_1 _). by vm_compute.
  - apply (bool_decide_eq_false_1 _). by vm_compute.
Defined.

Lemma rangeset_intersection_witness : satisfies (RangeSet.intersection two one) values.
Proof.
  apply (rangeset_intersection two one values); [apply two_ok|apply one_ok|..].
  - apply (bool_decide_eq_true_1 _). by vm_compute.
  - apply (bool_decide_eq_true_1 _). by vm_compute.
Defined.

Lemma rangeset_match_impossible_witness : ¬ satisfies none values.
Proof. apply (rangeset_match_impossible none [[98]; [97]] values); [apply none_ok|by vm_compute]. Defined.

Lemma rangeset_type_witness : set_ok (RangeSet.intersection two one) ∧ set_ok (RangeSet.difference two one).
Proof.
  destruct (rangeset_type two one [[97]] [97]) as (A & B & _); [apply two_ok|apply one_ok|]. by split.
Defined.
End RangeSetExample.
