(* ===== verification/FieldRangeVector.v ===== *)
(** * Ranges for the fields of an index

    Models [FieldRangeVector] of db/queryutil.h and db/queryutil.cpp: the ranges of a query for the
    fields of an index, in the order and direction of a scan, with the start and the end of the scan
    and the test of a key.

    A key is the list of its values, a key pattern the list of its field names with their numbers
    (whole numbers here).  [FieldRange::elemMatchContext] is compared by address ([rawdata()]), which
    is a parameter.

    The binary search of [matchingLowElement] is shown to find the interval that holds an element, or
    the gap it is in ([search_spec]), on intervals that are separated in the direction of the field. *)

From S2P Require Import Prelude StdContainers DocOrder Bson BsonOrder FieldElement FieldRange FieldRangeSet.
#[local] Open Scope Z_scope.

Record FieldRangeVector (K : Type) := mkVector {
  frv_ranges : list (FieldRange K);
  _keyPattern : list (list Z * Z);
  _direction : Z;
  _hasAllIndexedRanges : bool
}.
Arguments mkVector {_}. Arguments frv_ranges {_}. Arguments _keyPattern {_}. Arguments _direction {_}.
Arguments _hasAllIndexedRanges {_}.

Module Vector.
Section vector.
Context `{FieldElement K}.
Implicit Types (v : FieldRangeVector K) (r : FieldRange K).

(** [( number >= 0 ? 1 : -1 ) * ( direction >= 0 ? 1 : -1 ) > 0] *)
Definition forward (number direction : Z) : bool :=
  0 <? (if 0 <=? number then 1 else -1) * (if 0 <=? direction then 1 else -1).

(** [str::before( fieldName, '.' )] *)
Fixpoint before_dot (s : list Z) : list Z :=
  match s with [] => [] | c :: s' => if c =? 46 then [] else c :: before_dot s' end.

Definition MAX_IN_COMBINATIONS : Z := 4000000.

(** [size()]; [None] where the [verify] against overflow fails. *)
Fixpoint size_from (ret : Z) (l : list (FieldRange K)) : option Z :=
  match l with
  | [] => Some ret
  | r :: l' =>
      let product := u64 (ret * Z.of_nat (length (_intervals r))) in
      if Z.shiftr product 32 =? 0 then size_from (u32 product) l' else None
  end.
Definition size (l : list (FieldRange K)) : option Z := size_from 1 l.

(** The constructor.  [verify] fails with 0, the combinatorial limit with 13385. *)
Section ctor.
Context (rawdata_eq : K → K → bool) (frs : FieldRangeSet K) (direction : Z).

(** One field of the key pattern: its range, and what is known of the top fields afterwards. *)
Definition choose_range (name : list Z) (ctxs : list (list Z * option K)) (has : bool)
  : FieldRange K * list (list Z * option K) * bool :=
  let range := RangeSet.range frs name in
  if _singleKey frs then (range, ctxs, has)
  else
    let topField := before_dot name in
    match sl_find fst name_lt topField ctxs with
    | None =>
        if Range.universal range then (range, ctxs, has)
        else (range, sl_insert fst name_lt (topField, _elemMatchContext range) ctxs, has)
    | Some c =>
        if match _elemMatchContext range, c.2 with Some a, Some b => rawdata_eq a b | _, _ => false end
        then (range, ctxs, has)
        else (RangeSet.universalRange, ctxs, false)
    end.

Fixpoint ctor_loop (keyPattern : list (list Z * Z)) (ctxs : list (list Z * option K)) (has : bool)
  (acc : list (FieldRange K)) : result Z (list (FieldRange K) * bool) :=
  match keyPattern with
  | [] => Ok (acc, has)
  | (name, number) :: keyPattern' =>
      if Range.empty (RangeSet.range frs name) then Err 0
      else
        let '(range, ctxs, has) := choose_range name ctxs has in
        if forward number direction then ctor_loop keyPattern' ctxs has (acc ++ [range])
        else match Range.reverse range RangeSet.universalRange with
             | None => Err 0
             | Some r => ctor_loop keyPattern' ctxs has (acc ++ [r])
             end
  end.

Definition make (keyPattern : list (list Z * Z)) : result Z (FieldRangeVector K) :=
  if negb (RangeSet.matchPossibleForIndex frs (map fst keyPattern)) then Err 0
  else
    match ctor_loop keyPattern [] true [] with
    | Err x => Err x
    | Ok (ranges, has) =>
        match size ranges with
        | None => Err 0
        | Some n =>
            if MAX_IN_COMBINATIONS <=? n then Err 13385
            else Ok (mkVector ranges keyPattern (if 0 <=? direction then 1 else -1) has)
        end
    end.
End ctor.

Definition universalOrReverseUniversalRange r : bool :=
  if Range.universal r then true
  else if negb (length (_intervals r) =? 1)%nat then false
  else match Range.min r, Range.max r with
       | Some a, Some b => (woCompare a maxKey =? 0) && (woCompare b minKey =? 0)
       | _, _ => false
       end.

Fixpoint single_from (l : list (FieldRange K)) : bool :=
  match l with
  | [] => true
  | r :: l' =>
      if Range.equality r then single_from l'
      else if negb (length (_intervals r) =? 1)%nat then false
      else forallb universalOrReverseUniversalRange l'
  end.
Definition isSingleInterval v : bool := single_from (frv_ranges v).

(** The start and the end of a traversal: bounds up to the first exclusive one, then extremes.
    [None] where [front()] of an empty range is taken. *)
Fixpoint extremes (hi lo : K) (direction : Z) (l : list (FieldRange K)) (pattern : list (list Z * Z)) : list K :=
  match l, pattern with
  | _ :: l', (_, number) :: pattern' =>
      (if 0 <? (if 0 <=? number then 1 else -1) * direction then hi else lo) :: extremes hi lo direction l' pattern'
  | _, _ => []
  end.

Fixpoint start_from (direction : Z) (l : list (FieldRange K)) (pattern : list (list Z * Z)) : option (list K) :=
  match l, pattern with
  | r :: l', p :: pattern' =>
      fi ← head (_intervals r);
      rest ← (if _inclusive (_lower fi) then start_from direction l' pattern'
              else Some (extremes maxKey minKey direction l' pattern'));
      Some (_bound (_lower fi) :: rest)
  | _, _ => Some []
  end.
Definition startKey v : option (list K) := start_from (_direction v) (frv_ranges v) (_keyPattern v).

Fixpoint end_from (direction : Z) (l : list (FieldRange K)) (pattern : list (list Z * Z)) : option (list K) :=
  match l, pattern with
  | r :: l', p :: pattern' =>
      fi ← last (_intervals r);
      rest ← (if _inclusive (_upper fi) then end_from direction l' pattern'
              else Some (extremes minKey maxKey direction l' pattern'));
      Some (_bound (_upper fi) :: rest)
  | _, _ => Some []
  end.
Definition endKey v : option (list K) := end_from (_direction v) (frv_ranges v) (_keyPattern v).

Definition startKeyInclusive v : bool :=
  forallb (λ r, match head (_intervals r) with Some fi => _inclusive (_lower fi) | None => false end) (frv_ranges v).

(** [endKeyInclusive] looks at the first interval, as the code does. *)
Definition endKeyInclusive v : bool :=
  forallb (λ r, match head (_intervals r) with Some fi => _inclusive (_upper fi) | None => false end) (frv_ranges v).

Definition prefixedByPointInterval v : bool :=
  match frv_ranges v with r :: _ => Range.isPointIntervalSet r | [] => false end.

(** The bound of number [m]: lower bounds have even numbers. *)
Definition bound_at (l : list (FieldInterval K)) (m : Z) : option (FieldBound K) :=
  (λ i, if m mod 2 =? 0 then _lower i else _upper i) <$> l !! Z.to_nat (m / 2).

(** [matchingLowElement]: binary search; [None] when [fuel] runs out or a bound is missing. *)
Fixpoint search (fuel : nat) (ivs : list (FieldInterval K)) (e : K) (forward : bool) (l h : Z) : option (Z * bool) :=
  match fuel with
  | O => None
  | S fuel =>
      if l + 1 <? h then
        let m := Z.quot (l + h) 2 in
        b ← bound_at ivs m;
        let cmp := woCompare (_bound b) e in
        let cmp := if forward then cmp else - cmp in
        if cmp <? 0 then search fuel ivs e forward m h
        else if 0 <? cmp then search fuel ivs e forward l m
        else
          let ret := if ((m mod 2 =? 0) && negb (_inclusive b)) || ((m mod 2 =? 1) && _inclusive b) then m - 1 else m in
          Some (ret, m mod 2 =? 0)
      else if l + 1 =? h then Some (l, false) else None
  end.

Definition matchingLowElement (ivs : list (FieldInterval K)) (e : K) (forward : bool) : option (Z * bool) :=
  search (S (S (2 * length ivs))) ivs e forward (-1) (Z.of_nat (length ivs) * 2).

Definition matchesElement (ivs : list (FieldInterval K)) (e : K) (forward : bool) : option bool :=
  l ← matchingLowElement ivs e forward; Some (Z.rem l.1 2 =? 0).

Fixpoint matches_from (direction : Z) (l : list (FieldRange K)) (pattern : list (list Z * Z)) (key : list K) : option bool :=
  match l, pattern, key with
  | r :: l', (_, number) :: pattern', e :: key' =>
      b ← matchesElement (_intervals r) e (forward number direction);
      if (b : bool) then matches_from direction l' pattern' key' else Some false
  | [], _, _ => Some true
  | _, _, _ => None
  end.
Definition matchesKey v (key : list K) : option bool := matches_from (_direction v) (frv_ranges v) (_keyPattern v) key.

End vector.
End Vector.

(** ** The order of a scan *)

Definition dir_sign (reverse : bool) (val : Z) : Z := if reverse then - val else val.

(** The elements in the direction of a field: backwards when [reverse]. *)
Definition dir_elem `{FieldElement K} (reverse : bool) : FieldElement K := {|
  field_cmp := λ a b, dir_sign reverse (woCompare a b);
  woCompareNamed := λ a b, dir_sign reverse (woCompareNamed a b);
  minKey := if reverse then maxKey else minKey;
  maxKey := if reverse then minKey else maxKey
|}.

Lemma dir_total `{FieldElementLaws K} reverse : @TotalOrd K (@field_cmp K (dir_elem reverse)).
Proof.
  split; cbn; unfold dir_sign, woCompare; destruct reverse.
  - intros a b. pose proof (woCompare_opp a b). unfold woCompare in *. lia.
  - apply woCompare_opp.
  - intros a b c. pose proof (woCompare_trans c b a). pose proof (woCompare_opp a b). pose proof (woCompare_opp b c).
    pose proof (woCompare_opp a c). unfold woCompare in *. lia.
  - apply woCompare_trans.
Qed.

Section Search.
Context `{FieldElement K} `{!TotalOrd K}.
Implicit Types (e : K) (l : list (FieldInterval K)).

Lemma above_lookup c l q j : above (Some c) l → l !! q = Some j → ¬ kle (lo j) c.
Proof.
  revert c q. induction l as [|y l IH]; [done|]. intros c [|q] (A & W & A'); cbn; [by intros [= ->]|].
  intros Hq. pose proof (IH _ _ A' Hq). korder.
Qed.

(** In separated lists the position of an interval tells where its values are. *)
Lemma separated_lookup l p q i j :
  separated l → l !! p = Some i → l !! q = Some j → (p < q)%nat → ¬ kle (lo j) (up i).
Proof.
  revert p q. induction l as [|x l IH]; [done|]. intros [|p] [|q] (_ & W & A); cbn; try lia.
  - intros [= ->] Hq _. by eapply above_lookup.
  - intros Hp Hq L. apply (IH p q); [by eapply above_separated|done|done|lia].
Qed.

Lemma separated_valid l p i : separated l → l !! p = Some i → ¬ kle (up i) (lo i).
Proof.
  revert p. induction l as [|x l IH]; [done|]. intros [|p] (_ & W & A); cbn; [by intros [= ->]|].
  apply IH. by eapply above_separated.
Qed.

Lemma below_later l p q i j x :
  separated l → l !! q = Some j → l !! p = Some i → (q ≤ p)%nat → below x (up j) → below x (up i).
Proof.
  intros Sp Hq Hp L B. destruct (decide (p = q)) as [->|]; [by simplify_eq|].
  pose proof (separated_lookup _ _ _ _ _ Sp Hq Hp ltac:(lia)). pose proof (separated_valid _ _ _ Sp Hp). unfold below in *. korder.
Qed.

Lemma cut_same (x y : K) b : kle (Cut x b) (Cut y b) ↔ kle x y.
Proof. unfold kle. rewrite cut_compare. cbn. crush_cmp. Qed.

Lemma index_mono l p q i j x y :
  separated l → l !! p = Some i → l !! q = Some j → inb x i → inb y j → kle x y → (p ≤ q)%nat.
Proof.
  intros S Hp Hq [I1 I2] [J1 J2] L. destruct (decide (p ≤ q)%nat) as [|N]; [done|]. exfalso.
  pose proof (separated_lookup _ _ _ _ _ S Hq Hp ltac:(lia)) as B. unfold below in *.
  apply (cut_same _ _ true) in L. korder.
Qed.

Lemma index_unique l p q i j x :
  separated l → l !! p = Some i → l !! q = Some j → inb x i → inb x j → p = q.
Proof.
  intros S Hp Hq I J. pose proof (kle_refl x).
  pose proof (index_mono _ _ _ _ _ _ _ S Hp Hq I J H0). pose proof (index_mono _ _ _ _ _ _ _ S Hq Hp J I H0). lia.
Qed.

Lemma mem_lookup v l : mem v l ↔ ∃ q i, l !! q = Some i ∧ inb v i.
Proof.
  unfold mem. rewrite Exists_exists. split.
  - intros (i & [q Hq]%list_elem_of_lookup & I). eauto.
  - intros (q & i & Hq & I). exists i. split; [by eapply list_elem_of_lookup_2|done].
Qed.

(** Elements with the same order are in the same intervals. *)
Lemma inb_equiv (x y : K) i : kle x y → kle y x → inb x i → inb y i.
Proof.
  intros L1 L2 [I1 I2]. unfold inb, below in *.
  apply (cut_same _ _ true) in L1, L2. split; korder.
Qed.

(** Two elements of a point interval have the same order. *)
Lemma point_equiv (x y : K) i : Interval.equality i = true → inb x i → inb y i → kle x y.
Proof.
  unfold Interval.equality, inb, below, lo, up. destruct i as [[a []] [b []]]; cbn; try done. intros E [I1 I2] [J1 J2].
  apply woCompare_eq in E as [E1 E2].
  apply cut_same in I2. apply cut_adjacent, cut_same in J1. korder.
Qed.

(** *** The binary search *)

Lemma below_cut e b x : below e (Cut b x) ↔ if x then kle e b else ¬ kle b e.
Proof. unfold below. cut_cases e b. destruct x; cbn [Z.b2z]; crush_cmp. Qed.

(** Decides a fact on the bounds of an interval from the order of their values. *)
Ltac bound_order :=
  cbn; repeat split; first [korder | let X := fresh in intros X; apply X; korder].

(** [e] is in interval [q], or between the intervals before [q] and the others. *)
Definition in_at l e (q : nat) : Prop := ∃ i, l !! q = Some i ∧ inb e i.
Definition between l e (q : nat) : Prop :=
  (q ≤ length l)%nat ∧ (∀ p i, (p < q)%nat → l !! p = Some i → ¬ below e (up i)) ∧
  (∀ p i, (q ≤ p)%nat → l !! p = Some i → below e (lo i)).

Lemma between_local l e q :
  separated l → (q ≤ length l)%nat →
  (∀ i, (0 < q)%nat → l !! (q - 1)%nat = Some i → ¬ below e (up i)) → (∀ i, l !! q = Some i → below e (lo i)) →
  between l e q.
Proof.
  intros S Q L R. split; [done|]. split.
  - intros p i Hp Hi. destruct (decide (p = q - 1)%nat) as [->|N]; [apply L; [lia|done]|].
    destruct (lookup_lt_is_Some_2 l (q - 1)) as [j Hj]; [lia|].
    pose proof (L j ltac:(lia) Hj). pose proof (separated_lookup _ _ _ _ _ S Hi Hj ltac:(lia)).
    pose proof (separated_valid _ _ _ S Hj). unfold below in *. korder.
  - intros p i Hp Hi. destruct (decide (p = q)) as [->|N]; [by apply R|].
    destruct (lookup_lt_is_Some_2 l q) as [j Hj]; [apply lookup_lt_Some in Hi; lia|].
    pose proof (R j Hj). pose proof (separated_lookup _ _ _ _ _ S Hj Hi ltac:(lia)).
    pose proof (separated_valid _ _ _ S Hj). unfold below in *. korder.
Qed.

(** What the search returns: twice the interval, or the odd number before it. *)
Definition found l e (x : Z) (lowEquality : bool) : Prop :=
  (∃ q, x = 2 * Z.of_nat q ∧ in_at l e q) ∨
  (∃ q, x = 2 * Z.of_nat q - 1 ∧ between l e q ∧
        (lowEquality = true → ∃ i, l !! q = Some i ∧ kle e (_bound (_lower i)) ∧ kle (_bound (_lower i)) e)).

(** The bounds strictly below and above [e] between which the search looks *)
Definition low_ok l e (x : Z) : Prop := x = -1 ∨ ∃ b, Vector.bound_at l x = Some b ∧ ¬ kle e (_bound b).
Definition high_ok l e (x : Z) : Prop :=
  x = 2 * Z.of_nat (length l) ∨ ∃ b, Vector.bound_at l x = Some b ∧ ¬ kle (_bound b) e.

Lemma bound_at_even l q : Vector.bound_at l (2 * Z.of_nat q) = _lower <$> l !! q.
Proof.
  unfold Vector.bound_at. rewrite (Z.mul_comm 2), Z.mod_mul, Z.div_mul, Nat2Z.id by lia. by destruct (l !! q).
Qed.

Lemma bound_at_odd l q : Vector.bound_at l (2 * Z.of_nat q + 1) = _upper <$> l !! q.
Proof.
  unfold Vector.bound_at. rewrite Z.add_comm, (Z.mul_comm 2), Z.mod_add, Z.div_add by lia.
  change (1 / 2) with 0. rewrite Z.add_0_l, Nat2Z.id. by destruct (l !! q).
Qed.

Lemma parity x : -1 <= x → ∃ q, x = 2 * Z.of_nat q ∨ x = 2 * Z.of_nat q - 1.
Proof.
  intros X. exists (Z.to_nat ((x + 1) / 2)). pose proof (Z.div_mod (x + 1) 2 ltac:(lia)). pose proof (Z.mod_pos_bound (x + 1) 2 ltac:(lia)).
  rewrite Z2Nat.id by (apply Z.div_pos; lia). lia.
Qed.

Lemma search_end l e x : separated l → -1 <= x < 2 * Z.of_nat (length l) → low_ok l e x → high_ok l e (x + 1) → found l e x false.
Proof.
  intros S X Lo Hi. destruct (parity x ltac:(lia)) as [q [->| ->]].
  - left. exists q. split; [done|]. destruct Lo as [?|(b & Eb & Lb)]; [lia|]. rewrite bound_at_even in Eb.
    destruct Hi as [?|(c & Ec & Lc)]; [lia|]. rewrite bound_at_odd in Ec.
    destruct (l !! q) as [i|] eqn:Ei; [|done]. cbn in Eb, Ec. simplify_eq. exists i. split; [done|].
    unfold inb, lo, up. rewrite !below_cut. destruct (_inclusive (_lower i)), (_inclusive (_upper i)); bound_order.
  - right. exists q. split; [done|]. split; [|done]. apply between_local; [done|lia| |].
    + intros i Hq Ei. destruct Lo as [?|(b & Eb & Lb)]; [lia|].
      replace (2 * Z.of_nat q - 1) with (2 * Z.of_nat (q - 1) + 1) in Eb by lia. rewrite bound_at_odd, Ei in Eb. cbn in Eb. simplify_eq.
      unfold up. rewrite below_cut. destruct (_inclusive (_upper i)); bound_order.
    + intros i Ei. replace (2 * Z.of_nat q - 1 + 1) with (2 * Z.of_nat q) in Hi by lia.
      destruct Hi as [?|(c & Ec & Lc)]; [apply lookup_lt_Some in Ei; lia|]. rewrite bound_at_even, Ei in Ec. cbn in Ec. simplify_eq.
      unfold lo. rewrite below_cut. destruct (_inclusive (_lower i)); bound_order.
Qed.

Lemma search_hit l e m b :
  separated l → 0 <= m → Vector.bound_at l m = Some b → kle (_bound b) e → kle e (_bound b) →
  found l e (if ((m mod 2 =? 0) && negb (_inclusive b)) || ((m mod 2 =? 1) && _inclusive b) then m - 1 else m) (m mod 2 =? 0).
Proof.
  intros Sp M Eb L1 L2. assert (∃ q, m = 2 * Z.of_nat q ∨ m = 2 * Z.of_nat q + 1) as [q Hq].
  { destruct (parity m ltac:(lia)) as [q [?|?]]; [exists q; lia|exists (q - 1)%nat; lia]. }
  assert (∃ i, l !! q = Some i) as [i Ei].
  { destruct Hq as [->| ->]; [rewrite bound_at_even in Eb|rewrite bound_at_odd in Eb]; destruct (l !! q); eauto; done. }
  pose proof (separated_valid _ _ _ Sp Ei) as W. pose proof (lookup_lt_Some _ _ _ Ei) as Lt.
  pose proof (proj2 (cut_same _ _ true) L1) as T1. pose proof (proj2 (cut_same _ _ true) L2) as T2.
  pose proof (proj2 (cut_same _ _ false) L1) as F1. pose proof (proj2 (cut_same _ _ false) L2) as F2.
  destruct Hq as [->| ->].
  - rewrite bound_at_even, Ei in Eb. cbn in Eb. simplify_eq.
    replace ((2 * Z.of_nat q) mod 2) with 0 by (apply (Z.mod_unique _ _ (Z.of_nat q)); lia). change (0 =? 0) with true. change (0 =? 1) with false.
    unfold lo in W. destruct (_inclusive (_lower i)) eqn:Inc; cbn [negb andb orb] in *.
    + left. exists q. split; [lia|]. exists i. split; [done|]. split.
      * unfold lo. rewrite Inc. cbn. apply cut_adjacent. korder.
      * apply cut_adjacent_at. korder.
    + right. exists q. split; [lia|]. split; [|intros _; eauto]. apply between_local; [done|lia| |].
      * intros j Hq Ej. pose proof (separated_lookup _ _ _ _ _ Sp Ej Ei ltac:(lia)) as Sep. unfold lo in Sep. rewrite Inc in Sep.
        cbn in Sep. unfold below. korder.
      * intros j Ej. simplify_eq. unfold lo, below. rewrite Inc. cbn. korder.
  - rewrite bound_at_odd, Ei in Eb. cbn in Eb. simplify_eq.
    replace ((2 * Z.of_nat q + 1) mod 2) with 1 by (apply (Z.mod_unique _ _ (Z.of_nat q)); lia). change (1 =? 0) with false. change (1 =? 1) with true.
    unfold up in W. destruct (_inclusive (_upper i)) eqn:Inc; cbn [negb andb orb] in *.
    + left. exists q. split; [lia|]. exists i. split; [done|]. unfold inb, below. split; [korder|]. unfold up. rewrite Inc. korder.
    + right. exists (S q). split; [lia|]. split; [|done]. apply between_local; [done|lia| |].
      * intros j _ Ej. replace (S q - 1)%nat with q in Ej by lia. simplify_eq. unfold up. rewrite Inc. apply cut_adjacent. korder.
      * intros j Ej. apply cut_adjacent_at. pose proof (separated_lookup _ _ _ _ _ Sp Ei Ej ltac:(lia)) as Sep.
        unfold up in Sep. rewrite Inc in Sep. korder.
Qed.

Lemma search_spec fuel l e x h :
  separated l → -1 <= x < h → h <= 2 * Z.of_nat (length l) → low_ok l e x → high_ok l e h → h - x <= Z.of_nat fuel →
  ∃ y b, Vector.search fuel l e true x h = Some (y, b) ∧ found l e y b.
Proof.
  intros S. revert x h. induction fuel as [|fuel IH]; intros x h X H1 Lo Hi F; [lia|]. cbn [Vector.search].
  destruct (x + 1 <? h) eqn:E; bool_facts.
  - set (m := Z.quot (x + h) 2). assert (x < m < h ∧ 0 <= m) as (M1 & M2).
    { unfold m. rewrite Z.quot_div_nonneg by lia. pose proof (Z.div_mod (x + h) 2 ltac:(lia)). pose proof (Z.mod_pos_bound (x + h) 2 ltac:(lia)). lia. }
    destruct (Vector.bound_at l m) as [b|] eqn:Eb; cbn.
    + destruct (woCompare (_bound b) e <? 0) eqn:C1; [|destruct (0 <? woCompare (_bound b) e) eqn:C2].
      * apply woCompare_lt in C1. apply IH; try done; try lia. right. eauto.
      * apply woCompare_gt in C2. apply IH; try done; try lia. right. eauto.
      * eexists _, _. split; [reflexivity|]. apply search_hit; try done; unfold kle; bool_facts; [lia|].
        pose proof (woCompare_opp (_bound b) e). lia.
    + exfalso. unfold Vector.bound_at in Eb. destruct (l !! Z.to_nat (m / 2)) eqn:El; [done|]. apply lookup_ge_None in El.
      pose proof (Z.div_mod m 2 ltac:(lia)). pose proof (Z.mod_pos_bound m 2 ltac:(lia)).
      pose proof (Z.div_pos m 2 ltac:(lia) ltac:(lia)). lia.
  - assert (h = x + 1) as -> by lia. rewrite Z.eqb_refl. eexists _, _. split; [reflexivity|]. apply search_end; try done. lia.
Qed.

Lemma matchingLow_forward l e :
  separated l → ∃ y b, Vector.matchingLowElement l e true = Some (y, b) ∧ found l e y b.
Proof. intros S. apply search_spec; [done|lia|lia|by left|left; lia|lia]. Qed.
End Search.
