(* ===== verification/RangeIterator.v ===== *)
(** * The iterator over the ranges of an index

    Models [FieldRangeVectorIterator] of db/queryutil.h and db/queryutil.cpp.  A cursor shows the
    iterator the keys it meets, in the order of the scan; [advance] answers whether to take the next
    key, to skip to a later one, or to stop.  The position [_i] is a list of interval numbers, in which
    [None] stands for -1, unknown; it is kept from one call to the next.

    The theorem is about one call: when the position is right for the current key ([pre]), no key in
    the ranges from there on is lost ([resume] says which keys an answer allows), and the position is
    right again at every key that the answer allows.  The limit on the keys of one interval
    ([singleIntervalLimit]), which skips on purpose, is off. *)

From S2P Require Import Prelude StdContainers DocOrder Bson BsonOrder FieldElement FieldRange FieldRangeSet FieldRangeVector.
#[local] Open Scope Z_scope.

(** The iterator: [_i] with its interval count, [_cmp], [_inc] and [_after]. *)
Record iter (K : Type) := mkIter {
  it_i : list (option nat);
  _singleIntervalCount : Z;
  it_cmp : list (option K);
  it_inc : list bool;
  it_after : bool
}.
Arguments mkIter {_}. Arguments it_i {_}. Arguments _singleIntervalCount {_}. Arguments it_cmp {_}.
Arguments it_inc {_}. Arguments it_after {_}.

(** What [advance] returns: -2, -1 or the skip parameter. *)
Inductive advance_result := Complete | NextKey | Skip (r : nat).

Module Iterator.
Section iterator.
Context `{FieldElement K}.
Context (v : FieldRangeVector K) (_singleIntervalLimit : Z).
Implicit Types st : iter K.

Definition intervals_of (i : nat) : list (FieldInterval K) := default [] (_intervals <$> frv_ranges v !! i).

(** *** [CompoundRangeCounter] *)

Definition get st (i : nat) : option nat := default None (it_i st !! i).
Definition set_i (l : list (option nat)) st : iter K := mkIter l 0 (it_cmp st) (it_inc st) (it_after st).
Definition set st (i : nat) (n : nat) : iter K := set_i (<[i := Some n]> (it_i st)) st.
Definition inc st (i : nat) : iter K := set_i (alter (option_map S) i (it_i st)) st.
Definition setZeroes st (i : nat) : iter K := set_i (take i (it_i st) ++ replicate (length (it_i st) - i) (Some 0%nat)) st.
Definition setUnknowns st (i : nat) : iter K := set_i (take i (it_i st) ++ replicate (length (it_i st) - i) None) st.

Definition isTrackingIntervalCounts : bool := 0 <? _singleIntervalLimit.
Definition set_count n st : iter K := mkIter (it_i st) n (it_cmp st) (it_inc st) (it_after st).
Definition incSingleIntervalCount st : iter K :=
  if isTrackingIntervalCounts then set_count (_singleIntervalCount st + 1) st else st.
Definition hasSingleIntervalCountReachedLimit st : bool :=
  isTrackingIntervalCounts && (_singleIntervalLimit <=? _singleIntervalCount st).
Definition resetIntervalCount st : iter K := set_count 0 st.

(** *** [FieldIntervalMatcher]: the comparison with the lower bound of an equality is the one with its
    upper bound. *)

Definition mayReverse (reverse : bool) (val : Z) : Z := if reverse then - val else val.
Definition upperCmp (iv : FieldInterval K) (e : K) (reverse : bool) : Z :=
  mayReverse reverse (woCompare e (_bound (_upper iv))).
Definition lowerCmp (iv : FieldInterval K) (e : K) (reverse : bool) : Z :=
  if Interval.equality iv then upperCmp iv e reverse else mayReverse reverse (woCompare e (_bound (_lower iv))).

Definition isEqInclusiveUpperBound iv e reverse : bool := (upperCmp iv e reverse =? 0) && _inclusive (_upper iv).
Definition isGteUpperBound iv e reverse : bool := 0 <=? upperCmp iv e reverse.
Definition isEqExclusiveLowerBound iv e reverse : bool := (lowerCmp iv e reverse =? 0) && negb (_inclusive (_lower iv)).
Definition isLtLowerBound iv e reverse : bool := lowerCmp iv e reverse <? 0.

(** *** Ways to advance *)

Fixpoint end_from_last (l : list (FieldRange K)) : nat :=
  match l with
  | [] => 0
  | r :: l' => if Vector.universalOrReverseUniversalRange r then end_from_last l' else S (length l')
  end.
Definition endNonUniversalRanges : nat := end_from_last (rev (frv_ranges v)).

Definition set_after (b : bool) st : iter K := mkIter (it_i st) (_singleIntervalCount st) (it_cmp st) (it_inc st) b.

(** [_cmp] and [_inc] from field [i] on: field [i] at its current interval, the others at the first. *)
Definition first_lower (i : nat) : option (FieldBound K) := _lower <$> head (intervals_of i).
Definition current_lower st (i : nat) : option (FieldBound K) :=
  n ← get st i; _lower <$> intervals_of i !! n.

Definition lower_bounds st (i : nat) : list (option (FieldBound K)) :=
  imap (λ j _, if (j <? i)%nat then None else if (j =? i)%nat then current_lower st i else first_lower j) (it_i st).

Definition advanceToLowerBound st (i : nat) : advance_result * iter K :=
  (Skip i,
   mkIter (it_i st) (_singleIntervalCount st)
     (imap (λ j c, match lower_bounds st i !! j with Some (Some b) => Some (_bound b) | _ => c end) (it_cmp st))
     (imap (λ j c, match lower_bounds st i !! j with Some (Some b) => _inclusive b | _ => c end) (it_inc st))
     false).

Definition advancePast st (i : nat) : advance_result * iter K := (Skip i, set_after true st).
Definition advancePastZeroed st (i : nat) : advance_result * iter K := advancePast (setZeroes st i) i.

Definition hasReachedLimitForLastInterval st (i : nat) : bool :=
  hasSingleIntervalCountReachedLimit st && (S i =? endNonUniversalRanges)%nat.

(** [validateCurrentInterval]: inside, past the interval, or a result to forward; the flag is
    [eqInclusiveUpperBound]. *)
Inductive validation := Inside | Past | Forward (r : advance_result).

Definition validateCurrentInterval st (i : nat) (iv : FieldInterval K) (e : K) (reverse first : bool)
  : validation * bool * iter K :=
  if isEqInclusiveUpperBound iv e reverse then (Inside, true, st)
  else if isGteUpperBound iv e reverse then (Past, false, st)
  else if (i =? 0)%nat && first then (Inside, false, st)
  else if isEqExclusiveLowerBound iv e reverse then
    let '(r, st) := advancePastZeroed st (S i) in (Forward r, false, st)
  else if isLtLowerBound iv e reverse then
    let '(r, st) := advanceToLowerBound (setZeroes st (S i)) i in (Forward r, false, st)
  else (Inside, false, st).

(** The loop over the intervals of a field from the current one on: a result, or [eq]. *)
Fixpoint interval_loop st (i : nat) (ivs : list (FieldInterval K)) (e : K) (reverse first eq : bool)
  : (advance_result + bool) * iter K :=
  match ivs with
  | [] => (inr eq, st)
  | iv :: ivs' =>
      match validateCurrentInterval st i iv e reverse first with
      | (Forward r, _, st) => (inl r, st)
      | (Inside, eq, st) =>
          if negb (hasReachedLimitForLastInterval st i) then (inr eq, st)
          else interval_loop (setZeroes (inc st i) (S i)) i ivs' e reverse false eq
      | (Past, eq, st) => interval_loop (setZeroes (inc st i) (S i)) i ivs' e reverse false eq
      end
  end.

(** After the last interval of a field *)
Definition past_field st (latestNonEndpoint : option nat) : advance_result * iter K :=
  match latestNonEndpoint with
  | None => (Complete, st)
  | Some n => advancePastZeroed st (S n)
  end.

(** The position of the field is unknown: binary search.  Either a result, or the
    new [latestNonEndpoint]. *)
Definition unknown_field st (i : nat) (e : K) (reverse : bool) (latestNonEndpoint : option nat)
  : option ((advance_result + option nat) * iter K) :=
  let ivs := intervals_of i in
  '(l, lowEquality) ← Vector.matchingLowElement ivs e (negb reverse);
  if Z.rem l 2 =? 0 then
    let n := Z.to_nat (Z.quot l 2) in
    let st := set st i n in
    let diff := Z.of_nat (length ivs) - Z.of_nat n in
    let lne :=
      if 1 <? diff then Some i
      else if diff =? 1 then
        match ivs !! n with
        | Some iv => if negb (woCompare (_bound (_upper iv)) e =? 0) then Some i else latestNonEndpoint
        | None => latestNonEndpoint
        end
      else latestNonEndpoint in
    Some (inr lne, st)
  else if l =? Z.of_nat (length ivs) * 2 - 1 then
    let '(r, st) := past_field st latestNonEndpoint in Some (inl r, st)
  else
    let st := set st i (Z.to_nat (Z.quot (l + 1) 2)) in
    let '(r, st) := if (lowEquality : bool) then advancePast st (S i) else advanceToLowerBound st i in
    Some (inl r, st).

(** The position of the field is known: a result, or the new [latestNonEndpoint]. *)
Definition known_field st (i n : nat) (e : K) (reverse : bool) (latestNonEndpoint : option nat)
  : (advance_result + option nat) * iter K :=
  let ivs := intervals_of i in
  match interval_loop st i (drop n ivs) e reverse true false with
  | (inl r, st) => (inl r, st)
  | (inr eq, st) =>
      let diff := Z.of_nat (length ivs) - Z.of_nat (default 0%nat (get st i)) in
      if (1 <? diff) || (negb eq && (diff =? 1)) then (inr (Some i), st)
      else if diff =? 0 then let '(r, st) := past_field st latestNonEndpoint in (inl r, st)
      else (inr latestNonEndpoint, st)
  end.

Definition reverse_field (i : nat) : bool :=
  match _keyPattern v !! i with Some (_, number) => xorb (number <? 0) (_direction v <? 0) | None => false end.

(** The loop of [advance]: [todo] fields from field [i] on; [None] where the code reads past a
    key. *)
Fixpoint advance_loop st (todo : nat) (i : nat) (key : list K) (latestNonEndpoint : option nat)
  : option (advance_result * iter K) :=
  match todo with
  | O => Some (NextKey, incSingleIntervalCount st)
  | S todo' =>
      let known_before :=
        match i with
        | O => true
        | S i' => match n ← get st i'; intervals_of i' !! n with Some iv => Interval.equality iv | None => false end
        end in
      let st := if known_before then st else setUnknowns st i in
      match key with
      | [] => None
      | e :: key' =>
          let reverse := reverse_field i in
          r ← (match get st i with
               | None => unknown_field st i e reverse latestNonEndpoint
               | Some n => Some (known_field st i n e reverse latestNonEndpoint)
               end);
          match r with
          | (inl res, st) => Some (res, st)
          | (inr lne, st) => advance_loop st todo' (S i) key' lne
          end
      end
  end.

Definition advance st (curr : list K) : option (advance_result * iter K) :=
  advance_loop st endNonUniversalRanges 0 curr None.

Definition prepDive st : iter K :=
  let lows := imap (λ j _, first_lower j) (it_i st) in
  resetIntervalCount (mkIter (it_i st) (_singleIntervalCount st)
    (map (λ b, _bound <$> b) lows) (map (λ b, match b with Some b => _inclusive b | None => false end) lows) (it_after st)).

Definition make : iter K :=
  let n := length (frv_ranges v) in
  mkIter (replicate n None) 0 (replicate n None) (replicate n false) false.

End iterator.
End Iterator.

(** ** The iterator *)

Section Counter.
Context {K : Type}.
Implicit Types st : iter K.

Lemma get_set st i n f :
  Iterator.get (Iterator.set st i n) f = if decide (f = i ∧ (i < length (it_i st))%nat) then Some n else Iterator.get st f.
Proof.
  unfold Iterator.get, Iterator.set, Iterator.set_i. cbn. case_decide as Hd.
  - destruct Hd as [-> L]. by rewrite list_lookup_insert_eq.
  - destruct (decide (f = i)) as [->|N]; [|by rewrite list_lookup_insert_ne].
    rewrite list_insert_ge by (apply not_lt; tauto). done.
Qed.

Lemma get_fill (x : option nat) st i f :
  default None ((take i (it_i st) ++ replicate (length (it_i st) - i) x) !! f) =
  if decide (i ≤ f ∧ f < length (it_i st))%nat then x else if decide (i ≤ f)%nat then None else Iterator.get st f.
Proof.
  unfold Iterator.get. case_decide as Hd; [|case_decide as field_dir'].
  - rewrite lookup_app_r, length_take, lookup_replicate_2; [done|rewrite ?length_take; lia..].
  - rewrite lookup_ge_None_2; [done|]. rewrite length_app, length_take, length_replicate. lia.
  - destruct (decide (f < length (it_i st))%nat).
    + by rewrite lookup_app_l, lookup_take_lt by (rewrite ?length_take; lia).
    + rewrite !lookup_ge_None_2; [done|lia|]. rewrite length_app, length_take, length_replicate. lia.
Qed.

Lemma get_setZeroes st i f :
  Iterator.get (Iterator.setZeroes st i) f =
  if decide (i ≤ f ∧ f < length (it_i st))%nat then Some 0%nat else if decide (i ≤ f)%nat then None else Iterator.get st f.
Proof. apply get_fill. Qed.

Lemma get_setUnknowns st i f :
  Iterator.get (Iterator.setUnknowns st i) f = if decide (i ≤ f)%nat then None else Iterator.get st f.
Proof. unfold Iterator.setUnknowns. etransitivity; [apply get_fill|]. repeat case_decide; done || lia. Qed.

Lemma get_inc st i f :
  Iterator.get (Iterator.inc st i) f = if decide (f = i) then S <$> Iterator.get st f else Iterator.get st f.
Proof.
  unfold Iterator.get, Iterator.inc, Iterator.set_i. cbn. case_decide as Hd.
  - subst. rewrite list_lookup_alter_eq. by destruct (it_i st !! i) as [[]|].
  - by rewrite list_lookup_alter_ne.
Qed.

Lemma length_set st i n : length (it_i (Iterator.set st i n)) = length (it_i st).
Proof. apply length_insert. Qed.
Lemma length_inc st i : length (it_i (Iterator.inc st i)) = length (it_i st).
Proof. apply length_alter. Qed.
Lemma length_fill (x : option nat) st i : length (take i (it_i st) ++ replicate (length (it_i st) - i) x) = length (it_i st).
Proof. rewrite length_app, length_take, length_replicate. lia. Qed.
Lemma length_setZeroes st i : length (it_i (Iterator.setZeroes st i)) = length (it_i st).
Proof. apply length_fill. Qed.
Lemma length_setUnknowns st i : length (it_i (Iterator.setUnknowns st i)) = length (it_i st).
Proof. apply length_fill. Qed.
End Counter.

Section Iter.
Context `{FieldElementLaws K} (v : FieldRangeVector K).
Implicit Types (st : iter K) (k curr : list K) (f g i : nat).

#[local] Abbreviation nfields := (length (frv_ranges v)).
#[local] Abbreviation ivs f := (Iterator.intervals_of v f).

(** The elements in the direction of field [f] *)
Definition field_dir f : FieldElement K := dir_elem (Iterator.reverse_field v f).
#[local] Instance field_dir_total f : @TotalOrd K (@field_cmp K (field_dir f)) := dir_total _.

Definition fle f (x y : K) : Prop := @kle K (@field_cmp K (field_dir f)) x y.
Definition fin f (x : K) (iv : FieldInterval K) : Prop := @inb K (field_dir f) x iv.
Definition fbelow f (x : K) (c : cut K) : Prop := @below K (field_dir f) x c.

(** Every field has intervals, separated in its direction. *)
Definition vector_ok : Prop :=
  ∀ f, (f < nfields)%nat → @separated K (field_dir f) (ivs f) ∧ ivs f ≠ [].

(** *** Keys *)

Definition at_key k f : K := default minKey (k !! f).
Definition key_ok k : Prop := length k = nfields.

Definition share r k k' : Prop :=
  ∀ f, (f < r)%nat → fle f (at_key k f) (at_key k' f) ∧ fle f (at_key k' f) (at_key k f).
Definition exceed g k k' : Prop := share g k k' ∧ ¬ fle g (at_key k' g) (at_key k g).

(** [k] is not after [k'] in the order of the scan. *)
Definition key_le k k' : Prop := share nfields k k' ∨ ∃ g, (g < nfields)%nat ∧ exceed g k k'.
Definition keymatch k : Prop := ∀ f, (f < nfields)%nat → @mem K (field_dir f) (at_key k f) (ivs f).

Lemma fle_refl f x : fle f x x.
Proof. apply kle_refl. Qed.
Lemma fle_trans f x y z : fle f x y → fle f y z → fle f x z.
Proof. apply kle_trans. Qed.
Lemma fle_total f x y : ¬ fle f x y → fle f y x.
Proof. apply kle_total. Qed.
#[local] Instance fle_dec f x y : Decision (fle f x y) := kle_dec x y.

Lemma share_seq r k k' : share r k k' ↔ Forall (λ f, fle f (at_key k f) (at_key k' f) ∧ fle f (at_key k' f) (at_key k f)) (seq 0 r).
Proof.
  rewrite Forall_seq. split.
  - intros Sh f F. apply Sh. lia.
  - intros Sh f F. apply Sh. lia.
Qed.

#[global] Instance share_dec r k k' : Decision (share r k k').
Proof.
  refine (cast_if (decide (Forall (λ f, fle f (at_key k f) (at_key k' f) ∧ fle f (at_key k' f) (at_key k f)) (seq 0 r))));
    by rewrite share_seq.
Defined.

#[global] Instance key_le_dec k k' : Decision (key_le k k').
Proof.
  refine (cast_if (decide (share nfields k k' ∨ Exists (λ g, share g k k' ∧ ¬ fle g (at_key k' g) (at_key k g)) (seq 0 nfields))));
    unfold key_le, exceed; rewrite Exists_exists in *.
  - destruct o as [?|(g & G%elem_of_seq & ?)]; [by left|right; exists g; split; [lia|done]].
  - intros [?|(g & G & ?)]; apply n; [by left|right; exists g]. rewrite elem_of_seq. split; [lia|done].
Defined.

Lemma share_trans r a b c : share r a b → share r b c → share r a c.
Proof. intros S1 S2 f L. destruct (S1 f L), (S2 f L). split; by eapply fle_trans. Qed.

Lemma share_sym r a b : share r a b → share r b a.
Proof. intros S f L. destruct (S f L). done. Qed.

Lemma share_le r r' a b : (r' ≤ r)%nat → share r a b → share r' a b.
Proof. intros L S f Lf. apply S. lia. Qed.

Lemma exceed_trans g g' a b c :
  exceed g a b → exceed g' b c → exceed (Nat.min g g') a c.
Proof.
  intros [S1 L1] [S2 L2]. split; [apply (share_trans _ a b c); [apply (share_le g)|apply (share_le g')]; done || lia|]. intros L.
  destruct (Nat.lt_trichotomy g g') as [|[->|]]; [rewrite Nat.min_l in L by lia|rewrite Nat.min_id in L|rewrite Nat.min_r in L by lia].
  - apply L1. eapply fle_trans; [apply S2; lia|done].
  - apply L1. eapply fle_trans; [|exact L]. by apply fle_total.
  - apply L2. eapply fle_trans; [exact L|]. apply S1. lia.
Qed.

Lemma share_exceed g a b c : share nfields a b → (g < nfields)%nat → exceed g b c → exceed g a c.
Proof.
  intros S G [S2 L2]. split; [eapply share_trans; [eapply share_le; [|done]; lia|done]|].
  intros L. apply L2. eapply fle_trans; [exact L|]. by apply S.
Qed.

Lemma exceed_share g a b c : exceed g a b → (g < nfields)%nat → share nfields b c → exceed g a c.
Proof.
  intros [S2 L2] G S. split; [eapply share_trans; [done|eapply share_le; [|done]; lia]|].
  intros L. apply L2. eapply fle_trans; [|exact L]. by apply S.
Qed.

Lemma key_le_refl a : key_le a a.
Proof. left. intros f _. split; apply fle_refl. Qed.

Lemma key_le_trans a b c : key_le a b → key_le b c → key_le a c.
Proof.
  intros [S1|(g & G & E1)] [S2|(g' & G' & E2)].
  - left. by eapply share_trans.
  - right. exists g'. split; [done|]. by eapply share_exceed.
  - right. exists g. split; [done|]. by eapply exceed_share.
  - right. exists (Nat.min g g'). split; [lia|]. by eapply exceed_trans.
Qed.

Lemma key_le_first a b : (0 < nfields)%nat → key_le a b → fle 0 (at_key a 0) (at_key b 0).
Proof.
  intros N [S|(g & G & [S L])]; [by apply S|]. destruct g; [by apply fle_total|apply S; lia].
Qed.

(** A key from [a] on either shares the first [r] fields or exceeds in one of them. *)
Lemma key_le_cases r a b : (r ≤ nfields)%nat → key_le a b → share r a b ∨ ∃ g, (g < r)%nat ∧ exceed g a b.
Proof.
  intros R [S|(g & G & E)]; [left; by eapply share_le|].
  destruct (decide (g < r)%nat); [right; eauto|]. left. eapply share_le; [|apply E]. lia.
Qed.

Lemma key_le_at r a b : (r < nfields)%nat → key_le a b → share r a b → fle r (at_key a r) (at_key b r).
Proof.
  intros R L Sr. destruct (key_le_cases (S r) a b ltac:(lia) L) as [Sh|(g & G & [Sg Lg])]; [apply Sh; lia|].
  destruct (decide (g = r)) as [->|]; [by apply fle_total|]. exfalso. apply Lg. apply Sr. lia.
Qed.

Lemma share_between r a k b : (r ≤ nfields)%nat → share r a b → key_le a k → key_le k b → share r a k.
Proof.
  intros R Sh L1 L2. destruct (key_le_cases r a k R L1) as [|(g & G & [Sg Lg])]; [done|]. exfalso. apply Lg.
  assert (share g k b) as Sk.
  { eapply share_trans; [apply share_sym; exact Sg|]. eapply share_le; [|exact Sh]. lia. }
  eapply fle_trans; [apply key_le_at; [lia|exact L2|exact Sk]|]. apply Sh. lia.
Qed.

Lemma key_le_total a b : key_le a b ∨ ∃ g, (g < nfields)%nat ∧ exceed g b a.
Proof.
  assert (∀ r, (r ≤ nfields)%nat → share r a b ∨ (∃ g, (g < r)%nat ∧ exceed g a b) ∨ ∃ g, (g < r)%nat ∧ exceed g b a) as Q.
  { intros r. induction r as [|r IH]; intros L; [left; intros f F; lia|].
    destruct (IH ltac:(lia)) as [Sh|[(g & G & E)|(g & G & E)]];
      [|right; left; exists g; split; [lia|done]|right; right; exists g; split; [lia|done]].
    destruct (decide (fle r (at_key b r) (at_key a r))) as [L1|N]; [destruct (decide (fle r (at_key a r) (at_key b r))) as [L2|N]|].
    - left. intros f F. destruct (decide (f = r)) as [->|]; [done|apply Sh; lia].
    - right. right. exists r. split; [lia|]. split; [by apply share_sym|done].
    - right. left. exists r. split; [lia|]. by split. }
  destruct (Q nfields ltac:(lia)) as [Sh|[E|E]]; [left; by left|left; by right|by right].
Qed.

Lemma exceed_not_le g a b : (g < nfields)%nat → exceed g a b → ¬ key_le b a.
Proof.
  intros G [Sh L] Le. apply L. apply key_le_at; [done|done|by apply share_sym].
Qed.

(** *** Intervals of a field *)

Lemma fin_mono f p q iv iv' x y :
  vector_ok → (f < nfields)%nat → ivs f !! p = Some iv → ivs f !! q = Some iv' → fin f x iv → fin f y iv' → fle f x y → (p ≤ q)%nat.
Proof. intros V F. apply (index_mono (H:=field_dir f)). by apply V. Qed.

Lemma fin_equiv f x y iv : fle f x y → fle f y x → fin f x iv → fin f y iv.
Proof. apply (inb_equiv (H:=field_dir f)). Qed.

Lemma equality_dir f iv : @Interval.equality K (field_dir f) iv = Interval.equality iv.
Proof.
  unfold Interval.equality. f_equal. unfold field_dir, dir_elem, woCompare at 1, dir_sign. cbn.
  destruct (Iterator.reverse_field v f); [|done]. unfold woCompare. apply eq_true_iff_eq. rewrite !Z.eqb_eq. lia.
Qed.

Lemma fin_point f x y iv : Interval.equality iv = true → fin f x iv → fin f y iv → fle f x y.
Proof. rewrite <- (equality_dir f). apply (point_equiv (H:=field_dir f)). Qed.

Lemma passed_mono f x y c : ¬ fbelow f x c → fle f x y → ¬ fbelow f y c.
Proof.
  unfold fbelow, fle. intros B L%(cut_same (H:=field_dir f) _ _ true) B'. apply B. unfold below in *. by eapply kle_trans.
Qed.

(** *** Positions *)

(** Field [f] is at an interval that holds the value of the key. *)
Definition valid st k f : Prop :=
  ∃ p iv, Iterator.get st f = Some p ∧ ivs f !! p = Some iv ∧ fin f (at_key k f) iv.

(** The same, at a point. *)
Definition valid_point st k f : Prop :=
  ∃ p iv, Iterator.get st f = Some p ∧ ivs f !! p = Some iv ∧ Interval.equality iv = true ∧ fin f (at_key k f) iv.

(** The positions are lower bounds for the intervals of [k]: when the fields before one are at the
    points that hold their values, the value of [k] is in no interval before its position. *)
Definition LB st k : Prop :=
  ∀ f p q j, (f < nfields)%nat → (∀ h, (h < f)%nat → valid_point st k h) →
    Iterator.get st f = Some p → ivs f !! q = Some j → fin f (at_key k f) j → (p ≤ q)%nat.

Lemma LB_exceed st k curr m g :
  vector_ok → (m ≤ nfields)%nat → (∀ f, (f < m)%nat → valid st curr f) → (g < m)%nat → exceed g curr k → LB st k.
Proof.
  intros V M Val G [Sh L] f p q j F Pts Gf Hq Fin. destruct (decide (f ≤ g)%nat) as [Le|Gt].
  - destruct (Val f ltac:(lia)) as (p' & iv & Gp & Hp & Ip). simplify_eq.
    apply (fin_mono f p q iv j (at_key curr f) (at_key k f)); try done.
    destruct (decide (f = g)) as [->|]; [by apply fle_total|apply Sh; lia].
  - exfalso. apply L. destruct (Val g ltac:(lia)) as (p1 & iv1 & G1 & H1 & I1).
    destruct (Pts g ltac:(lia)) as (p2 & iv2 & G2 & H2 & E2 & I2). simplify_eq. by eapply (fin_point g).
Qed.

(** When [k] shares the fields before [m], only the later positions matter. *)
Lemma LB_share st k curr m :
  vector_ok → (m ≤ nfields)%nat → (∀ f, (f < m)%nat → valid st curr f) → share m curr k →
  (∀ f p q j, (m ≤ f)%nat → (f < nfields)%nat → (∀ h, (h < f)%nat → valid_point st k h) → Iterator.get st f = Some p → ivs f !! q = Some j →
     fin f (at_key k f) j → (p ≤ q)%nat) → LB st k.
Proof.
  intros V M Val Sh Later f p q j F Pts Gf Hq Fin. destruct (decide (m ≤ f)%nat); [by eapply Later|].
  destruct (Val f ltac:(lia)) as (p' & iv & Gp & Hp & Ip). simplify_eq.
  apply (fin_mono f p q iv j (at_key curr f) (at_key k f)); try done. apply Sh. lia.
Qed.

(** *** What the iterator relies on, and what it promises *)

Record pre st curr : Prop := {
  pre_len : length (it_i st) = nfields;
  pre_cmp : length (it_cmp st) = nfields;
  pre_inc : length (it_inc st) = nfields;
  pre_unknown : ∀ f g, (f ≤ g)%nat → Iterator.get st f = None → Iterator.get st g = None;
  pre_range : ∀ f p, Iterator.get st f = Some p → (p < length (ivs f))%nat;
  pre_first : ∀ p iv, Iterator.get st 0 = Some p → ivs 0 !! p = Some iv → ¬ fbelow 0 (at_key curr 0) (lo iv);
  pre_lower : ∀ k, key_ok k → key_le curr k → keymatch k → LB st k
}.

(** The key that [advance] asks to go to: the first [r] fields of the current one and [cmp()]. *)
Definition target st (r : nat) curr : list K := take r curr ++ drop r (default minKey <$> it_cmp st).
Definition inc_at st f : bool := default true (it_inc st !! f).

(** The keys at which a scan may go on after [advance] at [curr]. *)
Definition resume (res : advance_result) st curr k : Prop :=
  key_le curr k ∧
  match res with
  | Complete => False
  | NextKey => True
  | Skip r =>
      if it_after st then ¬ share r curr k
      else key_le (target st r curr) k ∧
           ∀ f, (r ≤ f)%nat → (f < nfields)%nat → inc_at st f = false →
             ¬ (fle f (at_key k f) (at_key (target st r curr) f) ∧ fle f (at_key (target st r curr) f) (at_key k f))
  end.

(** A skip has a place to go to, and leads past the current key. *)
Definition skip_ok curr (res : advance_result) st : Prop :=
  ∀ r, res = Skip r → (r ≤ nfields)%nat ∧ length (it_cmp st) = nfields ∧ length (it_inc st) = nfields ∧
    (it_after st = false →
     (∀ k, key_le (target st r curr) k →
        (∀ f, (r ≤ f)%nat → (f < nfields)%nat → inc_at st f = false →
           ¬ (fle f (at_key k f) (at_key (target st r curr) f) ∧ fle f (at_key (target st r curr) f) (at_key k f))) →
        ¬ key_le k curr) ∧
     ∀ f, (r ≤ f)%nat → (f < nfields)%nat → ∃ x, it_cmp st !! f = Some (Some x)).

(** The promise: no matching key is lost, and the positions stay right. *)
Definition promise curr (res : advance_result) st : Prop :=
  (res = NextKey → ∀ f, (f < Iterator.endNonUniversalRanges v)%nat → valid st curr f) ∧
  (∀ k, key_ok k → key_le curr k → keymatch k → resume res st curr k) ∧
  (∀ curr', key_ok curr' → resume res st curr curr' → pre st curr') ∧
  skip_ok curr res st.

Lemma pre_later st curr curr' : pre st curr → key_le curr curr' → pre st curr'.
Proof.
  intros [P1 P2 P3 P4 P5 P6 P7] L. split; try done.
  - intros p iv G Hp. eapply passed_mono; [by eapply P6|]. apply key_le_first; [|done].
    destruct (decide (0 < nfields)%nat); [done|]. exfalso. unfold Iterator.get in G. rewrite lookup_ge_None_2 in G; [done|lia].
  - intros k Kk Lk M. apply P7; try done. by eapply key_le_trans.
Qed.

(** Positions that agree give the same. *)
Lemma pre_same st st' curr :
  it_i st' = it_i st → it_cmp st' = it_cmp st → it_inc st' = it_inc st → pre st curr → pre st' curr.
Proof.
  intros E1 E2 E3 [P1 P2 P3 P4 P5 P6 P7].
  assert (∀ f, Iterator.get st' f = Iterator.get st f) as G by (intros; unfold Iterator.get; by rewrite E1).
  split; rewrite ?E1, ?E2, ?E3; try done; intros *; rewrite ?G; eauto.
  intros Kk Lk M f p q j F Pts. rewrite G. apply (P7 k Kk Lk M f p q j F). intros h Hh.
  destruct (Pts h Hh) as (p' & iv & Gp & ?). rewrite G in Gp. exists p', iv. done.
Qed.

Section Loop.
Context (curr : list K) (Kc : key_ok curr) (Vok : vector_ok).

(** The matching keys from the current one on *)
Definition ahead k : Prop := key_ok k ∧ key_le curr k ∧ keymatch k.

(** At field [i] of [advance]: the fields before it are in their intervals; a matching key ahead that
    differs in them does so not after [lne]. *)
Record linv st i (lne : option nat) : Prop := {
  li_len : length (it_i st) = nfields;
  li_cmp : length (it_cmp st) = nfields;
  li_inc : length (it_inc st) = nfields;
  li_i : (i ≤ nfields)%nat;
  li_valid : ∀ f, (f < i)%nat → valid st curr f;
  li_suffix : ∀ f g, (i ≤ f)%nat → (f ≤ g)%nat → Iterator.get st f = None → Iterator.get st g = None;
  li_points : (∀ g, (i ≤ g)%nat → Iterator.get st g = None) ∨ (∀ f, (S f < i)%nat → valid_point st curr f);
  li_range : ∀ f p, Iterator.get st f = Some p → (p < length (ivs f))%nat;
  li_first : ∀ p iv, Iterator.get st 0 = Some p → ivs 0 !! p = Some iv → ¬ fbelow 0 (at_key curr 0) (lo iv);
  li_lower : ∀ k, ahead k → LB st k;
  li_lne : ∀ L, lne = Some L → (L < i)%nat;
  li_end : ∀ k, ahead k → share i curr k ∨ ∃ L g, lne = Some L ∧ (g ≤ L)%nat ∧ exceed g curr k
}.

Lemma linv_pre st i lne : linv st i lne → pre st curr.
Proof.
  intros []. split; try done.
  - intros f g L Gf. destruct (decide (i ≤ f)%nat); [by eapply li_suffix0|].
    destruct (li_valid0 f ltac:(lia)) as (? & ? & ? & _). congruence.
  - intros k Kk Lk M. by apply li_lower0.
Qed.

Lemma pre_linv st : pre st curr → linv st 0 None.
Proof.
  intros []. split; try assumption.
  - lia.
  - intros f F. lia.
  - intros f g _. apply pre_unknown0.
  - right. intros f F. lia.
  - intros k (? & ? & ?). by apply pre_lower0.
  - done.
  - intros k _. left. intros f F. lia.
Qed.

(** All fields are in their intervals. *)
Lemma finish_next st lne limit :
  linv st (Iterator.endNonUniversalRanges v) lne → promise curr NextKey (Iterator.incSingleIntervalCount limit st).
Proof.
  intros I. assert (pre (Iterator.incSingleIntervalCount limit st) curr) as P.
  { eapply pre_same; [..|by eapply linv_pre]; unfold Iterator.incSingleIntervalCount; by destruct (Iterator.isTrackingIntervalCounts _). }
  split; [|split; [|split; [|done]]].
  - intros _ f F. destruct (li_valid _ _ _ I f F) as (p & iv & G & ?). exists p, iv. split; [|done]. rewrite <- G.
    unfold Iterator.incSingleIntervalCount, Iterator.get. by destruct (Iterator.isTrackingIntervalCounts _).
  - intros k Kk Lk M. done.
  - intros curr' _ [L _]. by eapply pre_later.
Qed.

(** The current value of field [i] is after its last interval. *)
Lemma finish_past st i lne :
  length (it_i st) = nfields → length (it_cmp st) = nfields → length (it_inc st) = nfields → (i ≤ nfields)%nat →
  (∀ f, (f < i)%nat → valid st curr f) → (∀ L, lne = Some L → (L < i)%nat) →
  (∀ k, ahead k → ∃ L g, lne = Some L ∧ (g ≤ L)%nat ∧ exceed g curr k) →
  promise curr (Iterator.past_field st lne).1 (Iterator.past_field st lne).2.
Proof.
  intros L1 L2 L3 Li Val HL End. destruct lne as [L|]; cbn.
  - set (st' := Iterator.set_after true (Iterator.setZeroes st (S L))). specialize (HL L eq_refl).
    assert (∀ f, Iterator.get st' f = if decide (S L ≤ f ∧ f < nfields)%nat then Some 0%nat else if decide (S L ≤ f)%nat then None else Iterator.get st f) as G.
    { intros f. rewrite <- L1. apply get_setZeroes. }
    assert (∀ f, (f < S L)%nat → valid st' curr f) as Val'.
    { intros f F. destruct (Val f ltac:(lia)) as (p & iv & Gp & ?). exists p, iv. split; [|done]. rewrite G, <- Gp.
      by rewrite decide_False, decide_False by lia. }
    assert (∀ k, ahead k → LB st' k) as Lb.
    { intros k A. destruct (End k A) as (L' & g & [= <-] & Lg & E). apply (LB_exceed _ _ curr (S L) g); try done; lia. }
    split; [done|]. split; [|split].
    + intros k Kk Lk M. split; [done|]. cbn. intros Sh. destruct (End k) as (L' & g & [= <-] & Lg & [_ E]); [done|].
      apply E, Sh. lia.
    + intros curr' Kc' [Lc _]. apply (pre_later _ curr); [|done]. split.
      * unfold st', Iterator.setZeroes, Iterator.set_i. cbn. rewrite length_fill. done.
      * done.
      * done.
      * intros f g Lf. rewrite !G. repeat case_decide; try done; try lia;
          intros Gf; exfalso; destruct (Val f ltac:(lia)) as (? & ? & ? & _); congruence.
      * intros f p. rewrite G. repeat case_decide; try done.
        -- intros [= <-]. destruct (Vok f) as [_ N]; [lia|]. destruct (ivs f); [done|cbn; lia].
        -- intros Gf. destruct (Val f ltac:(lia)) as (? & ? & Gf' & Hf & _). simplify_eq. by eapply lookup_lt_Some.
      * intros p iv G0 H0'. destruct (Val' 0%nat ltac:(lia)) as (p' & iv' & G0' & H0'' & F0). simplify_eq. apply F0.
      * intros k Kk Lk M. by apply Lb.
    + intros r [= <-]. split; [lia|]. by split.
  - split; [done|]. split; [|split; [|done]].
    + intros k Kk Lk M. destruct (End k) as (? & ? & ? & _); done.
    + intros curr' _ [_ []].
Qed.

(** Field [i] has been moved to interval [p]; no matching key ahead that shares the fields before it
    has its value in an earlier interval; nothing is claimed of the later fields. *)
Record moved st i p (iv : FieldInterval K) : Prop := {
  mv_len : length (it_i st) = nfields;
  mv_cmp : length (it_cmp st) = nfields;
  mv_inc : length (it_inc st) = nfields;
  mv_i : (i < nfields)%nat;
  mv_valid : ∀ f, (f < i)%nat → valid st curr f;
  mv_get : Iterator.get st i = Some p;
  mv_iv : ivs i !! p = Some iv;
  mv_suffix : (∀ f, (i < f)%nat → (f < nfields)%nat → Iterator.get st f = Some 0%nat) ∨ (∀ f, (i < f)%nat → Iterator.get st f = None);
  mv_lower : ∀ k q j, ahead k → share i curr k → ivs i !! q = Some j → fin i (at_key k i) j → (p ≤ q)%nat
}.

Lemma moved_LB st i p iv k : moved st i p iv → ahead k → LB st k.
Proof.
  intros [] A. destruct (key_le_cases i curr k ltac:(lia)) as [Sh|(g & G & E)]; [apply A|..].
  - apply (LB_share _ _ curr i); try done; [lia|]. intros f p' q j Lf F Pts Gf Hq Fin.
    destruct (decide (f = i)) as [->|N]; [simplify_eq; by eapply mv_lower0|].
    destruct mv_suffix0 as [Z|Z]; rewrite Z in Gf by lia; simplify_eq. lia.
  - apply (LB_exceed _ _ curr i g); try done. lia.
Qed.

Lemma get_beyond st f : (length (it_i st) ≤ f)%nat → Iterator.get st f = None.
Proof. intros L. unfold Iterator.get. by rewrite lookup_ge_None_2. Qed.

Lemma moved_pre st i p iv curr' :
  moved st i p iv → key_le curr curr' →
  (i = 0%nat → ¬ fbelow 0 (at_key curr' 0) (lo iv)) → pre st curr'.
Proof.
  intros M L F0. pose proof M as []. split; try done.
  - intros f g Lf Gf. destruct (decide (f < i)%nat); [destruct (mv_valid0 f ltac:(lia)) as (? & ? & ? & _); congruence|].
    destruct (decide (f = i)) as [->|]; [congruence|]. destruct (decide (g < nfields)%nat); [|apply get_beyond; lia].
    destruct mv_suffix0 as [Z|Z]; [rewrite Z in Gf by lia; done|apply Z; lia].
  - intros f q Gf. destruct (decide (f < i)%nat).
    { destruct (mv_valid0 f ltac:(lia)) as (? & ? & Gf' & Hf & _). simplify_eq. by eapply lookup_lt_Some. }
    destruct (decide (f = i)) as [->|]; [simplify_eq; by eapply lookup_lt_Some|].
    destruct (decide (f < nfields)%nat) as [Fn|]; [|rewrite get_beyond in Gf by lia; done].
    destruct mv_suffix0 as [Z|Z]; rewrite Z in Gf by lia; simplify_eq.
    destruct (Vok f Fn) as [_ N]. destruct (ivs f); [done|cbn; lia].
  - intros q iv' G0 H0'. destruct (decide (i = 0%nat)) as [->|].
    + simplify_eq. by apply F0.
    + destruct (mv_valid0 0%nat ltac:(lia)) as (p' & iv'' & G0' & H0'' & F0'). simplify_eq.
      eapply passed_mono; [apply F0'|]. apply key_le_first; [lia|done].
  - intros k Kk Lk Mk. eapply moved_LB; [done|]. split; [done|]. split; [by eapply key_le_trans|done].
Qed.

(** A value in no interval before [p] is not below the lower bound of [p]. *)
Lemma from_interval f p q iv j x :
  (f < nfields)%nat → ivs f !! p = Some iv → ivs f !! q = Some j → (p ≤ q)%nat → fin f x j → ¬ fbelow f x (lo iv).
Proof.
  intros F Hp Hq L [B _]. destruct (decide (p = q)) as [->|]; [by simplify_eq|].
  destruct (Vok f F) as [Sp _]. pose proof (separated_lookup (H:=field_dir f) _ _ _ _ _ Sp Hp Hq ltac:(lia)).
  pose proof (separated_valid (H:=field_dir f) _ _ _ Sp Hp). unfold fbelow, below in *. intros C. korder.
Qed.

Lemma lower_le f x iv : ¬ fbelow f x (lo iv) → fle f (_bound (_lower iv)) x.
Proof.
  unfold fbelow, lo, fle. rewrite (below_cut (H:=field_dir f)). destruct (_inclusive (_lower iv)); cbn; [|apply kle_total].
  intros. by apply dec_stable.
Qed.

Lemma lower_lt f x iv : ¬ fbelow f x (lo iv) → _inclusive (_lower iv) = false → ¬ fle f x (_bound (_lower iv)).
Proof. unfold fbelow, lo, fle. rewrite (below_cut (H:=field_dir f)). intros N E. by rewrite E in N. Qed.

Lemma lower_in f x iv :
  fle f (_bound (_lower iv)) x → (_inclusive (_lower iv) = false → ¬ fle f x (_bound (_lower iv))) → ¬ fbelow f x (lo iv).
Proof.
  unfold fbelow, lo, fle. rewrite (below_cut (H:=field_dir f)). destruct (_inclusive (_lower iv)); cbn; auto.
Qed.

(** The current value is the exclusive lower bound of the interval: go past it. *)
Lemma finish_skip st i p iv :
  moved st i p iv → ¬ @mem K (field_dir i) (at_key curr i) (ivs i) →
  fle i (_bound (_lower iv)) (at_key curr i) → 
  promise curr (Skip (S i)) (Iterator.set_after true st).
Proof.
  intros M NotIn Le. split; [done|]. split; [|split].
  - intros k Kk Lk Mk. split; [done|]. cbn. intros Sh. apply NotIn. destruct M.
    destruct (proj1 (mem_lookup (H:=field_dir i) _ _) (Mk i mv_i0)) as (q & j & Hq & Fq). apply (mem_lookup (H:=field_dir i)). exists q, j.
    split; [done|]. eapply fin_equiv; [..|exact Fq]; apply Sh; lia.
  - intros curr' Kc' [L R]. cbn in R. apply (pre_same st); try done. eapply moved_pre; [done..|]. intros ->.
    assert (¬ fle 0 (at_key curr' 0) (at_key curr 0)) as N.
    { intros C. apply R. intros f F. assert (f = 0)%nat as -> by lia. split; [|done]. apply key_le_first; [|done]. destruct M; lia. }
    apply lower_in.
    + eapply fle_trans; [exact Le|]. by apply fle_total.
    + intros _ C. apply N. by eapply fle_trans.
  - intros r [= <-]. destruct M. split; [lia|]. by split.
Qed.



(** *** Going to the lower bound of an interval *)

(** The interval whose lower bound [advanceToLowerBound] puts into [_cmp] at field [f]. *)
Definition goal_interval st i f : option (FieldInterval K) :=
  if decide (f = i) then p ← Iterator.get st i; ivs i !! p else head (ivs f).

Lemma lower_bounds_at st i f :
  length (it_i st) = nfields → (i ≤ f)%nat → (f < nfields)%nat →
  Iterator.lower_bounds v st i !! f = Some (_lower <$> goal_interval st i f).
Proof.
  intros L1 L2 L3. unfold Iterator.lower_bounds. rewrite list_lookup_imap.
  destruct (lookup_lt_is_Some_2 (it_i st) f ltac:(lia)) as [x ->]. cbn [fmap option_fmap option_map]. f_equal.
  rewrite (proj2 (Nat.ltb_ge f i)) by lia. unfold goal_interval. case_decide as E.
  - subst. rewrite Nat.eqb_refl. unfold Iterator.current_lower. by destruct (Iterator.get st i).
  - by rewrite (proj2 (Nat.eqb_neq f i)).
Qed.

Lemma target_at st i f iv :
  length (it_i st) = nfields → length (it_cmp st) = nfields → length (it_inc st) = nfields →
  (i ≤ f)%nat → (f < nfields)%nat → goal_interval st i f = Some iv →
  let st' := (Iterator.advanceToLowerBound v st i).2 in
  at_key (target st' i curr) f = _bound (_lower iv) ∧ inc_at st' f = _inclusive (_lower iv).
Proof.
  intros L1 L2 L3 L4 L5 G. pose proof (lower_bounds_at st i f L1 L4 L5) as B. rewrite G in B. cbn [fmap option_fmap option_map] in B.
  assert (length (take i curr) = i) as Lt by (rewrite length_take; unfold key_ok in Kc; lia).
  unfold at_key, target, inc_at, Iterator.advanceToLowerBound. cbn [it_cmp it_inc snd]. split.
  - rewrite lookup_app_r, lookup_drop, Lt by lia. replace (i + (f - i))%nat with f by lia.
    rewrite list_lookup_fmap, list_lookup_imap.
    destruct (lookup_lt_is_Some_2 (it_cmp st) f ltac:(lia)) as [x ->]. cbn. by rewrite B.
  - rewrite list_lookup_imap. destruct (lookup_lt_is_Some_2 (it_inc st) f ltac:(lia)) as [x ->]. cbn. by rewrite B.
Qed.

Lemma target_before st i f : (f < i)%nat → (i ≤ nfields)%nat → at_key (target st i curr) f = at_key curr f.
Proof.
  intros L1 L2. unfold at_key, target. rewrite lookup_app_l, lookup_take_lt; [done|lia|].
  rewrite length_take. unfold key_ok in Kc. lia.
Qed.

Lemma key_le_pointwise a b : (∀ f, (f < nfields)%nat → fle f (at_key a f) (at_key b f)) → key_le a b.
Proof.
  intros P. assert (∀ r, (r ≤ nfields)%nat → share r a b ∨ ∃ g, (g < r)%nat ∧ exceed g a b) as Q.
  { intros r. induction r as [|r IH]; intros L; [left; intros f F; lia|].
    destruct (IH ltac:(lia)) as [Sh|(g & G & E)]; [|right; exists g; split; [lia|done]].
    destruct (decide (fle r (at_key b r) (at_key a r))) as [Le|N].
    - left. intros f F. destruct (decide (f = r)) as [->|]; [split; [apply P; lia|done]|apply Sh; lia].
    - right. exists r. split; [lia|]. by split. }
  destruct (Q nfields ltac:(lia)) as [Sh|E]; [by left|by right].
Qed.

(** Matching keys ahead are at or after the lower bounds the iterator asks for. *)
Lemma ahead_goal st i p iv k f :
  moved st i p iv → ahead k → share i curr k → (i ≤ f)%nat → (f < nfields)%nat →
  ∃ iv', goal_interval st i f = Some iv' ∧ ¬ fbelow f (at_key k f) (lo iv').
Proof.
  intros [] A Sh L1 L2. destruct A as (Kk & Lk & Mk).
  destruct (proj1 (mem_lookup (H:=field_dir f) _ _) (Mk f L2)) as (q & j & Hq & Fq). unfold goal_interval. case_decide as E.
  - subst. rewrite mv_get0. cbn. exists iv. split; [done|]. eapply from_interval; [done..| |exact Fq].
    by eapply (mv_lower0 k).
  - destruct (Vok f L2) as [_ N]. destruct (ivs f) as [|iv' l'] eqn:El; [done|]. exists iv'. split; [done|].
    apply (from_interval f 0 q iv' j); [done|by rewrite El|by rewrite El|lia|done].
Qed.

(** No value of the range is an exclusive lower bound. *)
Lemma not_exclusive_lower f p q iv j x :
  (f < nfields)%nat → ivs f !! p = Some iv → ivs f !! q = Some j → fin f x j → _inclusive (_lower iv) = false →
  ¬ (fle f x (_bound (_lower iv)) ∧ fle f (_bound (_lower iv)) x).
Proof.
  intros F Hp Hq Fq E [L1 L2]. destruct (decide (p ≤ q)%nat) as [L|N].
  - eapply lower_lt; [|done|exact L1]. by eapply from_interval.
  - destruct (Vok f F) as [Sp _]. pose proof (separated_lookup (H:=field_dir f) _ _ _ _ _ Sp Hq Hp ltac:(lia)) as B.
    destruct Fq as [_ B']. unfold below, lo in *. rewrite E in B. cbn in B. unfold fle in L2.
    apply (cut_same (H:=field_dir f) _ _ true) in L2. korder.
Qed.

Lemma goal_lookup st i p iv f iv' :
  moved st i p iv → (f < nfields)%nat → goal_interval st i f = Some iv' → ∃ p', ivs f !! p' = Some iv'.
Proof.
  intros [] L2. unfold goal_interval. case_decide as E; [subst; rewrite mv_get0; cbn; eauto|].
  destruct (ivs f) eqn:El; [done|]. cbn. intros [= ->]. by exists 0%nat.
Qed.

Lemma goal_some st i p iv f : moved st i p iv → (f < nfields)%nat → ∃ iv', goal_interval st i f = Some iv'.
Proof.
  intros [] L2. unfold goal_interval. case_decide as E; [subst; rewrite mv_get0; cbn; eauto|].
  destruct (Vok f L2) as [_ N]. destruct (ivs f); [done|]. cbn. eauto.
Qed.

Lemma cmp_at st i f iv :
  length (it_i st) = nfields → length (it_cmp st) = nfields → (i ≤ f)%nat → (f < nfields)%nat →
  goal_interval st i f = Some iv → it_cmp (Iterator.advanceToLowerBound v st i).2 !! f = Some (Some (_bound (_lower iv))).
Proof.
  intros L1 L2 L4 L5 G. pose proof (lower_bounds_at st i f L1 L4 L5) as B. rewrite G in B. cbn in B |- *.
  rewrite list_lookup_imap. destruct (lookup_lt_is_Some_2 (it_cmp st) f ltac:(lia)) as [x ->]. cbn. by rewrite B.
Qed.

Lemma finish_lower st i p iv :
  moved st i p iv → fbelow i (at_key curr i) (lo iv) →
  promise curr (Iterator.advanceToLowerBound v st i).1 (Iterator.advanceToLowerBound v st i).2.
Proof.
  intros M Blw. pose proof M as []. set (st' := (Iterator.advanceToLowerBound v st i).2).
  assert (∀ f iv', (i ≤ f)%nat → (f < nfields)%nat → goal_interval st i f = Some iv' →
            at_key (target st' i curr) f = _bound (_lower iv') ∧ inc_at st' f = _inclusive (_lower iv')) as T.
  { intros f iv' ? ? ?. by apply target_at. }
  split; [done|]. split; [|split].
  - intros k Kk Lk Mk. split; [done|].
    change (key_le (target st' i curr) k ∧ ∀ f, (i ≤ f)%nat → (f < nfields)%nat → inc_at st' f = false →
      ¬ (fle f (at_key k f) (at_key (target st' i curr) f) ∧ fle f (at_key (target st' i curr) f) (at_key k f))). split.
    + destruct (key_le_cases i curr k ltac:(lia) Lk) as [Sh|(g & G & [Sg Lg])].
      * apply key_le_pointwise. intros f F. destruct (decide (f < i)%nat) as [L|L].
        -- rewrite target_before by lia. apply Sh. lia.
        -- destruct (ahead_goal st i p iv k f M ltac:(done) Sh ltac:(lia) F) as (iv' & G & B).
           destruct (T f iv' ltac:(lia) F G) as [-> _]. by apply lower_le.
      * right. exists g. split; [lia|]. split; [|by rewrite target_before by lia].
        intros f F. rewrite target_before by lia. by apply Sg.
    + intros f L1 L2 E [C1 C2]. destruct (goal_some st i p iv f M L2) as [iv' G]. destruct (T f iv' L1 L2 G) as [E1 E2].
      rewrite E1 in C1, C2. rewrite E2 in E. destruct (goal_lookup st i p iv f iv' M L2 G) as [p' Hp'].
      destruct (proj1 (mem_lookup (H:=field_dir f) _ _) (Mk f L2)) as (q & j & Hq & Fq).
      by apply (not_exclusive_lower f p' q iv' j (at_key k f)).
  - intros curr' Kc' [L [R1 R2]]. apply (moved_pre st' i p iv); [|done|].
    + split; try done; unfold st', Iterator.advanceToLowerBound; cbn; by rewrite length_imap.
    + intros ->. destruct (T 0%nat iv) as [E1 E2]; [lia|lia|unfold goal_interval; by rewrite mv_get0|].
      apply lower_in.
      * rewrite <- E1. apply key_le_first; [lia|done].
      * intros Ex C. apply (R2 0%nat); [lia|lia|congruence|]. rewrite E1. split; [done|]. rewrite <- E1. apply key_le_first; [lia|done].
  - intros r Er. change (Skip i = Skip r) in Er. injection Er as <-. split; [lia|].
    split; [unfold st', Iterator.advanceToLowerBound; cbn; by rewrite length_imap|].
    split; [unfold st', Iterator.advanceToLowerBound; cbn; by rewrite length_imap|]. intros _. split.
    + intros k L1 Ex L2. destruct (T i iv) as [E1 E2]; [lia|lia|unfold goal_interval; by rewrite decide_True, mv_get0|].
      assert (share i (target st' i curr) curr) as Sh.
      { intros f F. rewrite target_before by lia. split; apply fle_refl. }
      pose proof (share_between i _ k curr ltac:(lia) Sh L1 L2) as Sk.
      pose proof (key_le_at i _ k ltac:(lia) L1 Sk) as F1. rewrite E1 in F1.
      assert (share i k curr) as Sk' by (eapply share_trans; [apply share_sym; exact Sk|exact Sh]).
      pose proof (key_le_at i k curr ltac:(lia) L2 Sk') as F2.
      unfold fbelow, lo in Blw. rewrite (below_cut (H:=field_dir i)) in Blw. destruct (_inclusive (_lower iv)) eqn:Inc; cbn in Blw.
      * apply Blw. by eapply fle_trans.
      * apply (Ex i); [lia|lia|congruence|]. rewrite E1. split; [|done]. by eapply fle_trans.
    + intros f L1 L2. destruct (goal_some st i p iv f M L2) as [iv' G]. eexists. by eapply cmp_at.
Qed.



(** *** One field *)

Lemma search_dir rev fuel l e x h :
  Vector.search (H:=dir_elem rev) fuel l e true x h = Vector.search fuel l e (negb rev) x h.
Proof.
  revert x h. induction fuel as [|fuel IH]; intros x h; [done|]. cbn [Vector.search].
  destruct (x + 1 <? h); [|done]. destruct (Vector.bound_at l _) as [b|]; [|done]. cbn [mbind option_bind].
  rewrite !IH. by destruct rev.
Qed.

Lemma matchingLow_field i e :
  (i < nfields)%nat →
  ∃ y b, Vector.matchingLowElement (ivs i) e (negb (Iterator.reverse_field v i)) = Some (y, b) ∧ found (H:=field_dir i) (ivs i) e y b.
Proof.
  intros L. destruct (Vok i L) as [Sp _]. destruct (matchingLow_forward (H:=field_dir i) (ivs i) e Sp) as (y & b & E & F).
  exists y, b. split; [|done]. rewrite <- E. unfold Vector.matchingLowElement. symmetry. apply search_dir.
Qed.

(** A matching key ahead that shares the fields before [i] is not before the current value there. *)
Lemma ahead_at k i : ahead k → (i < nfields)%nat → share i curr k → fle i (at_key curr i) (at_key k i).
Proof. intros (_ & L & _) F Sh. by apply key_le_at. Qed.

Lemma ahead_in k i : ahead k → (i < nfields)%nat → ∃ q j, ivs i !! q = Some j ∧ fin i (at_key k i) j.
Proof. intros (_ & _ & M) F. exact (proj1 (mem_lookup (H:=field_dir i) _ _) (M i F)). Qed.

(** Field [i] is at the interval of its value: the loop goes on. *)
Lemma next_field st st' i lne lne' p iv :
  linv st i lne → (i < nfields)%nat →
  length (it_i st') = nfields → it_cmp st' = it_cmp st → it_inc st' = it_inc st →
  (∀ f, (f < i)%nat → Iterator.get st' f = Iterator.get st f) →
  Iterator.get st' i = Some p → ivs i !! p = Some iv → fin i (at_key curr i) iv →
  (∀ f g, (S i ≤ f)%nat → (f ≤ g)%nat → Iterator.get st' f = None → Iterator.get st' g = None) →
  (∀ f q, (S i ≤ f)%nat → Iterator.get st' f = Some q → (q < length (ivs f))%nat) →
  ((∀ g, (S i ≤ g)%nat → Iterator.get st' g = None) ∨ (∀ f, (f < i)%nat → valid_point st' curr f)) →
  (∀ k, ahead k → LB st' k) →
  lne' = Some i ∨ (lne' = lne ∧ ∀ k, ahead k → ¬ exceed i curr k) →
  linv st' (S i) lne'.
Proof.
  intros I Li L1 L2 L3 Same Gi Hp Fin Suf Rng Pts Lower Lne. pose proof I as []. split; try done; try congruence.
  - intros f F. destruct (decide (f = i)) as [->|]; [by exists p, iv|].
    destruct (li_valid0 f ltac:(lia)) as (p' & iv' & G & ?). exists p', iv'. rewrite Same by lia. done.
  - destruct Pts as [N|P]; [by left|right]. intros f F. apply P. lia.
  - intros f q G. destruct (decide (S i ≤ f)%nat); [by apply Rng|]. destruct (decide (f = i)) as [->|].
    + simplify_eq. by eapply lookup_lt_Some.
    + rewrite Same in G by lia. by apply li_range0.
  - intros q iv' G H0'. destruct (decide (i = 0%nat)) as [->|]; [simplify_eq; apply Fin|].
    rewrite Same in G by lia. by eapply li_first0.
  - intros L E. destruct Lne as [->|[-> _]]; [simplify_eq; lia|]. specialize (li_lne0 L E). lia.
  - intros k A. destruct (li_end0 k A) as [Sh|(L & g & E & Lg & Ex)].
    + destruct (key_le_cases (S i) curr k ltac:(lia)) as [|(g & G & Ex)]; [apply A|by left|right].
      destruct (decide (g = i)) as [->|]; [|exfalso; destruct Ex as [_ N]; apply N; apply Sh; lia].
      destruct Lne as [->|[_ N]]; [by exists i, i|]. by destruct (N k A).
    + right. destruct Lne as [->|[-> _]]; [|by exists L, g]. exists i, g. specialize (li_lne0 L E). split; [done|]. split; [lia|done].
Qed.

(** The value of the last interval's upper bound cannot be exceeded. *)
Lemma at_endpoint i p iv k :
  (i < nfields)%nat → ivs i !! p = Some iv → length (ivs i) = S p → fin i (at_key curr i) iv →
  fle i (_bound (_upper iv)) (at_key curr i) → ahead k → ¬ exceed i curr k.
Proof.
  intros Li Hp Len Fin Le A [Sh N]. destruct (ahead_in k i A Li) as (q & j & Hq & Fq).
  assert (p ≤ q)%nat by (eapply fin_mono; eauto; by apply fle_total).
  assert (q = p) as -> by (apply lookup_lt_Some in Hq; lia). simplify_eq. apply N. eapply fle_trans; [|exact Le].
  destruct Fq as [_ B]. unfold up in B. apply (below_cut (H:=field_dir i)) in B. destruct (_inclusive (_upper iv)); [done|]. by apply kle_total.
Qed.



(** A result that ends [advance] keeps the promise; otherwise the loop goes on at the next field. *)
Definition field_ok i (r : (advance_result + option nat) * iter K) : Prop :=
  match r with
  | (inl res, st) => promise curr res st
  | (inr lne, st) => linv st (S i) lne
  end.

Lemma rem_even q : (Z.rem (2 * Z.of_nat q) 2 =? 0) = true ∧ Z.to_nat (Z.quot (2 * Z.of_nat q) 2) = q.
Proof.
  rewrite Z.rem_mod_nonneg, Z.quot_div_nonneg by lia. rewrite (Z.mul_comm 2), Z.mod_mul, Z.div_mul by lia.
  split; [done|lia].
Qed.

Lemma rem_odd q : (Z.rem (2 * Z.of_nat q - 1) 2 =? 0) = false ∧ Z.to_nat (Z.quot (2 * Z.of_nat q - 1 + 1) 2) = q.
Proof.
  replace (2 * Z.of_nat q - 1 + 1) with (2 * Z.of_nat q) by lia. split; [|apply rem_even]. apply Z.eqb_neq.
  destruct q as [|q]; [done|]. rewrite Z.rem_mod_nonneg by lia.
  replace (2 * Z.of_nat (S q) - 1) with (1 + Z.of_nat q * 2) by lia. rewrite Z.mod_add by lia. done.
Qed.

Lemma between_passed i q k :
  between (H:=field_dir i) (ivs i) (at_key curr i) q → (i < nfields)%nat → ahead k → share i curr k →
  ∃ p j, (q ≤ p)%nat ∧ ivs i !! p = Some j ∧ fin i (at_key k i) j.
Proof.
  intros (_ & P & _) Li A Sh. destruct (ahead_in k i A Li) as (p & j & Hp & Fp). exists p, j. split; [|done].
  destruct (decide (q ≤ p)%nat) as [|N]; [done|]. exfalso. destruct Fp as [_ B].
  eapply (passed_mono i (at_key curr i) (at_key k i)); [apply (P p); [lia|done]| |exact B]. by apply ahead_at.
Qed.

Lemma between_not_mem i q : between (H:=field_dir i) (ivs i) (at_key curr i) q → ¬ @mem K (field_dir i) (at_key curr i) (ivs i).
Proof.
  intros (_ & P & N) (p & j & Hp & B1 & B2)%(mem_lookup (H:=field_dir i)). destruct (decide (p < q)%nat).
  - by apply (P p j).
  - apply B1. apply (N p j); [lia|done].
Qed.

Lemma LB_none st m k :
  (m ≤ nfields)%nat → (∀ f, (f < m)%nat → valid st curr f) → (∀ f, (m ≤ f)%nat → Iterator.get st f = None) → ahead k → LB st k.
Proof.
  intros M Val N A. destruct (key_le_cases m curr k M) as [Sh|(g & G & E)]; [apply A|..].
  - apply (LB_share _ _ curr m); try done. intros f p q j L _ _ Gf. rewrite N in Gf by done. done.
  - by apply (LB_exceed _ _ curr m g).
Qed.

Lemma fle_of_zero i x y : (woCompare x y =? 0) = true → fle i x y ∧ fle i y x.
Proof.
  intros E. assert ((@woCompare K (@field_cmp K (field_dir i)) x y =? 0) = true) as E'; [|by apply woCompare_eq in E'].
  change (@woCompare K (@field_cmp K (field_dir i)) x y) with (Iterator.mayReverse (Iterator.reverse_field v i) (woCompare x y)).
  unfold Iterator.mayReverse. bool_facts. rewrite E. by destruct (Iterator.reverse_field v i).
Qed.

Lemma unknown_field_ok st i lne :
  linv st i lne → (i < nfields)%nat → Iterator.get st i = None →
  ∃ r, Iterator.unknown_field v st i (at_key curr i) (Iterator.reverse_field v i) lne = Some r ∧ field_ok i r.
Proof.
  intros I Li Gi. pose proof I as []. assert (∀ g, (i ≤ g)%nat → Iterator.get st g = None) as None_.
  { intros g Lg. by apply (li_suffix0 i). }
  unfold Iterator.unknown_field. destruct (matchingLow_field i (at_key curr i) Li) as (y & b & -> & F). cbn [mbind option_bind].
  assert (∀ q, (∀ f, (f < i)%nat → Iterator.get (Iterator.set st i q) f = Iterator.get st f) ∧ Iterator.get (Iterator.set st i q) i = Some q ∧
     ∀ f, (i < f)%nat → Iterator.get (Iterator.set st i q) f = None) as Set_.
  { intros q. split; [|split]; intros; rewrite get_set; case_decide; try done; try (apply None_; lia); lia. }
  destruct F as [(q & -> & j & Hq & Fq)|(q & -> & B & LowEq)].
  - destruct (rem_even q) as [-> ->]. eexists. split; [reflexivity|]. cbn. destruct (Set_ q) as (S1 & S2 & S3).
    assert (∀ f, (f < S i)%nat → valid (Iterator.set st i q) curr f) as Val.
    { intros f L. destruct (decide (f = i)) as [->|]; [by exists q, j|].
      destruct (li_valid0 f ltac:(lia)) as (p & iv & G & ?). exists p, iv. rewrite S1 by lia. done. }
    eapply (next_field st _ i lne); try done.
    + by rewrite length_set.
    + intros f g L1 L2 _. apply S3. lia.
    + intros f p L1 G. rewrite S3 in G by lia. done.
    + left. intros g L. apply S3. lia.
    + intros k A. apply (LB_none _ (S i)); [lia|done|intros; apply S3; lia|done].
    + rewrite Hq. pose proof (lookup_lt_Some _ _ _ Hq). destruct (1 <? _) eqn:E1; [by left|].
      replace (Z.of_nat (length (ivs i)) - Z.of_nat q =? 1) with true by (bool_facts; symmetry; apply Z.eqb_eq; lia).
      destruct (woCompare _ _ =? 0) eqn:E2; [right|by left]. split; [done|]. intros k A. bool_facts.
      apply (at_endpoint i q j k); try done; [lia|]. exact (proj1 (fle_of_zero i _ _ (proj2 (Z.eqb_eq _ _) E2))).
  - destruct (rem_odd q) as [-> ->]. destruct (_ =? _) eqn:E; bool_facts.
    + assert (q = length (ivs i)) as -> by lia.
      pose proof (finish_past st i lne) as P. destruct (Iterator.past_field st lne) as [r st'].
      eexists. split; [reflexivity|]. apply P; try done. intros k A. destruct (li_end0 k A) as [Sh|]; [|done].
      destruct (between_passed i _ k B Li A Sh) as (p & j & L & Hp & _). apply lookup_lt_Some in Hp. lia.
    + destruct (Set_ q) as (S1 & S2 & S3). destruct B as [B0 B]. destruct (lookup_lt_is_Some_2 (ivs i) q) as [iv Hq]; [lia|].
      assert (moved (Iterator.set st i q) i q iv) as M.
      { split; try done; [by rewrite length_set| |by right|].
        - intros f L. destruct (li_valid0 f L) as (p & iv' & G & ?). exists p, iv'. rewrite S1 by lia. done.
        - intros k q' j' A Sh Hq' Fq'. destruct (between_passed i q k) as (p & j & L & Hp & Fp); try done.
          destruct (Vok i Li) as [Sp _]. pose proof (index_unique (H:=field_dir i) _ _ _ _ _ _ Sp Hp Hq' Fp Fq'). lia. }
      destruct b.
      * eexists. split; [reflexivity|]. destruct (LowEq eq_refl) as (j & Hj & _ & L2). assert (j = iv) as -> by congruence.
        apply (finish_skip _ i q iv M); [by eapply between_not_mem|done].
      * eexists. split; [reflexivity|]. apply (finish_lower _ i q iv M). by apply (proj2 B q iv).
Qed.

(** *** A field whose position is known *)

(** [st'] is [st] with field [i] at [p], where the value of the key has passed the intervals from
    [p0] to [p]; later fields are as before, or at zero. *)
Record at_interval st st' i p0 p : Prop := {
  ai_len : length (it_i st') = nfields;
  ai_cmp : it_cmp st' = it_cmp st;
  ai_inc : it_inc st' = it_inc st;
  ai_before : ∀ f, (f < i)%nat → Iterator.get st' f = Iterator.get st f;
  ai_get : Iterator.get st' i = Some p;
  ai_le : (p0 ≤ p)%nat;
  ai_passed : ∀ q j, (p0 ≤ q)%nat → (q < p)%nat → ivs i !! q = Some j → ¬ fbelow i (at_key curr i) (up j);
  ai_suffix : (p = p0 ∧ st' = st) ∨ (∀ f, (i < f)%nat → (f < nfields)%nat → Iterator.get st' f = Some 0%nat)
}.

Section Known.
Context (st : iter K) (i p0 : nat) (lne : option nat).
Context (I : linv st i lne) (Li : (i < nfields)%nat) (G0 : Iterator.get st i = Some p0).
Context (Pts : ∀ f, (f < i)%nat → valid_point st curr f).

Lemma known_lower k q j : ahead k → share i curr k → ivs i !! q = Some j → fin i (at_key k i) j → (p0 ≤ q)%nat.
Proof.
  intros A Sh Hq Fq. apply (li_lower _ _ _ I k A i p0 q j Li); try done. intros h Hh.
  destruct (Pts h Hh) as (p & iv & ? & ? & ? & F). exists p, iv. repeat split; try done. all: eapply (fin_equiv h); [..|exact F]; by apply Sh.
Qed.

Lemma at_interval_lower st' p k q j :
  at_interval st st' i p0 p → ahead k → share i curr k → ivs i !! q = Some j → fin i (at_key k i) j → (p ≤ q)%nat.
Proof.
  intros [] A Sh Hq Fq. pose proof (known_lower k q j A Sh Hq Fq). destruct (decide (p ≤ q)%nat) as [|N]; [done|].
  exfalso. destruct Fq as [_ B]. eapply (passed_mono i (at_key curr i)); [by apply (ai_passed0 q j); [|lia|]| |exact B]. by apply ahead_at.
Qed.

Lemma at_interval_moved st' p iv :
  at_interval st st' i p0 p → ivs i !! p = Some iv → moved (Iterator.setZeroes st' (S i)) i p iv.
Proof.
  intros A Hp. pose proof A as []. pose proof I as []. split; cbn; try congruence; try done.
  - by rewrite length_fill.
  - intros f F. destruct (li_valid0 f F) as (p' & iv' & G & ?). exists p', iv'. split; [|done].
    rewrite get_setZeroes, !decide_False by lia. by rewrite ai_before0.
  - by rewrite get_setZeroes, !decide_False by lia.
  - left. intros f L1 L2. by rewrite get_setZeroes, decide_True by lia.
  - intros k q j Ak Sh Hq Fq. by eapply (at_interval_lower st').
Qed.

(** The next interval of the loop *)
Lemma at_interval_next st' p iv :
  at_interval st st' i p0 p → ivs i !! p = Some iv → ¬ fbelow i (at_key curr i) (up iv) →
  at_interval st (Iterator.setZeroes (Iterator.inc st' i) (S i)) i p0 (S p).
Proof.
  intros [] Hp B. assert (length (it_i (Iterator.inc st' i)) = nfields) as L by (by rewrite length_inc).
  split; [by rewrite length_setZeroes|exact ai_cmp0|exact ai_inc0|..].
  - intros f F. rewrite get_setZeroes, !decide_False, get_inc, decide_False by lia. by apply ai_before0.
  - by rewrite get_setZeroes, !decide_False, get_inc, decide_True, ai_get0 by lia.
  - lia.
  - intros q j L1 L2 Hq. destruct (decide (q = p)) as [->|]; [by simplify_eq|]. apply (ai_passed0 q j); [done|lia|done].
  - right. intros f L1 L2. by rewrite get_setZeroes, decide_True by lia.
Qed.

Lemma upper_cases iv (e : K) :
  let c := Iterator.upperCmp iv e (Iterator.reverse_field v i) in
  (c = 0 → fle i e (_bound (_upper iv)) ∧ fle i (_bound (_upper iv)) e) ∧
  (c < 0 → ¬ fle i (_bound (_upper iv)) e) ∧ (0 < c → ¬ fle i e (_bound (_upper iv))).
Proof.
  cbv zeta. change (Iterator.upperCmp iv e (Iterator.reverse_field v i)) with (@woCompare K (@field_cmp K (field_dir i)) e (_bound (_upper iv))).
  unfold fle, kle. pose proof (woCompare_opp (H:=@field_cmp K (field_dir i)) e (_bound (_upper iv))). lia.
Qed.

Lemma lower_cases iv (e : K) :
  Interval.equality iv = false →
  let c := Iterator.lowerCmp iv e (Iterator.reverse_field v i) in
  (c = 0 → fle i e (_bound (_lower iv)) ∧ fle i (_bound (_lower iv)) e) ∧
  (c < 0 → ¬ fle i (_bound (_lower iv)) e) ∧ (0 < c → ¬ fle i e (_bound (_lower iv))).
Proof.
  intros E. cbv zeta. unfold Iterator.lowerCmp. rewrite E.
  change (Iterator.mayReverse (Iterator.reverse_field v i) (woCompare e (_bound (_lower iv)))) with (@woCompare K (@field_cmp K (field_dir i)) e (_bound (_lower iv))).
  unfold fle, kle. pose proof (woCompare_opp (H:=@field_cmp K (field_dir i)) e (_bound (_lower iv))). lia.
Qed.

(** [validateCurrentInterval] *)
Definition validation_ok st' iv (r : Iterator.validation * bool * iter K) : Prop :=
  match r with
  | (Iterator.Inside, eq, st'') => st'' = st' ∧ fin i (at_key curr i) iv ∧ (eq = true → fle i (_bound (_upper iv)) (at_key curr i))
  | (Iterator.Past, _, st'') => st'' = st' ∧ ¬ fbelow i (at_key curr i) (up iv)
  | (Iterator.Forward res, _, st'') => promise curr res st''
  end.

Lemma not_below_upper iv e : ¬ fle i e (_bound (_upper iv)) ∨ (fle i (_bound (_upper iv)) e ∧ _inclusive (_upper iv) = false) → ¬ fbelow i e (up iv).
Proof.
  unfold fbelow, up, fle. rewrite (below_cut (H:=field_dir i)). intros [N|[N ->]]; [|by intros C].
  destruct (_inclusive (_upper iv)); [done|]. intros C. apply N. by apply kle_total.
Qed.

Lemma below_upper iv e : ¬ fle i (_bound (_upper iv)) e → fbelow i e (up iv).
Proof.
  unfold fbelow, up, fle. rewrite (below_cut (H:=field_dir i)). destruct (_inclusive (_upper iv)); [apply kle_total|done].
Qed.

Lemma below_lower iv : Iterator.lowerCmp iv (at_key curr i) (Iterator.reverse_field v i) < 0 → fbelow i (at_key curr i) (lo iv).
Proof.
  intros E. assert (¬ fle i (_bound (_lower iv)) (at_key curr i)) as N.
  { destruct (Interval.equality iv) eqn:Eq; [|by destruct (lower_cases iv (at_key curr i) Eq) as (_ & C & _); apply C].
    unfold Iterator.lowerCmp in E. rewrite Eq in E. intros L. destruct (upper_cases iv (at_key curr i)) as (_ & U & _). apply (U E).
    rewrite <- (equality_dir i) in Eq. unfold Interval.equality in Eq. bool_facts. eapply fle_trans; [|exact L].
    unfold fle, kle. pose proof (woCompare_opp (H:=@field_cmp K (field_dir i)) (_bound (_lower iv)) (_bound (_upper iv))). lia. }
  unfold fbelow, lo, fle in *. rewrite (below_cut (H:=field_dir i)). destruct (_inclusive (_lower iv)); cbn; [done|by apply kle_total].
Qed.

Lemma validate_ok st' p iv first :
  at_interval st st' i p0 p → ivs i !! p = Some iv → (first = true → p = p0) →
  validation_ok st' iv (Iterator.validateCurrentInterval v st' i iv (at_key curr i) (Iterator.reverse_field v i) first).
Proof.
  intros A Hp Fst. pose proof (upper_cases iv (at_key curr i)) as (U1 & U2 & U3). pose proof (lower_cases iv (at_key curr i)) as Lc.
  pose proof (at_interval_moved st' p iv A Hp) as M.
  destruct (Vok i Li) as [Sp _]. pose proof (separated_valid (H:=field_dir i) _ _ _ Sp Hp) as W.
  unfold Iterator.validateCurrentInterval, Iterator.isEqInclusiveUpperBound, Iterator.isGteUpperBound,
    Iterator.isEqExclusiveLowerBound, Iterator.isLtLowerBound.
  set (c := Iterator.upperCmp _ _ _) in *.
  destruct ((c =? 0) && _inclusive (_upper iv)) eqn:E1; [|destruct (0 <=? c) eqn:E2].
  - bool_facts. destruct (U1 ltac:(done)) as [L1 L2]. cbn. split; [done|]. split; [|done]. split.
    + unfold below. unfold up in W. rewrite H2 in W. apply (cut_same (H:=field_dir i) _ _ true) in L1, L2. intros C. korder.
    + unfold below, up. rewrite H2. by apply (cut_same (H:=field_dir i)).
  - cbn. split; [done|]. apply not_below_upper. bool_facts. destruct (decide (c = 0)) as [Z|N]; [right|left; apply U3; lia].
    split; [by apply U1|]. rewrite (proj2 (Z.eqb_eq c 0) Z) in E1. done.
  - bool_facts. assert (fbelow i (at_key curr i) (up iv)) as B by (apply below_upper, U2; done).
    destruct ((i =? 0)%nat && first) eqn:E3.
    { bool_facts. cbn. split; [done|]. split; [|done]. split; [|done].
      subst i. rewrite (Fst ltac:(done)) in Hp. apply (li_first _ _ _ I p0); done. }
    destruct (_ && negb _) eqn:E4; [|destruct (_ <? 0) eqn:E5].
    + bool_facts. cbn. assert (Interval.equality iv = false) as Eq by (unfold Interval.equality; by rewrite H2).
      destruct (Lc Eq) as (L1 & _ & _). apply L1 in H1 as [La Lb].
      apply (finish_skip _ i p iv M); [|done]. intros (q & j & Hq & Fq)%(mem_lookup (H:=field_dir i)).
      by apply (not_exclusive_lower i p q iv j (at_key curr i)).
    + cbn. apply (finish_lower _ i p iv M). bool_facts. by apply below_lower.
    + cbn. split; [done|]. split; [|done]. split; [|done]. bool_facts. destruct (Interval.equality iv) eqn:Eq.
      { unfold Iterator.lowerCmp in E5. rewrite Eq in E5. fold c in E5. lia. }
      destruct (Lc eq_refl) as (L1 & _ & L3). set (d := Iterator.lowerCmp _ _ _) in *. apply lower_in.
      * destruct (decide (d = 0)); [by apply L1|]. apply fle_total, L3. lia.
      * intros Ex C. destruct (decide (d = 0)) as [Z|]; [|apply L3 in C; [done|lia]].
        rewrite Ex, (proj2 (Z.eqb_eq d 0) Z) in E4. done.
Qed.

(** The loop over the intervals: a result, or the interval of the value, or none left. *)
Definition loop_ok (r : (advance_result + bool) * iter K) : Prop :=
  match r with
  | (inl res, st') => promise curr res st'
  | (inr eq, st') => ∃ p, at_interval st st' i p0 p ∧
      (p = length (ivs i) ∨
       ∃ iv, ivs i !! p = Some iv ∧ fin i (at_key curr i) iv ∧ (eq = true → fle i (_bound (_upper iv)) (at_key curr i)))
  end.

Lemma interval_loop_ok limit l st' p first eq :
  limit <= 0 → l = drop p (ivs i) → at_interval st st' i p0 p → (p ≤ length (ivs i))%nat → (first = true → p = p0) →
  loop_ok (Iterator.interval_loop v limit st' i l (at_key curr i) (Iterator.reverse_field v i) first eq).
Proof.
  intros Lim. revert st' p first eq. induction l as [|iv l IH]; intros st' p first eq El A Lp Fst.
  - cbn. exists p. split; [done|]. left. pose proof (f_equal length El) as E. rewrite length_drop in E. cbn in E. lia.
  - assert (ivs i !! p = Some iv) as Hp by (rewrite <- (Nat.add_0_r p), <- lookup_drop, <- El; done).
    pose proof (validate_ok st' p iv first A Hp Fst) as V. cbn [Iterator.interval_loop].
    assert (l = drop (S p) (ivs i)) as El' by (by apply drop_S in Hp; rewrite Hp in El; injection El).
    destruct (Iterator.validateCurrentInterval _ _ _ _ _ _ _) as [[[| |res] eq'] st'']; cbn in V.
    + destruct V as (-> & F & U). assert (Iterator.hasReachedLimitForLastInterval v limit st' i = false) as ->.
      { unfold Iterator.hasReachedLimitForLastInterval, Iterator.hasSingleIntervalCountReachedLimit, Iterator.isTrackingIntervalCounts.
        by rewrite (proj2 (Z.ltb_ge 0 limit)). }
      cbn. exists p. split; [done|]. right. eauto.
    + destruct V as [-> B]. apply (IH _ (S p)); try done.
      * by eapply at_interval_next.
      * apply lookup_lt_Some in Hp. lia.
    + done.
Qed.

Lemma at_interval_LB st' p k : at_interval st st' i p0 p → ahead k → LB st' k.
Proof.
  intros A Ak. pose proof A as []. destruct ai_suffix0 as [[_ ->]|Z]; [by apply (li_lower _ _ _ I)|].
  assert (∀ f, (f < i)%nat → valid st' curr f) as Val.
  { intros f F. destruct (li_valid _ _ _ I f F) as (p' & iv' & G & ?). exists p', iv'. by rewrite ai_before0. }
  destruct (key_le_cases i curr k ltac:(lia)) as [Sh|(g & G & E)]; [apply Ak|..].
  - apply (LB_share _ _ curr i); try done; [lia|]. intros f p' q j Lf F _ Gf Hq Fin.
    destruct (decide (f = i)) as [->|]; [simplify_eq; by eapply at_interval_lower|].
    rewrite Z in Gf by lia. simplify_eq. lia.
  - apply (LB_exceed _ _ curr i g); try done. lia.
Qed.

Lemma known_field_ok limit :
  limit <= 0 →
  field_ok i (Iterator.known_field v limit st i p0 (at_key curr i) (Iterator.reverse_field v i) lne).
Proof.
  intros Lim. unfold Iterator.known_field. pose proof I as [].
  assert (at_interval st st i p0 p0) as A0 by (split; try done; [lia|by left]).
  pose proof (interval_loop_ok limit (drop p0 (ivs i)) st p0 true false Lim eq_refl A0
    (Nat.lt_le_incl _ _ (li_range0 i p0 G0)) (λ _, eq_refl)) as Lo.
  destruct (Iterator.interval_loop _ _ _ _ _ _ _ _ _) as [[res|eq] st']; cbn in Lo; [done|].
  destruct Lo as (p & A & Cases). pose proof A as []. rewrite ai_get0. cbn [default from_option id].
  destruct Cases as [->|(iv & Hp & Fin & Eq)].
  - rewrite Z.sub_diag. cbn [Z.ltb Z.eqb Z.compare]. rewrite andb_false_r. cbn [orb].
    pose proof (finish_past st' i lne) as P. destruct (Iterator.past_field st' lne) as [r st''].
    apply P; try congruence; try lia.
    + intros f F. destruct (li_valid0 f F) as (p' & iv' & G & ?). exists p', iv'. by rewrite ai_before0.
    + done.
    + intros k Ak. destruct (li_end0 k Ak) as [Sh|]; [|done]. destruct (ahead_in k i Ak Li) as (q & j & Hq & Fq).
      pose proof (at_interval_lower st' _ k q j A Ak Sh Hq Fq). apply lookup_lt_Some in Hq. lia.
  - pose proof (lookup_lt_Some _ _ _ Hp) as Lt.
    assert (∀ lne', lne' = Some i ∨ (lne' = lne ∧ ∀ k, ahead k → ¬ exceed i curr k) → linv st' (S i) lne') as Next.
    { intros lne' Hl. eapply (next_field st st' i lne); try done; try congruence.
      - intros f g L1 L2 Gf. destruct ai_suffix0 as [[_ ->]|Z]; [by eapply (li_suffix0 f); [lia|..]|].
        destruct (decide (g < nfields)%nat); [rewrite Z in Gf by lia; done|apply get_beyond; lia].
      - intros f q L1 Gf. destruct ai_suffix0 as [[_ ->]|Z]; [by apply li_range0|].
        destruct (decide (f < nfields)%nat) as [Fn|]; [|rewrite get_beyond in Gf by lia; done]. rewrite Z in Gf by lia. simplify_eq.
        destruct (Vok f Fn) as [_ N]. destruct (ivs f); [done|cbn; lia].
      - right. intros f F. destruct (Pts f F) as (p' & iv' & G & ?). exists p', iv'. by rewrite ai_before0.
      - intros k Ak. by eapply at_interval_LB. }
    destruct ((1 <? _) || _) eqn:E1; [apply Next; by left|].
    assert (length (ivs i) = S p ∧ eq = true) as [Len ->].
    { apply orb_false_iff in E1 as [E1 E2]. bool_facts. assert (length (ivs i) = S p) as -> by lia. split; [done|].
      destruct eq; [done|]. cbn in E2. bool_facts. lia. }
    rewrite Len. replace (Z.of_nat (S p) - Z.of_nat p =? 0) with false by (symmetry; apply Z.eqb_neq; lia).
    apply Next. right. split; [done|]. intros k Ak. apply (at_endpoint i p iv k); try done. by apply Eq.
Qed.

End Known.

(** *** [advance] *)

Lemma linv_unknowns st i lne : linv st i lne → linv (Iterator.setUnknowns st i) i lne.
Proof.
  intros []. assert (∀ f, (f < i)%nat → valid (Iterator.setUnknowns st i) curr f) as Val.
  { intros f F. destruct (li_valid0 f F) as (p & iv & G & ?). exists p, iv. by rewrite get_setUnknowns, decide_False by lia. }
  assert (∀ f, (i ≤ f)%nat → Iterator.get (Iterator.setUnknowns st i) f = None) as N.
  { intros f F. by rewrite get_setUnknowns, decide_True. }
  split; try done.
  - by rewrite length_setUnknowns.
  - intros f g L1 L2 _. apply N. lia.
  - by left.
  - intros f p. rewrite get_setUnknowns. case_decide; [done|]. apply li_range0.
  - intros p iv. rewrite get_setUnknowns. case_decide; [done|]. apply li_first0.
  - intros k A. by apply (LB_none _ i).
Qed.

Lemma advance_loop_ok limit st todo i lne :
  limit <= 0 → (i + todo)%nat = Iterator.endNonUniversalRanges v → (Iterator.endNonUniversalRanges v ≤ nfields)%nat →
  linv st i lne →
  ∃ res st', Iterator.advance_loop v limit st todo i (drop i curr) lne = Some (res, st') ∧ promise curr res st'.
Proof.
  intros Lim. revert st i lne. induction todo as [|todo IH]; intros st i lne Ei Le I.
  - eexists _, _. split; [reflexivity|]. rewrite Nat.add_0_r in Ei. subst i. by eapply finish_next.
  - assert (i < nfields)%nat as Li by lia. destruct (lookup_lt_is_Some_2 curr i) as [e He]; [unfold key_ok in Kc; lia|].
    cbn [Iterator.advance_loop]. rewrite (drop_S curr e i He).
    assert (at_key curr i = e) as Ee by (unfold at_key; by rewrite He).
    set (kb := match i with O => true | S i' => match _ with Some iv => _ | None => _ end end).
    set (st1 := if kb then st else Iterator.setUnknowns st i).
    assert (linv st1 i lne) as I1 by (unfold st1; destruct kb; [done|by apply linv_unknowns]).
    assert (∀ p, Iterator.get st1 i = Some p → ∀ f, (f < i)%nat → valid_point st1 curr f) as Pts.
    { intros p Gp f F. unfold st1 in *. destruct kb eqn:Ekb; [|rewrite get_setUnknowns, decide_True in Gp by lia; done].
      destruct (li_points _ _ _ I) as [N|P]; [rewrite N in Gp by lia; done|].
      destruct (decide (S f < i)%nat); [by apply P|]. destruct i as [|i']; [lia|]. assert (f = i') as -> by lia. unfold kb in Ekb.
      destruct (li_valid _ _ _ I i' ltac:(lia)) as (q & iv & G & Hq & Fq). rewrite G in Ekb. cbn in Ekb. rewrite Hq in Ekb. by exists q, iv. }
    assert (∃ r, (match Iterator.get st1 i with
                  | None => Iterator.unknown_field v st1 i e (Iterator.reverse_field v i) lne
                  | Some n => Some (Iterator.known_field v limit st1 i n e (Iterator.reverse_field v i) lne)
                  end) = Some r ∧ field_ok i r) as (r & -> & Fr).
    { rewrite <- Ee. destruct (Iterator.get st1 i) as [p|] eqn:G; [|by apply unknown_field_ok].
      eexists. split; [reflexivity|]. apply known_field_ok; try done. by apply (Pts p). }
    cbn [mbind option_bind]. destruct r as [[res|lne'] st']; cbn in Fr; [eauto|]. apply IH; [lia|done|done].
Qed.
End Loop.

Lemma end_le : (Iterator.endNonUniversalRanges v ≤ nfields)%nat.
Proof.
  unfold Iterator.endNonUniversalRanges. rewrite <- length_rev. induction (rev (frv_ranges v)) as [|r l IH]; [done|].
  cbn. destruct (Vector.universalOrReverseUniversalRange r); lia.
Qed.

Lemma advance_ok limit st curr :
  vector_ok → limit <= 0 → key_ok curr → pre st curr →
  ∃ res st', Iterator.advance v limit st curr = Some (res, st') ∧ promise curr res st'.
Proof.
  intros V L Kc P. unfold Iterator.advance. change curr with (drop 0 curr) at 1.
  apply advance_loop_ok; try done; [apply end_le|by apply pre_linv].
Qed.

(** A new iterator knows no position, which is right at every key. *)
Lemma make_pre curr : pre (Iterator.prepDive v (Iterator.make v)) curr.
Proof.
  assert (∀ f, Iterator.get (Iterator.prepDive v (Iterator.make v)) f = None) as G.
  { intros f. unfold Iterator.get. cbn. destruct (_ !! f) as [x|] eqn:E; [|done]. by apply lookup_replicate in E as [-> _]. }
  split.
  - apply length_replicate.
  - cbn. by rewrite length_map, length_imap, length_replicate.
  - cbn. by rewrite length_map, length_imap, length_replicate.
  - intros. apply G.
  - intros f p. by rewrite G.
  - intros p iv. by rewrite G.
  - intros k _ _ _ f p q j _ _. by rewrite G.
Qed.

(** C4: from every key of a scan [advance] answers without losing a matching key: every key from the
    current one on that is in the ranges is one at which the answer allows the scan to go on; where it
    answers that the scan is complete there is none; where it answers to take the next key, the
    current one is in the ranges of all fields that are constrained; and at every key that the answer
    allows, the positions of the iterator are again right.  This is for a scan without
    [singleIntervalLimit] ([limit <= 0]); with one, [advance] may end an interval early. *)
Theorem iterator_advance limit st curr :
  vector_ok → limit <= 0 → key_ok curr → pre st curr →
  ∃ res st', Iterator.advance v limit st curr = Some (res, st') ∧
    (∀ k, key_ok k → key_le curr k → keymatch k → resume res st' curr k) ∧
    (res = NextKey → ∀ f, (f < Iterator.endNonUniversalRanges v)%nat → @mem K (field_dir f) (at_key curr f) (ivs f)) ∧
    (∀ curr', key_ok curr' → resume res st' curr curr' → pre st' curr').
Proof.
  intros V L Kc P. destruct (advance_ok limit st curr V L Kc P) as (res & st' & E & A & B & C & _).
  exists res, st'. split; [done|]. split; [done|]. split; [|done]. intros N f F.
  destruct (A N f F) as (p & iv & _ & Hp & Fin). apply (mem_lookup (H:=field_dir f)). by exists p, iv.
Qed.
End Iter.

(** ** Witness *)

Module IteratorExample.
Import RangeExample.

(** Bounds on an ascending and a descending field *)
Definition bounds : FieldRangeVector elem :=
  mkVector [outside; mkRange [interval e6 false e1 true] [] true None] [([97], 1); ([98], -1)] 1 true.

Lemma bounds_ok : vector_ok bounds.
Proof.
  intros f L. cbn in L. destruct f as [|[|f]]; [..|lia]; (split; [|done]).
  - apply (bool_decide_eq_true_1 (@separated elem (field_dir bounds 0) _)). by vm_compute.
  - apply (bool_decide_eq_true_1 (@separated elem (field_dir bounds 1) _)). by vm_compute.
Qed.

Lemma iterator_advance_witness :
  ∃ res st', Iterator.advance bounds 0 (Iterator.prepDive bounds (Iterator.make bounds)) [e5; e1] = Some (res, st') ∧
    ∀ k, key_ok bounds k → key_le bounds [e5; e1] k → keymatch bounds k → resume bounds res st' [e5; e1] k.
Proof.
  destruct (iterator_advance bounds 0 (Iterator.prepDive bounds (Iterator.make bounds)) [e5; e1]) as (res & st' & E & A & _);
    [apply bounds_ok|lia|done|apply make_pre|]. exists res, st'. by split.
Defined.
End IteratorExample.
