(* ===== verification/IndexBounds.v ===== *)
(** * From the ranges of a query to the bounds of a scan

    Theorems on [FieldRangeVector] (db/queryutil.cpp), the constructor included: it gives every field
    of the index intervals that are separated in the direction of the field and lose no value of the
    range of the query; [matchesKey] tests exactly whether a key is in them; and the start key and the
    end key enclose every such key. *)

From S2P Require Import Prelude StdContainers DocOrder Bson BsonOrder FieldElement FieldRange FieldRangeSet FieldRangeVector RangeIterator.
#[local] Open Scope Z_scope.

(** ** Reversed ranges *)

Section Lookups.
Context `{FieldElement K} `{!TotalOrd K}.
Implicit Types l : list (FieldInterval K).

Lemma separated_of_lookup l :
  (∀ p i, l !! p = Some i → ¬ kle (up i) (lo i)) →
  (∀ p q i j, l !! p = Some i → l !! q = Some j → (p < q)%nat → ¬ kle (lo j) (up i)) → separated l.
Proof.
  intros W Sp. assert (∀ oc, match oc with None => True | Some c => ∀ p i, l !! p = Some i → ¬ kle (lo i) c end → above oc l) as A;
    [|by apply (A None)].
  induction l as [|x l IH]; [done|]. intros oc Hc. split; [destruct oc; [by apply (Hc 0%nat)|done]|].
  split; [by apply (W 0%nat)|]. apply IH.
  - intros p i Hp. by apply (W (S p)).
  - intros p q i j Hp Hq L. apply (Sp (S p) (S q)); [done|done|lia].
  - intros p i Hp. apply (Sp 0%nat (S p)); [done|done|lia].
Qed.

End Lookups.

Section Reverse.
Context `{FieldElementLaws K}.
Implicit Types (i : FieldInterval K) (l : list (FieldInterval K)).

#[local] Abbreviation back := (dir_elem (K:=K) true).
#[local] Instance back_total : @TotalOrd K (@field_cmp K back) := dir_total true.

Definition swap i : FieldInterval K := mkInterval (_upper i) (_lower i).
Definition flip (c : cut K) : cut K := Cut (cut_at c) (negb (cut_after c)).

Lemma swap_lo i : lo (swap i) = flip (up i).
Proof. done. Qed.
Lemma swap_up i : up (swap i) = flip (lo i).
Proof. unfold up, lo, flip. cbn. by rewrite negb_involutive. Qed.

Lemma flip_kle c d : @kle (cut K) (@cut_cmp K (@field_cmp K back)) (flip c) (flip d) ↔ kle d c.
Proof.
  destruct c as [a x], d as [b y]. unfold kle. rewrite !cut_compare. cbn.
  change (@woCompare K (@field_cmp K back) a b) with (- woCompare a b). pose proof (woCompare_opp a b).
  destruct x, y; cbn; crush_cmp.
Qed.

Lemma back_below v c : @below K back v (flip c) ↔ ¬ below v c.
Proof.
  rewrite cut_adjacent. unfold below. change (Cut v true) with (flip (Cut v false)). apply flip_kle.
Qed.

Lemma back_inb v i : @inb K back v (swap i) ↔ inb v i.
Proof.
  unfold inb. rewrite swap_lo, swap_up, !back_below. split; [|tauto]. intros [A B]. split; [done|]. by apply dec_stable.
Qed.

Lemma rev_lookup_inv {A} (l : list A) p x :
  List.rev l !! p = Some x → (p < length l)%nat ∧ l !! (length l - S p)%nat = Some x.
Proof.
  intros E. rewrite rev_alt in E. change (rev_append l []) with (reverse l) in E. pose proof (lookup_lt_Some _ _ _ E) as L.
  rewrite length_reverse in L. rewrite reverse_lookup in E by done. done.
Qed.

Lemma reverse_separated l : separated l → @separated K back (List.rev (map swap l)).
Proof.
  intros Sp. apply (separated_of_lookup (H:=back)).
  - intros p i [L E]%rev_lookup_inv. rewrite list_lookup_fmap in E. destruct (l !! _) as [i'|] eqn:Ei; [|done].
    injection E as <-. rewrite swap_lo, swap_up, flip_kle. by eapply separated_valid.
  - intros p q i j [L E]%rev_lookup_inv [L' E']%rev_lookup_inv Lt. rewrite length_map in *.
    rewrite list_lookup_fmap in E, E'. destruct (l !! (length l - S p)%nat) as [i'|] eqn:Ei; [|done]. destruct (l !! (length l - S q)%nat) as [j'|] eqn:Ej; [|done].
    injection E as <-. injection E' as <-. rewrite swap_lo, swap_up, flip_kle.
    eapply separated_lookup; [done|exact Ej|exact Ei|lia].
Qed.

Lemma reverse_mem v l : @mem K back v (List.rev (map swap l)) ↔ mem v l.
Proof.
  unfold mem. rewrite !Exists_exists. split.
  - intros (i & E & I). apply list_elem_of_In, in_rev, list_elem_of_In, list_elem_of_fmap in E as (i' & -> & E).
    exists i'. split; [done|]. by apply back_inb.
  - intros (i & E & I). exists (swap i). split; [|by apply back_inb].
    apply list_elem_of_In, in_rev. rewrite rev_involutive. apply list_elem_of_In, list_elem_of_fmap. by exists i.
Qed.

End Reverse.

(** ** The constructor *)

Section Make.
Context `{FieldElementLaws K} (rawdata_eq : K → K → bool) (frs : FieldRangeSet K) (direction : Z).

(** What one field of the index gets from the range of the query. *)
Definition field_spec (p : list Z * Z) (r : FieldRange K) : Prop :=
  @separated K (dir_elem (negb (Vector.forward p.2 direction))) (_intervals r) ∧ _intervals r ≠ [] ∧
  (∀ x, contains (RangeSet.range frs p.1) x → @mem K (dir_elem (negb (Vector.forward p.2 direction))) x (_intervals r)) ∧
  (_singleKey frs = true → ∀ x, @mem K (dir_elem (negb (Vector.forward p.2 direction))) x (_intervals r) →
     contains (RangeSet.range frs p.1) x).

Lemma choose_range_spec name ctxs has r ctxs' has' :
  range_ok (RangeSet.range frs name) → Range.empty (RangeSet.range frs name) = false →
  Vector.choose_range rawdata_eq frs name ctxs has = (r, ctxs', has') →
  range_ok r ∧ _intervals r ≠ [] ∧ (∀ x, contains (RangeSet.range frs name) x → contains r x) ∧
  (_singleKey frs = true → r = RangeSet.range frs name).
Proof.
  intros Rk Ne E. assert (_intervals (RangeSet.range frs name) ≠ []) as Ne' by (unfold Range.empty in Ne; by destruct (_intervals _)).
  assert (r = RangeSet.range frs name ∨ r = RangeSet.universalRange ∧ _singleKey frs = false) as [->|[-> Sk]].
  { unfold Vector.choose_range in E. destruct (_singleKey frs); [left; by simplify_eq|].
    destruct (sl_find fst name_lt _ ctxs) as [c|].
    - destruct (match _elemMatchContext _ with Some _ => _ | None => _ end); simplify_eq; auto.
    - destruct (Range.universal _); simplify_eq; auto. }
  - done.
  - split; [apply universalRange_ok|]. split; [done|]. split; [intros; apply universalRange_contains|]. by rewrite Sk.
Qed.

Lemma field_spec_forward p r :
  range_ok r → _intervals r ≠ [] → (∀ x, contains (RangeSet.range frs p.1) x → contains r x) →
  (_singleKey frs = true → r = RangeSet.range frs p.1) → Vector.forward p.2 direction = true → field_spec p r.
Proof.
  intros Rk Ne Sub Sk F. unfold field_spec. rewrite F. cbn [negb]. split; [exact Rk|]. split; [done|]. split; [exact Sub|].
  intros S x M. rewrite <- (Sk S). exact M.
Qed.

Lemma field_spec_backward p r r' :
  range_ok r → _intervals r ≠ [] → (∀ x, contains (RangeSet.range frs p.1) x → contains r x) →
  (_singleKey frs = true → r = RangeSet.range frs p.1) → Vector.forward p.2 direction = false →
  Range.reverse r RangeSet.universalRange = Some r' → field_spec p r'.
Proof.
  intros Rk Ne Sub Sk F. unfold Range.reverse. destruct (_special r); [|done]. intros [= <-]. unfold field_spec. rewrite F.
  cbn [negb _intervals Range.set_intervals]. change (λ i, mkInterval (_upper i) (_lower i)) with (swap (K:=K)).
  split; [by apply reverse_separated|]. split; [|split].
  - intros E. apply Ne. apply (f_equal length) in E. rewrite length_rev, length_map in E. by destruct (_intervals r).
  - intros x C. apply reverse_mem. by apply Sub.
  - intros S x M. rewrite <- (Sk S). by apply reverse_mem in M.
Qed.

Lemma ctor_loop_spec pattern ctxs has acc ranges has' :
  Forall (λ p, range_ok (RangeSet.range frs p.1)) pattern →
  Vector.ctor_loop rawdata_eq frs direction pattern ctxs has acc = Ok (ranges, has') →
  ∃ new, ranges = acc ++ new ∧ Forall2 field_spec pattern new.
Proof.
  intros Rs. revert ctxs has acc. induction Rs as [|[name number] pattern R0 Rs IH]; intros ctxs has acc E; cbn in E.
  - simplify_eq. exists []. by rewrite app_nil_r.
  - destruct (Range.empty (RangeSet.range frs name)) eqn:Ne; [done|].
    destruct (Vector.choose_range rawdata_eq frs name ctxs has) as [[r ctxs1] has1] eqn:Ec.
    destruct (choose_range_spec _ _ _ _ _ _ R0 Ne Ec) as (Rk & Ne' & Sub & Sk).
    assert (∀ r', field_spec (name, number) r' → Vector.ctor_loop rawdata_eq frs direction pattern ctxs1 has1 (acc ++ [r']) = Ok (ranges, has') →
              ∃ new, ranges = acc ++ new ∧ Forall2 field_spec ((name, number) :: pattern) new) as Next.
    { intros r' Sp El. destruct (IH _ _ _ El) as (new & -> & F). exists (r' :: new). rewrite <- app_assoc. split; [done|by constructor]. }
    destruct (Vector.forward number direction) eqn:Ef.
    + eapply Next; [|exact E]. by apply field_spec_forward.
    + destruct (Range.reverse r RangeSet.universalRange) as [r'|] eqn:Er; [|done].
      eapply Next; [|exact E]. by eapply field_spec_backward.
Qed.

Lemma make_spec pattern v :
  Forall (λ p, range_ok (RangeSet.range frs p.1)) pattern → Vector.make rawdata_eq frs direction pattern = Ok v →
  Forall2 field_spec pattern (frv_ranges v) ∧ _keyPattern v = pattern ∧
  ∀ number, xorb (number <? 0) (_direction v <? 0) = negb (Vector.forward number direction).
Proof.
  intros Rs. unfold Vector.make. destruct (negb _); [done|].
  destruct (Vector.ctor_loop _ _ _ _ _ _ _) as [[ranges has]|] eqn:E; [|done].
  destruct (Vector.size ranges) as [sz|]; [|done]. destruct (Vector.MAX_IN_COMBINATIONS <=? sz); [done|]. intros [= <-]. cbn.
  apply ctor_loop_spec in E as (new & -> & F); [|done]. split; [done|]. split; [done|]. intros number. unfold Vector.forward.
  destruct (0 <=? direction), (0 <=? number) eqn:En; bool_facts; cbn;
    [rewrite (proj2 (Z.ltb_ge number 0)) by lia|rewrite (proj2 (Z.ltb_lt number 0)) by lia|rewrite (proj2 (Z.ltb_ge number 0)) by lia|rewrite (proj2 (Z.ltb_lt number 0)) by lia]; done.
Qed.

(** The fields of the bounds, and of the key of an assignment of values *)
Lemma make_field pattern v φ f :
  Forall (λ p, range_ok (RangeSet.range frs p.1)) pattern → Vector.make rawdata_eq frs direction pattern = Ok v → (f < length (frv_ranges v))%nat →
  ∃ p r, pattern !! f = Some p ∧ Iterator.intervals_of v f = _intervals r ∧
    Iterator.reverse_field v f = negb (Vector.forward p.2 direction) ∧ field_spec p r ∧ at_key (map (λ p, φ p.1) pattern) f = φ p.1.
Proof.
  intros Rs (F & Ep & Ed)%make_spec L; [|done]. destruct (lookup_lt_is_Some_2 (frv_ranges v) f L) as [r Hr].
  destruct (Forall2_lookup_r _ _ _ _ _ F Hr) as (p & Hp & Sp). exists p, r. split; [done|].
  unfold Iterator.intervals_of, Iterator.reverse_field, at_key. rewrite Hr, Ep, Hp, list_lookup_fmap, Hp. cbn.
  destruct p as [name number]. split; [done|]. split; [apply Ed|]. done.
Qed.

Lemma make_vector_ok pattern v :
  Forall (λ p, range_ok (RangeSet.range frs p.1)) pattern → Vector.make rawdata_eq frs direction pattern = Ok v →
  vector_ok v ∧ length (frv_ranges v) = length pattern ∧ _keyPattern v = pattern.
Proof.
  intros Rs M. split.
  - intros f L. destruct (make_field pattern v (λ _, minKey) f Rs M L) as (p & r & _ & E1 & E2 & (S1 & S2 & _) & _). unfold field_dir. rewrite E1, E2. done.
  - apply make_spec in M as (F & Ep & _); [|done]. pose proof (Forall2_length _ _ _ F). done.
Qed.

Lemma make_keymatch pattern v φ :
  Forall (λ p, range_ok (RangeSet.range frs p.1)) pattern → Vector.make rawdata_eq frs direction pattern = Ok v →
  Forall (λ p, contains (RangeSet.range frs p.1) (φ p.1)) pattern → keymatch v (map (λ p, φ p.1) pattern).
Proof.
  intros Rs M Sat f L. destruct (make_field pattern v φ f Rs M L) as (p & r & Hp & E1 & E2 & (_ & _ & S3 & _) & E3).
  unfold field_dir. rewrite E1, E2, E3. apply S3. rewrite Forall_forall in Sat. by apply Sat, list_elem_of_lookup_2 with f.
Qed.

(** C12: the bounds of an index scan that the planner derives from the ranges of a query have, for every
    field of the index, intervals that are separated in the direction of the field; the key of every
    assignment of values that the ranges allow is inside them; and on a single key index the fields of a
    key inside them are in the ranges of the query. *)
Theorem vector_make (Fok : set_ok frs) pattern v φ :
  Vector.make rawdata_eq frs direction pattern = Ok v →
  vector_ok v ∧ length (frv_ranges v) = length pattern ∧
  (satisfies frs φ → keymatch v (map (λ p, φ p.1) pattern)) ∧
  (_singleKey frs = true → keymatch v (map (λ p, φ p.1) pattern) →
   Forall (λ p, contains (RangeSet.range frs p.1) (φ p.1)) pattern).
Proof.
  intros M. assert (Forall (λ p, range_ok (RangeSet.range frs p.1)) pattern) as Rs by (apply Forall_forall; intros p _; apply lookup_ok, Fok).
  destruct (make_vector_ok _ _ Rs M) as (V & Len & _). split; [done|]. split; [done|]. split.
  - intros Sat. apply make_keymatch; [done|done|]. apply Forall_forall. intros p _. by apply lookup_contains.
  - intros Sk Km. apply Forall_lookup. intros f p Hp. assert (f < length (frv_ranges v))%nat as L by (apply lookup_lt_Some in Hp; lia).
    destruct (make_field pattern v φ f Rs M L) as (p' & r & Hp' & E1 & E2 & (_ & _ & _ & S4) & E3). specialize (Km f L). unfold field_dir in Km. rewrite E1, E2, E3 in Km. simplify_eq.
    by apply S4.
Qed.
End Make.


(** ** Keys inside the bounds *)

Section Keys.
Context `{FieldElementLaws K} (v : FieldRangeVector K).
#[local] Existing Instance field_dir_total.
Context (Vok : vector_ok v) (Pat : length (_keyPattern v) = length (frv_ranges v)).

Lemma reverse_forward number direction : xorb (number <? 0) (direction <? 0) = negb (Vector.forward number direction).
Proof.
  unfold Vector.forward. destruct (0 <=? direction) eqn:Ed, (0 <=? number) eqn:En; bool_facts.
  - by rewrite (proj2 (Z.ltb_ge number 0)), (proj2 (Z.ltb_ge direction 0)) by lia.
  - by rewrite (proj2 (Z.ltb_lt number 0)), (proj2 (Z.ltb_ge direction 0)) by lia.
  - by rewrite (proj2 (Z.ltb_ge number 0)), (proj2 (Z.ltb_lt direction 0)) by lia.
  - by rewrite (proj2 (Z.ltb_lt number 0)), (proj2 (Z.ltb_lt direction 0)) by lia.
Qed.

Lemma found_even (E : FieldElement K) (T : @TotalOrd K (@field_cmp K E)) l (e : K) y b :
  @found K E l e y b → (Z.rem y 2 =? 0) = true ↔ @mem K E e l.
Proof.
  intros [(q & -> & i & Hq & I)|(q & -> & (_ & P & N) & _)].
  - split; intros _; [|apply rem_even]. apply mem_lookup. eauto.
  - destruct (rem_odd q) as [-> _]. split; [done|]. intros (p & i & Hp & B1 & B2)%mem_lookup. exfalso.
    destruct (decide (p < q)%nat); [by apply (P p i)|]. apply B1, (N p i); [lia|done].
Qed.

Lemma matches_from_spec direction l pattern (key : list K) :
  length pattern = length l → length key = length l →
  (∀ f r p, l !! f = Some r → pattern !! f = Some p →
     @separated K (dir_elem (negb (Vector.forward p.2 direction))) (_intervals r)) →
  ∃ b, Vector.matches_from direction l pattern key = Some b ∧
    (b = true ↔ ∀ f r p e, l !! f = Some r → pattern !! f = Some p → key !! f = Some e →
       @mem K (dir_elem (negb (Vector.forward p.2 direction))) e (_intervals r)).
Proof.
  revert pattern key. induction l as [|r l IH]; intros [|[name number] pattern] [|e key] Lp Lk Sp; try done.
  { exists true. split; [done|]. done. }
  cbn [Vector.matches_from]. unfold Vector.matchesElement.
  set (rev := negb (Vector.forward number direction)).
  destruct (@matchingLow_forward K (dir_elem rev) (dir_total rev) (_intervals r) e (Sp 0%nat _ _ eq_refl eq_refl)) as (y & b & E & F).
  assert (Vector.matchingLowElement (_intervals r) e (Vector.forward number direction) = Some (y, b)) as ->.
  { rewrite <- E. unfold Vector.matchingLowElement. rewrite search_dir. unfold rev. by rewrite negb_involutive. }
  pose proof (found_even _ (dir_total rev) _ _ _ _ F) as Ev. cbn [mbind option_bind fst].
  destruct (IH pattern key) as (b' & E' & Q); [by injection Lp|by injection Lk|by intros f; apply (Sp (S f))|].
  destruct (Z.rem y 2 =? 0).
  - exists b'. split; [done|]. rewrite Q. split.
    + intros A [|f] r' p' e'; cbn; [|apply A]. intros [= <-] [= <-] [= <-]. by apply Ev.
    + intros A f. apply (A (S f)).
  - exists false. split; [done|]. split; [done|]. intros A. apply Ev. by apply (A 0%nat r (name, number) e).
Qed.

Lemma matchesKey_spec k :
  key_ok v k → ∃ b, Vector.matchesKey v k = Some b ∧ (b = true ↔ keymatch v k).
Proof.
  intros Kk. assert (∀ f p, _keyPattern v !! f = Some p → Iterator.reverse_field v f = negb (Vector.forward p.2 (_direction v))) as Rev.
  { intros f [name number] Hp. unfold Iterator.reverse_field. rewrite Hp. apply reverse_forward. }
  destruct (matches_from_spec (_direction v) (frv_ranges v) (_keyPattern v) k Pat Kk) as (b & E & Q).
  - intros f r p Hr Hp. destruct (Vok f) as [Sp _]; [by eapply lookup_lt_Some|].
    unfold field_dir, Iterator.intervals_of in Sp. rewrite (Rev f p Hp), Hr in Sp. exact Sp.
  - exists b. split; [done|]. rewrite Q. unfold keymatch, field_dir, Iterator.intervals_of, at_key. split.
    + intros A f L. destruct (lookup_lt_is_Some_2 _ _ L) as [r Hr]. destruct (lookup_lt_is_Some_2 (_keyPattern v) f) as [p Hp]; [lia|].
      destruct (lookup_lt_is_Some_2 k f) as [e He]; [unfold key_ok in Kk; lia|]. rewrite (Rev f p Hp), Hr, He. by apply (A f r p e).
    + intros A f r p e Hr Hp He. specialize (A f ltac:(by eapply lookup_lt_Some)). rewrite (Rev f p Hp), Hr, He in A. exact A.
Qed.

(** C28: [matchesKey] tests exactly whether every field of a key is in the range of its field. *)
Theorem vector_matchesKey k :
  key_ok v k → ∃ b, Vector.matchesKey v k = Some b ∧ (b = true ↔ keymatch v k).
Proof. apply matchesKey_spec. Qed.

(** *** The start and the end *)

Lemma head_lookup {A} (l : list A) x : head l = Some x → l !! 0%nat = Some x.
Proof. by destruct l. Qed.

Lemma intervals_drop o r l : drop o (frv_ranges v) = r :: l → Iterator.intervals_of v o = _intervals r ∧ (o < length (frv_ranges v))%nat ∧ drop (S o) (frv_ranges v) = l.
Proof.
  intros E. assert (frv_ranges v !! o = Some r) as Hr by (rewrite <- (Nat.add_0_r o), <- lookup_drop, E; done).
  unfold Iterator.intervals_of. rewrite Hr. split; [done|]. split; [by eapply lookup_lt_Some|].
  rewrite (drop_S _ _ _ Hr) in E. by injection E.
Qed.

Lemma at_key_app_r pre (x : K) s : at_key (pre ++ x :: s) (length pre) = x.
Proof. unfold at_key. by rewrite list_lookup_middle. Qed.

Lemma share_snoc o pre x s k :
  length pre = o → share v o (pre ++ x :: s) k → fle v o x (at_key k o) → fle v o (at_key k o) x →
  share v (S o) ((pre ++ [x]) ++ s) k.
Proof.
  intros L Sh L1 L2 f F. rewrite <- app_assoc. cbn [app]. destruct (decide (f = o)) as [->|]; [|apply Sh; lia].
  subst o. by rewrite at_key_app_r.
Qed.

Lemma length_extremes (hi low : K) d l pattern : length pattern = length l → length (Vector.extremes hi low d l pattern) = length l.
Proof.
  revert pattern. induction l as [|r l IH]; intros [|[name number] pattern] L; try done. cbn. by rewrite IH; [|injection L].
Qed.

Lemma start_from_spec l o pattern :
  l = drop o (frv_ranges v) → (o ≤ length (frv_ranges v))%nat → length pattern = length l →
  ∃ s, Vector.start_from (_direction v) l pattern = Some s ∧ length s = length l ∧
    ∀ pre k, length pre = o → keymatch v k → share v o (pre ++ s) k → key_le v (pre ++ s) k.
Proof.
  revert o pattern. induction l as [|r l IH]; intros o pattern El Lo Lp.
  - exists []. destruct pattern; [|done]. split; [done|]. split; [done|]. intros pre k Lpre _ Sh. left.
    apply (f_equal length) in El. rewrite length_drop in El. cbn in El. eapply share_le; [|exact Sh]. lia.
  - destruct pattern as [|p pattern]; [done|]. symmetry in El. destruct (intervals_drop o r l El) as (Ei & Lt & El').
    destruct (Vok o Lt) as [Sp Ne]. rewrite Ei in Sp, Ne. destruct (_intervals r) as [|iv ivs'] eqn:Er; [done|].
    cbn [Vector.start_from]. rewrite Er. cbn [head mbind option_bind].
    assert (∃ rest, (if _inclusive (_lower iv) then Vector.start_from (_direction v) l pattern
                     else Some (Vector.extremes maxKey minKey (_direction v) l pattern)) = Some rest ∧ length rest = length l ∧
              (_inclusive (_lower iv) = true → ∀ pre k, length pre = S o → keymatch v k → share v (S o) (pre ++ rest) k → key_le v (pre ++ rest) k))
      as (rest & -> & Lr & Hr).
    { destruct (IH (S o) pattern) as (s & E & Ls & Hs); [done|lia|by injection Lp|].
      destruct (_inclusive (_lower iv)); [by exists s|]. eexists. split; [done|]. split; [|done]. apply length_extremes. by injection Lp. }
    eexists. split; [reflexivity|]. split; [cbn; lia|]. intros pre k Lpre M Sh.
    destruct (proj1 (mem_lookup (H:=field_dir v o) _ _) (M o Lt)) as (q & j & Hq & Fq). rewrite Ei in Hq.
    assert (¬ fbelow v o (at_key k o) (lo iv)) as B.
    { apply (from_interval v Vok o 0 q iv j); [done|by rewrite Ei|by rewrite Ei|lia|done]. }
    pose proof (lower_le v o _ _ B) as L1. destruct (decide (fle v o (at_key k o) (_bound (_lower iv)))) as [L2|N].
    + assert (_inclusive (_lower iv) = true) as Inc.
      { destruct (_inclusive (_lower iv)) eqn:E; [done|]. by destruct (lower_lt v o _ _ B E). }
      pose proof (share_snoc o pre _ rest k Lpre Sh L1 L2) as Sh'.
      specialize (Hr Inc (pre ++ [_bound (_lower iv)]) k). rewrite <- app_assoc in Hr. apply Hr; [rewrite length_app; cbn; lia|done|].
      rewrite <- app_assoc in Sh'. exact Sh'.
    + right. exists o. split; [done|]. split; [done|]. subst o. by rewrite at_key_app_r.
Qed.

Lemma to_interval f p q iv j x :
  (f < length (frv_ranges v))%nat → Iterator.intervals_of v f !! p = Some iv → Iterator.intervals_of v f !! q = Some j → (q ≤ p)%nat →
  fin v f x j → fbelow v f x (up iv).
Proof.
  intros F Hp Hq L [_ B]. destruct (Vok f F) as [Sp _]. by eapply (below_later (H:=field_dir v f)).
Qed.

Lemma upper_le f x iv : fbelow v f x (up iv) → fle v f x (_bound (_upper iv)).
Proof.
  unfold fbelow, up, fle. rewrite (below_cut (H:=field_dir v f)). destruct (_inclusive (_upper iv)); [done|apply kle_total].
Qed.

Lemma upper_lt f x iv : fbelow v f x (up iv) → _inclusive (_upper iv) = false → ¬ fle v f (_bound (_upper iv)) x.
Proof. unfold fbelow, up, fle. rewrite (below_cut (H:=field_dir v f)). intros N E. by rewrite E in N. Qed.

Lemma end_from_spec l o pattern :
  l = drop o (frv_ranges v) → (o ≤ length (frv_ranges v))%nat → length pattern = length l →
  ∃ s, Vector.end_from (_direction v) l pattern = Some s ∧ length s = length l ∧
    ∀ pre k, length pre = o → keymatch v k → share v o (pre ++ s) k → key_le v k (pre ++ s).
Proof.
  revert o pattern. induction l as [|r l IH]; intros o pattern El Lo Lp.
  - exists []. destruct pattern; [|done]. split; [done|]. split; [done|]. intros pre k Lpre _ Sh. left.
    apply (f_equal length) in El. rewrite length_drop in El. cbn in El. apply share_sym. eapply share_le; [|exact Sh]. lia.
  - destruct pattern as [|p pattern]; [done|]. symmetry in El. destruct (intervals_drop o r l El) as (Ei & Lt & El').
    destruct (Vok o Lt) as [Sp Ne]. destruct (last (_intervals r)) as [iv|] eqn:Er; [|apply last_None in Er; by rewrite Ei in Ne].
    cbn [Vector.end_from]. rewrite Er. cbn [mbind option_bind].
    assert (∃ rest, (if _inclusive (_upper iv) then Vector.end_from (_direction v) l pattern
                     else Some (Vector.extremes minKey maxKey (_direction v) l pattern)) = Some rest ∧ length rest = length l ∧
              (_inclusive (_upper iv) = true → ∀ pre k, length pre = S o → keymatch v k → share v (S o) (pre ++ rest) k → key_le v k (pre ++ rest)))
      as (rest & -> & Lr & Hr).
    { destruct (IH (S o) pattern) as (s & E & Ls & Hs); [done|lia|by injection Lp|].
      destruct (_inclusive (_upper iv)); [by exists s|]. eexists. split; [done|]. split; [|done]. apply length_extremes. by injection Lp. }
    eexists. split; [reflexivity|]. split; [cbn; lia|]. intros pre k Lpre M Sh.
    destruct (proj1 (mem_lookup (H:=field_dir v o) _ _) (M o Lt)) as (q & j & Hq & Fq).
    assert (fbelow v o (at_key k o) (up iv)) as B.
    { rewrite last_lookup, <- Ei in Er. eapply (to_interval o); [done|exact Er|exact Hq| |exact Fq]. apply lookup_lt_Some in Hq. lia. }
    pose proof (upper_le o _ _ B) as L1. destruct (decide (fle v o (_bound (_upper iv)) (at_key k o))) as [L2|N].
    + assert (_inclusive (_upper iv) = true) as Inc.
      { destruct (_inclusive (_upper iv)) eqn:E; [done|]. by destruct (upper_lt o _ _ B E). }
      pose proof (share_snoc o pre _ rest k Lpre Sh L2 L1) as Sh'.
      specialize (Hr Inc (pre ++ [_bound (_upper iv)]) k). rewrite <- app_assoc in Hr. apply Hr; [rewrite length_app; cbn; lia|done|].
      rewrite <- app_assoc in Sh'. exact Sh'.
    + right. exists o. split; [done|]. split; [by apply share_sym|]. subst o. by rewrite at_key_app_r.
Qed.

Lemma start_end_spec :
  ∃ s e, Vector.startKey v = Some s ∧ Vector.endKey v = Some e ∧ key_ok v s ∧ key_ok v e ∧
    ∀ k, keymatch v k → key_le v s k ∧ key_le v k e.
Proof.
  destruct (start_from_spec (frv_ranges v) 0 (_keyPattern v)) as (s & Es & Ls & Hs); [done|lia|done|].
  destruct (end_from_spec (frv_ranges v) 0 (_keyPattern v)) as (e & Ee & Le & He); [done|lia|done|].
  exists s, e. repeat split; try done.
  - apply (Hs [] k); [done|done|]. intros f F. lia.
  - apply (He [] k); [done|done|]. intros f F. lia.
Qed.

(** The start key and the end key of a scan exist and enclose, in the order of the scan, every key that
    is in the ranges. *)
Theorem vector_start_end :
  ∃ s e, Vector.startKey v = Some s ∧ Vector.endKey v = Some e ∧ key_ok v s ∧ key_ok v e ∧
    ∀ k, keymatch v k → key_le v s k ∧ key_le v k e.
Proof. apply start_end_spec. Qed.
End Keys.

(** ** Witnesses *)

Module BoundsExample.
Import RangeExample RangeSetExample IteratorExample.

Definition pattern : list (list Z * Z) := [([97], 1); ([98], -1)].

Lemma vector_make_witness :
  ∃ v, Vector.make (λ _ _, false) two 1 pattern = Ok v ∧ vector_ok v ∧ keymatch v (map (λ p, values p.1) pattern).
Proof.
  assert (match Vector.make (λ _ _, false) two 1 pattern with Ok _ => true | Err _ => false end = true) as Mk by (by vm_compute).
  destruct (Vector.make (λ _ _, false) two 1 pattern) as [v|] eqn:E; [|done].
  exists v. split; [done|].
  destruct (vector_make (λ _ _, false) two 1 two_ok pattern v values E) as (A & _ & B & _). split; [done|]. apply B.
  unfold satisfies, in_ranges, contains. apply (bool_decide_eq_true_1 _). by vm_compute.
Defined.

Lemma vector_matchesKey_witness :
  ∃ b, Vector.matchesKey bounds [e1; e5] = Some b ∧ (b = true ↔ keymatch bounds [e1; e5]).
Proof. apply (vector_matchesKey bounds bounds_ok eq_refl [e1; e5]). done. Defined.

Lemma vector_start_end_witness :
  ∃ s e, Vector.startKey bounds = Some s ∧ Vector.endKey bounds = Some e ∧ key_ok bounds s ∧ key_ok bounds e ∧
    ∀ k, keymatch bounds k → key_le bounds s k ∧ key_le bounds k e.
Proof. apply (vector_start_end bounds bounds_ok eq_refl). Defined.
End BoundsExample.
