(* ===== verification/RowBuffer.v ===== *)
(** * The row buffer of an index cursor

    Models [RowBuffer] (db/cursor.h, db/indexcursor.cpp): the bytes into which a cursor fetches rows in
    bulk.  Offsets and sizes are the [size_t] values, which stay far below their width; fresh memory
    has arbitrary contents ([uninit]).  Failed [verify]s are [None]; [dassert]s are not modelled.

    [RowQueue] states what a cursor asks of the buffer: a queue of rows.  The theorem
    [rowbuffer_queue] shows that the bytes implement it: rows come out in the order they went in,
    with the key, the primary key and the document they went in with, however the buffer grows. *)

From S2P Require Import Prelude Bson StorageKey.
#[local] Open Scope Z_scope.

(** What a cursor asks of its buffer: [rq_repr b rows] when the rows not yet passed are [rows];
    [rq_valid] are the rows that may be put in. *)
Class RowQueue (B R : Type) := {
  rq_new : B;
  rq_ok : B → bool;
  rq_isGorged : B → bool;
  rq_current : B → option R;
  rq_append : R → B → option B;
  rq_next : B → option (bool * B);
  rq_empty : B → B;
  rq_valid : R → Prop;
  rq_repr : B → list R → Prop;
  rq_new_repr : rq_repr rq_new [];
  rq_ok_repr b rows : rq_repr b rows → rq_ok b = match rows with [] => false | _ => true end;
  rq_current_repr b r rows : rq_repr b (r :: rows) → rq_current b = Some r;
  rq_append_repr b r rows :
    rq_valid r → rq_repr b rows → ∃ b', rq_append r b = Some b' ∧ rq_repr b' (rows ++ [r]);
  rq_next_repr b r rows :
    rq_repr b (r :: rows) → ∃ b', rq_next b = Some (rq_ok b', b') ∧ rq_repr b' rows;
  rq_next_end b : rq_repr b [] → rq_next b = Some (false, b);
  rq_empty_repr b rows : rq_repr b rows → rq_repr (rq_empty b) []
}.

Record RowBuffer := mkBuffer { _size : Z; _current_offset : Z; _end_offset : Z; _buf : list Z }.

Module Buf.
Section buf.
Context (uninit : Z → list Z).
Implicit Types b : RowBuffer.

Definition hasPK : Z := 1.
Definition hasObj : Z := 2.
Definition _BUF_SIZE_PREFERRED : Z := 128 * 1024.

Definition make : RowBuffer := mkBuffer 1024 0 0 (uninit 1024).

Definition ok b : bool := _current_offset b <? _end_offset b.

Definition isGorged b : bool :=
  (_size b <? _end_offset b + 100) || (_BUF_SIZE_PREFERRED <? _size b).

(** [memcpy(_buf + offset, data, size)] *)
Definition memcpy (offset : Z) (data buf : list Z) : list Z :=
  take (Z.to_nat offset) buf ++ data ++ drop (Z.to_nat offset + length data) buf.

(** [append]: the key is its bytes, the document the fields ([isEmpty] is the empty one). *)
Definition grow (size_needed : Z) b : Z * list Z :=
  if _size b <? size_needed then
    let new_size := Z.max size_needed (4 * _size b) in
    (new_size, memcpy 0 (take (Z.to_nat (_size b)) (_buf b)) (uninit new_size))
  else (_size b, _buf b).

Definition header (pk obj : bobj) : Z :=
  Z.lor (match pk with [] => 0 | _ => hasPK end) (match obj with [] => 0 | _ => hasObj end).

Definition append (sKey : list Z) (obj : bobj) b : option RowBuffer :=
  let obj_data := match obj with [] => [] | _ => obj_bytes obj end in
  let size_needed := _end_offset b + 1 + Z.of_nat (length sKey) + Z.of_nat (length obj_data) in
  let '(size, buf) := grow size_needed b in
  pk ← Key.pk sKey;
  let buf := memcpy (_end_offset b) [header pk obj] buf in
  let end1 := _end_offset b + 1 in
  let buf := memcpy end1 sKey buf in
  let end2 := end1 + Z.of_nat (length sKey) in
  let buf := memcpy end2 obj_data buf in
  let end3 := end2 + Z.of_nat (length obj_data) in
  if end3 <=? size then Some (mkBuffer size (_current_offset b) end3 buf) else None.

Definition from (offset : Z) b : list Z := drop (Z.to_nat offset) (_buf b).

(** [current]: the bytes of the key, and the document. *)
Definition current b : option (list Z * bobj) :=
  headerBits ← head (from (_current_offset b) b);
  let buf := from (_current_offset b + 1) b in
  size ← Key.size_at buf (negb (Z.land headerBits hasPK =? 0));
  let rest := drop (Z.to_nat size) buf in
  obj ← (if Z.land headerBits hasObj =? 0 then Some [] else read_obj (length rest) rest);
  Some (take (Z.to_nat size) buf, obj).

Definition next b : option (bool * RowBuffer) :=
  if negb (ok b) then Some (false, b)
  else
    headerBits ← head (from (_current_offset b) b);
    let offset := _current_offset b + 1 in
    size ← Key.size_at (from offset b) (negb (Z.land headerBits hasPK =? 0));
    let offset := offset + size in
    objsize ← (if Z.land headerBits hasObj =? 0 then Some 0
               else sz ← rd32 (from offset b);
                    if (0 <? sz) && (sz <=? BSONObjMaxInternalSize) then Some sz else None);
    let offset := offset + objsize in
    if offset <=? _end_offset b then
      let b' := mkBuffer (_size b) offset (_end_offset b) (_buf b) in Some (ok b', b')
    else None.

Definition empty b : RowBuffer :=
  if 0 <? _end_offset b then
    if _BUF_SIZE_PREFERRED * 2 <? _size b
    then mkBuffer _BUF_SIZE_PREFERRED 0 0 (uninit _BUF_SIZE_PREFERRED)
    else mkBuffer (_size b) 0 0 (_buf b)
  else b.

End buf.
End Buf.

(** ** Rows *)

Record row := mkRow { row_key : bobj; row_pk : option bobj; row_obj : bobj }.

Definition row_ok (r : row) : bool :=
  wf_obj (row_key r) && match row_pk r with None => true | Some [] => false | Some o => wf_obj o end &&
  match row_obj r with [] => true | o => wf_obj o end.

Definition row_sKey (r : row) : list Z := Key.make (row_key r) (row_pk r).
Definition row_objdata (r : row) : list Z := match row_obj r with [] => [] | _ => obj_bytes (row_obj r) end.
Definition row_bytes (r : row) : list Z :=
  Buf.header (default [] (row_pk r)) (row_obj r) :: row_sKey r ++ row_objdata r.

Definition rows_bytes (rows : list row) : list Z := concat (map row_bytes rows).

(** The buffer holds the rows between its offsets. *)
Record buf_repr (b : RowBuffer) (rows : list row) : Prop := {
  br_rows : Forall (λ r, row_ok r = true) rows;
  br_size : Z.of_nat (length (_buf b)) = _size b;
  br_cur : 0 <= _current_offset b;
  br_pos : 0 < _size b;
  br_data : ∃ post, Buf.from (_current_offset b) b = rows_bytes rows ++ post;
  br_end : _end_offset b = _current_offset b + Z.of_nat (length (rows_bytes rows)) ∧ _end_offset b <= _size b
}.

(** ** Bytes and rows *)

Lemma header_bits pk obj :
  negb (Z.land (Buf.header pk obj) Buf.hasPK =? 0) = match pk with [] => false | _ => true end ∧
  (Z.land (Buf.header pk obj) Buf.hasObj =? 0) = match obj with [] => true | _ => false end.
Proof. by destruct pk, obj. Qed.

Lemma length_memcpy offset data buf :
  0 <= offset → offset + Z.of_nat (length data) <= Z.of_nat (length buf) →
  length (Buf.memcpy offset data buf) = length buf.
Proof. intros. unfold Buf.memcpy. rewrite !length_app, length_take, length_drop. lia. Qed.

Lemma memcpy_memcpy offset d d' buf :
  0 <= offset → offset + Z.of_nat (length d) <= Z.of_nat (length buf) →
  Buf.memcpy (offset + Z.of_nat (length d)) d' (Buf.memcpy offset d buf) = Buf.memcpy offset (d ++ d') buf.
Proof.
  intros Ho Hl. unfold Buf.memcpy.
  assert (length (take (Z.to_nat offset) buf ++ d) = Z.to_nat (offset + Z.of_nat (length d))) as L.
  { rewrite length_app, length_take. lia. }
  rewrite (app_assoc _ d), <- L, take_app_length, <- !app_assoc. f_equal. f_equal. f_equal.
  rewrite (app_assoc _ d), drop_app_add, drop_drop, length_app. f_equal. lia.
Qed.

Lemma take_from offset d buf :
  0 <= offset <= Z.of_nat (length buf) →
  take (Z.to_nat offset) (Buf.memcpy offset d buf) = take (Z.to_nat offset) buf.
Proof.
  intros. unfold Buf.memcpy. rewrite take_app_le, take_take by (rewrite length_take; lia). f_equal. lia.
Qed.

Lemma drop_memcpy cur offset d buf :
  (cur ≤ Z.to_nat offset)%nat → 0 <= offset <= Z.of_nat (length buf) →
  drop cur (Buf.memcpy offset d buf) = take (Z.to_nat offset - cur) (drop cur buf) ++ d ++ drop (Z.to_nat offset + length d) buf.
Proof.
  intros. unfold Buf.memcpy. rewrite drop_app_le by (rewrite length_take; lia). f_equal. by rewrite skipn_firstn_comm.
Qed.

Lemma rows_bytes_app rows r : rows_bytes (rows ++ [r]) = rows_bytes rows ++ row_bytes r.
Proof. unfold rows_bytes. rewrite map_app, concat_app. cbn [map concat]. by rewrite app_nil_r. Qed.

Lemma length_row_bytes r : (0 < length (row_bytes r))%nat.
Proof. cbn. lia. Qed.

Section Rows.
Context (uninit : Z → list Z) (uninit_length : ∀ n, 0 <= n → Z.of_nat (length (uninit n)) = n).

Lemma row_size r rest :
  row_ok r = true →
  Key.size_at (row_sKey r ++ rest) (negb (Z.land (Buf.header (default [] (row_pk r)) (row_obj r)) Buf.hasPK =? 0)) =
    Some (Z.of_nat (length (row_sKey r))) ∧ Key.pk (row_sKey r) = Some (default [] (row_pk r)).
Proof.
  unfold row_ok. intros. bool_facts. rewrite (proj1 (header_bits _ _)).
  destruct (key_parts (row_key r) (row_pk r) rest) as (_ & P & Sz); [done|by intros o E; rewrite E in *; destruct o|].
  split; [|done]. etransitivity; [|exact Sz]. f_equal. destruct (row_pk r) as [[|]|]; done.
Qed.

Lemma row_parts r :
  row_ok r = true →
  Key.key (row_sKey r) = Some (if bool_decide (is_Some (KeyV1.pack_all (row_key r))) then strip_names (row_key r) else row_key r) ∧
  Key.pk (row_sKey r) = Some (default [] (row_pk r)).
Proof.
  unfold row_ok, row_sKey. intros. bool_facts.
  destruct (key_parts (row_key r) (row_pk r) []) as (K & P & _); [done|by intros o E; rewrite E in *; destruct o|]. split; assumption.
Qed.

Lemma row_obj_read r rest :
  row_ok r = true →
  (if Z.land (Buf.header (default [] (row_pk r)) (row_obj r)) Buf.hasObj =? 0 then Some []
   else read_obj (length (row_objdata r ++ rest)) (row_objdata r ++ rest)) = Some (row_obj r) ∧
  (if Z.land (Buf.header (default [] (row_pk r)) (row_obj r)) Buf.hasObj =? 0 then Some 0
   else sz ← rd32 (row_objdata r ++ rest);
        if (0 <? sz) && (sz <=? BSONObjMaxInternalSize) then Some sz else None) = Some (Z.of_nat (length (row_objdata r))).
Proof.
  unfold row_ok, row_objdata. intros. bool_facts. rewrite (proj2 (header_bits _ _)). destruct (row_obj r) as [|e o] eqn:E; [done|].
  split; [apply read_obj_ok; [done|]; rewrite length_app; lia|].
  rewrite rd32_obj by (by apply wf_obj_size). cbn [mbind option_bind]. by rewrite objsize_valid by (by apply wf_obj_size).
Qed.

Lemma grow_repr needed b rows :
  buf_repr b rows →
  let '(size, buf) := Buf.grow uninit needed b in
  Z.of_nat (length buf) = size ∧ needed <= size ∧ _size b <= size ∧
  take (Z.to_nat (_end_offset b)) buf = take (Z.to_nat (_end_offset b)) (_buf b).
Proof.
  intros []. destruct br_end0 as [E1 E2]. unfold Buf.grow. destruct (_ <? _) eqn:E; bool_facts; [|done].
  set (new_size := Z.max _ _). pose proof (uninit_length new_size ltac:(lia)). rewrite take_ge by lia.
  rewrite length_memcpy by lia.
  split; [lia|]. split; [lia|]. split; [lia|]. unfold Buf.memcpy. change (Z.to_nat 0) with 0%nat. rewrite take_0. cbn [app]. by rewrite take_app_le by lia.
Qed.

Lemma append_repr b r rows :
  row_ok r = true → buf_repr b rows →
  ∃ b', Buf.append uninit (row_sKey r) (row_obj r) b = Some b' ∧ buf_repr b' (rows ++ [r]).
Proof.
  intros Rk Rb. unfold Buf.append. change (match row_obj r with [] => [] | _ => obj_bytes (row_obj r) end) with (row_objdata r). cbv zeta.
  remember (_end_offset b + 1 + Z.of_nat (length (row_sKey r)) + Z.of_nat (length (row_objdata r))) as needed eqn:En. pose proof (grow_repr needed b rows Rb) as G.
  destruct (Buf.grow uninit needed b) as [size buf]. destruct G as (G1 & G2 & G3 & G4). destruct Rb. destruct br_end0 as [E1 E2].
  destruct (row_size r [] Rk) as [_ ->]. cbn [mbind option_bind].
  set (hdr := [Buf.header (default [] (row_pk r)) (row_obj r)]). assert (Z.of_nat (length hdr) = 1) as Lh by done.
  replace (_end_offset b + 1) with (_end_offset b + Z.of_nat (length hdr)) by lia.
  rewrite (memcpy_memcpy (_end_offset b) hdr) by lia. rewrite <- Z.add_assoc, <- Nat2Z.inj_add, <- length_app.
  rewrite (memcpy_memcpy (_end_offset b) (hdr ++ row_sKey r)) by (rewrite ?length_app; lia). rewrite <- app_assoc.
  change (hdr ++ row_sKey r ++ row_objdata r) with (row_bytes r).
  rewrite (proj2 (Z.leb_le _ _)) by (rewrite ?length_app; lia). eexists. split; [reflexivity|].
  assert (Z.of_nat (length (row_bytes r)) = needed - _end_offset b) as Lr by (unfold row_bytes; cbn [length]; rewrite length_app; lia).
  assert (rows_bytes (rows ++ [r]) = rows_bytes rows ++ row_bytes r) as Eb by apply rows_bytes_app.
  split; cbn [_size _current_offset _end_offset _buf].
  - apply Forall_app. by split; [|constructor].
  - rewrite length_memcpy by lia. done.
  - done.
  - lia.
  - unfold Buf.from. cbn. rewrite drop_memcpy by lia. exists (drop (Z.to_nat (_end_offset b) + length (row_bytes r)) buf).
    rewrite Eb, <- app_assoc. f_equal. destruct br_data0 as [post D]. unfold Buf.from in D.
    replace (Z.to_nat (_end_offset b) - Z.to_nat (_current_offset b))%nat with (length (rows_bytes rows)) by lia.
    rewrite take_drop_commute.
    replace (Z.to_nat (_current_offset b) + length (rows_bytes rows))%nat with (Z.to_nat (_end_offset b)) by lia.
    rewrite G4. replace (Z.to_nat (_end_offset b)) with (Z.to_nat (_current_offset b) + length (rows_bytes rows))%nat by lia.
    by rewrite <- take_drop_commute, D, take_app_length.
  - rewrite Eb, !length_app. lia.
Qed.

(** The first row, and what is left after it *)
Lemma first_row b r rows :
  buf_repr b (r :: rows) →
  row_ok r = true ∧ _current_offset b < _end_offset b ∧
  ∃ rest, Buf.from (_current_offset b) b = row_bytes r ++ rest ∧
    Buf.from (_current_offset b + 1) b = row_sKey r ++ row_objdata r ++ rest ∧
    Buf.from (_current_offset b + 1 + Z.of_nat (length (row_sKey r))) b = row_objdata r ++ rest ∧
    Buf.from (_current_offset b + 1 + Z.of_nat (length (row_sKey r)) + Z.of_nat (length (row_objdata r))) b = rest.
Proof.
  intros []. apply Forall_cons in br_rows0 as [Rk _]. destruct br_data0 as [post D]. destruct br_end0 as [E _].
  unfold rows_bytes in D, E. cbn [map concat] in D, E. rewrite length_app in E. pose proof (length_row_bytes r).
  split; [done|]. split; [lia|]. exists (concat (map row_bytes rows) ++ post). rewrite <- app_assoc in D. split; [done|].
  unfold Buf.from in *. unfold row_bytes in D. rewrite <- app_comm_cons, <- app_assoc in D.
  assert (∀ n, 0 <= n → drop (Z.to_nat (_current_offset b + n)) (_buf b) = drop (Z.to_nat n) (drop (Z.to_nat (_current_offset b)) (_buf b))) as Dr.
  { intros n Hn. rewrite drop_drop. f_equal. lia. }
  rewrite <- !Z.add_assoc, !Dr, D by lia. split; [done|].
  replace (Z.to_nat (1 + Z.of_nat (length (row_sKey r)))) with (S (length (row_sKey r))) by lia.
  replace (Z.to_nat (1 + _)) with (S (length (row_sKey r) + length (row_objdata r)))%nat by lia.
  cbn [drop]. by rewrite drop_app_length, drop_app_add, drop_app_length.
Qed.

Lemma current_repr b r rows :
  buf_repr b (r :: rows) → Buf.current b = Some (row_sKey r, row_obj r).
Proof.
  intros (Rk & _ & rest & E0 & E1 & E2 & _)%first_row. unfold Buf.current. rewrite E0. cbn [head row_bytes app hd_error mbind option_bind].
  rewrite E1. rewrite (proj1 (row_size r _ Rk)). cbn [mbind option_bind]. rewrite Nat2Z.id, drop_app_length, take_app_length.
  by rewrite (proj1 (row_obj_read r rest Rk)).
Qed.

Lemma next_repr b r rows :
  buf_repr b (r :: rows) → ∃ b', Buf.next b = Some (Buf.ok b', b') ∧ buf_repr b' rows.
Proof.
  intros Rb. destruct (first_row b r rows Rb) as (Rk & Lt & rest & E0 & E1 & E2 & E3). unfold Buf.next, Buf.ok.
  rewrite (proj2 (Z.ltb_lt _ _) Lt). cbn [negb]. rewrite E0. cbn [head row_bytes app hd_error mbind option_bind].
  rewrite E1, (proj1 (row_size r _ Rk)). cbn [mbind option_bind]. rewrite E2, (proj2 (row_obj_read r rest Rk)). cbn [mbind option_bind].
  destruct Rb. destruct br_end0 as [Ee Es]. unfold rows_bytes in Ee. cbn [map concat] in Ee. rewrite length_app in Ee.
  assert (length (row_bytes r) = S (length (row_sKey r) + length (row_objdata r))) as Lr by (unfold row_bytes; cbn [length]; by rewrite length_app).
  rewrite (proj2 (Z.leb_le _ _)) by lia. eexists. split; [reflexivity|].
  destruct br_data0 as [post D]. split; cbn [_size _current_offset _end_offset _buf]; try done.
  - by apply Forall_cons in br_rows0 as [_ ?].
  - lia.
  - exists post. unfold Buf.from in *. cbn. rewrite E3. rewrite E0 in D. unfold rows_bytes in D |- *. cbn [map concat] in D.
    rewrite <- app_assoc in D. by apply app_inv_head in D.
  - unfold rows_bytes. split; lia.
Qed.

Lemma empty_repr b rows : buf_repr b rows → buf_repr (Buf.empty uninit b) [].
Proof.
  intros []. destruct br_end0 as [E1 E2]. unfold Buf.empty. destruct (0 <? _) eqn:E; bool_facts.
  - destruct (_ <? _); split; cbn; try done; try lia; [by apply uninit_length|by eexists|by eexists].
  - assert (length (rows_bytes rows) = 0)%nat by lia. destruct rows as [|r rows]; [done|].
    pose proof (length_row_bytes r). unfold rows_bytes in H. cbn [map concat] in H. rewrite length_app in H. lia.
Qed.

Lemma ok_repr b rows : buf_repr b rows → Buf.ok b = match rows with [] => false | _ => true end.
Proof.
  intros []. destruct br_end0 as [E1 E2]. unfold Buf.ok. destruct rows as [|r rows]; [apply Z.ltb_ge; cbn in E1; lia|].
  apply Z.ltb_lt. unfold rows_bytes in E1. cbn [map concat] in E1. rewrite length_app in E1. pose proof (length_row_bytes r). lia.
Qed.

Lemma make_repr : buf_repr (Buf.make uninit) [].
Proof. split; cbn; try done; [by apply uninit_length|by eexists]. Qed.

(** ** The queue *)

(** What the cursor calls, on the bytes and on a list of rows *)
Inductive buf_op := OpAppend (r : row) | OpNext | OpEmpty.

Definition op_ok (op : buf_op) : Prop := match op with OpAppend r => row_ok r = true | _ => True end.

Definition buf_step (op : buf_op) (b : RowBuffer) : option RowBuffer :=
  match op with
  | OpAppend r => Buf.append uninit (row_sKey r) (row_obj r) b
  | OpNext => snd <$> Buf.next b
  | OpEmpty => Some (Buf.empty uninit b)
  end.

Definition queue_step (op : buf_op) (rows : list row) : list row :=
  match op with OpAppend r => rows ++ [r] | OpNext => tail rows | OpEmpty => [] end.

Definition buf_run (ops : list buf_op) : option RowBuffer :=
  foldl (λ mb op, b ← mb; buf_step op b) (Some (Buf.make uninit)) ops.
Definition queue_run (ops : list buf_op) : list row := foldl (λ rows op, queue_step op rows) [] ops.

Lemma next_end b : buf_repr b [] → Buf.next b = Some (false, b).
Proof. intros R%ok_repr. unfold Buf.next. by rewrite R. Qed.

Lemma step_repr op b rows : op_ok op → buf_repr b rows → ∃ b', buf_step op b = Some b' ∧ buf_repr b' (queue_step op rows).
Proof.
  intros O R. destruct op as [r| |]; cbn.
  - by apply append_repr.
  - destruct rows as [|r rows]; [rewrite next_end by done; by exists b|].
    destruct (next_repr b r rows R) as (b' & -> & R'). by exists b'.
  - eexists. split; [done|]. by eapply empty_repr.
Qed.

Lemma run_repr ops : Forall op_ok ops → ∃ b, buf_run ops = Some b ∧ buf_repr b (queue_run ops).
Proof.
  unfold buf_run, queue_run. intros F.
  assert (∀ b rows, buf_repr b rows →
    ∃ b', foldl (λ mb op, b ← mb; buf_step op b) (Some b) ops = Some b' ∧ buf_repr b' (foldl (λ rows op, queue_step op rows) rows ops)) as G;
    [|apply G, make_repr].
  induction F as [|op ops O F IH]; intros b rows R; cbn [foldl]; [by exists b|].
  destruct (step_repr op b rows O R) as (b' & E & R'). cbn [mbind option_bind]. rewrite E. by apply IH.
Qed.

(** C22: the row buffer is a queue: after any sequence of appends, advances and resets no [verify] has
    failed, the buffer has a row exactly when the queue of the rows has one, and [current] gives the
    first of them: the bytes of its key, from which the values and the primary key are read back, and
    its document. *)
Theorem rowbuffer_queue ops :
  Forall op_ok ops →
  ∃ b, buf_run ops = Some b ∧ Buf.ok b = match queue_run ops with [] => false | _ => true end ∧
    ∀ r rows, queue_run ops = r :: rows →
      Buf.current b = Some (row_sKey r, row_obj r) ∧
      Key.key (row_sKey r) = Some (if bool_decide (is_Some (KeyV1.pack_all (row_key r))) then strip_names (row_key r) else row_key r) ∧
      Key.pk (row_sKey r) = Some (default [] (row_pk r)).
Proof.
  intros F. destruct (run_repr ops F) as (b & E & R). exists b. split; [done|]. split; [by apply ok_repr|].
  intros r rows Eq. rewrite Eq in R. split; [by eapply current_repr|]. destruct (first_row _ _ _ R) as (Rk & _).
  by apply row_parts.
Qed.

(** ** The buffer as the queue of a cursor *)

(** Rows as they are stored: the bytes of the key and the document. *)
Definition stored (r : row) : list Z * bobj := (row_sKey r, row_obj r).

#[global, refine] Instance buffer_queue : RowQueue RowBuffer (list Z * bobj) := {|
  rq_new := Buf.make uninit;
  rq_ok := Buf.ok;
  rq_isGorged := Buf.isGorged;
  rq_current := Buf.current;
  rq_append r b := Buf.append uninit r.1 r.2 b;
  rq_next := Buf.next;
  rq_empty := Buf.empty uninit;
  rq_valid sr := ∃ r, row_ok r = true ∧ sr = stored r;
  rq_repr b l := ∃ rows, l = map stored rows ∧ buf_repr b rows
|}.
Proof.
  - exists []. split; [done|apply make_repr].
  - intros b ? (rows & -> & R). rewrite (ok_repr b rows R). by destruct rows.
  - intros b ? ? ([|r rows] & [= -> ->] & R). by eapply current_repr.
  - intros b ? ? (r & O & ->) (rows & -> & R). destruct (append_repr b r rows O R) as (b' & E & R').
    exists b'. split; [done|]. exists (rows ++ [r]). by rewrite map_app.
  - intros b ? ? ([|r rows] & [= -> ->] & R). destruct (next_repr b r rows R) as (b' & E & R'). exists b'. split; [done|]. by exists rows.
  - intros b ([|r rows] & E & R); [|done]. by apply next_end.
  - intros b ? (rows & -> & R). exists []. split; [done|]. by eapply empty_repr.
Defined.
End Rows.

(** ** Witness *)

Module BufferExample.
Definition zeroes (n : Z) : list Z := replicate (Z.to_nat n) 0.
Definition r1 : row := mkRow [([97], BInt 5)] (Some [([], BLong 7)]) [].
Definition r2 : row := mkRow [([], BBool true)] None [([95], BString [120])].

Lemma rowbuffer_queue_witness :
  ∃ b, buf_run zeroes [OpAppend r1; OpAppend r2; OpNext] = Some b ∧ Buf.current b = Some (row_sKey r2, row_obj r2).
Proof.
  destruct (rowbuffer_queue zeroes (λ n Hn, eq_trans (f_equal Z.of_nat (length_replicate (Z.to_nat n) 0)) (Z2Nat.id n Hn))
    [OpAppend r1; OpAppend r2; OpNext]) as (b & E & _ & C).
  - repeat constructor.
  - exists b. split; [exact E|]. by apply (C r2 []).
Defined.
End BufferExample.
