(* ===== verification/IndexCursor.v ===== *)
(** * Scanning an index

    Models [IndexCursor] (db/indexcursor.cpp) with bounds: the cursor asks the iterator of RangeIterator
    where to go, positions itself in the dictionary and fetches rows in bulk into its buffer
    (RowBuffer).

    The dictionary is not part of the sources: it is the list of its rows in the order of the scan,
    and [set_range], the position of the first row at or after a key, with what its documentation says
    of it as hypothesis.  The primary keys that [findKey] and [skipPrefix] append are [MinPK] and
    [MaxPK], before and after every primary key of the collection; an index on the primary key itself
    has none.  Start and end key cursors, tailable cursors and the fetching of documents are not
    modelled. *)

From S2P Require Import Prelude StdContainers DocOrder Bson BsonOrder FieldElement FieldRange FieldRangeSet FieldRangeVector RangeIterator IndexBounds StorageKey RowBuffer.
#[local] Open Scope Z_scope.

(** Why an operation does not return: a loop that does not end, an element pointer that is not set,
    or a buffer whose checks fail. *)
Inductive cursor_error := OutOfFuel | NullElement | BadBuffer.

Definition or_fail {A} (e : cursor_error) (o : option A) : result cursor_error A :=
  match o with Some x => Ok x | None => Err e end.

(** The primary key appended to a key that is searched for *)
Inductive pk_bound := MinPK | MaxPK.

Record cursor (K B R : Type) := mkCursor {
  _ok : bool;
  _curr : option R;           (** [_currKey], [_currPK] and [_currObj] *)
  _buffer : B;
  dbc_next : nat;             (** the row that [c_getf_next] would fetch *)
  _boundsIterator : iter K;
  _nscanned : Z;
  _boundsMustMatch : bool;
  _getf_iteration : Z
}.
Arguments mkCursor {_ _ _}. Arguments _ok {_ _ _}. Arguments _curr {_ _ _}. Arguments _buffer {_ _ _}.
Arguments dbc_next {_ _ _}. Arguments _boundsIterator {_ _ _}. Arguments _nscanned {_ _ _}.
Arguments _boundsMustMatch {_ _ _}. Arguments _getf_iteration {_ _ _}.

Module Cursor.
Section cursor.
Context `{FieldElement K} `{RowQueue B R}.
Context (rows : list R) (row_key : R → list K) (set_range : list K → option pk_bound → nat).
Context (isPKIndex shouldBulkFetch : bool) (v : FieldRangeVector K) (limit : Z).
Implicit Types c : cursor K B R.

Definition set_iter it c : cursor K B R :=
  mkCursor (_ok c) (_curr c) (_buffer c) (dbc_next c) it (_nscanned c) (_boundsMustMatch c) (_getf_iteration c).
Definition set_ok_flag b c : cursor K B R :=
  mkCursor b (_curr c) (_buffer c) (dbc_next c) (_boundsIterator c) (_nscanned c) (_boundsMustMatch c) (_getf_iteration c).
Definition inc_nscanned c : cursor K B R :=
  mkCursor (_ok c) (_curr c) (_buffer c) (dbc_next c) (_boundsIterator c) (_nscanned c + 1) (_boundsMustMatch c) (_getf_iteration c).
Definition set_must_match b c : cursor K B R :=
  mkCursor (_ok c) (_curr c) (_buffer c) (dbc_next c) (_boundsIterator c) (_nscanned c) b (_getf_iteration c).

Definition forward : bool := 0 <? _direction v.

(** [_ordering.descending( 1 << i )] *)
Definition descending (i : nat) : bool :=
  match _keyPattern v !! i with Some (_, number) => number <? 0 | None => false end.

Definition getf_fetch_count (iteration : Z) : Z :=
  if shouldBulkFetch then if iteration <=? 1 then 1 else Z.shiftl 2 (if iteration <? 20 then iteration else 20) else 1.

(** The rows that [cursor_getf] is called on and appends, up to the last one it asks for: the buffer,
    the position and the number of rows. *)
Fixpoint getf (todo : list R) (pos : nat) (rows_to_fetch rows_fetched : Z) (b : B) : result cursor_error (B * nat * Z) :=
  match todo with
  | [] => Ok (b, pos, rows_fetched)
  | r :: todo' =>
      b' <-? or_fail BadBuffer (rq_append r b) ;;
      let rows_fetched := rows_fetched + 1 in
      if (rows_fetched <? rows_to_fetch) && negb (rq_isGorged b')
      then getf todo' (S pos) rows_to_fetch rows_fetched b'
      else Ok (b', S pos, rows_fetched)
  end.

(** The state after rows were fetched, with [getCurrentFromBuffer] *)
Definition fetched (x : B * nat * Z) c : result cursor_error (cursor K B R) :=
  let '(b, pos, n) := x in
  let ok := 0 <? n in
  curr <-? (if ok then r <-? or_fail BadBuffer (rq_current b) ;; Ok (Some r) else Ok (_curr c)) ;;
  Ok (mkCursor ok curr b pos (_boundsIterator c) (_nscanned c) (_boundsMustMatch c) (_getf_iteration c + 1)).

Definition setPosition (key : list K) (pk : option pk_bound) c : result cursor_error (cursor K B R) :=
  let b := rq_empty (_buffer c) in
  let c := mkCursor (_ok c) (_curr c) b (dbc_next c) (_boundsIterator c) (_nscanned c) (_boundsMustMatch c) 0 in
  let start := set_range key pk in
  x <-? getf (drop start rows) start (getf_fetch_count 0) 0 b ;;
  fetched x c.

Definition findKey (key : list K) c : result cursor_error (cursor K B R) :=
  setPosition key (if isPKIndex then None else Some (if forward then MinPK else MaxPK)) c.

(** The last value of field [i] in the direction of the scan *)
Definition superlative (i : nat) : K :=
  if descending i then if forward then minKey else maxKey else if forward then maxKey else minKey.

Definition skipPrefix (key : list K) (k : nat) c : result cursor_error (cursor K B R) :=
  setPosition (imap (λ i e, if (i <? k)%nat then e else superlative i) key)
    (if isPKIndex then None else Some (if forward then MaxPK else MinPK)) c.

(** The key built from the first fields of the current one and [cmp()] *)
Fixpoint build_target (i skipPrefixIndex : nat) (key : list K) (endKeys : list (option K)) : option (list K) :=
  match key with
  | [] => Some []
  | e :: key' =>
      x ← (if (i <? skipPrefixIndex)%nat then Some e else x ← endKeys !! i; x);
      rest ← build_target (S i) skipPrefixIndex key' endKeys;
      Some (x :: rest)
  end.

(** The first field of the key that is equal to an exclusive bound *)
Fixpoint find_excluded (i skipPrefixIndex : nat) (key : list K) (endKeys : list (option K)) (inclusive : list bool) : option nat :=
  match key with
  | [] => None
  | e :: key' =>
      if (skipPrefixIndex <=? i)%nat && negb (default true (inclusive !! i)) &&
         match endKeys !! i with Some (Some x) => woCompare e x =? 0 | _ => false end
      then Some i else find_excluded (S i) skipPrefixIndex key' endKeys inclusive
  end.

(** The loop at [again] *)
Fixpoint again (fuel : nat) (skipPrefixIndex : nat) c : result cursor_error (cursor K B R) :=
  match fuel with
  | O => Err OutOfFuel
  | S fuel =>
      if _ok c then
        match _curr c with
        | Some r =>
            match find_excluded 0 skipPrefixIndex (row_key r) (it_cmp (_boundsIterator c)) (it_inc (_boundsIterator c)) with
            | Some i => c <-? skipPrefix (row_key r) (S i) c ;; again fuel skipPrefixIndex c
            | None => Ok c
            end
        | None => Ok c
        end
      else Ok c
  end.

(** [skipToNextKey]: -2, -1 or 0, and the cursor. *)
Definition skipToNextKey (fuel : nat) (currentKey : list K) c : result cursor_error (Z * cursor K B R) :=
  x <-? or_fail NullElement (Iterator.advance v limit (_boundsIterator c) currentKey) ;;
  let c := set_iter x.2 c in
  match x.1 with
  | Complete => Ok (-2, set_ok_flag false c)
  | NextKey => Ok (-1, c)
  | Skip skipPrefixIndex =>
      if it_after x.2 then c <-? skipPrefix currentKey skipPrefixIndex c ;; Ok (0, c)
      else
        target <-? or_fail NullElement (build_target 0 skipPrefixIndex currentKey (it_cmp x.2)) ;;
        c <-? findKey target c ;;
        let allInclusive := forallb (λ b, b) (take (length currentKey) (it_inc x.2)) in
        if allInclusive then Ok (0, c)
        else c <-? again fuel skipPrefixIndex c ;; Ok (0, c)
  end.

Definition skipOutOfRangeKeysAndCheckEnd (fuel : nat) c : result cursor_error (bool * cursor K B R) :=
  if _ok c then
    match _curr c with
    | Some r =>
        x <-? skipToNextKey fuel (row_key r) c ;;
        Ok (x.1 =? 0, if x.1 =? -2 then x.2 else inc_nscanned x.2)
    | None => Err NullElement
    end
  else Ok (false, c).

(** The loop of [checkCurrentAgainstBounds]: after [n] more keys it gives up. *)
Fixpoint check_loop (n : nat) (fuel : nat) (startNscanned : Z) c : result cursor_error (cursor K B R) :=
  match n with
  | O => Err OutOfFuel
  | S n =>
      if startNscanned + 20 <? _nscanned c then Ok (set_must_match false c)
      else
        x <-? skipOutOfRangeKeysAndCheckEnd fuel c ;;
        if (x.1 : bool) then check_loop n fuel startNscanned x.2 else Ok x.2
  end.

Definition checkCurrentAgainstBounds (fuel : nat) c : result cursor_error (cursor K B R) :=
  let startNscanned := _nscanned c in
  x <-? skipOutOfRangeKeysAndCheckEnd fuel c ;;
  if (x.1 : bool) then check_loop 22 fuel startNscanned x.2 else Ok x.2.

Definition fetchMoreRows c : result cursor_error (bool * cursor K B R) :=
  let b := rq_empty (_buffer c) in
  x <-? getf (drop (dbc_next c) rows) (dbc_next c) (getf_fetch_count (_getf_iteration c)) 0 b ;;
  let '(b, pos, n) := x in
  Ok (0 <? n, mkCursor (_ok c) (_curr c) b pos (_boundsIterator c) (_nscanned c) (_boundsMustMatch c) (_getf_iteration c + 1)).

Definition _advance c : result cursor_error (cursor K B R) :=
  let c := set_must_match true c in
  x <-? or_fail BadBuffer (rq_next (_buffer c)) ;;
  let c := mkCursor x.1 (_curr c) x.2 (dbc_next c) (_boundsIterator c) (_nscanned c) (_boundsMustMatch c) (_getf_iteration c) in
  c <-? (if _ok c then Ok c else y <-? fetchMoreRows c ;; Ok (set_ok_flag y.1 y.2)) ;;
  if _ok c then
    r <-? or_fail BadBuffer (rq_current (_buffer c)) ;;
    Ok (mkCursor (_ok c) (Some r) (_buffer c) (dbc_next c) (_boundsIterator c) (_nscanned c) (_boundsMustMatch c) (_getf_iteration c))
  else Ok c.

Definition advance (fuel : nat) c : result cursor_error (cursor K B R) :=
  if _ok c then c <-? _advance c ;; checkCurrentAgainstBounds fuel c else Ok c.

(** [initializeDBC], after the locks are taken *)
Definition initializeDBC (fuel : nat) (startKey : list K) c : result cursor_error (cursor K B R) :=
  x <-? skipToNextKey fuel startKey c ;;
  c <-? (if x.1 =? -1 then findKey startKey (set_iter (Iterator.prepDive v (_boundsIterator x.2)) x.2) else Ok x.2) ;;
  checkCurrentAgainstBounds fuel c.

Definition start : cursor K B R :=
  mkCursor false None rq_new 0 (Iterator.prepDive v (Iterator.make v)) 0 true 0.

(** The constructor with bounds; the check for an exclusive start key is on indexes of primary keys. *)
Definition make (fuel : nat) : result cursor_error (cursor K B R) :=
  startKey <-? or_fail NullElement (Vector.startKey v) ;;
  c <-? initializeDBC fuel startKey start ;;
  match _curr c with
  | Some r =>
      if _ok c && isPKIndex && negb (Vector.startKeyInclusive v) &&
         ((length (row_key r) =? length startKey)%nat && forallb (λ p, woCompare p.1 p.2 =? 0) (combine (row_key r) startKey))
      then
        let oldNScanned := _nscanned c in
        c <-? advance fuel c ;;
        Ok (mkCursor (_ok c) (_curr c) (_buffer c) (dbc_next c) (_boundsIterator c) oldNScanned (_boundsMustMatch c) (_getf_iteration c))
      else Ok c
  | None => Ok c
  end.

(** The rows that a scan visits *)
Fixpoint scan (n fuel : nat) c : result cursor_error (list R) :=
  match n with
  | O => Err OutOfFuel
  | S n =>
      if _ok c then
        match _curr c with
        | Some r => c <-? advance fuel c ;; l <-? scan n fuel c ;; Ok (r :: l)
        | None => Err NullElement
        end
      else Ok []
  end.

Definition scan_all (n fuel : nat) : result cursor_error (list R) := c <-? make fuel ;; scan n fuel c.

(** [currentMatches], as far as the bounds decide it *)
Definition currentMatches c : option bool :=
  if negb (_boundsMustMatch c) then r ← _curr c; Vector.matchesKey v (row_key r) else Some true.

End cursor.
End Cursor.

(** ** What is assumed of the dictionary, and of the scan *)

Section Scan.
Context `{FieldElementLaws K} `{RowQueue B R}.
Context (rows : list R) (row_key : R → list K) (set_range : list K → option pk_bound → nat).
Context (isPKIndex bulk : bool) (v : FieldRangeVector K) (limit : Z).
Implicit Types c : cursor K B R.

#[local] Abbreviation fwd := (Cursor.forward v).
#[local] Abbreviation setPosition := (Cursor.setPosition rows set_range bulk).
#[local] Abbreviation findKey := (Cursor.findKey rows set_range isPKIndex bulk v).
#[local] Abbreviation skipPrefix := (Cursor.skipPrefix rows set_range isPKIndex bulk v).
#[local] Abbreviation again := (Cursor.again rows row_key set_range isPKIndex bulk v).
#[local] Abbreviation nfields := (length (frv_ranges v)).

(** A row is before a key with its primary key bound, in the order of the scan: the rows of the key
    itself are before it when the bound is the last one of the scan. *)
Definition row_before (key : list K) (pk : option pk_bound) (r : R) : Prop :=
  match pk with
  | None => ¬ key_le v key (row_key r)
  | Some b =>
      if Bool.eqb (match b with MinPK => true | MaxPK => false end) fwd
      then ¬ key_le v key (row_key r) else key_le v (row_key r) key
  end.

Record dictionary_ok : Prop := {
  d_sorted i j r r' : rows !! i = Some r → rows !! j = Some r' → (i ≤ j)%nat → key_le v (row_key r) (row_key r');
  d_keys i r : rows !! i = Some r → key_ok v (row_key r);
  d_valid i r : rows !! i = Some r → rq_valid r;
  d_range key pk : key_ok v key → (set_range key pk ≤ length rows)%nat;
  d_set_range key pk i r : key_ok v key → rows !! i = Some r → (i < set_range key pk)%nat ↔ row_before key pk r
}.

Context (Dok : dictionary_ok) (Vok : vector_ok v) (Pat : length (_keyPattern v) = nfields).
Context (Dir : _direction v = 1 ∨ _direction v = -1) (Lim : limit <= 0).

(** ** Positions *)

(** The cursor is at row [p]: it is the current one, and the buffer holds the rows from it on. *)
Record at_row (p : nat) c : Prop := {
  ar_ok : _ok c = true;
  ar_curr : _curr c = rows !! p;
  ar_next : (p < dbc_next c ≤ length rows)%nat;
  ar_buf : rq_repr (_buffer c) (take (dbc_next c - p) (drop p rows))
}.

Definition buf_ok c : Prop := ∃ l, rq_repr (_buffer c) l.

(** At row [q], or at the end when there is none. *)
Definition at_or_end (q : nat) c : Prop := (q < length rows)%nat ∧ at_row q c ∨ q = length rows ∧ _ok c = false ∧ buf_ok c.

(** What positioning does not change *)
Definition same c c' : Prop :=
  _boundsIterator c' = _boundsIterator c ∧ _nscanned c' = _nscanned c ∧ _boundsMustMatch c' = _boundsMustMatch c.

Lemma at_row_buf p c : at_row p c → buf_ok c.
Proof. intros []. by eexists. Qed.

Lemma at_row_some p c : at_row p c → ∃ r, rows !! p = Some r ∧ _curr c = Some r.
Proof.
  intros [Ok E L _]. destruct (lookup_lt_is_Some_2 rows p) as [r Hr]; [lia|]. exists r. split; [done|]. by rewrite E.
Qed.

Lemma getf_spec todo pos n f b old :
  (∀ i r, todo !! i = Some r → rq_valid r) → rq_repr b old →
  ∃ b' k, Cursor.getf todo pos n f b = Ok (b', (pos + k)%nat, f + Z.of_nat k) ∧ (k ≤ length todo)%nat ∧
    (todo ≠ [] → (0 < k)%nat) ∧ rq_repr b' (old ++ take k todo).
Proof.
  revert pos f b old. induction todo as [|r todo IH]; intros pos f b old Val Rp; cbn [Cursor.getf].
  - exists b, 0%nat. rewrite Nat.add_0_r, Z.add_0_r, app_nil_r. done.
  - destruct (rq_append_repr b r old (Val 0%nat r eq_refl) Rp) as (b' & -> & Rp'). cbn [or_fail result_bind].
    destruct (_ && _).
    + destruct (IH (S pos) (f + 1) b' (old ++ [r])) as (b'' & k & -> & Lk & _ & Rp''); [by intros i; apply (Val (S i))|done|].
      exists b'', (S k). rewrite <- app_assoc in Rp''.
      replace (pos + S k)%nat with (S pos + k)%nat by lia. replace (f + Z.of_nat (S k)) with (f + 1 + Z.of_nat k) by lia. split; [done|]. cbn. split; [lia|]. split; [lia|done].
    + exists b', 1%nat. replace (pos + 1)%nat with (S pos) by lia. split; [done|]. cbn. split; [lia|]. split; [lia|]. by rewrite take_0.
Qed.

(** Fetching from row [s] on *)
Lemma fetch_spec s n c :
  buf_ok c → (s ≤ length rows)%nat →
  ∃ b' k, Cursor.getf (drop s rows) s n 0 (rq_empty (_buffer c)) = Ok (b', (s + k)%nat, Z.of_nat k) ∧ (s + k ≤ length rows)%nat ∧
    ((s < length rows)%nat → (0 < k)%nat) ∧ rq_repr b' (take k (drop s rows)).
Proof.
  intros [l Rp] L. apply rq_empty_repr in Rp. destruct (getf_spec (drop s rows) s n 0 _ [] ltac:(intros i r; rewrite lookup_drop; apply d_valid, Dok) Rp)
    as (b' & k & E & Lk & Pos & Rp'). rewrite length_drop in Lk. exists b', k. rewrite Z.add_0_l in E. split; [done|]. split; [lia|]. split; [|done].
  intros Lt. apply Pos. intros En. apply (f_equal length) in En. rewrite length_drop in En. cbn in En. lia.
Qed.

Lemma current_fetched s k b : (0 < k)%nat → (s < length rows)%nat → rq_repr b (take k (drop s rows)) → rq_current b = rows !! s.
Proof.
  intros K0 L Rp. destruct (lookup_lt_is_Some_2 rows s L) as [r Hr]. rewrite (drop_S _ _ _ Hr) in Rp. destruct k; [lia|].
  rewrite Hr. by eapply rq_current_repr.
Qed.

Lemma setPosition_spec key pk c :
  key_ok v key → buf_ok c → ∃ c', setPosition key pk c = Ok c' ∧ same c c' ∧ at_or_end (set_range key pk) c'.
Proof.
  intros Kk Bf. unfold Cursor.setPosition. set (s := set_range key pk). pose proof (d_range Dok key pk Kk) as L. fold s in L.
  destruct (fetch_spec s (Cursor.getf_fetch_count bulk 0) c Bf L) as (b' & k & -> & Lk & Pos & Rp). cbn [result_bind Cursor.fetched].
  destruct (decide (s < length rows)%nat) as [Lt|Ge].
  - specialize (Pos Lt). rewrite (proj2 (Z.ltb_lt 0 (Z.of_nat k))) by lia. rewrite (current_fetched s k b' Pos Lt Rp).
    destruct (lookup_lt_is_Some_2 rows s Lt) as [r Hr]. rewrite Hr. cbn [or_fail result_bind]. eexists. split; [reflexivity|].
    split; [done|]. left. split; [done|]. split; [done|by rewrite Hr|cbn; lia|]. cbn. by replace (s + k - s)%nat with k by lia.
  - assert (k = 0)%nat as -> by lia. cbn [Z.of_nat Z.ltb Z.compare result_bind]. eexists. split; [reflexivity|]. split; [done|]. right.
    split; [lia|]. split; [done|]. by eexists.
Qed.

Lemma findKey_spec key c :
  key_ok v key → buf_ok c →
  ∃ c' q, findKey key c = Ok c' ∧ same c c' ∧ at_or_end q c' ∧
    ∀ i r, rows !! i = Some r → (i < q)%nat ↔ ¬ key_le v key (row_key r).
Proof.
  intros Kk Bf. unfold Cursor.findKey. set (pk := if isPKIndex then None else _).
  destruct (setPosition_spec key pk c Kk Bf) as (c' & E & Sm & A). exists c', (set_range key pk). split; [done|]. split; [done|]. split; [done|].
  intros i r Hr. rewrite (d_set_range Dok key pk i r Kk Hr). unfold pk, row_before. by destruct isPKIndex, fwd.
Qed.

(** *** The key after the keys with a prefix *)

Definition skip_target (key : list K) (k : nat) : list K :=
  imap (λ i e, if (i <? k)%nat then e else Cursor.superlative v i) key.

Lemma skip_target_ok key k : key_ok v key → key_ok v (skip_target key k).
Proof. unfold key_ok, skip_target. by rewrite length_imap. Qed.

Lemma superlative_top i x : (i < nfields)%nat → fle v i x (Cursor.superlative v i).
Proof.
  intros L. destruct (lookup_lt_is_Some_2 (_keyPattern v) i) as [[name number] Hp]; [lia|].
  unfold fle, kle, field_dir, dir_elem, woCompare. cbn [field_cmp]. unfold Iterator.reverse_field, Cursor.superlative, Cursor.descending, Cursor.forward.
  rewrite Hp. pose proof (minKey_le x) as Mn. pose proof (maxKey_ge x) as Mx. unfold kle in Mn, Mx. pose proof (woCompare_opp minKey x) as O.
  unfold woCompare in *. destruct (number <? 0), Dir as [->| ->]; cbn; lia.
Qed.

Lemma skip_target_at key k f : key_ok v key → (f < nfields)%nat →
  at_key (skip_target key k) f = if (f <? k)%nat then at_key key f else Cursor.superlative v f.
Proof.
  intros Kk L. unfold at_key, skip_target. rewrite list_lookup_imap.
  destruct (lookup_lt_is_Some_2 key f) as [x ->]; [unfold key_ok in Kk; lia|]. cbn. by destruct (f <? k)%nat.
Qed.

Lemma skip_target_share key k : key_ok v key → (k ≤ nfields)%nat → share v k key (skip_target key k).
Proof.
  intros Kk L f F. rewrite skip_target_at, (proj2 (Nat.ltb_lt f k)) by (done || lia). split; apply fle_refl.
Qed.

Lemma skip_target_le key k key' : key_ok v key → share v k key key' → key_le v key' (skip_target key k).
Proof.
  intros Kk Sh. apply key_le_pointwise. intros f F. rewrite skip_target_at by done. destruct (f <? k)%nat eqn:E.
  - apply Nat.ltb_lt in E. apply Sh. lia.
  - by apply superlative_top.
Qed.

Section Secondary.
Context (Sec : isPKIndex = false).

(** On a secondary index a skip goes past exactly the keys up to those with the prefix. *)
Lemma skipPrefix_spec key k c :
  key_ok v key → (k ≤ nfields)%nat → buf_ok c →
  ∃ c' q, skipPrefix key k c = Ok c' ∧ same c c' ∧ at_or_end q c' ∧
    ∀ i r, rows !! i = Some r → (i < q)%nat ↔ key_le v (row_key r) (skip_target key k).
Proof.
  intros Kk L Bf. unfold Cursor.skipPrefix. fold (skip_target key k). rewrite Sec. set (pk := Some _).
  destruct (setPosition_spec (skip_target key k) pk c (skip_target_ok key k Kk) Bf) as (c' & E & Sm & A).
  exists c', (set_range (skip_target key k) pk). split; [done|]. split; [done|]. split; [done|].
  intros i r Hr. rewrite (d_set_range Dok _ pk i r (skip_target_ok key k Kk) Hr). unfold pk, row_before. by destruct fwd.
Qed.

(** The keys that a skip passes and that are not before [key] have its prefix; the others do not. *)
Lemma skipped_share key k key' :
  key_ok v key → (k ≤ nfields)%nat → key_le v key key' → key_le v key' (skip_target key k) → share v k key key'.
Proof. intros Kk L L1 L2. eapply share_between; [done|by apply skip_target_share|done|done]. Qed.

Lemma landed_ahead key k key' : key_ok v key → (k ≤ nfields)%nat → ¬ key_le v key' (skip_target key k) → key_le v key key' ∧ ¬ key_le v key' key.
Proof.
  intros Kk L N. assert (key_le v key (skip_target key k)) as L1.
  { apply skip_target_le; [done|]. intros f F. split; apply fle_refl. }
  split.
  - destruct (key_le_total v (skip_target key k) key') as [L2|(g & G & E)]; [by eapply key_le_trans|].
    destruct N. right. by exists g.
  - intros L2. apply N. by eapply key_le_trans.
Qed.

(** *** The key of a skip, and the exclusive bounds *)

Lemma build_target_lookup r (endKeys : list (option K)) key i :
  (∀ j, (j < length key)%nat → (r ≤ i + j)%nat → ∃ x, endKeys !! (i + j)%nat = Some (Some x)) →
  ∃ t, Cursor.build_target i r key endKeys = Some t ∧ length t = length key ∧
    ∀ j, (j < length key)%nat → t !! j = if (i + j <? r)%nat then key !! j else default minKey <$> endKeys !! (i + j)%nat.
Proof.
  revert i. induction key as [|e key IH]; intros i Hx; cbn [Cursor.build_target].
  - exists []. split; [done|]. split; [done|]. cbn. lia.
  - destruct (IH (S i)) as (t & E & L & Lk).
    { intros j Lj Rj. replace (S i + j)%nat with (i + S j)%nat in * by lia. apply Hx; [cbn; lia|done]. }
    assert (∃ x, (if (i <? r)%nat then Some e else x ← endKeys !! i; x) = Some x ∧
              Some x = if (i <? r)%nat then Some e else default minKey <$> endKeys !! i) as (x & -> & Ex).
    { destruct (i <? r)%nat eqn:Er; [by exists e|]. apply Nat.ltb_ge in Er.
      destruct (Hx 0%nat) as [x Ex]; [cbn; lia|lia|]. rewrite Nat.add_0_r in Ex. rewrite Ex. by exists x. }
    cbn [mbind option_bind]. rewrite E. cbn [mbind option_bind]. exists (x :: t). split; [done|]. split; [cbn; lia|].
    intros [|j] Lj; cbn [lookup list_lookup]; [rewrite Nat.add_0_r; exact Ex|].
    replace (i + S j)%nat with (S i + j)%nat by lia. apply Lk. cbn in Lj. lia.
Qed.

Lemma build_target_spec it r curr :
  key_ok v curr → skip_ok v curr (Skip r) it → it_after it = false →
  Cursor.build_target 0 r curr (it_cmp it) = Some (target it r curr) ∧ key_ok v (target it r curr).
Proof.
  intros Kc Sk Af. destruct (Sk r eq_refl) as (Lr & Lc & _ & Sk'). destruct (Sk' Af) as [_ Nn]. unfold key_ok in Kc.
  destruct (build_target_lookup r (it_cmp it) curr 0) as (t & E & L & Lk).
  { intros j Lj Rj. cbn [Nat.add] in *. apply Nn; lia. }
  assert (length (target it r curr) = nfields) as Lt.
  { unfold target. rewrite length_app, length_take, length_drop, length_fmap. lia. }
  split; [|done]. rewrite E. f_equal. apply list_eq_same_length with nfields; [done|lia|].
  intros j x y Lj Hx Hy. rewrite (Lk j) in Hx by lia. cbn [Nat.add] in Hx. unfold target in Hy. destruct (j <? r)%nat eqn:Ej.
  - apply Nat.ltb_lt in Ej. rewrite lookup_app_l, lookup_take_lt in Hy by (rewrite ?length_take; lia). congruence.
  - apply Nat.ltb_ge in Ej. rewrite lookup_app_r, lookup_drop, list_lookup_fmap in Hy by (rewrite length_take; lia).
    rewrite length_take in Hy. replace (r + (j - r `min` length curr))%nat with j in Hy by lia. congruence.
Qed.

Lemma find_excluded_some i0 r key (cmp : list (option K)) inc i :
  Cursor.find_excluded i0 r key cmp inc = Some i →
  ∃ e x, key !! (i - i0)%nat = Some e ∧ (i0 ≤ i)%nat ∧ (r ≤ i)%nat ∧ default true (inc !! i) = false ∧ cmp !! i = Some (Some x) ∧ woCompare e x = 0.
Proof.
  revert i0. induction key as [|e key IH]; intros i0; cbn [Cursor.find_excluded]; [done|]. destruct (_ && _) eqn:E.
  - intros [= <-]. apply andb_true_iff in E as [E Ex]. apply andb_true_iff in E as [E1 E2]. apply Nat.leb_le in E1.
    destruct (cmp !! i0) as [[x|]|] eqn:Ec; [|done..]. apply Z.eqb_eq in Ex. apply negb_true_iff in E2.
    exists e, x. rewrite Nat.sub_diag. done.
  - intros (e' & x & Hk & L & ?)%IH. exists e', x. replace (i - i0)%nat with (S (i - S i0)) by lia. split; [done|]. split; [lia|]. done.
Qed.

Lemma find_excluded_none i0 r key (cmp : list (option K)) inc j e x :
  Cursor.find_excluded i0 r key cmp inc = None → key !! j = Some e → (r ≤ i0 + j)%nat → default true (inc !! (i0 + j)%nat) = false →
  cmp !! (i0 + j)%nat = Some (Some x) → woCompare e x ≠ 0.
Proof.
  revert i0 j. induction key as [|e' key IH]; intros i0 j; cbn [Cursor.find_excluded]; [done|]. destruct (_ && _) eqn:E; [done|].
  intros Fe. destruct j as [|j]; cbn [lookup list_lookup].
  - rewrite Nat.add_0_r. intros [= ->] R1 I1 Ec Ez. rewrite I1, Ec, (proj2 (Nat.leb_le _ _) R1), Ez in E. done.
  - intros Hk. replace (i0 + S j)%nat with (S i0 + j)%nat by lia. by apply IH.
Qed.

Lemma fle_both f e x : fle v f e x → fle v f x e → woCompare e x = 0.
Proof.
  unfold fle, kle, field_dir, dir_elem, woCompare. cbn. pose proof (woCompare_opp e x) as O. unfold woCompare in O.
  unfold dir_sign. destruct (Iterator.reverse_field v f); lia.
Qed.

Section Skip.
Context (curr : list K) (it : iter K) (r : nat).
Context (Kc : key_ok v curr) (Sk : skip_ok v curr (Skip r) it) (Af : it_after it = false).
Context (Pr : ∀ k, key_ok v k → key_le v curr k → keymatch v k → resume v (Skip r) it curr k).

#[local] Abbreviation T := (target it r curr).

(** No matching row from the current key on is before row [q]. *)
Definition free (q : nat) : Prop :=
  ∀ i row, rows !! i = Some row → (i < q)%nat → key_le v curr (row_key row) → ¬ keymatch v (row_key row).

Definition not_excluded (k : list K) : Prop :=
  ∀ f, (r ≤ f)%nat → (f < nfields)%nat → inc_at it f = false → ¬ (fle v f (at_key k f) (at_key T f) ∧ fle v f (at_key T f) (at_key k f)).

Lemma resume_parts k : key_ok v k → key_le v curr k → keymatch v k → key_le v T k ∧ not_excluded k.
Proof. intros Kk L M. pose proof (Pr k Kk L M) as [_ Rs]. cbn in Rs. by rewrite Af in Rs. Qed.

Lemma target_cmp f x : (r ≤ f)%nat → it_cmp it !! f = Some (Some x) → at_key T f = x.
Proof.
  intros L E. destruct (Sk r eq_refl) as (Lr & _). unfold key_ok in Kc. unfold at_key, target.
  rewrite lookup_app_r, lookup_drop, list_lookup_fmap by (rewrite length_take; lia). rewrite length_take.
  replace (r + (f - r `min` length curr))%nat with f by lia. by rewrite E.
Qed.

Lemma excluded_at k i : key_ok v k → Cursor.find_excluded 0 r k (it_cmp it) (it_inc it) = Some i →
  (r ≤ i)%nat ∧ (i < nfields)%nat ∧ inc_at it i = false ∧ fle v i (at_key k i) (at_key T i) ∧ fle v i (at_key T i) (at_key k i).
Proof.
  intros Kk (e & x & Hk & _ & Lr & Inc & Ec & Ez)%find_excluded_some. rewrite Nat.sub_0_r in Hk.
  pose proof (lookup_lt_Some _ _ _ Hk). split; [done|]. split; [unfold key_ok in Kk; lia|]. split; [done|].
  rewrite (target_cmp i x Lr Ec). unfold at_key. rewrite Hk. cbn. by apply fle_of_zero, Z.eqb_eq.
Qed.

Lemma not_excluded_none k : key_ok v k → Cursor.find_excluded 0 r k (it_cmp it) (it_inc it) = None → not_excluded k.
Proof.
  intros Kk Fe f L1 L2 Inc [F1 F2]. destruct (Sk r eq_refl) as (_ & _ & _ & Sk'). destruct (Sk' Af) as [_ Nn].
  destruct (Nn f L1 L2) as [x Ec]. rewrite (target_cmp f x L1 Ec) in F1, F2.
  destruct (lookup_lt_is_Some_2 k f) as [e He]; [unfold key_ok in Kk; lia|]. unfold at_key in F1, F2. rewrite He in F1, F2. cbn in F1, F2.
  by apply (find_excluded_none 0 r k (it_cmp it) (it_inc it) f e x Fe He L1 Inc Ec), (fle_both f).
Qed.

Lemma again_spec fuel q c :
  at_or_end q c → _boundsIterator c = it → free q → (∀ i row, rows !! i = Some row → (q ≤ i)%nat → key_le v T (row_key row)) →
  (length rows - q < fuel)%nat →
  ∃ c' q', again fuel r c = Ok c' ∧ same c c' ∧ at_or_end q' c' ∧ free q' ∧
    ∀ row, rows !! q' = Some row → key_le v T (row_key row) ∧ not_excluded (row_key row).
Proof.
  revert q c. induction fuel as [|fuel IH]; intros q c A Ei Fr Ge Fu; [lia|]. cbn [Cursor.again].
  destruct A as [[Lq A]|(-> & Nok & Bf)].
  2: { rewrite Nok. exists c, (length rows). split; [done|]. split; [done|]. split; [right; done|]. split; [done|].
       intros row Hr. apply lookup_lt_Some in Hr. lia. }
  rewrite (ar_ok _ _ A). destruct (at_row_some _ _ A) as (row & Hr & ->). rewrite Ei. pose proof (d_keys Dok q row Hr) as Kr.
  destruct (Cursor.find_excluded _ _ _ _ _) as [i|] eqn:Fe.
  - destruct (excluded_at _ _ Kr Fe) as (Ri & Li & Inc & F1 & F2).
    destruct (skipPrefix_spec (row_key row) (S i) c Kr ltac:(lia) (at_row_buf _ _ A)) as (c2 & q2 & -> & (S1 & S2 & S3) & A2 & Hq2).
    cbn [result_bind]. assert (q < q2)%nat as Lt by (apply (Hq2 q row Hr), skip_target_le; [done|]; intros f F; split; apply fle_refl).
    destruct (IH q2 c2) as (c' & q' & E' & (S4 & S5 & S6) & R'); [done|congruence| | |lia|].
    + intros j row' Hj Lj Lc M. destruct (decide (j < q)%nat) as [Lj'|Lj']; [by apply (Fr j row')|].
      destruct (resume_parts _ (d_keys Dok j row' Hj) Lc M) as [_ Ne]. apply (Ne i Ri Li Inc).
      assert (share v (S i) (row_key row) (row_key row')) as Sh.
      { apply skipped_share; [done|lia|apply (d_sorted Dok q j); [done..|lia]|by apply (Hq2 j row' Hj)]. }
      destruct (Sh i ltac:(lia)). split; eapply fle_trans; eassumption.
    + intros j row' Hj Lj. apply (Ge j); [done|lia].
    + exists c', q'. split; [done|]. split; [|done]. split; [congruence|]. split; congruence.
  - exists c, q. split; [done|]. split; [done|]. split; [by left|]. split; [done|]. intros row' Hr'. simplify_eq.
    split; [by apply (Ge q)|by apply not_excluded_none].
Qed.
End Skip.

(** *** One step of the iterator *)

#[local] Abbreviation skipToNextKey := (Cursor.skipToNextKey rows row_key set_range isPKIndex bulk v limit).

(** The cursor has jumped to row [q], past the current key, without losing a matching row. *)
Definition jumped curr (it : iter K) q c' : Prop :=
  at_or_end q c' ∧ free curr q ∧
  ∀ row, rows !! q = Some row → pre v it (row_key row) ∧ ¬ key_le v (row_key row) curr.

Definition moved_on curr c z c' : Prop :=
  z = -2 ∧ _ok c' = false ∧ buf_ok c' ∧ free curr (length rows) ∨
  z = -1 ∧ c' = Cursor.set_iter (_boundsIterator c') c ∧
    (∀ k, key_ok v k → key_le v curr k → pre v (_boundsIterator c') k) ∨
  z = 0 ∧ ∃ q, jumped curr (_boundsIterator c') q c'.

Lemma not_before k k' : ¬ key_le v k k' → key_le v k' k.
Proof. destruct (key_le_total v k k') as [|(g & G & E)]; [done|]. intros _. right. by exists g. Qed.

Section Jump.
Context (curr : list K) (it : iter K) (r : nat).
Context (Kc : key_ok v curr) (Sk : skip_ok v curr (Skip r) it).
Context (Pr : ∀ k, key_ok v k → key_le v curr k → keymatch v k → resume v (Skip r) it curr k).
Context (Pre : ∀ k, key_ok v k → resume v (Skip r) it curr k → pre v it k).

Lemma jump_past c : buf_ok c → it_after it = true →
  ∃ c' q, skipPrefix curr r c = Ok c' ∧ same c c' ∧ jumped curr it q c'.
Proof.
  intros Bf Af. destruct (Sk r eq_refl) as (Lr & _).
  destruct (skipPrefix_spec curr r c Kc Lr Bf) as (c' & q & E & Sm & A & Hq). exists c', q. split; [done|]. split; [done|]. split; [done|]. split.
  - intros i row Hr Lt Le M. destruct (Pr _ (d_keys Dok i row Hr) Le M) as [_ Rs]. rewrite Af in Rs. apply Rs.
    apply skipped_share; [done|done|done|]. by apply (Hq i row Hr).
  - intros row Hr. assert (¬ key_le v (row_key row) (skip_target curr r)) as N by (intros L; apply (Hq q row Hr) in L; lia).
    destruct (landed_ahead curr r (row_key row) Kc Lr N) as [L1 L2]. split; [|done]. apply Pre; [by apply (d_keys Dok q)|].
    split; [done|]. rewrite Af. intros Sh. by apply N, skip_target_le.
Qed.

Lemma landed_lower q c' : it_after it = false →
  at_or_end q c' → free curr q →
  (∀ row, rows !! q = Some row → key_le v (target it r curr) (row_key row) ∧ not_excluded curr it r (row_key row)) → jumped curr it q c'.
Proof.
  intros Af A Fr Land. split; [done|]. split; [done|]. intros row Hr. destruct (Land row Hr) as [L1 L2].
  destruct (Sk r eq_refl) as (_ & _ & _ & Sk'). assert (¬ key_le v (row_key row) curr) as N by (by apply (proj1 (Sk' Af))).
  split; [|done]. apply Pre; [by apply (d_keys Dok q)|]. split; [by apply not_before|by rewrite Af].
Qed.

Lemma jump_lower fuel c : buf_ok c → it_after it = false → _boundsIterator c = it → (length rows < fuel)%nat →
  ∃ c' q, (c <-? findKey (target it r curr) c ;;
           if forallb (λ b, b) (take (length curr) (it_inc it)) then Ok (0, c)
           else c <-? again fuel r c ;; Ok (0, c)) = Ok (0, c') ∧ same c c' ∧ jumped curr it q c'.
Proof.
  intros Bf Af Ei Fu. destruct (build_target_spec it r curr Kc Sk Af) as [_ Kt]. destruct (Sk r eq_refl) as (_ & _ & Li & _).
  destruct (findKey_spec (target it r curr) c Kt Bf) as (c2 & q & -> & (S1 & S2 & S3) & A & Hq). cbn [result_bind].
  assert (free curr q) as Fr.
  { intros i row Hr Lt Le M. apply (Hq i row Hr) in Lt. by destruct (resume_parts curr it r Af Pr _ (d_keys Dok i row Hr) Le M). }
  assert (∀ i row, rows !! i = Some row → (q ≤ i)%nat → key_le v (target it r curr) (row_key row)) as Ge.
  { intros i row Hr L. destruct (key_le_total v (target it r curr) (row_key row)) as [|(g & G & Ex)]; [done|]. exfalso.
    assert (i < q)%nat; [|lia]. apply (Hq i row Hr). by apply (exceed_not_le v g). }
  destruct (forallb _ _) eqn:All.
  - exists c2, q. split; [done|]. split; [done|]. apply landed_lower; [done..|]. intros row Hr. split; [by apply (Ge q)|].
    intros f F1 F2 Inc. exfalso. rewrite forallb_forall in All. destruct (lookup_lt_is_Some_2 (it_inc it) f) as [b Hb]; [lia|].
    unfold inc_at in Inc. rewrite Hb in Inc. cbn in Inc. subst b. cut (false = true); [done|]. apply All, list_elem_of_In.
    apply (list_elem_of_lookup_2 _ f). rewrite lookup_take_lt; [done|]. unfold key_ok in Kc. lia.
  - destruct (again_spec curr it r Kc Sk Af Pr fuel q c2) as (c' & q' & -> & (S4 & S5 & S6) & A' & Fr' & Land); [done|congruence|done|done|lia|].
    cbn [result_bind]. exists c', q'. split; [done|]. split; [split; [congruence|split; congruence]|]. by apply landed_lower.
Qed.
End Jump.

Lemma skip_spec fuel curr c :
  key_ok v curr → buf_ok c → pre v (_boundsIterator c) curr → (length rows < fuel)%nat →
  ∃ z c', skipToNextKey fuel curr c = Ok (z, c') ∧ _nscanned c' = _nscanned c ∧ moved_on curr c z c'.
Proof.
  intros Kc Bf P Fu. destruct (advance_ok v limit (_boundsIterator c) curr Vok Lim Kc P) as (res & it & E & _ & Pr & Pre & Sk).
  unfold Cursor.skipToNextKey. rewrite E. cbn [or_fail result_bind fst snd]. destruct res as [| |r].
  - eexists _, _. split; [reflexivity|]. split; [done|]. left. split; [done|]. split; [done|]. split; [done|].
    intros i row Hr _ Le M. by destruct (Pr _ (d_keys Dok i row Hr) Le M).
  - eexists _, _. split; [reflexivity|]. split; [done|]. right. left. split; [done|]. split; [done|]. intros k Kk Lk. by apply Pre.
  - destruct (it_after it) eqn:Af.
    + destruct (jump_past curr it r Kc Sk Pr Pre (Cursor.set_iter it c) Bf Af) as (c' & q & -> & (S1 & S2 & _) & J). cbn [result_bind].
      eexists _, _. split; [reflexivity|]. split; [done|]. right. right. split; [done|]. exists q. by rewrite S1.
    + destruct (build_target_spec it r curr Kc Sk Af) as [-> _]. cbn [or_fail result_bind].
      destruct (jump_lower curr it r Kc Sk Pr Pre fuel (Cursor.set_iter it c) Bf Af eq_refl Fu) as (c' & q & -> & (S1 & S2 & _) & J).
      eexists _, _. split; [reflexivity|]. split; [done|]. right. right. split; [done|]. exists q. by rewrite S1.
Qed.

(** *** The scan *)

#[local] Abbreviation skipOut := (Cursor.skipOutOfRangeKeysAndCheckEnd rows row_key set_range isPKIndex bulk v limit).
#[local] Abbreviation check_loop := (Cursor.check_loop rows row_key set_range isPKIndex bulk v limit).
#[local] Abbreviation check := (Cursor.checkCurrentAgainstBounds rows row_key set_range isPKIndex bulk v limit).

(** The cursor is at row [p], and the iterator is ready for it. *)
Definition ready (p : nat) c : Prop :=
  at_row p c ∧ ∀ row, rows !! p = Some row → pre v (_boundsIterator c) (row_key row).

(** No row from [p] on and before [q] matches. *)
Definition none_between (p q : nat) : Prop :=
  ∀ i row, rows !! i = Some row → (p ≤ i)%nat → (i < q)%nat → ¬ keymatch v (row_key row).

(** The scan has gone from row [p] on to the next row it visits, or to its end. *)
Definition progress (p : nat) c : Prop :=
  _ok c = false ∧ buf_ok c ∧ none_between p (length rows) ∨
  ∃ q, (p ≤ q)%nat ∧ ready q c ∧ none_between p q.

Lemma progress_trans p q c : (p ≤ q)%nat → none_between p q → progress q c → progress p c.
Proof.
  intros L N [(Nok & Bf & N')|(q' & L' & Rd & N')].
  - left. split; [done|]. split; [done|]. intros i row Hr L1 L2. destruct (decide (i < q)%nat); [by apply (N i)|apply (N' i); [done|lia|done]].
  - right. exists q'. split; [lia|]. split; [done|]. intros i row Hr L1 L2.
    destruct (decide (i < q)%nat); [by apply (N i)|apply (N' i); [done|lia|done]].
Qed.

(** From row [p], whose key is not after [curr] *)
Lemma jumped_progress p curr q c :
  (∀ row, rows !! p = Some row → key_le v curr (row_key row)) → (p ≤ q)%nat → jumped curr (_boundsIterator c) q c → progress p c.
Proof.
  intros Lc L (A & Fr & Land).
  assert (none_between p q) as N.
  { intros i row Hr L1 L2. apply (Fr i row Hr L2). destruct (lookup_lt_is_Some_2 rows p) as [row' Hr']; [apply lookup_lt_Some in Hr; lia|].
    eapply key_le_trans; [by apply Lc|by apply (d_sorted Dok p i)]. }
  destruct A as [[Lq A]|(-> & Nok & Bf)]; [|by left]. right. exists q. split; [done|]. split; [|done]. split; [done|]. intros row Hr. by apply Land.
Qed.

Lemma skipOut_spec p c fuel :
  ready p c → (length rows < fuel)%nat →
  ∃ b c', skipOut fuel c = Ok (b, c') ∧ (b = true → _nscanned c' = _nscanned c + 1) ∧ progress p c'.
Proof.
  intros [A P] Fu. unfold Cursor.skipOutOfRangeKeysAndCheckEnd. rewrite (ar_ok _ _ A). destruct (at_row_some _ _ A) as (row & Hr & ->).
  destruct (skip_spec fuel (row_key row) c (d_keys Dok p row Hr) (at_row_buf _ _ A) (P row Hr) Fu) as (z & c' & -> & Ns & M). cbn [result_bind fst snd].
  assert (∀ row', rows !! p = Some row' → key_le v (row_key row) (row_key row')) as Lc by (intros row' Hr'; simplify_eq; apply key_le_refl).
  destruct M as [(-> & Nok & Bf & Fr)|[(-> & Ec & Pk)|(-> & q & J)]].
  - eexists _, _. split; [reflexivity|]. split; [done|]. left. split; [done|]. split; [done|]. intros i row' Hr' L1 L2. apply (Fr i row' Hr' L2).
    by apply (d_sorted Dok p i).
  - eexists _, _. split; [reflexivity|]. split; [done|]. right. exists p. split; [done|]. split; [|intros i row' Hr' L1 L2; lia].
    cbn [Z.eqb]. split; [|intros row' Hr'; simplify_eq; apply Pk; [by apply (d_keys Dok p)|apply key_le_refl]].
    rewrite Ec. destruct A. by split.
  - eexists _, _. split; [reflexivity|]. cbn [Z.eqb]. split; [intros _; cbn; lia|].
    apply (jumped_progress p (row_key row) q); [done| |].
    + destruct J as (A' & _ & Land). destruct (decide (p ≤ q)%nat) as [|N]; [done|]. exfalso.
      destruct (lookup_lt_is_Some_2 rows q) as [row' Hr']; [apply lookup_lt_Some in Hr; lia|].
      apply (proj2 (Land row' Hr')). apply (d_sorted Dok q p); [done|done|lia].
    + destruct J as ([[L []]|(-> & Nok & Bf)] & Fr & Land); (split; [|split; [done|done]]); [left|right]; done.
Qed.

Lemma skipOut_done c fuel : _ok c = false → skipOut fuel c = Ok (false, c).
Proof. intros E. unfold Cursor.skipOutOfRangeKeysAndCheckEnd. by rewrite E. Qed.

Lemma check_loop_spec p c n fuel s :
  progress p c → (length rows < fuel)%nat → (0 < n)%nat → s + 22 <= _nscanned c + Z.of_nat n →
  ∃ c', check_loop n fuel s c = Ok c' ∧ progress p c'.
Proof.
  revert p c. induction n as [|n IH]; intros p c Pg Fu N0 Hn; [lia|]. cbn [Cursor.check_loop]. destruct (s + 20 <? _) eqn:E; bool_facts.
  - eexists. split; [reflexivity|]. destruct Pg as [?|(q & L & [[] P] & N)]; [by left|]. right. exists q. split; [done|]. split; [|done]. by split.
  - destruct Pg as [(Nok & Bf & N)|(q & L & Rd & N)].
    + rewrite skipOut_done by done. cbn. eexists. split; [reflexivity|]. by left.
    + destruct (skipOut_spec q c fuel Rd Fu) as (b & c' & -> & Ns & Pg'). cbn [result_bind fst snd]. apply (progress_trans p q _ L N) in Pg'.
      destruct b; [|by eexists]. apply IH; [done|done|lia|]. rewrite Ns by done. lia.
Qed.

Lemma check_spec p c fuel : ready p c → (length rows < fuel)%nat → ∃ c', check fuel c = Ok c' ∧ progress p c'.
Proof.
  intros Rd Fu. unfold Cursor.checkCurrentAgainstBounds.
  destruct (skipOut_spec p c fuel Rd Fu) as (b & c' & -> & Ns & Pg). cbn [result_bind fst snd].
  destruct b; [|by eexists]. apply check_loop_spec; [done|done|lia|]. rewrite Ns by done. lia.
Qed.

Lemma check_end c fuel : at_or_end (length rows) c → check fuel c = Ok c.
Proof.
  intros [[L _]|(_ & Nok & _)]; [lia|]. unfold Cursor.checkCurrentAgainstBounds. by rewrite skipOut_done.
Qed.

Lemma _advance_spec p c :
  at_row p c → ∃ c', Cursor._advance rows bulk c = Ok c' ∧ _boundsIterator c' = _boundsIterator c ∧ at_or_end (S p) c'.
Proof.
  intros A. destruct (at_row_some _ _ A) as (row & Hr & Ec). destruct A as [Eok _ Ln Rp]. unfold Cursor._advance.
  rewrite (drop_S _ _ _ Hr) in Rp. destruct (dbc_next c - p)%nat as [|m] eqn:Em; [lia|]. cbn [take] in Rp.
  destruct (rq_next_repr _ _ _ Rp) as (b' & En & Rp'). cbn [Cursor.set_must_match _buffer]. rewrite En. cbn [or_fail result_bind fst snd].
  cbn [_ok]. rewrite (rq_ok_repr _ _ Rp'). destruct (take m (drop (S p) rows)) as [|row' rest] eqn:Et.
  - assert (dbc_next c = S p) as Ed.
    { destruct m; [lia|]. destruct (lookup_lt_is_Some_2 rows (S p)) as [r' Hr']; [lia|]. by rewrite (drop_S _ _ _ Hr') in Et. }
    unfold Cursor.fetchMoreRows. cbn [Cursor.set_must_match _buffer dbc_next _getf_iteration].
    destruct (fetch_spec (S p) (Cursor.getf_fetch_count bulk (_getf_iteration c)) (mkCursor false (_curr c) b' (S p) (_boundsIterator c) (_nscanned c) true 0))
      as (b2 & k & Eg & Lk & Pos & Rp2); [by eexists|lia|]. cbn [_buffer] in Eg. rewrite Ed, Eg. cbn [result_bind fst snd Cursor.set_ok_flag _ok _buffer].
    destruct (decide (S p < length rows)%nat) as [Lt|Ge].
    + specialize (Pos Lt). rewrite (proj2 (Z.ltb_lt 0 (Z.of_nat k))) by lia. rewrite (current_fetched (S p) k b2 Pos Lt Rp2).
      destruct (lookup_lt_is_Some_2 rows (S p) Lt) as [r' Hr']. rewrite Hr'. cbn [or_fail result_bind]. eexists. split; [reflexivity|]. split; [done|].
      left. split; [done|]. split; [done|by rewrite Hr'|cbn; lia|]. cbn [Cursor.set_ok_flag Cursor.set_must_match _buffer dbc_next]. by replace (S p + k - S p)%nat with k by lia.
    + assert (k = 0)%nat as -> by lia. cbn [Z.of_nat Z.ltb Z.compare]. eexists. split; [reflexivity|]. split; [done|]. right.
      split; [lia|]. split; [done|]. by eexists.
  - cbn [_buffer result_bind _ok]. rewrite <- Et in Rp'. assert (0 < m)%nat as Hm by (destruct m; [done|lia]).
    rewrite (current_fetched (S p) m b' Hm ltac:(lia) Rp'). destruct (lookup_lt_is_Some_2 rows (S p)) as [r' Hr']; [lia|]. rewrite Hr'.
    cbn [or_fail result_bind]. eexists. split; [reflexivity|]. split; [done|]. left. split; [lia|]. split; [done|by rewrite Hr'|cbn; lia|].
    cbn [Cursor.set_ok_flag Cursor.set_must_match _buffer dbc_next]. by replace (dbc_next c - S p)%nat with m by lia.
Qed.

Lemma at_or_end_progress p c fuel :
  at_or_end p c → (∀ row, rows !! p = Some row → pre v (_boundsIterator c) (row_key row)) → (length rows < fuel)%nat →
  ∃ c', check fuel c = Ok c' ∧ progress p c'.
Proof.
  intros A P Fu. destruct (decide (p = length rows)) as [->|N].
  - rewrite check_end by done. exists c. split; [done|]. destruct A as [[L _]|(_ & Nok & Bf)]; [lia|]. left. split; [done|]. split; [done|].
    intros i row Hr L1 L2. lia.
  - destruct A as [[L A]|(-> & _)]; [|done]. by apply check_spec.
Qed.

Lemma cursor_advance_spec p c fuel :
  ready p c → (length rows < fuel)%nat →
  ∃ c', Cursor.advance rows row_key set_range isPKIndex bulk v limit fuel c = Ok c' ∧ progress (S p) c'.
Proof.
  intros [A P] Fu. unfold Cursor.advance. rewrite (ar_ok _ _ A). destruct (_advance_spec p c A) as (c' & -> & Ei & A'). cbn [result_bind].
  apply at_or_end_progress; [done| |done]. intros row Hr. rewrite Ei. destruct (at_row_some _ _ A) as (row0 & Hr0 & _).
  apply (pre_later v _ (row_key row0)); [by apply P|]. apply (d_sorted Dok p (S p)); [done|done|lia].
Qed.

Lemma dive_pre st k : pre v st k → pre v (Iterator.prepDive v st) k.
Proof.
  intros [P1 P2 P3 P4 P5 P6 P7]. split; [done|cbn; by rewrite length_map, length_imap..|done|done|done|].
  intros k' Kk Lk M. exact (P7 k' Kk Lk M).
Qed.

Lemma initialize_spec fuel startKey :
  key_ok v startKey → (∀ k, keymatch v k → key_le v startKey k) → (length rows < fuel)%nat →
  ∃ c', Cursor.initializeDBC rows row_key set_range isPKIndex bulk v limit fuel startKey (Cursor.start v) = Ok c' ∧ progress 0 c'.
Proof.
  intros Ks Start Fu. unfold Cursor.initializeDBC.
  assert (buf_ok (Cursor.start v)) as Bf by (eexists; apply rq_new_repr).
  destruct (skip_spec fuel startKey (Cursor.start v) Ks Bf (make_pre v startKey) Fu) as (z & c & -> & _ & M). cbn [result_bind fst snd].
  assert (∀ q, free startKey q → none_between 0 q) as Fn.
  { intros q Fr i row Hr _ L M'. by apply (Fr i row Hr L (Start _ M') M'). }
  destruct M as [(-> & Nok & Bf' & Fr)|[(-> & Ec & Pk)|(-> & q & A & Fr & Land)]]; cbn [Z.eqb Pos.eqb].
  - cbn [result_bind]. unfold Cursor.checkCurrentAgainstBounds. rewrite skipOut_done by done. eexists. split; [reflexivity|]. left.
    split; [done|]. split; [done|]. by apply Fn.
  - set (c1 := Cursor.set_iter _ c). assert (buf_ok c1) as Bf1 by (unfold c1; rewrite Ec; done).
    destruct (findKey_spec startKey c1 Ks Bf1) as (c2 & q & -> & (S1 & _) & A & Hq). cbn [result_bind].
    destruct (at_or_end_progress q c2 fuel A) as (c' & E & Pg); [|done|].
    { intros row Hr. rewrite S1. apply dive_pre, Pk; [by apply (d_keys Dok q)|].
      destruct (key_le_total v startKey (row_key row)) as [|(g & G & Ex)]; [done|]. exfalso.
      assert (q < q)%nat; [|lia]. apply (Hq q row Hr). by apply (exceed_not_le v g). }
    exists c'. split; [done|]. apply (progress_trans 0 q); [lia| |done]. apply Fn. intros i row Hr L Le. by apply (Hq i row Hr) in L.
  - cbn [result_bind]. destruct (at_or_end_progress q c fuel A) as (c' & E & Pg); [|done|].
    { intros row Hr. by apply Land. }
    exists c'. split; [done|]. apply (progress_trans 0 q); [lia|by apply Fn|done].
Qed.

Definition in_bounds (r : R) : Prop := Vector.matchesKey v (row_key r) = Some true.
#[local] Instance in_bounds_dec r : Decision (in_bounds r) := decide (Vector.matchesKey v (row_key r) = Some true).

Lemma in_bounds_match i row : rows !! i = Some row → in_bounds row → keymatch v (row_key row).
Proof.
  intros Hr E. destruct (matchesKey_spec v Vok Pat (row_key row) (d_keys Dok i row Hr)) as (b & Eb & Q). apply Q.
  unfold in_bounds in E. congruence.
Qed.

Lemma filter_nothing (l : list R) : Forall (λ r, ¬ in_bounds r) l → filter in_bounds l = [].
Proof. induction 1 as [|r l N F IH]; [done|]. by rewrite filter_cons_False. Qed.

Lemma filter_none p q : (p ≤ q)%nat → none_between p q → filter in_bounds (drop p rows) = filter in_bounds (drop q rows).
Proof.
  intros L N. replace q with (p + (q - p))%nat by lia. rewrite <- drop_drop. rewrite <- (take_drop (q - p) (drop p rows)) at 1.
  rewrite filter_app. replace (filter in_bounds (take (q - p) (drop p rows))) with (@nil R); [done|]. symmetry. apply filter_nothing.
  apply Forall_lookup. intros i row Hi. destruct (decide (i < q - p)%nat) as [Li|Li].
  - rewrite lookup_take_lt, lookup_drop in Hi by done. intros E. apply (N (p + i)%nat row Hi); [lia|lia|]. by eapply in_bounds_match.
  - rewrite lookup_take_ge in Hi by lia. done.
Qed.

Lemma scan_spec n fuel p c :
  progress p c → (length rows < fuel)%nat → (length rows - p < n)%nat →
  ∃ l, Cursor.scan rows row_key set_range isPKIndex bulk v limit n fuel c = Ok l ∧
    filter in_bounds l = filter in_bounds (drop p rows) ∧ l `sublist_of` drop p rows.
Proof.
  revert p c. induction n as [|n IH]; intros p c Pg Fu Hn; [lia|]. cbn [Cursor.scan].
  destruct Pg as [(Nok & _ & N)|(q & L & Rd & N)].
  - rewrite Nok. exists []. split; [done|]. split; [|apply sublist_nil_l]. destruct (decide (p ≤ length rows)%nat).
    + rewrite (filter_none p (length rows)), drop_all by done. done.
    + by rewrite drop_ge by lia.
  - destruct Rd as [A P] eqn:E. rewrite (ar_ok _ _ A). destruct (at_row_some _ _ A) as (row & Hr & ->).
    destruct (cursor_advance_spec q c fuel Rd Fu) as (c' & -> & Pg'). cbn [result_bind]. pose proof (lookup_lt_Some _ _ _ Hr).
    destruct (IH (S q) c' Pg' Fu ltac:(lia)) as (l & -> & El & Sub). cbn [result_bind]. eexists. split; [reflexivity|]. split.
    + rewrite (filter_none p q), (drop_S _ _ _ Hr) by done. rewrite !filter_cons, El. done.
    + replace q with (p + (q - p))%nat in Sub, Hr by lia. rewrite <- (take_drop (q - p) (drop p rows)), drop_drop, (drop_S _ _ _ Hr).
      apply sublist_inserts_l. apply sublist_skip. by replace (S (p + (q - p)))%nat with (S (p + (q - p)))%nat by lia.
Qed.

(** C3: a scan of a secondary index ends, and visits every row in its bounds exactly once and in order:
    the rows it visits are rows of the index in the order of the scan, each at most once, and those
    among them that are in the bounds are all the rows that are in the bounds.  Steps as many as there
    are rows suffice.  The scope: the scan has no limit on its intervals ([limit <= 0], no
    [singleIntervalLimit]), and the dictionary is one as [dictionary_ok] describes: its rows are in the
    order of the scan, and [set_range] takes a key with the primary key MinPK or MaxPK to a place
    before or after all the rows of the key, so no document has MinKey or MaxKey as its _id. *)
Theorem cursor_scan n fuel :
  (length rows < n)%nat → (length rows < fuel)%nat →
  ∃ l, Cursor.scan_all rows row_key set_range isPKIndex bulk v limit n fuel = Ok l ∧
    filter in_bounds l = filter in_bounds rows ∧ l `sublist_of` rows.
Proof.
  intros Hn Fu. unfold Cursor.scan_all, Cursor.make. destruct (start_end_spec v Vok Pat) as (s & e & -> & _ & Ks & _ & En). cbn [or_fail result_bind].
  destruct (initialize_spec fuel s Ks (λ k M, proj1 (En k M)) Fu) as (c & -> & Pg). cbn [result_bind]. rewrite Sec, andb_false_r. cbn [andb].
  destruct (scan_spec n fuel 0 c Pg Fu ltac:(lia)) as (l & E & El & Sub). rewrite drop_0 in El, Sub. exists l.
  split; [|done]. rewrite Sec in E. destruct (_curr c); exact E.
Qed.
End Secondary.
End Scan.

(** ** A dictionary *)

Lemma sorted_neighbours {A} (P : A → A → Prop) l : Forall (λ p, P p.1 p.2) (combine l (tail l)) → Sorted P l.
Proof.
  induction l as [|a [|b l] IH]; intros F; [constructor|by repeat constructor|]. apply Forall_cons in F as [F1 F2].
  constructor; [by apply IH|by constructor].
Qed.

(** A sorted list of rows is a dictionary: [set_range] counts the rows before a key. *)
Section ListDictionary.
Context `{FieldElementLaws K} `{RowQueue B R}.
Context (rows : list R) (row_key : R → list K) (v : FieldRangeVector K).

#[local] Instance row_before_dec key pk (r : R) : Decision (row_before row_key v key pk r).
Proof. unfold row_before. destruct pk as [b|]; [destruct (Bool.eqb _ _)|]; apply _. Defined.

Definition list_set_range (key : list K) (pk : option pk_bound) : nat := length (filter (row_before row_key v key pk) rows).

Lemma row_before_down key pk r r' :
  key_le v (row_key r) (row_key r') → row_before row_key v key pk r' → row_before row_key v key pk r.
Proof.
  intros L. assert (∀ k, ¬ key_le v k (row_key r') → ¬ key_le v k (row_key r)) as D by (intros k N L'; apply N; by eapply key_le_trans).
  unfold row_before. destruct pk as [b|]; [destruct (Bool.eqb _ _)|]; [by apply D| |by apply D]. intros L'. by eapply key_le_trans.
Qed.

Lemma count_prefix key pk i r l :
  StronglySorted (λ a b, key_le v (row_key a) (row_key b)) l → l !! i = Some r →
  (i < length (filter (row_before row_key v key pk) l))%nat ↔ row_before row_key v key pk r.
Proof.
  intros S. revert i. induction S as [|a l S IH F]; intros i; [done|]. rewrite filter_cons. case_decide as E; cbn [length].
  - destruct i as [|i]; cbn [lookup list_lookup]; [intros [= ->]; split; [done|lia]|]. intros Hr. rewrite <- (IH i Hr). lia.
  - assert (filter (row_before row_key v key pk) l = []) as ->.
    { clear -F E H0 H1. induction F as [|b l L F IH]; [done|]. rewrite filter_cons_False; [done|]. intros B'. apply E. by eapply row_before_down. }
    intros Hr. cbn. split; [lia|]. intros B'. destruct E. destruct i as [|i]; [by injection Hr as ->|].
    eapply row_before_down; [|exact B']. apply (proj1 (Forall_forall _ _) F). by apply (list_elem_of_lookup_2 _ i).
Qed.

Lemma sorted_lookup l i j r r' :
  StronglySorted (λ a b, key_le v (row_key a) (row_key b)) l → l !! i = Some r → l !! j = Some r' → (i < j)%nat → key_le v (row_key r) (row_key r').
Proof.
  intros S. revert i j. induction S as [|a l S IH F]; intros i j; [done|]. destruct j as [|j]; [lia|]. destruct i as [|i]; cbn [lookup list_lookup].
  - intros [= ->] Hj _. apply (proj1 (Forall_forall _ _) F). by apply (list_elem_of_lookup_2 _ j).
  - intros Hi Hj L. apply (IH i j); [done|done|lia].
Qed.

Lemma list_dictionary_ok :
  StronglySorted (λ a b, key_le v (row_key a) (row_key b)) rows → Forall (λ r, key_ok v (row_key r)) rows → Forall rq_valid rows →
  dictionary_ok rows row_key list_set_range v.
Proof.
  intros S Fk Fv. split.
  - intros i j r r' Hi Hj L. destruct (decide (i = j)) as [->|]; [simplify_eq; apply key_le_refl|].
    apply (sorted_lookup rows i j); [done..|lia].
  - intros i r Hr. exact (Forall_lookup_1 _ _ _ _ Fk Hr).
  - intros i r Hr. exact (Forall_lookup_1 _ _ _ _ Fv Hr).
  - intros key pk _. apply length_filter.
  - intros key pk i r _. by apply count_prefix.
Qed.
End ListDictionary.

(** ** Witness: a secondary index scanned through the byte buffer *)

Module CursorExample.
Import RangeExample BufferExample.

(** The values of a stored key, as elements *)
Definition to_elem (e : list Z * bval) : option elem :=
  match decide (elem_dom DatesOnly e = true) with left D => Some (e ↾ D) | right _ => None end.
Definition stored_key (r : list Z * bobj) : list elem := match Key.key r.1 with Some o => omap to_elem o | None => [] end.

Definition index_row (a pk : Z) : row := mkRow [([], BInt a)] (Some [([], BInt pk)]) [].
Definition index_rows : list (list Z * bobj) :=
  [stored (index_row 1 10); stored (index_row 1 11); stored (index_row 5 12); stored (index_row 6 10); stored (index_row 9 11); stored (index_row 12 10)].

(** a < 5 or a > 9 *)
Definition scan_bounds : FieldRangeVector elem := mkVector [outside] [([97], 1)] 1 true.

#[local] Instance example_queue : RowQueue RowBuffer (list Z * bobj) :=
  buffer_queue zeroes (λ n Hn, eq_trans (f_equal Z.of_nat (length_replicate (Z.to_nat n) 0)) (Z2Nat.id n Hn)).

Lemma scan_bounds_ok : vector_ok scan_bounds.
Proof.
  intros f L. cbn in L. destruct f as [|f]; [|lia]. split; [|done].
  apply (bool_decide_eq_true_1 (@separated elem (field_dir scan_bounds 0) _)). by vm_compute.
Qed.

Lemma index_dictionary : dictionary_ok index_rows stored_key (list_set_range index_rows stored_key scan_bounds) scan_bounds.
Proof.
  apply list_dictionary_ok.
  - assert (bool_decide (Forall (λ p, key_le scan_bounds (stored_key p.1) (stored_key p.2))
      (combine index_rows (tail index_rows))) = true) as D by (by vm_compute).
    apply bool_decide_eq_true in D. apply Sorted_StronglySorted; [intros a b c; apply key_le_trans|].
    exact (sorted_neighbours (λ a b, key_le scan_bounds (stored_key a) (stored_key b)) index_rows D).
  - unfold key_ok. apply (bool_decide_eq_true_1 _). by vm_compute.
  - unfold index_rows. repeat (constructor; [eexists; split; [|reflexivity]; reflexivity|]). constructor.
Qed.

Lemma cursor_scan_witness :
  ∃ l, Cursor.scan_all index_rows stored_key (list_set_range index_rows stored_key scan_bounds) false true scan_bounds 0 10 10 = Ok l ∧
    l `sublist_of` index_rows.
Proof.
  destruct (cursor_scan index_rows stored_key (list_set_range index_rows stored_key scan_bounds) false true scan_bounds 0
    index_dictionary scan_bounds_ok eq_refl (or_introl eq_refl) (Z.le_refl 0) eq_refl 10 10) as (l & E & _ & Sub); [cbn; lia..|].
  exists l. exact (conj E Sub).
Defined.
End CursorExample.

(** ** An index on the primary key

    Its keys have no primary key to append, so skipping past a whole key finds the key itself again. *)

Module PKExample.
Import BufferExample.

#[local] Instance plain_element : FieldElement (list Z * bval) := {|
  field_cmp := λ a b, Element.woCompare a b false;
  woCompareNamed a b := Element.woCompare a b true;
  minKey := ([], BMinKey);
  maxKey := ([], BMaxKey)
|}.
#[local] Instance pk_queue : RowQueue RowBuffer (list Z * bobj) :=
  buffer_queue zeroes (λ n Hn, eq_trans (f_equal Z.of_nat (length_replicate (Z.to_nat n) 0)) (Z2Nat.id n Hn)).

Definition pk_key (r : list Z * bobj) : list (list Z * bval) := default [] (Key.key r.1).
Definition pk_row (n : Z) : list Z * bobj := stored (mkRow [([], BInt n)] None [([95; 105; 100], BInt n)]).

(** The documents with _id 4, 6 and 7 *)
Definition pk_rows : list (list Z * bobj) := [pk_row 4; pk_row 6; pk_row 7].

(** The first row at or after a key *)
Definition pk_set_range (key : list (list Z * bval)) (_ : option pk_bound) : nat :=
  length (filter (λ r, Obj.woCompare (pk_key r) key < 0) pk_rows).

(** _id < 5 or _id > 7, what is left of all values after the values from 5 to 7 were scanned *)
Definition num (n : Z) : list Z * bval := ([], BInt n).
Definition pk_bounds : FieldRangeVector (list Z * bval) :=
  mkVector [mkRange [mkInterval (mkBound minKey true) (mkBound (num 5) false);
                     mkInterval (mkBound (num 7) false) (mkBound maxKey true)] [] true None] [([95; 105; 100], 1)] 1 true.

#[local] Abbreviation pk_scan := (Cursor.scan pk_rows pk_key pk_set_range true false pk_bounds 0).
#[local] Abbreviation pk_again := (Cursor.again pk_rows pk_key pk_set_range true false pk_bounds).
#[local] Abbreviation pk_make := (Cursor.make pk_rows pk_key pk_set_range true false pk_bounds 0).
#[local] Abbreviation pk_skip := (Cursor.skipToNextKey pk_rows pk_key pk_set_range true false pk_bounds 0).

Definition get_cursor (m : result cursor_error (cursor (list Z * bval) RowBuffer (list Z * bobj))) : cursor (list Z * bval) RowBuffer (list Z * bobj) :=
  match m with Ok c => c | Err _ => Cursor.start pk_bounds end.

(** The cursor at _id 4, then at _id 6, and the iterator after it *)
Definition c4 := get_cursor (pk_make 0).
Definition c6 := get_cursor (Cursor._advance pk_rows false c4).
Definition it6 := default (Complete, _boundsIterator c6) (Iterator.advance pk_bounds 0 (_boundsIterator c6) [num 6]).
(** At _id 7, where the search for it leads; and after skipping it *)
Definition c7 := get_cursor (Cursor.findKey pk_rows pk_set_range true false pk_bounds [num 7] (Cursor.set_iter it6.2 c6)).

Lemma c7_at : _ok c7 = true ∧ _curr c7 = Some (pk_row 7).
Proof. vm_compute. repeat split. Qed.

Lemma c7_excluded :
  Cursor.find_excluded 0 0 (pk_key (pk_row 7)) (it_cmp (_boundsIterator c7)) (it_inc (_boundsIterator c7)) = Some 0%nat.
Proof. vm_compute. reflexivity. Qed.

Lemma c7_skip : Cursor.skipPrefix pk_rows pk_set_range true false pk_bounds (pk_key (pk_row 7)) 1 c7 = Ok c7.
Proof. vm_compute. reflexivity. Qed.

Lemma again_stuck fuel : pk_again fuel 0 c7 = Err OutOfFuel.
Proof.
  induction fuel as [|fuel IH]; [reflexivity|]. cbn [Cursor.again].
  rewrite (proj1 c7_at), (proj2 c7_at), c7_excluded, c7_skip. exact IH.
Qed.

Lemma c6_iter : Iterator.advance pk_bounds 0 (_boundsIterator c6) [num 6] = Some it6 ∧ it6.1 = Skip 0 ∧ it_after it6.2 = false.
Proof. vm_compute. repeat split. Qed.

Lemma c6_target : Cursor.build_target 0 0 [num 6] (it_cmp it6.2) = Some [num 7].
Proof. vm_compute. reflexivity. Qed.

Lemma c6_find : Cursor.findKey pk_rows pk_set_range true false pk_bounds [num 7] (Cursor.set_iter it6.2 c6) = Ok c7.
Proof. vm_compute. reflexivity. Qed.

Lemma c6_inclusive : forallb (λ b, b) (take (length [num 6]) (it_inc it6.2)) = false.
Proof. vm_compute. reflexivity. Qed.

Lemma skip_stuck fuel : pk_skip fuel [num 6] c6 = Err OutOfFuel.
Proof.
  unfold Cursor.skipToNextKey. destruct c6_iter as (-> & E1 & E2). cbn [or_fail result_bind]. rewrite E1, E2, c6_target.
  cbn [or_fail result_bind]. rewrite c6_find. cbn [result_bind]. rewrite c6_inclusive, again_stuck. reflexivity.
Qed.

Lemma c4_at : _ok c4 = true ∧ _curr c4 = Some (pk_row 4).
Proof. vm_compute. repeat split. Qed.

Lemma c4_made fuel : pk_make fuel = Ok c4.
Proof. vm_compute. reflexivity. Qed.

Lemma c6_at : Cursor._advance pk_rows false c4 = Ok c6 ∧ _ok c6 = true ∧ _curr c6 = Some (pk_row 6) ∧ pk_key (pk_row 6) = [num 6].
Proof. vm_compute. repeat split. Qed.

(** C29: a scan of an index on the primary key does not end when it skips to an interval with an
    exclusive lower bound and a document has that bound as its key: with the bounds _id < 5 or
    _id > 7 and the documents 4, 6 and 7 it finds 7, skips past it, finds 7 again, and so on. *)
Theorem pk_scan_stuck n fuel : Cursor.scan_all pk_rows pk_key pk_set_range true false pk_bounds 0 n fuel = Err OutOfFuel.
Proof.
  unfold Cursor.scan_all. rewrite c4_made. cbn [result_bind]. destruct n as [|n]; [reflexivity|]. cbn [Cursor.scan].
  rewrite (proj1 c4_at), (proj2 c4_at). unfold Cursor.advance. rewrite (proj1 c4_at). destruct c6_at as (-> & E1 & E2 & E3). cbn [result_bind].
  unfold Cursor.checkCurrentAgainstBounds, Cursor.skipOutOfRangeKeysAndCheckEnd. rewrite E1, E2, E3, skip_stuck. reflexivity.
Qed.
End PKExample.
