(* ===== verification/Prelock.v ===== *)
(** * Locks taken before a scan

    Models [_prelockBounds], [_prelockCompoundBounds] and [_prelockRange] of [IndexCursor]
    (db/indexcursor.cpp): the ranges of keys that a cursor locks before it reads with
    [DB_PRELOCKED].  A locked range is a pair of keys in the order of the scan; the dictionary gets
    them with the lesser one first.

    [BSONObjBuilder] is modelled as far as the code depends on it: once [done] has been called, the
    object is finished, and later calls return the same object whatever was appended since. *)

From S2P Require Import Prelude StdContainers DocOrder Bson BsonOrder FieldElement FieldRange FieldRangeSet FieldRangeVector RangeIterator IndexBounds.
#[local] Open Scope Z_scope.

Record BSONObjBuilder (K : Type) := mkBuilder { bb_fields : list K; _doneCalled : option (list K) }.
Arguments mkBuilder {_}. Arguments bb_fields {_}. Arguments _doneCalled {_}.

Module Builder.
Section builder.
Context {K : Type}.
Implicit Types b : BSONObjBuilder K.

Definition make : BSONObjBuilder K := mkBuilder [] None.

(** [appendAs( e, "" )] *)
Definition appendAs (e : K) b : BSONObjBuilder K := mkBuilder (bb_fields b ++ [e]) (_doneCalled b).

(** [done()], with [_done()] *)
Definition done b : list K * BSONObjBuilder K :=
  match _doneCalled b with
  | Some o => (o, b)
  | None => (bb_fields b, mkBuilder (bb_fields b) (Some (bb_fields b)))
  end.

End builder.
End Builder.

Module Prelocks.
Section prelocks.
Context `{FieldElement K} (v : FieldRangeVector K).

(** [_prelockRange]: the left and the right end of the locked range. *)
Definition _prelockRange (startKey endKey : list K) : list K * list K :=
  if 0 <? _direction v then (startKey, endKey) else (endKey, startKey).

Fixpoint _prelockCompoundBounds (ranges : list (FieldRange K)) (combo : list (FieldInterval K)) : list (list K * list K) :=
  match ranges with
  | [] =>
      let startKey := foldl (λ b i, Builder.appendAs (_bound (_lower i)) b) Builder.make combo in
      let endKey := foldl (λ b i, Builder.appendAs (_bound (_upper i)) b) Builder.make combo in
      [_prelockRange (Builder.done startKey).1 (Builder.done endKey).1]
  | r :: ranges' => concat (map (λ interval, _prelockCompoundBounds ranges' (combo ++ [interval])) (_intervals r))
  end.

(** The loop for one field, with its two builders *)
Fixpoint prelock_intervals (intervals : list (FieldInterval K)) (startKey endKey : BSONObjBuilder K) : list (list K * list K) :=
  match intervals with
  | [] => []
  | i :: intervals' =>
      let '(s, startKey) := Builder.done (Builder.appendAs (_bound (_lower i)) startKey) in
      let '(e, endKey) := Builder.done (Builder.appendAs (_bound (_upper i)) endKey) in
      _prelockRange s e :: prelock_intervals intervals' startKey endKey
  end.

(** [_prelockBounds]; [None] where [verify( n > 1 )] fails. *)
Definition _prelockBounds : option (list (list K * list K)) :=
  match frv_ranges v with
  | [] => None
  | [r] => Some (prelock_intervals (_intervals r) Builder.make Builder.make)
  | ranges => Some (_prelockCompoundBounds ranges [])
  end.

End prelocks.
End Prelocks.

(** ** What is locked *)

Section Locked.
#[local] Existing Instance field_dir_total.
Context `{FieldElementLaws K} (v : FieldRangeVector K).
Context (Vok : vector_ok v) (Dir : _direction v = 1 ∨ _direction v = -1).

(** A locked range covers a key: in the order of the index, which is that of the scan or its reverse. *)
Definition covers (range : list K * list K) (k : list K) : Prop :=
  if 0 <? _direction v then key_le v range.1 k ∧ key_le v k range.2 else key_le v range.2 k ∧ key_le v k range.1.

Lemma covers_range s e k : covers (Prelocks._prelockRange v s e) k ↔ key_le v s k ∧ key_le v k e.
Proof. unfold covers, Prelocks._prelockRange. by destruct Dir as [->| ->]. Qed.

Lemma build_fields (f : FieldInterval K → K) combo b :
  bb_fields (foldl (λ b i, Builder.appendAs (f i) b) b combo) = bb_fields b ++ map f combo ∧
  _doneCalled (foldl (λ b i, Builder.appendAs (f i) b) b combo) = _doneCalled b.
Proof.
  revert b. induction combo as [|i combo IH]; intros b; cbn; [by rewrite app_nil_r|].
  destruct (IH (Builder.appendAs (f i) b)) as [-> ->]. cbn. by rewrite <- app_assoc.
Qed.

Lemma built (f : FieldInterval K → K) combo :
  (Builder.done (foldl (λ b i, Builder.appendAs (f i) b) Builder.make combo)).1 = map f combo.
Proof. unfold Builder.done. by destruct (build_fields f combo Builder.make) as [-> ->]. Qed.

(** The combinations of intervals *)
Lemma compound_elem ranges combo ivs :
  Forall2 (λ r i, i ∈ _intervals r) ranges ivs →
  Prelocks._prelockRange v (map (λ i, _bound (_lower i)) (combo ++ ivs)) (map (λ i, _bound (_upper i)) (combo ++ ivs)) ∈
    Prelocks._prelockCompoundBounds v ranges combo.
Proof.
  intros F. revert combo. induction F as [|r i ranges ivs E F IH]; intros combo; cbn.
  - rewrite app_nil_r, (built (λ i, _bound (_lower i))), (built (λ i, _bound (_upper i))). by apply list_elem_of_singleton.
  - apply list_elem_of_In, in_concat. exists (Prelocks._prelockCompoundBounds v ranges (combo ++ [i])). split.
    + apply in_map_iff. exists i. split; [done|by apply list_elem_of_In].
    + apply list_elem_of_In. specialize (IH (combo ++ [i])). by rewrite <- app_assoc in IH.
Qed.

(** The interval that holds each field of a matching key *)
Lemma match_intervals k :
  keymatch v k → ∃ ivs, Forall2 (λ r i, i ∈ _intervals r) (frv_ranges v) ivs ∧
    ∀ f i, ivs !! f = Some i → fin v f (at_key k f) i.
Proof.
  intros M. assert (∀ n, (n ≤ length (frv_ranges v))%nat → ∃ ivs, Forall2 (λ r i, i ∈ _intervals r) (take n (frv_ranges v)) ivs ∧
    ∀ f i, ivs !! f = Some i → fin v f (at_key k f) i) as Q.
  { induction n as [|n IH]; intros L; [by exists []|]. destruct (IH ltac:(lia)) as (ivs & F & A).
    destruct (lookup_lt_is_Some_2 (frv_ranges v) n) as [r Hr]; [lia|].
    destruct (proj1 (mem_lookup (H:=field_dir v n) _ _) (M n ltac:(lia))) as (q & i & Hq & Fi).
    unfold Iterator.intervals_of in Hq. rewrite Hr in Hq. cbn in Hq. pose proof (Forall2_length _ _ _ F) as Lf. rewrite length_take in Lf.
    exists (ivs ++ [i]). rewrite (take_S_r _ _ _ Hr). split.
    - apply Forall2_app; [done|]. constructor; [by eapply list_elem_of_lookup_2|done].
    - intros f j [Hf|[E Hj]]%lookup_app_Some; [by apply A|]. destruct (f - length ivs)%nat eqn:Ef; [|done]. injection Hj as <-.
      by replace f with n by lia. }
  destruct (Q (length (frv_ranges v)) ltac:(lia)) as (ivs & F & A). rewrite take_ge in F by done. by exists ivs.
Qed.

Lemma bounds_around ivs k :
  length ivs = length (frv_ranges v) → (∀ f i, ivs !! f = Some i → fin v f (at_key k f) i) →
  key_le v (map (λ i, _bound (_lower i)) ivs) k ∧ key_le v k (map (λ i, _bound (_upper i)) ivs).
Proof.
  intros L A. split; apply key_le_pointwise; intros f F; (destruct (lookup_lt_is_Some_2 ivs f) as [i Hi]; [lia|]); destruct (A f i Hi) as [B1 B2].
  - replace (at_key (map _ ivs) f) with (_bound (_lower i)) by (unfold at_key; by rewrite list_lookup_fmap, Hi). by apply lower_le.
  - replace (at_key (map _ ivs) f) with (_bound (_upper i)) by (unfold at_key; by rewrite list_lookup_fmap, Hi). by apply upper_le.
Qed.

(** C15: before a scan with bounds on several fields every key in the bounds is inside a range that is
    locked. *)
Theorem prelock_compound k :
  (1 < length (frv_ranges v))%nat → keymatch v k →
  ∃ locks, Prelocks._prelockBounds v = Some locks ∧ Exists (λ range, covers range k) locks.
Proof.
  intros L M. unfold Prelocks._prelockBounds. destruct (match_intervals k M) as (ivs & F & A). pose proof (Forall2_length _ _ _ F) as Lf.
  pose proof (compound_elem (frv_ranges v) [] ivs F) as E. destruct (frv_ranges v) as [|r [|r' ranges]] eqn:Er; cbn in L; [lia..|].
  eexists. split; [reflexivity|]. apply Exists_exists. eexists. split; [exact E|]. apply covers_range.
  apply bounds_around; [by rewrite Er|done].
Qed.

Lemma prelock_intervals_done ivs fs s fe e :
  Prelocks.prelock_intervals v ivs (mkBuilder fs (Some s)) (mkBuilder fe (Some e)) =
  replicate (length ivs) (Prelocks._prelockRange v s e).
Proof. revert fs fe. induction ivs as [|i ivs IH]; intros fs fe; [done|]. cbn. f_equal. apply IH. Qed.

(** A value up to the upper bound of an interval is not in a later one. *)
Lemma after_upper f i j x :
  ¬ @kle (cut K) (@cut_cmp K (@field_cmp K (field_dir v f))) (lo j) (up i) → ¬ fbelow v f x (lo j) → fle v f x (_bound (_upper i)) → False.
Proof.
  intros Sep Lj C. unfold fbelow in Lj. rewrite (cut_adjacent (H:=field_dir v f)) in Lj. apply (cut_same (H:=field_dir v f) _ _ false) in C.
  apply Sep. eapply kle_trans; [exact Lj|]. eapply kle_trans; [exact C|]. unfold up, kle. rewrite cut_compare. cbn [cut_at cut_after].
  pose proof (kle_refl (H:=@field_cmp K (field_dir v f)) (_bound (_upper i))) as R. unfold kle in R.
  pose proof (woCompare_opp (H:=@field_cmp K (field_dir v f)) (_bound (_upper i)) (_bound (_upper i))).
  rewrite (proj2 (Z.eqb_eq _ _)) by lia. by destruct (_inclusive (_upper i)).
Qed.

(** C36: before a scan with bounds on one field only the first interval is locked, as often as there are
    intervals: a key in the bounds but in a later interval is in no range that is locked. *)
Theorem prelock_single_field r i ivs k :
  frv_ranges v = [r] → _intervals r = i :: ivs → keymatch v k → ¬ fin v 0 (at_key k 0) i →
  ∃ locks, Prelocks._prelockBounds v = Some locks ∧ length locks = length (_intervals r) ∧
    locks = replicate (length locks) (Prelocks._prelockRange v [_bound (_lower i)] [_bound (_upper i)]) ∧
    ¬ Exists (λ range, covers range k) locks.
Proof.
  intros Er Ei M N. unfold Prelocks._prelockBounds. rewrite Er, Ei. cbn.
  rewrite prelock_intervals_done.
  eexists. split; [reflexivity|]. cbn [length]. rewrite length_replicate. split; [done|]. split; [done|].
  change (_ :: replicate ?n ?x) with (replicate (S n) x). intros (range & E & C)%Exists_exists. apply elem_of_replicate in E as [-> _].
  apply covers_range in C as [_ C].
  destruct (Vok 0%nat) as [Sp _]; [rewrite Er; cbn; lia|].
  destruct (proj1 (mem_lookup (H:=field_dir v 0) _ _) (M 0%nat ltac:(rewrite Er; cbn; lia))) as (q & j & Hq & Fj).
  assert (Iterator.intervals_of v 0 = i :: ivs) as Eivs by (unfold Iterator.intervals_of; rewrite Er; cbn; done).
  destruct q as [|q]; [rewrite Eivs in Hq; injection Hq as ->; done|].
  pose proof (separated_lookup (H:=field_dir v 0) _ 0 (S q) i j Sp ltac:(by rewrite Eivs) Hq ltac:(lia)) as Sep.
  apply key_le_first in C; [|rewrite Er; cbn; lia]. change (at_key [_bound (_upper i)] 0) with (_bound (_upper i)) in C.
  destruct Fj as [Lj _]. by apply (after_upper 0 i j (at_key k 0)).
Qed.

End Locked.

(** ** Witnesses *)

Module PrelockExample.
Import RangeExample IteratorExample.

Definition key1 : list elem := [e1; e5].

Lemma key1_match : keymatch bounds key1.
Proof.
  intros f L. cbn in L. destruct f as [|[|f]]; [..|lia].
  - apply (bool_decide_eq_true_1 (@mem elem (field_dir bounds 0) _ _)). by vm_compute.
  - apply (bool_decide_eq_true_1 (@mem elem (field_dir bounds 1) _ _)). by vm_compute.
Qed.

Lemma prelock_compound_witness :
  ∃ locks, Prelocks._prelockBounds bounds = Some locks ∧ Exists (λ range, covers bounds range key1) locks.
Proof. apply (prelock_compound bounds (or_introl eq_refl) key1); [cbn; lia|exact key1_match]. Defined.

(** a < 5 or a > 9, and the key MaxKey *)
Definition one_field : FieldRangeVector elem := mkVector [outside] [([97], 1)] 1 true.

Lemma one_field_ok : vector_ok one_field.
Proof.
  intros f L. cbn in L. destruct f as [|f]; [|lia]. split; [|done].
  apply (bool_decide_eq_true_1 (@separated elem (field_dir one_field 0) _)). by vm_compute.
Qed.

Lemma prelock_single_field_witness :
  ∃ locks, Prelocks._prelockBounds one_field = Some locks ∧ ¬ Exists (λ range, covers one_field range [maxKey]) locks.
Proof.
  destruct (prelock_single_field one_field one_field_ok (or_introl eq_refl) outside (interval minKey true e5 false) [interval e9 false maxKey true] [maxKey])
    as (locks & E & _ & _ & N); [reflexivity|reflexivity| | |by exists locks].
  - intros f L. cbn in L. destruct f as [|f]; [|lia]. apply (bool_decide_eq_true_1 (@mem elem (field_dir one_field 0) _ _)). by vm_compute.
  - intros [_ B]. revert B. apply (bool_decide_eq_false_1 (@below elem (field_dir one_field 0) maxKey (up (interval minKey true e5 false)))). by vm_compute.
Defined.
End PrelockExample.
