(* ===== verification/QueryOps.v ===== *)
(** * Query operators and simple regular expressions

    Models [BSONElement::getGtLtOp] and [getGtLtOp] of db/jsobj.cpp, which recognise the operators of
    a query by their names, the codes [BSONObj::MatchType], and [simpleRegex] and [simpleRegexEnd] of
    db/queryutil.cpp, which derive a prefix from a regular expression that starts with an anchor.

    Theorems: the character tests of [getGtLtOp] recognise exactly the names in a table; a literal
    that is quoted in a regular expression is the prefix [simpleRegex] finds, whatever operator
    follows it; the strings with a given prefix are those from the prefix up to [simpleRegexEnd]. *)

From S2P Require Import Prelude Bson BsonOrder.
#[local] Open Scope Z_scope.

(** [BSONObj::MatchType] *)
Module MatchType.
Definition Equality : Z := 0.
Definition LT : Z := 0x1.
Definition LTE : Z := 0x3.
Definition GTE : Z := 0x6.
Definition GT : Z := 0x4.
Definition opIN : Z := 0x8.
Definition NE : Z := 0x9.
Definition opSIZE : Z := 0x0A.
Definition opALL : Z := 0x0B.
Definition NIN : Z := 0x0C.
Definition opEXISTS : Z := 0x0D.
Definition opMOD : Z := 0x0E.
Definition opTYPE : Z := 0x0F.
Definition opREGEX : Z := 0x10.
Definition opOPTIONS : Z := 0x11.
Definition opELEM_MATCH : Z := 0x12.
Definition opNEAR : Z := 0x13.
Definition opWITHIN : Z := 0x14.
Definition opMAX_DISTANCE : Z := 0x15.
Definition opGEO_INTERSECTS : Z := 0x16.
End MatchType.
Import MatchType.

Module Query.

(** The characters from the [i]th on are those of [s], and then the name ends. *)
Fixpoint tail_is (fn : list Z) (i : nat) (s : list Z) : bool :=
  match s with
  | [] => nth i fn 0 =? 0
  | c :: s' => (nth i fn 0 =? c) && tail_is fn (S i) s'
  end.

(** [BSONElement::getGtLtOp], on the field name; past its end [fn[i]] is the terminator. *)
Definition getGtLtOp (def : Z) (fn : list Z) : Z :=
  let ch i c := nth i fn 0 =? c in
  let d := 36 in
  if ch 0%nat d && negb (ch 1%nat 0) then
    if ch 2%nat 116 then
      if ch 1%nat 103 then
        if ch 3%nat 0 then GT else if ch 3%nat 101 && ch 4%nat 0 then GTE else def
      else if ch 1%nat 108 then
        if ch 3%nat 0 then LT else if ch 3%nat 101 && ch 4%nat 0 then LTE else def
      else def
    else if ch 1%nat 110 && ch 2%nat 101 then
      if ch 3%nat 0 then NE
      else if ch 3%nat 97 && ch 4%nat 114 then opNEAR
      else def
    else if ch 1%nat 109 then
      if tail_is fn 2 (bytes "od") then opMOD
      else if tail_is fn 2 (bytes "axDistance") then opMAX_DISTANCE
      else def
    else if tail_is fn 1 (bytes "type") then opTYPE
    else if tail_is fn 1 (bytes "in") then opIN
    else if tail_is fn 1 (bytes "nin") then NIN
    else if tail_is fn 1 (bytes "all") then opALL
    else if tail_is fn 1 (bytes "size") then opSIZE
    else if ch 1%nat 101 then
      if tail_is fn 2 (bytes "xists") then opEXISTS
      else if tail_is fn 2 (bytes "lemMatch") then opELEM_MATCH
      else def
    else if tail_is fn 1 (bytes "regex") then opREGEX
    else if tail_is fn 1 (bytes "options") then opOPTIONS
    else if tail_is fn 1 (bytes "within") then opWITHIN
    else if tail_is fn 1 (bytes "geoIntersects") then opGEO_INTERSECTS
    else def
  else def.

(** [firstElement()]: [EOO], with no name, for an empty object. *)
Definition first_name (o : bobj) : list Z := match o with [] => [] | e :: _ => e.1 end.

(** [getGtLtOp( e )]: the operator of an embedded object. *)
Definition getGtLtOp_obj (v : bval) : Z :=
  match v with BObject o => getGtLtOp 0 (first_name o) | _ => Equality end.

End Query.

(** ** The operators by name *)

Definition op_table : list (list Z * Z) := [
  (bytes "$gt", GT); (bytes "$gte", GTE); (bytes "$lt", LT); (bytes "$lte", LTE); (bytes "$ne", NE);
  (bytes "$mod", opMOD); (bytes "$maxDistance", opMAX_DISTANCE); (bytes "$type", opTYPE); (bytes "$in", opIN);
  (bytes "$nin", NIN); (bytes "$all", opALL); (bytes "$size", opSIZE); (bytes "$exists", opEXISTS);
  (bytes "$elemMatch", opELEM_MATCH); (bytes "$regex", opREGEX); (bytes "$options", opOPTIONS);
  (bytes "$within", opWITHIN); (bytes "$geoIntersects", opGEO_INTERSECTS) ].

Lemma tail_is_spec fn i s :
  forallb byte0 fn = true → forallb byte0 s = true → Query.tail_is fn i s = true ↔ drop i fn = s.
Proof.
  intros F. revert i. induction s as [|c s IH]; intros i S; cbn [Query.tail_is].
  - rewrite Z.eqb_eq. split.
    + intros E. destruct (drop i fn) as [|x r] eqn:D; [done|]. exfalso.
      assert (fn !! i = Some x) as L by (rewrite <- (Nat.add_0_r i), <- lookup_drop, D; done).
      rewrite (nth_lookup_Some _ _ _ _ L) in E. subst. apply list_elem_of_lookup_2, list_elem_of_In in L.
      rewrite forallb_forall in F. by specialize (F _ L).
    + intros D. rewrite nth_overflow; [done|]. pose proof (length_drop fn i) as E. rewrite D in E. cbn in E. lia.
  - cbn [forallb] in S. apply andb_true_iff in S as [C S]. rewrite andb_true_iff, (IH _ S), Z.eqb_eq. split.
    + intros [E D]. destruct (fn !! i) as [x|] eqn:L.
      * rewrite (drop_S _ _ _ L), D. rewrite (nth_lookup_Some _ _ _ _ L) in E. by subst.
      * rewrite (nth_lookup fn i 0), L in E. cbn in E. by subst.
    + intros D. assert (fn !! i = Some c) as L by (rewrite <- (Nat.add_0_r i), <- lookup_drop, D; done).
      split; [by apply nth_lookup_Some|]. pose proof (drop_S _ _ _ L) as D'. rewrite D in D'. by inv D'.
Qed.

Lemma near_spec fn :
  (nth 0 fn 0 =? 36) && (nth 1 fn 0 =? 110) && (nth 2 fn 0 =? 101) && (nth 3 fn 0 =? 97) && (nth 4 fn 0 =? 114) = true ↔
  take 5 fn = bytes "$near".
Proof.
  rewrite !andb_true_iff, !Z.eqb_eq. split.
  - intros [[[[E0 E1] E2] E3] E4]. destruct fn as [|a [|b [|c [|d [|e fn]]]]]; try done. cbn in *. by subst.
  - destruct fn as [|a [|b [|c [|d [|e fn]]]]]; try done. vm_compute. intros E. by inv E.
Qed.

Definition op_named (fn : list Z) : option Z :=
  snd <$> List.find (λ p, bool_decide (p.1 = fn)) op_table.

Ltac op_leaf :=
  repeat match goal with |- context [if ?b then _ else _] => destruct b eqn:? end; try reflexivity; exfalso;
  repeat match goal with E : _ && _ = true |- _ => apply andb_true_iff in E as [? ?] end;
  repeat match goal with E : _ = true |- _ => rewrite E in * end; cbn [andb] in *; discriminate.

(** [getGtLtOp] recognises an operator exactly by its name in the table of operators, apart from
    [$near], for which the first five characters are enough. *)
Theorem gtltop_spec def fn :
  forallb byte0 fn = true →
  Query.getGtLtOp def fn =
    match op_named fn with
    | Some op => op
    | None => if bool_decide (take 5 fn = bytes "$near") then opNEAR else def
    end.
Proof.
  intros F. unfold op_named. destruct (List.find _ op_table) as [[n op]|] eqn:L; cbn [fmap option_fmap option_map snd].
  - apply find_some in L as [I E]. apply bool_decide_eq_true in E. cbn in E. subst n.
    repeat (destruct I as [I|I]; [inv I; vm_compute; done|]). done.
  - assert (∀ p, In p op_table → Query.tail_is fn 0 p.1 = false) as N.
    { intros p I. pose proof (find_none _ _ L p I) as E. apply bool_decide_eq_false in E.
      apply not_true_iff_false. rewrite tail_is_spec; [by intros E'; apply E|done|].
      repeat (destruct I as [<-|I]; [done|]). done. }
    case_bool_decide as P.
    + apply near_spec in P. rewrite !andb_true_iff in P. destruct P as [[[[E0 E1] E2] E3] E4].
      unfold Query.getGtLtOp. rewrite E0, E1, E2, E3, E4. apply Z.eqb_eq in E1, E2, E3. rewrite E1, E2, E3. done.
    + rewrite <- near_spec in P. apply not_true_iff_false in P.
      assert (Forall (λ p, Query.tail_is fn 0 p.1 = false) op_table) as N' by (apply Forall_forall; intros p I; by apply N, list_elem_of_In).
      clear N L F. unfold op_table in N'. rewrite !Forall_cons in N'. unfold Query.getGtLtOp.
      norm_bytes. cbn [fst Query.tail_is] in *.
      destruct_and!. op_leaf.
Qed.

(** ** Simple regular expressions *)

Module Regex.

(** How the loop of [simpleRegex] is left: by a [return], or past its end with [r], the characters
    collected in [ss] and the rest of the expression; the rest is [None] where [regex] has moved
    past the terminator. *)
Inductive loop_exit := Return (r : list Z) | Break (r ss : list Z) (rest : option (list Z)).

Definition isspace (c : Z) : bool := ((9 <=? c) && (c <=? 13)) || (c =? 32).

(** [strchr( "^$.[()+{", c )] *)
Definition metacharacters : list Z := bytes "^$.[()+{".

(** After a backslash: letters, the digit 0 and the terminator are not treated. *)
Definition unknown_escape (c : Z) : bool :=
  ((65 <=? c) && (c <=? 90)) || ((97 <=? c) && (c <=? 122)) || ((48 <=? c) && (c <=? 48)).

(** The loop; [quoted] between [\Q] and [\E]. *)
Fixpoint loop (extended quoted : bool) (ss regex : list Z) : loop_exit :=
  match regex with
  | [] => Break [] ss (Some [])
  | c :: regex =>
      if quoted then
        match regex with
        | e :: regex' =>
            if (c =? 92) && (e =? 69) then loop extended false ss regex' else loop extended true (ss ++ [c]) regex
        | [] => loop extended true (ss ++ [c]) regex
        end
      else if (c =? 42) || (c =? 63) then Return (removelast ss)
      else if c =? 124 then Return []
      else if c =? 92 then
        match regex with
        | [] => Break ss ss None
        | c :: regex =>
            if c =? 81 then loop extended true ss regex
            else if unknown_escape c then Break ss ss (Some regex)
            else loop extended false (ss ++ [c]) regex
        end
      else if existsb (Z.eqb c) metacharacters then Break ss ss (Some regex)
      else if extended && (c =? 35) then Break ss ss (Some regex)
      else if extended && isspace c then loop extended false ss regex
      else loop extended false (ss ++ [c]) regex
  end.

(** The flags: [None] where the index cannot be used. *)
Fixpoint flags_extended (multilineOK extended : bool) (flags : list Z) : option bool :=
  match flags with
  | [] => Some extended
  | c :: flags =>
      if c =? 109 then if multilineOK then flags_extended multilineOK extended flags else None
      else if c =? 120 then flags_extended multilineOK true flags
      else None
  end.

(** [simpleRegex( regex, flags, purePrefix )]: the prefix and [purePrefix]; [None] where the code
    reads past the terminator. *)
Definition simpleRegex (regex flags : list Z) : option (list Z * bool) :=
  let start :=
    if (nth 0 regex 0 =? 92) && (nth 1 regex 0 =? 65) then Some (true, drop 2 regex)
    else if nth 0 regex 0 =? 94 then Some (false, drop 1 regex)
    else None in
  match start with
  | None => Some ([], false)
  | Some (multilineOK, regex) =>
      match flags_extended multilineOK false flags with
      | None => Some ([], false)
      | Some extended =>
          match loop extended false [] regex with
          | Return r => Some (r, false)
          | Break r ss rest =>
              match r with
              | [] =>
                  match rest with
                  | Some [] => Some (ss, match ss with [] => false | _ => true end)
                  | Some _ => Some ([], false)
                  | None => None
                  end
              | _ => Some (r, false)
              end
          end
      end
  end.

(** [simpleRegexEnd]: [++regex[ regex.length() - 1 ]] on a [char]; not called with an empty string. *)
Definition simpleRegexEnd (regex : list Z) : list Z :=
  removelast regex ++ [(List.last regex 0 + 1) mod 256].

End Regex.

(** Characters that stand for themselves; the others are quoted with a backslash. *)
Definition plain_char (c : Z) : bool :=
  ((48 <=? c) && (c <=? 57)) || ((65 <=? c) && (c <=? 90)) || ((97 <=? c) && (c <=? 122)) || (128 <=? c).
Definition quote (s : list Z) : list Z := concat (map (λ c, if plain_char c then [c] else [92; c]) s).

Lemma loop_plain ext ss c regex :
  plain_char c = true → Regex.loop ext false ss (c :: regex) = Regex.loop ext false (ss ++ [c]) regex.
Proof.
  unfold plain_char. intros P. cbn [Regex.loop]. unfold Regex.isspace, Regex.metacharacters. norm_bytes.
  cbn [existsb]. rewrite !(proj2 (Z.eqb_neq c _)) by lia. cbn [orb].
  destruct ext; cbn [andb]; [|done]. rewrite (proj2 (andb_false_iff _ _)) by lia. done.
Qed.

Lemma loop_escaped ext ss c regex :
  plain_char c = false → Regex.loop ext false ss (92 :: c :: regex) = Regex.loop ext false (ss ++ [c]) regex.
Proof.
  unfold plain_char. intros P. cbn [Regex.loop Z.eqb orb Pos.eqb]. unfold Regex.unknown_escape.
  rewrite (proj2 (Z.eqb_neq c _)) by lia.
  replace (_ || _) with false by lia. done.
Qed.

Lemma loop_quote ext ss s rest :
  Regex.loop ext false ss (quote s ++ rest) = Regex.loop ext false (ss ++ s) rest.
Proof.
  unfold quote. revert ss. induction s as [|c s IH]; intros ss; cbn [map concat app]; [by rewrite app_nil_r|].
  rewrite <- (assoc_L app). replace (ss ++ c :: s) with ((ss ++ [c]) ++ s) by (by rewrite <- (assoc_L app)).
  destruct (plain_char c) eqn:P; cbn [app].
  - by rewrite loop_plain, IH.
  - by rewrite loop_escaped, IH.
Qed.

(** What may follow the literal *)
Inductive regex_tail (s : list Z) : list Z → list Z * bool → Prop :=
| tail_end : regex_tail s [] (s, match s with [] => false | _ => true end)
| tail_optional c rest : c = 42 ∨ c = 63 → regex_tail s (c :: rest) (removelast s, false)
| tail_alternative rest : regex_tail s (124 :: rest) ([], false)
| tail_meta c rest : c ∈ Regex.metacharacters → regex_tail s (c :: rest) (s, false).

(** A quoted literal after the anchor is the prefix that [simpleRegex] finds: the whole of it at the
    end of the expression, which then is a pure prefix, and before a metacharacter, all but its last
    character before a quantifier that makes it optional, and nothing before an alternative. *)
Theorem regex_literal s rest flags ext r :
  Regex.flags_extended false false flags = Some ext → regex_tail s rest r →
  Regex.simpleRegex (94 :: quote s ++ rest) flags = Some r.
Proof.
  intros F T. unfold Regex.simpleRegex. cbn [nth Z.eqb Pos.eqb andb].
  change (drop 1 (94 :: quote s ++ rest)) with (quote s ++ rest). rewrite F, loop_quote. cbn [app].
  destruct T as [|c rest Hc|rest|c rest Hc].
  - by destruct s.
  - destruct Hc as [-> | ->]; done.
  - done.
  - assert (Regex.loop ext false s (c :: rest) = Regex.Break s s (Some rest)) as ->.
    { unfold Regex.metacharacters in Hc. norm_bytes.
      repeat (rewrite elem_of_cons in Hc; destruct Hc as [->|Hc]; [done|]). by apply elem_of_nil in Hc. }
    by destruct s, rest.
Qed.

Lemma compare_strings_cons c d l r :
  Element.compare_strings (c :: l) (d :: r) = if c =? d then Element.compare_strings l r else if c <? d then -1 else 1.
Proof.
  unfold Element.compare_strings. cbn [app memcmp length]. destruct (c =? d); [|by destruct (c <? d)].
  destruct (memcmp _ _ =? 0); lia.
Qed.

Lemma compare_strings_above c l : 0 < c → Element.compare_strings (c :: l) [] = 1.
Proof.
  intros H. unfold Element.compare_strings. cbn [app memcmp]. rewrite (proj2 (Z.eqb_neq c 0)), (proj2 (Z.ltb_ge c 0)) by lia. done.
Qed.

Lemma compare_strings_below l : forallb is_byte l = true → Element.compare_strings [] l ≤ 0.
Proof.
  unfold Element.compare_strings, is_byte. destruct l as [|b l]; [done|]. cbn [forallb app memcmp length]. intros H.
  apply andb_true_iff in H as [H _]. destruct (0 =? b) eqn:E; [|crush_cmp].
  replace (memcmp [] (l ++ [0])) with 0 by by destruct l. cbn. lia.
Qed.

Lemma compare_strings_nonneg l : forallb is_byte l = true → 0 ≤ Element.compare_strings l [].
Proof.
  unfold Element.compare_strings, is_byte. destruct l as [|b l]; [done|]. cbn [forallb app memcmp length]. intros H.
  apply andb_true_iff in H as [H _]. destruct (b =? 0) eqn:E; [|crush_cmp].
  replace (memcmp (l ++ [0]) []) with 0 by by destruct l. cbn. lia.
Qed.

Lemma prefix_range r t :
  r ≠ [] → forallb byte0 r = true → List.last r 0 ≠ 255 → forallb is_byte t = true →
  r `prefix_of` t ↔
  Element.compare_strings r t ≤ 0 ∧ Element.compare_strings t (Regex.simpleRegexEnd r) < 0.
Proof.
  unfold Regex.simpleRegexEnd. revert t. induction r as [|c r IH]; [done|]. intros t _ B L T.
  cbn [forallb] in B. apply andb_true_iff in B as [B Br]. unfold byte0, is_byte in B.
  destruct t as [|x t].
  { split; [by intros [k E]|]. intros [H _]. rewrite compare_strings_above in H by lia. lia. }
  cbn [forallb] in T. apply andb_true_iff in T as [Bx T]. rewrite compare_strings_cons.
  destruct r as [|c' r].
  - cbn [List.last removelast app] in *. rewrite Z.mod_small by lia. rewrite compare_strings_cons. split.
    + intros [k [= -> ->]]. rewrite Z.eqb_refl. split; [by apply compare_strings_below|]. crush_cmp.
    + intros [H1 H2]. assert (x = c) as ->.
      { pose proof (compare_strings_nonneg t T).
        destruct (Z.eqb_spec c x), (Z.ltb_spec c x), (Z.eqb_spec x (c + 1)), (Z.ltb_spec x (c + 1)); lia. }
      by exists t.
  - assert (c :: c' :: r `prefix_of` x :: t ↔ c = x ∧ c' :: r `prefix_of` t) as ->.
    { split; [|intros [-> P]; by apply prefix_cons]. intros P. split; [by eapply prefix_cons_inv_1|by eapply prefix_cons_inv_2]. }
    change (List.last (c :: c' :: r) 0) with (List.last (c' :: r) 0) in *.
    change (removelast (c :: c' :: r)) with (c :: removelast (c' :: r)). cbn [app]. rewrite compare_strings_cons.
    specialize (IH t ltac:(done) Br L T). rewrite IH. split.
    + intros [-> H]. by rewrite !Z.eqb_refl.
    + intros [H1 H2]. assert (c = x) as ->.
      { destruct (Z.eqb_spec c x), (Z.ltb_spec c x), (Z.eqb_spec x c), (Z.ltb_spec x c); lia. }
      rewrite !Z.eqb_refl in *. done.
Qed.

(** The strings that start with a prefix are exactly those from the prefix up to, and without,
    [simpleRegexEnd], as long as the last byte of the prefix is not 255. *)
Theorem regex_prefix_range r t :
  r ≠ [] → forallb byte0 r = true → List.last r 0 ≠ 255 → forallb is_byte t = true →
  r `prefix_of` t ↔
  Element.compare_strings r t ≤ 0 ∧ Element.compare_strings t (Regex.simpleRegexEnd r) < 0.
Proof. apply prefix_range. Qed.

Module RegexExample.

(** [/^a\-b.*/] *)
Lemma regex_literal_witness : Regex.simpleRegex (bytes "^a\-b.*") [] = Some (bytes "a-b", false).
Proof.
  apply (regex_literal (bytes "a-b") (bytes ".*") [] false); [done|]. norm_bytes. apply tail_meta. vm_compute. by right; right; left.
Defined.

Lemma regex_prefix_range_witness :
  Element.compare_strings (bytes "ab") (bytes "abc") ≤ 0 ∧ Element.compare_strings (bytes "abc") (bytes "ac") < 0.
Proof. apply (regex_prefix_range (bytes "ab") (bytes "abc")); [done..|]. by exists (bytes "c"). Defined.

Lemma gtltop_spec_witness : Query.getGtLtOp 0 (bytes "$elemMatch") = opELEM_MATCH.
Proof. exact (gtltop_spec 0 (bytes "$elemMatch") eq_refl). Defined.

End RegexExample.
