(* ===== verification/Matcher.v ===== *)
(** * The matcher of query documents

    Models [RegexMatcher], [ElementMatcher] and [Matcher] of db/matcher.h and db/matcher.cpp: the parse
    of a query into matchers and the match of a document; [getFieldsDotted] of db/jsobj.cpp.  The
    matcher for index keys is in CoveredMatcher.

    The regular expression engine and the evaluation of [$where] functions are parameters.  [$within],
    whose shapes are computed with floating point geometry (db/geo/shapes.h), is reported as an error of
    its own, and [MatchDetails], which only records the array position of a match, is left out.
    An absent element ([eoo()]) is [None]. *)

From S2P Require Import Prelude StdContainers Double Bson BsonOrder BsonObj QueryOps.
Import MatchType.
#[local] Open Scope Z_scope.

Abbreviation elem := (list Z * bval)%type.

(** [uassert] codes; [Undefined]: a failed [verify] or undefined behaviour; [Geometry]: [$within]. *)
Inductive match_error := UAssert (code : Z) | Undefined | Geometry.

(** [flags2options]; [utf8] is always set. *)
Record RE_Options := mkOptions { caseless : bool; multiline : bool; re_extended : bool; dotall : bool }.

Definition flags2options (flags : list Z) : RE_Options :=
  foldl (λ o c,
    if c =? 105 then mkOptions true (multiline o) (re_extended o) (dotall o)
    else if c =? 109 then mkOptions (caseless o) true (re_extended o) (dotall o)
    else if c =? 120 then mkOptions (caseless o) (multiline o) true (dotall o)
    else if c =? 115 then mkOptions (caseless o) (multiline o) (re_extended o) true
    else o) (mkOptions false false false false) flags.

(** [_re] is determined by [_regex] and [_flags]. *)
Record RegexMatcher := mkRegex {
  rm_fieldName : list Z; _regex : list Z; _flags : list Z; _prefix : list Z; rm_isNot : bool
}.
Definition MaxPatternSize : Z := 32764.

(** [_myset] and [_myregex] are empty where the code has no set or vector. *)
Record ElementMatcher (M : Type) := mkElement {
  _toMatch : elem; _compareOp : Z; _isNot : bool;
  _myset : list elem; _myregex : list RegexMatcher;
  _mod : Z; _modm : Z; _type : Z;
  _subMatcher : option M; _subMatcherOnPrimitives : bool; _allMatchers : list M
}.
Arguments mkElement {_}. Arguments _toMatch {_}. Arguments _compareOp {_}. Arguments _isNot {_}. Arguments _myset {_}.
Arguments _myregex {_}. Arguments _mod {_}. Arguments _modm {_}. Arguments _type {_}. Arguments _subMatcher {_}.
Arguments _subMatcherOnPrimitives {_}. Arguments _allMatchers {_}.

#[local] Unset Elimination Schemes.
Inductive Matcher := mkMatcher {
  _constrainIndexKey : bobj;
  _basics : list (ElementMatcher Matcher);
  _haveSize : bool; _all : bool; _hasArray : bool; _haveNeg : bool;
  _regexs : list RegexMatcher;
  _where : option bval;
  _andMatchers : list Matcher; _orMatchers : list Matcher; _norMatchers : list Matcher
}.
#[local] Set Elimination Schemes.

(** [std::set<BSONElement, element_lt>] *)
Definition set_count (e : elem) (s : list elem) : bool :=
  match sl_find id Element.lt_op e s with Some _ => true | None => false end.
Definition staticNull : elem := ([], BNull).

(** [embeddedObject()], with [isABSONObj()] *)
Definition embedded (v : bval) : option bobj := match v with BObject o => Some o | BArray o => Some o | _ => None end.
Definition isABSONObj (v : bval) : bool := match embedded v with Some _ => true | None => false end.

Module Parse.

Definition new : Matcher := mkMatcher [] [] false false false false [] None [] [] [].

Definition add_basic em m : Matcher :=
  mkMatcher (_constrainIndexKey m) (_basics m ++ [em]) (_haveSize m) (_all m) (_hasArray m) (_haveNeg m)
    (_regexs m) (_where m) (_andMatchers m) (_orMatchers m) (_norMatchers m).
Definition set_flags (haveSize all hasArray haveNeg : bool) m : Matcher :=
  mkMatcher (_constrainIndexKey m) (_basics m) (_haveSize m || haveSize) (_all m || all) (_hasArray m || hasArray)
    (_haveNeg m || haveNeg) (_regexs m) (_where m) (_andMatchers m) (_orMatchers m) (_norMatchers m).
Definition add_regex rm m : Matcher :=
  mkMatcher (_constrainIndexKey m) (_basics m) (_haveSize m) (_all m) (_hasArray m) (_haveNeg m)
    (_regexs m ++ [rm]) (_where m) (_andMatchers m) (_orMatchers m) (_norMatchers m).
Definition set_where w m : Matcher :=
  mkMatcher (_constrainIndexKey m) (_basics m) (_haveSize m) (_all m) (_hasArray m) (_haveNeg m)
    (_regexs m) (Some w) (_andMatchers m) (_orMatchers m) (_norMatchers m).
Definition add_clauses (a o n : list Matcher) m : Matcher :=
  mkMatcher (_constrainIndexKey m) (_basics m) (_haveSize m) (_all m) (_hasArray m) (_haveNeg m)
    (_regexs m) (_where m) (_andMatchers m ++ a) (_orMatchers m ++ o) (_norMatchers m ++ n).

Definition uassert (code : Z) (b : bool) : result match_error () := if b then Ok () else Err (UAssert code).
Definition defined {A} (o : option A) : result match_error A := match o with Some a => Ok a | None => Err Undefined end.

(** An [ElementMatcher] without the fields of particular operators *)
Definition simple (e : elem) (op : Z) (isNot : bool) : ElementMatcher Matcher :=
  mkElement e op isNot [] [] 0 0 0 None false [].

(** [o["0"].numberInt()]: 0 for an absent field. *)
Definition int_field (name : list Z) (o : bobj) : option Z :=
  match Fields.getField name o with Some e => Element.numberInt e.2 | None => Some 0 end.

Definition addBasic (e : elem) (c : Z) (isNot : bool) m : Matcher :=
  match e.2 with BMinKey | BMaxKey => m | _ => add_basic (simple e c isNot) m end.

(** [addRegex]: the prefix is computed after the matcher has been copied into [_regexs], and is lost. *)
Definition addRegex (fieldName regex flags : list Z) (isNot : bool) m : result match_error Matcher :=
  _ <-? uassert 16432 (Z.of_nat (length regex) <=? MaxPatternSize) ;;
  let m := add_regex (mkRegex fieldName regex flags [] isNot) m in
  if isNot then Ok m else _ <-? defined (Regex.simpleRegex regex flags) ;; Ok m.

(** A regular expression among the values of [$in], [$nin] or [$all] *)
Definition in_regex (regex flags : list Z) : result match_error RegexMatcher :=
  _ <-? uassert 16431 (Z.of_nat (length regex) <=? MaxPatternSize) ;;
  p <-? defined (Regex.simpleRegex regex flags) ;;
  Ok (mkRegex [] regex flags (if p.2 then p.1 else []) false).

Definition is_elemMatch (v : bval) : bool :=
  match v with BObject o => Query.getGtLtOp 0 (Query.first_name o) =? opELEM_MATCH | _ => false end.

Section parse.
(** [parseMatchExpressionElement] on the elements of embedded documents *)
Context (pe : list Z → bval → Matcher → result match_error Matcher).

(** [Matcher( jsobj )] *)
Definition parse_fields : bobj → Matcher → result match_error Matcher :=
  fix go (o : bobj) (m : Matcher) :=
    match o with
    | [] => Ok m
    | (n, v) :: o' => m <-? pe n v m ;; go o' m
    end.

(** [Matcher( e.embeddedObject() )] *)
Definition parse_val (v : bval) : result match_error Matcher :=
  match v with BObject o => parse_fields o new | BArray o => parse_fields o new | _ => Err (UAssert 10065) end.

(** The matcher of [$elemMatch] *)
Definition parse_elemMatch (v : bval) : result match_error (Matcher * bool) :=
  match v with
  | BObject x =>
      if (Query.getGtLtOp 0 (Query.first_name x) =? Equality) && negb (bool_decide (Query.first_name x = bytes "$not"))
      then m <-? parse_fields x new ;; Ok (m, false)
      else m <-? pe [] v new ;; Ok (m, true)
  | _ => Err (UAssert 12517)
  end.

(** The loop over the values of [$in], [$nin] and [$all]: the set, the regular expressions and the
    matchers of [$elemMatch]. *)
Definition parse_in (op : Z) : bobj → list elem * list RegexMatcher * list Matcher → result match_error (list elem * list RegexMatcher * list Matcher) :=
  fix go (o : bobj) acc :=
    match o with
    | [] => Ok acc
    | (n, v) :: o' =>
        let '(s, rs, ms) := acc in
        acc <-?
          (if (op =? opALL) && is_elemMatch v then
             match v with
             | BObject ((_, w) :: _) => m <-? parse_val w ;; Ok (s, rs, ms ++ [m])
             | _ => Err Undefined
             end
           else
             match v with
             | BRegEx regex flags => rm <-? in_regex regex flags ;; Ok (s, rs ++ [rm], ms)
             | _ =>
                 _ <-? uassert 15882 (negb (is_elemMatch v)) ;;
                 Ok (sl_insert id Element.lt_op (n, v) s, rs, ms)
             end) ;;
        go o' acc
    end.

(** [ElementMatcher( e, op, array, isNot )] *)
Definition in_matcher (e : elem) (op : Z) (array : bobj) (isNot : bool) : result match_error (ElementMatcher Matcher) :=
  x <-? parse_in op array ([], [], []) ;;
  let '(s, rs, ms) := x in
  _ <-? uassert 13020 (match ms, s, rs with _ :: _, _ :: _, _ => false | _ :: _, _, _ :: _ => false | _, _, _ => true end) ;;
  Ok (mkElement e op isNot s rs 0 0 0 None false ms).

(** [ElementMatcher( e, op, isNot )] for [$mod], [$type] and [$elemMatch] *)
Definition mod_matcher (e : elem) (isNot : bool) : result match_error (ElementMatcher Matcher) :=
  o <-? defined (embedded e.2) ;;
  a <-? defined (int_field (bytes "0") o) ;;
  b <-? defined (int_field (bytes "1") o) ;;
  _ <-? uassert 10073 (negb (a =? 0)) ;;
  Ok (mkElement e opMOD isNot [] [] a b 0 None false []).

Definition type_matcher (e : elem) (isNot : bool) : result match_error (ElementMatcher Matcher) :=
  t <-? defined (Element.numberInt e.2) ;; Ok (mkElement e opTYPE isNot [] [] 0 0 t None false []).

(** What [addOp] does: [false] for [$ref], with the operands of [$regex] and [$options] seen so far. *)
Record op_state := mkOp { op_added : bool; op_regex : option (list Z); op_flags : list Z; op_matcher : Matcher }.

Definition str_safe (v : bval) : list Z := match v with BString s => cstr s | _ => [] end.

(** [addOp( e, fe, isNot, regex, flags )], [e] by its name and value *)
Definition addOp (en : list Z) (ev : bval) (fn : list Z) (fv : bval) (isNot : bool) (regex : option (list Z)) (flags : list Z) (m : Matcher)
  : result match_error op_state :=
  let op := Query.getGtLtOp (-1) fn in
  let ret m := Ok (mkOp true regex flags m) in
  if op =? -1 then
    if negb isNot && Query.tail_is fn 1 (bytes "ref") then Ok (mkOp false regex flags m) else Err (UAssert 10068)
  else if (op =? GT) || (op =? GTE) || (op =? LT) || (op =? LTE) then ret (addBasic (en, fv) op isNot m)
  else if op =? NE then ret (addBasic (en, fv) NE isNot (set_flags false false false true m))
  else if (op =? opALL) || (op =? opIN) then
    match fv with
    | BObject o | BArray o =>
        em <-? in_matcher (en, ev) op o isNot ;;
        ret (set_flags false (op =? opALL) (existsb (λ x : elem, match x.2 with BArray _ => true | _ => false end) o) false (add_basic em m))
    | _ => Err (UAssert 13276)
    end
  else if op =? NIN then
    match fv with
    | BObject o | BArray o => em <-? in_matcher (en, ev) op o isNot ;; ret (set_flags false false false true (add_basic em m))
    | _ => Err (UAssert 13277)
    end
  else if op =? opMOD then em <-? mod_matcher (en, fv) isNot ;; ret (add_basic em m)
  else if op =? opTYPE then em <-? type_matcher (en, fv) isNot ;; ret (add_basic em m)
  else if op =? opELEM_MATCH then
    x <-? parse_elemMatch fv ;;
    ret (add_basic (mkElement (en, fv) opELEM_MATCH isNot [] [] 0 0 0 (Some x.1) x.2 []) m)
  else if op =? opSIZE then ret (set_flags true false false false (addBasic (en, fv) opSIZE isNot m))
  else if op =? opEXISTS then ret (addBasic (en, fv) opEXISTS isNot m)
  else if op =? opREGEX then
    if isNot then Err (UAssert 13032)
    else match fv with
         | BRegEx r f => Ok (mkOp true (Some r) f m)
         | _ => Ok (mkOp true (Some (str_safe fv)) flags m)
         end
  else if op =? opOPTIONS then
    if isNot then Err (UAssert 13029) else Ok (mkOp true regex (str_safe fv) m)
  else if op =? opWITHIN then Err Geometry
  else if (op =? opNEAR) || (op =? opGEO_INTERSECTS) || (op =? opMAX_DISTANCE) then ret m
  else Err (UAssert 10069).

(** The loop over the operators in [$not] *)
Definition not_ops (en : list Z) (ev : bval) : bobj → option (list Z) → list Z → Matcher → result match_error op_state :=
  fix go (o : bobj) regex flags m :=
    match o with
    | [] => Ok (mkOp true regex flags m)
    | (fn, fv) :: o' =>
        x <-? addOp en ev fn fv true regex flags m ;; go o' (op_regex x) (op_flags x) (op_matcher x)
    end.

(** The loop over an embedded object; [op_added] is [isOperator]. *)
Definition operators (en : list Z) (ev : bval) : bobj → op_state → result match_error op_state :=
  fix go (o : bobj) st :=
    match o with
    | [] => Ok st
    | (fn, fv) :: o' =>
        if (nth 0 fn 0 =? 36) && negb (nth 1 fn 0 =? 0) then
          if Query.tail_is fn 1 (bytes "not") then
            let m := set_flags false false false true (op_matcher st) in
            match fv with
            | BObject k =>
                _ <-? uassert 13030 (match k with [] => false | _ => true end) ;;
                x <-? not_ops en ev k (op_regex st) (op_flags st) m ;; go o' x
            | BRegEx r f =>
                m <-? addRegex en r f true m ;; go o' (mkOp true (op_regex st) (op_flags st) m)
            | _ => Err (UAssert 13031)
            end
          else
            x <-? addOp en ev fn fv false (op_regex st) (op_flags st) (op_matcher st) ;;
            if op_added x then go o' x else Ok x
        else Ok (mkOp false (op_regex st) (op_flags st) (op_matcher st))
    end.

(** [parseExtractedClause] *)
Definition clauses : bobj → result match_error (list Matcher) :=
  fix go (o : bobj) :=
    match o with
    | [] => Ok []
    | (_, v) :: o' =>
        match v with
        | BObject x => m <-? parse_fields x new ;; l <-? go o' ;; Ok (m :: l)
        | _ => Err (UAssert 13087)
        end
    end.
Definition parseExtractedClause (v : bval) : result match_error (list Matcher) :=
  match v with
  | BArray ((_ :: _) as o) => clauses o
  | _ => Err (UAssert 13086)
  end.

End parse.

(** [parseMatchExpressionElement]; of [parseWhere] what depends on the query. *)
Fixpoint parse_elem (n : list Z) (v : bval) (m : Matcher) {struct v} : result match_error Matcher :=
  if (match v with BUndefined => true | _ => false end) then Err (UAssert 13629)
  else
      let c i := nth i n 0 in
      let clause := c 0%nat =? 36 in
      if clause && (c 1%nat =? 97) && (c 2%nat =? 110) && (c 3%nat =? 100) then
        l <-? parseExtractedClause parse_elem v ;; Ok (add_clauses l [] [] m)
      else if clause && Query.tail_is n 1 (bytes "or") then
        l <-? parseExtractedClause parse_elem v ;; Ok (add_clauses [] l [] m)
      else if clause && Query.tail_is n 1 (bytes "nor") then
        l <-? parseExtractedClause parse_elem v ;; Ok (add_clauses [] [] l m)
      else if clause && Query.tail_is n 1 (bytes "comment") then Ok m
      else if bool_decide (n = bytes "$where") then
        _ <-? uassert 15902 (match v with BString _ | BCodeWScope _ _ | BCode _ => true | _ => false end) ;;
        _ <-? uassert 10066 (match _where m with None => true | Some _ => false end) ;;
        Ok (set_where v m)
      else
        match v with
        | BRegEx r f => addRegex n r f false m
        | BObject o =>
            x <-? operators parse_elem n v o (mkOp false None [] m) ;;
            m <-? (match op_regex x with Some r => addRegex n r (op_flags x) false (op_matcher x) | None => Ok (op_matcher x) end) ;;
            if op_added x then Ok m
            else if bool_decide (n = bytes "$atomic") || bool_decide (n = bytes "$isolated") then Ok m
            else Ok (addBasic (n, v) Equality false m)
        | BArray _ => Ok (addBasic (n, v) Equality false (set_flags false false true false m))
        | _ =>
            if bool_decide (n = bytes "$atomic") || bool_decide (n = bytes "$isolated") then Ok m
            else Ok (addBasic (n, v) Equality false m)
        end.

(** [Matcher( pattern )] *)
Definition make (pattern : bobj) : result match_error Matcher := parse_fields parse_elem pattern new.

End Parse.

(** ** Fields by dotted name *)

(** [isdigit( next[0] )] and the digits up to the end or a dot *)
Definition is_digit (c : Z) : bool := (48 <=? c) && (c <=? 57).
Fixpoint all_digits (name : list Z) : bool :=
  match name with
  | [] => true
  | c :: name' => if is_digit c then all_digits name' else c =? Fields.dot
  end.
Definition allDigits (next : list Z) : bool := match next with c :: _ => is_digit c && all_digits next | [] => false end.

(** [_getFieldsDotted]: the elements in the order of their insertion; each level shortens the name. *)
Fixpoint fields_dotted (fuel : nat) (name : list Z) (o : bobj) : list elem :=
  match Fields.getField name o with
  | Some e => match e.2 with BArray a => a | _ => [e] end
  | None =>
      match Fields.split_dot name, fuel with
      | Some (lname, next), S fuel =>
          match Fields.getField lname o with
          | Some (_, BObject x) => fields_dotted fuel next x
          | Some (_, BArray x) =>
              if allDigits next then fields_dotted fuel next x
              else concat (map (λ e2 : elem, match embedded e2.2 with Some y => fields_dotted fuel next y | None => [] end) x)
          | _ => []
          end
      | _, _ => []
      end
  end.

(** [getFieldsDotted( name, ret )] into a [BSONElementSet], with [expandLastArray] *)
Definition elem_lt_without_field (l r : elem) : bool := Element.woCompare l r false <? 0.
Definition getFieldsDotted (name : list Z) (o : bobj) : list elem :=
  foldl (λ s e, sl_insert id elem_lt_without_field e s) [] (fields_dotted (length name) name o).

(** ** Matching *)

Module Match.
Section match_.
(** [pcrecpp::RE::PartialMatch] and [Where::exec] *)
Context (PartialMatch : list Z → RE_Options → list Z → bool) (where_exec : bval → bobj → option bool).

Definition regexMatches (rm : RegexMatcher) (v : bval) : bool :=
  match v with
  | BString s | BSymbol s =>
      match _prefix rm with
      | [] => PartialMatch (_regex rm) (flags2options (_flags rm)) (cstr s)
      | p => bool_decide (take (length p) (cstr s) = p)
      end
  | BRegEx r f => bool_decide (_regex rm = r) && bool_decide (_flags rm = f)
  | _ => false
  end.

Section element.
Context {M : Type} (em : ElementMatcher M).

Definition negativeCompareOp : bool := (_compareOp em =? NE) || (_compareOp em =? NIN).
Definition inverseOfNegativeCompareOp : Z := if _compareOp em =? NE then Equality else opIN.
Definition is_null (v : bval) : bool := match v with BNull => true | _ => false end.
Definition negativeCompareOpContainsNull : bool :=
  ((_compareOp em =? NE) && negb (is_null (_toMatch em).2)) ||
  ((_compareOp em =? NIN) && negb (set_count staticNull (_myset em))).

(** An absent element compares like an undefined one; its type is [EOO]. *)
Definition value_of (l : option elem) : elem := match l with Some e => e | None => ([], BUndefined) end.
Definition type_of (l : option elem) : Z := match l with Some e => BSONType.of_val e.2 | None => 0 end.

(** [l.numberLong() % bm._mod]: undefined for doubles out of range and for the least long and -1. *)
Definition mod_of (v : bval) : option Z :=
  n ← Element.numberLong v;
  if (n =? - 2 ^ 63) && (_mod em =? -1) then None else Some (Z.rem n (_mod em)).

(** [valuesMatch( l, r, op, bm )], with [r] the [_toMatch] of [bm] *)
Definition valuesMatch (l : option elem) (op : Z) : option bool :=
  let v := value_of l in
  let r := _toMatch em in
  if (op =? NE) || (op =? NIN) || (op =? opELEM_MATCH) then None
  else if op =? Equality then Some (Element.valuesEqual v r)
  else if (op =? opIN) && (set_count v (_myset em) || existsb (λ rm, regexMatches rm v.2) (_myregex em)) then Some true
  else if op =? opSIZE then
    Some (match v.2 with BArray a => dbl_eqb (dbl_of_Z (Z.of_nat (length a))) (Element.numberDouble r.2) | _ => false end)
  else if op =? opMOD then
    if Element.isNumber v.2 then n ← mod_of v.2; Some (n =? _modm em) else Some false
  else if op =? opTYPE then Some (_type em =? type_of l)
  else if negb (Element.canonicalType v.2 =? Element.canonicalType r.2) then Some false
  else
    let c := Element.compareElementValues v.2 r.2 in
    let c := if c <? -1 then -1 else c in
    let c := if 1 <? c then 1 else c in
    Some (negb (Z.land op (Z.shiftl 1 (c + 1)) =? 0)).

Definition retExistsFound : Z := if Element.trueValue (_toMatch em).2 then 1 else -1.

(** The matchers of [_subMatcher] and [_allMatchers] *)
Context (sub : option (bobj → option bool)) (alls : list (bobj → option bool)).
Context (key : bobj).   (** [_constrainIndexKey] *)
Definition indexed : bool := match key with [] => false | _ => true end.

(** The first [true] of a loop *)
Fixpoint any {A} (f : A → option bool) (l : list A) : option bool :=
  match l with
  | [] => Some false
  | a :: l' => b ← f a; if (b : bool) then Some true else any f l'
  end.

(** A member of an array *)
Definition member_matches (op : Z) (z : elem) : option bool :=
  if op =? opELEM_MATCH then
    match sub with
    | Some sm =>
        if _subMatcherOnPrimitives em then sm [([], z.2)]
        else match embedded z.2 with Some o => sm o | None => Some false end
    | None => None
    end
  else valuesMatch (Some z) op.

(** The end of [matchesDotted], for the element the name leads to *)
Definition match_element (op : Z) (e : option elem) : option Z :=
  let is_array := match e with Some (_, BArray _) => true | _ => false end in
  if op =? opEXISTS then Some (match e with None => 0 | Some _ => retExistsFound end)
  else
    b ← (if (negb is_array || indexed || (op =? opSIZE)) && negb (op =? opELEM_MATCH) then valuesMatch e op else Some false);
    if (b : bool) then Some 1
    else
      match e with
      | Some (_, BArray a) =>
          if op =? opSIZE then Some (-1)
          else
            b ← any (member_matches op) a;
            if (b : bool) then Some 1
            else if (op =? Equality) && (Element.woCompare (value_of e) (_toMatch em) false =? 0) then Some 1
            else if op =? opIN then b ← valuesMatch e op; Some (if (b : bool) then 1 else -1)
            else Some (-1)
      | None => Some 0
      | _ => Some (-1)
      end.

(** The loop over an array that the name leads into *)
Definition match_array (rec : bobj → option Z) (name : list Z) (op : Z) : bool → list (option elem) → option Z :=
  fix go (found : bool) (l : list (option elem)) :=
    match l with
    | [] => Some (if found then -1 else 0)
    | z :: l' =>
        let named := bool_decide ((value_of z).1 = name) in
        if named && (op =? opEXISTS) then Some retExistsFound
        else
          b ← (if named && negb (op =? opELEM_MATCH) then valuesMatch z op else Some false);
          if (b : bool) then Some 1
          else
            match z with
            | Some (_, BObject eo) =>
                cmp ← rec eo;
                if 0 <? cmp then Some 1 else go (found || (cmp <? 0)) l'
            | _ => go found l'
            end
    end.

(** [matchesDotted] for operators other than [$all], [$ne] and [$nin].  Each level shortens the name or
    leaves an array; the elements of an array end with the absent one. *)
Fixpoint dotted (fuel : nat) (op : Z) (name : list Z) (obj : bobj) (isArr : bool) : option Z :=
  match fuel with
  | O => None
  | S fuel =>
      let arr := match_array (λ eo, dotted fuel op name eo false) name op false (map Some obj ++ [None]) in
      if indexed then
        e ← Fields.getFieldUsingIndexNames name key obj; match_element op (Some e)
      else
        match Fields.split_dot name with
        | Some (lname, rest) =>
            match Fields.getField lname obj with
            | Some (_, BObject eo) => dotted fuel op rest eo false
            | Some (_, BArray eo) => dotted fuel op rest eo true
            | _ => if isArr then arr else Some 0
            end
        | None => if isArr then arr else match_element op (Fields.getField name obj)
        end
  end.

Definition dotted_fuel (name : list Z) : nat := (2 * length name + 2)%nat.

(** [$all] *)
Definition match_all (name : list Z) (obj : bobj) : option Z :=
  match alls with
  | _ :: _ =>
      match Fields.getFieldDotted name obj with
      | Some (_, BArray a) =>
          let objects := omap (λ f : elem, match f.2 with BObject o => Some o | _ => None end) a in
          b ← any (λ am, found ← any am objects; Some (negb found)) alls;
          Some (if (b : bool) then -1 else 1)
      | _ => Some (-1)
      end
  | [] =>
      match _myset em, _myregex em with
      | [], [] => Some (-1)
      | s, rs =>
          let myValues := getFieldsDotted name obj in
          if forallb (λ e : elem, is_null e.2 || match sl_find id elem_lt_without_field e myValues with Some _ => true | None => false end) s
             && forallb (λ rm, existsb (λ e : elem, regexMatches rm e.2) myValues) rs
          then Some 1 else Some (-1)
      end
  end.

(** [inverseMatch] and [matchesDotted] *)
Definition inverseMatch (name : list Z) (obj : bobj) : option Z :=
  inverseRet ← dotted (dotted_fuel name) inverseOfNegativeCompareOp name obj false;
  Some (if negativeCompareOpContainsNull then if inverseRet <=? 0 then 1 else 0 else - inverseRet).

Definition matchesDotted (name : list Z) (obj : bobj) : option Z :=
  if _compareOp em =? opALL then match_all name obj
  else if negativeCompareOp then inverseMatch name obj
  else dotted (dotted_fuel name) (_compareOp em) name obj false.

(** What [matches] makes of the result for one of [_basics] *)
Definition basic_ok (cmp : Z) : bool :=
  let cmp := if (cmp =? 0) && (_compareOp em =? opEXISTS) then - retExistsFound else cmp in
  let cmp := if _isNot em then - cmp else cmp in
  if cmp <? 0 then false
  else if cmp =? 0 then
    if (match (_toMatch em).2 with BNull | BUndefined => true | _ => false end) ||
       (((_compareOp em =? opIN) || (_compareOp em =? NIN)) && set_count staticNull (_myset em))
    then negb (xorb negativeCompareOp (_isNot em))
    else _isNot em
  else true.

Definition basic_matches (obj : bobj) : option bool :=
  cmp ← matchesDotted (_toMatch em).1 obj; Some (basic_ok cmp).
End element.

(** One of [_regexs] *)
Definition regex_ok (key : bobj) (obj : bobj) (rm : RegexMatcher) : bool :=
  let s :=
    match key with
    | [] => getFieldsDotted (rm_fieldName rm) obj
    | _ =>
        match Fields.getFieldUsingIndexNames (rm_fieldName rm) key obj with
        | Some (_, BArray a) => foldl (λ s e, sl_insert id elem_lt_without_field e s) [] a
        | Some e => [e]
        | None => []
        end
    end in
  negb (xorb (negb (existsb (λ e : elem, regexMatches rm e.2) s)) (rm_isNot rm)).

(** All of a loop that returns at the first [false] *)
Definition every {A} (f : A → option bool) (l : list A) : option bool :=
  b ← any (λ a, b ← f a; Some (negb b)) l; Some (negb b).

Fixpoint matches (m : Matcher) (obj : bobj) {struct m} : option bool :=
  let basic em := basic_matches em
    (match _subMatcher em with Some sm => Some (λ o, matches sm o) | None => None end)
    (map (λ am o, matches am o) (_allMatchers em)) (_constrainIndexKey m) obj in
  b ← every basic (_basics m);
  if negb b then Some false
  else if negb (forallb (regex_ok (_constrainIndexKey m) obj) (_regexs m)) then Some false
  else
    b ← every (λ am, matches am obj) (_andMatchers m);
    if negb b then Some false
    else
      b ← (match _orMatchers m with [] => Some true | l => any (λ om, matches om obj) l end);
      if negb b then Some false
      else
        b ← any (λ nm, matches nm obj) (_norMatchers m);
        if (b : bool) then Some false
        else match _where m with Some w => where_exec w obj | None => Some true end.

End match_.
End Match.

(** ** Negated operators *)

Section Negation.
Context (PartialMatch : list Z → RE_Options → list Z → bool) (where_exec : bval → bobj → option bool).
#[local] Abbreviation matches := (Match.matches PartialMatch where_exec).
#[local] Abbreviation basic_matches := (Match.basic_matches PartialMatch).
Implicit Types (em : ElementMatcher Matcher) (d : bobj).

Definition flip_not {M} (em : ElementMatcher M) : ElementMatcher M :=
  mkElement (_toMatch em) (_compareOp em) (negb (_isNot em)) (_myset em) (_myregex em) (_mod em) (_modm em) (_type em)
    (_subMatcher em) (_subMatcherOnPrimitives em) (_allMatchers em).

Lemma basic_ok_flip {M} (em : ElementMatcher M) cmp : Match.basic_ok (flip_not em) cmp = negb (Match.basic_ok em cmp).
Proof.
  unfold Match.basic_ok, Match.retExistsFound, Match.negativeCompareOp. cbn [_isNot _compareOp _toMatch _myset flip_not].
  set (x := if (cmp =? 0) && _ then _ else cmp). destruct (_isNot em); cbn [negb]; rewrite ?Z.opp_involutive;
    destruct (Z.ltb_spec x 0), (Z.ltb_spec (- x) 0), (Z.eqb_spec x 0), (Z.eqb_spec (- x) 0); try lia; try done;
    destruct (_ || _); cbn; by rewrite ?xorb_true_r, ?xorb_false_r, ?negb_involutive.
Qed.

Lemma basic_matches_flip em sub alls key d :
  basic_matches (flip_not em) sub alls key d = negb <$> basic_matches em sub alls key d.
Proof.
  unfold Match.basic_matches. change (Match.matchesDotted PartialMatch (flip_not em) sub alls key (_toMatch (flip_not em)).1 d)
    with (Match.matchesDotted PartialMatch em sub alls key (_toMatch em).1 d).
  destruct (Match.matchesDotted _ _ _ _ _ _ _) as [cmp|]; cbn; [|done]. by rewrite basic_ok_flip.
Qed.

(** A matcher with one element matcher and nothing else *)
Lemma matches_basic m em d :
  _basics m = [em] → _regexs m = [] → _where m = None → _andMatchers m = [] → _orMatchers m = [] → _norMatchers m = [] →
  matches m d = basic_matches em (match _subMatcher em with Some sm => Some (λ o, matches sm o) | None => None end)
    (map (λ am o, matches am o) (_allMatchers em)) (_constrainIndexKey m) d.
Proof.
  destruct m. cbn. intros -> -> -> -> -> ->. unfold Match.every. cbn.
  by destruct (basic_matches em _ _ _ _) as [[]|].
Qed.

(** [$in], [$nin] and [$all] match the whole expression, not the operand. *)
Definition on_array (op : Z) : bool := (op =? opALL) || (op =? opIN) || (op =? NIN).
Definition retarget {M} (v : bval) (em : ElementMatcher M) : ElementMatcher M :=
  if on_array (_compareOp em) then
    mkElement ((_toMatch em).1, v) (_compareOp em) (_isNot em) (_myset em) (_myregex em) (_mod em) (_modm em) (_type em)
      (_subMatcher em) (_subMatcherOnPrimitives em) (_allMatchers em)
  else em.

(** [m] with more basics and other flags *)
Definition extends (l : list (ElementMatcher Matcher)) (m m' : Matcher) : Prop :=
  _basics m' = _basics m ++ l ∧ _regexs m' = _regexs m ∧ _where m' = _where m ∧ _andMatchers m' = _andMatchers m ∧
  _orMatchers m' = _orMatchers m ∧ _norMatchers m' = _norMatchers m ∧ _constrainIndexKey m' = _constrainIndexKey m.

Lemma extends_basic em a b c e m : extends [em] m (Parse.set_flags a b c e (Parse.add_basic em m)).
Proof. done. Qed.

Lemma extends_addBasic e op isNot m :
  extends (match e.2 with BMinKey | BMaxKey => [] | _ => [Parse.simple e op isNot] end) m (Parse.addBasic e op isNot m).
Proof. unfold Parse.addBasic. destruct e.2; repeat split; cbn; by rewrite ?app_nil_r. Qed.

Lemma extends_addBasic_flags e op isNot a b c c' m :
  extends (match e.2 with BMinKey | BMaxKey => [] | _ => [Parse.simple e op isNot] end) m
    (Parse.addBasic e op isNot (Parse.set_flags a b c c' m)).
Proof. unfold Parse.addBasic. destruct e.2; repeat split; cbn; by rewrite ?app_nil_r. Qed.

Lemma extends_flags_addBasic e op isNot a b c c' m :
  extends (match e.2 with BMinKey | BMaxKey => [] | _ => [Parse.simple e op isNot] end) m
    (Parse.set_flags a b c c' (Parse.addBasic e op isNot m)).
Proof. unfold Parse.addBasic. destruct e.2; repeat split; cbn; by rewrite ?app_nil_r. Qed.

Lemma extends_refl m : extends [] m m.
Proof. unfold extends. by rewrite app_nil_r. Qed.

End Negation.
#[export] Hint Resolve extends_basic extends_addBasic extends_addBasic_flags extends_flags_addBasic extends_refl : tokumx.

(** Case analysis on the first step of two equal computations *)
Ltac same_step :=
  match goal with |- mbind _ ?m = mbind _ ?m => destruct m; cbn [mbind option_bind]; [|reflexivity] end.

(** Takes a successful parse apart. *)
Ltac parse_inv :=
  repeat match goal with
  | H : Ok _ = Ok _ |- _ => inv H
  | H : Err _ = Ok _ |- _ => discriminate H
  | H : result_bind ?m _ = Ok _ |- _ => let E := fresh "E" in destruct m eqn:E; cbn [result_bind] in H; [|discriminate H]
  end.

Lemma in_matcher_spec pe e op o isNot em :
  Parse.in_matcher pe e op o isNot = Ok em →
  ∃ s rs ms, em = mkElement e op isNot s rs 0 0 0 None false ms ∧
    ∀ e' isNot', Parse.in_matcher pe e' op o isNot' = Ok (mkElement e' op isNot' s rs 0 0 0 None false ms).
Proof.
  unfold Parse.in_matcher. destruct (Parse.parse_in _ _ _ _) as [[[s rs] ms]|]; [|done]. cbn [result_bind]. intros H. parse_inv.
  exists s, rs, ms. split; [done|]. done.
Qed.

(** What [$in], [$nin] and [$all] match *)
Definition not_target {M} (ev : bval) (em : ElementMatcher M) : Prop :=
  on_array (_compareOp em) = true → (_toMatch em).2 = ev.

(** The matchers that an operator adds, as it is and inside [$not] *)
Lemma addOp_not pe en ev ev' fn fv r f m m' x y :
  Parse.addOp pe en ev fn fv false r f m = Ok x → Parse.addOp pe en ev' fn fv true r f m' = Ok y →
  Parse.op_added x = true ∧
  ∃ l, extends l m (Parse.op_matcher x) ∧ extends (map (λ em, flip_not (retarget ev' em)) l) m' (Parse.op_matcher y) ∧
       Parse.op_regex x = r ∧ Parse.op_regex y = r ∧ (length l ≤ 1)%nat ∧ Forall (λ em, not_target ev em) l.
Proof.
  unfold Parse.addOp. cbn [negb andb]. generalize (Query.getGtLtOp (-1) fn). intros op.
  assert (∀ e op', (let l := match e.2 with BMinKey | BMaxKey => [] | _ => [Parse.simple e op' false] end in
    on_array op' = false → map (λ em, flip_not (retarget ev' em)) l = match e.2 with BMinKey | BMaxKey => [] | _ => [Parse.simple e op' true] end ∧
    (length l ≤ 1)%nat ∧ Forall (λ em, not_target ev em) l)) as B.
  { intros e op' l O. subst l.
    assert (retarget ev' (Parse.simple e op' false) = Parse.simple e op' false) as R by (unfold retarget; cbn [_compareOp Parse.simple]; by rewrite O).
    assert (not_target ev (Parse.simple e op' false)) as N by (unfold not_target; cbn [_compareOp Parse.simple]; rewrite O; discriminate).
    destruct e.2; cbn [map length]; rewrite ?R; (split; [reflexivity|split; [lia|]]); by repeat apply Forall_cons_2. }
  destruct (op =? -1) eqn:T1; [discriminate 2|].
  destruct ((op =? GT) || (op =? GTE) || (op =? LT) || (op =? LTE)) eqn:T2.
  { intros Hx Hy. parse_inv. split; [done|]. cbn [Parse.op_matcher Parse.op_regex].
    destruct (B (en, fv) op) as (E1 & E2 & E3); [unfold on_array, GT, GTE, LT, LTE, opALL, opIN, NIN in *; lia|].
    eexists. split; [apply extends_addBasic|]. rewrite E1. split; [apply extends_addBasic|done]. }
  destruct (op =? NE) eqn:T3.
  { intros Hx Hy. parse_inv. split; [done|]. cbn [Parse.op_matcher Parse.op_regex].
    destruct (B (en, fv) NE) as (E1 & E2 & E3); [done|].
    eexists. split; [apply extends_addBasic_flags|]. rewrite E1. split; [apply extends_addBasic_flags|done]. }
  assert (∀ o x' y', on_array op = true →
    Parse.in_matcher pe (en, ev) op o false = Ok x' → Parse.in_matcher pe (en, ev') op o true = Ok y' →
    y' = flip_not (retarget ev' x') ∧ not_target ev x') as I.
  { intros o x' y' O (s & rs & ms & -> & Hy)%in_matcher_spec E. rewrite Hy in E. inv E. unfold retarget. cbn. by rewrite O. }
  destruct ((op =? opALL) || (op =? opIN)) eqn:T4.
  { assert (on_array op = true) as O by (unfold on_array; by rewrite T4).
    destruct fv; try done; intros Hx Hy; parse_inv; (split; [done|]); destruct (I _ _ _ O E0 E) as [-> N];
      eexists [_]; (split; [apply extends_basic|]); (split; [apply extends_basic|]); repeat split; try done; auto. }
  destruct (op =? NIN) eqn:T5.
  { assert (on_array op = true) as O by (unfold on_array; by rewrite T5, orb_true_r).
    destruct fv; try done; intros Hx Hy; parse_inv; (split; [done|]); destruct (I _ _ _ O E0 E) as [-> N];
      eexists [_]; (split; [apply extends_basic|]); (split; [apply extends_basic|]); repeat split; try done; auto. }
  assert (∀ em em', on_array (_compareOp em) = false → em' = flip_not em →
    ∃ l, extends l m (Parse.add_basic em m) ∧ extends (map (λ em, flip_not (retarget ev' em)) l) m' (Parse.add_basic em' m') ∧
       r = r ∧ r = r ∧ (length l ≤ 1)%nat ∧ Forall (λ em, not_target ev em) l) as J.
  { intros em em' O ->. exists [em]. cbn [map]. unfold retarget. rewrite O. repeat split; try done. constructor; [|done]. intros O'. congruence. }
  destruct (op =? opMOD) eqn:T6.
  { unfold Parse.mod_matcher. intros Hx Hy. parse_inv. split; [done|]. by apply J. }
  destruct (op =? opTYPE) eqn:T7.
  { unfold Parse.type_matcher. intros Hx Hy. parse_inv. split; [done|]. by apply J. }
  destruct (op =? opELEM_MATCH) eqn:T8.
  { intros Hx Hy. parse_inv. split; [done|]. by apply J. }
  destruct (op =? opSIZE) eqn:T9.
  { intros Hx Hy. parse_inv. split; [done|]. cbn [Parse.op_matcher Parse.op_regex].
    destruct (B (en, fv) opSIZE) as (E1 & E2 & E3); [done|].
    eexists. split; [apply extends_flags_addBasic|]. rewrite E1. split; [apply extends_flags_addBasic|done]. }
  destruct (op =? opEXISTS) eqn:T10.
  { intros Hx Hy. parse_inv. split; [done|]. cbn [Parse.op_matcher Parse.op_regex].
    destruct (B (en, fv) opEXISTS) as (E1 & E2 & E3); [done|].
    eexists. split; [apply extends_addBasic|]. rewrite E1. split; [apply extends_addBasic|done]. }
  destruct (op =? opREGEX); [intros _ [=]|]. destruct (op =? opOPTIONS); [intros _ [=]|].
  destruct (op =? opWITHIN); [intros [=]|].
  destruct ((op =? opNEAR) || (op =? opGEO_INTERSECTS) || (op =? opMAX_DISTANCE)); [|intros [=]]. intros Hx Hy. parse_inv. split; [done|]. exists []. cbn. auto 10 using extends_refl.
Qed.

Section Negated.
Context (PartialMatch : list Z → RE_Options → list Z → bool) (where_exec : bval → bobj → option bool).
#[local] Abbreviation matches := (Match.matches PartialMatch where_exec).
#[local] Abbreviation basic_matches := (Match.basic_matches PartialMatch).
Implicit Types d : bobj.

(** The result for [$in] does not depend on the element that is matched. *)
Lemma valuesMatch_in {M} (em : ElementMatcher M) l :
  Match.valuesMatch PartialMatch em l opIN =
    Some (set_count (Match.value_of l) (_myset em) || existsb (λ rm, Match.regexMatches PartialMatch rm (Match.value_of l).2) (_myregex em)).
Proof.
  unfold Match.valuesMatch. cbn [Z.eqb Pos.eqb orb andb opIN NE NIN opELEM_MATCH Equality opSIZE opMOD opTYPE].
  change (opIN =? opIN) with true. change (opIN =? opSIZE) with false. change (opIN =? opMOD) with false.
  change (opIN =? opTYPE) with false. cbn [andb].
  destruct (_ || _); [done|]. destruct (negb _); [done|].
  set (c := if 1 <? _ then 1 else _). assert (-1 ≤ c ≤ 1) as Hc by (subst c; crush_cmp).
  assert (c = -1 ∨ c = 0 ∨ c = 1) as [-> | [-> | ->]] by lia; done.
Qed.

Lemma dotted_in {M} (em em' : ElementMatcher M) sub key fuel name obj isArr :
  _myset em = _myset em' → _myregex em = _myregex em' →
  Match.dotted PartialMatch em sub key fuel opIN name obj isArr = Match.dotted PartialMatch em' sub key fuel opIN name obj isArr.
Proof.
  intros E1 E2.
  assert (∀ e, Match.valuesMatch PartialMatch em e opIN = Match.valuesMatch PartialMatch em' e opIN) as V
    by (intros e; by rewrite !valuesMatch_in, E1, E2).
  assert (∀ e, Match.match_element PartialMatch em sub key opIN e = Match.match_element PartialMatch em' sub key opIN e) as E.
  { intros e. unfold Match.match_element. cbn [Z.eqb]. change (opIN =? opEXISTS) with false. change (opIN =? Equality) with false.
    cbn [andb]. rewrite V. same_step. case_match; [done|]. destruct e as [[n []]|]; try reflexivity.
    change (opIN =? opSIZE) with false. change (opIN =? opIN) with true. cbn iota.
    assert (∀ l, Match.any (Match.member_matches PartialMatch em sub opIN) l = Match.any (Match.member_matches PartialMatch em' sub opIN) l) as ->.
    { induction l as [|z l IH]; cbn [Match.any]; [done|]. change (Match.member_matches PartialMatch em sub opIN z) with (Match.valuesMatch PartialMatch em (Some z) opIN).
      change (Match.member_matches PartialMatch em' sub opIN z) with (Match.valuesMatch PartialMatch em' (Some z) opIN). rewrite V. same_step. by case_match. }
    done. }
  revert name obj isArr. induction fuel as [|fuel IH]; intros name obj isArr; cbn [Match.dotted]; [done|].
  assert (∀ found l, Match.match_array PartialMatch em (λ eo, Match.dotted PartialMatch em sub key fuel opIN name eo false) name opIN found l =
    Match.match_array PartialMatch em' (λ eo, Match.dotted PartialMatch em' sub key fuel opIN name eo false) name opIN found l) as A.
  { intros found l. revert found. induction l as [|z l IHl]; intros found; cbn [Match.match_array]; [done|].
    change (opIN =? opEXISTS) with false. rewrite andb_false_r, V. same_step. case_match; [done|].
    destruct z as [[n []]|]; try apply IHl. rewrite IH. same_step. case_match; [done|]. apply IHl. }
  rewrite A. destruct (Match.indexed key).
  - destruct (Fields.getFieldUsingIndexNames _ _ _); cbn [mbind option_bind]; [apply E|done].
  - destruct (Fields.split_dot name) as [[ln rest]|]; [|destruct isArr; [reflexivity|apply E]].
    destruct (Fields.getField ln obj) as [[n v]|]; [|reflexivity]. destruct v; apply IH || reflexivity.
Qed.

Lemma basic_retarget {M} (em : ElementMatcher M) sub alls key d v w :
  not_target (BObject w) em → basic_matches (retarget (BObject v) em) sub alls key d = basic_matches em sub alls key d.
Proof.
  unfold not_target, retarget. destruct (on_array (_compareOp em)) eqn:O; [|done]. intros T. specialize (T eq_refl).
  set (em' := mkElement _ _ _ _ _ _ _ _ _ _ _).
  assert (∀ cmp, Match.basic_ok em' cmp = Match.basic_ok em cmp) as B.
  { intros cmp. unfold Match.basic_ok, Match.retExistsFound, Match.negativeCompareOp. cbn [em' _compareOp _toMatch _myset _isNot snd].
    rewrite T. reflexivity. }
  assert (Match.matchesDotted PartialMatch em' sub alls key (_toMatch em').1 d = Match.matchesDotted PartialMatch em sub alls key (_toMatch em).1 d) as E.
  { unfold Match.matchesDotted. cbn [em' _compareOp _toMatch fst]. fold em'.
    destruct (_compareOp em =? opALL) eqn:A; [reflexivity|]. unfold on_array in O. rewrite A in O. cbn [orb] in O.
    unfold Match.negativeCompareOp, Match.inverseMatch, Match.inverseOfNegativeCompareOp, Match.negativeCompareOpContainsNull.
    cbn [em' _compareOp _toMatch _myset snd]. fold em'.
    destruct (_compareOp em =? opIN) eqn:I; bool_facts; apply Z.eqb_eq in O || idtac; rewrite ?I, ?O; cbn [orb].
    - change ((opIN =? NE) || (opIN =? NIN)) with false. by apply dotted_in.
    - change ((NIN =? NE) || (NIN =? NIN)) with true. change (NIN =? NE) with false. cbn [andb orb]. by rewrite (dotted_in em' em). }
  clearbody em'. unfold Match.basic_matches. rewrite E. same_step. by rewrite B.
Qed.

Lemma getGtLtOp_dollar def fn : Query.getGtLtOp def fn ≠ def → (nth 0 fn 0 =? 36) && negb (nth 1 fn 0 =? 0) = true.
Proof. unfold Query.getGtLtOp. by destruct ((nth 0 fn 0 =? 36) && _). Qed.

Lemma getGtLtOp_not def fn : Query.tail_is fn 1 (bytes "not") = true → Query.getGtLtOp def fn = def.
Proof.
  norm_bytes. cbn [Query.tail_is]. rewrite !andb_true_iff, !Z.eqb_eq. intros (E1 & E2 & E3 & E4). unfold Query.getGtLtOp.
  norm_bytes. cbn [Query.tail_is]. rewrite E1, E2. cbn. by destruct (_ && _).
Qed.

(** The parse of a field with one operator *)
Lemma parse_operator n fn fv m :
  nth 0 n 0 ≠ 36 → (nth 0 fn 0 =? 36) && negb (nth 1 fn 0 =? 0) = true → Query.tail_is fn 1 (bytes "not") = false →
  Parse.make [(n, BObject [(fn, fv)])] = Ok m →
  ∃ x, Parse.addOp Parse.parse_elem n (BObject [(fn, fv)]) fn fv false None [] Parse.new = Ok x ∧
    (Parse.op_added x = true → Parse.op_regex x = None → m = Parse.op_matcher x).
Proof.
  intros Hn Hf Hnot. unfold Parse.make. cbn [Parse.parse_fields Parse.parse_elem]. rewrite (proj2 (Z.eqb_neq _ _) Hn). cbn [andb].
  rewrite bool_decide_eq_false_2 by (intros ->; by apply Hn). cbn [Parse.operators]. rewrite Hf, Hnot.
  cbn [Parse.op_regex Parse.op_flags Parse.op_matcher].
  destruct (Parse.addOp _ _ _ _ _ _ _ _ _) as [x|]; cbn [result_bind]; [|done]. intros E. exists x. split; [done|].
  intros A R. rewrite A in E. cbn [result_bind] in E. rewrite R in E. cbn [result_bind] in E. rewrite A in E. cbn in E. by inv E.
Qed.

Lemma parse_not n fn fv m :
  nth 0 n 0 ≠ 36 → Parse.make [(n, BObject [(bytes "$not", BObject [(fn, fv)])])] = Ok m →
  ∃ y, Parse.addOp Parse.parse_elem n (BObject [(bytes "$not", BObject [(fn, fv)])]) fn fv true None []
         (Parse.set_flags false false false true Parse.new) = Ok y ∧ (Parse.op_regex y = None → m = Parse.op_matcher y).
Proof.
  intros Hn. unfold Parse.make. cbn [Parse.parse_fields Parse.parse_elem]. rewrite (proj2 (Z.eqb_neq _ _) Hn). cbn [andb].
  rewrite bool_decide_eq_false_2 by (intros ->; by apply Hn). cbn [Parse.operators].
  change (Query.tail_is (bytes "$not") 1 (bytes "not")) with true. change (nth 0 (bytes "$not") 0) with 36.
  change (nth 1 (bytes "$not") 0) with 110. cbn [Z.eqb Pos.eqb negb andb Parse.uassert result_bind Parse.not_ops Parse.op_matcher Parse.op_regex Parse.op_flags].
  destruct (Parse.addOp _ _ _ _ _ _ _ _ _) as [y|]; cbn [result_bind]; [|done]. intros E. exists y. split; [done|].
  intros R. cbn [Parse.op_regex Parse.op_added Parse.op_matcher result_bind] in E. rewrite R in E. cbn in E. by inv E.
Qed.

Lemma matches_extends em m d :
  extends [em] Parse.new m →
  matches m d = basic_matches em (match _subMatcher em with Some sm => Some (λ o, matches sm o) | None => None end)
    (map (λ am o, matches am o) (_allMatchers em)) [] d.
Proof.
  intros (E1 & E2 & E3 & E4 & E5 & E6 & E7). change (_constrainIndexKey Parse.new) with ([] : bobj) in E7. rewrite <- E7.
  by apply matches_basic.
Qed.

(** C9: [$not] negates: a document matches an operator inside [$not] exactly if it does not match the
    operator, whatever the field, the operand and the document (arrays, missing fields and nulls
    included), as long as the operator constrains the field at all ([_basics m1 ≠ []]: an operand
    MinKey or MaxKey is dropped by the parser, and then both queries match every document). *)
Theorem matcher_not n fn fv m1 m2 d :
  nth 0 n 0 ≠ 36 → Parse.make [(n, BObject [(fn, fv)])] = Ok m1 →
  Parse.make [(n, BObject [(bytes "$not", BObject [(fn, fv)])])] = Ok m2 → _basics m1 ≠ [] →
  matches m2 d = negb <$> matches m1 d.
Proof.
  intros Hn P1 P2 B. destruct (parse_not _ _ _ _ Hn P2) as (y & Hy & Ey).
  destruct (decide (Query.getGtLtOp (-1) fn = -1)) as [O|O].
  { exfalso. revert Hy. unfold Parse.addOp. rewrite O. cbn. discriminate. }
  assert (Query.tail_is fn 1 (bytes "not") = false) as T by (apply not_true_iff_false; intros T; by apply O, getGtLtOp_not).
  destruct (parse_operator _ _ _ _ Hn (getGtLtOp_dollar _ _ O) T P1) as (x & Hx & Ex).
  destruct (addOp_not _ _ _ _ _ _ _ _ _ _ _ _ Hx Hy) as (A & l & X1 & X2 & R1 & R2 & L & F).
  rewrite (Ex A R1) in *. rewrite (Ey R2) in *.
  destruct l as [|em [|]]; [|clear B L|cbn in L; lia]; [by destruct B; apply X1|]. apply Forall_cons in F as [F _].
  rewrite (matches_extends _ _ d X1), (matches_extends (flip_not (retarget _ em)) _ d X2), basic_matches_flip.
  erewrite basic_retarget by exact F.
  assert (_subMatcher (flip_not (retarget (BObject [(bytes "$not", BObject [(fn, fv)])]) em)) = _subMatcher em) as ->
    by (unfold retarget; by destruct (on_array _)).
  assert (_allMatchers (flip_not (retarget (BObject [(bytes "$not", BObject [(fn, fv)])]) em)) = _allMatchers em) as ->
    by (unfold retarget; by destruct (on_array _)).
  done.
Qed.


(** Values that a query compares for equality whatever they hold *)
Definition equality_operand (v : bval) : bool :=
  match v with BObject _ | BRegEx _ _ | BUndefined | BMinKey | BMaxKey => false | _ => true end.

Lemma not_dollar_name n s : nth 0 n 0 ≠ 36 → nth 0 s 0 = 36 → bool_decide (n = s) = false.
Proof. intros Hn Hs. apply bool_decide_eq_false_2. by intros ->. Qed.

Lemma parse_equality n v m :
  nth 0 n 0 ≠ 36 → equality_operand v = true → Parse.make [(n, v)] = Ok m → extends [Parse.simple (n, v) Equality false] Parse.new m.
Proof.
  intros Hn V. unfold Parse.make. cbn [Parse.parse_fields].
  destruct v; try done; cbn [Parse.parse_elem]; rewrite (proj2 (Z.eqb_neq _ _) Hn), ?(not_dollar_name n _ Hn) by done;
    cbn [andb orb result_bind]; intros H; by inv H.
Qed.

(** The answers for [$ne] and [$nin] from those for equality and [$in] *)
Lemma basic_ne (e : elem) sub alls key d :
  e.2 ≠ BUndefined →
  basic_matches (Parse.simple e NE false) sub alls key d = negb <$> basic_matches (Parse.simple e Equality false) sub alls key d.
Proof.
  intros V.
  assert (∀ fuel, Match.dotted PartialMatch (Parse.simple e NE false) sub key fuel Equality e.1 d false =
    Match.dotted PartialMatch (Parse.simple e Equality false) sub key fuel Equality e.1 d false) as E by reflexivity.
  assert (Match.matchesDotted PartialMatch (Parse.simple e NE false) sub alls key e.1 d =
    Match.inverseMatch PartialMatch (Parse.simple e NE false) sub key e.1 d) as N by reflexivity.
  unfold Match.basic_matches. change (_toMatch (Parse.simple e NE false)) with e. change (_toMatch (Parse.simple e Equality false)) with e.
  rewrite N. unfold Match.inverseMatch. change (Match.inverseOfNegativeCompareOp (Parse.simple e NE false)) with Equality. rewrite E.
  change (Match.matchesDotted PartialMatch (Parse.simple e Equality false) sub alls key e.1 d) with
    (Match.dotted PartialMatch (Parse.simple e Equality false) sub key (Match.dotted_fuel e.1) Equality e.1 d false).
  clear E N. generalize (Match.dotted PartialMatch (Parse.simple e Equality false) sub key (Match.dotted_fuel e.1) Equality e.1 d false).
  intros [r|]; cbn [mbind option_bind fmap option_fmap option_map]; [|done]. f_equal.
  unfold Match.basic_ok, Match.negativeCompareOpContainsNull, Match.retExistsFound, Match.negativeCompareOp.
  cbn [_compareOp _isNot _toMatch _myset Parse.simple]. rewrite !andb_false_r, orb_false_r.
  destruct e as [n v]. cbn [snd] in *. destruct v; try done; cbn;
    destruct (Z.ltb_spec r 0), (Z.leb_spec r 0), (Z.eqb_spec r 0); try lia; try done; cbn.
  all: try (destruct (Z.ltb_spec (- r) 0), (Z.eqb_spec (- r) 0); try lia; done).
Qed.

Lemma basic_nin n v w s rs ms sub alls key d :
  let nin : ElementMatcher Matcher := mkElement (n, BObject v) NIN false s rs 0 0 0 None false ms in
  let in_ : ElementMatcher Matcher := mkElement (n, BObject w) opIN false s rs 0 0 0 None false ms in
  basic_matches nin sub alls key d = negb <$> basic_matches in_ sub alls key d.
Proof.
  intros nin in_.
  assert (Match.matchesDotted PartialMatch nin sub alls key n d = Match.inverseMatch PartialMatch nin sub key n d) as N by reflexivity.
  assert (Match.matchesDotted PartialMatch in_ sub alls key n d =
    Match.dotted PartialMatch in_ sub key (Match.dotted_fuel n) opIN n d false) as I by reflexivity.
  unfold Match.basic_matches. change (_toMatch nin).1 with n. change (_toMatch in_).1 with n. rewrite N, I. unfold Match.inverseMatch.
  change (Match.inverseOfNegativeCompareOp nin) with opIN. rewrite (dotted_in nin in_) by reflexivity. clear N I.
  generalize (Match.dotted PartialMatch in_ sub key (Match.dotted_fuel n) opIN n d false).
  intros [r|]; cbn [mbind option_bind fmap option_fmap option_map]; [|done]. f_equal.
  unfold Match.basic_ok, Match.negativeCompareOpContainsNull, Match.retExistsFound, Match.negativeCompareOp, nin, in_.
  cbn [_compareOp _isNot _toMatch _myset snd Match.is_null negb]. change (NIN =? NE) with false. change (NIN =? opEXISTS) with false.
  change (opIN =? opEXISTS) with false. change ((opIN =? opIN) || (opIN =? NIN)) with true. change ((NIN =? opIN) || (NIN =? NIN)) with true.
  change (false || (NIN =? NIN)) with true. change ((opIN =? NE) || (opIN =? NIN)) with false. change (NIN =? NIN) with true.
  rewrite !andb_false_r. destruct (set_count staticNull s); cbn;
    destruct (Z.ltb_spec r 0), (Z.leb_spec r 0), (Z.eqb_spec r 0), (Z.ltb_spec (- r) 0), (Z.eqb_spec (- r) 0); try lia; done.
Qed.

Lemma in_matcher_nin pe n v o isNot em :
  Parse.in_matcher pe (n, v) opIN o isNot = Ok em →
  ∃ s rs ms, em = mkElement (n, v) opIN isNot s rs 0 0 0 None false ms ∧
    ∀ w, Parse.in_matcher pe (n, w) NIN o isNot = Ok (mkElement (n, w) NIN isNot s rs 0 0 0 None false ms).
Proof.
  unfold Parse.in_matcher. change (Parse.parse_in pe NIN o) with (Parse.parse_in pe opIN o).
  destruct (Parse.parse_in _ _ _ _) as [[[s rs] ms]|]; [|done]. cbn [result_bind]. intros H. parse_inv. by exists s, rs, ms.
Qed.

(** C23: [$ne] is the negation of equality and [$nin] that of [$in], for every field and document: arrays,
    missing fields and nulls are treated alike on both sides.  The operand of equality is an
    [equality_operand], neither an object, a regular expression, undefined, MinKey nor MaxKey, which a
    query does not just compare. *)
Theorem matcher_ne_nin n v a m1 m2 m3 m4 d :
  nth 0 n 0 ≠ 36 → equality_operand v = true →
  Parse.make [(n, v)] = Ok m1 → Parse.make [(n, BObject [(bytes "$ne", v)])] = Ok m2 →
  Parse.make [(n, BObject [(bytes "$in", a)])] = Ok m3 → Parse.make [(n, BObject [(bytes "$nin", a)])] = Ok m4 →
  matches m2 d = negb <$> matches m1 d ∧ matches m4 d = negb <$> matches m3 d.
Proof.
  intros Hn V P1 P2 P3 P4. split.
  - apply parse_equality in P1; [|done..]. destruct (parse_operator n (bytes "$ne") v m2 Hn eq_refl eq_refl P2) as (x & Hx & Ex).
    unfold Parse.addOp in Hx. change (Query.getGtLtOp (-1) (bytes "$ne")) with NE in Hx.
    cbn [Z.eqb Pos.eqb orb NE GT GTE LT LTE] in Hx. inv Hx. rewrite (Ex eq_refl eq_refl), (matches_extends _ _ d P1).
    rewrite (matches_extends (Parse.simple (n, v) NE false)); [apply basic_ne; cbn; by intros ->|by destruct v].
  - destruct (parse_operator n (bytes "$in") a m3 Hn eq_refl eq_refl P3) as (x & Hx & Ex).
    destruct (parse_operator n (bytes "$nin") a m4 Hn eq_refl eq_refl P4) as (y & Hy & Ey).
    unfold Parse.addOp in Hx, Hy. change (Query.getGtLtOp (-1) (bytes "$in")) with opIN in Hx. change (Query.getGtLtOp (-1) (bytes "$nin")) with NIN in Hy.
    cbn [Z.eqb Pos.eqb orb opIN NIN GT GTE LT LTE NE opALL] in Hx, Hy.
    destruct a; try discriminate.
    all: match type of Hx with result_bind ?x _ = _ => destruct x as [em|] eqn:E; [|discriminate Hx] end;
      destruct (in_matcher_nin _ _ _ _ _ _ E) as (s & rs & ms & -> & Hem); rewrite Hem in Hy; cbn [result_bind] in Hx, Hy; simplify_eq;
      rewrite (Ex eq_refl eq_refl), (Ey eq_refl eq_refl).
    all: cbn [Parse.op_matcher]; rewrite (matches_extends _ _ d (extends_basic _ _ _ _ _ _)), (matches_extends _ _ d (extends_basic _ _ _ _ _ _)); apply basic_nin.
Qed.

End Negated.

(** ** Every parsed matcher answers *)

(** [$elemMatch] has its matcher. *)
Fixpoint matcher_wf (m : Matcher) : bool :=
  forallb (λ em, (negb (_compareOp em =? opELEM_MATCH) || match _subMatcher em with Some _ => true | None => false end)
    && match _subMatcher em with Some sm => matcher_wf sm | None => true end && forallb matcher_wf (_allMatchers em)) (_basics m)
  && forallb matcher_wf (_andMatchers m) && forallb matcher_wf (_orMatchers m) && forallb matcher_wf (_norMatchers m)
  && match _constrainIndexKey m with [] => true | _ => false end.

(** No [$mod], whose remainder may be undefined, and no [$where] *)
Fixpoint matcher_defined (m : Matcher) : bool :=
  forallb (λ em, negb (_compareOp em =? opMOD)
    && match _subMatcher em with Some sm => matcher_defined sm | None => true end && forallb matcher_defined (_allMatchers em)) (_basics m)
  && forallb matcher_defined (_andMatchers m) && forallb matcher_defined (_orMatchers m) && forallb matcher_defined (_norMatchers m)
  && match _where m with None => true | Some _ => false end.

Definition element_wf (em : ElementMatcher Matcher) : bool :=
  (negb (_compareOp em =? opELEM_MATCH) || match _subMatcher em with Some _ => true | None => false end)
  && match _subMatcher em with Some sm => matcher_wf sm | None => true end && forallb matcher_wf (_allMatchers em).

Lemma matcher_wf_eq m :
  matcher_wf m = forallb element_wf (_basics m) && forallb matcher_wf (_andMatchers m) && forallb matcher_wf (_orMatchers m)
    && forallb matcher_wf (_norMatchers m) && match _constrainIndexKey m with [] => true | _ => false end.
Proof. by destruct m. Qed.

Lemma wf_add_basic em m : matcher_wf m = true → element_wf em = true → matcher_wf (Parse.add_basic em m) = true.
Proof.
  rewrite !matcher_wf_eq. cbn [_basics _andMatchers _orMatchers _norMatchers _constrainIndexKey Parse.add_basic].
  rewrite forallb_app, !andb_true_iff. cbn [forallb]. rewrite andb_true_r. intros ((((? & ?) & ?) & ?) & ?) ?. auto 10.
Qed.

Lemma wf_addBasic e op isNot m : op ≠ opELEM_MATCH → matcher_wf m = true → matcher_wf (Parse.addBasic e op isNot m) = true.
Proof.
  intros O W. assert (matcher_wf (Parse.add_basic (Parse.simple e op isNot) m) = true) as H.
  { apply wf_add_basic; [done|]. unfold element_wf. cbn. by rewrite (proj2 (Z.eqb_neq _ _) O). }
  unfold Parse.addBasic. by destruct e.2.
Qed.

Lemma wf_add_clauses a o n m :
  matcher_wf m = true → forallb matcher_wf a = true → forallb matcher_wf o = true → forallb matcher_wf n = true →
  matcher_wf (Parse.add_clauses a o n m) = true.
Proof.
  rewrite !matcher_wf_eq. cbn [_basics _andMatchers _orMatchers _norMatchers _constrainIndexKey Parse.add_clauses].
  rewrite !forallb_app, !andb_true_iff. intros ((((? & ?) & ?) & ?) & ?) ???. auto 10.
Qed.

Lemma wf_addRegex n r f isNot m m' : matcher_wf m = true → Parse.addRegex n r f isNot m = Ok m' → matcher_wf m' = true.
Proof. unfold Parse.addRegex. intros W H. parse_inv. destruct isNot; parse_inv; by rewrite matcher_wf_eq in *. Qed.

(** A property of a value and of every value inside it *)
Definition fields_forall (P : bval → Prop) : bobj → Prop :=
  fix go o := match o with [] => True | (n, v) :: o' => P v ∧ go o' end.
Fixpoint hereditary (P : bval → Prop) (v : bval) : Prop :=
  P v ∧ match v with BObject o | BArray o | BCodeWScope _ o => fields_forall (hereditary P) o | _ => True end.

Lemma fields_forall_Forall P o : fields_forall P o ↔ Forall (λ e, P e.2) o.
Proof. induction o as [|[n v] o IH]; cbn; [by rewrite Forall_nil|]. by rewrite Forall_cons, IH. Qed.

Lemma hereditary_here P v : hereditary P v → P v.
Proof. destruct v; by intros [? _]. Qed.

Lemma hereditary_embedded P v o : embedded v = Some o → hereditary P v → Forall (λ e, hereditary P e.2) o.
Proof. destruct v; cbn; intros E; inv E; intros [_ H]; by apply fields_forall_Forall. Qed.

Section ParseWf.
Context (pe : list Z → bval → Matcher → result match_error Matcher).
Definition keeps_wf (v : bval) : Prop := ∀ n m m', matcher_wf m = true → pe n v m = Ok m' → matcher_wf m' = true.
#[local] Abbreviation deep := (Forall (λ e : elem, hereditary keeps_wf e.2)).

Lemma parse_fields_wf o m m' : deep o → matcher_wf m = true → Parse.parse_fields pe o m = Ok m' → matcher_wf m' = true.
Proof.
  intros F. revert m. induction F as [|[n v] o H F IH]; intros m W; cbn [Parse.parse_fields]; intros E; parse_inv; [done|].
  eapply IH; [|exact E]. exact (hereditary_here _ _ H _ _ _ W E0).
Qed.

Ltac by_fields H E :=
  eapply parse_fields_wf; [| |exact E]; [eapply hereditary_embedded; [|exact H]; reflexivity|reflexivity].

Lemma parse_val_wf v m : hereditary keeps_wf v → Parse.parse_val pe v = Ok m → matcher_wf m = true.
Proof.
  intros H E. destruct v; try discriminate E; by_fields H E.
Qed.

Lemma parse_elemMatch_wf v x : hereditary keeps_wf v → Parse.parse_elemMatch pe v = Ok x → matcher_wf x.1 = true.
Proof.
  intros H. unfold Parse.parse_elemMatch. destruct v as [| | |o| | | | | | | | | | | | | | | |]; try done.
  destruct (_ && _); intros E; parse_inv; cbn.
  - by_fields H E0.
  - exact (hereditary_here _ _ H [] Parse.new _ eq_refl E0).
Qed.

Lemma parse_in_wf op o acc acc' :
  deep o → forallb matcher_wf acc.2 = true → Parse.parse_in pe op o acc = Ok acc' → forallb matcher_wf acc'.2 = true.
Proof.
  intros F. revert acc. induction F as [|[n v] o H F IH]; intros [[s rs] ms] W; cbn [Parse.parse_in]; intros E; parse_inv; [done|].
  eapply IH; [|exact E]. clear E IH. destruct ((op =? opALL) && _).
  - destruct v as [| | |[|[n' w] o'']| | | | | | | | | | | | | | | |]; try done. parse_inv. cbn in *. rewrite forallb_app, W. cbn.
    rewrite andb_true_r. eapply parse_val_wf; [|exact E]. by destruct H as (_ & H & _).
  - destruct v; parse_inv; done.
Qed.

Lemma in_matcher_wf e op o isNot em : op ≠ opELEM_MATCH → deep o → Parse.in_matcher pe e op o isNot = Ok em → element_wf em = true.
Proof.
  intros O F. unfold Parse.in_matcher. destruct (Parse.parse_in _ _ _ _) as [[[s rs] ms]|] eqn:E; [|done]. cbn [result_bind].
  intros H. parse_inv. unfold element_wf. cbn. rewrite (proj2 (Z.eqb_neq _ _) O). cbn. by eapply parse_in_wf in E.
Qed.

Lemma addOp_wf en ev fn fv isNot r f m x :
  hereditary keeps_wf fv → matcher_wf m = true → Parse.addOp pe en ev fn fv isNot r f m = Ok x → matcher_wf (Parse.op_matcher x) = true.
Proof.
  intros H W. unfold Parse.addOp. generalize (Query.getGtLtOp (-1) fn). intros op.
  assert (∀ a b c e m, matcher_wf m = true → matcher_wf (Parse.set_flags a b c e m) = true) as Fl by (intros; by rewrite matcher_wf_eq in *).
  assert (∀ o, embedded fv = Some o → deep o) as D by (intros; by eapply hereditary_embedded).
  destruct (op =? -1). { destruct (_ && _); [|done]. intros E. by inv E. }
  destruct ((op =? GT) || (op =? GTE) || (op =? LT) || (op =? LTE)) eqn:T.
  { intros E. inv E. apply wf_addBasic; [|done]. unfold GT, GTE, LT, LTE, opELEM_MATCH in *. lia. }
  destruct (op =? NE). { intros E. inv E. by apply wf_addBasic; [|apply Fl]. }
  destruct ((op =? opALL) || (op =? opIN)) eqn:T2.
  { assert (op ≠ opELEM_MATCH) by (unfold opALL, opIN, opELEM_MATCH in *; lia).
    destruct fv; try done; intros E; parse_inv; cbn [Parse.op_matcher]; apply Fl, wf_add_basic; try done; (eapply in_matcher_wf; [done| |exact E0]); by apply D. }
  destruct (op =? NIN) eqn:T3.
  { assert (op ≠ opELEM_MATCH) by (unfold NIN, opELEM_MATCH in *; lia).
    destruct fv; try done; intros E; parse_inv; cbn [Parse.op_matcher]; apply Fl, wf_add_basic; try done; (eapply in_matcher_wf; [done| |exact E0]); by apply D. }
  destruct (op =? opMOD). { unfold Parse.mod_matcher. intros E. parse_inv. cbn [Parse.op_matcher]. by apply wf_add_basic. }
  destruct (op =? opTYPE). { unfold Parse.type_matcher. intros E. parse_inv. cbn [Parse.op_matcher]. by apply wf_add_basic. }
  destruct (op =? opELEM_MATCH).
  { intros E. parse_inv. cbn [Parse.op_matcher]. apply wf_add_basic; [done|]. unfold element_wf. cbn. rewrite andb_true_r. by eapply parse_elemMatch_wf. }
  destruct (op =? opSIZE). { intros E. inv E. by apply Fl, wf_addBasic. }
  destruct (op =? opEXISTS). { intros E. inv E. by apply wf_addBasic. }
  destruct (op =? opREGEX). { destruct isNot; [done|]. destruct fv; intros E; by inv E. }
  destruct (op =? opOPTIONS). { destruct isNot; [done|]. intros E; by inv E. }
  destruct (op =? opWITHIN); [done|]. case_match; [|done]. intros E; by inv E.
Qed.

Lemma not_ops_wf en ev o r f m x :
  deep o → matcher_wf m = true → Parse.not_ops pe en ev o r f m = Ok x → matcher_wf (Parse.op_matcher x) = true.
Proof.
  intros F. revert r f m. induction F as [|[n v] o H F IH]; intros r f m W; cbn [Parse.not_ops]; intros E; parse_inv; [done|].
  eapply IH; [|exact E]. by eapply addOp_wf.
Qed.

Lemma operators_wf en ev o st x :
  deep o → matcher_wf (Parse.op_matcher st) = true → Parse.operators pe en ev o st = Ok x → matcher_wf (Parse.op_matcher x) = true.
Proof.
  intros F. revert st. induction F as [|[n v] o H F IH]; intros st W; cbn [Parse.operators]; [intros E; by inv E|].
  destruct (_ && _); [|intros E; by inv E].
  assert (matcher_wf (Parse.set_flags false false false true (Parse.op_matcher st)) = true) as W' by by rewrite matcher_wf_eq in *.
  destruct (Query.tail_is n 1 _).
  - destruct v; try done; intros E; parse_inv.
    + eapply IH; [|exact E]. eapply not_ops_wf; [|exact W'|exact E1]. eapply hereditary_embedded; [|exact H]. done.
    + eapply IH; [|exact E]. cbn. by eapply wf_addRegex.
  - intros E. parse_inv. cbn in H. pose proof (addOp_wf _ _ _ _ _ _ _ _ _ H W E0) as Wa.
    destruct (Parse.op_added a); [by eapply IH|by inv E].
Qed.

Lemma clauses_wf v l : (∀ o, embedded v = Some o → deep o) → Parse.parseExtractedClause pe v = Ok l → forallb matcher_wf l = true.
Proof.
  intros H. destruct v as [| | | |o| | | | | | | | | | | | | | |]; try done. pose proof (H o eq_refl) as F.
  clear H. destruct o as [|e o]; [done|]. unfold Parse.parseExtractedClause. revert l. generalize dependent (e :: o). clear e o.
  induction 1 as [|[n v] o H F IH]; intros l; cbn [Parse.clauses]; [intros E; by inv E|].
  destruct v; try done. intros E. parse_inv. cbn. rewrite (IH _ eq_refl), andb_true_r.
  by_fields H E0.
Qed.
End ParseWf.


Lemma parse_elem_eq n v m : Parse.parse_elem n v m =
  if (match v with BUndefined => true | _ => false end) then Err (UAssert 13629)
  else
      let c i := nth i n 0 in
      let clause := c 0%nat =? 36 in
      if clause && (c 1%nat =? 97) && (c 2%nat =? 110) && (c 3%nat =? 100) then
        l <-? Parse.parseExtractedClause Parse.parse_elem v ;; Ok (Parse.add_clauses l [] [] m)
      else if clause && Query.tail_is n 1 (bytes "or") then
        l <-? Parse.parseExtractedClause Parse.parse_elem v ;; Ok (Parse.add_clauses [] l [] m)
      else if clause && Query.tail_is n 1 (bytes "nor") then
        l <-? Parse.parseExtractedClause Parse.parse_elem v ;; Ok (Parse.add_clauses [] [] l m)
      else if clause && Query.tail_is n 1 (bytes "comment") then Ok m
      else if bool_decide (n = bytes "$where") then
        _ <-? Parse.uassert 15902 (match v with BString _ | BCodeWScope _ _ | BCode _ => true | _ => false end) ;;
        _ <-? Parse.uassert 10066 (match _where m with None => true | Some _ => false end) ;;
        Ok (Parse.set_where v m)
      else
        match v with
        | BRegEx r f => Parse.addRegex n r f false m
        | BObject o =>
            x <-? Parse.operators Parse.parse_elem n v o (Parse.mkOp false None [] m) ;;
            m <-? (match Parse.op_regex x with Some r => Parse.addRegex n r (Parse.op_flags x) false (Parse.op_matcher x) | None => Ok (Parse.op_matcher x) end) ;;
            if Parse.op_added x then Ok m
            else if bool_decide (n = bytes "$atomic") || bool_decide (n = bytes "$isolated") then Ok m
            else Ok (Parse.addBasic (n, v) Equality false m)
        | BArray _ => Ok (Parse.addBasic (n, v) Equality false (Parse.set_flags false false true false m))
        | _ =>
            if bool_decide (n = bytes "$atomic") || bool_decide (n = bytes "$isolated") then Ok m
            else Ok (Parse.addBasic (n, v) Equality false m)
        end.
Proof. by destruct v. Qed.

Lemma parse_elem_wf v : hereditary (keeps_wf Parse.parse_elem) v.
Proof.
  assert (∀ v, (∀ o, embedded v = Some o → Forall (λ e, hereditary (keeps_wf Parse.parse_elem) e.2) o) → keeps_wf Parse.parse_elem v) as Step.
  { clear v. intros v D n m m' W E. rewrite parse_elem_eq in E.
    pose proof (clauses_wf Parse.parse_elem v) as Cl.
    assert (∀ m, matcher_wf m = true → matcher_wf (Parse.addBasic (n, v) Equality false m) = true) as B by (intros; by apply wf_addBasic).
    case_match; [discriminate|]. clear H. cbv zeta in E.
    repeat (case_match; [parse_inv; try done; try (apply wf_add_clauses; eauto; done); by rewrite matcher_wf_eq in *|]).
    destruct v; try (case_match; parse_inv; by auto).
    - parse_inv. assert (matcher_wf (Parse.op_matcher a) = true) as Wa.
      { eapply operators_wf; [| |exact E0]; [by apply D|done]. }
      assert (matcher_wf a0 = true) as W0.
      { destruct (Parse.op_regex a); [by eapply wf_addRegex|by inv E1]. }
      repeat case_match; parse_inv; auto.
    - parse_inv. apply B. by rewrite matcher_wf_eq in *.
    - by eapply wf_addRegex. }
  induction v as [o F|o F|c o F|v N1 N2 N3] using bval_ind'.
  - split; [apply Step; cbn; by intros ? [= <-]|by apply fields_forall_Forall].
  - split; [apply Step; cbn; by intros ? [= <-]|by apply fields_forall_Forall].
  - split; [by apply Step|by apply fields_forall_Forall].
  - destruct v; try (by split; [apply Step|]); [by destruct (N1 o)|by destruct (N2 o)|by destruct (N3 code scope)].
Qed.

Lemma make_wf q m : Parse.make q = Ok m → matcher_wf m = true.
Proof. apply parse_fields_wf; [|done]. apply Forall_forall. intros e _. apply parse_elem_wf. Qed.

(** Induction over a matcher and the matchers in it *)
Section MatcherInd.
Variable P : Matcher → Prop.
Hypothesis H : ∀ m, Forall (λ em, (∀ sm, _subMatcher em = Some sm → P sm) ∧ Forall P (_allMatchers em)) (_basics m) →
  Forall P (_andMatchers m) → Forall P (_orMatchers m) → Forall P (_norMatchers m) → P m.

Fixpoint matcher_ind' (m : Matcher) : P m :=
  let all := fix all (l : list Matcher) : Forall P l :=
    match l with [] => Forall_nil_2 P | m :: l => Forall_cons_2 P m l (matcher_ind' m) (all l) end in
  H m
    ((fix go (l : list (ElementMatcher Matcher)) : Forall (λ em, (∀ sm, _subMatcher em = Some sm → P sm) ∧ Forall P (_allMatchers em)) l :=
        match l with
        | [] => Forall_nil_2 _
        | em :: l => Forall_cons_2 _ em l
            (conj (match _subMatcher em as o return ∀ sm, o = Some sm → P sm with
                   | Some s => λ sm E, eq_ind s P (matcher_ind' s) sm (Some_inj s sm E)
                   | None => λ sm E, False_ind _ (None_ne_Some _ E)
                   end) (all (_allMatchers em))) (go l)
        end) (_basics m)) (all (_andMatchers m)) (all (_orMatchers m)) (all (_norMatchers m)).
End MatcherInd.

Lemma split_dot_length name l r : Fields.split_dot name = Some (l, r) → (length r < length name)%nat.
Proof.
  revert l. induction name as [|c n IH]; intros l; cbn; [done|]. destruct (c =? Fields.dot); [intros E; inv E; lia|].
  destruct (Fields.split_dot n) as [[l' r']|]; [|done]. cbn. intros E. inv E. specialize (IH l' eq_refl). lia.
Qed.

Section Total.
Context (PartialMatch : list Z → RE_Options → list Z → bool) (where_exec : bval → bobj → option bool).
#[local] Abbreviation matches := (Match.matches PartialMatch where_exec).

Lemma any_total {A} (f : A → option bool) l : Forall (λ a, is_Some (f a)) l → is_Some (Match.any f l).
Proof.
  induction 1 as [|a l [b E] F IH]; cbn [Match.any]; [by eexists|]. rewrite E. cbn [mbind option_bind]. destruct b; [by eexists|done].
Qed.

Lemma every_total {A} (f : A → option bool) l : Forall (λ a, is_Some (f a)) l → is_Some (Match.every f l).
Proof.
  intros F. unfold Match.every. destruct (any_total (λ a, b ← f a; Some (negb b)) l) as [b ->]; [|by eexists].
  eapply Forall_impl; [exact F|]. intros a [b E]. cbn. rewrite E. by eexists.
Qed.

Section element.
Context {M : Type} (em : ElementMatcher M) (sub : option (bobj → option bool)) (alls : list (bobj → option bool)).
Context (NoMod : _compareOp em ≠ opMOD).
Context (Sub : _compareOp em = opELEM_MATCH → ∃ f, sub = Some f ∧ ∀ o, is_Some (f o)).
Context (Alls : Forall (λ f, ∀ o : bobj, is_Some (f o)) alls).

(** The operators [dotted] is called with *)
Definition plain_op (op : Z) : Prop :=
  op ≠ NE ∧ op ≠ NIN ∧ op ≠ opMOD ∧ (op = opELEM_MATCH → ∃ f, sub = Some f ∧ ∀ o, is_Some (f o)).

Lemma valuesMatch_total op l : plain_op op → op ≠ opELEM_MATCH → is_Some (Match.valuesMatch PartialMatch em l op).
Proof.
  intros (O1 & O2 & O3 & _) O4. unfold Match.valuesMatch.
  rewrite (proj2 (Z.eqb_neq _ _) O1), (proj2 (Z.eqb_neq _ _) O2), (proj2 (Z.eqb_neq _ _) O4), (proj2 (Z.eqb_neq _ _) O3). cbn [orb].
  repeat (case_match; [by eexists|]). by eexists.
Qed.

Lemma member_total op z : plain_op op → is_Some (Match.member_matches PartialMatch em sub op z).
Proof.
  intros P. unfold Match.member_matches. destruct (Z.eqb_spec op opELEM_MATCH) as [E|E]; [|by apply valuesMatch_total].
  destruct P as (_ & _ & _ & S). destruct (S E) as (f & -> & F). case_match; [apply F|]. destruct (embedded z.2); [apply F|by eexists].
Qed.

Lemma match_element_total key op e : plain_op op → is_Some (Match.match_element PartialMatch em sub key op e).
Proof.
  intros P. unfold Match.match_element. case_match; [by eexists|].
  assert (∀ c : bool, is_Some (if c && negb (op =? opELEM_MATCH) then Match.valuesMatch PartialMatch em e op else Some false)) as B.
  { intros c. destruct (Z.eqb_spec op opELEM_MATCH); cbn [negb]; rewrite ?andb_false_r; [by eexists|].
    destruct c; [by apply valuesMatch_total|by eexists]. }
  match goal with |- context [if ?c && _ then _ else Some false] => destruct (B c) as [b ->] end. cbn [mbind option_bind].
  destruct b; [by eexists|]. destruct e as [[n v]|]; [|by eexists]. destruct v as [| | | |a| | | | | | | | | | | | | | |]; try by eexists.
  case_match; [by eexists|]. destruct (any_total (Match.member_matches PartialMatch em sub op) a) as [b ->].
  { apply Forall_forall. intros. by apply member_total. }
  cbn [mbind option_bind]. destruct b; [by eexists|]. case_match; [by eexists|]. destruct (Z.eqb_spec op opIN) as [->|]; [|by eexists].
  rewrite valuesMatch_in. by eexists.
Qed.

Lemma dotted_total op fuel name obj isArr :
  plain_op op → (2 * length name + (if (isArr : bool) then 1 else 0) < fuel)%nat →
  is_Some (Match.dotted PartialMatch em sub [] fuel op name obj isArr).
Proof.
  intros P. revert name obj isArr. induction fuel as [|fuel IH]; intros name obj isArr L; [lia|]. cbn [Match.dotted Match.indexed].
  assert (isArr = true → ∀ found l, is_Some (Match.match_array PartialMatch em (λ eo, Match.dotted PartialMatch em sub [] fuel op name eo false) name op found l)) as A.
  { intros -> found l. revert found. induction l as [|z l IHl]; intros found; cbn [Match.match_array]; [by eexists|].
    case_match; [by eexists|].
    assert (∀ c : bool, is_Some (if c && negb (op =? opELEM_MATCH) then Match.valuesMatch PartialMatch em z op else Some false)) as B.
    { intros c. destruct (Z.eqb_spec op opELEM_MATCH); cbn [negb]; rewrite ?andb_false_r; [by eexists|].
      destruct c; [by apply valuesMatch_total|by eexists]. }
    match goal with |- context [if ?c && _ then _ else Some false] => destruct (B c) as [b ->] end. cbn [mbind option_bind].
    destruct b; [by eexists|]. destruct z as [[n v]|]; [|apply IHl]. destruct v; try apply IHl.
    destruct (IH name o false) as [cmp ->]; [lia|]. cbn [mbind option_bind]. case_match; [by eexists|]. apply IHl. }
  destruct (Fields.split_dot name) as [[ln rest]|] eqn:S.
  - apply split_dot_length in S. destruct (Fields.getField ln obj) as [[n v]|]; [|destruct isArr; [by apply A|by eexists]].
    destruct v; try (destruct isArr; [by apply A|by eexists]); apply IH; lia.
  - destruct isArr; [by apply A|]. by apply match_element_total.
Qed.

Lemma match_all_total name obj : is_Some (Match.match_all PartialMatch em alls name obj).
Proof.
  unfold Match.match_all. destruct alls as [|f fs] eqn:E.
  - destruct (_myset em), (_myregex em); cbv zeta; [by eexists|case_match; by eexists..].
  - rewrite <- E in *. destruct (Fields.getFieldDotted name obj) as [[n v]|]; [|by eexists]. destruct v as [| | | |a| | | | | | | | | | | | | | |]; try by eexists.
    match goal with |- context [Match.any ?g alls] => destruct (any_total g alls) as [b ->] end; [|by eexists].
    eapply Forall_impl; [exact Alls|]. cbn. intros g G. 
    match goal with |- context [Match.any g ?l] => destruct (any_total g l) as [b ->] end; [by apply Forall_forall|by eexists].
Qed.

Lemma basic_total obj : is_Some (Match.basic_matches PartialMatch em sub alls [] obj).
Proof.
  unfold Match.basic_matches.
  assert (∀ op name, plain_op op → is_Some (Match.dotted PartialMatch em sub [] (Match.dotted_fuel name) op name obj false)) as D.
  { intros op name P. apply dotted_total; [done|]. unfold Match.dotted_fuel. lia. }
  assert (∀ name, is_Some (Match.matchesDotted PartialMatch em sub alls [] name obj)) as T; [|destruct (T (_toMatch em).1) as [c ->]; by eexists].
  intros name. unfold Match.matchesDotted, Match.negativeCompareOp, Match.inverseMatch, Match.inverseOfNegativeCompareOp. case_match; [apply match_all_total|].
  destruct (Z.eqb_spec (_compareOp em) NE); cbn [orb]; [|destruct (Z.eqb_spec (_compareOp em) NIN); cbn [orb]].
  - destruct (D Equality name) as [c ->]; [by split_and!|by eexists].
  - destruct (D opIN name) as [c ->]; [by split_and!|by eexists].
  - apply D. by split_and!.
Qed.
End element.

Lemma matches_eq m obj : matches m obj =
  (b ← Match.every (λ em, Match.basic_matches PartialMatch em
      (match _subMatcher em with Some sm => Some (λ o, matches sm o) | None => None end)
      (map (λ am o, matches am o) (_allMatchers em)) (_constrainIndexKey m) obj) (_basics m);
   if negb b then Some false
   else if negb (forallb (Match.regex_ok PartialMatch (_constrainIndexKey m) obj) (_regexs m)) then Some false
   else
     b ← Match.every (λ am, matches am obj) (_andMatchers m);
     if negb b then Some false
     else
       b ← (match _orMatchers m with [] => Some true | l => Match.any (λ om, matches om obj) l end);
       if negb b then Some false
       else
         b ← Match.any (λ nm, matches nm obj) (_norMatchers m);
         if (b : bool) then Some false
         else match _where m with Some w => where_exec w obj | None => Some true end).
Proof. by destruct m. Qed.

(** C10: A parsed query is decided for every document: [matches] ends with an answer, and no [verify] fails,
    unless the query has [$mod], whose remainder can be undefined, or a [$where] function. *)
Theorem matcher_total q m obj :
  Parse.make q = Ok m → matcher_defined m = true → is_Some (matches m obj).
Proof.
  intros W%make_wf D. revert obj. induction m as [m B A O N] using matcher_ind'. intros obj.
  rewrite matcher_wf_eq, !andb_true_iff in W. destruct W as ((((Wb & Wa) & Wo) & Wn) & Wk).
  assert (matcher_defined m = forallb (λ em, negb (_compareOp em =? opMOD)
    && match _subMatcher em with Some sm => matcher_defined sm | None => true end && forallb matcher_defined (_allMatchers em)) (_basics m)
    && forallb matcher_defined (_andMatchers m) && forallb matcher_defined (_orMatchers m) && forallb matcher_defined (_norMatchers m)
    && match _where m with None => true | Some _ => false end) as E by by destruct m.
  rewrite E, !andb_true_iff in D. clear E. destruct D as ((((Db & Da) & Do) & Dn) & Dw).
  assert (∀ l, Forall (λ m, matcher_wf m = true → matcher_defined m = true → ∀ obj, is_Some (matches m obj)) l →
    forallb matcher_wf l = true → forallb matcher_defined l = true → Forall (λ m, ∀ obj, is_Some (matches m obj)) l) as All.
  { intros l F. induction F as [|x l Hx F IH]; cbn [forallb]; [by constructor|]. rewrite !andb_true_iff. intros [] []. auto. }
  apply All in A; [|done..]. apply All in O; [|done..]. apply All in N; [|done..].
  rewrite matches_eq. destruct (_constrainIndexKey m); [|done].
  match goal with |- context [Match.every ?f (_basics m)] => destruct (every_total f (_basics m)) as [b ->] end.
  { clear -All B Wb Db. induction (_basics m) as [|em l IH]; constructor.
    - cbn [forallb] in Wb, Db. unfold element_wf at 1 in Wb. rewrite !andb_true_iff in Wb, Db. apply Forall_cons in B as [[S L] _].
      destruct Wb as (((We & Ws) & Wl) & _), Db as (((Dm & Ds) & Dl) & _). apply basic_total; [by intros Eq; rewrite Eq in Dm| |].
      + intros Eq. destruct (_subMatcher em) as [sm|]; [|by rewrite Eq in We]. eexists. split; [done|]. by apply S.
      + apply Forall_map. by apply All.
    - cbn [forallb] in Wb, Db. rewrite !andb_true_iff in Wb, Db. apply Forall_cons in B as [_ B]. apply IH; [done|apply Wb|apply Db]. }
  cbn [mbind option_bind]. destruct b; cbn [negb]; [|by eexists]. destruct (forallb _ (_regexs m)); cbn [negb]; [|by eexists].
  match goal with |- context [Match.every ?f (_andMatchers m)] => destruct (every_total f (_andMatchers m)) as [b2 ->] end.
  { eapply Forall_impl; [exact A|]. auto. }
  cbn [mbind option_bind]. destruct b2; cbn [negb]; [|by eexists].
  assert (is_Some (match _orMatchers m with [] => Some true | l => Match.any (λ om, matches om obj) l end)) as [b3 ->].
  { destruct (_orMatchers m); [by eexists|]. apply any_total. eapply Forall_impl; [exact O|]. auto. }
  cbn [mbind option_bind]. destruct b3; cbn [negb]; [|by eexists].
  match goal with |- context [Match.any ?f (_norMatchers m)] => destruct (any_total f (_norMatchers m)) as [b4 ->] end.
  { eapply Forall_impl; [exact N|]. auto. }
  cbn [mbind option_bind]. destruct b4; [by eexists|]. destruct (_where m); [discriminate Dw|by eexists].
Qed.
End Total.

Module MatcherExample.

(** An engine that finds no match, and no functions *)
Definition no_regex (regex : list Z) (options : RE_Options) (text : list Z) : bool := false.
Definition no_where (f : bval) (o : bobj) : option bool := None.
#[local] Abbreviation matches := (Match.matches no_regex no_where).

Definition get (q : bobj) : Matcher := match Parse.make q with Ok m => m | Err _ => Parse.new end.
Definition a : list Z := bytes "a".
Definition doc : bobj := [(a, BArray [(bytes "0", BInt 3); (bytes "1", BNull)])].

Lemma matcher_not_witness : matches (get [(a, BObject [(bytes "$not", BObject [(bytes "$gt", BInt 5)])])]) doc = Some true.
Proof.
  exact (matcher_not no_regex no_where a (bytes "$gt") (BInt 5) (get [(a, BObject [(bytes "$gt", BInt 5)])]) _ doc
    ltac:(done) eq_refl eq_refl ltac:(done)).
Defined.

Lemma matcher_ne_nin_witness :
  matches (get [(a, BObject [(bytes "$ne", BNull)])]) doc = Some false ∧
  matches (get [(a, BObject [(bytes "$nin", BArray [(bytes "0", BInt 4)])])]) doc = Some true.
Proof.
  exact (matcher_ne_nin no_regex no_where a BNull (BArray [(bytes "0", BInt 4)]) (get [(a, BNull)]) _
    (get [(a, BObject [(bytes "$in", BArray [(bytes "0", BInt 4)])])]) _ doc
    ltac:(done) eq_refl eq_refl eq_refl eq_refl eq_refl).
Defined.

Definition query : bobj :=
  [(a, BObject [(bytes "$elemMatch", BObject [(bytes "$gt", BInt 2)])]); (bytes "b", BObject [(bytes "$exists", BBool false)])].

Lemma matcher_total_witness : is_Some (matches (get query) doc).
Proof. exact (matcher_total no_regex no_where query (get query) doc eq_refl eq_refl). Defined.

End MatcherExample.
