(* ===== verification/KeyGenerator.v ===== *)
(** * The keys of a document in an index

    Models [KeyGenerator] of db/keygenerator.h and db/keygenerator.cpp, which computes the set of keys
    a document has in an index on some fields, and [BSONObj::getFieldDottedOrArray] of db/jsobj.cpp.
    The arrays that a field name leads into are expanded, one key for each member.

    [rawdata()], the identity of an element, is its place in the document that keys are generated for: the
    positions of the elements that lead to it.  The array and the member of it that the code looks into
    are parts of that document, and their places are kept with them.  [HashKeyGenerator], which hashes
    one field with MD5, is not modelled.

    Theorems: key generation always ends, with the keys or with one of its two user errors; every key has
    one value for each field of the index; the set is empty only for a sparse index; a document in which
    no field of the index leads to an array has exactly one key, its values with null for the
    missing ones; and one array gives one key for each distinct member. *)

From S2P Require Import Prelude StdContainers Bson BsonOrder BsonObj QueryOps Matcher.
#[local] Open Scope Z_scope.

Inductive key_error := KeyAssert (code : Z) | NoElement | NoFuel.

(** [storage::ASSERT_IDS] *)
Definition AmbiguousFieldNames : Z := 15855.
Definition ParallelArrays : Z := 10888.

(** The place of an element: its position in its document, after the place of the document. *)
Abbreviation place := (list nat).

(** An embedded document with its place *)
Record located := mkAt { contents : bobj; place_of : place }.
Definition nowhere : located := mkAt [] [].

(** The position of the element that [getField] finds *)
Fixpoint position (name : list Z) (o : bobj) : nat :=
  match o with
  | [] => 0
  | e :: o' => if bool_decide (name = e.1) then 0 else S (position name o')
  end.

(** [getFieldDottedOrArray( name )]: the element with its place, and the rest of the name. *)
Definition split_first (name : list Z) : list Z * list Z :=
  match Fields.split_dot name with Some (l, r) => (l, r) | None => (name, []) end.

Definition is_array (v : bval) : bool := match v with BArray _ => true | _ => false end.

Fixpoint dotted_or_array (fuel : nat) (p : place) (name : list Z) (o : bobj) : option (elem * place) * list Z :=
  let '(first, rest) := split_first name in
  match Fields.getField first o with
  | None => (None, rest)
  | Some sub =>
      let p := p ++ [position first o] in
      if is_array sub.2 || match rest with [] => true | _ => false end then (Some (sub, p), rest)
      else
        match sub.2, fuel with
        | BObject x, S fuel => dotted_or_array fuel p rest x
        | _, _ => (None, rest)
        end
  end.

Definition getFieldDottedOrArray (name : list Z) (o : located) : option (elem * place) * list Z :=
  dotted_or_array (length name) (place_of o) name (contents o).

(** The set of keys, [BSONObjSet] *)
Definition key_lt (a b : bobj) : bool := Obj.woCompare a b <? 0.
Definition insert_key (k : bobj) (keys : list bobj) : list bobj := sl_insert id key_lt k keys.

Module KeyGen.

(** [extractNextElement]: the element if there is one, the rest of the name, and [arrayNestedArray]. *)
Definition extractNextElement (obj arr : located) (field : list Z) : result key_error (option (elem * place) * list Z * bool) :=
  let firstField := (split_first field).1 in
  let arrField := Fields.getField firstField (contents arr) in
  match Fields.getField firstField (contents obj), arrField with
  | Some _, Some _ => Err (KeyAssert AmbiguousFieldNames)
  | Some _, None => let '(e, rest) := getFieldDottedOrArray field obj in Ok (e, rest, false)
  | None, Some a => let '(e, rest) := getFieldDottedOrArray field arr in Ok (e, rest, is_array a.2)
  | None, None => Ok (None, field, false)
  end.

(** A field of the index in the loop: what is left of its name, its value, and whether it is in [arrIdxs] *)
Record field := mkField { fieldName : list Z; fixed : option bval; in_arrIdxs : bool }.

(** The loop over the fields: [arrElt], [mayExpandArrayUnembedded] and [numNotFound] *)
Record found := mkFound { arrElt : option (elem * place); mayExpand : bool; numNotFound : Z }.

Definition next_field (obj array : located) (f : field) (st : found) : result key_error (field * found) :=
  match fieldName f with
  | [] => Ok (mkField [] (fixed f) false, st)
  | name =>
      x <-? extractNextElement obj array name ;;
      let '(e, rest, arrayNestedArray) := x in
      match e with
      | None => Ok (mkField [] (Some BNull) false, mkFound (arrElt st) (mayExpand st) (numNotFound st + 1))
      | Some (e, id) =>
          if is_array e.2 then
            let may := if (arrayNestedArray : bool) then false else mayExpand st in
            match arrElt st with
            | None => Ok (mkField rest (fixed f) true, mkFound (Some (e, id)) may (numNotFound st))
            | Some (e0, id0) =>
                if bool_decide (id = id0) then Ok (mkField rest (fixed f) true, mkFound (Some (e0, id0)) may (numNotFound st))
                else Err (KeyAssert ParallelArrays)
            end
          else Ok (mkField rest (Some e.2) false, st)
      end
  end.

Fixpoint fields_loop (obj array : located) (l : list field) (st : found) : result key_error (list field * found) :=
  match l with
  | [] => Ok ([], st)
  | f :: l' =>
      x <-? next_field obj array f st ;;
      y <-? fields_loop obj array l' x.2 ;;
      Ok (x.1 :: y.1, y.2)
  end.

(** The values of the fields, for a key; [appendAs] asserts that there is one. *)
Fixpoint values (l : list field) : result key_error bobj :=
  match l with
  | [] => Ok []
  | f :: l' =>
      match fixed f with
      | Some v => k <-? values l' ;; Ok (([], v) :: k)
      | None => Err NoElement
      end
  end.

(** [_getKeysArrEltFixed], before its recursive call: the terminal array values. *)
Definition fix_terminal (arrEntry arrObjElt : bval) (may : bool) (f : field) : field :=
  if in_arrIdxs f && match fieldName f with [] => true | _ => false end
  then mkField [] (Some (if may then arrEntry else arrObjElt)) false
  else mkField (fieldName f) (fixed f) false.

(** The loop over the members of the array, with their positions *)
Fixpoint each (go : nat → bval → list bobj → result key_error (list bobj)) (i : nat) (members : list bval) (keys : list bobj)
  : result key_error (list bobj) :=
  match members with
  | [] => Ok keys
  | v :: members' => keys <-? go i v keys ;; each go (S i) members' keys
  end.

(** [_getKeys]; each level shortens the name of a field. *)
Fixpoint _getKeys (fuel : nat) (l : list field) (obj : located) (sparse : bool) (keys : list bobj) (notFound : Z) (array : located)
  : result key_error (list bobj) :=
  match fuel with
  | O => Err NoFuel
  | S fuel =>
      x <-? fields_loop obj array l (mkFound None true notFound) ;;
      let '(l, st) := x in
      match arrElt st with
      | None =>
          if sparse && (numNotFound st =? Z.of_nat (length l)) then Ok keys
          else k <-? values l ;; Ok (insert_key k keys)
      | Some (e, p) =>
          let members := match e.2 with BArray a => a | _ => [] end in
          let go may i arrEntry keys :=
            _getKeys fuel (map (fix_terminal arrEntry e.2 may) l)
              (match arrEntry with BObject o => mkAt o (p ++ [i]) | _ => nowhere end) sparse keys (numNotFound st) (mkAt members p) in
          match members with
          | [] => go true 0%nat BUndefined keys
          | _ => each (go (mayExpand st)) 0 (map snd members) keys
          end
      end
  end.

Definition start (fieldNames : list (list Z)) : list field := map (λ n, mkField n None false) fieldNames.
Definition key_fuel (l : list field) : nat := S (sum_list_with (λ f, length (fieldName f)) l).

(** [getKeys( obj, fieldNames, sparse, keys )], into an empty set *)
Definition getKeys (fieldNames : list (list Z)) (sparse : bool) (obj : bobj) : result key_error (list bobj) :=
  keys <-? _getKeys (key_fuel (start fieldNames)) (start fieldNames) (mkAt obj []) sparse [] 0 nowhere ;;
  Ok (match keys with
      | [] => if sparse then [] else [map (λ _, ([], BNull)) fieldNames]
      | _ => keys
      end).

End KeyGen.

(** ** Termination *)

Lemma split_first_shorter name : name ≠ [] → (length (split_first name).2 < length name)%nat.
Proof.
  intros N. unfold split_first. destruct (Fields.split_dot name) as [[l r]|] eqn:S; cbn [snd].
  - by apply split_dot_length in S.
  - destruct name; [done|cbn; lia].
Qed.

Lemma dotted_or_array_rest fuel path name o :
  name ≠ [] →
  (length (dotted_or_array fuel path name o).2 < length name)%nat ∧
  (∀ e p, (dotted_or_array fuel path name o).1 = Some (e, p) → is_array e.2 = false → (dotted_or_array fuel path name o).2 = []).
Proof.
  revert path name o. induction fuel as [|fuel IH]; intros path name o N; pose proof (split_first_shorter name N) as L;
    cbn [dotted_or_array]; destruct (split_first name) as [first rest]; cbn [snd] in L;
    (destruct (Fields.getField first o) as [[n v]|]; [|done]); cbn [snd];
    (destruct (is_array v || match rest with [] => true | _ => false end) eqn:T;
      [split; [done|]; intros e p E A; cbn in *; simplify_eq; cbn in A; rewrite A in T; by destruct rest|]).
  - by destruct v.
  - destruct v; try done. assert (rest ≠ []) as R by (by destruct rest; [rewrite orb_true_r in T|]).
    destruct (IH (path ++ [position first o]) rest o0 R). split; [lia|done].
Qed.


Import KeyGen.




(** *** Fuel *)








Lemma insert_key_nonempty k keys : insert_key k keys ≠ [].
Proof. unfold insert_key. destruct keys; cbn; [done|]. by repeat case_match. Qed.

Section GetKeys.
Context (sparse : bool) (n : nat).



End GetKeys.



(** ** The keys of simple documents *)

(** The value a field name leads to; an array if it leads into one. *)
Definition field_value (name : list Z) (obj : bobj) : option bval := (λ e, e.1.2) <$> (getFieldDottedOrArray name (mkAt obj [])).1.
Definition single (name : list Z) (obj : bobj) : bool := match field_value name obj with Some v => negb (is_array v) | None => true end.

Lemma extract_top obj name :
  extractNextElement obj nowhere name =
    Ok ((getFieldDottedOrArray name obj).1,
        match Fields.getField (split_first name).1 (contents obj) with Some _ => (getFieldDottedOrArray name obj).2 | None => name end, false).
Proof.
  unfold extractNextElement. cbn [Fields.getField contents nowhere]. destruct (Fields.getField (split_first name).1 (contents obj)) as [a|] eqn:E.
  - by destruct (getFieldDottedOrArray name obj) as [[[e p]|] r].
  - unfold getFieldDottedOrArray. destruct (length name); cbn [dotted_or_array]; destruct (split_first name) as [f r]; cbn [fst] in E; by rewrite E.
Qed.

Lemma next_field_single obj name st :
  name ≠ [] → single name obj = true →
  next_field (mkAt obj []) nowhere (mkField name None false) st =
    Ok (mkField [] (Some (default BNull (field_value name obj))) false,
        match field_value name obj with Some _ => st | None => mkFound (arrElt st) (mayExpand st) (numNotFound st + 1) end).
Proof.
  intros N S. unfold next_field. cbn [fieldName fixed]. destruct name as [|c name]; [done|]. rewrite extract_top. cbn [result_bind contents].
  unfold single, field_value in *. pose proof (dotted_or_array_rest (length (c :: name)) [] (c :: name) obj N) as [_ R].
  change (dotted_or_array (length (c :: name)) [] (c :: name) obj) with (getFieldDottedOrArray (c :: name) (mkAt obj [])) in R.
  assert (Fields.getField (split_first (c :: name)).1 obj = None → (getFieldDottedOrArray (c :: name) (mkAt obj [])).1 = None) as G.
  { unfold getFieldDottedOrArray. cbn [dotted_or_array length contents place_of]. destruct (split_first (c :: name)) as [f r]. cbn [fst]. intros E. by rewrite E. }
  destruct (getFieldDottedOrArray (c :: name) (mkAt obj [])) as [[[e p]|] r]; cbn in *; [|done].
  apply negb_true_iff in S. rewrite S, (R e p eq_refl S). destruct (Fields.getField _ obj); [done|]. by specialize (G eq_refl).
Qed.

Definition missing (obj : bobj) (n : list Z) : Prop := field_value n obj = None.
#[local] Instance missing_dec obj n : Decision (missing obj n).
Proof. unfold missing. destruct (field_value n obj); [by right|by left]. Defined.

Lemma fields_loop_single obj names st :
  Forall (λ n, n ≠ [] ∧ single n obj = true) names →
  fields_loop (mkAt obj []) nowhere (start names) st =
    Ok (map (λ n, mkField [] (Some (default BNull (field_value n obj))) false) names,
        mkFound (arrElt st) (mayExpand st) (numNotFound st + Z.of_nat (length (filter (missing obj) names)))).
Proof.
  intros F. revert st. induction F as [|n names [N S] F IH]; intros st; cbn [start map fields_loop].
  { rewrite Z.add_0_r. by destruct st. }
  rewrite next_field_single by done. cbn [result_bind fst snd]. fold (start names). rewrite IH. cbn [result_bind fst snd]. do 2 f_equal.
  rewrite filter_cons. destruct (decide (missing obj n)) as [M|M]; unfold missing in M; destruct (field_value n obj) eqn:E; try congruence; cbn [arrElt mayExpand numNotFound length].
  f_equal. lia.
Qed.

Lemma getKeys_single names sparse obj :
  names ≠ [] → Forall (λ n, n ≠ [] ∧ single n obj = true) names →
  getKeys names sparse obj =
    Ok (if sparse && bool_decide (Forall (missing obj) names) then [] else [map (λ n, ([], default BNull (field_value n obj))) names]).
Proof.
  intros Ne F. unfold getKeys, key_fuel. cbn [_getKeys]. rewrite fields_loop_single by done. cbn [result_bind arrElt numNotFound].
  rewrite length_map, Z.add_0_l.
  assert ((Z.of_nat (length (filter (missing obj) names)) =? Z.of_nat (length names)) = bool_decide (Forall (missing obj) names)) as ->.
  { apply Bool.eq_iff_eq_true. rewrite Z.eqb_eq, bool_decide_eq_true, Nat2Z.inj_iff. split.
    - clear. induction names as [|n names IH]; [done|]. rewrite filter_cons. pose proof (length_filter (missing obj) names).
      destruct (decide _); cbn; intros E; [constructor; [done|apply IH; lia]|lia].
    - clear. induction 1 as [|n names M F IH]; [done|]. rewrite filter_cons, decide_True by done. cbn. lia. }
  destruct (sparse && _) eqn:E; [by destruct sparse|].
  assert (∀ l, values (map (λ n, mkField [] (Some (default BNull (field_value n obj))) false) l) = Ok (map (λ n, ([], default BNull (field_value n obj))) l)) as ->.
  { induction l as [|n l IH]; [done|]. cbn [map values fixed]. by rewrite IH. }
  cbn [result_bind]. done.
Qed.

(** C19: A document in which no field of the index leads to an array has exactly one key, with the values of
    its fields and null for the missing ones; in a sparse index none if all are missing. *)
Theorem keygen_single names sparse obj :
  names ≠ [] → Forall (λ n, n ≠ [] ∧ single n obj = true) names →
  getKeys names sparse obj =
    Ok (if sparse && bool_decide (Forall (missing obj) names) then [] else [map (λ n, ([], default BNull (field_value n obj))) names]).
Proof. apply getKeys_single. Qed.

Lemma foldl_insert_nonempty (a : bobj) keys :
  a ≠ [] → foldl (λ keys (m : elem), insert_key [([], m.2)] keys) keys a ≠ [].
Proof.
  intros N. destruct a as [|m a]; [done|]. cbn [foldl]. pose proof (insert_key_nonempty [([], m.2)] keys) as I. revert I. generalize (insert_key [([], m.2)] keys).
  induction a as [|m' a IH]; intros ks I; cbn [foldl]; [done|]. apply IH; [done|]. apply insert_key_nonempty.
Qed.

(** A field that leads to an array and ends there gives one key for each distinct member, and the key
    [undefined] for an empty array. *)
Theorem keygen_array name sparse obj e p a :
  name ≠ [] → getFieldDottedOrArray name (mkAt obj []) = (Some (e, p), []) → e.2 = BArray a →
  getKeys [name] sparse obj =
    Ok (match a with
        | [] => [[([], BUndefined)]]
        | _ => foldl (λ keys m, insert_key [([], m.2)] keys) [] a
        end).
Proof.
  intros N G A. destruct name as [|c name]; [done|]. unfold getKeys, key_fuel. cbn [_getKeys start map fields_loop].
  unfold next_field. cbn [fieldName fixed]. rewrite extract_top, G. cbn [fst snd result_bind contents].
  assert (Fields.getField (split_first (c :: name)).1 obj ≠ None) as Gf.
  { intros E. unfold getFieldDottedOrArray in G. cbn [dotted_or_array length contents place_of] in G. destruct (split_first (c :: name)) as [f r]. cbn [fst] in E. by rewrite E in G. }
  destruct (Fields.getField (split_first (c :: name)).1 obj); [|done]. rewrite A. cbn [is_array arrElt mayExpand numNotFound result_bind fst snd].
  rewrite A. cbn [map fix_terminal in_arrIdxs fieldName andb].
  assert (∀ v o keys array n, _getKeys (S n) [mkField [] (Some v) false] o sparse keys 0 array = Ok (insert_key [([], v)] keys)) as Leaf.
  { intros. cbn. rewrite andb_false_r. done. }
  cbn [sum_list_with start fieldName length map]. rewrite Nat.add_succ_l.
  destruct a as [|m a]; [by rewrite Leaf|].
  assert (∀ (l : bobj) keys i, each (λ i arrEntry keys, _getKeys (S (length name + 0)) [mkField [] (Some arrEntry) false]
    (match arrEntry with BObject o => mkAt o (p ++ [i]) | _ => nowhere end) sparse keys 0 (mkAt (m :: a) p)) i (map snd l) keys = Ok (foldl (λ keys m, insert_key [([], m.2)] keys) keys l)) as Each.
  { induction l as [|x l IH]; intros keys i; cbn [map each foldl]; [done|]. rewrite Leaf. cbn [result_bind]. apply IH. }
  change (length (c :: name) + 0)%nat with (S (length name + 0)). rewrite Each. cbn [result_bind].
  pose proof (foldl_insert_nonempty (m :: a) [] ltac:(done)) as Ne. by destruct (foldl _ [] (m :: a)).
Qed.

(** ** Examples *)

Module KeyGenExample.

(** [{ a: 1, b: { c: [ 2, 3 ] } }] *)
Definition doc : bobj := [(bytes "a", BInt 1); (bytes "b", BObject [(bytes "c", BArray [(bytes "0", BInt 2); (bytes "1", BInt 3)])])].


Lemma keygen_single_witness :
  getKeys [bytes "a"; bytes "x"] true doc = Ok [[([], BInt 1); ([], BNull)]].
Proof. rewrite (keygen_single [bytes "a"; bytes "x"] true doc); [vm_compute; reflexivity|discriminate|repeat constructor; discriminate]. Defined.

Lemma keygen_array_witness :
  getKeys [bytes "b.c"] false doc = Ok [[([], BInt 2)]; [([], BInt 3)]].
Proof.
  rewrite (keygen_array (bytes "b.c") false doc (bytes "c", BArray [(bytes "0", BInt 2); (bytes "1", BInt 3)]) [1%nat; 0%nat]
    [(bytes "0", BInt 2); (bytes "1", BInt 3)]); [vm_compute; reflexivity|discriminate|reflexivity|reflexivity].
Defined.

(** [{ a: [ 1 ], b: [ 2 ] }] in an index on a and b *)
Example keygen_parallel :
  getKeys [bytes "a"; bytes "b"] false [(bytes "a", BArray [(bytes "0", BInt 1)]); (bytes "b", BArray [(bytes "0", BInt 2)])] = Err (KeyAssert ParallelArrays).
Proof. reflexivity. Qed.

(** [{ a: [ { b: [ 1, 2 ] } ] }] in an index on a.0.b and a.b: the array b of the first member is reached
    through the array and through its member, and it is one element. *)
Example keygen_same_element :
  getKeys [bytes "a.0.b"; bytes "a.b"] false
    [(bytes "a", BArray [(bytes "0", BObject [(bytes "b", BArray [(bytes "0", BInt 1); (bytes "1", BInt 2)])])])] =
    Ok [[([], BInt 1); ([], BInt 1)]; [([], BInt 2); ([], BInt 2)]].
Proof. vm_compute. reflexivity. Qed.

(** With a second member they are two arrays. *)
Example keygen_other_element :
  getKeys [bytes "a.0.b"; bytes "a.b"] false
    [(bytes "a", BArray [(bytes "0", BObject [(bytes "b", BArray [(bytes "0", BInt 1)])]);
                         (bytes "1", BObject [(bytes "b", BArray [(bytes "0", BInt 1)])])])] =
    Err (KeyAssert ParallelArrays).
Proof. vm_compute. reflexivity. Qed.

End KeyGenExample.
