(* ===== verification/CoveredMatcher.v ===== *)
(** * Matching on index keys

    Models the matcher for the keys of an index that [Matcher( docMatcher, key )] derives from the
    matcher of a query, [Matcher::keyMatch] (db/matcher.cpp), [CoveredIndexMatcher]
    (db/matcher_covered.cpp), which decides from the key of a row where it can and loads the document
    only where it must, and [FieldRangeVector::matches] (db/queryutil.cpp), by which a clause of an [$or]
    leaves out the documents of the clauses before it.

    [MatchDetails] is left out: the matcher is called without details.

    Theorem: for a document that has a single key, matching by its key, and by the document where the
    key is not enough, gives the answer of the matcher of the query. *)

From S2P Require Import Prelude StdContainers Bson BsonOrder BsonObj FieldElement FieldRange FieldRangeSet FieldRangeVector QueryOps Matcher KeyGenerator.
Import MatchType.
#[local] Open Scope Z_scope.

(** Elements as the bounds of ranges *)
#[global] Instance elem_element : FieldElement elem := {|
  field_cmp := λ a b, Element.woCompare a b false;
  woCompareNamed a b := Element.woCompare a b true;
  minKey := ([], BMinKey);
  maxKey := ([], BMaxKey)
|}.

Module Covered.

(** Which element matchers are tried on an index key *)
Definition key_basic (key : bobj) (em : ElementMatcher Matcher) : bool :=
  let op := _compareOp em in
  Fields.hasField (_toMatch em).1 key &&
  (if (op =? opSIZE) || (op =? opALL) || (op =? NE) || (op =? NIN) || (op =? opEXISTS) || (op =? opTYPE) || (op =? opELEM_MATCH) then false
   else if op =? opIN then negb (_isNot em) && negb (existsb (λ e : elem, is_array e.2) (_myset em))
   else negb (_isNot em) && negb (is_array (_toMatch em).2)).

Definition key_regex (key : bobj) (rm : RegexMatcher) : bool := negb (rm_isNot rm) && Fields.hasField (rm_fieldName rm) key.

(** [Matcher( docMatcher, key )] *)
Fixpoint key_matcher (key : bobj) (docMatcher : Matcher) : Matcher :=
  mkMatcher key (List.filter (key_basic key) (_basics docMatcher)) false false false false
    (List.filter (key_regex key) (_regexs docMatcher)) None
    (map (key_matcher key) (_andMatchers docMatcher)) (map (key_matcher key) (_orMatchers docMatcher)) [].

Definition same_size {A B} (l : list A) (l' : list B) : bool := (length l =? length l')%nat.

(** [keyMatch( docMatcher )] *)
Fixpoint keyMatch (this docMatcher : Matcher) : bool :=
  let both := fix both (l l' : list Matcher) : bool :=
    match l, l' with
    | i :: l, j :: l' => if keyMatch i j then both l l' else false
    | _, _ => true
    end in
  if _all docMatcher || _haveSize docMatcher || _hasArray docMatcher || _haveNeg docMatcher then false
  else if negb (same_size (_basics this) (_basics docMatcher) && same_size (_regexs this) (_regexs docMatcher)
    && match _where docMatcher with None => true | Some _ => false end) then false
  else if negb (same_size (_andMatchers this) (_andMatchers docMatcher)) then false
  else if negb (same_size (_orMatchers this) (_orMatchers docMatcher)) then false
  else if match _norMatchers docMatcher with [] => false | _ => true end then false
  else if negb (both (_andMatchers this) (_andMatchers docMatcher)) then false
  else if negb (both (_orMatchers this) (_orMatchers docMatcher)) then false
  else true.

(** [FieldRangeVector::matches( obj )]; [None]: a failed assertion. *)
Definition vector_matches (v : FieldRangeVector elem) (obj : bobj) : option bool :=
  match KeyGen.getKeys (map fst (_keyPattern v)) false obj with
  | Ok keys => Match.any (λ k : bobj, Vector.matchesKey v k) keys
  | Err _ => None
  end.

Record CoveredIndexMatcher := mkCovered {
  _docMatcher : Matcher; _keyMatcher : Matcher; _orDedupConstraints : list (FieldRangeVector elem); _needRecord : bool
}.

(** The constructors, with [init()] *)
Definition init (docMatcher : Matcher) (indexKeyPattern : bobj) (constraints : list (FieldRangeVector elem)) : CoveredIndexMatcher :=
  let keyMatcher := key_matcher indexKeyPattern docMatcher in
  mkCovered docMatcher keyMatcher constraints
    (negb (keyMatch keyMatcher docMatcher) || match constraints with [] => false | _ => true end).

Definition make (jsobj indexKeyPattern : bobj) : result match_error CoveredIndexMatcher :=
  docMatcher <-? Parse.make jsobj ;; Ok (init docMatcher indexKeyPattern []).

Definition nextClauseMatcher (prevClauseMatcher : CoveredIndexMatcher) (prevClauseFrv : option (FieldRangeVector elem))
  (nextClauseIndexKeyPattern : bobj) : CoveredIndexMatcher :=
  init (_docMatcher prevClauseMatcher) nextClauseIndexKeyPattern
    (_orDedupConstraints prevClauseMatcher ++ match prevClauseFrv with Some frv => [frv] | None => [] end).

Definition isOrClauseDup (cm : CoveredIndexMatcher) (obj : bobj) : option bool :=
  Match.any (λ v, vector_matches v obj) (_orDedupConstraints cm).

Section matches_.
Context (PartialMatch : list Z → RE_Options → list Z → bool) (where_exec : bval → bobj → option bool).

(** [matchesCurrent( cursor )], by the key pattern of the cursor, [isMultiKey()], [currKey()] and [current()] *)
Definition matchesCurrent (cm : CoveredIndexMatcher) (indexKeyPattern : bobj) (isMultiKey : bool) (key obj : bobj) : option bool :=
  let keyUsable := match indexKeyPattern with [] => false | _ => negb isMultiKey end in
  let by_document :=
    b ← Match.matches PartialMatch where_exec (_docMatcher cm) obj;
    if (b : bool) then d ← isOrClauseDup cm obj; Some (negb d) else Some false in
  if keyUsable then
    b ← Match.matches PartialMatch where_exec (_keyMatcher cm) key;
    if negb b then Some false
    else if negb (_needRecord cm) then Some true
    else by_document
  else by_document.
End matches_.

End Covered.

(** ** The value a name leads to *)

(** A name without an empty last part *)
Definition good_name (name : list Z) : bool := match name with [] => false | _ => negb (List.last name 0 =? Fields.dot) end.

Lemma split_dot_good name l r : Fields.split_dot name = Some (l, r) → good_name name = true → good_name r = true.
Proof.
  intros S G. assert (name = l ++ Fields.dot :: r) as ->.
  { clear G. revert l S. induction name as [|c n IH]; intros l; cbn; [done|]. destruct (Z.eqb_spec c Fields.dot); [intros E; inv E; done|].
    destruct (Fields.split_dot n) as [[l' r']|]; [|done]. cbn. intros E. inv E. cbn. f_equal. by apply IH. }
  unfold good_name in *. destruct r as [|c r].
  - replace (List.last (l ++ [Fields.dot]) 0) with Fields.dot in G by (by rewrite List.last_last). by destruct l.
  - replace (List.last (l ++ Fields.dot :: c :: r) 0) with (List.last (c :: r) 0) in G; [by destruct l|].
    clear. induction l as [|x l IH]; [done|]. cbn [app]. rewrite IH. by destruct l.
Qed.

(** No field name of a document has a dot. *)
Definition undotted (v : bval) : Prop :=
  match v with BObject o | BArray o => Forall (λ e : elem, Fields.split_dot e.1 = None) o | _ => True end.
Definition plain_doc (obj : bobj) : Prop := hereditary undotted (BObject obj).

Lemma plain_doc_sub obj n v o : plain_doc obj → Fields.getField n obj = Some (n, v) → embedded v = Some o → plain_doc o.
Proof.
  intros [_ H] G E. assert (hereditary undotted v) as Hv.
  { apply fields_forall_Forall in H. induction obj as [|e obj IH]; [done|]. cbn in G. inv H. case_bool_decide; [by inv G|by apply IH]. }
  unfold plain_doc. destruct v; inv E; destruct Hv as [U D]; by split.
Qed.

Lemma getField_name n obj e : Fields.getField n obj = Some e → e.1 = n.
Proof. induction obj as [|x obj IH]; cbn; [done|]. case_bool_decide; [by intros [= ->]|done]. Qed.

Lemma plain_getField n obj l r : plain_doc obj → Fields.split_dot n = Some (l, r) → Fields.getField n obj = None.
Proof.
  intros [U _] S. cbn in U. destruct (Fields.getField n obj) as [e|] eqn:E; [|done]. exfalso.
  pose proof (getField_name _ _ _ E) as <-. induction obj as [|x obj IH]; [done|]. cbn in E. inv U.
  case_bool_decide; [inv E; congruence|]. by apply IH.
Qed.

(** The element [getFieldDottedOrArray] finds, without its place *)
Fixpoint find_elem (fuel : nat) (name : list Z) (o : bobj) : option elem :=
  match Fields.split_dot name with
  | None => Fields.getField name o
  | Some (first, rest) =>
      match Fields.getField first o, fuel with
      | Some (n, BArray a), _ => Some (n, BArray a)
      | Some (_, BObject x), S fuel => find_elem fuel rest x
      | _, _ => None
      end
  end.

Lemma find_elem_eq fuel path name o :
  good_name name = true → fst <$> (dotted_or_array fuel path name o).1 = find_elem fuel name o.
Proof.
  revert path name o. induction fuel as [|fuel IH]; intros path name o G; cbn [dotted_or_array find_elem]; unfold split_first;
    (destruct (Fields.split_dot name) as [[l r]|] eqn:S;
      [pose proof (split_dot_good _ _ _ S G) as Gr; destruct (Fields.getField l o) as [[n v]|]; [|done]; cbn [snd];
        assert (match r with [] => true | _ => false end = false) as -> by (by destruct r)
      |destruct (Fields.getField name o) as [[n v]|]; [|done]; cbn [snd]; by rewrite orb_true_r]).
  - by destruct v.
  - destruct v; cbn [is_array orb]; try done. by apply IH.
Qed.

Section Paths.
Context (PartialMatch : list Z → RE_Options → list Z → bool).

Lemma dotted_find {M} (em : ElementMatcher M) sub op fuel f name obj :
  good_name name = true → (length name < f)%nat → (length name ≤ fuel)%nat →
  match find_elem fuel name obj with
  | Some e => is_array e.2 = true ∨ Match.dotted PartialMatch em sub [] f op name obj false = Match.match_element PartialMatch em sub [] op (Some e)
  | None => Match.dotted PartialMatch em sub [] f op name obj false = Some 0 ∨
      Match.dotted PartialMatch em sub [] f op name obj false = Match.match_element PartialMatch em sub [] op None
  end.
Proof.
  revert f name obj. induction fuel as [|fuel IH]; intros f name obj G Lf Lu; [destruct name; [done|cbn in Lu; lia]|]. destruct f as [|f]; [lia|].
  cbn [find_elem Match.dotted Match.indexed]. destruct (Fields.split_dot name) as [[l r]|] eqn:S.
  - pose proof (split_dot_length _ _ _ S) as L. apply split_dot_good in S; [|done].
    destruct (Fields.getField l obj) as [[n v]|]; [|by left]. destruct v; try (by left). apply IH; [done|lia|lia].
  - destruct (Fields.getField name obj) as [e|]; by right.
Qed.

Lemma fields_dotted_find fuel f name obj :
  good_name name = true → plain_doc obj → (length name ≤ f)%nat → (length name ≤ fuel)%nat →
  match find_elem fuel name obj with
  | Some e => is_array e.2 = true ∨ fields_dotted f name obj = [e]
  | None => fields_dotted f name obj = []
  end.
Proof.
  revert f name obj. induction fuel as [|fuel IH]; intros f name obj G P Lf Lu; [destruct name; [done|cbn in Lu; lia]|]. destruct f as [|f]; [destruct name; [done|cbn in Lf; lia]|].
  cbn [find_elem fields_dotted]. destruct (Fields.split_dot name) as [[l r]|] eqn:S.
  - rewrite (plain_getField _ _ _ _ P S). pose proof (split_dot_length _ _ _ S) as L. apply split_dot_good in S; [|done].
    destruct (Fields.getField l obj) as [[n v]|] eqn:Gl; [|done]. pose proof (getField_name _ _ _ Gl) as N. cbn in N. subst n.
    destruct v; try done; [|by left]. apply IH; [done|by eapply plain_doc_sub|lia|lia].
  - destruct (Fields.getField name obj) as [e|]; [|done]. destruct e as [n v]. cbn [snd]. destruct v; try (by right). by left.
Qed.

Lemma getFieldsDotted_single name obj e : fields_dotted (length name) name obj = e → (length e ≤ 1)%nat → getFieldsDotted name obj = e.
Proof. unfold getFieldsDotted. intros ->. destruct e as [|x [|]]; cbn; [done|done|lia]. Qed.

(** *** Values are matched without their names *)

Lemma set_count_name n n' v s : set_count (n, v) s = set_count (n', v) s.
Proof. unfold set_count. induction s as [|x s IH]; [done|]. cbn [sl_find id]. unfold equivb, Element.lt_op. cbn [snd]. by destruct (negb _ && negb _). Qed.

Lemma valuesMatch_name {M} (em : ElementMatcher M) n n' v op :
  Match.valuesMatch PartialMatch em (Some (n, v)) op = Match.valuesMatch PartialMatch em (Some (n', v)) op.
Proof. unfold Match.valuesMatch, Match.value_of, Match.type_of. cbn [snd]. by rewrite (set_count_name n n'). Qed.

Lemma match_element_key {M} (em : ElementMatcher M) sub key n v op :
  is_array v = false → Match.match_element PartialMatch em sub key op (Some ([], v)) = Match.match_element PartialMatch em sub [] op (Some (n, v)).
Proof. intros A. unfold Match.match_element. destruct v; try discriminate A; by rewrite (valuesMatch_name em [] n). Qed.

End Paths.

(** *** The key of a document *)

Definition index_key (key obj : bobj) : bobj := map (λ n, ([], default BNull (field_value n obj))) (map fst key).

Lemma index_key_lookup name key obj :
  Fields.hasField name key = true →
  Fields.getFieldUsingIndexNames name key (index_key key obj) = Some ([], default BNull (field_value name obj)).
Proof.
  unfold Fields.hasField, Fields.getFieldUsingIndexNames, index_key. induction key as [|[n v] key IH]; [done|].
  cbn [Fields.getField Fields.index_of map fst]. case_bool_decide as E; [subst; by rewrite bool_decide_eq_true_2|].
  rewrite bool_decide_eq_false_2 by (intros ->; by apply E). intros H. specialize (IH H).
  destruct (Fields.index_of name key) as [j|]; [|done]. cbn in *. done.
Qed.

Lemma field_value_find name obj :
  good_name name = true → field_value name obj = snd <$> find_elem (length name) name obj.
Proof.
  intros G. unfold field_value, getFieldDottedOrArray. rewrite <- (find_elem_eq _ [] _ _ G). by destruct (dotted_or_array _ _ _ _) as [[[e p]|] r].
Qed.

(** ** Element matchers on keys *)

Definition is_undefined (v : bval) : bool := match v with BUndefined => true | _ => false end.

(** Operands for which a missing field and the null in its key match alike *)
Definition key_operand (em : ElementMatcher Matcher) : bool :=
  let op := _compareOp em in
  let v := (_toMatch em).2 in
  if op =? opIN then match v with BObject _ => true | _ => false end && forallb (λ e : elem, negb (is_undefined e.2)) (_myset em)
  else if op =? opMOD then is_array v
  else if (op =? LT) || (op =? GT) then negb (is_undefined v) && negb (Match.is_null v)
  else if (op =? Equality) || (op =? LTE) || (op =? GTE) then negb (is_undefined v)
  else true.

(** The operators of element matchers *)
Definition basic_op (op : Z) : bool :=
  existsb (Z.eqb op) [Equality; LT; LTE; GT; GTE; opIN; NE; opSIZE; opALL; NIN; opEXISTS; opMOD; opTYPE; opELEM_MATCH].

Definition key_op (op : Z) : bool := existsb (Z.eqb op) [Equality; LT; LTE; GT; GTE; opIN].

Lemma key_basic_op key em :
  basic_op (_compareOp em) = true → key_operand em = true → Covered.key_basic key em = true →
  key_op (_compareOp em) = true ∧ Fields.hasField (_toMatch em).1 key = true ∧ _isNot em = false.
Proof.
  unfold basic_op, key_operand, Covered.key_basic, key_op. intros B O K. destruct (Fields.hasField _ _); [|done]. cbn [andb] in K.
  cbn [existsb] in B. rewrite !orb_true_iff, !Z.eqb_eq in B. decompose [or] B; clear B; try discriminate;
    match goal with E : _compareOp em = _ |- _ => rewrite E in * end; cbn in O, K; try discriminate K; try (by destruct (_isNot em)).
  rewrite O, andb_false_r in K. done.
Qed.

Section Basics.
Context (PartialMatch : list Z → RE_Options → list Z → bool).
Context (em : ElementMatcher Matcher) (Op : key_op (_compareOp em) = true) (Operand : key_operand em = true) (Pos : _isNot em = false).

Lemma set_count_undefined s : forallb (λ e : elem, negb (is_undefined e.2)) s = true → set_count ([], BUndefined) s = false.
Proof.
  unfold set_count. induction s as [|[n v] s IH]; cbn [forallb sl_find snd]; [done|]. intros [U F]%andb_true_iff.
  assert (equivb Element.lt_op (id (n, v)) ([], BUndefined) = false) as -> by (by destruct v). by apply IH.
Qed.

Ltac key_ops :=
  unfold key_op in Op; cbn [existsb] in Op; rewrite !orb_true_iff, !Z.eqb_eq in Op; decompose [or] Op; clear Op; try discriminate.

Lemma valuesMatch_missing : Match.valuesMatch PartialMatch em None (_compareOp em) = Some false.
Proof.
  unfold key_operand in Operand. unfold Match.valuesMatch. cbn [Match.value_of Match.type_of].
  key_ops; match goal with H : _compareOp em = _ |- _ => rewrite H in * end; cbn in Operand |- *.
  1-5: destruct (_toMatch em) as [rn rv]; cbn [snd] in *; destruct rv; try discriminate Operand; reflexivity.
  apply andb_true_iff in Operand as [O1 O2]. rewrite (set_count_undefined _ O2). destruct (existsb _ (_myregex em)) eqn:E.
  { exfalso. apply existsb_exists in E as (rm & _ & R). discriminate R. }
  by destruct ((_toMatch em).2).
Qed.

Lemma valuesMatch_null :
  Match.valuesMatch PartialMatch em (Some ([], BNull)) (_compareOp em) =
    Some (Match.is_null (_toMatch em).2 || ((_compareOp em =? opIN) && set_count staticNull (_myset em))).
Proof.
  unfold key_operand in Operand. unfold Match.valuesMatch. cbn [Match.value_of Match.type_of].
  key_ops; match goal with H : _compareOp em = _ |- _ => rewrite H in * end; cbn in Operand |- *.
  1-5: destruct (_toMatch em) as [rn rv]; cbn [snd] in *; destruct rv; try discriminate Operand; reflexivity.
  apply andb_true_iff in Operand as [O1 O2]. destruct (existsb _ (_myregex em)) eqn:E.
  { exfalso. apply existsb_exists in E as (rm & _ & R). discriminate R. }
  change ([], BNull) with staticNull. destruct ((_toMatch em).2); try discriminate O1. by destruct (set_count staticNull _).
Qed.

Lemma basic_key sub alls key obj :
  Fields.hasField (_toMatch em).1 key = true → good_name (_toMatch em).1 = true → single (_toMatch em).1 obj = true →
  Match.basic_matches PartialMatch em sub alls key (index_key key obj) = Match.basic_matches PartialMatch em sub alls [] obj.
Proof.
  intros H G S. unfold Match.basic_matches, Match.matchesDotted, Match.negativeCompareOp.
  assert ((_compareOp em =? opALL) = false ∧ (_compareOp em =? NE) = false ∧ (_compareOp em =? NIN) = false ∧ (_compareOp em =? opEXISTS) = false
    ∧ (_compareOp em =? opELEM_MATCH) = false) as (NotAll & NotNE & NotNIN & NotExists & NotElem).
  { clear Operand. key_ops; match goal with E : _compareOp em = _ |- _ => rewrite E end; done. }
  rewrite NotAll, NotNE, NotNIN. cbn [orb]. unfold single in S. rewrite field_value_find in S by done. set (name := (_toMatch em).1) in *.
  pose proof (dotted_find PartialMatch em sub (_compareOp em) (length name) (Match.dotted_fuel name) name obj G) as D.
  unfold Match.dotted_fuel in *. rewrite Nat.add_comm in *. cbn [Nat.add] in *. specialize (D ltac:(lia) ltac:(lia)).
  set (doc := Match.dotted PartialMatch em sub [] _ _ _ _ _) in *. clearbody doc.
  cbn [Match.dotted]. assert (Match.indexed key = true) as -> by (by destruct key). rewrite index_key_lookup by done. cbn [mbind option_bind].
  rewrite field_value_find by done. destruct (find_elem _ name obj) as [[n v]|]; cbn [fmap option_fmap option_map default snd] in *.
  - apply negb_true_iff in S. destruct D as [D|D]; [congruence|]. rewrite D. by rewrite (match_element_key PartialMatch em sub key n).
  - unfold Match.match_element in *. rewrite NotExists, NotElem in *. cbn [negb orb andb] in *. rewrite valuesMatch_missing in D. rewrite valuesMatch_null.
    cbn [mbind option_bind] in *. assert (doc = Some 0) as -> by (by destruct D).
    transitivity (Some (Match.basic_ok em (if Match.is_null (_toMatch em).2 || ((_compareOp em =? opIN) && set_count staticNull (_myset em)) then 1 else -1))); [by destruct (_ || _)|].
    cbn [mbind option_bind]. f_equal. unfold Match.basic_ok, Match.negativeCompareOp. rewrite NotExists, NotNE, NotNIN, Pos. cbn [andb orb Z.eqb]. rewrite orb_false_r.
    assert (Match.is_null (_toMatch em).2 = match (_toMatch em).2 with BNull | BUndefined => true | _ => false end) as <-.
    { unfold key_operand in Operand. clear -Op Operand.
      key_ops; match goal with E : _compareOp em = _ |- _ => rewrite E in * end; cbn in Operand; by destruct ((_toMatch em).2). }
    by destruct (_ || _).
Qed.

End Basics.

(** ** The matcher on keys *)

(** Every element matcher in a matcher, and in its clauses of [$and] and [$or] *)
Fixpoint keyable (m : Matcher) : bool :=
  forallb (λ em, basic_op (_compareOp em) && key_operand em) (_basics m) && match _constrainIndexKey m with [] => true | _ => false end
  && forallb keyable (_andMatchers m) && forallb keyable (_orMatchers m).

Lemma keyable_eq m : keyable m =
  forallb (λ em, basic_op (_compareOp em) && key_operand em) (_basics m) && match _constrainIndexKey m with [] => true | _ => false end
  && forallb keyable (_andMatchers m) && forallb keyable (_orMatchers m).
Proof. by destruct m. Qed.

Lemma every_true {A} (f : A → option bool) l : Match.every f l = Some true ↔ Forall (λ a, f a = Some true) l.
Proof.
  unfold Match.every. induction l as [|a l IH]; cbn [Match.any]; [by rewrite Forall_nil|]. rewrite Forall_cons, <- IH.
  destruct (f a) as [[]|]; cbn; naive_solver.
Qed.

Lemma any_true {A} (f : A → option bool) l : Match.any f l = Some true → Exists (λ a, f a = Some true) l.
Proof.
  induction l as [|a l IH]; cbn [Match.any]; [done|]. destruct (f a) as [[]|] eqn:E; cbn; [by left|by right; apply IH|done].
Qed.

Lemma any_intro {A} (f : A → option bool) l : Forall (λ a, is_Some (f a)) l → Exists (λ a, f a = Some true) l → Match.any f l = Some true.
Proof.
  intros F E. destruct (any_total f l F) as [[] Hb]; [done|]. exfalso. revert Hb. induction E as [a l E|a l E IH]; cbn [Match.any].
  - by rewrite E.
  - inv F. destruct (f a) as [[]|]; cbn; [done| |done]. by apply IH.
Qed.

Lemma any_ext {A B} (f : A → option bool) (g : B → option bool) h l : Forall (λ b, f (h b) = g b) l → Match.any f (map h l) = Match.any g l.
Proof. induction 1 as [|b l E F IH]; [done|]. cbn [map Match.any]. rewrite E. destruct (g b) as [[]|]; cbn; done. Qed.

Lemma every_ext {A B} (f : A → option bool) (g : B → option bool) h l : Forall (λ b, f (h b) = g b) l → Match.every f (map h l) = Match.every g l.
Proof. intros F. unfold Match.every. erewrite any_ext; [done|]. eapply Forall_impl; [exact F|]. cbn. by intros b ->. Qed.

Lemma or_true (f : Matcher → option bool) l :
  l = [] ∨ Match.any f l = Some true → match l with [] => Some true | x :: l0 => Match.any f (x :: l0) end = Some true.
Proof. by destruct l; [|intros [|]]. Qed.

Section Keys.
Context (PartialMatch : list Z → RE_Options → list Z → bool) (where_exec : bval → bobj → option bool).
#[local] Abbreviation matches := (Match.matches PartialMatch where_exec).
Context (key obj : bobj) (Key : key ≠ []) (Plain : plain_doc obj).
Context (Names : Forall (λ e : elem, good_name e.1 = true ∧ single e.1 obj = true) key).
#[local] Abbreviation ikey := (index_key key obj).
#[local] Abbreviation basic m em := (Match.basic_matches PartialMatch em
      (match _subMatcher em with Some sm => Some (λ o, matches sm o) | None => None end)
      (map (λ am o, matches am o) (_allMatchers em)) (_constrainIndexKey m)).

Lemma hasField_ok n : Fields.hasField n key = true → good_name n = true ∧ single n obj = true.
Proof.
  unfold Fields.hasField. revert Names. clear. induction key as [|e k IH]; cbn [Fields.getField]; [done|]. intros [[G S] F]%Forall_cons.
  case_bool_decide; [by subst|by apply IH].
Qed.

Lemma key_matcher_eq m : Covered.key_matcher key m =
  mkMatcher key (List.filter (Covered.key_basic key) (_basics m)) false false false false
    (List.filter (Covered.key_regex key) (_regexs m)) None
    (map (Covered.key_matcher key) (_andMatchers m)) (map (Covered.key_matcher key) (_orMatchers m)) [].
Proof. by destruct m. Qed.

(** An element matcher of the matcher on keys answers as on the document. *)
Lemma basic_key_same m em :
  keyable m = true → em ∈ List.filter (Covered.key_basic key) (_basics m) →
  basic (Covered.key_matcher key m) em ikey = basic m em obj ∧ is_Some (basic m em obj).
Proof.
  rewrite keyable_eq, !andb_true_iff, forallb_forall. intros (((B & K) & _) & _) I. apply list_elem_of_In, filter_In in I as [I Kb].
  specialize (B em I). apply andb_true_iff in B as [B1 B2]. destruct (key_basic_op key em B1 B2 Kb) as (Op & Hf & Pos).
  destruct (hasField_ok _ Hf) as [G S]. destruct (_constrainIndexKey m); [|done]. rewrite key_matcher_eq. cbn [_constrainIndexKey].
  split; [by apply basic_key|].
  unfold Match.basic_matches, Match.matchesDotted, Match.negativeCompareOp. unfold key_op in Op. cbn [existsb] in Op. rewrite !orb_true_iff, !Z.eqb_eq in Op.
  assert (is_Some (Match.dotted PartialMatch em (match _subMatcher em with Some sm => Some (λ o, matches sm o) | None => None end) []
    (Match.dotted_fuel (_toMatch em).1) (_compareOp em) (_toMatch em).1 obj false)) as [c Hc].
  { apply dotted_total; [|unfold plain_op|unfold Match.dotted_fuel; lia]; decompose [or] Op; try discriminate;
      match goal with E : _compareOp em = _ |- _ => rewrite E end; by split_and?. }
  rewrite Hc. decompose [or] Op; try discriminate; match goal with E : _compareOp em = _ |- _ => rewrite E end; by eexists.
Qed.

Lemma regex_key rm : Covered.key_regex key rm = true → Match.regex_ok PartialMatch key ikey rm = Match.regex_ok PartialMatch [] obj rm.
Proof.
  unfold Covered.key_regex, Match.regex_ok. intros [N H]%andb_true_iff. destruct (hasField_ok _ H) as [G S].
  destruct key as [|k0 key'] eqn:Ek; [done|]. rewrite <- Ek in *. rewrite index_key_lookup by done.
  unfold single in S. rewrite field_value_find in * by done. set (name := rm_fieldName rm) in *.
  pose proof (fields_dotted_find (length name) (length name) name obj G Plain ltac:(lia) ltac:(lia)) as F.
  destruct (find_elem _ name obj) as [[n v]|]; cbn [fmap option_fmap option_map default snd] in *.
  - apply negb_true_iff in S. destruct F as [F|F]; [congruence|]. rewrite (getFieldsDotted_single _ _ _ F) by (cbn; lia).
    by destruct v.
  - by rewrite (getFieldsDotted_single _ _ _ F) by (cbn; lia).
Qed.

Lemma key_matches_total m : keyable m = true → is_Some (matches (Covered.key_matcher key m) ikey).
Proof.
  induction m as [m _ A O _] using matcher_ind'. intros K. pose proof K as K0. rewrite keyable_eq, !andb_true_iff in K. destruct K as (((_ & _) & Ka) & Ko).
  assert (∀ l, Forall (λ m, keyable m = true → is_Some (matches (Covered.key_matcher key m) ikey)) l → forallb keyable l = true →
    Forall (λ m, is_Some (matches m ikey)) (map (Covered.key_matcher key) l)) as All.
  { intros l F. induction F as [|x l Hx F IH]; cbn; [by constructor|]. rewrite andb_true_iff. intros []. constructor; auto. }
  rewrite matches_eq, key_matcher_eq. cbn [_basics _regexs _andMatchers _orMatchers _norMatchers _where _constrainIndexKey].
  match goal with |- context [Match.every ?f (List.filter _ _)] => destruct (every_total f (List.filter (Covered.key_basic key) (_basics m))) as [b ->] end.
  { apply Forall_forall. intros em I. destruct (basic_key_same m em K0 I) as [E [c Hc]]. rewrite key_matcher_eq in E. cbn [_constrainIndexKey] in E.
    rewrite E, Hc. by eexists. }
  cbn [mbind option_bind]. destruct (negb b); [by eexists|]. destruct (negb _); [by eexists|].
  destruct (every_total (λ am, matches am ikey) (map (Covered.key_matcher key) (_andMatchers m))) as [b2 ->]; [by apply All|].
  cbn [mbind option_bind]. destruct (negb b2); [by eexists|].
  assert (is_Some (match map (Covered.key_matcher key) (_orMatchers m) with [] => Some true | l => Match.any (λ om, matches om ikey) l end)) as [b3 Hb].
  { specialize (All _ O Ko). destruct (map _ _); [by eexists|]. by apply any_total. }
  rewrite Hb. cbn [mbind option_bind]. destruct (negb b3); by eexists.
Qed.

Lemma key_matches_sound m :
  keyable m = true → matches m obj = Some true → matches (Covered.key_matcher key m) ikey = Some true.
Proof.
  induction m as [m _ A O _] using matcher_ind'. intros K. pose proof K as K0. rewrite keyable_eq, !andb_true_iff in K. destruct K as (((_ & Kk) & Ka) & Ko).
  rewrite !matches_eq, key_matcher_eq. cbn [_basics _regexs _andMatchers _orMatchers _norMatchers _where _constrainIndexKey].
  destruct (Match.every _ (_basics m)) as [[]|] eqn:B; cbn [mbind option_bind negb]; [|done|done]. apply every_true in B.
  destruct (forallb _ (_regexs m)) eqn:R; cbn [negb]; [|done].
  destruct (Match.every _ (_andMatchers m)) as [[]|] eqn:An; cbn [mbind option_bind negb]; [|done|done]. apply every_true in An.
  intros Rest. assert (Match.every (λ em, Match.basic_matches PartialMatch em (match _subMatcher em with Some sm => Some (λ o, matches sm o) | None => None end)
    (map (λ am o, matches am o) (_allMatchers em)) key ikey) (List.filter (Covered.key_basic key) (_basics m)) = Some true) as ->.
  { apply every_true, Forall_forall. intros em I. destruct (basic_key_same m em K0 I) as [E _]. rewrite key_matcher_eq in E. cbn [_constrainIndexKey] in E.
    rewrite E. rewrite Forall_forall in B. apply list_elem_of_In, filter_In in I as [I _]. apply B. by apply list_elem_of_In. }
  cbn [mbind option_bind negb]. assert (forallb (Match.regex_ok PartialMatch key ikey) (List.filter (Covered.key_regex key) (_regexs m)) = true) as ->.
  { apply forallb_forall. intros rm [I Kr]%filter_In. rewrite regex_key by done. rewrite forallb_forall in R. destruct (_constrainIndexKey m); [|done]. by apply R. }
  cbn [negb]. assert (Match.every (λ am, matches am ikey) (map (Covered.key_matcher key) (_andMatchers m)) = Some true) as ->.
  { apply every_true. clear -A An Ka. induction A as [|x l Hx A IH]; cbn in *; [by constructor|]. apply andb_true_iff in Ka as []. inv An. constructor; auto. }
  cbn [mbind option_bind negb].
  assert (match map (Covered.key_matcher key) (_orMatchers m) with [] => Some true | l => Match.any (λ om, matches om ikey) l end = Some true) as ->; [|done].
  assert (_orMatchers m = [] ∨ Match.any (λ om, matches om obj) (_orMatchers m) = Some true) as [->|Or%any_true]; [|done|].
  { destruct (_orMatchers m) as [|m0 l]; [by left|]. right. cbv iota in Rest. by destruct (Match.any (λ om, matches om obj) (m0 :: l)) as [[]|]. }
  apply or_true. right. clear Rest. revert O Ko Or. generalize (_orMatchers m). intros l O Ko Or. apply any_intro.
  - apply Forall_map, Forall_forall. intros x I. apply key_matches_total. rewrite forallb_forall in Ko. apply Ko. by apply list_elem_of_In.
  - apply Exists_exists in Or as (x & I & Mx). apply Exists_exists. exists (Covered.key_matcher key x). split; [by apply list_elem_of_fmap_2|].
    rewrite Forall_forall in O. apply O; [done| |done]. rewrite forallb_forall in Ko. apply Ko. by apply list_elem_of_In.
Qed.

(** *** Where the key is enough *)

Lemma filter_all {A} (f : A → bool) l : length (List.filter f l) = length l → List.filter f l = l.
Proof.
  induction l as [|a l IH]; cbn; [done|]. pose proof (List.filter_length_le f l). destruct (f a); cbn; [|lia]. intros [= E]. by rewrite IH.
Qed.

(** The loops of [keyMatch] over the clauses *)
Definition both : list Matcher → list Matcher → bool :=
  fix both (l l' : list Matcher) : bool :=
    match l, l' with
    | i :: l, j :: l' => if Covered.keyMatch i j then both l l' else false
    | _, _ => true
    end.

Lemma both_clauses l : both (map (Covered.key_matcher key) l) l = true → Forall (λ m, Covered.keyMatch (Covered.key_matcher key m) m = true) l.
Proof. induction l as [|m l IH]; cbn; [by constructor|]. destruct (Covered.keyMatch _ _) eqn:E; [|done]. intros B. constructor; auto. Qed.

Lemma keyMatch_inv m :
  Covered.keyMatch (Covered.key_matcher key m) m = true →
  List.filter (Covered.key_basic key) (_basics m) = _basics m ∧ List.filter (Covered.key_regex key) (_regexs m) = _regexs m ∧
  _where m = None ∧ _norMatchers m = [] ∧
  Forall (λ m, Covered.keyMatch (Covered.key_matcher key m) m = true) (_andMatchers m) ∧
  Forall (λ m, Covered.keyMatch (Covered.key_matcher key m) m = true) (_orMatchers m).
Proof.
  rewrite key_matcher_eq. cbn [Covered.keyMatch _basics _regexs _andMatchers _orMatchers]. fold both. unfold Covered.same_size.
  destruct (_all m || _ || _ || _); [done|].
  destruct (Nat.eqb_spec (length (List.filter (Covered.key_basic key) (_basics m))) (length (_basics m))) as [E1|]; [|done].
  destruct (Nat.eqb_spec (length (List.filter (Covered.key_regex key) (_regexs m))) (length (_regexs m))) as [E2|]; [|done].
  destruct (_where m); [done|]. rewrite !length_map, !Nat.eqb_refl. cbn [andb negb]. destruct (_norMatchers m); [|done].
  destruct (both _ (_andMatchers m)) eqn:B1; [|done]. destruct (both _ (_orMatchers m)) eqn:B2; [|done]. intros _.
  split_and!; [by apply filter_all|by apply filter_all|done|done|by apply both_clauses|by apply both_clauses].
Qed.

Lemma key_matches_exact m :
  keyable m = true → Covered.keyMatch (Covered.key_matcher key m) m = true → matches (Covered.key_matcher key m) ikey = matches m obj.
Proof.
  induction m as [m _ A O _] using matcher_ind'. intros K. pose proof K as K0. rewrite keyable_eq, !andb_true_iff in K. destruct K as (((_ & Kk) & Ka) & Ko).
  intros (Eb & Er & Ew & En & Fa & Fo)%keyMatch_inv.
  assert (∀ l, Forall (λ m, keyable m = true → Covered.keyMatch (Covered.key_matcher key m) m = true → matches (Covered.key_matcher key m) ikey = matches m obj) l →
    forallb keyable l = true → Forall (λ m, Covered.keyMatch (Covered.key_matcher key m) m = true) l →
    Forall (λ m, matches (Covered.key_matcher key m) ikey = matches m obj) l) as All.
  { intros l F. induction F as [|x l Hx F IH]; cbn; [by constructor|]. rewrite andb_true_iff. intros [] [? ?]%Forall_cons. constructor; auto. }
  rewrite !matches_eq. rewrite (key_matcher_eq m). cbn [_basics _regexs _andMatchers _orMatchers _norMatchers _where _constrainIndexKey].
  assert (∀ em, em ∈ _basics m → basic (Covered.key_matcher key m) em ikey = basic m em obj) as Hb.
  { intros em I. apply basic_key_same; [done|by rewrite Eb]. }
  rewrite key_matcher_eq in Hb. cbn [_constrainIndexKey] in Hb. rewrite Eb, Er, Ew, En.
  rewrite <- (map_id (_basics m)). erewrite (every_ext _ _ id) by (apply Forall_forall; intros em I; by apply Hb).
  rewrite map_id. assert (forallb (Match.regex_ok PartialMatch key ikey) (_regexs m) = forallb (Match.regex_ok PartialMatch (_constrainIndexKey m) obj) (_regexs m)) as ->.
  { destruct (_constrainIndexKey m); [|done]. assert (Forall (λ rm, Covered.key_regex key rm = true) (_regexs m)) as F.
    { rewrite <- Er. apply Forall_forall. intros rm I. by apply list_elem_of_In, filter_In in I as [_ ?]. }
    clear -Key Plain Names F. induction F as [|rm l R F IH]; [done|]. cbn. by rewrite regex_key, IH. }
  rewrite (every_ext _ _ _ _ (All _ A Ka Fa)).
  assert (match map (Covered.key_matcher key) (_orMatchers m) with [] => Some true | x :: l0 => Match.any (λ om, matches om ikey) (x :: l0) end =
    match _orMatchers m with [] => Some true | x :: l0 => Match.any (λ om, matches om obj) (x :: l0) end) as ->; [|done].
  specialize (All _ O Ko Fo). destruct (_orMatchers m) as [|m0 l]; [done|]. cbv iota.
  exact (any_ext (λ om, matches om ikey) (λ om, matches om obj) (Covered.key_matcher key) (m0 :: l) All).
Qed.
End Keys.

(** C5: Matching by the key of a row, and by its document where the key is not enough, gives the answer of the
    query on the document, less the documents that an earlier clause of an [$or] has returned.  The
    scope: the document has one key in the index, no field of the key leads into an array, and no
    name in the document has a dot; the names of the index are not empty and do not end in a dot; and
    the query is [keyable]: it does not compare with undefined and has no [$lt] or [$gt] with null. *)
Theorem covered_matcher PartialMatch where_exec m pattern constraints obj sparse k b :
  keyable m = true → pattern ≠ [] → plain_doc obj →
  Forall (λ e : elem, good_name e.1 = true ∧ single e.1 obj = true) pattern →
  KeyGen.getKeys (map fst pattern) sparse obj = Ok [k] →
  (b ← Match.matches PartialMatch where_exec m obj;
   if (b : bool) then d ← Match.any (λ v, Covered.vector_matches v obj) constraints; Some (negb d) else Some false) = Some b →
  Covered.matchesCurrent PartialMatch where_exec (Covered.init m pattern constraints) pattern false k obj = Some b.
Proof.
  intros K Ne P N G. rewrite getKeys_single in G.
  2: by destruct pattern. 2: { apply Forall_map. eapply Forall_impl; [exact N|]. intros e [Gn S]. split; [|done]. by destruct e.1. }
  destruct (_ && _); [done|]. inv G. fold (index_key pattern obj).
  unfold Covered.matchesCurrent, Covered.isOrClauseDup. cbn [Covered.init Covered._docMatcher Covered._keyMatcher Covered._orDedupConstraints Covered._needRecord].
  replace (match pattern with [] => false | _ => negb false end) with true by (by destruct pattern).
  destruct (key_matches_total PartialMatch where_exec pattern obj N m K) as [b' Hb]. rewrite Hb. cbn [mbind option_bind].
  pose proof (key_matches_sound PartialMatch where_exec pattern obj Ne P N m K) as S. rewrite Hb in S.
  destruct b'; cbn [negb].
  - destruct (Covered.keyMatch _ m) eqn:KM; cbn [negb orb]; [|done]. destruct constraints; cbn [negb]; [|done].
    pose proof (key_matches_exact PartialMatch where_exec pattern obj Ne P N m K KM) as E. rewrite Hb in E. by rewrite <- E.
  - destruct (Match.matches PartialMatch where_exec m obj) as [[]|]; [by specialize (S eq_refl)|done|done].
Qed.

(** ** Examples *)

Module CoveredExample.

(** The query [{ a: { $gt: 1 }, "b.c": null }] on an index on a and b.c *)
Definition query : bobj := [(bytes "a", BObject [(bytes "$gt", BInt 1)]); (bytes "b.c", BNull)].
Definition pattern : bobj := [(bytes "a", BInt 1); (bytes "b.c", BInt 1)].
Definition doc : bobj := [(bytes "a", BInt 2); (bytes "b", BObject [(bytes "d", BInt 7)])].
Definition no_regex (_ : list Z) (_ : RE_Options) (_ : list Z) : bool := false.
Definition no_where (_ : bval) (_ : bobj) : option bool := None.
Definition matcher : Matcher := match Parse.make query with Ok m => m | Err _ => Parse.new end.

(** The key is enough: the document is not loaded. *)
Example covered_no_record : Covered._needRecord (Covered.init matcher pattern []) = false.
Proof. reflexivity. Qed.

Lemma covered_matcher_witness :
  Covered.matchesCurrent no_regex no_where (Covered.init matcher pattern []) pattern false [([], BInt 2); ([], BNull)] doc = Some true.
Proof.
  apply (covered_matcher no_regex no_where matcher pattern [] doc false [([], BInt 2); ([], BNull)]).
  - reflexivity.
  - discriminate.
  - vm_compute. repeat constructor.
  - repeat constructor.
  - reflexivity.
  - reflexivity.
Defined.

(** [{ a: { $lt: null } }] matches a document without a, but not the null in its key. *)
Example covered_lt_null :
  match Parse.make [(bytes "a", BObject [(bytes "$lt", BNull)])] with
  | Ok m => Match.matches no_regex no_where m [] = Some true ∧
      Covered.matchesCurrent no_regex no_where (Covered.init m [(bytes "a", BInt 1)] []) [(bytes "a", BInt 1)] false [([], BNull)] [] = Some false
  | Err _ => False
  end.
Proof. split; reflexivity. Qed.

End CoveredExample.
