(* ===== verification/QueryRange.v ===== *)
(** * The ranges of a query

    Models the constructor [FieldRange( e, isNot, optimize )] of db/queryutil.cpp, which derives the range
    of a field from one element of a query.

    The bounds are elements of any type with an injection from the elements of BSON, as the ranges of
    FieldRange are over any type of elements. *)

From S2P Require Import Prelude StdContainers Bson BsonOrder BsonObj FieldElement FieldRange FieldRangeSet QueryOps Matcher KeyGenerator.
Import MatchType.
#[local] Open Scope Z_scope.

(** [uassert] codes, and undefined behaviour *)
Inductive range_error := RangeAssert (code : Z) | RangeUndefined.

Definition range_assert (code : Z) (b : bool) : result range_error () := if b then Ok () else Err (RangeAssert code).
Definition range_defined {A} (o : option A) : result range_error A := match o with Some a => Ok a | None => Err RangeUndefined end.

(** A value of each type: [appendMinForType] and [appendMaxForType] take the number of the type. *)
Definition of_type (t : Z) : option bval :=
  if t =? -1 then Some BMinKey else if t =? 1 then Some (BDouble 0) else if t =? 2 then Some (BString [])
  else if t =? 3 then Some (BObject []) else if t =? 4 then Some (BArray []) else if t =? 5 then Some (BBinData 0 [])
  else if t =? 6 then Some BUndefined else if t =? 7 then Some (BOID Build.zero_oid) else if t =? 8 then Some (BBool false)
  else if t =? 9 then Some (BDate 0) else if t =? 10 then Some BNull else if t =? 11 then Some (BRegEx [] [])
  else if t =? 12 then Some (BDBRef [] Build.zero_oid) else if t =? 13 then Some (BCode []) else if t =? 14 then Some (BSymbol [])
  else if t =? 15 then Some (BCodeWScope [] []) else if t =? 16 then Some (BInt 0) else if t =? 17 then Some (BTimestamp 0)
  else if t =? 18 then Some (BLong 0) else if t =? 127 then Some BMaxKey else None.

Definition staticUndefined : elem := ([], BUndefined).
Definition first_or_undefined (a : bobj) : elem := match a with [] => staticUndefined | x :: _ => x end.

Definition is_regex (v : bval) : bool := match v with BRegEx _ _ => true | _ => false end.
Definition has_regex (v : bval) : bool := match v with BObject o => Fields.hasField (bytes "$regex") o | _ => false end.
Definition is_elem_match (v : bval) : bool :=
  match v with BObject o => Query.getGtLtOp Equality (Query.first_name o) =? opELEM_MATCH | _ => false end.

(** [o[ name ].valuestrsafe()] *)
Definition string_field (name : list Z) (o : bobj) : list Z :=
  match Fields.getField name o with Some e => Parse.str_safe e.2 | None => [] end.

(** [lower], [lowerInclusive], [upper] and [upperInclusive] *)
Record bounds := mkBounds { b_lower : elem; b_lowerInclusive : bool; b_upper : elem; b_upperInclusive : bool }.

Module QueryRange.

Definition everything : bounds := mkBounds ([], BMinKey) true ([], BMaxKey) true.
Definition exactly (e : elem) : bounds := mkBounds e true e true.

(** The regular expression and the flags of [simpleRegex( e )] *)
Definition regex_parts (v : bval) : list Z * list Z :=
  match v with
  | BRegEx r f => (r, f)
  | BObject o => (string_field (bytes "$regex") o, string_field (bytes "$options") o)
  | _ => ([], [])
  end.

(** The bounds of the strings that can match *)
Definition prefix_bounds (r : list Z) : bounds :=
  match r with
  | [] => mkBounds ([], Build.minForType (BString [])) true ([], Build.maxForType (BString [])) false
  | _ => mkBounds ([], BString r) true ([], BString (Regex.simpleRegexEnd r)) false
  end.

(** [$all]: the first operand that is not a regular expression or an [$elemMatch], or else the prefix of
    the first regular expression that has one *)
Fixpoint all_point (o : bobj) : option elem :=
  match o with
  | [] => None
  | x :: o' => if is_elem_match x.2 then all_point o' else if is_regex x.2 then all_point o' else Some x
  end.

Fixpoint all_prefix (o : bobj) : result range_error bounds :=
  match o with
  | [] => Ok everything
  | (_, BRegEx r f) :: o' =>
      p <-? range_defined (Regex.simpleRegex r f) ;;
      match p.1 with
      | [] => all_prefix o'
      | simple => Ok (mkBounds ([], BString simple) true ([], BString (Regex.simpleRegexEnd simple)) true)
      end
  | _ :: o' => all_prefix o'
  end.

(** [isNot]: the operators without bounds, and the operator that replaces a negated one *)
Definition unbounded_not (op : Z) : bool := (op =? Equality) || (op =? opALL) || (op =? opMOD) || (op =? opTYPE).
Definition negated (op : Z) : Z :=
  if op =? NE then Equality else if op =? LT then GTE else if op =? LTE then GT
  else if op =? GT then LTE else if op =? GTE then LT else op.

(** The bounds of an operator, and whether they are bracketed by type; [$ne] has two intervals. *)
Definition op_bounds (op : Z) (e : elem) (existsSpec : bool) : result range_error (list bounds * bool) :=
  let one b := Ok ([b], true) in
  if op =? Equality then one (exactly e)
  else if op =? NE then Ok ([mkBounds ([], BMinKey) true e false; mkBounds e false ([], BMaxKey) true], false)
  else if op =? LT then one (mkBounds ([], BMinKey) true e false)
  else if op =? LTE then one (mkBounds ([], BMinKey) true e true)
  else if op =? GT then one (mkBounds e false ([], BMaxKey) true)
  else if op =? GTE then one (mkBounds e true ([], BMaxKey) true)
  else if op =? opALL then
    match e.2 with
    | BArray o =>
        match all_point o with
        | Some x => one (exactly x)
        | None => b <-? all_prefix o ;; one b
        end
    | _ => Err (RangeAssert 10370)
    end
  else if op =? opMOD then one (mkBounds ([], Build.minForType (BDouble 0)) true ([], Build.maxForType (BDouble 0)) true)
  else if op =? opTYPE then
    t <-? range_defined (Element.numberInt e.2) ;;
    match of_type t with
    | Some v => one (mkBounds ([], Build.minForType v) true ([], Build.maxForType v) true)
    | None => Err (RangeAssert 10061)
    end
  else if op =? opEXISTS then Ok ([if existsSpec then everything else exactly staticNull], false)
  else one everything.

(** [_special] *)
Definition op_special (op : Z) : SpecialIndices :=
  if op =? opWITHIN then Special.add (bytes "2d") false []
  else if op =? opNEAR then Special.add (bytes "2dsphere") true (Special.add (bytes "2d") true [])
  else if op =? opGEO_INTERSECTS then Special.add (bytes "2dsphere") true []
  else [].

(** The bracketing by type *)
Definition is_min (v : bval) : bool := match v with BMinKey => true | _ => false end.
Definition is_max (v : bval) : bool := match v with BMaxKey => true | _ => false end.
Definition bracket (b : bounds) : bounds :=
  let lower := b_lower b in
  let upper := b_upper b in
  if negb (is_min lower.2) && is_max upper.2 && Element.isSimpleType lower.2 then
    let upper := (lower.1, Build.maxForType lower.2) in
    mkBounds lower (b_lowerInclusive b) upper
      (if negb (Element.canonicalType upper.2 =? Element.canonicalType lower.2) then false else b_upperInclusive b)
  else if is_min lower.2 && negb (is_max upper.2) && Element.isSimpleType upper.2 then
    let lower := (upper.1, Build.minForType upper.2) in
    mkBounds lower
      (if negb (Element.canonicalType lower.2 =? Element.canonicalType upper.2) then false else b_lowerInclusive b)
      upper (b_upperInclusive b)
  else b.

Section range.
Context `{FieldElement K} (inj : elem → K) (optimize : bool).

Definition interval (b : bounds) : FieldInterval K :=
  mkInterval (mkBound (inj (b_lower b)) (b_lowerInclusive b)) (mkBound (inj (b_upper b)) (b_upperInclusive b)).
Definition point_of (e : elem) : FieldInterval K := Interval.point (inj e).

(** A regular expression, by itself or with [$regex] *)
Definition regex_range (op : Z) (v : bval) (isNot : bool) : result range_error (FieldRange K) :=
  _ <-? range_assert 13454 ((op =? Equality) || (op =? opREGEX)) ;;
  if isNot then Ok (mkRange [interval everything] [] false None)
  else
    let '(regex, flags) := regex_parts v in
    p <-? range_defined (Regex.simpleRegex regex flags) ;;
    Ok (mkRange [interval (prefix_bounds p.1); point_of ([], BRegEx regex flags)] [] false None).

(** [$in]: the values, the ranges of the regular expressions, and whether the range is exact *)
Fixpoint in_values (o : bobj) (vals : list elem) (regexes : list (FieldRange K)) (exact : bool)
  : result range_error (list elem * list (FieldRange K) * bool) :=
  match o with
  | [] => Ok (vals, regexes, exact)
  | ie :: o' =>
      _ <-? range_assert 15881 (negb (is_elem_match ie.2)) ;;
      match ie.2 with
      | BRegEx _ _ =>
          r <-? regex_range (Query.getGtLtOp Equality ie.1) ie.2 false ;; in_values o' vals (regexes ++ [r]) false
      | BArray a =>
          in_values o' (sl_insert id Element.lt_op (first_or_undefined a) (sl_insert id Element.lt_op ie vals)) regexes false
      | _ => in_values o' (sl_insert id Element.lt_op ie vals) regexes (exact && negb (Match.is_null ie.2))
      end
  end.

Definition in_range (v : bval) : result range_error (FieldRange K) :=
  match embedded v with
  | None => Err (RangeAssert 12580)
  | Some o =>
      x <-? in_values o [] [] true ;;
      let '(vals, regexes, exact) := x in
      Ok (foldl Range.union (mkRange (map point_of vals) [] exact None) regexes)
  end.

(** An array, as a whole or by its first member *)
Definition array_range (e : elem) (a : bobj) : FieldRange K :=
  let temp := first_or_undefined a in
  mkRange (if Element.lt_op temp e then [point_of temp; point_of e] else [point_of e; point_of temp]) [] false None.

(** [FieldRange( e, isNot, optimize )] for an element that is not [eoo()] *)
Definition make (e : elem) (isNot : bool) : result range_error (FieldRange K) :=
  let op := Query.getGtLtOp Equality e.1 in
  if negb isNot && negb (is_regex e.2) && (op =? opIN) then in_range e.2
  else
    match e.2, op =? Equality with
    | BArray a, true => Ok (array_range e a)
    | v, _ =>
        if is_regex v || has_regex v then regex_range op v isNot
        else
          let exact := optimize && negb isNot && Element.isSimpleType v && existsb (Z.eqb op) [Equality; LT; LTE; GT; GTE] in
          if isNot && unbounded_not op then Ok (mkRange [interval everything] [] exact None)
          else
            let existsSpec := xorb (Element.trueValue v) isNot in
            x <-? op_bounds (if isNot then negated op else op) e existsSpec ;;
            let bracketed := if optimize && x.2 then map bracket x.1 else x.1 in
            Ok (mkRange (map interval bracketed) (op_special op) exact None)
    end.

End range.
End QueryRange.
