(* ===== verification/QueryParse.v ===== *)
(** * The parse of a query into ranges

    Models the parser of [FieldRangeSet] of db/queryutil.cpp ([handleMatchField] and what it calls) and
    the constructors of [FieldRangeSet] and [FieldRangeSetPair].

    [_ns], the name of the collection, is left out. *)

From S2P Require Import Prelude StdContainers Bson BsonOrder BsonObj FieldElement FieldRange FieldRangeSet QueryOps Matcher QueryRange.
Import MatchType.
#[local] Open Scope Z_scope.

Module QueryParse.
Section parse.
Context `{FieldElement K} (inj : elem → K) (optimize : bool).
Implicit Types s : FieldRangeSet K.

(** [FieldRangeSet( ns, query, singleKey, optimize, boundElemMatch )] before [init] *)
Definition new (query : bobj) (singleKey boundElemMatch : bool) : FieldRangeSet K :=
  mkRangeSet [] [query] singleKey true boundElemMatch.

Definition set_exact (b : bool) s : FieldRangeSet K := mkRangeSet (_ranges s) (_queries s) (_singleKey s) b (_boundElemMatch s).
Definition adjustMatchField s : FieldRangeSet K := set_exact false s.

Definition intersectMatchField (fieldName : list Z) (matchElement : elem) (isNot : bool) s : result range_error (FieldRangeSet K) :=
  r <-? QueryRange.make inj optimize matchElement isNot ;;
  let selectedRange := Range.intersect (RangeSet.range s fieldName) r (_singleKey s) in
  let s := RangeSet.assign s fieldName selectedRange in
  Ok (if negb (_exactMatchRepresentation selectedRange) then set_exact false s else s).

(** [setElemMatchContext] on the direct children of an [$elemMatch] *)
Definition set_context (elemMatch : elem) s : FieldRangeSet K :=
  RangeSet.set_ranges
    (map (λ x : list Z * FieldRange K,
       if existsb (Z.eqb Fields.dot) x.1 then x
       else (x.1, mkRange (_intervals x.2) (_special x.2) (_exactMatchRepresentation x.2) (Some (inj elemMatch)))) (_ranges s)) s.

Section handle.
(** [handleMatchField] on the elements of embedded documents *)
Context (hmf : list Z → bval → FieldRangeSet K → result range_error (FieldRangeSet K)).

Definition init : bobj → FieldRangeSet K → result range_error (FieldRangeSet K) :=
  fix go (o : bobj) s :=
    match o with
    | [] => Ok s
    | (n, v) :: o' => s <-? hmf n v s ;; go o' s
    end.

Definition handleElemMatch (matchFieldName en : list Z) (ev : bval) (isNot : bool) s : result range_error (FieldRangeSet K) :=
  let s := adjustMatchField s in
  if negb (_boundElemMatch s) then Ok s
  else if isNot then Ok s
  else
    match ev with
    | BObject x | BArray x =>
        if negb (Query.getGtLtOp Equality (Query.first_name x) =? Equality) || bool_decide (Query.first_name x = bytes "$not") then
          r <-? hmf matchFieldName ev (new [(matchFieldName, ev)] true false) ;; Ok (RangeSet.intersection s r)
        else
          r <-? init x (new x (_singleKey s) true) ;;
          Ok (RangeSet.intersection s (RangeSet.prefixed (set_context (en, ev) r) matchFieldName))
    | _ => Err (RangeAssert 10065)
    end.

Definition handleOp (matchFieldName fn : list Z) (fv : bval) (isNot : bool) s : result range_error (FieldRangeSet K) :=
  let opType := Query.getGtLtOp Equality fn in
  if opType =? opALL then
    match fv with
    | BArray ((_, BObject ((en, ev) :: _)) :: _) =>
        if Query.getGtLtOp Equality en =? opELEM_MATCH then handleElemMatch matchFieldName en ev isNot s
        else intersectMatchField matchFieldName (fn, fv) isNot s
    | BArray _ => intersectMatchField matchFieldName (fn, fv) isNot s
    | _ => Err (RangeAssert 13050)
    end
  else if opType =? opELEM_MATCH then handleElemMatch matchFieldName fn fv isNot s
  else intersectMatchField matchFieldName (fn, fv) isNot s.

(** The loop over the operators in [$not] *)
Definition not_ops (matchFieldName : list Z) : bobj → FieldRangeSet K → result range_error (FieldRangeSet K) :=
  fix go (o : bobj) s :=
    match o with
    | [] => Ok s
    | (fn, fv) :: o' =>
        _ <-? range_assert 13034 (negb (Query.getGtLtOp Equality fn =? Equality)) ;;
        s <-? handleOp matchFieldName fn fv true s ;; go o' s
    end.

Definition handleNotOp (matchFieldName fn : list Z) (fv : bval) s : result range_error (FieldRangeSet K) :=
  match fv with
  | BObject o => not_ops matchFieldName o s
  | BRegEx _ _ => handleOp matchFieldName fn fv true s
  | _ => Err (RangeAssert 13041)
  end.

(** The loop over the operators of an object *)
Definition operators (matchFieldName : list Z) : bobj → FieldRangeSet K → result range_error (FieldRangeSet K) :=
  fix go (o : bobj) s :=
    match o with
    | [] => Ok s
    | (fn, fv) :: o' =>
        s <-? (if bool_decide (fn = bytes "$not") then handleNotOp matchFieldName fn fv s else handleOp matchFieldName fn fv false s) ;;
        go o' s
    end.

Definition handleConjunctionClauses : bobj → FieldRangeSet K → result range_error (FieldRangeSet K) :=
  fix go (o : bobj) s :=
    match o with
    | [] => Ok s
    | (_, v) :: o' =>
        match v with
        | BObject x => s <-? init x s ;; go o' s
        | _ => Err (RangeAssert 14817)
        end
    end.

Definition is_equality (v : bval) : bool :=
  (Query.getGtLtOp_obj v =? Equality) && negb (match v with BObject o => bool_decide (Query.first_name o = bytes "$not") | _ => false end).

End handle.

Fixpoint handleMatchField (n : list Z) (v : bval) s {struct v} : result range_error (FieldRangeSet K) :=
  let dollar := nth 0 n 0 =? Fields.dollar in
  if dollar && bool_decide (n = bytes "$and") then
    match v with
    | BArray ((_ :: _) as o) => handleConjunctionClauses handleMatchField o s
    | _ => Err (RangeAssert 14816)
    end
  else
    let s := if dollar then adjustMatchField s else s in
    if dollar && bool_decide (n = bytes "$or") then
      match v with
      | BArray ([_] as o) => handleConjunctionClauses handleMatchField o s
      | _ => Ok s
      end
    else if dollar && (bool_decide (n = bytes "$nor") || bool_decide (n = bytes "$where") || bool_decide (n = bytes "$atomic")) then Ok s
    else if is_equality v then intersectMatchField n (n, v) false s
    else
      match v with
      | BObject o =>
          s <-? (if Fields.hasField (bytes "$regex") o then intersectMatchField n (n, v) false s else Ok s) ;;
          operators handleMatchField n o s
      | _ => Err RangeUndefined
      end.

(** The constructors *)
Definition make (query : bobj) (singleKey : bool) : result range_error (FieldRangeSet K) :=
  init handleMatchField query (new query singleKey true).

Definition make_pair (query : bobj) : result range_error (FieldRangeSetPair K) :=
  s <-? make query true ;; p <-? make query false ;; Ok (mkPair s p).

End parse.
End QueryParse.
