(* ===== verification/OperatorRange.v ===== *)
(** * The ranges of operators

    The range that [FieldRange( e, isNot, optimize )] (QueryRange) derives from an operator of a query holds
    every value the operator accepts: equality and the order operators with their bracketing by type,
    [$in], [$ne], [$mod], [$type], [$exists], [$all] and regular expressions.

    The values are those on which the order of BSON is total (FieldElement), without the infinities and NaN,
    which the bounds of the numbers leave out. *)

From S2P Require Import Prelude StdContainers Bson BsonOrder BsonObj DocOrder FieldElement FieldRange FieldRangeSet FieldRangeVector QueryOps Matcher KeyGenerator QueryRange.
Import MatchType.
#[local] Open Scope Z_scope.

(** The elements of BSON among those with a total order; others are not used as bounds. *)
Definition inject (m : date_mode) (e : elem) : scan_elem m :=
  match Bool.bool_dec (elem_dom m e) true with left p => e ↾ p | right _ => minKey end.

(** ** Intervals *)

Section Intervals.
Context (m : date_mode).
#[local] Abbreviation inj := (inject m).
#[local] Abbreviation cmp a b := (Element.woCompare a b false).
Implicit Types (e a : elem) (b : bounds) (w : bval).

Lemma inject_ok e : elem_dom m e = true → proj1_sig (inj e) = e.
Proof. intros D. unfold inject. destruct (Bool.bool_dec _ _); [done|congruence]. Qed.

Lemma inject_cmp a e : elem_dom m a = true → elem_dom m e = true → woCompare (inj a) (inj e) = cmp a e.
Proof. intros Da De. unfold woCompare. cbn. by rewrite !inject_ok. Qed.

Lemma cmp_opp a e : elem_dom m a = true → elem_dom m e = true → Z.sgn (cmp a e) = - Z.sgn (cmp e a).
Proof. intros Da De. rewrite <- !inject_cmp by done. apply woCompare_opp. Qed.

(** A value between bounds *)
Definition in_bounds b e : Prop :=
  (if b_lowerInclusive b then cmp (b_lower b) e ≤ 0 else cmp (b_lower b) e < 0) ∧
  (if b_upperInclusive b then cmp e (b_upper b) ≤ 0 else cmp e (b_upper b) < 0).

Definition bounds_dom b : Prop := elem_dom m (b_lower b) = true ∧ elem_dom m (b_upper b) = true.

Lemma in_interval b e : bounds_dom b → elem_dom m e = true → inb (inj e) (QueryRange.interval inj b) ↔ in_bounds b e.
Proof.
  intros [Dl Du] De. unfold inb, QueryRange.interval, lo, up, in_bounds. cbn [_lower _upper _bound _inclusive].
  rewrite !below_cut. unfold kle. pose proof (cmp_opp _ _ Dl De). pose proof (cmp_opp _ _ Du De).
  destruct (b_lowerInclusive b), (b_upperInclusive b); cbn [negb]; rewrite !inject_cmp by done; lia.
Qed.

Lemma inb_separated v (i : FieldInterval (scan_elem m)) : inb v i → separated [i].
Proof. unfold inb, below, separated. cbn [above]. intros [A B]. split; [done|]. split; [|done]. intros L. apply A. by eapply (kle_trans _ (up i)). Qed.

Lemma in_point a e : elem_dom m a = true → elem_dom m e = true → inb (inj e) (QueryRange.point_of inj a) ↔ cmp e a = 0.
Proof.
  intros Da De. change (QueryRange.point_of inj a) with (QueryRange.interval inj (QueryRange.exactly a)). rewrite in_interval by done.
  unfold in_bounds. cbn. pose proof (cmp_opp _ _ Da De). lia.
Qed.

End Intervals.

(** ** Bracketing by type *)

Section Bracket.
Context (m : date_mode).
#[local] Abbreviation cmp a b := (Element.woCompare a b false).

Lemma elem_dom_val n v : elem_dom m (n, v) = true → wf v = true ∧ vdom m v = true.
Proof. unfold elem_dom. cbn [fst snd]. intros. bool_facts. done. Qed.

Lemma elem_dom_nil v : elem_dom m ([], v) = wf v && vdom m v.
Proof. done. Qed.

Lemma elem_dom_rename n v : elem_dom m (n, v) = true → elem_dom m ([], v) = true.
Proof. intros [W D]%elem_dom_val. by rewrite elem_dom_nil, W, D. Qed.

Lemma cmp_name n n' v a : cmp (n, v) a = cmp (n', v) a.
Proof. done. Qed.

Lemma cmp_value n v n' v' : Element.canonicalType v = Element.canonicalType v' → cmp (n, v) (n', v') = Element.compareElementValues v v'.
Proof. intros E. unfold Element.woCompare. by rewrite wo_elem_value. Qed.

(** The bounds of the type of a simple value, for values of the same canonical type *)
Lemma max_same lv w n n' :
  Element.isSimpleType lv = true → Element.canonicalType w = Element.canonicalType lv → wf w = true → bounded w = true →
  vdom m w = true → vdom m lv = true →
  if Element.canonicalType (Build.maxForType lv) =? Element.canonicalType lv
  then cmp (n, w) (n', Build.maxForType lv) ≤ 0 else cmp (n, w) (n', Build.maxForType lv) < 0.
Proof.
  intros S C W B Dw Dl. destruct (Element.isNumber w) eqn:N.
  { assert (Build.maxForType lv = Build.maxForType w) as -> by (destruct w, lv; done).
    assert (Element.canonicalType (Build.maxForType w) = Element.canonicalType lv) as -> by (rewrite <- C; by destruct w). rewrite Z.eqb_refl. by apply maxForType_ge. }
  destruct lv; try discriminate S; destruct w; try discriminate C; try discriminate N.
  all: try exact (maxForType_ge n n' _ W B).
  all: try reflexivity.
  cbn [wf vdom] in *. unfold Element.woCompare, Element.wo_elem. cbn. apply compare_ints_le. bool_facts. destruct m; try done. unfold u64 in *. 
  rewrite Z.mod_small by lia. lia.
Qed.

Lemma min_same lv w n n' :
  Element.isSimpleType lv = true → Element.canonicalType w = Element.canonicalType lv → wf w = true → bounded w = true →
  if Element.canonicalType (Build.minForType lv) =? Element.canonicalType lv
  then cmp (n', Build.minForType lv) (n, w) ≤ 0 else cmp (n', Build.minForType lv) (n, w) < 0.
Proof.
  intros S C W B. destruct (Element.isNumber w) eqn:N.
  { assert (Build.minForType lv = Build.minForType w) as -> by (destruct w, lv; done).
    assert (Element.canonicalType (Build.minForType w) = Element.canonicalType lv) as -> by (rewrite <- C; by destruct w). rewrite Z.eqb_refl. by apply minForType_le. }
  destruct lv; try discriminate S; destruct w; try discriminate C; try discriminate N.
  all: try exact (minForType_le n' n _ W B).
  all: try reflexivity.
Qed.

Lemma simple_dom n v : Element.isSimpleType v = true → elem_dom m (n, v) = true →
  elem_dom m (n, Build.minForType v) = true ∧ elem_dom m (n, Build.maxForType v) = true.
Proof.
  intros S D. unfold elem_dom in *. cbn [fst snd] in *. apply andb_true_iff in D as [[B _]%andb_true_iff D]. rewrite B.
  destruct v; try discriminate S; try done. destruct m; try discriminate D; done.
Qed.

Definition bracket_type (b : bounds) (w : bval) : Prop :=
  (Element.isSimpleType (b_lower b).2 = true → QueryRange.is_max (b_upper b).2 = true →
   Element.canonicalType w = Element.canonicalType (b_lower b).2 ∧ b_upperInclusive b = true) ∧
  (Element.isSimpleType (b_upper b).2 = true → QueryRange.is_min (b_lower b).2 = true →
   Element.canonicalType w = Element.canonicalType (b_upper b).2 ∧ b_lowerInclusive b = true).

Lemma bracket_sound b w :
  bounds_dom m b → elem_dom m ([], w) = true → bounded w = true → bracket_type b w →
  in_bounds b ([], w) → in_bounds (QueryRange.bracket b) ([], w) ∧ bounds_dom m (QueryRange.bracket b).
Proof.
  intros [Dl Du] Dw B [Tl Tu] [Il Iu]. apply elem_dom_val in Dw as [Ww Vw].
  destruct b as [[ln lv] li [un uv] ui]. cbn [b_lower b_lowerInclusive b_upper b_upperInclusive fst snd] in *.
  unfold QueryRange.bracket. cbn [b_lower b_lowerInclusive b_upper b_upperInclusive fst snd].
  destruct (negb (QueryRange.is_min lv) && QueryRange.is_max uv && Element.isSimpleType lv) eqn:E1;
    [|destruct (QueryRange.is_min lv && negb (QueryRange.is_max uv) && Element.isSimpleType uv) eqn:E2; [|done]].
  - apply andb_true_iff in E1 as [[_ Mx]%andb_true_iff Si]. destruct (Tl Si Mx) as [T ->].
    pose proof (max_same lv w [] ln Si T Ww B Vw (proj2 (elem_dom_val _ _ Dl))) as X.
    split; [|split; [done|by apply simple_dom]]. split; [done|]. cbn [b_upper b_upperInclusive]. by destruct (_ =? _).
  - apply andb_true_iff in E2 as [[Mn _]%andb_true_iff Si]. destruct (Tu Si Mn) as [T ->].
    pose proof (min_same uv w [] un Si T Ww B) as X.
    split; [|split; [by apply simple_dom|done]]. split; [|done]. cbn [b_lower b_lowerInclusive]. by destruct (_ =? _).
Qed.

(** Values of other types are outside the bounds of the type. *)
Lemma cmp_canonical a e :
  Element.canonicalType a.2 ≠ Element.canonicalType e.2 → cmp a e = Element.canonicalType a.2 - Element.canonicalType e.2.
Proof.
  unfold Element.woCompare, Element.wo_elem. intros N. rewrite (proj2 (Z.eqb_neq (_ - _) 0)) by lia.
  destruct a as [an []], e as [en []]; try reflexivity; by destruct N.
Qed.

Lemma max_other lv w n n' :
  Element.isSimpleType lv = true → Element.canonicalType lv < Element.canonicalType w →
  if Element.canonicalType (Build.maxForType lv) =? Element.canonicalType lv
  then 0 < cmp (n, w) (n', Build.maxForType lv) else 0 ≤ cmp (n, w) (n', Build.maxForType lv).
Proof.
  intros S C. destruct (Z.eqb_spec (Element.canonicalType (Build.maxForType lv)) (Element.canonicalType lv)) as [E|E].
  { rewrite cmp_canonical by (cbn [snd]; lia). cbn [snd]. lia. }
  destruct lv; try discriminate S; try (by destruct E). clear E. change (Build.maxForType _) with (BObject []).
  destruct w; try discriminate C; try (rewrite cmp_canonical by discriminate; cbn [snd]; discriminate).
  rewrite cmp_value by done. cbn. destruct o; cbn; lia.
Qed.

Lemma min_other lv w n n' :
  Element.isSimpleType lv = true → Element.canonicalType w < Element.canonicalType lv →
  if Element.canonicalType (Build.minForType lv) =? Element.canonicalType lv
  then 0 < cmp (n', Build.minForType lv) (n, w) else 0 ≤ cmp (n', Build.minForType lv) (n, w).
Proof.
  intros S C. destruct (Z.eqb_spec (Element.canonicalType (Build.minForType lv)) (Element.canonicalType lv)) as [E|E].
  { rewrite cmp_canonical by (cbn [snd]; lia). cbn [snd]. lia. }
  destruct lv; try discriminate S; try (by destruct E). clear E. change (Build.minForType _) with (BBool true).
  destruct w; try discriminate C; try (rewrite cmp_canonical by discriminate; cbn [snd]; discriminate).
  rewrite cmp_value by done. cbn. destruct b; lia.
Qed.

Lemma min_le w : cmp ([], BMinKey) ([], w) ≤ 0.
Proof. destruct w; vm_compute; discriminate. Qed.
Lemma max_ge w : cmp ([], w) ([], BMaxKey) ≤ 0.
Proof. destruct w; vm_compute; discriminate. Qed.

(** A bracketed bound that is open at one end holds the values of the type of the other one. *)
Lemma bracket_lower n v li w :
  Element.isSimpleType v = true → elem_dom m (n, v) = true → elem_dom m ([], w) = true → bounded w = true →
  in_bounds (QueryRange.bracket (mkBounds (n, v) li ([], BMaxKey) true)) ([], w) ↔
  Element.canonicalType w = Element.canonicalType v ∧ in_bounds (mkBounds (n, v) li ([], BMaxKey) true) ([], w).
Proof.
  intros S D Dw B. set (b := mkBounds _ _ _ _). split.
  - assert (QueryRange.bracket b = mkBounds (n, v) li (n, Build.maxForType v)
      (if negb (Element.canonicalType (Build.maxForType v) =? Element.canonicalType v) then false else true)) as -> by (destruct v; by try discriminate S).
    intros [L U]. cbn [b_lower b_upper b_lowerInclusive b_upperInclusive] in *. destruct (decide (Element.canonicalType w = Element.canonicalType v)) as [C|C].
    { split; [done|]. split; [done|]. cbn [b b_upper b_upperInclusive]. apply max_ge. }
    exfalso. assert (cmp (n, v) ([], w) ≤ 0) as L' by (destruct li; lia). rewrite cmp_canonical in L' by (cbn [snd]; congruence). cbn [snd] in L'.
    pose proof (max_other v w [] n S ltac:(lia)) as X. destruct (_ =? _) in *; cbn [negb] in U; lia.
  - intros [C I]. apply (bracket_sound b w); [by split|done|done| |done]. split; [by intros _ _|done].
Qed.

Lemma bracket_upper n v ui w :
  Element.isSimpleType v = true → elem_dom m (n, v) = true → elem_dom m ([], w) = true → bounded w = true →
  in_bounds (QueryRange.bracket (mkBounds ([], BMinKey) true (n, v) ui)) ([], w) ↔
  Element.canonicalType w = Element.canonicalType v ∧ in_bounds (mkBounds ([], BMinKey) true (n, v) ui) ([], w).
Proof.
  intros S D Dw B. set (b := mkBounds _ _ _ _). split.
  - assert (QueryRange.bracket b = mkBounds (n, Build.minForType v)
      (if negb (Element.canonicalType (Build.minForType v) =? Element.canonicalType v) then false else true) (n, v) ui) as -> by (destruct v; by try discriminate S).
    intros [L U]. cbn [b_lower b_upper b_lowerInclusive b_upperInclusive] in *. destruct (decide (Element.canonicalType w = Element.canonicalType v)) as [C|C].
    { split; [done|]. split; [|done]. cbn [b b_lower b_lowerInclusive]. apply min_le. }
    exfalso. assert (cmp ([], w) (n, v) ≤ 0) as U' by (destruct ui; lia). rewrite cmp_canonical in U' by (cbn [snd]; congruence). cbn [snd] in U'.
    pose proof (min_other v w [] n S ltac:(lia)) as X. destruct (_ =? _) in *; cbn [negb] in L; lia.
  - intros [C I]. apply (bracket_sound b w); [by split|done|done| |done]. split; [done|by intros _ _].
Qed.
End Bracket.

(** ** The range of one operator *)

Section Operators.
Context (m : date_mode) (optimize : bool).
#[local] Abbreviation inj := (inject m).
#[local] Abbreviation cmp a b := (Element.woCompare a b false).
#[local] Abbreviation make := (QueryRange.make inj optimize).
(** A value of the document *)
Context (w : bval) (Dw : elem_dom m ([], w) = true) (Bw : bounded w = true).

(** The range holds the value. *)
Definition holds (r : FieldRange (scan_elem m)) : Prop := range_ok r ∧ contains r (inj ([], w)).

Lemma holds_one b sp ex ctx :
  bounds_dom m b → in_bounds b ([], w) → holds (mkRange [QueryRange.interval inj b] sp ex ctx).
Proof.
  intros D I. apply (in_interval m b ([], w) D Dw) in I. split; [by eapply inb_separated|]. by apply Exists_cons_hd.
Qed.

Lemma holds_bracket b sp ex ctx :
  bounds_dom m b → bracket_type b w → in_bounds b ([], w) →
  holds (mkRange (map (QueryRange.interval inj) (if optimize then map QueryRange.bracket [b] else [b])) sp ex ctx).
Proof.
  intros D T I. destruct optimize; [|by apply holds_one]. destruct (bracket_sound m b w D Dw Bw T I). by apply holds_one.
Qed.

Lemma everything_ok : bounds_dom m QueryRange.everything ∧ bracket_type QueryRange.everything w ∧ in_bounds QueryRange.everything ([], w).
Proof. split; [done|]. split; [done|]. split; [apply min_le|apply max_ge]. Qed.

Lemma exactly_ok e :
  elem_dom m e = true → cmp ([], w) e = 0 →
  bounds_dom m (QueryRange.exactly e) ∧ bracket_type (QueryRange.exactly e) w ∧ in_bounds (QueryRange.exactly e) ([], w).
Proof.
  intros D E. split; [done|]. split; [|split; cbn; [pose proof (cmp_opp m _ _ D Dw)|]; lia].
  split; cbn; intros S M; destruct e as [n v]; by destruct v.
Qed.

(** [make] for an operator other than [$in], without a regular expression *)
Lemma make_op fn fv :
  Query.getGtLtOp Equality fn ≠ opIN → is_regex fv || has_regex fv = false →
  (is_array fv = false ∨ Query.getGtLtOp Equality fn ≠ Equality) →
  make (fn, fv) false =
    (x <-? QueryRange.op_bounds (Query.getGtLtOp Equality fn) (fn, fv) (Element.trueValue fv) ;;
     Ok (mkRange (map (QueryRange.interval inj) (if optimize && x.2 then map QueryRange.bracket x.1 else x.1))
       (QueryRange.op_special (Query.getGtLtOp Equality fn))
       (optimize && true && Element.isSimpleType fv && existsb (Z.eqb (Query.getGtLtOp Equality fn)) [Equality; LT; LTE; GT; GTE]) None)).
Proof.
  intros N R A. unfold QueryRange.make. cbn [fst snd]. set (op := Query.getGtLtOp Equality fn) in *. cbn [negb andb]. rewrite (proj2 (Z.eqb_neq _ _) N), andb_false_r.
  destruct (Z.eqb_spec op Equality) as [EO|EO]; destruct fv; try discriminate R; cbn [is_regex has_regex orb] in *; rewrite ?R, ?xorb_false_r; try done.
  by destruct A.
Qed.

Lemma make_op_err fn fv :
  Query.getGtLtOp Equality fn ≠ opIN → Query.getGtLtOp Equality fn ≠ Equality → Query.getGtLtOp Equality fn ≠ opREGEX →
  is_regex fv || has_regex fv = true → ∃ e, make (fn, fv) false = Err e.
Proof.
  intros N1 N2 N3 R. unfold QueryRange.make. cbn [fst snd]. set (op := Query.getGtLtOp Equality fn) in *. rewrite (proj2 (Z.eqb_neq _ _) N1), andb_false_r.
  unfold QueryRange.regex_range. rewrite (proj2 (Z.eqb_neq _ _) N2), (proj2 (Z.eqb_neq _ _) N3).
  destruct fv; try discriminate R; cbn [is_regex has_regex orb] in *; rewrite ?R; cbn; by eexists.
Qed.

(** Equality *)
Lemma make_equality fn fv r :
  Query.getGtLtOp Equality fn = Equality → is_regex fv || has_regex fv = false → elem_dom m (fn, fv) = true → is_array w = false →
  cmp ([], w) (fn, fv) = 0 → make (fn, fv) false = Ok r → holds r.
Proof.
  intros O R D A E. assert (is_array fv = false) as A'.
  { destruct fv; try done. destruct w; try discriminate A; try discriminate E. }
  rewrite make_op; [|by rewrite O|done|by left]. rewrite O. cbn. intros M. inv M. destruct (exactly_ok _ D E) as (X & Y & Z).
  rewrite andb_true_r. by apply (holds_bracket (QueryRange.exactly (fn, fv))).
Qed.

(** The order operators *)
Definition order_holds (op : Z) (e : elem) : Prop :=
  Element.canonicalType w = Element.canonicalType e.2 ∧
  if op =? LT then cmp ([], w) e < 0 else if op =? LTE then cmp ([], w) e ≤ 0
  else if op =? GT then cmp e ([], w) < 0 else cmp e ([], w) ≤ 0.

Lemma make_order fn fv r :
  let op := Query.getGtLtOp Equality fn in
  op = LT ∨ op = LTE ∨ op = GT ∨ op = GTE → elem_dom m (fn, fv) = true → order_holds op (fn, fv) →
  make (fn, fv) false = Ok r → holds r.
Proof.
  intros op O D [C E] M. destruct (is_regex fv || has_regex fv) eqn:R.
  { destruct (make_op_err fn fv) as [e' X]; fold op; [destruct O as [->|[->|[->| ->]]]; done..|done|]. by rewrite X in M. }
  rewrite make_op in M; [|fold op; destruct O as [->|[->|[->| ->]]]; done|done|right; fold op; destruct O as [->|[->|[->| ->]]]; done].
  fold op in M. cbn [snd] in C.
  assert (∀ b, bounds_dom m b → bracket_type b w → in_bounds b ([], w) → ∀ sp ex,
    holds (mkRange (map (QueryRange.interval inj) (if optimize && true then map QueryRange.bracket [b] else [b])) sp ex None)) as H.
  { intros. rewrite andb_true_r. by apply holds_bracket. }
  destruct O as [->|[->|[->| ->]]]; cbn in M; inv M; cbn in E.
  - apply (H (mkBounds ([], BMinKey) true (fn, fv) false)); [done|by split|]. split; [apply min_le|done].
  - apply (H (mkBounds ([], BMinKey) true (fn, fv) true)); [done|by split|]. split; [apply min_le|done].
  - apply (H (mkBounds (fn, fv) false ([], BMaxKey) true)); [by split|by split|]. split; [done|apply max_ge].
  - apply (H (mkBounds (fn, fv) true ([], BMaxKey) true)); [by split|by split|]. split; [done|apply max_ge].
Qed.

(** Operators without bounds *)
Lemma make_unbounded fn fv r :
  let op := Query.getGtLtOp Equality fn in
  QueryRange.op_bounds op (fn, fv) (Element.trueValue fv) = Ok ([QueryRange.everything], true) ∨
  QueryRange.op_bounds op (fn, fv) (Element.trueValue fv) = Ok ([QueryRange.everything], false) →
  op ≠ opIN → op ≠ Equality → op ≠ opREGEX → make (fn, fv) false = Ok r → holds r.
Proof.
  intros op B N1 N2 N3 M. destruct (is_regex fv || has_regex fv) eqn:R.
  { destruct (make_op_err fn fv) as [e' X]; [done..|]. by rewrite X in M. }
  rewrite make_op in M; [|done|done|by right]. destruct everything_ok as (X & Y & Z).
  fold op in M. destruct B as [B|B]; rewrite B in M; cbn in M; inv M.
  - rewrite andb_true_r. by apply (holds_bracket QueryRange.everything).
  - rewrite andb_false_r. by apply (holds_one QueryRange.everything).
Qed.

(** [$ne] *)
Lemma holds_ne e sp ex ctx :
  elem_dom m e = true → QueryRange.is_min e.2 = false → QueryRange.is_max e.2 = false → cmp ([], w) e ≠ 0 →
  holds (mkRange (map (QueryRange.interval inj) [mkBounds ([], BMinKey) true e false; mkBounds e false ([], BMaxKey) true]) sp ex ctx).
Proof.
  intros D Mn Mx N. assert (cmp ([], BMinKey) e < 0) as L by (destruct e as [n v]; destruct v; try discriminate Mn; reflexivity).
  assert (cmp e ([], BMaxKey) < 0) as U by (destruct e as [n v]; destruct v; try discriminate Mx; reflexivity).
  pose proof (cmp_opp m e ([], BMaxKey) D eq_refl). pose proof (cmp_opp m ([], BMinKey) e eq_refl D). pose proof (cmp_opp m _ _ D Dw). pose proof (cmp_opp m _ _ D D).
  split.
  - unfold range_ok, separated. cbn [_intervals map above]. unfold QueryRange.interval, lo, up, kle. cbn [_lower _upper _bound _inclusive b_lower b_upper b_lowerInclusive b_upperInclusive].
    rewrite !cut_compare. cbn [cut_at cut_after negb Z.b2z]. rewrite !inject_cmp by done. split_and!; try done; crush_cmp.
  - unfold contains, mem. cbn [_intervals map]. destruct (Z.ltb_spec (cmp ([], w) e) 0).
    + apply Exists_cons_hd, in_interval; [by split|done|]. split; [apply min_le|done].
    + apply Exists_cons_tl, Exists_cons_hd, in_interval; [by split|done|]. split; [cbn; lia|apply max_ge].
Qed.

Lemma make_ne fn fv r :
  Query.getGtLtOp Equality fn = NE → elem_dom m (fn, fv) = true → QueryRange.is_min fv = false → QueryRange.is_max fv = false →
  cmp ([], w) (fn, fv) ≠ 0 → make (fn, fv) false = Ok r → holds r.
Proof.
  intros O D Mn Mx N M. destruct (is_regex fv || has_regex fv) eqn:R.
  { destruct (make_op_err fn fv) as [e' X]; [by rewrite O..|done|]. by rewrite X in M. }
  rewrite make_op in M; [|by rewrite O|done|right; by rewrite O]. rewrite O in M. cbn in M. inv M. rewrite andb_false_r. by apply holds_ne.
Qed.

(** [$mod] *)
Lemma make_mod fn fv r :
  Query.getGtLtOp Equality fn = opMOD → Element.isNumber w = true → make (fn, fv) false = Ok r → holds r.
Proof.
  intros O N M. destruct (is_regex fv || has_regex fv) eqn:R.
  { destruct (make_op_err fn fv) as [e' X]; [by rewrite O..|done|]. by rewrite X in M. }
  rewrite make_op in M; [|by rewrite O|done|right; by rewrite O]. rewrite O in M. cbn [QueryRange.op_bounds Z.eqb Pos.eqb Equality NE LT LTE GT GTE opALL opMOD result_bind fst snd] in M. inv M.
  rewrite andb_true_r. apply (holds_bracket (mkBounds ([], Build.minForType (BDouble 0)) true ([], Build.maxForType (BDouble 0)) true)); [done|done|].
  destruct (elem_dom_val m _ _ Dw) as [W _].
  split; cbn [b_lower b_upper b_lowerInclusive b_upperInclusive].
  - replace (Build.minForType (BDouble 0)) with (Build.minForType w) by (by destruct w). by apply minForType_le.
  - replace (Build.maxForType (BDouble 0)) with (Build.maxForType w) by (by destruct w). by apply maxForType_ge.
Qed.

(** [$type] *)
Lemma of_type_val v0 :
  of_type (BSONType.of_val w) = Some v0 → Build.minForType v0 = Build.minForType w ∧ Build.maxForType v0 = Build.maxForType w.
Proof. clear. destruct w; cbn; intros E; by inv E. Qed.

Lemma make_type fn fv r :
  Query.getGtLtOp Equality fn = opTYPE → Element.numberInt fv = Some (BSONType.of_val w) →
  elem_dom m ([], Build.minForType w) = true → elem_dom m ([], Build.maxForType w) = true → make (fn, fv) false = Ok r → holds r.
Proof.
  intros O N D1 D2 M. destruct (is_regex fv || has_regex fv) eqn:R.
  { destruct (make_op_err fn fv) as [e' X]; [by rewrite O..|done|]. by rewrite X in M. }
  rewrite make_op in M; [|by rewrite O|done|right; by rewrite O]. rewrite O in M.
  cbn [QueryRange.op_bounds Z.eqb Pos.eqb Equality NE LT LTE GT GTE opALL opMOD opTYPE snd] in M. rewrite N in M. cbn [range_defined result_bind] in M.
  destruct (of_type (BSONType.of_val w)) as [v0|] eqn:T; [|done]. apply of_type_val in T as [E1 E2]. rewrite E1, E2 in M. cbn [result_bind fst snd] in M. inv M. rewrite andb_true_r.
  apply (holds_bracket (mkBounds ([], Build.minForType w) true ([], Build.maxForType w) true)); [by split|split; cbn; by destruct w|].
  destruct (elem_dom_val m _ _ Dw) as [W _]. split; [by apply minForType_le|by apply maxForType_ge].
Qed.

(** [$exists]: a missing field is null in the key. *)
Lemma make_exists fn fv r :
  Query.getGtLtOp Equality fn = opEXISTS → (Element.trueValue fv = false → w = BNull) → make (fn, fv) false = Ok r → holds r.
Proof.
  intros O N M. destruct (is_regex fv || has_regex fv) eqn:R.
  { destruct (make_op_err fn fv) as [e' X]; [by rewrite O..|done|]. by rewrite X in M. }
  rewrite make_op in M; [|by rewrite O|done|right; by rewrite O]. rewrite O in M. cbn in M. inv M. rewrite andb_false_r.
  destruct (Element.trueValue fv); cbn [map]; [destruct everything_ok as (X & Y & Z); by apply holds_one|]. specialize (N eq_refl).
  destruct (exactly_ok staticNull eq_refl) as (X & Y & Z); [by rewrite N|]. by apply holds_one.
Qed.

(** Regular expressions *)
Definition good_prefix (p : list Z) : Prop := p = [] ∨ (forallb byte0 p = true ∧ List.last p 0 ≠ 255).
Definition string_of (v : bval) : option (list Z) := match v with BString s | BSymbol s => Some s | _ => None end.

Lemma end_dom p : forallb byte0 p = true → elem_dom m ([], BString p) = true ∧ elem_dom m ([], BString (Regex.simpleRegexEnd p)) = true.
Proof.
  intros B. assert (forallb is_byte p = true) as B'.
  { apply forallb_forall. intros x I. rewrite forallb_forall in B. specialize (B x I). unfold byte0, is_byte in *. lia. }
  rewrite !elem_dom_nil. cbn [wf vdom]. rewrite !andb_true_r. split; [done|]. unfold Regex.simpleRegexEnd. rewrite forallb_app. cbn [forallb]. rewrite andb_true_r.
  apply andb_true_iff. split.
  - apply forallb_forall. intros x I. rewrite forallb_forall in B'. apply B'. rewrite (app_removelast_last 0) by (by intros ->). apply in_or_app. by left.
  - unfold is_byte. pose proof (Z.mod_pos_bound (List.last p 0 + 1) 256). lia.
Qed.

Lemma prefix_bounds_dom p : good_prefix p → bounds_dom m (QueryRange.prefix_bounds p).
Proof. intros [->|[B L]]; [done|]. destruct (end_dom p B). destruct p; [done|by split]. Qed.

Lemma prefix_bounds_in p s v :
  good_prefix p → string_of v = Some s → forallb is_byte s = true → p `prefix_of` s → in_bounds (QueryRange.prefix_bounds p) ([], v).
Proof.
  intros G S B P. destruct p as [|c p].
  - destruct v; inv S; (split; [exact (compare_strings_below s B)|reflexivity]).
  - destruct G as [|[G L]]; [done|]. apply (prefix_range (c :: p) s) in P as [P1 P2]; [|done..]. destruct v; inv S; by split.
Qed.

Definition regex_intervals (r f p : list Z) : list (FieldInterval (scan_elem m)) :=
  [QueryRange.interval inj (QueryRange.prefix_bounds p); QueryRange.point_of inj ([], BRegEx r f)].

Lemma regex_separated r f p : good_prefix p → elem_dom m ([], BRegEx r f) = true → separated (regex_intervals r f p).
Proof.
  intros G D. pose proof (prefix_bounds_dom p G) as [Dl Du].
  assert (cmp (b_lower (QueryRange.prefix_bounds p)) (b_upper (QueryRange.prefix_bounds p)) < 0) as L.
  { destruct p as [|c p]; [done|]. destruct G as [|[G L]]; [done|].
    destruct (prefix_range (c :: p) (c :: p)) as [P _]; [done..| |]; [|by apply P]. by apply elem_dom_val in Dl as [W _]. }
  assert (cmp (b_upper (QueryRange.prefix_bounds p)) ([], BRegEx r f) < 0) as U by (by destruct p).
  pose proof (cmp_opp m _ _ Dl Du). pose proof (cmp_opp m _ _ Du D). pose proof (cmp_opp m _ _ D D).
  assert (b_upperInclusive (QueryRange.prefix_bounds p) = false ∧ b_lowerInclusive (QueryRange.prefix_bounds p) = true) as [Ui Li] by (by destruct p).
  unfold regex_intervals, separated. cbn [above]. unfold QueryRange.interval, QueryRange.point_of, Interval.point, lo, up, kle. cbn [_lower _upper _bound _inclusive].
  rewrite Ui, Li, !cut_compare. cbn [cut_at cut_after negb Z.b2z]. rewrite !inject_cmp by done. split_and!; try done; crush_cmp.
Qed.

(** The value is a string with the prefix, or the regular expression itself. *)
Definition regex_accepts (r f p : list Z) : Prop := (∃ s, string_of w = Some s ∧ p `prefix_of` s) ∨ w = BRegEx r f.

Lemma regex_mem r f p :
  good_prefix p → elem_dom m ([], BRegEx r f) = true → regex_accepts r f p → mem (inj ([], w)) (regex_intervals r f p).
Proof.
  intros G D H. pose proof (prefix_bounds_dom p G) as B. unfold mem, regex_intervals. destruct H as [(s & S & P)|E].
  - apply Exists_cons_hd, in_interval; [done|done|]. eapply prefix_bounds_in; [done|exact S| |done]. apply elem_dom_val in Dw as [W _]. by destruct w; inv S.
  - apply Exists_cons_tl, Exists_cons_hd, in_point; [done|done|]. rewrite E. pose proof (cmp_opp m ([], BRegEx r f) ([], BRegEx r f) D D). lia.
Qed.

(** What a regular expression of the query must satisfy *)
Definition regex_range_spec (r f : list Z) : Prop :=
  elem_dom m ([], BRegEx r f) = true ∧ ∀ p b, Regex.simpleRegex r f = Some (p, b) → good_prefix p.

Lemma regex_range_ok op v r f x :
  QueryRange.regex_parts v = (r, f) → regex_range_spec r f → QueryRange.regex_range inj op v false = Ok x →
  range_ok x ∧ ((∃ p b, Regex.simpleRegex r f = Some (p, b) ∧ regex_accepts r f p) → contains x (inj ([], w))).
Proof.
  intros E [D H]. unfold QueryRange.regex_range. destruct (range_assert _ _); [|done]. cbn [result_bind]. rewrite E.
  destruct (Regex.simpleRegex r f) as [[p b]|]; [|done]. specialize (H p b eq_refl). cbn [range_defined result_bind fst]. intros M. inv M.
  split; [by apply regex_separated|]. intros (p' & b' & Hp & A). inv Hp. by apply regex_mem.
Qed.

(** [$all] *)
Lemma make_all fn o r :
  Query.getGtLtOp Equality fn = opALL → elem_dom m (fn, BArray o) = true →
  (∀ x, QueryRange.all_point o = Some x → cmp ([], w) x = 0 ∧ elem_dom m x = true) →
  (QueryRange.all_point o = None → ∀ n rx f p b, (n, BRegEx rx f) ∈ o → Regex.simpleRegex rx f = Some (p, b) →
    good_prefix p ∧ ∃ s, string_of w = Some s ∧ p `prefix_of` s) →
  make (fn, BArray o) false = Ok r → holds r.
Proof.
  intros O D H1 H2 M. rewrite make_op in M; [|by rewrite O|done|right; by rewrite O]. rewrite O in M.
  cbn [QueryRange.op_bounds Z.eqb Pos.eqb Equality NE LT LTE GT GTE opALL snd] in M. destruct (QueryRange.all_point o) as [x|].
  { cbn [result_bind fst snd] in M. inv M. destruct (H1 x eq_refl) as [E Dx]. destruct (exactly_ok _ Dx E) as (X & Y & Z). rewrite andb_true_r.
    by apply (holds_bracket (QueryRange.exactly x)). }
  specialize (H2 eq_refl). assert (∀ b, QueryRange.all_prefix o = Ok b → bounds_dom m b ∧ bracket_type b w ∧ in_bounds b ([], w)) as P.
  { clear M D H1. induction o as [|[n v] o IH]; cbn [QueryRange.all_prefix]; intros b.
    { intros E. inv E. apply everything_ok. }
    assert (QueryRange.all_prefix o = Ok b → bounds_dom m b ∧ bracket_type b w ∧ in_bounds b ([], w)) as IH'.
    { apply IH. intros n' rx f p b' I. apply (H2 n'). by right. }
    destruct v; try exact IH'. destruct (Regex.simpleRegex regex flags) as [[p b']|] eqn:S; [|done]. cbn [range_defined result_bind fst].
    destruct (H2 n regex flags p b') as (G & s & Ss & Ps); [by left|done|]. destruct p as [|c p]; [exact IH'|]. intros E. inv E.
    pose proof (prefix_bounds_dom _ G) as [Dl Du]. assert (forallb is_byte s = true) as Bs by (apply elem_dom_val in Dw as [W _]; by destruct w; inv Ss).
    destruct (prefix_bounds_in _ _ _ G Ss Bs Ps) as [I1 I2]. split; [by split|]. split; [done|]. split; [done|]. cbn in *. lia. }
  destruct (QueryRange.all_prefix o) as [b|]; [|done]. destruct (P b eq_refl) as (X & Y & Z). cbn [result_bind fst snd] in M. inv M. rewrite andb_true_r.
  by apply (holds_bracket b).
Qed.

(** [$in] *)
Lemma lt_op_cmp a e : Element.lt_op a e = (cmp a e <? 0).
Proof.
  clear. unfold Element.lt_op, Element.woCompare, Element.wo_elem. set (x := _ - _). destruct (Z.eqb_spec x 0) as [E|E]; cbn [negb andb].
  - by rewrite E.
  - assert (negb (Element.isNumber a.2) || negb (Element.isNumber e.2) = true) as ->.
    { subst x. destruct a as [n v], e as [n' v']. destruct v, v'; try done; by destruct E. }
    destruct (Z.ltb_spec x 0), (Z.ltb_spec 0 x); try done; lia.
Qed.

Lemma insert_inject a l :
  elem_dom m a = true → Forall (λ e, elem_dom m e = true) l →
  map inj (sl_insert id Element.lt_op a l) = sl_insert id BSONObjCmp (inj a) (map inj l).
Proof.
  intros Da. induction 1 as [|b l Db F IH]; [done|]. cbn [sl_insert map id]. unfold BSONObjCmp at 1 2. rewrite !inject_cmp, !lt_op_cmp by done.
  destruct (_ <? 0); [done|]. destruct (_ <? 0); [|done]. cbn [map]. by rewrite IH.
Qed.

Lemma insert_dom a l : elem_dom m a = true → Forall (λ e, elem_dom m e = true) l → Forall (λ e, elem_dom m e = true) (sl_insert id Element.lt_op a l).
Proof.
  intros Da. induction 1 as [|b l Db F IH]; cbn [sl_insert]; [by constructor|]. destruct (Element.lt_op _ _); [by repeat constructor|].
  destruct (Element.lt_op _ _); by constructor.
Qed.

(** Equivalent to an element of the set *)
Definition found (l : list elem) (e : elem) : Prop := ∃ y, y ∈ l ∧ cmp e y = 0.

Lemma insert_found a l : elem_dom m a = true → Forall (λ e, elem_dom m e = true) l → found (sl_insert id Element.lt_op a l) a.
Proof.
  intros Da. pose proof (cmp_opp m a a Da Da). induction 1 as [|b l Db F IH]; cbn [sl_insert id].
  - exists a. split; [by left|lia].
  - rewrite !lt_op_cmp. pose proof (cmp_opp m a b Da Db). destruct (Z.ltb_spec (cmp a b) 0); [exists a; split; [by left|lia]|].
    destruct (Z.ltb_spec (cmp b a) 0); [|exists b; split; [by left|lia]]. destruct IH as (y & I & E). exists y. split; [by right|done].
Qed.

Lemma insert_keeps a l e : found l e → found (sl_insert id Element.lt_op a l) e.
Proof. intros (y & I & E). exists y. split; [by apply sl_insert_old|done]. Qed.

(** The set of values *)
Definition vals_ok (l : list elem) : Prop := Forall (λ e, elem_dom m e = true) l ∧ sl_sorted id BSONObjCmp (map inj l).

Lemma insert_vals a l : elem_dom m a = true → vals_ok l → vals_ok (sl_insert id Element.lt_op a l).
Proof. intros Da [F S]. split; [by apply insert_dom|]. rewrite insert_inject by done. apply sl_insert_sorted; [apply cmp_comparator|exact S]. Qed.

Lemma sorted_points (l : list (scan_elem m)) : sl_sorted id BSONObjCmp l → separated (map Interval.point l).
Proof.
  unfold separated. assert (∀ oc : option (cut (scan_elem m)), (∀ e, e ∈ l → match oc with None => True | Some c => ¬ kle (Cut e false) c end) →
    sl_sorted id BSONObjCmp l → above oc (map Interval.point l)) as G; [|by apply (G None)].
  induction l as [|a l IH]; intros oc O; [done|]. intros [H S]%sl_sorted_cons. cbn [map above]. destruct (point_lo_up a) as [-> ->]. split_and!.
  - apply O. by left.
  - unfold kle. rewrite cut_compare. cbn [cut_at cut_after Z.b2z]. pose proof (woCompare_opp a a). crush_cmp.
  - apply IH; [|done]. intros e I. specialize (H e I). unfold BSONObjCmp in H. cbn [id] in H. unfold kle. rewrite cut_compare. cbn [cut_at cut_after Z.b2z].
    pose proof (woCompare_opp a e). crush_cmp.
Qed.

Lemma elem_dom_sub n v o : elem_dom m (n, v) = true → embedded v = Some o → Forall (λ e, elem_dom m e = true) o.
Proof.
  clear. intros [W D]%elem_dom_val E. assert (wf_with wf o = true ∧ dom_with (vdom m) o = true) as [W' D'] by (destruct v; inv E; done).
  clear -W' D'. induction o as [|[n v] o IH]; [by constructor|]. cbn [wf_with dom_with] in *. bool_facts. constructor; [|by apply IH].
  unfold elem_dom. cbn [fst snd]. by rewrite !andb_true_iff.
Qed.

(** What [in_values] has collected of [o] *)
Lemma in_values_ok o vals rs exact vals' rs' exact' :
  Forall (λ e, elem_dom m e = true) o → (∀ n rx f, (n, BRegEx rx f) ∈ o → regex_range_spec rx f) →
  vals_ok vals → Forall range_ok rs → QueryRange.in_values inj o vals rs exact = Ok (vals', rs', exact') →
  vals_ok vals' ∧ Forall range_ok rs' ∧ (∀ e, found vals e → found vals' e) ∧
  (Exists (λ r, contains r (inj ([], w))) rs → Exists (λ r, contains r (inj ([], w))) rs') ∧
  (∀ ie, ie ∈ o → is_regex ie.2 = false → found vals' ie) ∧
  (∀ n rx f p b, (n, BRegEx rx f) ∈ o → Regex.simpleRegex rx f = Some (p, b) → regex_accepts rx f p → Exists (λ r, contains r (inj ([], w))) rs').
Proof.
  intros F. revert vals rs exact. induction F as [|[n v] o Dv F IH]; intros vals rs exact Rx V R; cbn [QueryRange.in_values].
  { intros E. inv E. split_and!; try done; [intros ? []%not_elem_of_nil|intros ????? []%not_elem_of_nil]. }
  destruct (range_assert _ _); [|done]. cbn [result_bind snd].
  assert (∀ n' rx f, (n', BRegEx rx f) ∈ o → regex_range_spec rx f) as Rx' by (intros n' rx f I; apply (Rx n'); by right).
  assert (is_regex v = false → ∀ vals1 exact1, vals_ok vals1 → (∀ e, found vals e → found vals1 e) → found vals1 (n, v) →
    QueryRange.in_values inj o vals1 rs exact1 = Ok (vals', rs', exact') →
    vals_ok vals' ∧ Forall range_ok rs' ∧ (∀ e, found vals e → found vals' e) ∧
    (Exists (λ r, contains r (inj ([], w))) rs → Exists (λ r, contains r (inj ([], w))) rs') ∧
    (∀ ie, ie ∈ (n, v) :: o → is_regex ie.2 = false → found vals' ie) ∧
    (∀ n' rx f p b, (n', BRegEx rx f) ∈ (n, v) :: o → Regex.simpleRegex rx f = Some (p, b) → regex_accepts rx f p → Exists (λ r, contains r (inj ([], w))) rs')) as Plain.
  { intros NR vals1 exact1 V1 K1 N1 E. destruct (IH vals1 rs exact1 Rx' V1 R E) as (A & B & C & D & E1 & E2). split_and!; auto.
    - intros ie [->|I]%elem_of_cons; auto.
    - intros n' rx f p b [[= -> <-]|I]%elem_of_cons; [done|]. by eapply E2. }
  destruct v as [| | | |arr| | | | | | |rx f| | | | | | | |];
    try (apply (Plain eq_refl); [by apply insert_vals|intros; by apply insert_keeps|apply insert_found; [done|apply V]]).
  - assert (elem_dom m (first_or_undefined arr) = true) as Da.
    { pose proof (elem_dom_sub _ _ _ Dv eq_refl) as Fa. destruct Fa; [done|done]. }
    apply (Plain eq_refl).
    + by apply insert_vals, insert_vals.
    + intros. by apply insert_keeps, insert_keeps.
    + apply insert_keeps, insert_found; [done|apply V].
  - destruct (QueryRange.regex_range inj _ (BRegEx rx f) false) as [r|] eqn:Er; [|done]. cbn [result_bind]. intros E.
    destruct (regex_range_ok (Query.getGtLtOp Equality n) (BRegEx rx f) rx f r eq_refl (Rx n rx f ltac:(by left)) Er) as [Okr Cr].
    destruct (IH vals (rs ++ [r]) false Rx' V) as (A & B & C & D & E1 & E2); [apply Forall_app; by repeat constructor|exact E|]. split_and!; auto.
    + intros X. apply D, Exists_app. by left.
    + intros ie [->|I]%elem_of_cons; [done|auto].
    + intros n' rx' f' p b [[= -> -> ->]|I]%elem_of_cons Hp Ha; [|by eapply E2]. apply D, Exists_app. right. apply Exists_cons_hd, Cr. eauto.
Qed.

Lemma union_all (r : FieldRange (scan_elem m)) rs :
  range_ok r → Forall range_ok rs →
  range_ok (foldl Range.union r rs) ∧
  ∀ v, contains r v ∨ Exists (λ r, contains r v) rs → contains (foldl Range.union r rs) v.
Proof.
  intros O F. revert r O. induction F as [|x rs Ox F IH]; intros r O; cbn [foldl].
  { split; [done|]. intros v [|X]; [done|]. by apply Exists_nil in X. }
  destruct (union_loop_init (_intervals r) (_intervals x) O Ox) as [S M]. destruct (IH (Range.union r x) S) as [S' M']. split; [done|].
  intros v [C|[C|C]%Exists_cons]; apply M'; [left; apply M; by left|left; apply M; by right|by right].
Qed.

Lemma in_range_holds v o r :
  embedded v = Some o → Forall (λ e, elem_dom m e = true) o → (∀ n rx f, (n, BRegEx rx f) ∈ o → regex_range_spec rx f) →
  (∃ ie, ie ∈ o ∧ is_regex ie.2 = false ∧ cmp ([], w) ie = 0) ∨
  (∃ n rx f p b, (n, BRegEx rx f) ∈ o ∧ Regex.simpleRegex rx f = Some (p, b) ∧ regex_accepts rx f p) →
  QueryRange.in_range inj v = Ok r → holds r.
Proof.
  intros E F Rx H. unfold QueryRange.in_range. rewrite E. destruct (QueryRange.in_values inj o [] [] true) as [[[vals rs] exact]|] eqn:V; [|done].
  cbn [result_bind]. intros M. inv M.
  apply in_values_ok in V as ([Fv Sv] & Fr & _ & _ & Fe & Fx); [|done|done|split; [by apply Forall_nil|by apply SSorted_nil]|by apply Forall_nil].
  destruct (union_all (mkRange (map (QueryRange.point_of inj) vals) [] exact None) rs) as [S M]; [|done|].
  { unfold range_ok. cbn [_intervals]. unfold QueryRange.point_of. rewrite <- (map_map inj Interval.point). by apply sorted_points. }
  split; [done|]. apply M. destruct H as [(ie & I & NR & C)|(n & rx & f & p & b & I & Hp & Ha)]; [left|right; by eapply Fx].
  destruct (Fe ie I NR) as (y & Iy & Cy). unfold contains. cbn [_intervals]. apply Exists_exists. exists (QueryRange.point_of inj y).
  rewrite Forall_forall in Fv, F. split; [by apply list_elem_of_fmap_2|]. apply in_point; [by apply Fv|done|].
  assert (woCompare (inj ([], w)) (inj y) = 0) as X; [|by rewrite inject_cmp in X by auto].
  pose proof (woCompare_trans (inj ([], w)) (inj ie) (inj y)). pose proof (woCompare_trans (inj y) (inj ie) (inj ([], w))).
  pose proof (woCompare_opp (inj ([], w)) (inj y)). pose proof (woCompare_opp (inj ie) (inj y)). pose proof (woCompare_opp (inj ([], w)) (inj ie)).
  rewrite (inject_cmp m ([], w) ie), (inject_cmp m ie y) in * by auto. lia.
Qed.

Lemma make_in fn fv r :
  Query.getGtLtOp Equality fn = opIN → is_regex fv = false → make (fn, fv) false = Ok r → QueryRange.in_range inj fv = Ok r.
Proof. intros O R. unfold QueryRange.make. cbn [fst snd]. by rewrite O, R. Qed.
End Operators.
