(* ===== verification/MatchValues.v ===== *)
(** * What a match says of a value

    For an element matcher of Matcher that accepts a document, what follows for the value of the field in
    the key of the document, operator by operator.  The document has one value in the field. *)

From S2P Require Import Prelude StdContainers Bson BsonOrder BsonObj DocOrder FieldElement FieldRange FieldRangeSet FieldRangeVector QueryOps Matcher KeyGenerator CoveredMatcher QueryRange QueryParse OperatorRange.
Import MatchType.
#[local] Open Scope Z_scope.

(** The value of a field in the key of a document *)
Definition key_value (f : list Z) (obj : bobj) : bval := default BNull (field_value f obj).

(** ** What a matching element says of the value *)

Section Element.
Context (PartialMatch : list Z → RE_Options → list Z → bool).
Context (obj : bobj) (n : list Z) (Gn : good_name n = true) (Sn : single n obj = true).
#[local] Abbreviation w := (key_value n obj).
#[local] Abbreviation basic em sub alls := (Match.basic_matches PartialMatch em sub alls [] obj).
Implicit Types em : ElementMatcher Matcher.

Lemma key_value_single : is_array w = false.
Proof. unfold key_value. unfold single in Sn. destruct (field_value n obj); [by apply negb_true_iff in Sn|done]. Qed.

(** An element matcher on the document is its comparison with the value in the key. *)
Lemma basic_key_eq em sub alls :
  (_toMatch em).1 = n → key_op (_compareOp em) = true → key_operand em = true → _isNot em = false →
  basic em sub alls = Match.valuesMatch PartialMatch em (Some ([], w)) (_compareOp em).
Proof.
  intros N Op Operand Pos. rewrite <- (basic_key PartialMatch em Op Operand Pos sub alls [(n, BInt 1)] obj); rewrite ?N;
    [|by unfold Fields.hasField; cbn; rewrite bool_decide_eq_true_2|done|done].
  unfold Match.basic_matches, Match.matchesDotted, Match.negativeCompareOp. rewrite N.
  assert ((_compareOp em =? opALL) = false ∧ (_compareOp em =? NE) = false ∧ (_compareOp em =? NIN) = false ∧ (_compareOp em =? opEXISTS) = false
    ∧ (_compareOp em =? opELEM_MATCH) = false) as (-> & -> & -> & E1 & E2).
  { unfold key_op in Op. cbn [existsb] in Op. rewrite !orb_true_iff, !Z.eqb_eq in Op. decompose [or] Op; try discriminate;
      match goal with E : _compareOp em = _ |- _ => rewrite E end; done. }
  cbn [orb]. unfold Match.dotted_fuel. rewrite Nat.add_comm. cbn [Nat.add Match.dotted Match.indexed].
  rewrite index_key_lookup by (unfold Fields.hasField; cbn; by rewrite bool_decide_eq_true_2). cbn [mbind option_bind]. fold (key_value n obj).
  pose proof key_value_single as A. unfold Match.match_element. rewrite E1, E2. cbn [negb].
  assert (Match.basic_ok em (-1) = false ∧ Match.basic_ok em 1 = true) as [F T] by (unfold Match.basic_ok; by rewrite Pos).
  destruct w; try discriminate A; cbn [negb orb andb]; destruct (Match.valuesMatch PartialMatch em _ (_compareOp em)) as [[]|];
    cbn [mbind option_bind]; by rewrite ?F, ?T.
Qed.

Lemma basic_key_values em sub alls :
  (_toMatch em).1 = n → key_op (_compareOp em) = true → key_operand em = true → _isNot em = false →
  basic em sub alls = Some true → Match.valuesMatch PartialMatch em (Some ([], w)) (_compareOp em) = Some true.
Proof. intros N Op Operand Pos. by rewrite basic_key_eq. Qed.

(** *** The operators *)

Lemma equality_value em sub alls :
  (_toMatch em).1 = n → _compareOp em = Equality → _isNot em = false → is_undefined (_toMatch em).2 = false →
  basic em sub alls = Some true → Element.woCompare ([], w) (_toMatch em) false = 0.
Proof.
  intros N Op Pos U B. apply basic_key_values in B; [|done|by rewrite Op| |done].
  - rewrite Op in B. cbn in B. unfold Element.valuesEqual in B. inv B as [E]. by apply Z.eqb_eq in E.
  - unfold key_operand. rewrite Op. cbn. by rewrite U.
Qed.

(** The result of an order operator *)
Definition order_result (op : Z) (v : bval) : bool :=
  (Element.canonicalType w =? Element.canonicalType v) &&
  let c := Element.compareElementValues w v in
  if op =? LT then c <? 0 else if op =? LTE then c <=? 0 else if op =? GT then 0 <? c else 0 <=? c.

Lemma order_value_eq em sub alls :
  (_toMatch em).1 = n → _compareOp em = LT ∨ _compareOp em = LTE ∨ _compareOp em = GT ∨ _compareOp em = GTE → _isNot em = false →
  is_undefined (_toMatch em).2 = false → Match.is_null (_toMatch em).2 = false →
  basic em sub alls = Some (order_result (_compareOp em) (_toMatch em).2).
Proof.
  intros N Op Pos U Nu. rewrite basic_key_eq; [|done|by destruct Op as [->|[->|[->| ->]]]| |done].
  2: { unfold key_operand. rewrite U, Nu. by destruct Op as [->|[->|[->| ->]]]. }
  unfold Match.valuesMatch, order_result. cbn [Match.value_of snd].
  destruct Op as [E|[E|[E|E]]]; rewrite E in *; cbn [LT LTE GT GTE NE NIN opELEM_MATCH Equality opIN opSIZE opMOD opTYPE Z.eqb Pos.eqb orb andb] in *;
    (destruct (Z.eqb_spec (Element.canonicalType w) (Element.canonicalType (_toMatch em).2)) as [C|]; cbn [negb andb]; [|done]);
    cbv zeta; set (c := Element.compareElementValues _ _); clearbody c; f_equal;
    (assert (c < -1 ∨ c = -1 ∨ c = 0 ∨ c = 1 ∨ 1 < c) as [L|[->|[->|[->|L]]]] by lia;
      [rewrite (proj2 (Z.ltb_lt c (-1)) L)|reflexivity..|rewrite (proj2 (Z.ltb_ge c (-1))), (proj2 (Z.ltb_lt 1 c) L) by lia]);
    cbv - [Z.ltb Z.leb]; symmetry; rewrite ?Z.ltb_lt, ?Z.ltb_ge, ?Z.leb_le, ?Z.leb_gt; lia.
Qed.

Lemma order_value em sub alls :
  (_toMatch em).1 = n → _compareOp em = LT ∨ _compareOp em = LTE ∨ _compareOp em = GT ∨ _compareOp em = GTE → _isNot em = false →
  is_undefined (_toMatch em).2 = false → Match.is_null (_toMatch em).2 = false →
  basic em sub alls = Some true →
  Element.canonicalType w = Element.canonicalType (_toMatch em).2 ∧
  let c := Element.compareElementValues w (_toMatch em).2 in
  if _compareOp em =? LT then c < 0 else if _compareOp em =? LTE then c ≤ 0 else if _compareOp em =? GT then 0 < c else 0 ≤ c.
Proof.
  intros N Op Pos U Nu. rewrite order_value_eq by done. intros B. injection B as B. apply andb_true_iff in B as [C B].
  split; [by apply Z.eqb_eq|]. destruct Op as [E|[E|[E|E]]]; rewrite E in *; cbn in B |- *; bool_facts; lia.
Qed.

Lemma equality_complete em sub alls :
  (_toMatch em).1 = n → _compareOp em = Equality → _isNot em = false → is_undefined (_toMatch em).2 = false →
  Element.woCompare ([], w) (_toMatch em) false = 0 → basic em sub alls = Some true.
Proof.
  intros N Op Pos U E. rewrite <- (basic_key PartialMatch em) with (key := [(n, BInt 1)]); rewrite ?N, ?Op;
    [|done|unfold key_operand; rewrite Op; cbn; by rewrite U|done|by unfold Fields.hasField; cbn; rewrite bool_decide_eq_true_2|done|done].
  unfold Match.basic_matches, Match.matchesDotted, Match.negativeCompareOp. rewrite N, Op. cbn [Z.eqb Equality opALL NE NIN orb].
  unfold Match.dotted_fuel. rewrite Nat.add_comm. cbn [Nat.add Match.dotted Match.indexed].
  rewrite index_key_lookup by (unfold Fields.hasField; cbn; by rewrite bool_decide_eq_true_2). cbn [mbind option_bind]. fold (key_value n obj).
  unfold Match.match_element. cbn [Z.eqb Equality opEXISTS]. rewrite orb_true_r. cbn [orb andb negb Z.eqb opELEM_MATCH Match.indexed].
  unfold Match.valuesMatch. cbn. unfold Element.valuesEqual. rewrite E. cbn. unfold Match.basic_ok. by rewrite Pos.
Qed.

Lemma ne_value fv sub alls :
  is_undefined fv = false → basic (Parse.simple (n, fv) NE false) sub alls = Some true → Element.woCompare ([], w) (n, fv) false ≠ 0.
Proof.
  intros U B E. rewrite basic_ne in B by (cbn; by intros ->). by rewrite (equality_complete (Parse.simple (n, fv) Equality false)) in B.
Qed.

(** The element the name leads to, or none *)
Lemma plain_value em sub alls op :
  (_toMatch em).1 = n → _compareOp em = op → (op =? opALL) || (op =? NE) || (op =? NIN) = false →
  basic em sub alls = Some true →
  (∃ e v, field_value n obj = Some v ∧ ∃ c, Match.match_element PartialMatch em sub [] op (Some (e, v)) = Some c ∧ Match.basic_ok em c = true) ∨
  (field_value n obj = None ∧ ∃ c, (c = 0 ∨ Match.match_element PartialMatch em sub [] op None = Some c) ∧ Match.basic_ok em c = true).
Proof.
  intros N Op Nop. rewrite !orb_false_iff in Nop. destruct Nop as [[O1 O2] O3].
  unfold Match.basic_matches, Match.matchesDotted, Match.negativeCompareOp. rewrite N, Op, O1, O2, O3. cbn [orb].
  pose proof (dotted_find PartialMatch em sub op (length n) (Match.dotted_fuel n) n obj Gn ltac:(unfold Match.dotted_fuel; lia) ltac:(lia)) as D.
  rewrite field_value_find by done. unfold single in Sn. rewrite field_value_find in Sn by done.
  destruct (Match.dotted _ _ _ _ _ _ _ _ _) as [c|]; [|done]. cbn [mbind option_bind]. intros B. injection B as B.
  destruct (find_elem _ _ _) as [[e v]|]; cbn [fmap option_fmap option_map snd] in *.
  - left. exists e, v. split; [done|]. apply negb_true_iff in Sn. destruct D as [D|D]; [congruence|]. by exists c.
  - right. split; [done|]. exists c. split; [|done]. destruct D as [D|D]; [left; by inv D|by right].
Qed.

Lemma exists_value fv sub alls :
  basic (Parse.simple (n, fv) opEXISTS false) sub alls = Some true → Element.trueValue fv = false → w = BNull.
Proof.
  intros B T. apply (plain_value (Parse.simple (n, fv) opEXISTS false) sub alls opEXISTS) in B; [|done..]. unfold key_value.
  destruct B as [(e & v & F & c & M & K)|[-> _]]; [|done]. cbn in M. unfold Match.retExistsFound in M. cbn in M. rewrite T in M. by inv M.
Qed.

Lemma mod_value em sub alls :
  (_toMatch em).1 = n → _compareOp em = opMOD → _isNot em = false → is_Some (embedded (_toMatch em).2) →
  basic em sub alls = Some true → Element.isNumber w = true.
Proof.
  intros N Op Pos [o E] B. assert (Match.basic_ok em (-1) = false) as F1 by (unfold Match.basic_ok; by rewrite Pos).
  assert (Match.basic_ok em 0 = false) as F0.
  { unfold Match.basic_ok. rewrite Op, Pos. cbn. by destruct ((_toMatch em).2). }
  apply (plain_value em sub alls opMOD) in B; [|done..]. unfold key_value. destruct B as [(e & v & F & c & M & K)|[F (c & M & K)]].
  - rewrite F. cbn. unfold single in Sn. rewrite F in Sn. apply negb_true_iff in Sn. destruct (Element.isNumber v) eqn:Nv; [done|]. exfalso.
    unfold Match.match_element in M. cbn in M. unfold Match.valuesMatch in M. cbn in M. rewrite Nv in M. destruct v; try discriminate Sn; cbn in M; inv M; congruence.
  - exfalso. assert (c = 0) as ->; [|congruence]. destruct M as [M|M]; [done|]. cbn in M. by inv M.
Qed.

Lemma type_value em sub alls :
  (_toMatch em).1 = n → _compareOp em = opTYPE → _isNot em = false → Element.numberInt (_toMatch em).2 = Some (_type em) → _type em ≠ 0 →
  basic em sub alls = Some true → BSONType.of_val w = _type em.
Proof.
  intros N Op Pos T Z B. assert (Match.basic_ok em (-1) = false) as F1 by (unfold Match.basic_ok; by rewrite Pos).
  assert (Match.basic_ok em 0 = false) as F0.
  { unfold Match.basic_ok. rewrite Op, Pos. cbn. destruct ((_toMatch em).2); try done; cbn in T; congruence. }
  apply (plain_value em sub alls opTYPE) in B; [|done..]. unfold key_value. destruct B as [(e & v & F & c & M & K)|[F (c & M & K)]].
  - rewrite F. cbn. unfold single in Sn. rewrite F in Sn. apply negb_true_iff in Sn. destruct (Z.eqb_spec (_type em) (BSONType.of_val v)) as [E|E]; [done|]. exfalso.
    unfold Match.match_element in M. cbn in M. unfold Match.valuesMatch, Match.type_of in M. cbn [opTYPE NE NIN opELEM_MATCH Equality opIN opSIZE opMOD Z.eqb Pos.eqb orb andb snd] in M.
    rewrite (proj2 (Z.eqb_neq _ _) E) in M. destruct v; try discriminate Sn; cbn in M; inv M; congruence.
  - exfalso. assert (c = 0) as ->; [|congruence]. destruct M as [M|M]; [done|]. cbn in M. unfold Match.valuesMatch, Match.type_of in M. cbn in M.
    rewrite (proj2 (Z.eqb_neq _ _) Z) in M. by inv M.
Qed.
End Element.

(** *** Sets of values and regular expressions *)

(** The prefix [simpleRegex] finds is a prefix of every string that the expression matches. *)
Definition regex_faithful (PartialMatch : list Z → RE_Options → list Z → bool) (r f : list Z) : Prop :=
  ∀ p b s, Regex.simpleRegex r f = Some (p, b) → PartialMatch r (flags2options f) s = true → p `prefix_of` s.

Section Sets.
Context (PartialMatch : list Z → RE_Options → list Z → bool) (m : date_mode).
Context (pe : list Z → bval → Matcher → result match_error Matcher).
#[local] Abbreviation cmp a b := (Element.woCompare a b false).

(** What [parse_in] makes of the elements of an array *)
Definition from_regex (o : bobj) (rm : RegexMatcher) : Prop :=
  ∃ n p b, (n, BRegEx (_regex rm) (_flags rm)) ∈ o ∧ Regex.simpleRegex (_regex rm) (_flags rm) = Some (p, b) ∧ _prefix rm = (if b : bool then p else []).

Lemma parse_in_spec op o0 o acc acc' :
  (∀ e, e ∈ o → e ∈ o0) →
  Forall (λ e : elem, e ∈ o0 ∧ is_regex e.2 = false) acc.1.1 → Forall (from_regex o0) acc.1.2 → Parse.parse_in pe op o acc = Ok acc' →
  Forall (λ e : elem, e ∈ o0 ∧ is_regex e.2 = false) acc'.1.1 ∧ Forall (from_regex o0) acc'.1.2.
Proof.
  intros Sub. revert acc. induction o as [|[n v] o IH]; intros [[s rs] ms] Fs Fr; cbn [Parse.parse_in]; intros E.
  { inv E. done. }
  assert (∀ e, e ∈ o → e ∈ o0) as Sub' by (intros e I; apply Sub; by right). destruct ((op =? opALL) && Parse.is_elemMatch v).
  - destruct v as [| | |[|[n' w'] o'']| | | | | | | | | | | | | | | |]; try done. parse_inv. by eapply IH in E.
  - assert (is_regex v = false → Forall (λ e : elem, e ∈ o0 ∧ is_regex e.2 = false) (sl_insert id Element.lt_op (n, v) s)) as Ins.
    { intros R. apply Forall_forall. intros x [->|I]%sl_insert_elem; [split; [apply Sub; by left|done]|]. rewrite Forall_forall in Fs. by apply Fs. }
    destruct v; parse_inv; try (eapply IH in E; [exact E|done|by apply Ins|done]).
    unfold Parse.in_regex in E1. parse_inv. eapply IH in E; [exact E|done|done|]. cbn [fst snd]. apply Forall_app. split; [done|]. apply Forall_singleton.
    unfold from_regex. cbn [_regex _flags _prefix]. destruct (Regex.simpleRegex regex flags) as [[p b]|] eqn:S; cbn [Parse.defined] in *; [|done]. simplify_eq.
    exists n, p, b. split; [apply Sub; by left|]. done.
Qed.

Lemma set_count_found v s :
  elem_dom m ([], v) = true → Forall (λ e, elem_dom m e = true) s → set_count ([], v) s = true → ∃ x, x ∈ s ∧ cmp ([], v) x = 0.
Proof.
  intros D F. unfold set_count. induction F as [|x s Dx F IH]; [done|]. cbn [sl_find id]. destruct (equivb Element.lt_op x ([], v)) eqn:E.
  - intros _. exists x. split; [by left|]. apply equivb_true in E as [E1 E2]. rewrite lt_op_cmp in E1, E2. pose proof (cmp_opp m _ _ D Dx). lia.
  - intros C. destruct (IH C) as (y & I & Ey). exists y. split; [by right|done].
Qed.

Lemma cstr_prefix s : cstr s `prefix_of` s.
Proof. induction s as [|c s IH]; cbn [cstr]; [done|]. destruct (c =? 0); [apply prefix_nil|by apply prefix_cons]. Qed.

Lemma regexMatches_accepts o rm v :
  from_regex o rm → regex_faithful PartialMatch (_regex rm) (_flags rm) → Match.regexMatches PartialMatch rm v = true →
  ∃ n p b, (n, BRegEx (_regex rm) (_flags rm)) ∈ o ∧ Regex.simpleRegex (_regex rm) (_flags rm) = Some (p, b) ∧ regex_accepts v (_regex rm) (_flags rm) p.
Proof.
  intros (n & p & b & I & S & P) F R. exists n, p, b. split; [done|]. split; [done|]. unfold regex_accepts.
  assert (∀ s, match _prefix rm with [] => PartialMatch (_regex rm) (flags2options (_flags rm)) (cstr s) | p0 => bool_decide (take (length p0) (cstr s) = p0) end = true →
    p `prefix_of` s) as Str.
  { intros s H. transitivity (cstr s); [|apply cstr_prefix]. destruct (_prefix rm) as [|c q] eqn:Eq.
    - by eapply F.
    - destruct b; [|discriminate P]. rewrite <- P. cbv zeta in H. apply bool_decide_eq_true in H. exists (drop (length (c :: q)) (cstr s)). rewrite <- H at 1. by rewrite take_drop. }
  unfold Match.regexMatches in R. destruct v; try discriminate R.
  - left. exists s. split; [done|]. apply Str. by destruct (_prefix rm).
  - right. apply andb_true_iff in R as [R1 R2]. apply bool_decide_eq_true in R1, R2. by subst.
  - left. exists s. split; [done|]. apply Str. by destruct (_prefix rm).
Qed.

(** [$in]: the value is one of those of the array, or matches one of its regular expressions. *)
Lemma in_value obj n ev o s rs ms sub alls :
  good_name n = true → single n obj = true → elem_dom m ([], key_value n obj) = true →
  Forall (λ e, elem_dom m e = true) o → Forall (λ e : elem, is_undefined e.2 = false) o →
  (∀ n rx f, (n, BRegEx rx f) ∈ o → regex_faithful PartialMatch rx f) →
  Parse.parse_in pe opIN o ([], [], []) = Ok (s, rs, ms) →
  Match.basic_matches PartialMatch (mkElement (n, BObject ev) opIN false s rs 0 0 0 None false ms) sub alls [] obj = Some true →
  (∃ ie, ie ∈ o ∧ is_regex ie.2 = false ∧ cmp ([], key_value n obj) ie = 0) ∨
  (∃ n' rx f p b, (n', BRegEx rx f) ∈ o ∧ Regex.simpleRegex rx f = Some (p, b) ∧ regex_accepts (key_value n obj) rx f p).
Proof.
  intros G S D Fo U Rx P B. apply (parse_in_spec opIN o) in P as [Fs Fr]; [|done|by apply Forall_nil|by apply Forall_nil]. cbn [fst snd] in Fs, Fr.
  assert (Forall (λ e, elem_dom m e = true) s) as Ds.
  { eapply Forall_impl; [exact Fs|]. intros e [I _]. rewrite Forall_forall in Fo. by apply Fo. }
  apply (basic_key_values PartialMatch obj n G S) in B; [|done|done| |done].
  2: { unfold key_operand. cbn. apply forallb_forall. intros e I. apply list_elem_of_In in I. rewrite Forall_forall in Fs, U. destruct (Fs e I) as [I' _]. by rewrite U. }
  unfold Match.valuesMatch in B. cbn [_compareOp _myset _myregex _toMatch Match.value_of snd opIN NE NIN opELEM_MATCH Equality Z.eqb Pos.eqb orb andb] in B.
  destruct (set_count ([], key_value n obj) s) eqn:C; [|destruct (existsb _ rs) eqn:X].
  - left. destruct (set_count_found _ _ D Ds C) as (x & I & E). rewrite Forall_forall in Fs. destruct (Fs x I). eauto.
  - right. apply existsb_exists in X as (rm & I & R). apply list_elem_of_In in I. rewrite Forall_forall in Fr. pose proof (Fr rm I) as Frm.
    destruct Frm as (n0 & p0 & b0 & I0 & _). destruct (regexMatches_accepts o rm _ (Fr rm I) (Rx _ _ _ I0) R) as (n' & p & b & ?). by exists n', (_regex rm), (_flags rm), p, b.
  - exfalso. cbn [opSIZE opMOD opTYPE Z.eqb Pos.eqb] in B. destruct (negb _); [done|]. cbv zeta in B.
    set (c := Element.compareElementValues _ _) in B. clearbody c.
    destruct (Z.ltb_spec c (-1)); [discriminate B|]. cbv iota in B. destruct (Z.ltb_spec 1 c); [discriminate B|]. cbv iota in B.
    assert (c = -1 ∨ c = 0 ∨ c = 1) as [->|[->| ->]] by lia; discriminate B.
Qed.

Lemma parse_in_found op o acc acc' :
  Forall (λ e, elem_dom m e = true) o → Forall (λ e : elem, is_regex e.2 = false ∧ Parse.is_elemMatch e.2 = false) o →
  Forall (λ e, elem_dom m e = true) acc.1.1 → Parse.parse_in pe op o acc = Ok acc' →
  Forall (λ e, elem_dom m e = true) acc'.1.1 ∧ acc'.1.2 = acc.1.2 ∧ acc'.2 = acc.2 ∧
  (∀ e, found acc.1.1 e → found acc'.1.1 e) ∧ (∀ e, e ∈ o → found acc'.1.1 e).
Proof.
  intros F. revert acc. induction F as [|[n v] o D F IH]; intros [[s rs] ms] P Ds; cbn [Parse.parse_in]; intros E.
  { inv E. split_and!; try done. by intros e I%not_elem_of_nil. }
  apply Forall_cons in P as [[NR NE'] P]. cbn [snd] in *. rewrite NE', andb_false_r in E.
  assert (Parse.parse_in pe op o (sl_insert id Element.lt_op (n, v) s, rs, ms) = Ok acc') as E'.
  { destruct v; try discriminate NR; exact E. }
  destruct (IH (sl_insert id Element.lt_op (n, v) s, rs, ms) P) as (A & B & C & K & N); [by apply insert_dom|done|]. cbn [fst snd] in *. split_and!; try done.
  - intros e X. by apply K, insert_keeps.
  - intros e [->|I]%elem_of_cons; [|by apply N]. apply K, (insert_found m); done.
Qed.

(** [$all] without regular expressions and [$elemMatch]: the value is equal to each operand. *)
Lemma all_value obj n ev o s rs ms sub x :
  good_name n = true → single n obj = true → plain_doc obj → elem_dom m ([], key_value n obj) = true →
  Forall (λ e, elem_dom m e = true) o → Forall (λ e : elem, is_regex e.2 = false ∧ Parse.is_elemMatch e.2 = false) o →
  x ∈ o → Match.is_null x.2 = false → Parse.parse_in pe opALL o ([], [], []) = Ok (s, rs, ms) →
  Match.basic_matches PartialMatch (mkElement (n, BObject ev) opALL false s rs 0 0 0 None false ms) sub [] [] obj = Some true →
  cmp ([], key_value n obj) x = 0.
Proof.
  intros G S Pl D Fo No I Nu P B. destruct (parse_in_found opALL o ([], [], []) (s, rs, ms) Fo No ltac:(by apply Forall_nil) P) as (Ds & Hr & Hm & _ & N).
  cbn [fst snd] in *. subst rs ms. destruct (N x I) as (y & Iy & Ey). assert (Dx : elem_dom m x = true) by (rewrite Forall_forall in Fo; by apply Fo).
  assert (Dy : elem_dom m y = true) by (rewrite Forall_forall in Ds; by apply Ds).
  unfold Match.basic_matches, Match.matchesDotted in B. cbn [_compareOp opALL Z.eqb Pos.eqb _toMatch fst Match.match_all _myset _myregex] in B.
  destruct s as [|s0 s']; [by apply not_elem_of_nil in Iy|]. rewrite andb_true_r in B. set (l := s0 :: s') in *. clearbody l. cbv zeta in B.
  destruct (forallb _ l) eqn:Fl; [|done]. rewrite forallb_forall in Fl. specialize (Fl y (proj1 (list_elem_of_In _ _) Iy)). apply orb_true_iff in Fl as [Ny|Fy].
  { exfalso. destruct x as [xn xv], y as [yn yv]. cbn [snd] in *. destruct yv; try discriminate Ny. destruct xv; try discriminate Nu; discriminate Ey. }
  pose proof (fields_dotted_find (length n) (length n) n obj G Pl ltac:(lia) ltac:(lia)) as Fd.
  unfold key_value in *. unfold single in S. rewrite field_value_find in * by done.
  destruct (find_elem (length n) n obj) as [[en v]|]; cbn [fmap option_fmap option_map default from_option id snd] in *.
  - apply negb_true_iff in S. destruct Fd as [Fd|Fd]; [congruence|]. rewrite (getFieldsDotted_single _ _ _ Fd) in Fy by (cbn; lia).
    cbn [sl_find id] in Fy. destruct (equivb elem_lt_without_field (en, v) y) eqn:Eq; [|done]. apply equivb_true in Eq as [E1 E2]. unfold elem_lt_without_field in E1, E2.
    rewrite (cmp_name en []) in E1. change (Element.woCompare y (en, v) false) with (cmp y ([], v)) in E2.
    pose proof (cmp_opp m _ _ D Dy). rewrite <- !(inject_cmp m) in * by done.
    pose proof (woCompare_trans (inject m ([], v)) (inject m y) (inject m x)). pose proof (woCompare_trans (inject m x) (inject m y) (inject m ([], v))).
    pose proof (woCompare_opp (inject m x) (inject m y)). pose proof (woCompare_opp (inject m ([], v)) (inject m x)). lia.
  - by rewrite (getFieldsDotted_single _ _ _ Fd) in Fy by (cbn; lia).
Qed.
End Sets.
