(* ===== verification/QueryBounds.v ===== *)
(** * The ranges of a query hold what the query matches

    The ranges that QueryParse derives from a query are compared with the matcher of Matcher: a document
    that the query matches has, in each field, a value that the range of the field holds.  So a scan of
    an index over these ranges visits the keys of all the documents that match.

    The document has one value in each of the fields of the index, and the queries are those for which
    the two parts of the code agree: see [rangeable]. *)

From S2P Require Import Prelude StdContainers Bson BsonOrder BsonObj DocOrder FieldElement FieldRange FieldRangeSet FieldRangeVector RangeIterator IndexBounds QueryOps Matcher KeyGenerator CoveredMatcher QueryRange QueryParse OperatorRange MatchValues.
Import MatchType.
#[local] Open Scope Z_scope.

(** ** The parser of the matcher only adds *)

Definition grows (m m' : Matcher) : Prop :=
  _basics m ⊆ _basics m' ∧ _regexs m ⊆ _regexs m' ∧ _andMatchers m ⊆ _andMatchers m' ∧ _constrainIndexKey m' = _constrainIndexKey m.

Lemma grows_refl m : grows m m.
Proof. done. Qed.

Lemma grows_trans a b c : grows a b → grows b c → grows a c.
Proof. intros (A1 & A2 & A3 & A4) (B1 & B2 & B3 & B4). split_and!; [by etrans..|by rewrite B4]. Qed.

Lemma grows_flags a b c d m m' : grows m m' → grows m (Parse.set_flags a b c d m').
Proof. done. Qed.

Lemma grows_basic em m m' : grows m m' → grows m (Parse.add_basic em m').
Proof. intros (A1 & A2 & A3 & A4). split_and!; cbn; try done. set_solver. Qed.

Lemma grows_addBasic e op isNot m m' : grows m m' → grows m (Parse.addBasic e op isNot m').
Proof. unfold Parse.addBasic. destruct e.2; try done; apply grows_basic. Qed.

Lemma grows_clauses a o n m : grows m (Parse.add_clauses a o n m).
Proof. split_and!; cbn; try done. set_solver. Qed.

Lemma grows_where w m : grows m (Parse.set_where w m).
Proof. done. Qed.

Lemma grows_addRegex n r f isNot m m' : Parse.addRegex n r f isNot m = Ok m' → grows m m'.
Proof. unfold Parse.addRegex. intros E. parse_inv. destruct isNot; parse_inv; split_and!; cbn; try done; set_solver. Qed.
#[local] Hint Resolve grows_refl grows_flags grows_basic grows_addBasic grows_clauses grows_where grows_addRegex : tokumx.

Section Grows.
Context (pe : list Z → bval → Matcher → result match_error Matcher).

Lemma grows_addOp en ev fn fv isNot r f m x : Parse.addOp pe en ev fn fv isNot r f m = Ok x → grows m (Parse.op_matcher x).
Proof.
  unfold Parse.addOp. generalize (Query.getGtLtOp (-1) fn). intros op.
  destruct (op =? -1). { destruct (_ && _); [|done]. intros E. by inv E. }
  destruct ((op =? GT) || (op =? GTE) || (op =? LT) || (op =? LTE)). { intros E. inv E. cbn [Parse.op_matcher]. auto with tokumx. }
  destruct (op =? NE). { intros E. inv E. cbn [Parse.op_matcher]. auto with tokumx. }
  destruct ((op =? opALL) || (op =? opIN)). { destruct fv; try done; intros E; parse_inv; cbn [Parse.op_matcher]; auto with tokumx. }
  destruct (op =? NIN). { destruct fv; try done; intros E; parse_inv; cbn [Parse.op_matcher]; auto with tokumx. }
  destruct (op =? opMOD). { intros E. parse_inv. cbn [Parse.op_matcher]. auto with tokumx. }
  destruct (op =? opTYPE). { intros E. parse_inv. cbn [Parse.op_matcher]. auto with tokumx. }
  destruct (op =? opELEM_MATCH). { intros E. parse_inv. cbn [Parse.op_matcher]. auto with tokumx. }
  destruct (op =? opSIZE). { intros E. inv E. cbn [Parse.op_matcher]. auto with tokumx. }
  destruct (op =? opEXISTS). { intros E. inv E. cbn [Parse.op_matcher]. auto with tokumx. }
  destruct (op =? opREGEX). { destruct isNot; [done|]. destruct fv; intros E; by inv E. }
  destruct (op =? opOPTIONS). { destruct isNot; [done|]. intros E; by inv E. }
  destruct (op =? opWITHIN); [done|]. destruct (_ || _); [|done]. intros E; by inv E.
Qed.

Lemma grows_not_ops en ev o r f m x : Parse.not_ops pe en ev o r f m = Ok x → grows m (Parse.op_matcher x).
Proof.
  revert r f m. induction o as [|[n v] o IH]; intros r f m; cbn [Parse.not_ops]; intros E; parse_inv; [done|].
  eapply grows_trans; [by eapply grows_addOp|by eapply IH].
Qed.

Lemma grows_operators en ev o st x : Parse.operators pe en ev o st = Ok x → grows (Parse.op_matcher st) (Parse.op_matcher x).
Proof.
  revert st. induction o as [|[n v] o IH]; intros st; cbn [Parse.operators]; [intros E; by inv E|].
  destruct (_ && _); [|intros E; by inv E]. destruct (Query.tail_is n 1 _).
  - destruct v; try done; intros E; parse_inv; apply IH in E; (eapply grows_trans; [|exact E]).
    + apply grows_not_ops in E1. exact E1.
    + apply grows_addRegex in E0. exact E0.
  - intros E. parse_inv. apply grows_addOp in E0. destruct (Parse.op_added a); [|by inv E]. eapply grows_trans; [exact E0|by apply IH].
Qed.
End Grows.

Lemma grows_elem n v m m' : Parse.parse_elem n v m = Ok m' → grows m m'.
Proof.
  rewrite parse_elem_eq. intros E. case_match; [discriminate|]. clear H. cbv zeta in E.
  repeat (case_match; [parse_inv; auto with tokumx|]).
  destruct v; try (case_match; parse_inv; by auto with tokumx); try (parse_inv; by auto with tokumx).
  - parse_inv. apply grows_operators in E0. cbn in E0. assert (grows m a0) as G.
    { eapply grows_trans; [exact E0|]. destruct (Parse.op_regex a); [by eapply grows_addRegex|by inv E1]. }
    repeat case_match; parse_inv; auto with tokumx.
  - by eapply grows_addRegex.
Qed.

Lemma grows_fields o m m' : Parse.parse_fields Parse.parse_elem o m = Ok m' → grows m m'.
Proof.
  revert m. induction o as [|[n v] o IH]; intros m; cbn [Parse.parse_fields]; intros E; parse_inv; [done|].
  eapply grows_trans; [by eapply grows_elem|by apply IH].
Qed.

(** ** The ranges of the fields *)

Lemma range_assign `{FieldElement K} (s : FieldRangeSet K) n r f :
  RangeSet.range (RangeSet.assign s n r) f = if bool_decide (f = n) then r else RangeSet.range s f.
Proof.
  unfold RangeSet.range, RangeSet.assign, RangeSet.set_ranges, RangeSet.lookup. cbn [_ranges].
  assert (∀ a b, equivb name_lt a b = bool_decide (b = a)) as Eq.
  { intros a b. apply eq_true_iff_eq. rewrite name_equiv, bool_decide_eq_true. split; congruence. }
  induction (_ranges s) as [|[k v] l IH]; cbn [map_assign sl_find fst]; [by rewrite Eq; case_bool_decide|].
  destruct (name_lt n k) eqn:E1; [cbn [sl_find fst]; rewrite !Eq; by case_bool_decide|].
  destruct (name_lt k n) eqn:E2; cbn [sl_find fst]; rewrite !Eq.
  - destruct (decide (f = k)) as [->|F]; [|by rewrite (bool_decide_eq_false_2 (f = k))]. rewrite (bool_decide_eq_true_2 (k = k)) by done.
    case_bool_decide; [|done]. subst k. by rewrite E1 in E2.
  - assert (k = n) as ->; [|by repeat case_bool_decide]. by apply name_equiv, equivb_true.
Qed.

(** A regular expression on a field *)
Lemma regex_value PartialMatch obj n r f p b :
  good_name n = true → single n obj = true → plain_doc obj → regex_faithful PartialMatch r f → Regex.simpleRegex r f = Some (p, b) →
  Match.regex_ok PartialMatch [] obj (mkRegex n r f [] false) = true → regex_accepts (key_value n obj) r f p.
Proof.
  intros G S Pl F Hp R. unfold Match.regex_ok in R. cbn [rm_fieldName rm_isNot] in R. rewrite xorb_false_r, negb_involutive in R.
  apply existsb_exists in R as ([en v] & I & R). cbn [snd] in R. apply list_elem_of_In in I.
  pose proof (fields_dotted_find (length n) (length n) n obj G Pl ltac:(lia) ltac:(lia)) as Fd.
  unfold key_value. unfold single in S. rewrite field_value_find in * by done.
  destruct (find_elem (length n) n obj) as [[en' v']|]; cbn [fmap option_fmap option_map default from_option id snd] in *.
  2: { rewrite (getFieldsDotted_single _ _ _ Fd) in I by (cbn; lia). by apply not_elem_of_nil in I. }
  apply negb_true_iff in S. destruct Fd as [Fd|Fd]; [congruence|]. rewrite (getFieldsDotted_single _ _ _ Fd) in I by (cbn; lia).
  apply list_elem_of_singleton in I. inv I. unfold Match.regexMatches in R. cbn [_prefix _regex _flags] in R.
  assert (∀ s, PartialMatch r (flags2options f) (cstr s) = true → p `prefix_of` s) as Str.
  { intros s H. transitivity (cstr s); [by eapply F|apply cstr_prefix]. }
  unfold regex_accepts. destruct v'; try discriminate R; [left; eexists; split; [done|]; by apply Str| |left; eexists; split; [done|]; by apply Str].
  right. apply andb_true_iff in R as [R1 R2]. apply bool_decide_eq_true in R1, R2. by subst.
Qed.

Section Query.
Context (PartialMatch : list Z → RE_Options → list Z → bool) (where_exec : bval → bobj → option bool).
Context (m : date_mode) (optimize : bool) (obj : bobj).
#[local] Abbreviation matches := (Match.matches PartialMatch where_exec).
#[local] Abbreviation inj := (inject m).
#[local] Abbreviation key f := (key_value f obj).
Implicit Types (mt : Matcher) (s : FieldRangeSet (scan_elem m)).

(** *** Queries for which the ranges and the matcher agree *)

Definition regex_good (r f : list Z) : Prop := regex_range_spec m r f ∧ regex_faithful PartialMatch r f.

(** Operands that are neither absent nor one of the ends of the order *)
Definition proper (v : bval) : bool := negb (is_undefined v || QueryRange.is_min v || QueryRange.is_max v).

(** An operator and its operand *)
Definition op_rangeable (e : elem) : Prop :=
  let op := Query.getGtLtOp Equality e.1 in
  elem_dom m e = true ∧ proper e.2 = true ∧
  ((op = LT ∨ op = LTE ∨ op = GT ∨ op = GTE) ∧ Match.is_null e.2 = false ∨
   (op = NE ∨ op = NIN ∨ op = opSIZE ∨ op = opMOD ∨ op = opEXISTS ∨ op = opNEAR ∨ op = opMAX_DISTANCE ∨ op = opGEO_INTERSECTS) ∨
   op = opIN ∧ is_regex e.2 = false ∧
     (∀ o, embedded e.2 = Some o → Forall (λ x : elem, is_undefined x.2 = false) o ∧ ∀ n r f, (n, BRegEx r f) ∈ o → regex_good r f) ∨
   op = opALL ∧ (∃ o, e.2 = BArray o ∧ Forall (λ x : elem, is_regex x.2 = false ∧ Parse.is_elemMatch x.2 = false) o ∧ Match.is_null (first_or_undefined o).2 = false) ∨
   op = opTYPE ∧ (∃ t v, Element.numberInt e.2 = Some t ∧ of_type t = Some v ∧
     elem_dom m ([], Build.minForType v) = true ∧ elem_dom m ([], Build.maxForType v) = true)).

(** [$regex] and [$options] *)
Definition regex_op (e : elem) : Prop := (e.1 = bytes "$regex" ∨ e.1 = bytes "$options") ∧ ∃ t, e.2 = BString t.

(** A condition on one field: a value, a regular expression or operators *)
Inductive condition (n : list Z) (v : bval) : Prop :=
| cond_value : elem_dom m (n, v) = true → proper v = true → is_regex v || has_regex v = false → QueryParse.is_equality v = true →
    (∀ o, v = BObject o → Query.tail_is (Query.first_name o) 1 (bytes "not") = false) → condition n v
| cond_regex r f : v = BRegEx r f → regex_good r f → condition n v
| cond_ops o : v = BObject o → o ≠ [] → NoDup o.*1 → Forall (λ e, op_rangeable e ∨ regex_op e) o →
    (Fields.hasField (bytes "$regex") o = true → regex_good (string_field (bytes "$regex") o) (string_field (bytes "$options") o)) → condition n v.

(** A field of a query: a condition, [$and], or another clause, which bounds no field *)
Inductive rangeable : list Z → bval → Prop :=
| r_cond n v : nth 0 n 0 ≠ 36 → condition n v → rangeable n v
| r_and o : Forall (λ e : elem, ∃ x, e.2 = BObject x ∧ Forall (λ e' : elem, rangeable e'.1 e'.2) x) o → rangeable (bytes "$and") (BArray o)
| r_clause n v : nth 0 n 0 = 36 → n ≠ bytes "$and" → QueryParse.is_equality v = true → (∀ e, v = BArray [e] → n ≠ bytes "$or") → rangeable n v.

(** *** The matcher on the document *)

Definition basic_true (em : ElementMatcher Matcher) : Prop :=
  Match.basic_matches PartialMatch em (match _subMatcher em with Some sm => Some (λ o, matches sm o) | None => None end)
    (map (λ am o, matches am o) (_allMatchers em)) [] obj = Some true.

Definition good mt : Prop :=
  Forall basic_true (_basics mt) ∧ Forall (λ rm, Match.regex_ok PartialMatch [] obj rm = true) (_regexs mt) ∧
  Forall (λ am, matches am obj = Some true) (_andMatchers mt).

Lemma good_grows mt mt' : grows mt mt' → good mt' → good mt.
Proof.
  intros (A & B & C & _) (G1 & G2 & G3). rewrite !Forall_forall in *. split_and!; apply Forall_forall; auto.
Qed.

Lemma matches_good mt : _constrainIndexKey mt = [] → matches mt obj = Some true → good mt.
Proof.
  rewrite matches_eq. intros ->. destruct (Match.every _ (_basics mt)) as [[]|] eqn:B; cbn [mbind option_bind negb]; [|done|done]. apply every_true in B.
  destruct (forallb _ (_regexs mt)) eqn:R; cbn [negb]; [|done].
  destruct (Match.every _ (_andMatchers mt)) as [[]|] eqn:An; cbn [mbind option_bind negb]; [|done|done]. apply every_true in An.
  intros _. split_and!; [done| |done]. apply Forall_forall. rewrite forallb_forall in R. intros rm I. apply R. by apply list_elem_of_In.
Qed.

(** *** One operator *)

Definition field_ok (f : list Z) : Prop :=
  good_name f = true ∧ nth 0 f 0 ≠ 36 ∧ single f obj = true ∧ elem_dom m ([], key f) = true ∧ bounded (key f) = true.

Lemma getGtLtOp_def d d' fn : Query.getGtLtOp d fn ≠ d → Query.getGtLtOp d' fn = Query.getGtLtOp d fn.
Proof.
  unfold Query.getGtLtOp. cbv zeta.
  repeat match goal with |- context [if ?b then _ else _] => destruct b end; done.
Qed.

Lemma proper_inv v : proper v = true → is_undefined v = false ∧ QueryRange.is_min v = false ∧ QueryRange.is_max v = false.
Proof. unfold proper. intros H. apply negb_true_iff in H. rewrite !orb_false_iff in H. tauto. Qed.

Lemma add_basic_true em mt : Forall basic_true (_basics (Parse.add_basic em mt)) → basic_true em.
Proof. cbn. rewrite Forall_app, Forall_singleton. by intros [_ ?]. Qed.

Lemma addBasic_true n v op mt :
  proper v = true → Forall basic_true (_basics (Parse.addBasic (n, v) op false mt)) → basic_true (Parse.simple (n, v) op false).
Proof. intros (_ & Mn & Mx)%proper_inv. unfold Parse.addBasic. cbn [snd]. destruct v; try discriminate Mn; try discriminate Mx; apply add_basic_true. Qed.

Section Operator.
Context (pe : list Z → bval → Matcher → result match_error Matcher).
Context (Plain : plain_doc obj) (n : list Z) (ev : bobj) (fn : list Z) (fv : bval) (mt : Matcher) (x : Parse.op_state) (rg : FieldRange (scan_elem m)).
Context (r : option (list Z)) (f : list Z).
Context (Fn : field_ok n) (D : elem_dom m (fn, fv) = true) (Pr : proper fv = true).
Context (Add : Parse.addOp pe n (BObject ev) fn fv false r f mt = Ok x) (Good : Forall basic_true (_basics (Parse.op_matcher x))).
Context (Make : QueryRange.make inj optimize (fn, fv) false = Ok rg).
#[local] Abbreviation op := (Query.getGtLtOp Equality fn).

Ltac add_step O :=
  unfold Parse.addOp in Add; rewrite (getGtLtOp_def Equality (-1)), O in Add by (rewrite O; discriminate);
  cbn -[Parse.in_matcher Parse.mod_matcher Parse.type_matcher Parse.addBasic Parse.add_basic Parse.set_flags] in Add.

Lemma order_step : op = LT ∨ op = LTE ∨ op = GT ∨ op = GTE → Match.is_null fv = false → holds m (key n) rg.
Proof.
  intros O Nu. destruct Fn as (G & _ & S & Dw & Bw). destruct (proper_inv _ Pr) as (U & _).
  assert (basic_true (Parse.simple (n, fv) op false)) as B.
  { destruct O as [O|[O|[O|O]]]; rewrite O; add_step O; parse_inv; by eapply addBasic_true. }
  apply (order_value PartialMatch obj n G S (Parse.simple (n, fv) op false)) in B as [C B]; [|done..].
  eapply make_order; [done|done|exact O|done| |exact Make]. split; [done|]. cbn in B.
  unfold order_holds.
  pose proof (cmp_opp m _ _ Dw D) as Opp. rewrite (cmp_value [] (key n) fn fv C) in *. cbn [snd] in *.
  destruct O as [O|[O|[O|O]]]; rewrite O in *; cbn in B |- *; lia.
Qed.

Lemma ne_step : op = NE → holds m (key n) rg.
Proof.
  intros O. destruct Fn as (G & _ & S & Dw & Bw). destruct (proper_inv _ Pr) as (U & Mn & Mx).
  add_step O. parse_inv. cbn [Parse.op_matcher] in Good. apply addBasic_true in Good; [|done].
  apply (ne_value PartialMatch obj n G S) in Good; [|done]. eapply make_ne; [exact Dw|exact O|exact D|done|done|exact Good|exact Make].
Qed.

Lemma unbounded_step : op = NIN ∨ op = opSIZE ∨ op = opNEAR ∨ op = opMAX_DISTANCE ∨ op = opGEO_INTERSECTS → holds m (key n) rg.
Proof.
  intros O. destruct Fn as (G & _ & S & Dw & Bw).
  eapply make_unbounded; [done|done| | | | |exact Make]; [left|..]; destruct O as [O|[O|[O|[O|O]]]]; rewrite O; done.
Qed.

Lemma mod_step : op = opMOD → holds m (key n) rg.
Proof.
  intros O. destruct Fn as (G & _ & S & Dw & Bw). eapply make_mod; [done|done|done| |exact Make]. add_step O. parse_inv. cbn [Parse.op_matcher] in Good.
  apply add_basic_true in Good. unfold Parse.mod_matcher in E. parse_inv. cbn [snd] in *.
  refine (mod_value PartialMatch obj n G S _ _ _ _ _ _ _ Good); [done|done|done|]. cbn [_toMatch snd]. destruct (embedded fv); [by eexists|done].
Qed.

Lemma exists_step : op = opEXISTS → holds m (key n) rg.
Proof.
  intros O. destruct Fn as (G & _ & S & Dw & Bw). eapply make_exists; [exact Dw|exact O| |exact Make]. add_step O. parse_inv. cbn [Parse.op_matcher] in Good.
  apply addBasic_true in Good; [|done]. by eapply (exists_value PartialMatch obj n G S).
Qed.

Lemma type_step : op = opTYPE → (∃ t v, Element.numberInt fv = Some t ∧ of_type t = Some v ∧
  elem_dom m ([], Build.minForType v) = true ∧ elem_dom m ([], Build.maxForType v) = true) → holds m (key n) rg.
Proof.
  intros O (t & v & N & T & D1 & D2). destruct Fn as (G & _ & S & Dw & Bw). add_step O. parse_inv. cbn [Parse.op_matcher] in Good.
  apply add_basic_true in Good. unfold Parse.type_matcher in E. cbn [snd] in E. rewrite N in E. cbn [Parse.defined result_bind] in E. injection E as <-.
  assert (BSONType.of_val (key n) = t) as Et.
  { refine (type_value PartialMatch obj n G S _ _ _ _ _ _ _ _ Good); [done|done|done|done|]. cbn [_type]. by intros ->. }
  rewrite <- Et in N, T. destruct (of_type_val _ _ T) as [E1 E2]. rewrite E1 in D1. rewrite E2 in D2. eapply make_type; [exact Dw|exact Bw|exact O|exact N|exact D1|exact D2|exact Make].
Qed.

Lemma in_step : op = opIN → is_regex fv = false →
  (∀ o, embedded fv = Some o → Forall (λ e : elem, is_undefined e.2 = false) o ∧ ∀ n r f, (n, BRegEx r f) ∈ o → regex_good r f) → holds m (key n) rg.
Proof.
  intros O R H. destruct Fn as (G & _ & S & Dw & Bw). add_step O.
  assert (∃ o em, embedded fv = Some o ∧ Parse.in_matcher pe (n, BObject ev) opIN o false = Ok em ∧ basic_true em) as (o & em & Eo & Em & B).
  { destruct fv; try done; parse_inv; do 2 eexists; (split; [done|]); (split; [exact E|]); exact (add_basic_true _ _ Good). }
  destruct (H o Eo) as [U Rx]. unfold Parse.in_matcher in Em. destruct (Parse.parse_in pe opIN o _) as [[[vs rs] ms]|] eqn:P; [|done]. cbn [result_bind] in Em. parse_inv.
  pose proof (elem_dom_sub m _ _ _ D Eo) as Fo.
  pose proof (in_value PartialMatch m pe obj n ev o vs rs ms _ _ G S Dw Fo U (λ n' r' f' I, proj2 (Rx n' r' f' I)) P B) as V.
  eapply in_range_holds; [exact Dw|exact Bw|exact Eo|exact Fo|intros n' r' f' I; exact (proj1 (Rx n' r' f' I))|exact V|]. by eapply make_in.
Qed.

Lemma all_point_first o y :
  Forall (λ e : elem, is_regex e.2 = false ∧ Parse.is_elemMatch e.2 = false) o → QueryRange.all_point o = Some y → ∃ o', o = y :: o'.
Proof.
  intros F. destruct F as [|e o [Fr Fe] F]; [done|]. cbn [QueryRange.all_point]. change (is_elem_match e.2) with (Parse.is_elemMatch e.2).
  rewrite Fr, Fe. intros E. inv E. by eexists.
Qed.

Lemma all_step : op = opALL →
  (∃ o, fv = BArray o ∧ Forall (λ e : elem, is_regex e.2 = false ∧ Parse.is_elemMatch e.2 = false) o ∧ Match.is_null (first_or_undefined o).2 = false) →
  holds m (key n) rg.
Proof.
  intros O (o & -> & F & Nu). destruct Fn as (G & _ & S & Dw & Bw). add_step O. parse_inv. cbn [Parse.op_matcher] in Good. apply add_basic_true in Good.
  unfold Parse.in_matcher in E. destruct (Parse.parse_in pe opALL o _) as [[[vs rs] ms]|] eqn:P; [|done]. cbn [result_bind] in E. parse_inv.
  assert (Fo : Forall (λ e, elem_dom m e = true) o) by (eapply elem_dom_sub; [exact D|done]).
  assert (ms = []) as Ms. { destruct (parse_in_found m pe opALL o ([], [], []) (vs, rs, ms) Fo F ltac:(by apply Forall_nil) P) as (_ & _ & X & _). exact X. }
  subst ms. eapply make_all; [exact Dw|exact Bw|exact O|exact D| | |exact Make].
  - intros y Y. destruct (all_point_first o y F Y) as [o' ->]. apply Forall_cons in Fo as [Dy Fo]. split; [|done].
    eapply (all_value PartialMatch m pe obj n ev (y :: o') vs rs [] _ y); [done|done|done|done|by constructor|done|by left|done|exact P|exact Good].
  - intros _ n' rx f' p b I. rewrite Forall_forall in F. by destruct (F _ I).
Qed.

Lemma op_step : op_rangeable (fn, fv) → holds m (key n) rg.
Proof.
  intros (_ & _ & H). cbn [fst snd] in H. destruct H as [[O Nu]|[O|[(O & R & H)|[[O H]|[O H]]]]].
  - by apply order_step.
  - destruct O as [O|[O|[O|[O|[O|O]]]]]; [by apply ne_step|apply unbounded_step; tauto|apply unbounded_step; tauto|by apply mod_step|by apply exists_step|apply unbounded_step; tauto].
  - by apply in_step.
  - by apply all_step.
  - by apply type_step.
Qed.
End Operator.

(** *** The two parsers side by side *)

Definition bounds_hold s : Prop := ∀ f, field_ok f → holds m (key f) (RangeSet.range s f).

Lemma intersect_hold n e s s' :
  (field_ok n → ∀ rg, QueryRange.make inj optimize e false = Ok rg → holds m (key n) rg) →
  QueryParse.intersectMatchField inj optimize n e false s = Ok s' → bounds_hold s → bounds_hold s'.
Proof.
  intros H. unfold QueryParse.intersectMatchField. destruct (QueryRange.make _ _ _ _) as [rg|] eqn:M; [|done]. cbn [result_bind]. intros E B. inv E. intros f Ff.
  set (r := Range.intersect _ _ _). assert (RangeSet.range (if negb (_exactMatchRepresentation r) then QueryParse.set_exact false (RangeSet.assign s n r) else RangeSet.assign s n r) f
    = RangeSet.range (RangeSet.assign s n r) f) as -> by (by destruct (negb _)).
  rewrite range_assign. case_bool_decide as E; [|by apply B]. subst f. destruct (H Ff rg eq_refl) as [O1 C1]. destruct (B n Ff) as [O2 C2].
  split; [by apply intersect_ok|by apply intersect_superset].
Qed.

Ltac op_cases H := destruct H as [[H _]|[H|[(H & _)|[[H _]|[H _]]]]]; destruct_or? H.

Lemma op_named_ops e : op_rangeable e ∨ regex_op e → Query.getGtLtOp Equality e.1 ≠ Equality.
Proof.
  intros [(_ & _ & H)|[[-> | ->] _]]; [|done|done].
  op_cases H; rewrite H; done.
Qed.

Lemma regex_op_holds n fn fv rg :
  field_ok n → regex_op (fn, fv) → QueryRange.make inj optimize (fn, fv) false = Ok rg → holds m (key n) rg.
Proof.
  intros (_ & _ & _ & Dw & Bw) [O [t E]] M. cbn [fst snd] in *. subst fv.
  assert (Query.getGtLtOp Equality fn = opREGEX ∨ Query.getGtLtOp Equality fn = opOPTIONS) as Op by (destruct O as [-> | ->]; [left|right]; done).
  rewrite make_op in M; [|destruct Op as [-> | ->]; done|done|by left].
  assert (QueryRange.op_bounds (Query.getGtLtOp Equality fn) (fn, BString t) (Element.trueValue (BString t)) = Ok ([QueryRange.everything], true)) as Eb
    by (destruct Op as [-> | ->]; done).
  rewrite Eb in M. cbn [result_bind fst snd] in M. inv M. rewrite andb_true_r. destruct (everything_ok m (key n)) as (X & Y & Z); [done..|].
  by apply (holds_bracket m optimize (key n) Dw Bw QueryRange.everything).
Qed.

Lemma handleOp_plain hmf n fn fv s :
  op_rangeable (fn, fv) ∨ regex_op (fn, fv) →
  QueryParse.handleOp inj optimize hmf n fn fv false s = QueryParse.intersectMatchField inj optimize n (fn, fv) false s.
Proof.
  intros H. unfold QueryParse.handleOp. destruct (Z.eqb_spec (Query.getGtLtOp Equality fn) opALL) as [E|E].
  - destruct H as [(_ & _ & H)|[R _]]; [|cbn [fst] in R; destruct R as [R|R]; subst fn; discriminate E]. cbn [fst snd] in H. rewrite E in H.
    destruct H as [[O _]|[O|[(O & _)|[[_ (o & -> & F & _)]|[O _]]]]]; destruct_or? O; try discriminate O.
    destruct F as [|[en v] o [_ F] _]; [done|]. cbn [snd] in F. destruct v as [| | |[|[an av] o']| | | | | | | | | | | | | | | |]; try done.
    unfold Parse.is_elemMatch in F. cbn [Query.first_name fst] in F. change Equality with 0. by rewrite F.
  - destruct (Z.eqb_spec (Query.getGtLtOp Equality fn) opELEM_MATCH) as [E'|]; [|done]. exfalso.
    destruct H as [(_ & _ & H)|[R _]]; [|cbn [fst] in R; destruct R as [R|R]; subst fn; discriminate E']. cbn [fst snd] in H. rewrite E' in H.
    op_cases H; discriminate H.
Qed.

(** The state of the parser of the matcher after an operator *)
Lemma addOp_state pe n ev fn fv r f mt x :
  op_rangeable (fn, fv) ∨ regex_op (fn, fv) → Parse.addOp pe n ev fn fv false r f mt = Ok x →
  Parse.op_added x = true ∧
  Parse.op_regex x = (if bool_decide (fn = bytes "$regex") then Some (Parse.str_safe fv) else r) ∧
  Parse.op_flags x = (if bool_decide (fn = bytes "$options") then Parse.str_safe fv else f).
Proof.
  intros H. pose proof (op_named_ops _ H) as N. cbn [fst] in N. destruct H as [(_ & _ & H)|[R [t E]]].
  2: cbn [fst snd] in R, E; destruct R as [R|R]; subst fn fv; unfold Parse.addOp; cbn; intros E; by inv E.
  cbn [fst snd] in H. rewrite !bool_decide_eq_false_2.
  2, 3: intros ->; change (Query.getGtLtOp Equality (bytes "$options")) with opOPTIONS in H; change (Query.getGtLtOp Equality (bytes "$regex")) with opREGEX in H;
    op_cases H; discriminate H.
  unfold Parse.addOp. rewrite (getGtLtOp_def Equality (-1)) by done. intros E. set (op := Query.getGtLtOp Equality fn) in *. clearbody op.
  assert (op ≠ -1 ∧ op ≠ opREGEX ∧ op ≠ opOPTIONS) as (N1 & N2 & N3).
  { op_cases H; subst op; done. }
  clear H N. apply Z.eqb_neq in N1, N2, N3. rewrite N1, N2, N3 in E. 
  repeat match goal with H : (if ?b then _ else _) = Ok _ |- _ => destruct b end; try done; try (by inv E); destruct fv; try done; parse_inv; done.
Qed.

Lemma ops_step pe n ev fn fv o st x :
  op_rangeable (fn, fv) ∨ regex_op (fn, fv) → Parse.operators pe n ev ((fn, fv) :: o) st = Ok x →
  ∃ y, Parse.addOp pe n ev fn fv false (Parse.op_regex st) (Parse.op_flags st) (Parse.op_matcher st) = Ok y ∧
    Parse.op_added y = true ∧ Parse.operators pe n ev o y = Ok x.
Proof.
  intros H. pose proof (op_named_ops _ H) as N. cbn [fst] in N. cbn [Parse.operators]. rewrite (getGtLtOp_dollar Equality fn) by done.
  destruct (Query.tail_is fn 1 (bytes "not")) eqn:T; [by rewrite (getGtLtOp_not Equality fn T) in N|]. intros E. parse_inv.
  destruct (addOp_state _ _ _ _ _ _ _ _ _ H E0) as (A & _). rewrite A in E. by exists a.
Qed.

Lemma ops_hold hmf pe n ev o st x s s' :
  plain_doc obj → Forall (λ e, op_rangeable e ∨ regex_op e) o →
  Parse.operators pe n (BObject ev) o st = Ok x → Forall basic_true (_basics (Parse.op_matcher x)) →
  QueryParse.operators inj optimize hmf n o s = Ok s' → bounds_hold s → bounds_hold s'.
Proof.
  intros Plain F. revert st s. induction F as [|[fn fv] o H F IH]; intros st s P G E B; [cbn in E; by inv E|].
  destruct (ops_step _ _ _ _ _ _ _ _ H P) as (y & Add & _ & P'). cbn [QueryParse.operators] in E.
  assert (bool_decide (fn = bytes "$not") = false) as Nn. { apply bool_decide_eq_false. intros ->. by apply (op_named_ops _ H). }
  rewrite Nn, handleOp_plain in E by done. parse_inv. eapply (IH y); [done|done|exact E|]. eapply intersect_hold; [|exact E0|done].
  intros Fn rg M. destruct H as [H|H]; [|by eapply regex_op_holds].
  assert (Forall basic_true (_basics (Parse.op_matcher y))) as Gy.
  { apply grows_operators in P' as (I & _). rewrite Forall_forall in *. auto. }
  destruct H as (D & Pr & H'). eapply op_step; [done|done|exact D|done|exact Add|done|exact M|by split_and!].
Qed.

Lemma ops_state pe n ev o st x :
  NoDup o.*1 → Forall (λ e, op_rangeable e ∨ regex_op e) o → Parse.operators pe n ev o st = Ok x →
  (o ≠ [] → Parse.op_added x = true) ∧
  Parse.op_regex x = (match Fields.getField (bytes "$regex") o with Some e => Some (Parse.str_safe e.2) | None => Parse.op_regex st end) ∧
  Parse.op_flags x = (match Fields.getField (bytes "$options") o with Some e => Parse.str_safe e.2 | None => Parse.op_flags st end).
Proof.
  intros N F. revert st N. induction F as [|[fn fv] o H F IH]; intros st N P; [cbn in P; by inv P|].
  destruct (ops_step _ _ _ _ _ _ _ _ H P) as (y & Add & A & P'). rewrite fmap_cons in N. apply NoDup_cons in N as [Ni N]. cbn [fst] in Ni.
  destruct (IH y N P') as (I1 & I2 & I3). destruct (addOp_state _ _ _ _ _ _ _ _ _ H Add) as (_ & R & Fl).
  split. { intros _. destruct o; [cbn in P'; by inv P'|by apply I1]. }
  assert (∀ k, k = fn → Fields.getField k o = None) as Gn.
  { intros k ->. clear -Ni. induction o as [|[k v] o IH]; [done|]. cbn. rewrite fmap_cons in Ni. apply not_elem_of_cons in Ni as [Ni N].
    cbn [fst] in Ni. rewrite bool_decide_eq_false_2 by congruence. by apply IH. }
  cbn [Fields.getField]. rewrite I2, I3, R, Fl. clear I1 I2 I3 R Fl. split.
  - repeat case_bool_decide; cbn [fst snd] in *; try congruence. by rewrite Gn.
  - repeat case_bool_decide; cbn [fst snd] in *; try congruence. by rewrite Gn.
Qed.

Lemma no_operator n : nth 0 n 0 ≠ 36 → Query.getGtLtOp Equality n = Equality.
Proof. intros N. unfold Query.getGtLtOp. by rewrite (proj2 (Z.eqb_neq _ _) N). Qed.

(** The range of a regular expression *)
Lemma regex_hold n v r f rg :
  plain_doc obj → field_ok n → is_regex v || has_regex v = true → QueryRange.regex_parts v = (r, f) → regex_good r f →
  Match.regex_ok PartialMatch [] obj (mkRegex n r f [] false) = true →
  QueryRange.make inj optimize (n, v) false = Ok rg → holds m (key n) rg.
Proof.
  intros Plain (G & N0 & S & Dw & Bw) R E [Rs Rf] Acc M.
  assert (Query.getGtLtOp Equality n = Equality) as O by (by apply no_operator).
  assert (QueryRange.regex_range inj Equality v false = Ok rg) as M'.
  { unfold QueryRange.make in M. cbn [fst snd] in M. rewrite O in M. cbn [Equality opIN Z.eqb] in M. rewrite andb_false_r in M. destruct v; try discriminate R; rewrite R in M; exact M. }
  destruct (regex_range_ok m (key n) Dw Bw Equality v r f rg E Rs M') as [K C]. split; [done|]. apply C.
  unfold QueryRange.regex_range in M'. rewrite E in M'. destruct (Regex.simpleRegex r f) as [[p b]|] eqn:Sp; [|done]. exists p, b. split; [done|]. by eapply regex_value.
Qed.

(** A condition on a field *)
Lemma handleMatchField_eq n v s : QueryParse.handleMatchField inj optimize n v s =
  let hmf := QueryParse.handleMatchField inj optimize in
  let dollar := nth 0 n 0 =? Fields.dollar in
  if dollar && bool_decide (n = bytes "$and") then
    match v with
    | BArray ((_ :: _) as o) => QueryParse.handleConjunctionClauses hmf o s
    | _ => Err (RangeAssert 14816)
    end
  else
    let s := if dollar then QueryParse.adjustMatchField s else s in
    if dollar && bool_decide (n = bytes "$or") then
      match v with
      | BArray ([_] as o) => QueryParse.handleConjunctionClauses hmf o s
      | _ => Ok s
      end
    else if dollar && (bool_decide (n = bytes "$nor") || bool_decide (n = bytes "$where") || bool_decide (n = bytes "$atomic")) then Ok s
    else if QueryParse.is_equality v then QueryParse.intersectMatchField inj optimize n (n, v) false s
    else
      match v with
      | BObject o =>
          s <-? (if Fields.hasField (bytes "$regex") o then QueryParse.intersectMatchField inj optimize n (n, v) false s else Ok s) ;;
          QueryParse.operators inj optimize hmf n o s
      | _ => Err RangeUndefined
      end.
Proof. by destruct v. Qed.

(** On a field whose name has no dollar *)
Lemma parse_condition n v mt : nth 0 n 0 ≠ 36 → is_undefined v = false → Parse.parse_elem n v mt =
  match v with
  | BRegEx r f => Parse.addRegex n r f false mt
  | BObject o =>
      x <-? Parse.operators Parse.parse_elem n v o (Parse.mkOp false None [] mt) ;;
      mt <-? (match Parse.op_regex x with Some r => Parse.addRegex n r (Parse.op_flags x) false (Parse.op_matcher x) | None => Ok (Parse.op_matcher x) end) ;;
      Ok (if Parse.op_added x then mt else Parse.addBasic (n, v) Equality false mt)
  | BArray _ => Ok (Parse.addBasic (n, v) Equality false (Parse.set_flags false false true false mt))
  | _ => Ok (Parse.addBasic (n, v) Equality false mt)
  end.
Proof.
  intros N U. rewrite parse_elem_eq. cbv beta zeta. rewrite (proj2 (Z.eqb_neq _ _) N). cbn [andb].
  rewrite !(not_dollar_name n (bytes _) N) by done. cbn [orb]. destruct v; try done; try discriminate U.
  destruct (Parse.operators _ _ _ _ _) as [x|]; [|done]. cbn [result_bind]. destruct (match Parse.op_regex x with Some _ => _ | None => _ end); [|done]. cbn [result_bind].
  by destruct (Parse.op_added x).
Qed.

Lemma handle_condition n v s : nth 0 n 0 ≠ 36 → QueryParse.handleMatchField inj optimize n v s =
  if QueryParse.is_equality v then QueryParse.intersectMatchField inj optimize n (n, v) false s
  else
    match v with
    | BObject o =>
        s <-? (if Fields.hasField (bytes "$regex") o then QueryParse.intersectMatchField inj optimize n (n, v) false s else Ok s) ;;
        QueryParse.operators inj optimize (QueryParse.handleMatchField inj optimize) n o s
    | _ => Err RangeUndefined
    end.
Proof. intros N. rewrite handleMatchField_eq. cbv zeta. unfold Fields.dollar. rewrite (proj2 (Z.eqb_neq _ _) N). done. Qed.

(** The object of an equality adds one element. *)
Lemma equality_parse n v mt mt' :
  nth 0 n 0 ≠ 36 → proper v = true → is_regex v = false → QueryParse.is_equality v = true →
  (∀ o, v = BObject o → Query.tail_is (Query.first_name o) 1 (bytes "not") = false) →
  Parse.parse_elem n v mt = Ok mt' → Forall basic_true (_basics mt') → basic_true (Parse.simple (n, v) Equality false).
Proof.
  intros N Pr R Eq Nt. destruct (proper_inv _ Pr) as (U & _). rewrite parse_condition by done. intros E G.
  destruct v; try discriminate R; try (injection E as E; subst mt'; by eapply addBasic_true).
  specialize (Nt o eq_refl). unfold QueryParse.is_equality, Query.getGtLtOp_obj in Eq. apply andb_true_iff in Eq as [Eq _]. apply Z.eqb_eq in Eq.
  assert (Parse.operators Parse.parse_elem n (BObject o) o (Parse.mkOp false None [] mt) = Ok (Parse.mkOp false None [] mt) ∨
    ∃ e, Parse.operators Parse.parse_elem n (BObject o) o (Parse.mkOp false None [] mt) = Err e) as [Op|[e Op]].
  { destruct o as [|[fn fv] o]; [by left|]. cbn [Parse.operators Query.first_name fst] in *. destruct (_ && _); [|by left]. rewrite Nt.
    cbn [Parse.op_regex Parse.op_flags Parse.op_matcher]. unfold Parse.addOp.
    assert (Query.getGtLtOp (-1) fn = -1) as ->.
    { destruct (decide (Query.getGtLtOp (-1) fn = -1)) as [|X]; [done|]. pose proof (getGtLtOp_def (-1) 0 fn X) as Y. change Equality with 0 in Eq. rewrite Eq in Y.
      exfalso. clear -X Y. revert X Y. unfold Query.getGtLtOp. cbv zeta. repeat match goal with |- context [if ?b then _ else _] => destruct b end; done. }
    cbn [Z.eqb Pos.eqb negb andb]. destruct (Query.tail_is fn 1 (bytes "ref")); cbn [result_bind Parse.op_added]; [by left|right; by eexists]. }
  - rewrite Op in E. cbn [result_bind Parse.op_regex Parse.op_flags Parse.op_matcher Parse.op_added] in E. injection E as E. subst mt'. by eapply (addBasic_true n (BObject o)).
  - by rewrite Op in E.
Qed.

Lemma addRegex_in n r f mt mt' : Parse.addRegex n r f false mt = Ok mt' → mkRegex n r f [] false ∈ _regexs mt'.
Proof. unfold Parse.addRegex. intros E. parse_inv. set_solver. Qed.

Lemma condition_hold n v mt mt' s s' :
  plain_doc obj → nth 0 n 0 ≠ 36 → condition n v → Parse.parse_elem n v mt = Ok mt' → good mt' →
  QueryParse.handleMatchField inj optimize n v s = Ok s' → bounds_hold s → bounds_hold s'.
Proof.
  intros Plain N C P (G1 & G2 & _) E B. rewrite handle_condition in E by done. rewrite Forall_forall in G2.
  destruct C as [D Pr R Eq Nt|r f -> Rg|o -> No Nd F Rg].
  - rewrite Eq in E. eapply intersect_hold; [|exact E|done]. intros (G & _ & S & Dw & Bw) rg M. destruct (proper_inv _ Pr) as (U & _).
    assert (is_regex v = false) as R' by (by apply orb_false_iff in R as [? _]). pose proof (equality_parse n v mt mt' N Pr R' Eq Nt P G1) as Bt.
    assert (Query.getGtLtOp Equality n = Equality) as O by (by apply no_operator).
    eapply make_equality; [exact Dw|exact Bw|exact O|exact R|exact D|by apply key_value_single| |exact M]. by eapply (equality_value PartialMatch obj n G S (Parse.simple (n, v) Equality false)).
  - cbn in E. rewrite parse_condition in P by done. eapply intersect_hold; [|exact E|done]. intros Fn rg M.
    eapply (regex_hold n (BRegEx r f)); [done|done|done|done|done| |exact M]. apply G2. by eapply addRegex_in.
  - rewrite parse_condition in P by done. assert (QueryParse.is_equality (BObject o) = false) as Eq.
    { destruct F as [|[fn fv] o H F]; [done|]. pose proof (op_named_ops _ H) as Ne. cbn [fst] in Ne. apply Z.eqb_neq in Ne. unfold QueryParse.is_equality. cbn [Query.getGtLtOp_obj Query.first_name fst]. change 0 with Equality. by rewrite Ne. }
    rewrite Eq in E. destruct (Parse.operators _ _ _ _ _) as [x|] eqn:Ops; [|done]. cbn [result_bind] in P.
    destruct (ops_state _ _ _ _ _ _ Nd F Ops) as (A & Rx & Fl). cbn [Parse.op_regex Parse.op_flags] in Rx, Fl. rewrite (A No) in P.
    assert (∃ s0, (if Fields.hasField (bytes "$regex") o then QueryParse.intersectMatchField inj optimize n (n, BObject o) false s else Ok s) = Ok s0 ∧
      bounds_hold s0 ∧ QueryParse.operators inj optimize (QueryParse.handleMatchField inj optimize) n o s0 = Ok s') as (s0 & E0 & B0 & E1).
    { destruct (if Fields.hasField _ _ then _ else _) as [s0|] eqn:E0; [|done]. exists s0. split; [done|]. split; [|exact E].
      destruct (Fields.hasField (bytes "$regex") o) eqn:Hf; [|by inv E0]. eapply intersect_hold; [|exact E0|done]. intros Fn rg M.
      eapply (regex_hold n (BObject o)); [done|done|by cbn|reflexivity|by apply Rg| |exact M].
      unfold Fields.hasField in Hf. unfold string_field. destruct (Fields.getField (bytes "$regex") o) as [e|]; [|done]. rewrite Rx in P. parse_inv. rewrite <- Fl.
      apply G2. by eapply addRegex_in. }
    eapply (ops_hold (QueryParse.handleMatchField inj optimize) Parse.parse_elem n o o _ x s0 s'); [done|done|exact Ops| |exact E1|exact B0].
    assert (grows (Parse.op_matcher x) mt') as (I & _).
    { destruct (Parse.op_regex x); parse_inv; [by eapply grows_addRegex|apply grows_refl]. }
    rewrite Forall_forall in *. auto.
Qed.

(** Fields of an object, one after another *)
Definition step_hold (v : bval) : Prop := ∀ n mt mt' s s',
  rangeable n v → Parse.parse_elem n v mt = Ok mt' → good mt' →
  QueryParse.handleMatchField inj optimize n v s = Ok s' → bounds_hold s → bounds_hold s'.

Lemma fields_hold o mt mt' s s' :
  Forall (λ e : elem, step_hold e.2) o → Forall (λ e : elem, rangeable e.1 e.2) o → Parse.parse_fields Parse.parse_elem o mt = Ok mt' → good mt' →
  QueryParse.init (QueryParse.handleMatchField inj optimize) o s = Ok s' → bounds_hold s → bounds_hold s'.
Proof.
  intros F. revert mt s. induction F as [|[n v] o H F IH]; intros mt s R P G E B; cbn [Parse.parse_fields QueryParse.init] in *; parse_inv; [done|].
  apply Forall_cons in R as [R1 R2]. eapply IH; [done|exact P|done|exact E|].
  eapply H; [exact R1|exact E1| |exact E0|done]. eapply good_grows; [by eapply grows_fields|done].
Qed.

Lemma clauses_hold o l s s' :
  Forall (λ e : elem, hereditary step_hold e.2) o →
  Forall (λ e : elem, ∃ x, e.2 = BObject x ∧ Forall (λ e' : elem, rangeable e'.1 e'.2) x) o →
  Parse.clauses Parse.parse_elem o = Ok l → Forall (λ am, matches am obj = Some true) l →
  QueryParse.handleConjunctionClauses (QueryParse.handleMatchField inj optimize) o s = Ok s' → bounds_hold s → bounds_hold s'.
Proof.
  intros F. revert l s. induction F as [|[n v] o H F IH]; intros l s R P G E B; cbn [Parse.clauses QueryParse.handleConjunctionClauses] in *; [by inv E|].
  apply Forall_cons in R as [(x & Ex & Rx) R]. cbn [snd] in *. subst v. parse_inv. apply Forall_cons in G as [Ga G]. eapply IH; [done|reflexivity|done|exact E|].
  eapply (fields_hold x); [|done|exact E1| |exact E0|done].
  - eapply Forall_impl; [eapply hereditary_embedded; [|exact H]; done|]. intros e. apply hereditary_here.
  - apply matches_good; [|done]. by apply grows_fields in E1 as (_ & _ & _ & ->).
Qed.

Lemma parse_and o mt : Parse.parse_elem (bytes "$and") (BArray o) mt =
  (l <-? Parse.parseExtractedClause Parse.parse_elem (BArray o) ;; Ok (Parse.add_clauses l [] [] mt)).
Proof. by rewrite parse_elem_eq. Qed.

Lemma handle_and o s : QueryParse.handleMatchField inj optimize (bytes "$and") (BArray o) s =
  match o with _ :: _ => QueryParse.handleConjunctionClauses (QueryParse.handleMatchField inj optimize) o s | [] => Err (RangeAssert 14816) end.
Proof. rewrite handleMatchField_eq. by destruct o. Qed.

Lemma element_hold v :
  plain_doc obj → (∀ o, embedded v = Some o → Forall (λ e : elem, hereditary step_hold e.2) o) → step_hold v.
Proof.
  intros Plain H n mt mt' s s' R P G E B. destruct R as [n v N C|o F|n v N Na Eq Or].
  - by eapply condition_hold.
  - rewrite parse_and in P. rewrite handle_and in E. destruct o as [|e o]; [done|]. cbn [Parse.parseExtractedClause] in P. parse_inv.
    destruct G as (_ & _ & G). cbn [_andMatchers Parse.add_clauses] in G. apply Forall_app in G as [_ G]. eapply clauses_hold; [by apply H|exact F|exact E0|exact G|exact E|done].
  - rewrite handleMatchField_eq in E. cbv zeta in E. unfold Fields.dollar in E. rewrite N in E. cbn [Z.eqb Pos.eqb andb] in E.
    rewrite bool_decide_eq_false_2 in E by done. assert (bounds_hold (QueryParse.adjustMatchField s)) as B' by exact B.
    destruct (bool_decide (n = bytes "$or")) eqn:Eo.
    { apply bool_decide_eq_true in Eo. destruct v as [| | | |[|e [|]]| | | | | | | | | | | | | | |]; try (by inv E). by destruct (Or e eq_refl). }
    destruct (_ || _) in E; [by inv E|]. rewrite Eq in E. eapply intersect_hold; [|exact E|done]. intros (_ & N' & _). by rewrite N in N'.
Qed.

Lemma value_hold v : plain_doc obj → hereditary step_hold v.
Proof.
  intros Plain. induction v as [o F|o F|c o F|v N1 N2 N3] using bval_ind'.
  - split; [apply element_hold; [done|]; cbn; by intros ? [= <-]|by apply fields_forall_Forall].
  - split; [apply element_hold; [done|]; cbn; by intros ? [= <-]|by apply fields_forall_Forall].
  - split; [by apply element_hold|by apply fields_forall_Forall].
  - destruct v; try (by split; [apply element_hold|]); [by destruct (N1 o)|by destruct (N2 o)|by destruct (N3 code scope)].
Qed.

Lemma make_hold q singleKey mt s :
  plain_doc obj → Forall (λ e : elem, rangeable e.1 e.2) q → Parse.make q = Ok mt → matches mt obj = Some true →
  QueryParse.make inj optimize q singleKey = Ok s → bounds_hold s.
Proof.
  intros Plain R P M E. pose proof (grows_fields _ _ _ P) as (_ & _ & _ & K). eapply fields_hold; [|exact R|exact P| |exact E|].
  - apply Forall_forall. intros e _. by apply hereditary_here, value_hold.
  - by apply matches_good.
  - intros f (_ & _ & _ & D & _). split; [apply universalRange_ok|apply universalRange_contains].
Qed.
End Query.

Lemma fields_possible_hold m obj s (pattern : list (list Z * Z)) :
  Forall (λ p : list Z * Z, field_ok m obj p.1) pattern → bounds_hold m obj s → RangeSet.fields_possible s (map fst pattern) = true.
Proof.
  intros F H. induction F as [|p pattern Fp F IH]; [done|]. cbn [map RangeSet.fields_possible]. destruct (H _ Fp) as [_ C].
  unfold Range.empty. unfold contains, mem in C. destruct (_intervals (RangeSet.range s p.1)); [by apply Exists_nil in C|]. by destruct (bool_decide _).
Qed.

(** ** The scan of an index visits what the query matches *)

(** C1: A document that a query matches is in the bounds of the scan: from the query the planner derives
    ranges and, for an index, the intervals of its fields; none of the fields of the index has an empty
    range, and the key of the document is in the intervals, whatever the direction of the scan, for
    indexes with and without several keys for a document.  The scope: the query is one of those that
    [rangeable] describes (conditions on fields and [$and] of them; no [$not] and no [$elemMatch], no
    singleton [$or], no operand undefined, MinKey or MaxKey, no order operator with null, regular
    expressions whose prefix the matcher respects); no name in the document has a dot; no field of the
    index leads into an array; and the values of these fields and the operands are in the domain of the
    total order, the values finite where they are numbers. *)
Theorem query_bounds PartialMatch where_exec m optimize q mt obj singleKey s pattern sparse k :
  plain_doc obj → Forall (λ e : elem, rangeable PartialMatch m e.1 e.2) q →
  Parse.make q = Ok mt → Match.matches PartialMatch where_exec mt obj = Some true →
  QueryParse.make (inject m) optimize q singleKey = Ok s →
  pattern ≠ [] → Forall (λ p : list Z * Z, field_ok m obj p.1) pattern →
  KeyGen.getKeys (map fst pattern) sparse obj = Ok [k] →
  RangeSet.fields_possible s (map fst pattern) = true ∧
  ∀ rawdata_eq direction v, Vector.make rawdata_eq s direction pattern = Ok v → Vector.matchesKey v (map (inject m) k) = Some true.
Proof.
  intros Plain R P M E Ne F G. pose proof (make_hold PartialMatch where_exec m optimize obj q singleKey mt s Plain R P M E) as H.
  split; [by apply (fields_possible_hold m obj)|]. intros rawdata_eq direction v V. rewrite getKeys_single in G.
  2: by destruct pattern. 2: { apply Forall_map. eapply Forall_impl; [exact F|]. intros [f z] (Gn & _ & S & _). split; [by destruct f|done]. }
  destruct (_ && _); [done|]. injection G as <-. rewrite !map_map.
  assert (Forall (λ p, range_ok (RangeSet.range s p.1)) pattern) as Rs by (eapply Forall_impl; [exact F|]; intros p Fp; by apply H).
  destruct (make_vector_ok rawdata_eq s direction pattern v Rs V) as (Vok & Len & Pat).
  set (φ := λ f, inject m ([], key_value f obj)). change (map _ pattern) with (map (λ p : list Z * Z, φ p.1) pattern).
  destruct (matchesKey_spec v Vok ltac:(by rewrite Pat) (map (λ p : list Z * Z, φ p.1) pattern)) as (b & -> & Q).
  { unfold key_ok. by rewrite length_map. }
  f_equal. apply Q. apply (make_keymatch rawdata_eq s direction pattern v φ Rs V). eapply Forall_impl; [exact F|]. intros p Fp. by apply H.
Qed.

(** ** Negated comparisons *)

Section Negated.
Context (m : date_mode) (n fn : list Z) (v : bval).
#[local] Abbreviation inj := (inject m).
#[local] Abbreviation op := (Query.getGtLtOp Equality fn).
#[local] Abbreviation query := [(n, BObject [(bytes "$not", BObject [(fn, v)])])].
Context (Op : op = LT ∨ op = LTE ∨ op = GT ∨ op = GTE) (Simple : Element.isSimpleType v = true) (D : elem_dom m (fn, v) = true).

(** The bounds are the complementary ones. *)
Definition not_bounds : bounds :=
  if op =? LT then mkBounds (fn, v) true ([], BMaxKey) true else if op =? LTE then mkBounds (fn, v) false ([], BMaxKey) true
  else if op =? GT then mkBounds ([], BMinKey) true (fn, v) true else mkBounds ([], BMinKey) true (fn, v) false.

Lemma make_not r : QueryRange.make inj true (fn, v) true = Ok r → _intervals r = [QueryRange.interval inj (QueryRange.bracket not_bounds)].
Proof.
  unfold QueryRange.make, not_bounds. cbn [fst snd].
  destruct Op as [O|[O|[O|O]]]; rewrite O; destruct v; try discriminate Simple; intros E; injection E as <-; reflexivity.
Qed.

Lemma not_bounds_bracket w :
  elem_dom m ([], w) = true → bounded w = true →
  bounds_dom m (QueryRange.bracket not_bounds) ∧
  (in_bounds (QueryRange.bracket not_bounds) ([], w) ↔ Element.canonicalType w = Element.canonicalType v ∧ in_bounds not_bounds ([], w)).
Proof.
  intros Dw Bw. destruct (simple_dom m fn v Simple D) as [D1 D2]. unfold not_bounds.
  destruct Op as [O|[O|[O|O]]]; rewrite O; cbn [LT LTE GT GTE Z.eqb Pos.eqb];
    (split; [by destruct v; try discriminate Simple; split|]); first [by apply (bracket_lower m)|by apply (bracket_upper m)].
Qed.

(** The range holds the values of the type of the operand for which the comparison fails. *)
Lemma negated_range obj r :
  field_ok m obj n → QueryRange.make inj true (fn, v) true = Ok r →
  contains r (inj ([], key_value n obj)) ↔
  Element.canonicalType (key_value n obj) = Element.canonicalType v ∧ order_result obj n op v = false.
Proof.
  intros (_ & _ & _ & Dw & Bw) M. destruct (not_bounds_bracket _ Dw Bw) as [Db I]. unfold contains, mem. rewrite (make_not _ M), Exists_cons, Exists_nil.
  rewrite (in_interval m) by done. rewrite I. unfold order_result. set (w := key_value n obj) in *.
  assert (Element.canonicalType w = Element.canonicalType v →
    in_bounds not_bounds ([], w) ↔ (let c := Element.compareElementValues w v in
      (if op =? LT then c <? 0 else if op =? LTE then c <=? 0 else if op =? GT then 0 <? c else 0 <=? c) = false)) as X.
  { intros C. pose proof (cmp_opp m _ _ D Dw) as Opp. pose proof (min_le w) as L. pose proof (max_ge w) as U.
    rewrite (cmp_value [] w fn v C), (cmp_value fn v [] w (eq_sym C)) in Opp. unfold not_bounds, in_bounds.
    destruct Op as [O|[O|[O|O]]]; rewrite O; cbn [LT LTE GT GTE Z.eqb Pos.eqb b_lower b_upper b_lowerInclusive b_upperInclusive];
      rewrite ?(cmp_value [] w fn v C), ?(cmp_value fn v [] w (eq_sym C)), ?Z.ltb_ge, ?Z.leb_gt; lia. }
  cbv zeta in *. split.
  - intros [[C B]|[]]. split; [done|]. rewrite C, Z.eqb_refl. cbn [andb]. by apply X.
  - intros [C B]. left. split; [done|]. apply X; [done|]. rewrite C, Z.eqb_refl in B. exact B.
Qed.

(** The matcher of the query has one element, which is negated. *)
Lemma negated_matches PartialMatch where_exec obj mt :
  good_name n = true → nth 0 n 0 ≠ 36 → single n obj = true → Parse.make query = Ok mt →
  Match.matches PartialMatch where_exec mt obj = Some (negb (order_result obj n op v)).
Proof.
  clear D. intros G N S P. destruct (parse_not _ _ _ _ N P) as (y & Hy & Ey).
  assert (Parse.op_regex y = None ∧ extends [Parse.simple (n, v) op true] Parse.new (Parse.op_matcher y)) as [R X].
  { revert Hy. unfold Parse.addOp. rewrite (getGtLtOp_def Equality (-1)) by (destruct Op as [O|[O|[O|O]]]; rewrite O; discriminate).
    destruct Op as [O|[O|[O|O]]]; rewrite O; destruct v; try discriminate Simple; intros E; injection E as <-; (split; [reflexivity|]); repeat split. }
  rewrite (Ey R), (matches_extends _ _ _ _ _ X). change (Parse.simple (n, v) op true) with (flip_not (Parse.simple (n, v) op false)).
  rewrite basic_matches_flip, (order_value_eq PartialMatch obj n G S (Parse.simple (n, v) op false)); [done|done|exact Op|done|..]; by destruct v; try discriminate Simple.
Qed.

Lemma negated_ranges singleKey s :
  nth 0 n 0 ≠ 36 → QueryParse.make inj true query singleKey = Ok s →
  ∃ r, QueryRange.make inj true (fn, v) true = Ok r ∧ _intervals (RangeSet.range s n) = _intervals r.
Proof.
  intros N. unfold QueryParse.make. cbn [QueryParse.init]. rewrite handle_condition by done. cbn [QueryParse.is_equality].
  change (QueryParse.is_equality _) with false. change (Fields.hasField (bytes "$regex") _) with false. cbn [result_bind QueryParse.operators].
  rewrite bool_decide_eq_true_2 by done. cbn [QueryParse.handleNotOp QueryParse.not_ops]. unfold QueryParse.handleOp.
  assert ((op =? Equality) = false ∧ (op =? opALL) = false ∧ (op =? opELEM_MATCH) = false) as (-> & -> & ->) by (destruct Op as [O|[O|[O|O]]]; rewrite O; done).
  cbn [negb range_assert result_bind]. unfold QueryParse.intersectMatchField. destruct (QueryRange.make _ _ _ _) as [r|]; [|done]. cbn [result_bind].
  intros E. injection E as <-. exists r. split; [done|].
  assert (∀ (b : bool) (s0 : FieldRangeSet (scan_elem m)), RangeSet.range (if b then QueryParse.set_exact false s0 else s0) n = RangeSet.range s0 n) as X by (by intros []).
  rewrite X, range_assign, bool_decide_eq_true_2 by done. reflexivity.
Qed.
End Negated.

(** C13: A comparison inside [$not] gets the complementary range of the type of its operand: the range holds
    exactly the matching values of that type.  A value of any other type matches too and is outside the
    range, so a scan of an index over the range misses the document. *)
Theorem query_bounds_not PartialMatch where_exec m n fn v obj mt singleKey s :
  let op := Query.getGtLtOp Equality fn in
  let query := [(n, BObject [(bytes "$not", BObject [(fn, v)])])] in
  op = LT ∨ op = LTE ∨ op = GT ∨ op = GTE → Element.isSimpleType v = true → elem_dom m (fn, v) = true → field_ok m obj n →
  Parse.make query = Ok mt → QueryParse.make (inject m) true query singleKey = Ok s →
  let w := key_value n obj in
  (contains (RangeSet.range s n) (inject m ([], w)) ↔
     Element.canonicalType w = Element.canonicalType v ∧ Match.matches PartialMatch where_exec mt obj = Some true) ∧
  (Element.canonicalType w ≠ Element.canonicalType v → Match.matches PartialMatch where_exec mt obj = Some true).
Proof.
  intros op query Op Simple D F P E w. pose proof F as (G & N & S & _).
  destruct (negated_ranges m n fn v Op singleKey s N E) as (r & M & R).
  rewrite (negated_matches n fn v Op Simple PartialMatch where_exec obj mt G N S P). split.
  - assert (contains (RangeSet.range s n) (inject m ([], w)) ↔ contains r (inject m ([], w))) as -> by (unfold contains; by rewrite R).
    unfold w. rewrite (negated_range m n fn v Op Simple D obj r F M). fold op w.
    destruct (order_result obj n op v); naive_solver.
  - intros C. unfold order_result. fold w. by rewrite (proj2 (Z.eqb_neq _ _) C).
Qed.

(** ** Witness *)

Module BoundsExample.

(** A search that finds the prefix [simpleRegex] derives *)
Definition search (r : list Z) (o : RE_Options) (t : list Z) : bool :=
  match Regex.simpleRegex r [] with Some (p, _) => bool_decide (p `prefix_of` t) | None => false end.
Definition no_where (w : bval) (o : bobj) : option bool := None.

Definition a : list Z := bytes "a".
Definition b : list Z := bytes "b".
Definition query : bobj := [
  (a, BObject [(bytes "$gte", BInt 5); (bytes "$in", BArray [(bytes "0", BInt 7); (bytes "1", BRegEx (bytes "^q") [])])]);
  (b, BRegEx (bytes "^ab") []);
  (bytes "$and", BArray [(bytes "0", BObject [(a, BObject [(bytes "$ne", BInt 6)])])])].
Definition doc : bobj := [(a, BInt 7); (b, BString (bytes "abc"))].
Definition pattern : list (list Z * Z) := [(a, 1); (b, -1)].
Definition key : bobj := [([], BInt 7); ([], BString (bytes "abc"))].
Definition mode : date_mode := DatesOnly.

Lemma search_faithful r : regex_faithful search r [].
Proof. intros p q t E. unfold search. rewrite E. by intros H%bool_decide_eq_true. Qed.

Lemma query_rangeable : Forall (λ e : elem, rangeable search mode e.1 e.2) query.
Proof.
  assert (∀ r p, Regex.simpleRegex r [] = Some (p, true) → forallb byte0 p = true → List.last p 0 ≠ 255 → elem_dom mode ([], BRegEx r []) = true → regex_good search mode r []) as Good.
  { intros r p E B L D. split; [split; [done|]|apply search_faithful]. intros p' b' E'. rewrite E in E'. inv E'. right. done. }
  apply Forall_cons. split; [|apply Forall_cons; split; [|apply Forall_cons; split; [|by apply Forall_nil]]].
  - apply r_cond; [done|]. eapply cond_ops; [reflexivity|done| |apply Forall_cons; split; [left|apply Forall_cons; split; [left|by apply Forall_nil]]|done].
    + apply (bool_decide_eq_true_1 (NoDup _)). by vm_compute.
    + split; [reflexivity|]. split; [reflexivity|]. left. split; [right; right; right|]; reflexivity.
    + split; [reflexivity|]. split; [reflexivity|]. right. right. left. split; [reflexivity|]. split; [reflexivity|]. intros o [= <-]. split; [by repeat constructor|].
      intros n r f I. assert (r = bytes "^q" ∧ f = []) as [-> ->] by set_solver. by eapply (Good (bytes "^q") (bytes "q")).
  - apply r_cond; [done|]. eapply cond_regex; [reflexivity|]. by eapply (Good (bytes "^ab") (bytes "ab")).
  - apply r_and. apply Forall_singleton. eexists. split; [reflexivity|]. apply Forall_singleton. apply r_cond; [done|].
    eapply cond_ops; [reflexivity|done| |apply Forall_singleton; left|done].
    + apply (bool_decide_eq_true_1 (NoDup _)). by vm_compute.
    + split; [reflexivity|]. split; [reflexivity|]. right. left. by left.
Qed.

Lemma doc_fields : Forall (λ p : list Z * Z, field_ok mode doc p.1) pattern.
Proof. repeat constructor; cbn; lia || done. Qed.

Definition is_ok {E A} (x : result E A) : bool := match x with Ok _ => true | Err _ => false end.

Lemma query_bounds_witness :
  ∃ s v, QueryParse.make (inject mode) true query true = Ok s ∧ Vector.make (λ _ _, false) s 1 pattern = Ok v ∧
    Vector.matchesKey v (map (inject mode) key) = Some true.
Proof.
  assert (is_ok (s <-? match QueryParse.make (inject mode) true query true with Ok s => Ok s | Err _ => Err 0 end ;; Vector.make (λ _ _, false) s 1 pattern) = true) as Def
    by (vm_compute; reflexivity).
  destruct (QueryParse.make (inject mode) true query true) as [s|] eqn:E; [|discriminate Def]. cbn [result_bind] in Def.
  destruct (Vector.make (λ _ _, false) s 1 pattern) as [v|] eqn:V; [|discriminate Def]. exists s, v. split; [done|]. split; [exact V|].
  destruct (Parse.make query) as [mt|] eqn:P; [|vm_compute in P; discriminate P].
  refine (proj2 (query_bounds search no_where mode true query mt doc true s pattern false key _ query_rangeable P _ E _ doc_fields _) (λ _ _, false) 1 v V).
  - repeat constructor.
  - assert (match Parse.make query with Ok mt => Match.matches search no_where mt doc | Err _ => None end = Some true) as M by (vm_compute; reflexivity).
    rewrite P in M. exact M.
  - discriminate.
  - reflexivity.
Defined.

(** { a: { $not: { $gt: 5 } } } and a document with a string, or with the number 3 *)
Definition negated : bobj := [(a, BObject [(bytes "$not", BObject [(bytes "$gt", BInt 5)])])].
Definition text : bobj := [(a, BString (bytes "x"))].
Definition three : bobj := [(a, BInt 3)].

Lemma query_bounds_not_witness :
  ∃ mt s, Parse.make negated = Ok mt ∧ QueryParse.make (inject mode) true negated true = Ok s ∧
    (Match.matches search no_where mt text = Some true ∧ ¬ contains (RangeSet.range s a) (inject mode ([], BString (bytes "x")))) ∧
    (Match.matches search no_where mt three = Some true ∧ contains (RangeSet.range s a) (inject mode ([], BInt 3))).
Proof.
  destruct (Parse.make negated) as [mt|] eqn:P; [|vm_compute in P; discriminate P].
  assert (is_ok (QueryParse.make (inject mode) true negated true) = true) as Def by (vm_compute; reflexivity).
  destruct (QueryParse.make (inject mode) true negated true) as [s|] eqn:E; [|discriminate Def]. exists mt, s. split; [done|]. split; [done|].
  assert (match Parse.make negated with Ok mt => Match.matches search no_where mt three | Err _ => None end = Some true) as M by (vm_compute; reflexivity).
  rewrite P in M.
  destruct (query_bounds_not search no_where mode a (bytes "$gt") (BInt 5) text mt true s) as [T1 T2];
    [by right; right; left|reflexivity|reflexivity|repeat constructor; cbn; lia || done|exact P|exact E|].
  destruct (query_bounds_not search no_where mode a (bytes "$gt") (BInt 5) three mt true s) as [N1 N2];
    [by right; right; left|reflexivity|reflexivity|repeat constructor; cbn; lia || done|exact P|exact E|].
  split; split.
  - apply T2. discriminate.
  - intros [C _]%T1. discriminate C.
  - exact M.
  - apply N1. split; [reflexivity|exact M].
Defined.

End BoundsExample.

(** ** Infinity *)

Module BoundsInfinity.

(** The key of a document in the bounds of a query on the field [a] *)
Definition in_scan (query : bobj) (key : bval) : option bool :=
  match QueryParse.make (inject DatesOnly) true query true with
  | Ok s => match Vector.make (λ _ _, false) s 1 [(bytes "a", 1)] with Ok v => Vector.matchesKey v [inject DatesOnly ([], key)] | Err _ => None end
  | Err _ => None
  end.
Definition match_doc (query doc : bobj) : option bool :=
  match Parse.make query with Ok mt => Match.matches (λ _ _ _, false) (λ _ _, None) mt doc | Err _ => None end.

Definition infinity : bval := BDouble (2047 * 2 ^ 52).

(** The bounds of the type of numbers end at the largest finite double, so the values have to be finite:
    [{ a: { $gt: 5 } }] matches infinity, and the scan of an index does not visit its key. *)
Example query_bounds_infinity :
  let greater := [(bytes "a", BObject [(bytes "$gt", BInt 5)])] in
  match_doc greater [(bytes "a", infinity)] = Some true ∧ in_scan greater infinity = Some false.
Proof. vm_compute. done. Qed.

End BoundsInfinity.
